(* ===== verification/_CoqProject ===== *)
-Q . S2P
Prelude.v
Utf8.v
Numbers.v
Errors.v
Packets.v
RemainingLength.v
Topics.v
Wire.v
Codec.v
CodecSafety.v
CodecRoundtrip.v
Queue.v
QueueConc.v
Broker.v
BrokerSpec.v
Sharded.v
ShardedSpec.v
ShardedConc.v
Connection.v
ConnectionSpec.v
Main.v
Logging.v
Socket.v
Client.v
ClientSpec.v
ClientFlows.v
ClientFlowsSpec.v
Bench.v
BenchSpec.v
BenchChannel.v
System.v
SystemSpec.v
SystemLive.v
SystemOrder.v
SystemRace.v
Process.v
ProtocolProps.v
QueueProps.v
BrokerProps.v
ShardedProps.v
ConnectionProps.v
ClientProps.v
BenchProps.v
SystemProps.v
TestKit.v
ProtocolTests.v
QueueTests.v
ConnectionTests.v
BrokerTests.v
RacingTests.v
ClientTests.v
