(* ===== verification/Prelude.v ===== *)
(** * BlitzBroker: verification development

    BlitzBroker is an MQTT 3.1.1 broker in Rust without third-party crates, with a
    command-line client and a benchmark.  This library models its code (src/src/ of the repository)
    and proves what makes it correct.  It is a shallow embedding: a Rust function is
    a function here, with its guards in the order of the source; a [Result] with a
    possible panic or an endless loop is an [outcome] (below); a [&mut] argument is
    an argument and a result; an effect on the world (a message sent, an event
    queued, a packet written, a line logged) is a value in a list of calls.

    ** The program

<<
    socket ==> reader_loop --decode--> dispatch_packet --BrokerSend--> ShardedBroker::send
                    |                        |                              | (mpsc)
                    |                        v                              v
                    |                 outbound queue <----push---- run_broker, one per shard
                    v                        |
                 teardown                    v
    socket <== writer_loop <--encode-- pop_blocking
>>

    For each accepted connection [handle_connection] runs a reader on its own thread
    and a writer on another.  The reader decodes packets from a byte buffer, answers
    some of them on the connection's own queue and sends the rest to the broker.  The
    broker is a number of actor threads, the shards, each with its own registry; a
    topic belongs to one shard, and what concerns all topics (registering, leaving,
    wildcard filters) goes to all shards.  A shard pushes to the outbound queues of
    the clients, which drop their oldest event when full, and the writer empties its
    queue to the socket.

    ** Files

    - [Prelude]: outcomes, checked indices and arithmetic, bytes, [loop] with fuel,
      the weakest-precondition notation [WP], tactics and generic list lemmas.
    - [Utf8], [Numbers]: the parts of Rust's standard library that the program uses
      on strings: [from_utf8], [from_utf8_lossy], [parse] and [Display] of unsigned
      integers.  A string is the list of its UTF-8 bytes.
    - [Errors] (error.rs), [Packets] (protocol.rs 16-125): the data.
    - [RemainingLength] (protocol.rs 229-283), [Topics] (421-508), [Codec] (the rest):
      the broker's codec.  [Wire]: the format, as the bytes [wire] of a packet and as the
      grammar [frame] of what a broker must accept.  [CodecSafety]: what the decoders
      return on any bytes is in the grammar.  [CodecRoundtrip]: the converse, round trips,
      framing.
    - [Queue] (queue.rs): the outbound queue, operation by operation.  [QueueConc]:
      the same operations as atomic steps of several threads.
    - [Broker] (broker.rs 91-294): [run_broker] and its handlers.  [BrokerSpec]: its
      contract [delivers], a function of the messages received.
    - [Sharded] (broker.rs 66-89, 296-427): [shard_for_topic], [ShardedBroker::send],
      [spawn_sharded_broker].  [ShardedSpec]: the shards together refine one broker.
      [ShardedConc]: the shards and the connection threads as a step relation.
    - [Connection] (connection.rs): the class [BrokerSend] with its two instances,
      the reader, the dispatch of a packet, the writer, [handle_connection].
      [ConnectionSpec]: what they do with a stream of bytes.
    - [System] (connection.rs, broker.rs, queue.rs): the whole process, all readers,
      shards and writers as interleaved steps, the queues on the steps of [QueueConc].
      [SystemSpec]: its invariant.  [SystemLive]: why every run ends, where it can end,
      and how a connection hangs.  [SystemOrder]: the order of a publisher's messages on
      their way to a subscriber.  [SystemRace]: a SUBACK against a retained message.
    - [Main] (main.rs): the broker's command line and [main].  [Process]: the connections
      that [main]'s threads open, which [System] starts from.
    - [Logging] (logging.rs, and the texts of connection.rs and main.rs): the log's lines.
    - [Socket]: a TCP stream as the two programs under bin/ use it.
    - [Client], [ClientFlows] (bin/blitzclient.rs): the client's codec, which shares
      no code with the broker's, and its command line, [run_pub] and [run_sub].
      [ClientSpec], [ClientFlowsSpec]: client and broker against each other.
    - [Bench] (bin/shard_benchmark.rs): the benchmark's codec, command line, sessions,
      a channel (publisher, broker's queue, subscriber and the rendezvous between them) as
      interleaved steps, and [main] with its barrier and its joins.  [BenchSpec]: its codec
      is the client's, its sessions, its barrier.  [BenchChannel]: the invariant of a
      channel, and what becomes of it with other batch sizes.
    - [ProtocolProps], [QueueProps], [BrokerProps], [ShardedProps], [ConnectionProps],
      [ClientProps], [BenchProps], [SystemProps]: the properties, each with an instance at
      a concrete input.
    - [ProtocolTests], [QueueTests], [ConnectionTests], [BrokerTests], [RacingTests],
      [ClientTests]: the unit tests of the source, test by test, on the definitions of
      this library, and each file that they pass: a check of the model, not a property of
      the program; [TestKit] is what they use of the harness.  [RacingTests] has those that
      run beside the broker's threads, as processes that branch over what the threads may
      have done.

    The names are those of the source.  Where the source reuses a field name in two
    structures the second has a prefix ([pub_packet_id]).  A constant list of bytes
    is written [str "..."].

    ** What the theorems show

    - Codec ([ProtocolProps]): [decode] returns on every buffer without a panic and
      accepts exactly the frames of the grammar, each for the packet it stands for; it
      waits exactly on the proper beginnings of a frame; [encode] writes the standard's
      layout and [decode] reads it back; an answer does not depend on bytes that come
      later; topic filters are validated and matched as section 4.7 of the standard says.
    - Outbound queue ([QueueProps]): bounded, first in first out, every item popped,
      queued or reported as dropped; linearizable, with the result of every call; no lost
      wakeup for a push.  A close can lose its wakeup, which is a finding.
    - Broker ([BrokerProps]): the registry represents the history of messages and
      every message is delivered as the contract says; a publish reaches a client
      once; retained messages, subscriptions and disconnects follow the history.
    - Shards ([ShardedProps]): for any number of shards and any hash the shards make
      together the pushes of one broker; under every interleaving a shard has seen a
      prefix of what each connection sent to it, and all of it once it caught up.
    - Connections ([ConnectionProps]): however the stream is cut into reads, the
      reader dispatches exactly its packets; it tears down exactly once; what it tells
      the broker is well-formed, and so is everything that the broker pushes and the
      writer encodes; no bytes make it log a line that is not its own.
    - The whole process ([SystemProps]): under every interleaving, on any bytes and with
      any failing writes, a socket has whole frames of well-formed packets that were asked
      for before, and then at most a part of one; the messages of one publisher on one topic
      reach a subscriber in their order and at most once; every run with finitely many
      spurious wakeups ends, and when nothing can happen any more all has been handled, the
      writers that are still there have written all, and a connection's thread has returned,
      waits for bytes, or hangs in [join] because of the lost wakeup of the close, which it
      can; and this is what [main] starts, for any arguments and any connections.
    - Client and command lines ([ClientProps]): the two codecs agree in both
      directions, the client's sessions succeed against the broker's answers, and no
      received byte makes the client panic; the two command lines are total.
    - Benchmark ([BenchProps]): with a batch between 1 and 128 the backpressure works, no
      message is dropped and every schedule of a channel ends with all of them received;
      its sessions succeed against the broker; with which arguments, connections and batch
      sizes [main] gets to its report, and where it stays otherwise.

    ** Bounds and fuel

    An unsigned integer is a [Z] with its range in a hypothesis or an invariant; an
    addition that Rust checks is [add_usize] (or the [u32] variants), which panics out
    of range.  Lengths are assumed to be at most [isize_max], the limit that Rust puts
    on every allocation.  A loop is [loop] with fuel, which gives [Diverge] when the
    fuel is used up; that it never is, is part of the theorems (they exclude [Diverge]).
    The Remaining Length loops have a fuel of 5: the decoder rejects in its fifth
    iteration and the encoder shifts 32 bits by 7.  The loops over a packet's body have
    one more than the length of the body, since an iteration consumes two bytes or
    more; the reader's drain loop one more than its buffer, since a packet has two
    bytes or more; the client's receive loop one more than the bytes to come; the
    argument loops one more than the number of arguments; the benchmark's batch loops one
    more than the number of messages, since a batch has one or more.  The reader's and the
    writer's outer loops run on the results of [read] and [write_all] and are
    structural.  Runs of [System] have no fuel: that they end is proved by a measure, for
    any bound on the number of times that [Condvar::wait] returns without a notification.

    ** Parameters

    - [HashOrder]: the order in which a [HashMap] is iterated, which Rust leaves
      open.  It may be another one for every message.
    - [TopicHasher]: the hash of a topic ([DefaultHasher]); all that is known is that
      it is a 64-bit number.
    - The sockets and the listener: their results are inputs of the model.  In [System] a
      reader's reads are given, and a [write_all] returns some time, with any result.
    - The size of a [Sender], which decides how many shards a [Vec] can hold.
    - [std::io::Error]: its type and its text.
    - The clock of the log, and the [Debug] format of a string in one of its lines.

    ** Not modelled

    The client's progress lines on stderr; the benchmark's clock and the figures of its
    report; the scripts and the interoperability tests, which drive the built
    programs from outside; lock poisoning, which needs a panic in a critical section;
    failure to allocate or to spawn a thread; a socket of the benchmark that fails after
    the barrier.  Keep-alive, sessions and wills are not
    implemented by the code.

    ** To be extended

    In this order: the accept loop as a step of [System]; the benchmark's channels on
    [System] instead of on a queue of their own.

    ** Findings

    [close_can_lose_wakeup]: [close] stores its flag under another mutex than the
    one the consumer waits with, so that its notification can fall between the
    consumer's check and its wait; the writer thread then sleeps for ever and
    [handle_connection], which joins it, never returns ([close_hangs_connection]).
    [replay_can_overtake_suback]: a retained message may be queued before the
    SUBACK, and the client's [run_sub] then gives up. [broker_args]: a huge value of
    --shards passes [parse_args] and makes [spawn_sharded_broker] panic.
    [live_publish_verbatim]: a live PUBLISH is forwarded with the publisher's RETAIN
    flag, QoS and packet identifier, where comments and the README say that the flag
    tells a replay and that delivery is at QoS 0.
    [bench_main]: the benchmark can hang for batches above the queue's capacity, never ends
    for batches of size 0, and hangs when a connection fails, since its barrier then never
    opens; an option without a good value makes it panic. *)

From stdpp Require Export base list gmap strings pretty.
From Stdlib Require Export ZArith Lia.

#[global] Open Scope Z_scope.
#[export] Set Warnings "-clear-no-such-hyp".

(** [lia] on quotients and remainders. *)
Ltac Zify.zify_post_hook ::= Z.div_mod_to_equations.

(** ** Outcomes: Rust's [Result] together with the two ways of not returning

    [Ok] and [Err] are the constructors of Rust's [Result].  [Panic] is a Rust
    panic (an index or slice out of range, an arithmetic overflow under the
    debug profile) and [Diverge] is a [loop] that used up its fuel.  A function
    that is proved never to give [Panic] or [Diverge] behaves the same under the
    debug and the release profile. *)

Inductive outcome (E A : Type) : Type :=
| Ok (a : A)
| Err (e : E)
| Panic
| Diverge.

Arguments Ok {E A} a.
Arguments Err {E A} e.
Arguments Panic {E A}.
Arguments Diverge {E A}.

#[export] Instance outcome_ret E : MRet (outcome E) := fun A a => Ok a.

#[export] Instance outcome_bind E : MBind (outcome E) := fun A B k o =>
  match o with
  | Ok a => k a
  | Err e => Err e
  | Panic => Panic
  | Diverge => Diverge
  end.

(** [Result::map_err]. *)
Definition map_err {E F A} (f : E -> F) (o : outcome E A) : outcome F A :=
  match o with
  | Ok a => Ok a
  | Err e => Err (f e)
  | Panic => Panic
  | Diverge => Diverge
  end.

(** [Option::ok_or]. *)
Definition ok_or {E A} (e : E) (o : option A) : outcome E A :=
  match o with Some a => Ok a | None => Err e end.

(** ** Machine integers

    Every unsigned Rust integer is a [Z]; the width is written where it matters. *)

Definition u8_ok (x : Z) : bool := (0 <=? x) && (x <? 256).
Definition u16_ok (x : Z) : bool := (0 <=? x) && (x <? 65536).

Definition u16_max : Z := 65535.
Definition u32_max : Z := 4294967295.
Definition usize_max : Z := 18446744073709551615.
(** The largest length of a [Vec] or a slice. *)
Definition isize_max : Z := 9223372036854775807.

(** [as u8], [as u16] and [as u32] truncate. *)
Definition as_u8 (x : Z) : Z := x mod 256.
Definition as_u16 (x : Z) : Z := x mod 65536.
Definition as_u32 (x : Z) : Z := x mod 4294967296.

Definition checked_add_usize (a b : Z) : option Z :=
  if a + b <=? usize_max then Some (a + b) else None.

(** The operators [+], [*] and [-], which panic on overflow in a debug build. *)
Definition add_usize {E} (a b : Z) : outcome E Z :=
  if a + b <=? usize_max then Ok (a + b) else Panic.
Definition add_u32 {E} (a b : Z) : outcome E Z :=
  if a + b <=? u32_max then Ok (a + b) else Panic.
Definition mul_u32 {E} (a b : Z) : outcome E Z :=
  if a * b <=? u32_max then Ok (a * b) else Panic.
Definition pow_u32 {E} (a b : Z) : outcome E Z :=
  if a ^ b <=? u32_max then Ok (a ^ b) else Panic.

Definition u16_from_be_bytes (hi lo : Z) : Z := hi * 256 + lo.
Definition u16_to_be_bytes (x : Z) : list Z := [x / 256; x mod 256].

#[global] Arguments u16_from_be_bytes : simpl never.
#[global] Arguments u16_to_be_bytes : simpl never.

(** ** Vectors, slices and strings

    A [Vec<T>] or [&[T]] is a list; a byte is a [Z] in [0..255].  A Rust [String]
    or [&str] is the list of its UTF-8 bytes: every byte the source looks for in
    a string ('/', '+', '#', '-') is ASCII, and no byte of a multi-byte character
    is below 128, so a search by characters and a search by bytes agree. *)

Abbreviation bytes := (list Z) (only parsing).
Abbreviation rstring := (list Z) (only parsing).

Definition len {A} (l : list A) : Z := Z.of_nat (length l).

(** [v[i]] *)
Definition index {E A} (l : list A) (i : Z) : outcome E A :=
  if i <? 0 then Panic
  else match l !! Z.to_nat i with Some a => Ok a | None => Panic end.

(** [&v[a..b]] *)
Definition slice {E A} (l : list A) (a b : Z) : outcome E (list A) :=
  if (0 <=? a) && (a <=? b) && (b <=? len l)
  then Ok (take (Z.to_nat (b - a)) (drop (Z.to_nat a) l))
  else Panic.

(** [&v[a..]] *)
Definition slice_from {E A} (l : list A) (a : Z) : outcome E (list A) :=
  slice l a (len l).

(** The bytes of an ASCII literal of the source. *)
Definition str (s : string) : rstring :=
  map (fun a => Z.of_N (Ascii.N_of_ascii a)) (String.list_ascii_of_string s).
Arguments str s%_string_scope : simpl never.

(** [s.contains(c)] for an ASCII character [c]. *)
Definition contains (c : Z) (s : rstring) : bool := bool_decide (c ∈ s).

(** [s.split(c)]: the pieces between the occurrences of [c], one at least. *)
Fixpoint split (c : Z) (s : rstring) : list rstring :=
  match s with
  | [] => [[]]
  | b :: s' =>
      if b =? c then [] :: split c s'
      else match split c s' with
           | [] => [[b]]
           | p :: ps => (b :: p) :: ps
           end
  end.

(** ** Loops

    [loop fuel step s] runs a Rust [loop] whose body is [step] on the loop's
    variables: [inl] is the next iteration, [inr] a [break] with a value. *)
Fixpoint loop {E S A} (fuel : nat) (step : S -> outcome E (S + A)) (s : S) : outcome E A :=
  match fuel with
  | O => Diverge
  | Datatypes.S fuel' =>
      r ← step s;
      match r with
      | inl s' => loop fuel' step s'
      | inr a => Ok a
      end
  end.

(** A [for] loop over a list whose body may return early. *)
Fixpoint foldM {E A B} (f : B -> A -> outcome E B) (b : B) (l : list A) : outcome E B :=
  match l with
  | [] => Ok b
  | a :: l' => b' ← f b a; foldM f b' l'
  end.

(** ** A weakest precondition for outcomes

    [wp o Q R]: [o] returns, a value that satisfies [Q] or an error that
    satisfies [R]; in particular it neither panics nor diverges. *)
Definition wp {E A} (o : outcome E A) (Q : A -> Prop) (R : E -> Prop) : Prop :=
  match o with
  | Ok a => Q a
  | Err e => R e
  | Panic | Diverge => False
  end.

Declare Scope blitz_scope.
Delimit Scope blitz_scope with blitz.
#[global] Open Scope blitz_scope.
Notation "'WP' o '{{' a ',' Q '|' e ',' R '}}'" :=
  (wp o (fun a => Q) (fun e => R))
  (at level 0, o at level 9, a binder, e binder, Q, R at level 200) : blitz_scope.

(** ** Lengths *)

Lemma len_nil {A} : len (@nil A) = 0.
Proof. reflexivity. Qed.

Lemma len_cons {A} (x : A) l : len (x :: l) = 1 + len l.
Proof. unfold len. simpl. lia. Qed.

Lemma len_app {A} (l1 l2 : list A) : len (l1 ++ l2) = len l1 + len l2.
Proof. unfold len. rewrite length_app. lia. Qed.

Lemma len_map {A B} (f : A -> B) l : len (map f l) = len l.
Proof. unfold len. by rewrite length_map. Qed.

Lemma len_nonneg {A} (l : list A) : 0 <= len l.
Proof. unfold len. lia. Qed.

Lemma len_to_nat {A} (l : list A) : Z.to_nat (len l) = length l.
Proof. unfold len. lia. Qed.

Lemma len_zero {A} (l : list A) : len l = 0 <-> l = [].
Proof. unfold len. destruct l; simpl; split; intros; try done; lia. Qed.

Create Rewrite HintDb len.
#[export] Hint Rewrite @len_nil @len_cons @len_app @len_map : len.

(** Closes linear goals about the lengths of lists in context. *)
Ltac len_lia :=
  autorewrite with len in *;
  repeat match goal with
  | |- context [len ?l] =>
      lazymatch goal with
      | _ : 0 <= len l |- _ => fail
      | _ => pose proof (len_nonneg l)
      end
  | H : context [len ?l] |- _ =>
      lazymatch goal with
      | _ : 0 <= len l |- _ => fail
      | _ => pose proof (len_nonneg l)
      end
  end; lia.

(** ** Evaluating indices, slices and additions *)

Lemma add_usize_ok {E} a b : a + b <= usize_max -> add_usize (E:=E) a b = Ok (a + b).
Proof. unfold add_usize. intros. destruct (Z.leb_spec (a + b) usize_max); [done|lia]. Qed.

Lemma index_at {E A} (pre suf : list A) x i :
  i = len pre -> index (E:=E) (pre ++ x :: suf) i = Ok x.
Proof.
  intros ->. unfold index. pose proof (len_nonneg pre).
  destruct (Z.ltb_spec (len pre) 0); [lia|].
  rewrite len_to_nat, list_lookup_middle; done.
Qed.

Lemma index_head {E A} (suf : list A) x : index (E:=E) (x :: suf) 0 = Ok x.
Proof. reflexivity. Qed.

Lemma index_second {E A} (suf : list A) x y : index (E:=E) (x :: y :: suf) 1 = Ok y.
Proof. reflexivity. Qed.

Lemma slice_at {E A} (pre mid suf : list A) a b :
  a = len pre -> b = len pre + len mid -> slice (E:=E) (pre ++ mid ++ suf) a b = Ok mid.
Proof.
  intros -> ->. unfold slice.
  replace (_ && _ && _) with true.
  2: { symmetry. rewrite !andb_true_iff, !Z.leb_le. len_lia. }
  replace (len pre + len mid - len pre) with (len mid) by lia.
  rewrite !len_to_nat, drop_app_length, take_app_length. done.
Qed.

Lemma slice_from_at {E A} (pre suf : list A) a :
  a = len pre -> slice_from (E:=E) (pre ++ suf) a = Ok suf.
Proof.
  intros ->. unfold slice_from.
  rewrite <- (app_nil_r suf) at 1. apply slice_at; len_lia.
Qed.

Lemma slice_from_tail {E A} (suf : list A) x : slice_from (E:=E) (x :: suf) 1 = Ok suf.
Proof. by apply (slice_from_at [x]). Qed.

Lemma slice_from_second {E A} (suf : list A) x y : slice_from (E:=E) (x :: y :: suf) 2 = Ok suf.
Proof. by apply (slice_from_at [x; y]). Qed.

Lemma index_app {E A} (l more : list A) i :
  0 <= i < len l -> index (E:=E) (l ++ more) i = index l i.
Proof.
  intros Hi. unfold index, len in *.
  destruct (Z.ltb_spec i 0); [lia|].
  rewrite lookup_app_l by lia. done.
Qed.

Lemma slice_app {E A} (l more : list A) a b :
  0 <= a -> a <= b -> b <= len l -> slice (E:=E) (l ++ more) a b = slice l a b.
Proof.
  intros Ha Hab Hb. unfold slice.
  replace ((0 <=? a) && (a <=? b) && (b <=? len (l ++ more)))
    with ((0 <=? a) && (a <=? b) && (b <=? len l)).
  - destruct (_ && _ && _); [|done]. unfold len in *.
    rewrite drop_app_le by lia. rewrite take_app_le; [done|].
    rewrite length_drop. lia.
  - rewrite len_app. pose proof (len_nonneg more).
    destruct (Z.leb_spec b (len l)), (Z.leb_spec b (len l + len more)); lia.
Qed.

(** An index, and the test for the end, by what is left of the list. *)
Lemma index_drop {E A} (l : list A) i :
  0 <= i -> index (E:=E) l i = match drop (Z.to_nat i) l with a :: _ => Ok a | [] => Panic end.
Proof.
  intros Hi. unfold index. destruct (Z.ltb_spec i 0); [lia|].
  rewrite <- (Nat.add_0_r (Z.to_nat i)) at 1. rewrite <- lookup_drop.
  by destruct (drop (Z.to_nat i) l).
Qed.

Lemma ltb_len_drop {A} (l : list A) i :
  0 <= i -> (i <? len l) = match drop (Z.to_nat i) l with _ :: _ => true | [] => false end.
Proof.
  intros Hi. assert (Hl := length_drop l (Z.to_nat i)). unfold len in *.
  destruct (drop (Z.to_nat i) l); simpl in Hl; lia.
Qed.

Lemma drop_next {A} (l : list A) i n :
  0 <= i -> drop (Z.to_nat (i + Z.of_nat n)) l = drop n (drop (Z.to_nat i) l).
Proof. intros Hi. rewrite drop_drop. f_equal. lia. Qed.

(** ** Rules for [wp] *)

Section wp_rules.
Context {E : Type}.

Lemma wp_mono {A} (o : outcome E A) (Q Q' : A -> Prop) (R R' : E -> Prop) :
  wp o Q R -> (forall a, Q a -> Q' a) -> (forall e, R e -> R' e) -> wp o Q' R'.
Proof. destruct o; simpl; auto. Qed.

Lemma wp_bind {A B} (o : outcome E A) (k : A -> outcome E B) Q R :
  wp o (fun a => wp (k a) Q R) R -> wp (o ≫= k) Q R.
Proof. destruct o; simpl; auto. Qed.

Lemma wp_map_err {F A} (f : F -> E) (o : outcome F A) Q R :
  wp o Q (fun e => R (f e)) -> wp (map_err f o) Q R.
Proof. destruct o; simpl; auto. Qed.

Lemma wp_ok_or {A} (e : E) (o : option A) Q R :
  (forall a, o = Some a -> Q a) -> (o = None -> R e) -> wp (ok_or e o) Q R.
Proof. destruct o; simpl; auto. Qed.

Lemma wp_index {A} (l : list A) i (Q : A -> Prop) (R : E -> Prop) :
  0 <= i < len l -> (forall x, l !! Z.to_nat i = Some x -> Q x) -> wp (index l i) Q R.
Proof.
  intros Hi HQ. unfold index, len in *.
  destruct (Z.ltb_spec i 0); [lia|].
  destruct (l !! Z.to_nat i) eqn:Hl; simpl; [auto|].
  apply lookup_ge_None in Hl. lia.
Qed.

Lemma wp_slice {A} (l : list A) a b (Q : list A -> Prop) (R : E -> Prop) :
  0 <= a -> a <= b -> b <= len l ->
  (forall pre mid suf, l = pre ++ mid ++ suf -> len pre = a -> len mid = b - a -> Q mid) ->
  wp (slice l a b) Q R.
Proof.
  intros Ha Hab Hb HQ.
  set (pre := take (Z.to_nat a) l). set (rest := drop (Z.to_nat a) l).
  set (mid := take (Z.to_nat (b - a)) rest).
  assert (Hl : l = pre ++ mid ++ drop (Z.to_nat (b - a)) rest).
  { unfold mid. by rewrite take_drop; unfold pre, rest; rewrite take_drop. }
  assert (Hpre : len pre = a). { unfold pre, len in *. rewrite length_take. lia. }
  assert (Hmid : len mid = b - a).
  { unfold mid, rest, len in *. rewrite length_take, length_drop. lia. }
  rewrite Hl. rewrite slice_at by lia. simpl. eauto.
Qed.

Lemma wp_slice_from {A} (l : list A) a (Q : list A -> Prop) (R : E -> Prop) :
  0 <= a <= len l -> (forall pre suf, l = pre ++ suf -> len pre = a -> Q suf) ->
  wp (slice_from l a) Q R.
Proof.
  intros Ha HQ. apply wp_slice; [lia..|].
  intros pre mid suf -> Hpre Hmid. autorewrite with len in Hmid.
  pose proof (len_nonneg suf). assert (suf = []) as -> by (apply len_zero; lia).
  rewrite app_nil_r in HQ. eauto.
Qed.

Lemma wp_add_usize a b (Q : Z -> Prop) (R : E -> Prop) :
  a + b <= usize_max -> Q (a + b) -> wp (add_usize a b) Q R.
Proof. unfold add_usize. intros. destruct (Z.leb_spec (a + b) usize_max); [done|lia]. Qed.

Lemma wp_add_u32 a b (Q : Z -> Prop) (R : E -> Prop) :
  a + b <= u32_max -> Q (a + b) -> wp (add_u32 a b) Q R.
Proof. unfold add_u32. intros. destruct (Z.leb_spec (a + b) u32_max); [done|lia]. Qed.

Lemma wp_mul_u32 a b (Q : Z -> Prop) (R : E -> Prop) :
  a * b <= u32_max -> Q (a * b) -> wp (mul_u32 a b) Q R.
Proof. unfold mul_u32. intros. destruct (Z.leb_spec (a * b) u32_max); [done|lia]. Qed.

Lemma wp_pow_u32 a b (Q : Z -> Prop) (R : E -> Prop) :
  a ^ b <= u32_max -> Q (a ^ b) -> wp (pow_u32 a b) Q R.
Proof. unfold pow_u32. intros. destruct (Z.leb_spec (a ^ b) u32_max); [done|lia]. Qed.

(** Total correctness of a [loop]: an invariant of the loop variables and a
    measure that decreases from one iteration to the next. *)
Lemma wp_loop {S A} (Inv : S -> Prop) (measure : S -> nat) (step : S -> outcome E (S + A)) Q R :
  (forall s, Inv s ->
    wp (step s)
       (fun r => match r with inl s' => Inv s' /\ (measure s' < measure s)%nat | inr a => Q a end)
       R) ->
  forall fuel s, Inv s -> (measure s < fuel)%nat -> wp (loop fuel step s) Q R.
Proof.
  intros Hstep fuel. induction fuel as [|fuel IH]; intros s Hs Hfuel; [lia|].
  simpl. apply wp_bind. eapply wp_mono; [by apply Hstep| |done].
  intros [s'|a]; [|done]. intros [Hs' Hm]. apply IH; [done|lia].
Qed.

Lemma wp_returns {A} (o : outcome E A) Q R : wp o Q R -> o <> Panic /\ o <> Diverge.
Proof. destruct o; simpl; done. Qed.

Lemma wp_ok {A} (o : outcome E A) Q R a : wp o Q R -> o = Ok a -> Q a.
Proof. intros H ->. done. Qed.

Lemma wp_err {A} (o : outcome E A) Q R e : wp o Q R -> o = Err e -> R e.
Proof. intros H ->. done. Qed.
End wp_rules.

(** One step of a [wp] proof: bind, the operations of this file and the
    conditionals on linear comparisons. *)
Ltac wp_step :=
  lazymatch goal with
  | |- wp (Ok _) _ _ => simpl
  | |- wp (Err _) _ _ => simpl
  | |- wp (_ ≫= _) _ _ => apply wp_bind
  | |- wp (map_err _ _) _ _ => apply wp_map_err
  | |- wp (ok_or _ _) _ _ => apply wp_ok_or; [intros ? ?|intros ?]
  | |- wp (index _ _) _ _ => apply wp_index; [try len_lia|intros ? ?]
  | |- wp (add_usize _ _) _ _ => apply wp_add_usize; [unfold usize_max in *; try len_lia|]
  | |- wp (if ?a <? ?b then _ else _) _ _ => destruct (Z.ltb_spec a b)
  | |- wp (if ?a <=? ?b then _ else _) _ _ => destruct (Z.leb_spec a b)
  | |- wp (if ?a =? ?b then _ else _) _ _ => destruct (Z.eqb_spec a b)
  | |- wp (if ?c then _ else _) _ _ => let H := fresh "Hc" in destruct c eqn:H
  end.

(** More fuel does not change a loop that returned. *)
Lemma loop_fuel_mono {E S A} (step : S -> outcome E (S + A)) f1 f2 s :
  (f1 <= f2)%nat -> loop f1 step s <> Diverge -> loop f2 step s = loop f1 step s.
Proof.
  revert f2 s. induction f1 as [|f1 IH]; intros [|f2] s Hle Hd; simpl in *; try done; try lia.
  destruct (step s) as [[s'|a]|e| |]; simpl in *; try done.
  apply IH; [lia|done].
Qed.

(** Two loops whose bodies agree except where the first one gives the error [e0]:
    so do the loops. *)
Lemma loop_agree {E S A} (e0 : E) (step1 step2 : S -> outcome E (S + A)) fuel s :
  (forall s, step1 s = Err e0 \/ step2 s = step1 s) ->
  loop fuel step1 s = Err e0 \/ loop fuel step2 s = loop fuel step1 s.
Proof.
  intros Hstep. revert s. induction fuel as [|fuel IH]; intros s; simpl; [by right|].
  destruct (Hstep s) as [->| ->]; [by left|].
  destruct (step1 s) as [[s'|a]|e| |]; simpl; auto.
Qed.

(** Two loops whose bodies differ in their error values only. *)
Lemma loop_map_err {E F S A} (f : E -> F) (step1 : S -> outcome E (S + A)) step2 fuel s :
  (forall s, step2 s = map_err f (step1 s)) ->
  loop fuel step2 s = map_err f (loop fuel step1 s).
Proof.
  intros Hstep. revert s. induction fuel as [|fuel IH]; intros s; simpl; [done|].
  rewrite Hstep. destruct (step1 s) as [[s'|a]|e| |]; simpl; auto.
Qed.

(** *** Errors mapped through a computation *)

Lemma map_err_bind {E F A B} (f : E -> F) (o : outcome E A) (k : A -> outcome E B) :
  map_err f (o ≫= k) = map_err f o ≫= (fun a => map_err f (k a)).
Proof. by destruct o. Qed.

Lemma bind_ext {E A B} (o : outcome E A) (k1 k2 : A -> outcome E B) :
  (forall a, k1 a = k2 a) -> o ≫= k1 = o ≫= k2.
Proof. intros Hk. destruct o; simpl; auto. Qed.

Lemma index_map_err {E F A} (f : E -> F) (l : list A) i : map_err f (index l i) = index l i.
Proof. unfold index. repeat case_match; done. Qed.

(** ** Bytes and 16-bit fields *)

Lemma u8_ok_iff x : u8_ok x = true <-> 0 <= x < 256.
Proof. unfold u8_ok. lia. Qed.

Lemma u16_ok_iff x : u16_ok x = true <-> 0 <= x < 65536.
Proof. unfold u16_ok. lia. Qed.

(** A buffer whose elements are bytes. *)
Definition bytes_ok (l : bytes) : Prop := Forall (fun b => u8_ok b = true) l.

Lemma bytes_ok_app l1 l2 : bytes_ok (l1 ++ l2) <-> bytes_ok l1 /\ bytes_ok l2.
Proof. apply Forall_app. Qed.

Lemma bytes_ok_lookup l i b : bytes_ok l -> l !! i = Some b -> 0 <= b < 256.
Proof. intros Hl Hi. apply u8_ok_iff. exact (Forall_lookup_1 _ _ _ _ Hl Hi). Qed.

Lemma u16_be_roundtrip x :
  0 <= x < 65536 -> u16_from_be_bytes (x / 256) (x mod 256) = x.
Proof. unfold u16_from_be_bytes. intros. pose proof (Z.div_mod x 256). lia. Qed.

Lemma u16_from_be_bytes_range hi lo :
  0 <= hi < 256 -> 0 <= lo < 256 -> 0 <= u16_from_be_bytes hi lo < 65536.
Proof. unfold u16_from_be_bytes. lia. Qed.

Lemma u16_to_be_bytes_ok x : 0 <= x < 65536 -> bytes_ok (u16_to_be_bytes x).
Proof.
  intros Hx. unfold u16_to_be_bytes, bytes_ok.
  rewrite !Forall_cons, !u8_ok_iff. split_and!; [..|done]; lia.
Qed.

Lemma len_u16_to_be_bytes x : len (u16_to_be_bytes x) = 2.
Proof. reflexivity. Qed.
#[export] Hint Rewrite len_u16_to_be_bytes : len.

(** ** Splitting *)

Fixpoint join (c : Z) (ps : list rstring) : rstring :=
  match ps with
  | [] => []
  | [p] => p
  | p :: ps' => p ++ c :: join c ps'
  end.

Lemma split_nonempty c s : split c s <> [].
Proof.
  destruct s as [|b s]; simpl; [done|].
  destruct (b =? c); [done|]. destruct (split c s); done.
Qed.

Lemma join_cons c p ps : ps <> [] -> join c (p :: ps) = p ++ c :: join c ps.
Proof. destruct ps; done. Qed.

Lemma join_split c s : join c (split c s) = s.
Proof.
  induction s as [|b s IH]; [done|]. simpl.
  destruct (Z.eqb_spec b c) as [->|].
  - rewrite join_cons by apply split_nonempty. by rewrite IH.
  - destruct (split c s) as [|p ps] eqn:Hs; [by destruct (split_nonempty c s)|].
    destruct ps; simpl in *; by rewrite IH.
Qed.

Lemma split_pieces c s : Forall (fun p => c ∉ p) (split c s).
Proof.
  induction s as [|b s IH]; simpl; [repeat constructor; set_solver|].
  destruct (Z.eqb_spec b c) as [->|]; [constructor; [set_solver|done]|].
  destruct (split c s) as [|p ps]; [repeat constructor; set_solver|].
  inversion IH; subst. constructor; [set_solver|done].
Qed.

Lemma split_app_no_sep c p s : c ∉ p -> split c (p ++ c :: s) = p :: split c s.
Proof.
  induction p as [|b p IH]; intros Hp; simpl.
  - by rewrite Z.eqb_refl.
  - destruct (Z.eqb_spec b c) as [->|]; [set_solver|].
    rewrite IH by set_solver. done.
Qed.

Lemma split_no_sep c p : c ∉ p -> split c p = [p].
Proof.
  induction p as [|b p IH]; intros Hp; simpl; [done|].
  destruct (Z.eqb_spec b c) as [->|]; [set_solver|].
  rewrite IH by set_solver. done.
Qed.

(** Splitting is the inverse of joining pieces that do not hold the separator. *)
Lemma split_join c ps :
  ps <> [] -> Forall (fun p => c ∉ p) ps -> split c (join c ps) = ps.
Proof.
  induction ps as [|p ps IH]; intros Hne Hps; [done|].
  inversion Hps as [|? ? Hp Hps']; subst. destruct ps as [|p' ps].
  - simpl. by apply split_no_sep.
  - rewrite join_cons by done. rewrite split_app_no_sep by done. by rewrite IH.
Qed.

Lemma contains_true c s : contains c s = true <-> c ∈ s.
Proof. apply bool_decide_eq_true. Qed.

Lemma contains_false c s : contains c s = false <-> c ∉ s.
Proof. apply bool_decide_eq_false. Qed.

(** A decidable property of bytes, checked on all 256. *)
Lemma byte_cases (f : Z -> bool) :
  forallb f (map Z.of_nat (seq 0 256)) = true -> forall b, 0 <= b < 256 -> f b = true.
Proof.
  rewrite forallb_forall. intros H b Hb. apply H.
  apply in_map_iff. exists (Z.to_nat b). split; [lia|]. apply in_seq. lia.
Qed.

(** ** Lists of lists *)

Lemma elem_of_concat_lookup {A} (x : A) ls :
  x ∈ concat ls <-> exists i l, ls !! i = Some l /\ x ∈ l.
Proof.
  induction ls as [|l ls IH]; simpl.
  - split; [by intros ?%elem_of_nil|]. by intros (i & l & ? & _).
  - rewrite elem_of_app, IH. split.
    + intros [Hx|(i & l' & ? & ?)]; [by exists 0%nat, l|by exists (S i), l'].
    + intros ([|i] & l' & ? & ?); simpl in *; [left; by simplify_eq|right; eauto].
Qed.

Lemma NoDup_concat_disjoint {A} (ls : list (list A)) :
  (forall i l, ls !! i = Some l -> NoDup l) ->
  (forall i j li lj x, ls !! i = Some li -> ls !! j = Some lj -> x ∈ li -> x ∈ lj -> i = j) ->
  NoDup (concat ls).
Proof.
  induction ls as [|l ls IH]; intros Hn Hd; simpl; [constructor|].
  apply NoDup_app. split_and!.
  - by apply (Hn 0%nat).
  - intros x Hx (i & l' & Hi & Hx')%elem_of_concat_lookup.
    discriminate (Hd 0%nat (S i) l l' x eq_refl Hi Hx Hx').
  - apply IH; [intros i; apply (Hn (S i))|].
    intros i j li lj x Hi Hj Hx Hx'.
    assert (S i = S j) by (by apply (Hd (S i) (S j) li lj x)). lia.
Qed.

(** One value chosen for every element. *)
Lemma list_choice {A B} (R : nat -> A -> B -> Prop) (l : list A) :
  (forall i a, l !! i = Some a -> exists b, R i a b) ->
  exists bs, length bs = length l /\
    forall i a b, l !! i = Some a -> bs !! i = Some b -> R i a b.
Proof.
  revert R. induction l as [|a l IH]; intros R HR; [by exists []|].
  destruct (HR 0%nat a eq_refl) as [b Hb].
  destruct (IH (fun i => R (S i))) as (bs & Hlen & Hbs); [intros i; apply (HR (S i))|].
  exists (b :: bs). split; [simpl; lia|]. intros [|i] a' b' ? ?; simplify_eq/=; eauto.
Qed.

(** All the elements but one are empty. *)
Lemma concat_single {A} (ls : list (list A)) s l :
  ls !! s = Some l -> (forall i l', ls !! i = Some l' -> i <> s -> l' = []) -> concat ls = l.
Proof.
  revert s. induction ls as [|l0 ls IH]; intros s Hs Hne; [done|].
  destruct s as [|s]; simplify_eq/=.
  - assert (H : concat ls = []); [|by rewrite H, app_nil_r].
    apply concat_nil_Forall, List.Forall_forall. intros l' Hl'.
    apply list_elem_of_In, list_elem_of_lookup in Hl' as [i Hi]. by apply (Hne (S i)).
  - rewrite (Hne 0%nat l0 eq_refl) by lia. simpl. apply (IH s); [done|].
    intros i l' Hi ?. apply (Hne (S i)); [done|lia].
Qed.

Lemma concat_all_nil {A} (ls : list (list A)) :
  (forall i l, ls !! i = Some l -> l = []) -> concat ls = [].
Proof.
  intros H. destruct ls as [|l ls]; [done|]. rewrite (concat_single _ 0%nat l); [by apply (H 0%nat)|done|].
  intros i l' Hi _. by apply (H i).
Qed.

(** A relation that keeps an invariant and makes a measure smaller cannot go on for
    ever. *)
Lemma acc_measure {A} (Inv : A -> Prop) (R : A -> A -> Prop) (f : A -> nat) :
  (forall x y, Inv x -> R x y -> Inv y /\ (f y < f x)%nat) ->
  forall x, Inv x -> Acc (fun y x => R x y) x.
Proof.
  intros HR x. remember (f x) as k eqn:Hk. revert x Hk.
  induction k as [k IH] using lt_wf_ind. intros x -> Hx. constructor. intros y Hy.
  destruct (HR x y Hx Hy). by eapply IH.
Qed.

(** Sums that get smaller. *)
Lemma sum_list_le {A} (f g : A -> nat) l :
  (forall x, x ∈ l -> (f x <= g x)%nat) -> (sum_list_with f l <= sum_list_with g l)%nat.
Proof.
  induction l as [|x l IH]; intros H; simpl; [done|].
  apply Nat.add_le_mono; [apply H; left|apply IH; intros; apply H; by right].
Qed.

Lemma sum_list_lt {A} (f g : A -> nat) l x :
  (forall y, y ∈ l -> (f y <= g y)%nat) -> x ∈ l -> (f x < g x)%nat ->
  (sum_list_with f l < sum_list_with g l)%nat.
Proof.
  intros H Hx Hlt. induction l as [|y l IH]; [by apply not_elem_of_nil in Hx|].
  simpl. apply elem_of_cons in Hx as [->|Hx].
  - apply Nat.add_lt_le_mono; [done|]. apply sum_list_le. intros. apply H. by right.
  - apply Nat.add_le_lt_mono; [apply H; left|]. apply IH; [|done]. intros. apply H. by right.
Qed.

Lemma sum_list_insert_lt {A} (f : A -> nat) (l : list A) i x y :
  l !! i = Some x -> (f y < f x)%nat -> (sum_list_with f (<[i := y]> l) < sum_list_with f l)%nat.
Proof. revert i. induction l as [|z l IH]; intros [|i] Hi Hlt; simplify_eq/=; [lia|]. specialize (IH i Hi Hlt). lia. Qed.

(** An invariant of a fold. *)
Lemma foldl_invariant {A B} (P : A -> Prop) (f : A -> B -> A) a l :
P a -> (forall a b, P a -> P (f a b)) -> P (foldl f a l).
Proof. revert a. induction l as [|b l IH]; intros a Ha Hf; simpl; auto. Qed.
