(* ===== verification/Utf8.v ===== *)
(** * The parts of [std::str] the source uses

    [std::str::from_utf8] as the Unicode Standard's table of well-formed UTF-8
    byte sequences gives it, and its agreement with the encoding of the Unicode
    scalar values: a byte string is accepted exactly when it is the UTF-8 encoding
    of a sequence of scalar values. *)

From S2P Require Import Prelude.

Definition in_range (lo hi b : Z) : bool := (lo <=? b) && (b <=? hi).
Definition is_cont (b : Z) : bool := in_range 128 191 b.

(** The second byte that a three-byte and a four-byte sequence allow. *)
Definition second3_ok (b0 b1 : Z) : bool :=
  if b0 =? 224 then in_range 160 191 b1
  else if b0 =? 237 then in_range 128 159 b1
  else in_range 225 239 b0 && is_cont b1.

Definition second4_ok (b0 b1 : Z) : bool :=
  if b0 =? 240 then in_range 144 191 b1
  else if b0 =? 244 then in_range 128 143 b1
  else in_range 241 243 b0 && is_cont b1.

Fixpoint valid_utf8 (s : bytes) : bool :=
  match s with
  | [] => true
  | b0 :: s0 =>
      if in_range 0 127 b0 then valid_utf8 s0
      else match s0 with
      | [] => false
      | b1 :: s1 =>
          if in_range 194 223 b0 then is_cont b1 && valid_utf8 s1
          else match s1 with
          | [] => false
          | b2 :: s2 =>
              if in_range 224 239 b0
              then second3_ok b0 b1 && is_cont b2 && valid_utf8 s2
              else match s2 with
              | [] => false
              | b3 :: s3 =>
                  second4_ok b0 b1 && is_cont b2 && is_cont b3 && valid_utf8 s3
              end
          end
      end
  end.

(** [std::str::from_utf8]; the error value is not used by the source. *)
Definition from_utf8 (s : bytes) : option rstring :=
  if valid_utf8 s then Some s else None.

(** The UTF-8 encoding of U+FFFD. *)
Definition REPLACEMENT : bytes := [239; 191; 189].

(** [String::from_utf8_lossy]: an ill-formed sequence, as far as it could have been
    the beginning of a well-formed one, becomes one replacement character. *)
Fixpoint from_utf8_lossy (s : bytes) : rstring :=
  match s with
  | [] => []
  | b0 :: s0 =>
      if in_range 0 127 b0 then b0 :: from_utf8_lossy s0
      else match s0 with
      | [] => REPLACEMENT
      | b1 :: s1 =>
          if in_range 194 223 b0 then
            if is_cont b1 then b0 :: b1 :: from_utf8_lossy s1 else REPLACEMENT ++ from_utf8_lossy s0
          else if in_range 224 239 b0 && second3_ok b0 b1 then
            match s1 with
            | [] => REPLACEMENT
            | b2 :: s2 =>
                if is_cont b2 then b0 :: b1 :: b2 :: from_utf8_lossy s2
                else REPLACEMENT ++ from_utf8_lossy s1
            end
          else if in_range 240 244 b0 && second4_ok b0 b1 then
            match s1 with
            | [] => REPLACEMENT
            | b2 :: s2 =>
                if is_cont b2 then
                  match s2 with
                  | [] => REPLACEMENT
                  | b3 :: s3 =>
                      if is_cont b3 then b0 :: b1 :: b2 :: b3 :: from_utf8_lossy s3
                      else REPLACEMENT ++ from_utf8_lossy s2
                  end
                else REPLACEMENT ++ from_utf8_lossy s1
            end
          else REPLACEMENT ++ from_utf8_lossy s0
      end
  end.

Example lossy_sample : from_utf8_lossy [104; 255; 226; 130; 105] = [104] ++ REPLACEMENT ++ REPLACEMENT ++ [105].
Proof. reflexivity. Qed.

(** The encoding of one Unicode scalar value. *)
Definition scalar_ok (c : Z) : bool :=
  in_range 0 1114111 c && negb (in_range 55296 57343 c).

Definition utf8_char (c : Z) : bytes :=
  if c <? 128 then [c]
  else if c <? 2048 then [192 + c / 64; 128 + c mod 64]
  else if c <? 65536 then [224 + c / 4096; 128 + c / 64 mod 64; 128 + c mod 64]
  else [240 + c / 262144; 128 + c / 4096 mod 64; 128 + c / 64 mod 64; 128 + c mod 64].

Definition utf8_encode (cs : list Z) : bytes := concat (map utf8_char cs).

Lemma in_range_true lo hi b : in_range lo hi b = true <-> lo <= b <= hi.
Proof. unfold in_range. lia. Qed.

Lemma in_range_false lo hi b : in_range lo hi b = false <-> ~ lo <= b <= hi.
Proof. unfold in_range. lia. Qed.

(** Reads the byte classes of the context as inequalities. *)
Ltac utf8_cases :=
  unfold second3_ok, second4_ok, is_cont, scalar_ok in *;
  repeat match goal with
  | H : (if ?c then _ else _) = true |- _ => destruct c eqn:?
  | H : _ && _ = true |- _ => apply andb_true_iff in H as [? ?]
  | H : negb _ = true |- _ => apply negb_true_iff in H
  | H : in_range _ _ _ = true |- _ => apply in_range_true in H
  | H : in_range _ _ _ = false |- _ => apply in_range_false in H
  | H : (_ =? _) = true |- _ => apply Z.eqb_eq in H
  | H : (_ =? _) = false |- _ => apply Z.eqb_neq in H
  end.

(** The first character of a valid string. *)
Lemma valid_utf8_first b0 s0 :
  valid_utf8 (b0 :: s0) = true ->
  exists c s', scalar_ok c = true /\ b0 :: s0 = utf8_char c ++ s' /\
               valid_utf8 s' = true /\ (length s' < length (b0 :: s0))%nat.
Proof.
  simpl. destruct (in_range 0 127 b0) eqn:H1.
  { exists b0, s0. utf8_cases. unfold utf8_char.
    replace (b0 <? 128) with true by lia.
    rewrite andb_true_iff, negb_true_iff, in_range_true, in_range_false. split_and!; try done; lia. }
  destruct s0 as [|b1 s1]; [done|]. destruct (in_range 194 223 b0) eqn:H2.
  { intros H. utf8_cases. exists ((b0 - 192) * 64 + (b1 - 128)), s1.
    unfold scalar_ok, utf8_char. rewrite andb_true_iff, negb_true_iff, in_range_true, in_range_false.
    repeat match goal with |- context [?a <? ?b] => destruct (Z.ltb_spec a b); try lia end.
    split_and!; try done; simpl; try lia. repeat f_equal; lia. }
  destruct s1 as [|b2 s2]; [done|]. destruct (in_range 224 239 b0) eqn:H3.
  { intros H. exists ((b0 - 224) * 4096 + (b1 - 128) * 64 + (b2 - 128)), s2.
    unfold scalar_ok. rewrite andb_true_iff, negb_true_iff, in_range_true, in_range_false.
    assert (Hc : 2048 <= (b0 - 224) * 4096 + (b1 - 128) * 64 + (b2 - 128) < 65536 /\
      ~ 55296 <= (b0 - 224) * 4096 + (b1 - 128) * 64 + (b2 - 128) <= 57343 /\
      128 <= b1 <= 191 /\ 128 <= b2 <= 191 /\ valid_utf8 s2 = true)
      by (utf8_cases; split_and!; try done; lia).
    destruct Hc as (Hc & Hs & Hb1 & Hb2 & Hv). unfold utf8_char.
    repeat match goal with |- context [?a <? ?b] => destruct (Z.ltb_spec a b); try lia end.
    split_and!; try done; simpl; try lia. repeat f_equal; lia. }
  destruct s2 as [|b3 s3]; [done|]. intros H.
  exists ((b0 - 240) * 262144 + (b1 - 128) * 4096 + (b2 - 128) * 64 + (b3 - 128)), s3.
  unfold scalar_ok. rewrite andb_true_iff, negb_true_iff, in_range_true, in_range_false.
  assert (Hc : 65536 <= (b0 - 240) * 262144 + (b1 - 128) * 4096 + (b2 - 128) * 64 + (b3 - 128) <= 1114111 /\
    128 <= b1 <= 191 /\ 128 <= b2 <= 191 /\ 128 <= b3 <= 191 /\ valid_utf8 s3 = true)
    by (utf8_cases; split_and!; try done; lia).
  destruct Hc as (Hc & Hb1 & Hb2 & Hb3 & Hv). unfold utf8_char.
  repeat match goal with |- context [?a <? ?b] => destruct (Z.ltb_spec a b); try lia end.
  split_and!; try done; simpl; try lia. repeat f_equal; lia.
Qed.

(** Every scalar value's encoding is accepted. *)
Lemma valid_utf8_char c s :
  scalar_ok c = true -> valid_utf8 (utf8_char c ++ s) = valid_utf8 s.
Proof.
  intros Hc. apply andb_true_iff in Hc as [Hr Hs].
  apply negb_true_iff in Hs. apply in_range_true in Hr. apply in_range_false in Hs.
  unfold utf8_char.
  destruct (Z.ltb_spec c 128); [|destruct (Z.ltb_spec c 2048); [|destruct (Z.ltb_spec c 65536)]];
    simpl; unfold second3_ok, second4_ok, is_cont;
    repeat match goal with
    | |- context [in_range ?lo ?hi ?b] =>
        let H := fresh in
        destruct (in_range lo hi b) eqn:H;
        [apply in_range_true in H|apply in_range_false in H]; try lia; simpl
    | |- context [?a =? ?b] => destruct (Z.eqb_spec a b); try lia; simpl
    end; done.
Qed.

(** [from_utf8] accepts exactly the encodings of scalar values. *)
Lemma valid_utf8_spec s :
  valid_utf8 s = true <-> exists cs, Forall (fun c => scalar_ok c = true) cs /\ s = utf8_encode cs.
Proof.
  split.
  - remember (length s) as n eqn:Hn. revert s Hn.
    induction n as [n IH] using lt_wf_ind. intros [|b0 s0] -> Hv.
    { by exists []. }
    apply valid_utf8_first in Hv as (c & s' & Hc & Hs & Hv & Hlt).
    destruct (IH _ Hlt s' eq_refl Hv) as (cs & Hcs & ->).
    exists (c :: cs). split; [by constructor|]. by rewrite Hs.
  - intros (cs & Hcs & ->). induction Hcs as [|c cs Hc _ IH]; [done|].
    change (valid_utf8 (utf8_char c ++ utf8_encode cs) = true).
    by rewrite valid_utf8_char.
Qed.

Lemma utf8_encode_app cs1 cs2 : utf8_encode (cs1 ++ cs2) = utf8_encode cs1 ++ utf8_encode cs2.
Proof. unfold utf8_encode. by rewrite map_app, concat_app. Qed.

Lemma valid_utf8_app s1 s2 :
  valid_utf8 s1 = true -> valid_utf8 s2 = true -> valid_utf8 (s1 ++ s2) = true.
Proof.
  rewrite !valid_utf8_spec. intros (cs1 & H1 & ->) (cs2 & H2 & ->).
  exists (cs1 ++ cs2). split; [by apply Forall_app|]. by rewrite utf8_encode_app.
Qed.

Lemma valid_utf8_ascii s : Forall (fun b => in_range 0 127 b = true) s -> valid_utf8 s = true.
Proof. induction 1 as [|b s Hb _ IH]; [done|]. simpl. by rewrite Hb. Qed.

Lemma utf8_char_ok c : scalar_ok c = true -> bytes_ok (utf8_char c).
Proof.
  intros Hc. utf8_cases. unfold utf8_char, bytes_ok.
  repeat match goal with |- context [?a <? ?b] => destruct (Z.ltb_spec a b) end;
    rewrite ?Forall_cons, !u8_ok_iff; split_and!; try apply Forall_nil; try done; lia.
Qed.

Lemma valid_utf8_bytes s : valid_utf8 s = true -> bytes_ok s.
Proof.
  rewrite valid_utf8_spec. intros (cs & Hcs & ->).
  induction Hcs as [|c cs Hc _ IH]; [by apply Forall_nil|].
  change (bytes_ok (utf8_char c ++ utf8_encode cs)).
  apply bytes_ok_app. split; [by apply utf8_char_ok|done].
Qed.

Lemma from_utf8_Some s r : from_utf8 s = Some r <-> r = s /\ valid_utf8 s = true.
Proof. unfold from_utf8. destruct (valid_utf8 s); split; intros; simplify_eq; naive_solver. Qed.

(** ** Lossy decoding *)

(** A string that is well-formed is not changed. *)
Lemma from_utf8_lossy_valid s : valid_utf8 s = true -> from_utf8_lossy s = s.
Proof.
  remember (length s) as n eqn:Hn. revert s Hn. induction n as [n IH] using lt_wf_ind.
  intros s -> Hs.
  destruct s as [|b0 s0]; [done|]. cbn [valid_utf8 from_utf8_lossy] in *.
  destruct (in_range 0 127 b0) eqn:H0.
  { f_equal. eapply IH; [|done|done]. simpl. lia. }
  destruct s0 as [|b1 s1]; [done|]. destruct (in_range 194 223 b0) eqn:H1.
  { apply andb_true_iff in Hs as [-> Hs]. do 2 f_equal. eapply IH; [|done|done]. simpl. lia. }
  destruct s1 as [|b2 s2]; [done|]. destruct (in_range 224 239 b0) eqn:H2.
  { apply andb_true_iff in Hs as [[-> ->]%andb_true_iff Hs]. cbn [andb]. do 3 f_equal.
    eapply IH; [|done|done]. simpl. lia. }
  destruct s2 as [|b3 s3]; [done|].
  apply andb_true_iff in Hs as [[[H4 ->]%andb_true_iff ->]%andb_true_iff Hs]. cbn [andb].
  assert (Hr : in_range 240 244 b0 = true).
  { unfold second4_ok in H4. destruct (Z.eqb_spec b0 240), (Z.eqb_spec b0 244); subst; try done.
    apply andb_true_iff in H4 as [H4 _]. unfold in_range in *. lia. }
  rewrite Hr, H4. cbn [andb]. do 4 f_equal. eapply IH; [|done|done]. simpl. lia.
Qed.

(** What comes out is well-formed, whatever went in. *)
Lemma from_utf8_lossy_utf8 s : valid_utf8 (from_utf8_lossy s) = true.
Proof.
  remember (length s) as n eqn:Hn. revert s Hn. induction n as [n IH] using lt_wf_ind.
  intros s ->.
  destruct s as [|b0 s0]; [done|]. cbn [from_utf8_lossy].
  assert (Hrep : forall s', (length s' < length (b0 :: s0))%nat ->
    valid_utf8 (REPLACEMENT ++ from_utf8_lossy s') = true) by (intros s' Hs'; by eapply (IH (length s'))).
  destruct (in_range 0 127 b0) eqn:H0.
  { simpl. rewrite H0. eapply IH; [|done]. simpl. lia. }
  destruct s0 as [|b1 s1]; [done|].
  destruct (in_range 194 223 b0) eqn:H1.
  { destruct (is_cont b1) eqn:Hc1; [|apply Hrep; simpl; lia].
    cbn [valid_utf8]. rewrite H0, H1, Hc1. eapply IH; [|done]. simpl. lia. }
  destruct (in_range 224 239 b0 && second3_ok b0 b1) eqn:H2.
  { destruct s1 as [|b2 s2]; [done|]. destruct (is_cont b2) eqn:Hc2; [|apply Hrep; simpl; lia].
    apply andb_true_iff in H2 as [H2 H3].
    cbn [valid_utf8]. rewrite H0, H1, H2, H3, Hc2. eapply IH; [|done]. simpl. lia. }
  destruct (in_range 240 244 b0 && second4_ok b0 b1) eqn:H3; [|apply Hrep; simpl; lia].
  destruct s1 as [|b2 s2]; [done|]. destruct (is_cont b2) eqn:Hc2; [|apply Hrep; simpl; lia].
  destruct s2 as [|b3 s3]; [done|]. destruct (is_cont b3) eqn:Hc3; [|apply Hrep; simpl; lia].
  apply andb_true_iff in H3 as [H3 H4].
  assert (H5 : in_range 224 239 b0 = false) by (unfold in_range in *; lia).
  cbn [valid_utf8]. rewrite H0, H1, H5, H4, Hc2, Hc3. eapply IH; [|done]. simpl. lia.
Qed.
