(* ===== verification/Numbers.v ===== *)
(** * Decimal numbers as Rust's standard library reads and writes them

    [str::parse] for an unsigned integer type, which src/main.rs and
    src/bin/blitzclient.rs use on their arguments, and [Display] of an unsigned
    integer. *)

From S2P Require Import Prelude.

Definition is_digit (b : Z) : bool := (48 <=? b) && (b <=? 57).

(** The checked multiplication and addition of every digit. *)
Fixpoint parse_digits (max acc : Z) (s : rstring) : option Z :=
  match s with
  | [] => Some acc
  | b :: s' =>
      if is_digit b then
        let acc' := acc * 10 + (b - 48) in
        if acc' <=? max then parse_digits max acc' s' else None
      else None
  end.

(** [s.parse()] for an unsigned type whose largest value is [max]: a '+' may come
    first, a '-' may not, a sign alone is no number. *)
Definition parse_uint (max : Z) (s : rstring) : option Z :=
  match s with
  | [] => None
  | 43 :: [] => None
  | 43 :: s' => parse_digits max 0 s'
  | _ => parse_digits max 0 s
  end.

(** The number that a sequence of digits writes. *)
Definition digits_value (acc : Z) (ds : rstring) : Z := foldl (fun a d => a * 10 + (d - 48)) acc ds.

(** [Display]: the digits of [n], [fuel] of them at most. *)
Fixpoint display_digits (fuel : nat) (n : Z) : rstring :=
  match fuel with
  | O => []
  | S fuel' => if n <? 10 then [48 + n] else display_digits fuel' (n / 10) ++ [48 + n mod 10]
  end.

(** 20 digits are enough for a [u64]. *)
Definition display (n : Z) : rstring := display_digits 20 n.

Example parse_plus : parse_uint u16_max (str "+1883") = Some 1883.
Proof. reflexivity. Qed.
Example parse_overflow : parse_uint u16_max (str "65536") = None.
Proof. reflexivity. Qed.
Example parse_minus : parse_uint u16_max (str "-1") = None.
Proof. reflexivity. Qed.
Example display_1883 : display 1883 = str "1883".
Proof. reflexivity. Qed.

Lemma is_digit_iff b : is_digit b = true <-> 48 <= b <= 57.
Proof. unfold is_digit. lia. Qed.

Lemma digits_value_ge acc ds :
  0 <= acc -> Forall (fun d => is_digit d = true) ds -> acc <= digits_value acc ds.
Proof.
  intros Ha Hds. revert acc Ha. induction Hds as [|d ds Hd _ IH]; intros acc Ha; simpl; [lia|].
  apply is_digit_iff in Hd. specialize (IH (acc * 10 + (d - 48))). lia.
Qed.

Lemma parse_digits_Some max acc s n :
  0 <= acc <= max ->
  parse_digits max acc s = Some n <->
  Forall (fun d => is_digit d = true) s /\ n = digits_value acc s /\ n <= max.
Proof.
  revert acc. induction s as [|b s IH]; intros acc Ha; simpl.
  - split; [intros; simplify_eq; split_and!; [constructor|done|lia]|naive_solver].
  - rewrite Forall_cons. destruct (is_digit b) eqn:Hb; [|naive_solver].
    pose proof Hb as Hb'%is_digit_iff. destruct (Z.leb_spec (acc * 10 + (b - 48)) max).
    + rewrite IH by lia. naive_solver.
    + split; [done|]. intros ((_ & Hs) & -> & Hle).
      pose proof (digits_value_ge (acc * 10 + (b - 48)) s ltac:(lia) Hs). lia.
Qed.

(** What [parse] accepts, and what it returns. *)
Lemma parse_uint_Some max s n :
  0 <= max ->
  parse_uint max s = Some n <->
  exists ds, (s = ds \/ s = 43 :: ds) /\ ds <> [] /\ Forall (fun d => is_digit d = true) ds /\
             n = digits_value 0 ds /\ n <= max.
Proof.
  intros Hmax.
  assert (Hnp : forall ds, Forall (fun d => is_digit d = true) (43 :: ds) -> False).
  { by intros ds [? _]%Forall_cons. }
  destruct s as [|b s]; [by split; [|intros (ds & [<-|?] & ? & _)]|].
  destruct (decide (b = 43)) as [->|Hb].
  - destruct s as [|c s].
    + split; [done|]. intros (ds & [<-|?] & ? & Hds & _); [by apply Hnp in Hds|by simplify_eq].
    + change (parse_uint max (43 :: c :: s)) with (parse_digits max 0 (c :: s)).
      rewrite parse_digits_Some by lia. split; [naive_solver|].
      intros (ds & [<-|?] & ? & Hds & ?); [by apply Hnp in Hds|by simplify_eq].
  - assert (Hp : parse_uint max (b :: s) = parse_digits max 0 (b :: s)).
    { unfold parse_uint. repeat (case_match; try done). }
    rewrite Hp, parse_digits_Some by lia. split; [naive_solver|].
    intros (ds & [<-|?] & ? & ?); [naive_solver|by simplify_eq].
Qed.

Lemma parse_uint_range max s n : 0 <= max -> parse_uint max s = Some n -> 0 <= n <= max.
Proof.
  intros Hm (ds & _ & _ & Hds & -> & ?)%parse_uint_Some; [|done].
  pose proof (digits_value_ge 0 ds). lia.
Qed.

Lemma display_digits_spec fuel n :
  0 <= n < 10 ^ Z.of_nat fuel -> (0 < fuel)%nat ->
  display_digits fuel n <> [] /\ Forall (fun d => is_digit d = true) (display_digits fuel n) /\
  digits_value 0 (display_digits fuel n) = n.
Proof.
  revert n. induction fuel as [|fuel IH]; intros n Hn Hf; [lia|]. cbn [display_digits].
  destruct (Z.ltb_spec n 10).
  - split_and!; [done| |simpl; lia]. repeat constructor. apply is_digit_iff. lia.
  - rewrite Nat2Z.inj_succ, Z.pow_succ_r in Hn by lia.
    assert (0 < fuel)%nat. { destruct fuel; [simpl in Hn; lia|lia]. }
    destruct (IH (n / 10)) as (_ & Hds & Hv); [lia|done|].
    split_and!.
    + by intros [_ ?]%app_nil.
    + apply Forall_app. split; [done|]. repeat constructor. apply is_digit_iff. lia.
    + unfold digits_value in *. rewrite foldl_app, Hv. simpl. lia.
Qed.

Lemma parse_display max n :
  0 <= n <= max -> max <= usize_max -> parse_uint max (display n) = Some n.
Proof.
  intros Hn Hm. unfold usize_max in Hm. apply parse_uint_Some; [lia|].
  destruct (display_digits_spec 20 n) as (? & ? & Hv); [simpl Z.of_nat; lia|lia|].
  exists (display n). split_and!; try done; [by left|lia].
Qed.

Lemma display_len fuel n : (length (display_digits fuel n) <= fuel)%nat.
Proof.
  revert n. induction fuel as [|fuel IH]; intros n; simpl; [lia|].
  destruct (n <? 10); simpl; [lia|]. rewrite length_app. specialize (IH (n / 10)). simpl. lia.
Qed.

(** A number is shown in at most twenty digits. *)
Lemma display_ascii n :
  0 <= n <= usize_max -> Forall (fun d => is_digit d = true) (display n) /\ len (display n) <= 20.
Proof.
  intros Hn. destruct (display_digits_spec 20 n) as (_ & Hd & _); [|lia|].
  { unfold usize_max in Hn. change (10 ^ Z.of_nat 20) with 100000000000000000000. lia. }
  split; [exact Hd|]. pose proof (display_len 20 n). unfold display, len. lia.
Qed.
