(* ===== verification/Errors.v ===== *)
(** * Error types (src/error.rs)

    [ProtocolError] and [BrokerError] with their constructors and their [Display]
    texts.  The [std::io::Error] inside [BrokerError::Io] is an operating-system
    value: its type and its text are parameters. *)

From S2P Require Import Prelude.

Inductive ProtocolError : Type :=
| Incomplete
| InvalidRemainingLength
| UnknownPacketType (t : Z)
| UnsupportedFeature (s : string)
| MalformedPayload (s : string).

#[export] Instance ProtocolError_eq_dec : EqDecision ProtocolError.
Proof. solve_decision. Defined.

Inductive BrokerError (IoError : Type) : Type :=
| Io (e : IoError)
| Protocol (e : ProtocolError).
Arguments Io {IoError} e.
Arguments Protocol {IoError} e.

(** [impl From<std::io::Error>] and [impl From<ProtocolError>]. *)
Definition BrokerError_from_io {IoError} (e : IoError) : BrokerError IoError := Io e.
Definition BrokerError_from_protocol {IoError} (e : ProtocolError) : BrokerError IoError :=
  Protocol e.

(** A lower-case hexadecimal digit. *)
Definition hex_digit (d : Z) : Ascii.ascii :=
  Ascii.ascii_of_N (Z.to_N (if d <? 10 then 48 + d else 87 + d)).

(** The format [{:#04x}] of a byte: "0x" and two digits. *)
Definition hex_u8 (t : Z) : string :=
  String.append "0x" (String.String (hex_digit (t / 16))
    (String.String (hex_digit (t mod 16)) String.EmptyString)).

Definition ProtocolError_fmt (e : ProtocolError) : string :=
  match e with
  | Incomplete => "incomplete packet, need more bytes"
  | InvalidRemainingLength => "invalid remaining length encoding"
  | UnknownPacketType t => String.append "unknown packet type: " (hex_u8 t)
  | UnsupportedFeature s => String.append "unsupported feature: " s
  | MalformedPayload s => String.append "malformed payload: " s
  end.

Definition BrokerError_fmt {IoError} (io_fmt : IoError -> string) (e : BrokerError IoError) : string :=
  match e with
  | Io e => String.append "io error: " (io_fmt e)
  | Protocol e => String.append "protocol error: " (ProtocolError_fmt e)
  end.

Example hex_u8_0f : hex_u8 15 = "0x0f".
Proof. reflexivity. Qed.

(** A text without a line break. *)
Definition one_line (s : string) : bool :=
  forallb (fun a => negb (Ascii.eqb a (Ascii.ascii_of_nat 10))) (String.list_ascii_of_string s).

(** An error of a complete packet: neither a request for more bytes nor a bad header;
    and its text is one line. *)
Definition final (e : ProtocolError) : Prop :=
  match e with
  | Incomplete | InvalidRemainingLength => False
  | UnknownPacketType t => 0 <= t < 16
  | UnsupportedFeature s | MalformedPayload s => one_line s = true
  end.
