(* ===== verification/Packets.v ===== *)
(** * MQTT packets (src/protocol.rs, lines 16 to 125)

    The packet structures and the packet-type nibbles of the broker's codec.
    Record fields carry a prefix where the source reuses a field name
    ([packet_id]). *)

From S2P Require Import Prelude.

Record ConnectPacket : Type := mkConnect {
  protocol_name : rstring;
  protocol_level : Z;
  clean_session : bool;
  keep_alive_secs : Z;
  client_id : rstring;
}.

Inductive ConnectReturnCode : Type :=
| Accepted
| UnacceptableProtocolVersion
| IdentifierRejected
| ServerUnavailable
| BadUsernameOrPassword
| NotAuthorized.

(** The discriminants: [return_code as u8]. *)
Definition ConnectReturnCode_u8 (c : ConnectReturnCode) : Z :=
  match c with
  | Accepted => 0
  | UnacceptableProtocolVersion => 1
  | IdentifierRejected => 2
  | ServerUnavailable => 3
  | BadUsernameOrPassword => 4
  | NotAuthorized => 5
  end.

Record ConnAckPacket : Type := mkConnAck {
  session_present : bool;
  return_code : ConnectReturnCode;
}.

Record SubscribePacket : Type := mkSubscribe {
  sub_packet_id : Z;
  subscriptions : list (rstring * Z);
}.

Record SubAckPacket : Type := mkSubAck {
  suback_packet_id : Z;
  return_codes : list Z;
}.

Record UnsubscribePacket : Type := mkUnsubscribe {
  unsub_packet_id : Z;
  topic_filters : list rstring;
}.

Record UnsubAckPacket : Type := mkUnsubAck {
  unsuback_packet_id : Z;
}.

Record PublishPacket : Type := mkPublish {
  topic : rstring;
  payload : bytes;
  qos : Z;
  retain : bool;
  pub_packet_id : option Z;
}.

Record PubAckPacket : Type := mkPubAck {
  puback_packet_id : Z;
}.

Inductive MqttPacket : Type :=
| Connect (p : ConnectPacket)
| ConnAck (p : ConnAckPacket)
| Subscribe (p : SubscribePacket)
| SubAck (p : SubAckPacket)
| Unsubscribe (p : UnsubscribePacket)
| UnsubAck (p : UnsubAckPacket)
| Publish (p : PublishPacket)
| PubAck (p : PubAckPacket)
| PingReq
| PingResp
| Disconnect.

#[export] Instance ConnectReturnCode_eq_dec : EqDecision ConnectReturnCode.
Proof. solve_decision. Defined.
#[export] Instance ConnectPacket_eq_dec : EqDecision ConnectPacket.
Proof. solve_decision. Defined.
#[export] Instance ConnAckPacket_eq_dec : EqDecision ConnAckPacket.
Proof. solve_decision. Defined.
#[export] Instance SubscribePacket_eq_dec : EqDecision SubscribePacket.
Proof. solve_decision. Defined.
#[export] Instance SubAckPacket_eq_dec : EqDecision SubAckPacket.
Proof. solve_decision. Defined.
#[export] Instance UnsubscribePacket_eq_dec : EqDecision UnsubscribePacket.
Proof. solve_decision. Defined.
#[export] Instance UnsubAckPacket_eq_dec : EqDecision UnsubAckPacket.
Proof. solve_decision. Defined.
#[export] Instance PubAckPacket_eq_dec : EqDecision PubAckPacket.
Proof. solve_decision. Defined.
#[export] Instance PublishPacket_eq_dec : EqDecision PublishPacket.
Proof. solve_decision. Defined.
#[export] Instance MqttPacket_eq_dec : EqDecision MqttPacket.
Proof. solve_decision. Defined.

(** Packet type nibbles (MQTT 3.1.1, Table 2.1). *)
Definition PT_CONNECT : Z := 1.
Definition PT_CONNACK : Z := 2.
Definition PT_PUBLISH : Z := 3.
Definition PT_PUBACK : Z := 4.
Definition PT_SUBSCRIBE : Z := 8.
Definition PT_SUBACK : Z := 9.
Definition PT_UNSUBSCRIBE : Z := 10.
Definition PT_UNSUBACK : Z := 11.
Definition PT_PINGREQ : Z := 12.
Definition PT_PINGRESP : Z := 13.
Definition PT_DISCONNECT : Z := 14.
