(* ===== verification/RemainingLength.v ===== *)
(** * The Remaining Length field (src/protocol.rs, lines 229 to 283)

    The variable-length integer of the MQTT fixed header: its decoder and its
    encoder, as loops with the source's guards.  The decoder runs at most five
    iterations (the fifth one rejects), the encoder at most five (32 bits at 7
    bits per byte), so a fuel of 5 is never used up. *)

From S2P Require Import Prelude Errors.

(** One iteration of the loop of [decode_remaining_length] on [(value, i)]. *)
Definition decode_remaining_length_step (buf : bytes) (st : Z * Z)
    : outcome ProtocolError (Z * Z + Z * Z) :=
  let '(value, i) := st in
  if 4 <=? i then Err InvalidRemainingLength
  else if len buf <=? i then Err Incomplete
  else
    encoded_byte ← index buf i;
    multiplier ← pow_u32 128 i;
    part ← mul_u32 (Z.land encoded_byte 127) multiplier;
    value' ← add_u32 value part;
    i' ← add_usize i 1;
    if Z.land encoded_byte 128 =? 0 then Ok (inr (value', i')) else Ok (inl (value', i')).

Definition decode_remaining_length (buf : bytes) : outcome ProtocolError (Z * Z) :=
  loop 5 (decode_remaining_length_step buf) (0, 0).

(** One iteration of the loop of [encode_remaining_length] on [(x, out)]. *)
Definition encode_remaining_length_step {E} (st : Z * bytes) : outcome E (Z * bytes + bytes) :=
  let '(x, out) := st in
  let encoded_byte := as_u8 (x mod 128) in
  let x' := x / 128 in
  let encoded_byte := if 0 <? x' then Z.lor encoded_byte 128 else encoded_byte in
  let out' := out ++ [encoded_byte] in
  if x' =? 0 then Ok (inr out') else Ok (inl (x', out')).

Definition encode_remaining_length {E} (n : Z) : outcome E bytes :=
  loop 5 encode_remaining_length_step (n, []).

Example encode_321 : encode_remaining_length (E:=ProtocolError) 321 = Ok [193; 2].
Proof. reflexivity. Qed.
Example decode_max : decode_remaining_length [255; 255; 255; 127] = Ok (268435455, 4).
Proof. reflexivity. Qed.
Example decode_five : decode_remaining_length [255; 255; 255; 255; 127] = Err InvalidRemainingLength.
Proof. reflexivity. Qed.

(** ** Bit operations on bytes *)

Lemma land_127 b : 0 <= b < 256 -> Z.land b 127 = b mod 128.
Proof. intros. change 127 with (Z.ones 7). by rewrite Z.land_ones by lia. Qed.

Lemma land_128 b : 0 <= b < 256 -> Z.land b 128 = (b / 128) * 128.
Proof.
  intros Hb. apply Z.eqb_eq. revert b Hb.
  apply (byte_cases (fun b => Z.land b 128 =? (b / 128) * 128)). reflexivity.
Qed.

Lemma lor_128 m : 0 <= m < 128 -> Z.lor m 128 = m + 128.
Proof.
  intros Hm. assert (Hb : 0 <= m < 256) by lia. apply Z.eqb_eq.
  enough (implb (m <? 128) (Z.lor m 128 =? m + 128) = true) as H.
  { destruct (Z.ltb_spec m 128); [done|lia]. }
  revert m Hb Hm. intros m Hb _. revert m Hb.
  apply (byte_cases (fun m => implb (m <? 128) (Z.lor m 128 =? m + 128))). reflexivity.
Qed.

(** ** The encoder *)

(** The digits of [x], [k] at most, in the order they are sent. *)
Fixpoint rl_digits (k : nat) (x : Z) : bytes :=
  match k with
  | O => []
  | S k' => if x <? 128 then [x] else (x mod 128 + 128) :: rl_digits k' (x / 128)
  end.

Lemma pow_128_succ k : 128 ^ Z.of_nat (S k) = 128 * 128 ^ Z.of_nat k.
Proof. rewrite Nat2Z.inj_succ, Z.pow_succ_r by lia. done. Qed.

Lemma pow_128_pos k : 0 < 128 ^ Z.of_nat k.
Proof. apply Z.pow_pos_nonneg; lia. Qed.

Lemma encode_loop {E} k x out :
  0 <= x < 128 ^ Z.of_nat k -> (0 < k)%nat ->
  loop k (encode_remaining_length_step (E:=E)) (x, out) = Ok (out ++ rl_digits k x).
Proof.
  revert x out. induction k as [|k IH]; intros x out Hx Hk; [lia|].
  rewrite pow_128_succ in Hx. cbn [loop encode_remaining_length_step rl_digits].
  unfold as_u8. rewrite (Z.mod_small (x mod 128)) by lia.
  destruct (Z.ltb_spec x 128).
  - rewrite Z.div_small, Z.mod_small by lia. done.
  - replace (0 <? x / 128) with true by lia. replace (x / 128 =? 0) with false by lia.
    rewrite lor_128 by lia. cbn.
    destruct k as [|k]; [change (128 ^ Z.of_nat 0) with 1 in Hx; lia|].
    rewrite IH by first [lia | split; [lia|apply Z.div_lt_upper_bound; lia]].
    by rewrite <- app_assoc.
Qed.

Lemma encode_remaining_length_eq {E} n :
  0 <= n <= u32_max -> encode_remaining_length (E:=E) n = Ok (rl_digits 5 n).
Proof. unfold u32_max. intros. unfold encode_remaining_length. rewrite encode_loop by lia. done. Qed.

Lemma rl_digits_len k x : (0 < k)%nat -> 1 <= len (rl_digits k x) <= Z.of_nat k.
Proof.
  revert x. induction k as [|k IH]; intros x Hk; [lia|]. cbn [rl_digits].
  destruct (x <? 128); autorewrite with len; [lia|].
  destruct k; [simpl; autorewrite with len; lia|]. specialize (IH (x / 128)). lia.
Qed.

Lemma rl_digits_enough k j x :
  0 <= x < 128 ^ Z.of_nat k -> (0 < k)%nat -> rl_digits (k + j) x = rl_digits k x.
Proof.
  revert x. induction k as [|k IH]; intros x Hx Hk; [lia|].
  rewrite pow_128_succ in Hx. cbn [rl_digits Nat.add].
  destruct (Z.ltb_spec x 128); [done|]. f_equal.
  destruct k; [change (128 ^ Z.of_nat 0) with 1 in Hx; lia|].
  apply IH; [|lia]. split; [lia|apply Z.div_lt_upper_bound; lia].
Qed.

Lemma rl_digits_ok k x : 0 <= x -> bytes_ok (rl_digits k x).
Proof.
  revert x. induction k as [|k IH]; intros x Hx; cbn [rl_digits]; [by apply Forall_nil|].
  destruct (Z.ltb_spec x 128); apply Forall_cons; rewrite u8_ok_iff.
  - split; [lia|by apply Forall_nil].
  - split; [lia|apply IH; lia].
Qed.

(** ** The decoder *)

(** The encodings of a number, of any length: the highest bit of a byte says that
    another one follows. *)
Inductive rl_value : bytes -> Z -> Prop :=
| rl_end b : 0 <= b < 128 -> rl_value [b] b
| rl_next b bs v : 128 <= b < 256 -> rl_value bs v -> rl_value (b :: bs) (b - 128 + 128 * v).

(** Bytes that all say that another one follows. *)
Definition rl_open (bs : bytes) : Prop := Forall (fun b => 128 <= b < 256) bs.

Lemma rl_value_range bs v : rl_value bs v -> 0 <= v < 128 ^ len bs /\ 1 <= len bs.
Proof.
  induction 1 as [b Hb|b bs v Hb _ [IH Hl]]; 
    [change (len [b]) with 1; change (128 ^ 1) with 128; lia|]. rewrite len_cons.
  rewrite Z.pow_add_r by lia. change (128 ^ 1) with 128. split; [nia|lia].
Qed.

Lemma rl_value_max bs v : rl_value bs v -> len bs <= 4 -> 0 <= v <= 268435455.
Proof.
  intros [Hv Hl]%rl_value_range Hlen. change 268435455 with (128 ^ 4 - 1).
  assert (128 ^ len bs <= 128 ^ 4) by (apply Z.pow_le_mono_r; lia). lia.
Qed.

Lemma rl_digits_value k x : 0 <= x < 128 ^ Z.of_nat k -> (0 < k)%nat -> rl_value (rl_digits k x) x.
Proof.
  revert x. induction k as [|k IH]; intros x Hx Hk; [lia|]. rewrite pow_128_succ in Hx. cbn [rl_digits].
  destruct (Z.ltb_spec x 128); [apply rl_end; lia|].
  assert (Hsplit : x = x mod 128 + 128 - 128 + 128 * (x / 128)) by lia. rewrite Hsplit at 3.
  apply rl_next; [lia|]. destruct k as [|k]; [change (128 ^ Z.of_nat 0) with 1 in Hx; lia|].
  apply IH; [|lia]. split; [lia|apply Z.div_lt_upper_bound; lia].
Qed.

(** What a buffer starts with: an encoding of [k] bytes at most, or none yet. *)
Lemma rl_scan k buf :
  bytes_ok buf ->
  (exists bs rest v, buf = bs ++ rest /\ rl_value bs v /\ len bs <= Z.of_nat k) \/
  (rl_open buf /\ len buf < Z.of_nat k) \/
  (exists bs rest, buf = bs ++ rest /\ rl_open bs /\ len bs = Z.of_nat k).
Proof.
  revert buf. induction k as [|k IH]; intros buf Hbuf.
  - right. right. exists [], buf. split_and!; [done|by apply Forall_nil|done].
  - destruct buf as [|b buf].
    + right. left. split; [by apply Forall_nil|rewrite len_nil; lia].
    + apply Forall_cons in Hbuf as [Hb%u8_ok_iff Hbuf]. destruct (Z.lt_ge_cases b 128).
      * left. exists [b], buf, b. split_and!; [done|apply rl_end; lia|len_lia].
      * destruct (IH buf Hbuf) as [(bs & rest & v & -> & Hv & Hl)|[[Ho Hl]|(bs & rest & -> & Ho & Hl)]].
        -- left. exists (b :: bs), rest, (b - 128 + 128 * v).
           split_and!; [done|apply rl_next; [lia|done]|rewrite len_cons; lia].
        -- right. left. split; [apply Forall_cons; split; [lia|done]|rewrite len_cons; lia].
        -- right. right. exists (b :: bs), rest.
           split_and!; [done|apply Forall_cons; split; [lia|done]|rewrite len_cons; lia].
Qed.

Lemma decode_step_digit buf pre b suf v i :
  buf = pre ++ b :: suf -> i = len pre -> 0 <= i <= 3 -> 0 <= b < 256 -> 0 <= v < 128 ^ i ->
  decode_remaining_length_step buf (v, i) =
  Ok (if b <? 128 then inr (v + b mod 128 * 128 ^ i, i + 1)
      else inl (v + b mod 128 * 128 ^ i, i + 1)).
Proof.
  intros -> Hpre Hi Hb Hv. unfold decode_remaining_length_step.
  replace (4 <=? i) with false by lia.
  replace (len (pre ++ b :: suf) <=? i) with false by (symmetry; apply Z.leb_gt; len_lia).
  rewrite index_at by done. cbn. rewrite land_127, land_128 by done.
  assert (Hi3 : 128 ^ i <= 2097152) by (change 2097152 with (128 ^ 3); apply Z.pow_le_mono_r; lia).
  assert (0 <= b mod 128 * 128 ^ i <= 127 * 128 ^ i) by nia.
  unfold pow_u32, mul_u32, add_u32, add_usize, u32_max, usize_max.
  replace (128 ^ i <=? 4294967295) with true by lia. cbn.
  replace (b mod 128 * 128 ^ i <=? 4294967295) with true by lia. cbn.
  replace (v + b mod 128 * 128 ^ i <=? 4294967295) with true by lia. cbn.
  replace (i + 1 <=? 18446744073709551615) with true by lia. cbn.
  destruct (Z.ltb_spec b 128), (Z.eqb_spec (b / 128 * 128) 0); try done; lia.
Qed.

Lemma app_cons_assoc {A} (pre bs rest : list A) b : pre ++ (b :: bs) ++ rest = (pre ++ [b]) ++ bs ++ rest.
Proof. by rewrite <- app_assoc. Qed.

(** The loop goes through an encoding, whatever follows. *)
Lemma decode_loop_value bs x fuel pre v rest :
  rl_value bs x -> (length bs <= fuel)%nat -> len pre + len bs <= 4 -> 0 <= v < 128 ^ len pre ->
  loop fuel (decode_remaining_length_step (pre ++ bs ++ rest)) (v, len pre) =
  Ok (v + x * 128 ^ len pre, len pre + len bs).
Proof.
  intros Hx. revert fuel pre v. induction Hx as [b Hb|b bs x Hb Hx IH]; intros fuel pre v Hf Hpre Hv;
    pose proof (len_nonneg pre); (destruct fuel as [|fuel]; [simpl in Hf; lia|]); cbn [loop].
  - rewrite len_cons, len_nil in *. rewrite (decode_step_digit _ pre b rest) by (try done; lia).
    replace (b <? 128) with true by lia. cbn [mbind outcome_bind]. by rewrite Z.mod_small by lia.
  - rewrite len_cons in *. pose proof (rl_value_range _ _ Hx) as [_ Hl].
    rewrite (decode_step_digit _ pre b (bs ++ rest)) by (try done; lia).
    replace (b <? 128) with false by lia. cbn [mbind outcome_bind]. simpl in Hf. rewrite app_cons_assoc.
    assert (Hp : len (pre ++ [b]) = len pre + 1) by len_lia.
    assert (Hpow : 128 ^ (len pre + 1) = 128 * 128 ^ len pre) by (rewrite Z.pow_add_r by lia; lia).
    assert (Hm : b mod 128 = b - 128) by (symmetry; apply (Z.mod_unique _ _ 1); lia).
    rewrite <- Hp, IH; rewrite ?Hp, ?Hpow, ?Hm; [|lia..|nia]. f_equal. f_equal; [|lia]. nia.
Qed.

(** It goes on over bytes that are open. *)
Lemma decode_loop_open bs fuel pre v rest :
  rl_open bs -> len pre + len bs <= 4 -> 0 <= v < 128 ^ len pre ->
  exists v', loop (length bs + fuel) (decode_remaining_length_step (pre ++ bs ++ rest)) (v, len pre) =
             loop fuel (decode_remaining_length_step (pre ++ bs ++ rest)) (v', len (pre ++ bs)).
Proof.
  intros Ho. revert pre v. induction Ho as [|b bs Hb _ IH]; intros pre v Hpre Hv.
  - exists v. simpl. by rewrite app_nil_r.
  - rewrite len_cons in Hpre. pose proof (len_nonneg pre). pose proof (len_nonneg bs).
    cbn [length Nat.add loop]. rewrite (decode_step_digit _ pre b (bs ++ rest)) by (try done; lia).
    replace (b <? 128) with false by lia. cbn [mbind outcome_bind]. rewrite app_cons_assoc.
    assert (Hp : len (pre ++ [b]) = len pre + 1) by len_lia.
    assert (Hpow : 128 ^ (len pre + 1) = 128 * 128 ^ len pre) by (rewrite Z.pow_add_r by lia; lia).
    rewrite <- Hp. destruct (IH (pre ++ [b]) (v + b mod 128 * 128 ^ len pre)) as [v' ->]; rewrite ?Hp, ?Hpow;
      [lia|nia|].
    exists v'. by rewrite <- (app_assoc pre [b] bs).
Qed.

(** A buffer that starts with an encoding of four bytes at most. *)
Lemma decode_remaining_length_value bs v rest :
  rl_value bs v -> len bs <= 4 -> decode_remaining_length (bs ++ rest) = Ok (v, len bs).
Proof.
  intros Hv Hl. pose proof (decode_loop_value bs v 5 [] 0 rest Hv) as Hd. unfold decode_remaining_length.
  cbn [app] in Hd. change (len []) with 0 in Hd. change (128 ^ 0) with 1 in Hd.
  rewrite Hd by (unfold len in *; lia). f_equal. f_equal; lia.
Qed.

Lemma decode_remaining_length_short buf :
  rl_open buf -> len buf < 4 -> decode_remaining_length buf = Err Incomplete.
Proof.
  intros Ho Hl. unfold decode_remaining_length.
  assert (Hf : 5%nat = (length buf + (5 - length buf))%nat) by (unfold len in Hl; lia).
  pose proof (decode_loop_open buf (5 - length buf) [] 0 [] Ho) as Hd.
  rewrite <- Hf in Hd. cbn [app] in Hd. rewrite app_nil_r in Hd.
  change (len []) with 0 in Hd. destruct Hd as [v ->]; [lia|done|].
  destruct (5 - length buf)%nat as [|n] eqn:Hn; [unfold len in Hl; lia|]. cbn [loop decode_remaining_length_step].
  replace (4 <=? len buf) with false by lia. by rewrite Z.leb_refl.
Qed.

Lemma decode_remaining_length_long bs rest :
  rl_open bs -> len bs = 4 -> decode_remaining_length (bs ++ rest) = Err InvalidRemainingLength.
Proof.
  intros Ho Hl. unfold decode_remaining_length.
  pose proof (decode_loop_open bs 1 [] 0 rest Ho) as Hd. cbn [app] in Hd.
  replace (length bs + 1)%nat with 5%nat in Hd by (unfold len in Hl; lia).
  change (len []) with 0 in Hd. destruct Hd as [v ->]; [lia|done|]. cbn [loop decode_remaining_length_step].
  by rewrite Hl.
Qed.

(** What the decoder gives for any buffer. *)
Lemma decode_remaining_length_wp buf :
  bytes_ok buf ->
  WP (decode_remaining_length buf)
    {{ '(v, n), exists bs rest, buf = bs ++ rest /\ rl_value bs v /\ n = len bs /\ len bs <= 4
     | e, e = Incomplete /\ rl_open buf /\ len buf < 4 \/
          e = InvalidRemainingLength /\ exists bs rest, buf = bs ++ rest /\ rl_open bs /\ len bs = 4 }}.
Proof.
  intros Hbuf. destruct (rl_scan 4 buf Hbuf) as [(bs & rest & v & -> & Hv & Hl)|[[Ho Hl]|(bs & rest & -> & Ho & Hl)]].
  - rewrite (decode_remaining_length_value bs v) by done. by exists bs, rest.
  - rewrite decode_remaining_length_short by done. by left.
  - rewrite decode_remaining_length_long by done. right. split; [done|]. by exists bs, rest.
Qed.

(** The decoder inverts the encoder, whatever follows. *)
Lemma decode_encode_remaining_length n rest :
  0 <= n <= 268435455 ->
  decode_remaining_length (rl_digits 5 n ++ rest) = Ok (n, len (rl_digits 5 n)).
Proof.
  intros Hn. change 5%nat with (4 + 1)%nat.
  rewrite rl_digits_enough by (change (128 ^ Z.of_nat 4) with 268435456; lia).
  pose proof (rl_digits_len 4 n). apply decode_remaining_length_value; [|lia].
  apply rl_digits_value; [change (128 ^ Z.of_nat 4) with 268435456|]; lia.
Qed.

(** Bytes that arrive later do not change an answer other than [Incomplete]. *)
Lemma decode_remaining_length_app buf more :
  decode_remaining_length buf = Err Incomplete \/
  decode_remaining_length (buf ++ more) = decode_remaining_length buf.
Proof.
  apply loop_agree. intros [v i]. unfold decode_remaining_length_step.
  destruct (Z.leb_spec 4 i); [by right|].
  destruct (Z.leb_spec (len buf) i); [by left|]. right.
  replace (len (buf ++ more) <=? i) with false by (symmetry; apply Z.leb_gt; len_lia).
  destruct (Z.ltb_spec i 0).
  { unfold index. by replace (i <? 0) with true by lia. }
  by rewrite index_app by lia.
Qed.
