(* ===== verification/Topics.v ===== *)
(** * Topic filters (src/protocol.rs, lines 421 to 508)

    [validate_topic_filter] and [topic_matches_filter] as the source writes them
    (a pass over the '/'-separated levels with early returns), and what they
    decide: the well-formed filters of MQTT 3.1.1 section 4.7, and the matching
    relation between topic names and filters. *)

From S2P Require Import Prelude Errors.

(** The ASCII codes of '/', '+' and '#'. *)
Definition SLASH : Z := 47.
Definition PLUS : Z := 43.
Definition HASH : Z := 35.

(** The [for (i, level) in levels.iter().enumerate()] of [validate_topic_filter]. *)
Fixpoint validate_levels (i last_index : Z) (levels : list rstring) : outcome ProtocolError unit :=
  match levels with
  | [] => Ok tt
  | level :: levels' =>
      if contains HASH level then
        if negb (bool_decide (level = str "#")) then
          Err (MalformedPayload "'#' must occupy an entire topic level on its own (§4.7.1.2)")
        else if negb (i =? last_index) then
          Err (MalformedPayload "'#' must be the last level in a topic filter (§4.7.1.2)")
        else validate_levels (i + 1) last_index levels'
      else if contains PLUS level && negb (bool_decide (level = str "+")) then
        Err (MalformedPayload "'+' must occupy an entire topic level on its own (§4.7.1.3)")
      else validate_levels (i + 1) last_index levels'
  end.

Definition validate_topic_filter (filter : rstring) : outcome ProtocolError unit :=
  match filter with
  | [] => Err (MalformedPayload "topic filter must be at least one character (§4.7.3)")
  | _ =>
      let levels := split SLASH filter in
      let last_index := len levels - 1 in
      validate_levels 0 last_index levels
  end.

(** The [while] loop of [topic_matches_filter]: the recursion is on the filter
    levels from [fi] on, [ti] is the topic index, and the lookup fails exactly
    when [ti >= topic_levels.len()]. *)
Fixpoint match_levels (topic_levels : list rstring) (ti : nat) (filter_levels : list rstring) : bool :=
  match filter_levels with
  | [] => (ti =? length topic_levels)%nat
  | flevel :: filter_levels' =>
      if bool_decide (flevel = str "#") then true
      else match topic_levels !! ti with
      | None => false
      | Some tlevel =>
          if negb (bool_decide (flevel = str "+")) && negb (bool_decide (flevel = tlevel))
          then false
          else match_levels topic_levels (S ti) filter_levels'
      end
  end.

Definition topic_matches_filter (topic filter : rstring) : bool :=
  match_levels (split SLASH topic) 0 (split SLASH filter).

(** [is_wildcard_filter] of src/broker.rs. *)
Definition is_wildcard_filter (filter : rstring) : bool :=
  contains PLUS filter || contains HASH filter.

(** ** What the two functions decide *)

(** A level without wildcard characters. *)
Definition plain_level (level : rstring) : Prop := (HASH ∉ level) /\ (PLUS ∉ level).

(** The filters of section 4.7: every level is plain or "+", and the last one may
    be "#". *)
Inductive filter_levels_ok : list rstring -> Prop :=
| filter_last level :
    plain_level level \/ level = str "+" \/ level = str "#" ->
    filter_levels_ok [level]
| filter_more level levels :
    plain_level level \/ level = str "+" -> filter_levels_ok levels ->
    filter_levels_ok (level :: levels).

(** The matching relation of section 4.7.1. *)
Inductive levels_match : list rstring -> list rstring -> Prop :=
| match_end : levels_match [] []
| match_hash ts fs : levels_match ts (str "#" :: fs)
| match_plus t ts fs : levels_match ts fs -> levels_match (t :: ts) (str "+" :: fs)
| match_same l ts fs : levels_match ts fs -> levels_match (l :: ts) (l :: fs).

Example match_parent : topic_matches_filter (str "sport") (str "sport/#") = true.
Proof. reflexivity. Qed.
Example match_one_level : topic_matches_filter (str "a/b/c") (str "a/+") = false.
Proof. reflexivity. Qed.
Example bad_hash : validate_topic_filter (str "sport/#/rank") =
  Err (MalformedPayload "'#' must be the last level in a topic filter (§4.7.1.2)").
Proof. reflexivity. Qed.

Lemma plain_level_dec level :
  contains HASH level = false -> contains PLUS level = false -> plain_level level.
Proof. rewrite !contains_false. by split. Qed.

Lemma validate_levels_ok i last levels :
  levels <> [] -> last = i + len levels - 1 ->
  validate_levels i last levels = Ok tt <-> filter_levels_ok levels.
Proof.
  revert i. induction levels as [|level levels IH]; intros i Hne Hlast; [done|].
  rewrite len_cons in Hlast. cbn [validate_levels].
  assert (Hrest : levels = [] /\ last = i \/ levels <> [] /\ last <> i).
  { destruct levels; [left|right]; split; try done; len_lia. }
  destruct (contains HASH level) eqn:Hh.
  - apply contains_true in Hh. destruct (bool_decide_reflect (level = str "#")) as [->|Hn]; cbn [negb andb].
    + destruct Hrest as [[-> ->]|[Hne' Hl]].
      * rewrite Z.eqb_refl. cbn. split; [|done]. intros _. constructor. auto.
      * destruct (Z.eqb_spec i last); [lia|]. cbn [negb]. split; [done|].
        inversion 1 as [|? ? [[Hp _]|Hp]]; subst; try done; try set_solver.
    + split; [done|]. inversion 1 as [? Hp|? ? Hp]; subst; unfold plain_level in Hp;
        destruct_or?; subst; try done; try tauto; set_solver.
  - destruct (contains PLUS level) eqn:Hp; cbn [negb andb].
    + apply contains_true in Hp. apply contains_false in Hh.
      destruct (bool_decide_reflect (level = str "+")) as [->|Hn]; cbn [negb andb].
      * destruct Hrest as [[-> ->]|[Hne' Hl]].
        -- cbn. split; [|done]. intros _. constructor. auto.
        -- rewrite IH by (try done; lia). split.
           ++ intros. constructor; auto.
           ++ inversion 1; by subst.
      * split; [done|]. inversion 1 as [? Hq|? ? Hq]; subst; unfold plain_level in Hq;
          destruct_or?; subst; try done; try tauto; set_solver.
    + pose proof (plain_level_dec _ Hh Hp) as Hpl.
      destruct Hrest as [[-> ->]|[Hne' Hl]].
      * cbn. split; [|done]. intros _. constructor. auto.
      * rewrite IH by (try done; lia). split.
        ++ intros. constructor; auto.
        ++ inversion 1; by subst.
Qed.

Lemma validate_topic_filter_ok f :
  validate_topic_filter f = Ok tt <-> f <> [] /\ filter_levels_ok (split SLASH f).
Proof.
  destruct f as [|b f]; [by split; [|intros []]|].
  cbn [validate_topic_filter]. rewrite validate_levels_ok; [naive_solver|apply split_nonempty|lia].
Qed.

(** A rejected filter gives a [MalformedPayload], nothing else. *)
Lemma validate_levels_wp i last levels :
  WP (validate_levels i last levels) {{ _, True | e, exists s, e = MalformedPayload s /\ one_line s = true }}.
Proof.
  revert i. induction levels as [|level levels IH]; intros i; cbn [validate_levels]; [done|].
  repeat wp_step; eauto.
Qed.

Lemma validate_topic_filter_wp f :
  WP (validate_topic_filter f)
    {{ _, f <> [] /\ filter_levels_ok (split SLASH f) | e, exists s, e = MalformedPayload s /\ one_line s = true }}.
Proof.
  assert (H : WP (validate_topic_filter f) {{ _, True | e, exists s, e = MalformedPayload s /\ one_line s = true }}).
  { destruct f; [simpl; eauto|]. apply validate_levels_wp. }
  destruct (validate_topic_filter f) as [[]|e| |] eqn:Hf; try done.
  by apply validate_topic_filter_ok.
Qed.

Lemma match_levels_spec tl ti fl :
  match_levels tl ti fl = true <-> (ti <= length tl)%nat /\ levels_match (drop ti tl) fl
    \/ (length tl < ti)%nat /\ exists fs, fl = str "#" :: fs.
Proof.
  revert ti. induction fl as [|f fl IH]; intros ti; cbn [match_levels].
  - rewrite Nat.eqb_eq. split.
    + intros ->. left. split; [done|]. rewrite drop_all. constructor.
    + intros [[Hle Hm]|[_ [? ?]]]; [|done]. inversion Hm as [H| | |].
      symmetry in H. apply (f_equal length) in H. rewrite length_drop in H. simpl in H. lia.
  - destruct (bool_decide_reflect (f = str "#")) as [->|Hnh].
    { split; [|done]. intros _. destruct (decide (ti <= length tl)%nat); [left|right; split; [lia|eauto]].
      split; [done|constructor]. }
    destruct (tl !! ti) as [t|] eqn:Ht.
    + assert (Hlt : (ti < length tl)%nat) by (by eapply lookup_lt_Some).
      rewrite (drop_S _ t) by done.
      destruct (bool_decide_reflect (f = str "+")) as [->|Hnp]; cbn [negb andb].
      { rewrite IH. split.
        - intros [[_ Hm]|[? _]]; [|lia]. left. split; [lia|]. by constructor.
        - intros [[_ Hm]|[? _]]; [|lia]. left. split; [lia|]. by inversion Hm; subst. }
      destruct (bool_decide_reflect (f = t)) as [->|Hnt]; cbn [negb].
      { rewrite IH. split.
        - intros [[_ Hm]|[? _]]; [|lia]. left. split; [lia|]. by constructor.
        - intros [[_ Hm]|[? _]]; [|lia]. left. split; [lia|]. by inversion Hm; subst. }
      split; [done|]. intros [[_ Hm]|[? _]]; [|lia]. by inversion Hm; subst.
    + apply lookup_ge_None in Ht. split; [done|].
      intros [[_ Hm]|[_ [? ?]]]; [|by simplify_eq].
      rewrite drop_ge in Hm by done. by inversion Hm; subst.
Qed.

Lemma topic_matches_filter_spec t f :
  topic_matches_filter t f = true <-> levels_match (split SLASH t) (split SLASH f).
Proof.
  unfold topic_matches_filter. rewrite match_levels_spec.
  split; [intros [[_ Hm]|[? _]]; [done|lia]|]. intros. left. split; [lia|done].
Qed.

(** ** Filters without wildcards *)

Lemma split_elem c x p s : p ∈ split c s -> x ∈ p -> x ∈ s.
Proof.
  revert p. induction s as [|b s IH]; intros p; simpl.
  - intros ->%list_elem_of_singleton. done.
  - destruct (b =? c).
    + intros [->|Hp]%elem_of_cons Hx; [set_solver|]. right. eauto.
    + destruct (split c s) as [|q qs].
      * intros ->%list_elem_of_singleton ->%list_elem_of_singleton. left.
      * intros [->|Hp]%elem_of_cons Hx.
        -- apply elem_of_cons in Hx as [->|Hx]; [left|]. right. eapply IH; [left|done].
        -- right. eapply IH; [by right|done].
Qed.

Lemma not_wildcard_levels f :
  is_wildcard_filter f = false -> Forall plain_level (split SLASH f).
Proof.
  unfold is_wildcard_filter. rewrite orb_false_iff, !contains_false. intros [Hp Hh].
  apply Forall_forall. intros l Hl. split; intros Hc; [apply Hh|apply Hp]; eapply split_elem; eauto.
Qed.

(** A filter without wildcards is a valid one. *)
Lemma exact_levels_ok f : is_wildcard_filter f = false -> filter_levels_ok (split SLASH f).
Proof.
  intros Hf%not_wildcard_levels. pose proof (split_nonempty SLASH f) as Hne.
  induction Hf as [|l ls Hl Hls IH]; [done|].
  destruct ls as [|l' ls]; [apply filter_last; by left|apply filter_more; [by left|by apply IH]].
Qed.

Lemma levels_match_plain ts fs : Forall plain_level fs -> levels_match ts fs -> ts = fs.
Proof.
  intros Hfs Hm. revert Hfs. induction Hm as [|ts fs|t ts fs _ IH|l ts fs _ IH]; intros Hfs;
    [done| | |]; apply Forall_cons in Hfs as [[H1 H2] Hfs].
  - exfalso. apply H1. left.
  - exfalso. apply H2. left.
  - f_equal. auto.
Qed.

Lemma levels_match_refl ls : levels_match ls ls.
Proof. induction ls; constructor; auto. Qed.

Lemma split_inj c s1 s2 : split c s1 = split c s2 -> s1 = s2.
Proof. intros H. by rewrite <- (join_split c s1), <- (join_split c s2), H. Qed.

(** A filter without wildcards matches itself only: the exact-match lookup of
    the broker and the matching predicate agree. *)
Lemma topic_matches_exact t f :
  is_wildcard_filter f = false -> topic_matches_filter t f = true <-> t = f.
Proof.
  intros Hf. rewrite topic_matches_filter_spec. split.
  - intros Hm. apply (split_inj SLASH). apply levels_match_plain; [|done].
    by apply not_wildcard_levels.
  - intros ->. apply levels_match_refl.
Qed.
