(* ===== verification/Wire.v ===== *)
(** * Well-formed packets and their wire format (src/protocol.rs, MQTT 3.1.1)

    [decodable] are the packets a client may send and the broker handles.  [wire] is
    the standard's layout of a packet.  [accepted] says which bodies [decode] takes for
    which packet, and [frame] which bytes: they are more than [wire], since the code
    ignores flags that the standard reserves and takes any encoding of a length. *)

From S2P Require Import Prelude Utf8 Errors Packets RemainingLength Topics.

(** ** Well-formed packets *)

Definition u16 (x : Z) : Prop := 0 <= x < 65536.
(** A packet identifier other than the reserved 0. *)
Definition nonzero_u16 (x : Z) : Prop := 1 <= x < 65536.

(** A string that a two-byte length prefix can carry. *)
Definition rstring_ok (s : rstring) : Prop := valid_utf8 s = true /\ len s <= 65535.

Definition filter_ok (f : rstring) : Prop :=
  rstring_ok f /\ f <> [] /\ filter_levels_ok (split SLASH f).

Definition connect_ok (p : ConnectPacket) : Prop :=
  protocol_name p = str "MQTT" /\ protocol_level p = 4 /\ u16 (keep_alive_secs p) /\
  rstring_ok (client_id p).

Definition subscription_ok (s : rstring * Z) : Prop := filter_ok (fst s) /\ 0 <= snd s <= 2.

Definition subscribe_ok (p : SubscribePacket) : Prop :=
  u16 (sub_packet_id p) /\ subscriptions p <> [] /\ Forall subscription_ok (subscriptions p).

Definition unsubscribe_ok (p : UnsubscribePacket) : Prop :=
  u16 (unsub_packet_id p) /\ topic_filters p <> [] /\ Forall filter_ok (topic_filters p).

Definition publish_id_ok (q : Z) (id : option Z) : Prop :=
  match id with
  | None => q = 0
  | Some i => q = 1 /\ nonzero_u16 i
  end.

Definition publish_ok (p : PublishPacket) : Prop :=
  rstring_ok (topic p) /\ topic p <> [] /\ is_wildcard_filter (topic p) = false /\
  bytes_ok (payload p) /\ publish_id_ok (qos p) (pub_packet_id p).

(** The packets a client may send, as [decode] accepts them. *)
Definition decodable (p : MqttPacket) : Prop :=
  match p with
  | Connect p => connect_ok p
  | Subscribe p => subscribe_ok p
  | Unsubscribe p => unsubscribe_ok p
  | Publish p => publish_ok p
  | PubAck p => nonzero_u16 (puback_packet_id p)
  | PingReq | Disconnect => True
  | _ => False
  end.

(** The length of a packet's body: its Remaining Length. *)
Definition filters_len (fs : list rstring) : Z := foldr (fun f n => 2 + len f + n) 0 fs.
Definition subscriptions_len (ss : list (rstring * Z)) : Z :=
  foldr (fun s n => 3 + len (fst s) + n) 0 ss.

Definition remaining_length (p : MqttPacket) : Z :=
  match p with
  | Connect p => 8 + len (protocol_name p) + len (client_id p)
  | ConnAck _ => 2
  | Subscribe p => 2 + subscriptions_len (subscriptions p)
  | SubAck p => 2 + len (return_codes p)
  | Unsubscribe p => 2 + filters_len (topic_filters p)
  | UnsubAck _ => 2
  | Publish p =>
      2 + len (topic p) + match pub_packet_id p with Some _ => 2 | None => 0 end + len (payload p)
  | PubAck _ => 2
  | PingReq | PingResp | Disconnect => 0
  end.

Lemma filters_len_app fs1 fs2 : filters_len (fs1 ++ fs2) = filters_len fs1 + filters_len fs2.
Proof. induction fs1; simpl in *; lia. Qed.

Lemma subscriptions_len_app ss1 ss2 :
  subscriptions_len (ss1 ++ ss2) = subscriptions_len ss1 + subscriptions_len ss2.
Proof. induction ss1; simpl in *; lia. Qed.

(** ** The wire format *)

Definition field (s : rstring) : bytes := u16_to_be_bytes (len s) ++ s.

Definition wire_header (p : MqttPacket) : Z :=
  match p with
  | Connect _ => 16
  | ConnAck _ => 32
  | Publish p => 48 + 2 * qos p + (if retain p then 1 else 0)
  | PubAck _ => 64
  | Subscribe _ => 130
  | SubAck _ => 144
  | Unsubscribe _ => 162
  | UnsubAck _ => 176
  | PingReq => 192
  | PingResp => 208
  | Disconnect => 224
  end.

Definition subscription_wire (s : rstring * Z) : bytes := field (fst s) ++ [snd s].

Definition wire_body (p : MqttPacket) : bytes :=
  match p with
  | Connect p =>
      field (protocol_name p) ++ [protocol_level p; if clean_session p then 2 else 0] ++
      u16_to_be_bytes (keep_alive_secs p) ++ field (client_id p)
  | ConnAck p => [if session_present p then 1 else 0; ConnectReturnCode_u8 (return_code p)]
  | Publish p =>
      field (topic p) ++
      match pub_packet_id p with Some id => u16_to_be_bytes id | None => [] end ++ payload p
  | PubAck p => u16_to_be_bytes (puback_packet_id p)
  | Subscribe p =>
      u16_to_be_bytes (sub_packet_id p) ++ concat (map subscription_wire (subscriptions p))
  | SubAck p => u16_to_be_bytes (suback_packet_id p) ++ return_codes p
  | Unsubscribe p => u16_to_be_bytes (unsub_packet_id p) ++ concat (map field (topic_filters p))
  | UnsubAck p => u16_to_be_bytes (unsuback_packet_id p)
  | PingReq | PingResp | Disconnect => []
  end.

Definition wire (p : MqttPacket) : bytes :=
  wire_header p :: rl_digits 5 (len (wire_body p)) ++ wire_body p.

(** The packets whose strings fit their length prefix and whose QoS is one the
    broker handles. *)
Definition encodable (p : MqttPacket) : Prop :=
  match p with
  | Connect p => len (protocol_name p) <= 65535 /\ len (client_id p) <= 65535
  | Subscribe p => Forall (fun s => len (fst s) <= 65535) (subscriptions p)
  | Unsubscribe p => Forall (fun f => len f <= 65535) (topic_filters p)
  | Publish p => len (topic p) <= 65535 /\ 0 <= qos p <= 2
  | _ => True
  end.

Lemma len_field s : len (field s) = 2 + len s.
Proof. unfold field. by autorewrite with len. Qed.
#[export] Hint Rewrite len_field : len.

Lemma len_subscriptions_wire ss :
  len (concat (map subscription_wire ss)) = subscriptions_len ss.
Proof.
  induction ss as [|[f q] ss IH]; [done|]. cbn [map concat subscriptions_len foldr fst].
  rewrite len_app, IH. unfold subscription_wire, subscriptions_len. simpl. autorewrite with len. lia.
Qed.

Lemma len_filters_wire fs : len (concat (map field fs)) = filters_len fs.
Proof.
  induction fs as [|f fs IH]; [done|]. cbn [map concat]. rewrite len_app, IH, len_field.
  unfold filters_len. simpl. lia.
Qed.
#[export] Hint Rewrite len_subscriptions_wire len_filters_wire : len.

Lemma wire_body_len p : len (wire_body p) = remaining_length p.
Proof. destruct p as [| | | | | |p| | | |]; simpl; try destruct (pub_packet_id p); len_lia. Qed.

(** ** What the decoder takes *)

(** The body of a packet, by the two nibbles of the first byte.  The flags of the first
    byte are read for PUBLISH, without its DUP bit, and checked for PUBACK; of the
    connect flags bits 0, 3, 4 and 5 are ignored. *)
Inductive accepted : Z -> Z -> bytes -> MqttPacket -> Prop :=
| accept_connect fl cf p :
    connect_ok p -> 0 <= cf < 256 -> Z.land cf 196 = 0 -> clean_session p = negb (Z.land cf 2 =? 0) ->
    accepted PT_CONNECT fl
      (field (str "MQTT") ++ [4; cf] ++ u16_to_be_bytes (keep_alive_secs p) ++ field (client_id p)) (Connect p)
| accept_subscribe fl p :
    subscribe_ok p -> accepted PT_SUBSCRIBE fl (wire_body (Subscribe p)) (Subscribe p)
| accept_unsubscribe fl p :
    unsubscribe_ok p -> accepted PT_UNSUBSCRIBE fl (wire_body (Unsubscribe p)) (Unsubscribe p)
| accept_publish fl p :
    publish_ok p -> qos p = Z.land (Z.shiftr fl 1) 3 -> retain p = negb (Z.land fl 1 =? 0) ->
    accepted PT_PUBLISH fl (wire_body (Publish p)) (Publish p)
| accept_puback p :
    nonzero_u16 (puback_packet_id p) -> accepted PT_PUBACK 0 (wire_body (PubAck p)) (PubAck p)
| accept_pingreq fl : accepted PT_PINGREQ fl [] PingReq
| accept_disconnect fl : accepted PT_DISCONNECT fl [] Disconnect.

(** A packet in full: the first byte, any encoding of the body's length in four bytes at
    most, and the body. *)
Inductive frame : bytes -> MqttPacket -> Prop :=
| frame_intro first rl body p :
    0 <= first < 256 -> rl_value rl (len body) -> len rl <= 4 ->
    accepted (Z.shiftr first 4) (Z.land first 15) body p ->
    frame (first :: rl ++ body) p.

(** The beginning of a packet: the length is not complete, or the body is not. *)
Inductive unfinished : bytes -> Prop :=
| unfinished_header : unfinished []
| unfinished_length first rl : rl_open rl -> len rl < 4 -> unfinished (first :: rl)
| unfinished_body first rl v part :
    rl_value rl v -> len rl <= 4 -> len part < v -> unfinished (first :: rl ++ part).

Lemma accepted_ok pt fl body p :
  accepted pt fl body p -> decodable p /\ len body = remaining_length p.
Proof.
  destruct 1 as [fl cf p Hp| | | | | |]; (split; [done|]); try apply wire_body_len; try done.
  cbn [remaining_length]. destruct Hp as (-> & _). len_lia.
Qed.
