(* ===== verification/Codec.v ===== *)
(** * The packet codec (src/protocol.rs)

    [decode] and [encode] with their per-packet functions, guard by guard in the
    source's order.  A decoder reads its slice by checked indices: that no index,
    slice or addition is out of range is a theorem, not part of the model. *)

From S2P Require Import Prelude Utf8 Errors Packets RemainingLength Topics.

Abbreviation result := (outcome ProtocolError).

(** ** UTF-8 string fields *)

Definition decode_utf8_string (buf : bytes) : result (rstring * Z) :=
  if len buf <? 2 then
    Err (MalformedPayload "truncated UTF-8 string length prefix (§1.5.3)")
  else
    b0 ← index buf 0;
    b1 ← index buf 1;
    let n := u16_from_be_bytes b0 b1 in
    let start := 2 in
    end_ ← ok_or (MalformedPayload "UTF-8 string length overflow") (checked_add_usize start n);
    if len buf <? end_ then
      Err (MalformedPayload "UTF-8 string length prefix exceeds available bytes (§1.5.3)")
    else
      field ← slice buf start end_;
      s ← ok_or (MalformedPayload "invalid UTF-8 in string field (§1.5.3)") (from_utf8 field);
      Ok (s, end_).

Definition encode_utf8_string {E} (s : rstring) (out : bytes) : outcome E bytes :=
  let n := as_u16 (Z.min (len s) u16_max) in
  let out := out ++ u16_to_be_bytes n in
  field ← slice s 0 n;
  Ok (out ++ field).

Definition encode_fixed_header_only {E} (packet_type : Z) : outcome E bytes :=
  Ok [as_u8 (Z.shiftl packet_type 4); 0].

Definition prepend_fixed_header {E} (packet_type flags : Z) (body : bytes) : outcome E bytes :=
  rl ← encode_remaining_length (as_u32 (len body));
  Ok (Z.lor (as_u8 (Z.shiftl packet_type 4)) (Z.land flags 15) :: rl ++ body).

(** ** CONNECT and CONNACK *)

Definition dquote : string := String.String (Ascii.ascii_of_nat 34) String.EmptyString.

Definition connect_name_error : string :=
  String.append "CONNECT protocol name must be "
    (String.append dquote (String.append "MQTT" (String.append dquote " (§3.1.2.1)"))).

Definition decode_connect (body : bytes) : result ConnectPacket :=
  '(name, pos) ← decode_utf8_string body;
  if negb (bool_decide (name = str "MQTT")) then Err (MalformedPayload connect_name_error)
  else
  need ← add_usize pos 1;
  if len body <? need then
    Err (MalformedPayload "truncated CONNECT protocol level (§3.1.2.2)")
  else
  level ← index body pos;
  if negb (level =? 4) then
    Err (UnsupportedFeature "only MQTT protocol level 4 (3.1.1) is supported (§3.1.2.2)")
  else
  pos ← add_usize pos 1;
  need ← add_usize pos 1;
  if len body <? need then
    Err (MalformedPayload "truncated CONNECT connect flags (§3.1.2.3)")
  else
  connect_flags ← index body pos;
  let clean := negb (Z.land connect_flags 2 =? 0) in
  let will_flag := negb (Z.land connect_flags 4 =? 0) in
  let username_flag := negb (Z.land connect_flags 128 =? 0) in
  let password_flag := negb (Z.land connect_flags 64 =? 0) in
  pos ← add_usize pos 1;
  if will_flag || username_flag || password_flag then
    Err (UnsupportedFeature
      "CONNECT with will/username/password flags is out of core scope (PLAN.md §3)")
  else
  need ← add_usize pos 2;
  if len body <? need then
    Err (MalformedPayload "truncated CONNECT keep alive (§3.1.2.10)")
  else
  k0 ← index body pos;
  pos1 ← add_usize pos 1;
  k1 ← index body pos1;
  let keep_alive := u16_from_be_bytes k0 k1 in
  pos ← add_usize pos 2;
  rest ← slice_from body pos;
  '(id, pos_after_id) ←
    map_err (fun _ => MalformedPayload "truncated CONNECT client identifier (§3.1.3.1)")
      (decode_utf8_string rest);
  pos ← add_usize pos pos_after_id;
  if negb (pos =? len body) then
    Err (MalformedPayload
      "trailing bytes after CONNECT payload (will/username/password unsupported)")
  else
    Ok {| protocol_name := name; protocol_level := level; clean_session := clean;
          keep_alive_secs := keep_alive; client_id := id |}.

Definition encode_connect {E} (p : ConnectPacket) : outcome E bytes :=
  body ← encode_utf8_string (protocol_name p) [];
  let body := body ++ [protocol_level p] in
  let flags := 0 in
  let flags := if clean_session p then Z.lor flags 2 else flags in
  let body := body ++ [flags] in
  let body := body ++ u16_to_be_bytes (keep_alive_secs p) in
  body ← encode_utf8_string (client_id p) body;
  prepend_fixed_header PT_CONNECT 0 body.

Definition encode_connack {E} (p : ConnAckPacket) : outcome E bytes :=
  let body := [if session_present p then 1 else 0] in
  let body := body ++ [ConnectReturnCode_u8 (return_code p)] in
  prepend_fixed_header PT_CONNACK 0 body.

(** ** SUBSCRIBE and SUBACK *)

(** One iteration of the [while pos < body.len()] loop of [decode_subscribe]. *)
Definition decode_subscribe_step (body : bytes) (st : Z * list (rstring * Z))
    : result (Z * list (rstring * Z) + list (rstring * Z)) :=
  let '(pos, subs) := st in
  if pos <? len body then
    rest ← slice_from body pos;
    '(filter, consumed) ←
      map_err (fun _ => MalformedPayload "truncated SUBSCRIBE topic filter (§3.8.3)")
        (decode_utf8_string rest);
    pos ← add_usize pos consumed;
    _ ← validate_topic_filter filter;
    if len body <=? pos then
      Err (MalformedPayload "SUBSCRIBE topic filter missing requested QoS byte (§3.8.3)")
    else
    q ← index body pos;
    if 2 <? q then
      Err (MalformedPayload "SUBSCRIBE requested QoS must be 0, 1, or 2 (§3.8.3)")
    else
    pos ← add_usize pos 1;
    Ok (inl (pos, subs ++ [(filter, q)]))
  else Ok (inr subs).

Definition decode_subscribe (body : bytes) : result SubscribePacket :=
  if len body <? 2 then
    Err (MalformedPayload "truncated SUBSCRIBE packet identifier (§3.8.2)")
  else
  b0 ← index body 0;
  b1 ← index body 1;
  let id := u16_from_be_bytes b0 b1 in
  let pos := 2 in
  if len body <=? pos then
    Err (MalformedPayload "SUBSCRIBE must contain at least one topic filter (§3.8.3)")
  else
  subs ← loop (S (length body)) (decode_subscribe_step body) (pos, []);
  Ok {| sub_packet_id := id; subscriptions := subs |}.

Definition encode_subscribe {E} (p : SubscribePacket) : outcome E bytes :=
  let body := u16_to_be_bytes (sub_packet_id p) in
  body ← foldM (fun body '(filter, q) =>
    body ← encode_utf8_string filter body;
    Ok (body ++ [q])) body (subscriptions p);
  prepend_fixed_header PT_SUBSCRIBE 2 body.

Definition encode_suback {E} (p : SubAckPacket) : outcome E bytes :=
  let body := u16_to_be_bytes (suback_packet_id p) in
  let body := body ++ return_codes p in
  prepend_fixed_header PT_SUBACK 0 body.

(** ** UNSUBSCRIBE and UNSUBACK *)

Definition decode_unsubscribe_step (body : bytes) (st : Z * list rstring)
    : result (Z * list rstring + list rstring) :=
  let '(pos, filters) := st in
  if pos <? len body then
    rest ← slice_from body pos;
    '(filter, consumed) ←
      map_err (fun _ => MalformedPayload "truncated UNSUBSCRIBE topic filter (§3.10.3)")
        (decode_utf8_string rest);
    pos ← add_usize pos consumed;
    _ ← validate_topic_filter filter;
    Ok (inl (pos, filters ++ [filter]))
  else Ok (inr filters).

Definition decode_unsubscribe (body : bytes) : result UnsubscribePacket :=
  if len body <? 2 then
    Err (MalformedPayload "truncated UNSUBSCRIBE packet identifier (§3.10.2)")
  else
  b0 ← index body 0;
  b1 ← index body 1;
  let id := u16_from_be_bytes b0 b1 in
  let pos := 2 in
  if len body <=? pos then
    Err (MalformedPayload "UNSUBSCRIBE must contain at least one topic filter (§3.10.3)")
  else
  filters ← loop (S (length body)) (decode_unsubscribe_step body) (pos, []);
  Ok {| unsub_packet_id := id; topic_filters := filters |}.

Definition encode_unsubscribe {E} (p : UnsubscribePacket) : outcome E bytes :=
  let body := u16_to_be_bytes (unsub_packet_id p) in
  body ← foldM (fun body filter => encode_utf8_string filter body) body (topic_filters p);
  prepend_fixed_header PT_UNSUBSCRIBE 2 body.

Definition encode_unsuback {E} (p : UnsubAckPacket) : outcome E bytes :=
  prepend_fixed_header PT_UNSUBACK 0 (u16_to_be_bytes (unsuback_packet_id p)).

(** ** PUBLISH and PUBACK *)

(** The packet identifier of a PUBLISH: absent for QoS 0, and the new position. *)
Definition decode_publish_id (body : bytes) (q pos : Z) : result (option Z * Z) :=
  if q =? 0 then Ok (None, pos)
  else
    need ← add_usize pos 2;
    if len body <? need then
      Err (MalformedPayload "truncated PUBLISH packet identifier (§3.3.2.2)")
    else
    b0 ← index body pos;
    pos1 ← add_usize pos 1;
    b1 ← index body pos1;
    let id := u16_from_be_bytes b0 b1 in
    pos ← add_usize pos 2;
    if id =? 0 then
      Err (MalformedPayload "PUBLISH packet identifier must be non-zero for QoS > 0 (§2.3.1)")
    else Ok (Some id, pos).

Definition decode_publish (flags : Z) (body : bytes) : result PublishPacket :=
  let q := Z.land (Z.shiftr flags 1) 3 in
  let r := negb (Z.land flags 1 =? 0) in
  if q =? 3 then
    Err (MalformedPayload "PUBLISH QoS bits 11 is not a valid QoS value (§3.3.1.2)")
  else if q =? 2 then
    Err (UnsupportedFeature "PUBLISH QoS 2 not supported (PLAN.md §4 scopes only QoS 0/1)")
  else
  '(t, pos) ←
    map_err (fun _ => MalformedPayload "truncated PUBLISH topic name (§3.3.2.1)")
      (decode_utf8_string body);
  if bool_decide (t = []) then
    Err (MalformedPayload "PUBLISH topic name must not be empty (§4.7.3)")
  else if contains PLUS t || contains HASH t then
    Err (MalformedPayload "PUBLISH topic name must not contain wildcard characters (§4.7.1)")
  else
  '(id, pos) ← decode_publish_id body q pos;
  data ← slice_from body pos;
  Ok {| topic := t; payload := data; qos := q; retain := r; pub_packet_id := id |}.

Definition encode_publish {E} (p : PublishPacket) : outcome E bytes :=
  body ← encode_utf8_string (topic p) [];
  let body :=
    match pub_packet_id p with
    | Some id => body ++ u16_to_be_bytes id
    | None => body
    end in
  let body := body ++ payload p in
  let flags := as_u8 (Z.shiftl (Z.land (qos p) 3) 1) in
  let flags := if retain p then Z.lor flags 1 else flags in
  prepend_fixed_header PT_PUBLISH flags body.

Definition decode_puback (body : bytes) : result PubAckPacket :=
  if negb (len body =? 2) then
    Err (MalformedPayload
      "PUBACK variable header must be exactly a 2-byte packet identifier (§3.4.2)")
  else
  b0 ← index body 0;
  b1 ← index body 1;
  let id := u16_from_be_bytes b0 b1 in
  if id =? 0 then
    Err (MalformedPayload "PUBACK packet identifier must be non-zero (§2.3.1)")
  else Ok {| puback_packet_id := id |}.

Definition encode_puback {E} (p : PubAckPacket) : outcome E bytes :=
  prepend_fixed_header PT_PUBACK 0 (u16_to_be_bytes (puback_packet_id p)).

(** ** The packet dispatch of [decode] *)

Definition decode_body (packet_type flags : Z) (body : bytes) : result MqttPacket :=
  if packet_type =? PT_CONNECT then p ← decode_connect body; Ok (Connect p)
  else if packet_type =? PT_SUBSCRIBE then p ← decode_subscribe body; Ok (Subscribe p)
  else if packet_type =? PT_UNSUBSCRIBE then p ← decode_unsubscribe body; Ok (Unsubscribe p)
  else if packet_type =? PT_PUBLISH then p ← decode_publish flags body; Ok (Publish p)
  else if packet_type =? PT_PUBACK then
    if negb (flags =? 0) then
      Err (MalformedPayload "PUBACK fixed header flags are reserved and must be 0 (§3.4.1)")
    else p ← decode_puback body; Ok (PubAck p)
  else if packet_type =? PT_PINGREQ then
    if negb (bool_decide (body = [])) then
      Err (MalformedPayload "PINGREQ must have zero remaining length (§3.13.1)")
    else Ok PingReq
  else if packet_type =? PT_DISCONNECT then
    if negb (bool_decide (body = [])) then
      Err (MalformedPayload "DISCONNECT must have zero remaining length (§3.14.1)")
    else Ok Disconnect
  else if packet_type =? PT_CONNACK then Err (UnsupportedFeature "CONNACK from client")
  else if packet_type =? PT_SUBACK then Err (UnsupportedFeature "SUBACK from client")
  else if packet_type =? PT_UNSUBACK then Err (UnsupportedFeature "UNSUBACK from client")
  else if packet_type =? PT_PINGRESP then Err (UnsupportedFeature "PINGRESP from client")
  else Err (UnknownPacketType packet_type).

Definition decode (buf : bytes) : result (MqttPacket * Z) :=
  if bool_decide (buf = []) then Err Incomplete
  else
  byte0 ← index buf 0;
  let packet_type := Z.shiftr byte0 4 in
  let flags := Z.land byte0 15 in
  rest ← slice_from buf 1;
  '(remaining_len, rl_bytes) ← decode_remaining_length rest;
  header_len ← add_usize 1 rl_bytes;
  total_len ← ok_or (MalformedPayload "remaining length overflow")
    (checked_add_usize header_len remaining_len);
  if len buf <? total_len then Err Incomplete
  else
  body ← slice buf header_len total_len;
  packet ← decode_body packet_type flags body;
  Ok (packet, total_len).

Definition encode {E} (packet : MqttPacket) : outcome E bytes :=
  match packet with
  | ConnAck p => encode_connack p
  | SubAck p => encode_suback p
  | UnsubAck p => encode_unsuback p
  | Publish p => encode_publish p
  | PubAck p => encode_puback p
  | PingResp => encode_fixed_header_only PT_PINGRESP
  | PingReq => encode_fixed_header_only PT_PINGREQ
  | Disconnect => encode_fixed_header_only PT_DISCONNECT
  | Connect p => encode_connect p
  | Subscribe p => encode_subscribe p
  | Unsubscribe p => encode_unsubscribe p
  end.

Example encode_pingreq : encode (E:=ProtocolError) PingReq = Ok [192; 0].
Proof. reflexivity. Qed.
Example decode_unknown : decode [240; 0] = Err (UnknownPacketType 15).
Proof. reflexivity. Qed.
Example decode_publish_sample :
  decode [49; 6; 0; 1; 116; 1; 2; 3; 192; 0] =
  Ok (Publish {| topic := str "t"; payload := [1; 2; 3]; qos := 0; retain := true;
                 pub_packet_id := None |}, 8).
Proof. reflexivity. Qed.
Example encode_subscribe_sample :
  encode (E:=ProtocolError)
    (Subscribe {| sub_packet_id := 5; subscriptions := [(str "a/#", 1); (str "b", 0)] |}) =
  Ok [130; 12; 0; 5; 0; 3; 97; 47; 35; 1; 0; 1; 98; 0].
Proof. reflexivity. Qed.
