(* ===== verification/CodecSafety.v ===== *)
(** * What the decoders return (src/protocol.rs)

    On every buffer the decoders return: no index, slice or addition is out of
    range and no loop runs out of fuel.  What they accept has the format [accepted]
    or [frame], of the packet they return; [Incomplete] comes from the fixed header
    only, for the beginning of a packet. *)

From S2P Require Import Prelude Utf8 Errors Packets RemainingLength Topics Wire Codec.

(** ** String fields *)

Lemma u16_split x y :
  0 <= x < 256 -> 0 <= y < 256 -> u16_to_be_bytes (u16_from_be_bytes x y) = [x; y].
Proof.
  unfold u16_to_be_bytes, u16_from_be_bytes. intros.
  f_equal; [lia|]. f_equal. lia.
Qed.

Lemma decode_utf8_string_wp buf :
  bytes_ok buf ->
  WP (decode_utf8_string buf)
    {{ '(s, n), rstring_ok s /\ n = 2 + len s /\ (exists rest, buf = field s ++ rest)
     | e, exists m, e = MalformedPayload m /\ one_line m = true }}.
Proof.
  intros Hbuf. unfold decode_utf8_string. wp_step; [simpl; eauto|].
  destruct buf as [|x [|y rest]]; [autorewrite with len in *; lia..|].
  apply Forall_cons in Hbuf as [Hx Hbuf]. apply Forall_cons in Hbuf as [Hy Hbuf].
  apply u8_ok_iff in Hx, Hy.
  pose proof (u16_from_be_bytes_range _ _ Hx Hy) as Hn.
  rewrite index_head. rewrite (index_at [x] rest y 1) by done.
  cbn [mbind outcome_bind]. set (n := u16_from_be_bytes x y) in *.
  unfold checked_add_usize. replace (2 + n <=? usize_max) with true by (unfold usize_max; lia).
  cbn [ok_or mbind outcome_bind]. wp_step; [simpl; eauto|].
  wp_step. apply wp_slice; [lia..|].
  intros pre mid suf Hl Hpre Hmid. repeat wp_step; [|eauto].
  match goal with H : from_utf8 _ = Some _ |- _ => apply from_utf8_Some in H as [-> Hv] end.
  assert (Hm : len mid = n) by lia. split_and!; [by split; [|lia]|lia|].
  exists suf. pose proof (u16_split x y Hx Hy) as Hxy. fold n in Hxy. rewrite <- Hm in Hxy.
  change (x :: y :: rest = (u16_to_be_bytes (len mid) ++ mid) ++ suf). rewrite Hxy.
  destruct pre as [|p0 [|p1 [|? ?]]]; autorewrite with len in Hpre; try (len_lia).
  simpl in Hl. by simplify_eq/=.
Qed.

(** The same for a decoder's use of it, with its own error text. *)
Lemma decode_field_wp msg buf :
  bytes_ok buf -> one_line msg = true ->
  WP (map_err (fun _ => MalformedPayload msg) (decode_utf8_string buf))
    {{ '(s, n), rstring_ok s /\ n = 2 + len s /\ (exists rest, buf = field s ++ rest)
     | e, final e }}.
Proof.
  intros Hbuf Hmsg. wp_step. eapply wp_mono; [by apply decode_utf8_string_wp|done|].
  intros _ _. done.
Qed.

(** Bytes read at known places behind a prefix. *)
Lemma lookup_behind {A} (pre l : list A) i x :
  (pre ++ l) !! Z.to_nat (len pre + Z.of_nat i) = Some x -> l !! i = Some x.
Proof.
  intros Hl. rewrite lookup_app_r in Hl by (unfold len; lia). rewrite <- Hl. f_equal. unfold len. lia.
Qed.

Lemma bytes_ok_be l i x y :
  bytes_ok l -> l !! i = Some x -> l !! S i = Some y ->
  0 <= x < 256 /\ 0 <= y < 256 /\ u16 (u16_from_be_bytes x y).
Proof.
  intros Hl Hx Hy. pose proof (bytes_ok_lookup _ _ _ Hl Hx). pose proof (bytes_ok_lookup _ _ _ Hl Hy).
  split_and!; try lia; by apply u16_from_be_bytes_range.
Qed.

(** ** CONNECT *)

Lemma connect_flags_clear cf :
  0 <= cf < 256 ->
  negb (Z.land cf 4 =? 0) || negb (Z.land cf 128 =? 0) || negb (Z.land cf 64 =? 0) =
  negb (Z.land cf 196 =? 0).
Proof.
  intros Hcf. apply eqb_prop. revert cf Hcf.
  apply (byte_cases (fun cf => Bool.eqb
    (negb (Z.land cf 4 =? 0) || negb (Z.land cf 128 =? 0) || negb (Z.land cf 64 =? 0)) (negb (Z.land cf 196 =? 0)))).
  reflexivity.
Qed.

Lemma decode_connect_wp body fl :
  bytes_ok body -> len body <= 268435455 ->
  WP (decode_connect body) {{ p, accepted PT_CONNECT fl body (Connect p) | e, final e }}.
Proof.
  intros Hbody Hlen. unfold decode_connect. wp_step.
  eapply wp_mono; [by apply decode_utf8_string_wp| |by intros ? (? & -> & ?)].
  intros [name pos] (Hname & -> & rest & ->). rewrite <- (len_field name).
  pose proof (len_nonneg (field name)) as Hpos. pose proof Hbody as [_ Hrest]%bytes_ok_app.
  wp_step; [done|]. apply negb_false_iff, bool_decide_eq_true in Hc as ->.
  remember (field (str "MQTT")) as nf eqn:Hnf.
  repeat first [done | wp_step].
  rename x into level, x0 into cf, x1 into k0, x2 into k1.
  apply wp_slice_from; [lia|]. intros pre idf Hpre Hlpre. wp_step.
  eapply wp_mono; [apply decode_field_wp; [|done]| |done].
  { rewrite Hpre in Hbody. by apply bytes_ok_app in Hbody as [_ ?]. }
  intros [cid n] (Hid & -> & suf & ->). rewrite <- (len_field cid).
  assert (Hl : len nf + 4 + len (field cid) <= len (nf ++ rest))
    by (rewrite Hpre; len_lia).
  repeat first [done | wp_step].
  repeat match goal with H : negb (_ =? _) = false |- _ => apply negb_false_iff, Z.eqb_eq in H end.
  subst level.
  repeat match goal with
  | H : (_ ++ rest) !! Z.to_nat ?p = Some _ |- _ =>
      first [ replace p with (len nf + Z.of_nat 0) in H by lia
            | replace p with (len nf + Z.of_nat 1) in H by lia
            | replace p with (len nf + Z.of_nat 2) in H by lia
            | replace p with (len nf + Z.of_nat 3) in H by lia ];
      apply lookup_behind in H
  end.
  destruct rest as [|? [|? [|? [|? rest]]]]; try done. cbn [lookup list_lookup] in *. simplify_eq.
  change (4 :: cf :: k0 :: k1 :: rest) with ([4; cf; k0; k1] ++ rest) in *. rewrite app_assoc in *.
  assert (Hlen4 : len (field (str "MQTT") ++ [4; cf; k0; k1]) = len pre) by (rewrite len_app, Hlpre; len_lia).
  apply app_inj_1 in Hpre as [<- ->]; [|unfold len in Hlen4; lia].
  assert (suf = []) as -> by (apply len_zero; len_lia). rewrite app_nil_r in *.
  destruct (bytes_ok_be ([4; cf; k0; k1] ++ field cid) 2 k0 k1) as (Hk0 & Hk1 & Hk); [done..|].
  rewrite connect_flags_clear in * by (eapply (bytes_ok_lookup _ 1); [exact Hrest|done]).
  pose proof (accept_connect fl cf (mkConnect (str "MQTT") 4 (negb (Z.land cf 2 =? 0)) (u16_from_be_bytes k0 k1) cid))
    as Hacc. cbn [keep_alive_secs client_id clean_session] in Hacc. rewrite u16_split in Hacc by done.
  rewrite <- app_assoc. apply Hacc; [done| |by apply Z.eqb_eq, negb_false_iff|done].
  eapply (bytes_ok_lookup _ 1); [exact Hrest|done].
Qed.

(** ** SUBSCRIBE and UNSUBSCRIBE *)

Lemma validate_final_wp {A} f (k : unit -> result A) (Q : A -> Prop) :
  (f <> [] -> filter_levels_ok (split SLASH f) -> wp (k tt) Q final) ->
  wp (validate_topic_filter f ≫= k) Q final.
Proof.
  intros Hk. wp_step. eapply wp_mono; [apply validate_topic_filter_wp| |by intros ? (? & -> & ?)].
  intros [] [? ?]. by apply Hk.
Qed.

(** Reading a filter behind a prefix. *)
Lemma filter_at_wp {A} msg pre rest (k : rstring * Z -> result A) (Q : A -> Prop) :
  bytes_ok (pre ++ rest) -> one_line msg = true ->
  (forall f rest', rest = field f ++ rest' -> rstring_ok f -> wp (k (f, len (field f))) Q final) ->
  wp (rest ← slice_from (pre ++ rest) (len pre);
      map_err (fun _ => MalformedPayload msg) (decode_utf8_string rest) ≫= k) Q final.
Proof.
  intros [_ Hrest]%bytes_ok_app Hmsg Hk. rewrite slice_from_at by done. cbn [mbind outcome_bind]. wp_step.
  eapply wp_mono; [by apply decode_field_wp| |done].
  intros [f n] (Hf & -> & suf & Hsuf). rewrite <- len_field. by eapply Hk.
Qed.

(** The packet identifier that a body starts with. *)
Lemma packet_id_wp (body : bytes) x y :
  bytes_ok body -> body !! Z.to_nat 0 = Some x -> body !! Z.to_nat 1 = Some y ->
  let id := u16_from_be_bytes x y in
  u16 id /\ u16_to_be_bytes id = [x; y] /\ body = [x; y] ++ drop 2 body.
Proof.
  intros Hb Hx Hy. destruct (bytes_ok_be body 0 x y Hb Hx Hy) as (Hx' & Hy' & Hid).
  intros id.
  split; [done|split; [by apply u16_split|]].
  destruct body as [|? [|? rest]]; try done. injection Hx as ->. by injection Hy as ->.
Qed.

Section topic_loops.
Context (body : bytes) (Hbody : bytes_ok body) (Hlen : len body <= 268435455).

(** How far the loop is: what it has read, and what is left. *)
Definition subscribe_inv (st : Z * list (rstring * Z)) : Prop :=
  let '(pos, subs) := st in
  exists id pre rest, pre = u16_to_be_bytes id ++ concat (map subscription_wire subs) /\ u16 id /\
    body = pre ++ rest /\ pos = len pre /\
    Forall subscription_ok subs /\ (rest <> [] \/ subs <> []).

Lemma decode_subscribe_loop_wp st :
  subscribe_inv st ->
  WP (loop (S (length body)) (decode_subscribe_step body) st)
    {{ ss, ss <> [] /\ Forall subscription_ok ss /\
           exists id, u16 id /\ body = u16_to_be_bytes id ++ concat (map subscription_wire ss)
     | e, final e }}.
Proof.
  intros Hst. apply (wp_loop subscribe_inv (fun '(pos, _) => Z.to_nat (len body - pos)));
    [|done|destruct st as [pos subs], Hst as (? & ? & ? & ? & ? & ? & -> & _); unfold len; lia].
  clear st Hst. intros [pos subs] (id & pre & rest & Hp & Hid & Hb & -> & Hsubs & Hne).
  unfold decode_subscribe_step. wp_step.
  2: { assert (rest = []) as -> by (apply len_zero; rewrite Hb in *; len_lia). rewrite app_nil_r in Hb.
       cbn [wp]. split; [by destruct Hne|]. split; [done|]. exists id. by rewrite Hb. }
  rewrite Hb at 1. apply filter_at_wp; [by rewrite <- Hb|done|]. intros f rest' Hrest Hf.
  assert (Hl : len pre + len (field f) <= len body) by (rewrite Hb, Hrest; len_lia).
  wp_step. wp_step. apply validate_final_wp. intros Hfne Hfl. repeat first [done | wp_step].
  rewrite Hrest, app_assoc in Hb.
  assert (Hx : ((pre ++ field f) ++ rest') !! Z.to_nat (len (pre ++ field f) + Z.of_nat 0) = Some x).
  { rewrite <- Hb, len_app, Z.add_0_r. done. }
  apply lookup_behind in Hx. destruct rest' as [|q rest']; [done|]. injection Hx as ->.
  assert (0 <= x < 256).
  { pose proof Hbody as Hb'. rewrite Hb in Hb'. by apply bytes_ok_app in Hb' as [_ [?%u8_ok_iff _]%Forall_cons]. }
  split; [|len_lia]. exists id, ((pre ++ field f) ++ [x]), rest'. split; [|split; [done|split; [|split; [|split]]]].
  - rewrite Hp, map_app, concat_app. cbn [map concat]. unfold subscription_wire at 3. cbn [fst snd].
    by rewrite app_nil_r, !app_assoc.
  - by rewrite <- app_assoc.
  - rewrite !len_app. len_lia.
  - apply Forall_app, conj; [done|]. apply list.Forall_singleton. split; [by split|simpl; lia].
  - right. by destruct subs.
Qed.

Lemma decode_subscribe_wp fl :
  WP (decode_subscribe body) {{ p, accepted PT_SUBSCRIBE fl body (Subscribe p) | e, final e }}.
Proof.
  unfold decode_subscribe. repeat first [done | wp_step].
  match goal with Hx : body !! _ = Some ?x, Hy : body !! _ = Some ?y |- context [u16_from_be_bytes ?x ?y] =>
    destruct (packet_id_wp body x y Hbody Hx Hy) as (Hid & Hsplit & Hb) end.
  eapply wp_mono; [apply decode_subscribe_loop_wp| |done].
  - exists (u16_from_be_bytes x x0), [x; x0], (drop 2 body). rewrite Hsplit.
    split; [done|split; [done|split; [exact Hb|split; [done|split; [constructor|left]]]]].
    intros Hd. rewrite Hd in Hb. rewrite Hb in *. autorewrite with len in *. lia.
  - intros ss (Hne & Hss & id & Hid' & Hl). simpl.
    assert (id = u16_from_be_bytes x x0) as ->.
    { rewrite Hb in Hl. unfold u16_to_be_bytes in Hl. injection Hl as -> -> _. by rewrite u16_be_roundtrip. }
    rewrite Hl. by apply (accept_subscribe fl (mkSubscribe (u16_from_be_bytes x x0) ss)).
Qed.

Definition unsubscribe_inv (st : Z * list rstring) : Prop :=
  let '(pos, filters) := st in
  exists id pre rest, pre = u16_to_be_bytes id ++ concat (map field filters) /\ u16 id /\
    body = pre ++ rest /\ pos = len pre /\
    Forall filter_ok filters /\ (rest <> [] \/ filters <> []).

Lemma decode_unsubscribe_loop_wp st :
  unsubscribe_inv st ->
  WP (loop (S (length body)) (decode_unsubscribe_step body) st)
    {{ fs, fs <> [] /\ Forall filter_ok fs /\
           exists id, u16 id /\ body = u16_to_be_bytes id ++ concat (map field fs)
     | e, final e }}.
Proof.
  intros Hst. apply (wp_loop unsubscribe_inv (fun '(pos, _) => Z.to_nat (len body - pos)));
    [|done|destruct st as [pos fs], Hst as (? & ? & ? & ? & ? & ? & -> & _); unfold len; lia].
  clear st Hst. intros [pos fs] (id & pre & rest & Hp & Hid & Hb & -> & Hfs & Hne).
  unfold decode_unsubscribe_step. wp_step.
  2: { assert (rest = []) as -> by (apply len_zero; rewrite Hb in *; len_lia). rewrite app_nil_r in Hb.
       cbn [wp]. split; [by destruct Hne|]. split; [done|]. exists id. by rewrite Hb. }
  rewrite Hb at 1. apply filter_at_wp; [by rewrite <- Hb|done|]. intros f rest' Hrest Hf.
  assert (Hl : len pre + len (field f) <= len body) by (rewrite Hb, Hrest; len_lia).
  wp_step. wp_step. apply validate_final_wp. intros Hfne Hfl. repeat first [done | wp_step].
  rewrite Hrest, app_assoc in Hb. split; [|len_lia].
  exists id, (pre ++ field f), rest'. split; [|split; [done|split; [done|split; [|split]]]].
  - rewrite Hp, map_app, concat_app. cbn [map concat]. by rewrite app_nil_r, <- app_assoc.
  - by rewrite len_app.
  - apply Forall_app, conj; [done|]. apply list.Forall_singleton. by split.
  - right. by destruct fs.
Qed.

Lemma decode_unsubscribe_wp fl :
  WP (decode_unsubscribe body) {{ p, accepted PT_UNSUBSCRIBE fl body (Unsubscribe p) | e, final e }}.
Proof.
  unfold decode_unsubscribe. repeat first [done | wp_step].
  match goal with Hx : body !! _ = Some ?x, Hy : body !! _ = Some ?y |- context [u16_from_be_bytes ?x ?y] =>
    destruct (packet_id_wp body x y Hbody Hx Hy) as (Hid & Hsplit & Hb) end.
  eapply wp_mono; [apply decode_unsubscribe_loop_wp| |done].
  - exists (u16_from_be_bytes x x0), [x; x0], (drop 2 body). rewrite Hsplit.
    split; [done|split; [done|split; [exact Hb|split; [done|split; [constructor|left]]]]].
    intros Hd. rewrite Hd in Hb. rewrite Hb in *. autorewrite with len in *. lia.
  - intros fs (Hne & Hfs & id & Hid' & Hl). simpl.
    assert (id = u16_from_be_bytes x x0) as ->.
    { rewrite Hb in Hl. unfold u16_to_be_bytes in Hl. injection Hl as -> -> _. by rewrite u16_be_roundtrip. }
    rewrite Hl. by apply (accept_unsubscribe fl (mkUnsubscribe (u16_from_be_bytes x x0) fs)).
Qed.
End topic_loops.

(** ** PUBLISH and PUBACK *)

Lemma land_3 z : Z.land z 3 = z mod 4.
Proof. change 3 with (Z.ones 2). by rewrite Z.land_ones by lia. Qed.

(** The bytes of a PUBLISH's packet identifier. *)
Definition publish_id_wire (id : option Z) : bytes :=
  match id with Some i => u16_to_be_bytes i | None => [] end.

Lemma decode_publish_id_wp pre rest q :
  bytes_ok (pre ++ rest) -> len (pre ++ rest) <= 268435455 -> q = 0 \/ q = 1 ->
  WP (decode_publish_id (pre ++ rest) q (len pre))
    {{ '(id, pos'), publish_id_ok q id /\ exists data, rest = publish_id_wire id ++ data /\
         pos' = len (pre ++ publish_id_wire id)
     | e, final e }}.
Proof.
  intros Hbody Hlen Hq. unfold decode_publish_id. pose proof (len_nonneg pre).
  wp_step; [simpl; split; [done|exists rest; by rewrite app_nil_r]|].
  repeat first [done | wp_step]. destruct Hq as [?| ->]; [done|].
  match goal with
  | Hx : (pre ++ rest) !! Z.to_nat (len pre) = Some ?x, Hy : (pre ++ rest) !! Z.to_nat (len pre + 1) = Some ?y |- _ =>
      change (len pre + 1) with (len pre + Z.of_nat 1) in Hy;
      replace (len pre) with (len pre + Z.of_nat 0) in Hx by lia;
      apply lookup_behind in Hx, Hy;
      pose proof Hbody as [_ Hrest]%bytes_ok_app;
      destruct (packet_id_wp rest x y Hrest Hx Hy) as (Hid & Hsplit & Hb) end.
  split; [split; [done|unfold nonzero_u16; unfold u16 in Hid; lia]|].
  cbn [publish_id_wire]. rewrite Hsplit. exists (drop 2 rest).
  split; [transitivity ([x; x0] ++ drop 2 rest); [exact Hb|by rewrite <- Hsplit]|by rewrite len_app].
Qed.

Lemma decode_publish_wp flags body :
  bytes_ok body -> len body <= 268435455 ->
  WP (decode_publish flags body) {{ p, accepted PT_PUBLISH flags body (Publish p) | e, final e }}.
Proof.
  intros Hbody Hlen. unfold decode_publish.
  pose proof (land_3 (Z.shiftr flags 1)) as Hq3. remember (Z.land (Z.shiftr flags 1) 3) as q eqn:Hq.
  wp_step; [done|]. wp_step; [done|].
  wp_step. eapply wp_mono; [by apply decode_field_wp| |done].
  intros [t pos] (Ht & -> & rest & ->). rewrite <- (len_field t).
  wp_step; [done|]. apply bool_decide_eq_false in Hc. wp_step; [done|].
  wp_step. eapply wp_mono; [apply decode_publish_id_wp; try done; lia| |done].
  intros [id pos'] (Hid & data & -> & ->). rewrite app_assoc, slice_from_at by done. wp_step.
  pose proof Hbody as [_ [_ Hdata]%bytes_ok_app]%bytes_ok_app. rewrite <- app_assoc.
  apply (accept_publish flags (mkPublish t data q _ id)); [|exact Hq|done]. by split_and!.
Qed.

Lemma decode_puback_wp body :
  bytes_ok body ->
  WP (decode_puback body) {{ p, accepted PT_PUBACK 0 body (PubAck p) | e, final e }}.
Proof.
  intros Hbody. unfold decode_puback. wp_step; [done|].
  apply negb_false_iff, Z.eqb_eq in Hc. repeat first [done | wp_step].
  match goal with Hx : body !! _ = Some ?x, Hy : body !! _ = Some ?y |- context [u16_from_be_bytes ?x ?y] =>
    destruct (packet_id_wp body x y Hbody Hx Hy) as (Hid & Hsplit & Hb);
    pose proof (accept_puback (mkPubAck (u16_from_be_bytes x y))) as Hacc end.
  assert (drop 2 body = []) as Hd by (apply len_zero; unfold len in *; rewrite length_drop; lia).
  rewrite Hd in Hb. cbn [wire_body puback_packet_id] in Hacc. rewrite Hsplit in Hacc. rewrite Hb.
  apply Hacc. unfold nonzero_u16, u16 in *. lia.
Qed.

(** ** The whole packet *)

Lemma wp_map_ok {A B} (f : A -> B) (o : result A) (Q : B -> Prop) :
  wp o (fun a => Q (f a)) final -> wp (a ← o; Ok (f a)) Q final.
Proof. intros. wp_step. by eapply wp_mono. Qed.

Lemma decode_body_wp pt flags body :
  0 <= pt < 16 -> bytes_ok body -> len body <= 268435455 ->
  WP (decode_body pt flags body) {{ p, accepted pt flags body p | e, final e }}.
Proof.
  intros Hpt Hbody Hlen. unfold decode_body.
  wp_step; [subst pt; by apply wp_map_ok, decode_connect_wp|].
  wp_step; [subst pt; by apply wp_map_ok, decode_subscribe_wp|].
  wp_step; [subst pt; by apply wp_map_ok, decode_unsubscribe_wp|].
  wp_step; [subst pt; by apply wp_map_ok, decode_publish_wp|].
  wp_step.
  { subst pt. wp_step; [done|]. apply negb_false_iff, Z.eqb_eq in Hc as ->.
    by apply wp_map_ok, decode_puback_wp. }
  repeat first [done | wp_step];
    lazymatch goal with
    | H : negb (bool_decide (body = [])) = false |- _ =>
        apply negb_false_iff, bool_decide_eq_true in H as ->; subst pt; constructor
    end.
Qed.

(** A buffer whose length bytes do not end. *)
Definition endless (buf : bytes) : Prop :=
  exists first rl rest, buf = first :: rl ++ rest /\ rl_open rl /\ len rl = 4.

Lemma decode_frame_wp buf :
  bytes_ok buf -> len buf <= isize_max ->
  WP (decode buf)
    {{ '(p, n), exists fr rest, buf = fr ++ rest /\ frame fr p /\ n = len fr
     | e, e = Incomplete /\ unfinished buf \/ e = InvalidRemainingLength /\ endless buf \/ final e }}.
Proof.
  intros Hbuf Hlen. unfold decode. wp_step; [apply bool_decide_eq_true in Hc as ->; left; split; [done|constructor]|].
  apply bool_decide_eq_false in Hc.
  destruct buf as [|b0 tl]; [done|]. rewrite index_head. cbn [mbind outcome_bind].
  apply Forall_cons in Hbuf as [Hb0%u8_ok_iff Htl].
  rewrite slice_from_tail. cbn [mbind outcome_bind].
  wp_step. eapply wp_mono; [by apply decode_remaining_length_wp| |].
  2: { intros e [(-> & Ho & Hl)|(-> & rl & rest & -> & Ho & Hl)]; [left|right; left]; (split; [done|]).
       - by apply unfinished_length.
       - by exists b0, rl, rest. }
  intros [v n] (rl & rest & -> & Hv & -> & Hl). pose proof (rl_value_max rl v Hv Hl) as Hvr.
  pose proof (len_nonneg rl). wp_step. wp_step. wp_step. unfold checked_add_usize.
  replace (1 + len rl + v <=? usize_max) with true by (unfold usize_max; lia).
  cbn [ok_or]. simpl. wp_step.
  { left. split; [done|]. apply (unfinished_body b0 rl v); [done..|]. len_lia. }
  wp_step. apply wp_slice; [lia..|]. intros pre' body suf Hsplit Hpre' Hbody. wp_step.
  change (b0 :: rl ++ rest) with ((b0 :: rl) ++ rest) in Hsplit.
  apply app_inj_1 in Hsplit as [<- ->]; [|rewrite len_cons in *; unfold len in *; simpl; lia].
  apply bytes_ok_app in Htl as [_ [Hbok _]%bytes_ok_app].
  eapply wp_mono; [apply (decode_body_wp _ _ body); [|done|lia]| |by right; right].
  { rewrite Z.shiftr_div_pow2 by lia. change (2 ^ 4) with 16. lia. }
  intros p Hp. simpl. exists (b0 :: rl ++ body), suf. split; [cbn; by rewrite <- app_assoc|]. split; [|len_lia].
  apply frame_intro; [done| |done|done]. by replace (len body) with v by lia.
Qed.

Lemma frame_facts fr p :
  frame fr p -> decodable p /\ remaining_length p <= 268435455 /\ 2 <= len fr.
Proof.
  destruct 1 as [first rl body p _ Hv Hl Hacc]. destruct (accepted_ok _ _ _ _ Hacc) as [Hp <-].
  pose proof (rl_value_max _ _ Hv Hl). pose proof (rl_value_range _ _ Hv) as [_ ?].
  split_and!; [done|lia|len_lia].
Qed.

(** The text of an error is one line. *)
Lemma hex_digit_one_line d s :
  0 <= d < 16 -> one_line (String.String (hex_digit d) s) = one_line s.
Proof.
  intros Hd. unfold one_line. cbn [String.list_ascii_of_string forallb].
  enough (Hx : negb (Ascii.eqb (hex_digit d) (Ascii.ascii_of_nat 10)) = true) by by rewrite Hx.
  assert (Hb : 0 <= d < 256) by lia.
  assert (Hall := byte_cases (fun d => implb (d <? 16) (negb (Ascii.eqb (hex_digit d) (Ascii.ascii_of_nat 10))))
                    ltac:(vm_compute; reflexivity) d Hb). cbv beta in Hall.
  by replace (d <? 16) with true in Hall by lia.
Qed.

Lemma one_line_append s1 s2 : one_line (String.append s1 s2) = one_line s1 && one_line s2.
Proof.
  unfold one_line. induction s1 as [|a s1 IH]; [done|].
  change (String.append (String.String a s1) s2) with (String.String a (String.append s1 s2)).
  cbn [String.list_ascii_of_string forallb]. by rewrite IH, andb_assoc.
Qed.

Lemma final_one_line e : final e \/ e = Incomplete \/ e = InvalidRemainingLength -> one_line (ProtocolError_fmt e) = true.
Proof.
  intros [He|[->| ->]]; [|done|done]. destruct e as [| |t|s|s]; cbn [final ProtocolError_fmt] in *; try done;
    rewrite one_line_append; try done.
  unfold hex_u8. rewrite one_line_append.
  rewrite !hex_digit_one_line by (rewrite ?Z.mod_small, ?Z.div_small by lia; lia). done.
Qed.

Lemma decode_wp buf :
  bytes_ok buf -> len buf <= isize_max ->
  WP (decode buf)
    {{ '(p, n), decodable p /\ remaining_length p <= 268435455 /\ 2 <= n <= len buf
     | e, one_line (ProtocolError_fmt e) = true }}.
Proof.
  intros Hb Hl. eapply wp_mono; [by apply decode_frame_wp| |].
  2: { intros e He. apply final_one_line. destruct He as [[-> _]|[[-> _]|?]]; auto. }
  intros [p n] (fr & rest & -> & (Hp & Hr & Hn)%frame_facts & ->). split_and!; [done..|len_lia].
Qed.
