(* ===== verification/CodecRoundtrip.v ===== *)
(** * Wire format, round trips and framing (src/protocol.rs)

    [wire] is the MQTT 3.1.1 layout of a packet.  [encode] produces it; [decode]
    reads it back from the front of any buffer that starts with it; and bytes that
    arrive later never change an answer of [decode] other than [Incomplete]. *)

From S2P Require Import Prelude Utf8 Errors Packets RemainingLength Topics Wire Codec CodecSafety.

(** ** [encode] produces the wire format *)

Lemma slice_all {E A} (l : list A) n : n = len l -> slice (E:=E) l 0 n = Ok l.
Proof. intros ->. rewrite <- (app_nil_r l) at 1. by apply (slice_at [] l []). Qed.

Lemma encode_utf8_string_eq {E} s out :
  len s <= 65535 -> encode_utf8_string (E:=E) s out = Ok (out ++ field s).
Proof.
  intros Hs. unfold encode_utf8_string, as_u16, u16_max. pose proof (len_nonneg s).
  rewrite Z.min_l, Z.mod_small by lia. rewrite slice_all by done. cbn.
  unfold field. by rewrite app_assoc.
Qed.

(** Longer strings are cut to the length that the prefix can carry. *)
Lemma encode_utf8_string_long {E} s out :
  65535 < len s ->
  encode_utf8_string (E:=E) s out = Ok (out ++ [255; 255] ++ take (Z.to_nat 65535) s).
Proof.
  intros Hs. unfold encode_utf8_string, as_u16, u16_max.
  rewrite Z.min_r, Z.mod_small by lia. unfold slice.
  replace (_ && _ && _) with true by (symmetry; rewrite !andb_true_iff, !Z.leb_le; lia).
  rewrite Z.sub_0_r. change (Z.to_nat 0) with 0%nat. rewrite drop_0.
  cbn [mbind outcome_bind]. by rewrite <- app_assoc.
Qed.

Lemma prepend_fixed_header_eq {E} pt flags body :
  0 <= pt < 16 -> 0 <= flags < 16 -> len body <= u32_max ->
  prepend_fixed_header (E:=E) pt flags body =
  Ok (pt * 16 + flags :: rl_digits 5 (len body) ++ body).
Proof.
  intros Hpt Hf Hlen. unfold prepend_fixed_header, as_u32, u32_max in *. pose proof (len_nonneg body).
  rewrite Z.mod_small by lia. rewrite encode_remaining_length_eq by (unfold u32_max; lia). cbn.
  unfold as_u8. rewrite Z.shiftl_mul_pow2 by lia. change (2 ^ 4) with 16.
  rewrite Z.mod_small by lia. change 15 with (Z.ones 4). rewrite Z.land_ones by lia.
  change (2 ^ 4) with 16. rewrite Z.mod_small by lia. f_equal. f_equal.
  enough (Hall : forallb (fun x => Z.lor (x / 16 * 16) (x mod 16) =? x) (map Z.of_nat (seq 0 256)) = true).
  { pose proof (byte_cases _ Hall (pt * 16 + flags)) as Hx. apply Z.eqb_eq in Hx; [|lia].
    replace ((pt * 16 + flags) / 16) with pt in Hx by lia.
    replace ((pt * 16 + flags) mod 16) with flags in Hx by lia. done. }
  reflexivity.
Qed.

Lemma encode_subscriptions {E} ss body :
  Forall (fun s => len (fst s) <= 65535) ss ->
  foldM (E:=E) (fun body '(filter, q) => body ← encode_utf8_string filter body; Ok (body ++ [q]))
    body ss = Ok (body ++ concat (map subscription_wire ss)).
Proof.
  intros Hss. revert body. induction Hss as [|[f q] ss Hf _ IH]; intros body; simpl.
  - by rewrite app_nil_r.
  - rewrite encode_utf8_string_eq by done. cbn. rewrite IH. f_equal.
    unfold subscription_wire. simpl. by rewrite <- !app_assoc.
Qed.

Lemma encode_filters {E} fs body :
  Forall (fun f => len f <= 65535) fs ->
  foldM (E:=E) (fun body filter => encode_utf8_string filter body) body fs =
  Ok (body ++ concat (map field fs)).
Proof.
  intros Hfs. revert body. induction Hfs as [|f fs Hf _ IH]; intros body; simpl.
  - by rewrite app_nil_r.
  - rewrite encode_utf8_string_eq by done. cbn. rewrite IH. by rewrite <- app_assoc.
Qed.

Lemma publish_flags q (r : bool) :
  0 <= q <= 2 ->
  (if r then Z.lor (as_u8 (Z.shiftl (Z.land q 3) 1)) 1 else as_u8 (Z.shiftl (Z.land q 3) 1)) =
  2 * q + (if r then 1 else 0).
Proof. intros Hq. assert (q = 0 \/ q = 1 \/ q = 2) as [-> |[-> | ->]] by lia; by destruct r. Qed.

Lemma encode_wire {E} p :
  encodable p -> remaining_length p <= u32_max -> encode (E:=E) p = Ok (wire p).
Proof.
  intros Hp Hlen. rewrite <- wire_body_len in Hlen. unfold wire.
  destruct p as [p|p|p|p|p|p|p|p| | |]; cbn [encode encodable] in *; try done.
  - destruct Hp as [Hn Hi]. unfold encode_connect. rewrite encode_utf8_string_eq by done.
    cbn [mbind outcome_bind app]. rewrite encode_utf8_string_eq by done. cbn [mbind outcome_bind].
    rewrite <- !app_assoc in *. cbn [app].
    rewrite prepend_fixed_header_eq; [cbn [wire_body]; by destruct (clean_session p)|done|done|].
    revert Hlen. cbn [wire_body app]. by destruct (clean_session p).
  - unfold encode_subscribe. rewrite encode_subscriptions by done. cbn [mbind outcome_bind].
    by rewrite prepend_fixed_header_eq.
  - unfold encode_suback. cbv zeta. by rewrite prepend_fixed_header_eq.
  - unfold encode_unsubscribe. rewrite encode_filters by done. cbn [mbind outcome_bind].
    by rewrite prepend_fixed_header_eq.
  - destruct Hp as [Ht Hq]. unfold encode_publish. rewrite encode_utf8_string_eq by done.
    cbn [mbind outcome_bind app]. rewrite publish_flags by done.
    rewrite prepend_fixed_header_eq; [|done|destruct (retain p); lia|].
    + cbn [wire_header wire_body]. change (PT_PUBLISH * 16) with 48. rewrite Z.add_assoc.
      destruct (pub_packet_id p); rewrite <- ?app_assoc; done.
    + revert Hlen. cbn [wire_body]. destruct (pub_packet_id p); rewrite <- ?app_assoc; done.
Qed.

(** ** [decode] reads the wire format *)

Lemma decode_utf8_string_field s rest :
  rstring_ok s -> decode_utf8_string (field s ++ rest) = Ok (s, 2 + len s).
Proof.
  intros [Hv Hl]. pose proof (len_nonneg s). pose proof (len_nonneg rest).
  change (field s ++ rest) with ([len s / 256; len s mod 256] ++ s ++ rest).
  unfold decode_utf8_string.
  replace (_ <? 2) with false by (symmetry; apply Z.ltb_ge; len_lia).
  change (index (E:=ProtocolError) ([len s / 256; len s mod 256] ++ s ++ rest) 0) with
    (Ok (E:=ProtocolError) (len s / 256)).
  change (index (E:=ProtocolError) ([len s / 256; len s mod 256] ++ s ++ rest) 1) with
    (Ok (E:=ProtocolError) (len s mod 256)).
  cbn [mbind outcome_bind].
  rewrite u16_be_roundtrip by lia. unfold checked_add_usize.
  replace (2 + len s <=? usize_max) with true by (unfold usize_max; lia). cbn [ok_or mbind outcome_bind].
  replace (_ <? 2 + len s) with false by (symmetry; apply Z.ltb_ge; len_lia).
  rewrite (slice_at [len s / 256; len s mod 256] s rest) by len_lia.
  cbn [mbind outcome_bind]. unfold from_utf8. by rewrite Hv.
Qed.

Lemma decode_field_field msg s rest :
  rstring_ok s ->
  map_err (fun _ => MalformedPayload msg) (decode_utf8_string (field s ++ rest)) = Ok (s, 2 + len s).
Proof. intros. by rewrite decode_utf8_string_field. Qed.

(** The fixed header of a complete packet, with any encoding of the length. *)
Lemma decode_parts first rl body rest :
  rl_value rl (len body) -> len rl <= 4 ->
  decode (first :: rl ++ body ++ rest) =
  p ← decode_body (Z.shiftr first 4) (Z.land first 15) body; Ok (p, len (first :: rl ++ body)).
Proof.
  intros Hv Hl. pose proof (rl_value_max _ _ Hv Hl). pose proof (len_nonneg rl). pose proof (len_nonneg rest).
  unfold decode. rewrite bool_decide_false by done.
  rewrite index_head. cbn [mbind outcome_bind].
  rewrite slice_from_tail. cbn [mbind outcome_bind].
  rewrite (decode_remaining_length_value _ _ _ Hv Hl). cbn [mbind outcome_bind].
  rewrite add_usize_ok by (unfold usize_max; lia). cbn [mbind outcome_bind].
  unfold checked_add_usize. replace (1 + len rl + len body <=? usize_max) with true by (unfold usize_max; lia).
  cbn [ok_or mbind outcome_bind].
  replace (_ <? 1 + len rl + len body) with false by (symmetry; apply Z.ltb_ge; len_lia).
  change (first :: rl ++ body ++ rest) with ((first :: rl) ++ body ++ rest).
  rewrite slice_at by len_lia. cbn [mbind outcome_bind].
  rewrite len_cons, len_app, Z.add_assoc. done.
Qed.

Lemma bind_app_utf8 {A} s rest (k : rstring * Z -> result A) :
  rstring_ok s -> decode_utf8_string (field s ++ rest) ≫= k = k (s, 2 + len s).
Proof. intros. by rewrite decode_utf8_string_field. Qed.

Lemma decode_connect_accepted fl p :
  connect_ok p -> 0 <= fl < 256 -> Z.land fl 196 = 0 -> clean_session p = negb (Z.land fl 2 =? 0) ->
  decode_connect (field (str "MQTT") ++ [4; fl] ++ u16_to_be_bytes (keep_alive_secs p) ++ field (client_id p)) =
  Ok p.
Proof.
  destruct p as [name level clean ka id]. intros (Hname & Hlevel & Hka & Hid) Hfl Hclear Hclean.
  cbn [protocol_name protocol_level keep_alive_secs client_id clean_session] in *. subst name level.
  unfold decode_connect. rewrite bind_app_utf8 by (split; [reflexivity|done]).
  pose proof (connect_flags_clear fl Hfl) as Hflags. rewrite Hclear in Hflags. change (0 =? 0) with true in Hflags.
  change (field (str "MQTT")) with [0; 4; 77; 81; 84; 84].
  unfold u16_to_be_bytes. cbn [app].
  set (body := 0 :: 4 :: 77 :: 81 :: 84 :: 84 :: 4 :: fl :: ka / 256 :: ka mod 256 :: field id).
  pose proof (len_nonneg (field id)).
  assert (Hlen : len body = 10 + len (field id)) by (unfold body; len_lia).
  assert (H6 : index (E:=ProtocolError) body 6 = Ok 4) by done.
  assert (H7 : index (E:=ProtocolError) body 7 = Ok fl) by done.
  assert (H8 : index (E:=ProtocolError) body 8 = Ok (ka / 256)) by done.
  assert (H9 : index (E:=ProtocolError) body 9 = Ok (ka mod 256)) by done.
  assert (Hrest : slice_from (E:=ProtocolError) body 10 = Ok (field id ++ [])).
  { rewrite app_nil_r. by apply (slice_from_at [0; 4; 77; 81; 84; 84; 4; fl; ka / 256; ka mod 256]). }
  clearbody body. change (2 + len (str "MQTT")) with 6. rewrite bool_decide_true by done.
  repeat first
    [ rewrite H6 | rewrite H7 | rewrite H8 | rewrite H9 | rewrite Hrest
    | rewrite Hflags | rewrite <- Hclean
    | rewrite decode_field_field by done
    | rewrite add_usize_ok by (unfold usize_max; destruct Hid; lia)
    | progress change (6 + 1) with 7 | progress change (7 + 1) with 8
    | progress change (8 + 1) with 9 | progress change (8 + 2) with 10
    | progress cbn [Z.eqb Pos.eqb negb orb mbind outcome_bind]
    | match goal with |- context [len body <? ?k] =>
        replace (len body <? k) with false by (symmetry; apply Z.ltb_ge; lia) end ].
  replace (10 + (2 + len id) =? len body) with true
    by (symmetry; apply Z.eqb_eq; rewrite Hlen, len_field; lia).
  cbn [negb]. by rewrite u16_be_roundtrip.
Qed.

(** *** SUBSCRIBE and UNSUBSCRIBE *)

Lemma validate_filter_ok f : filter_ok f -> validate_topic_filter f = Ok tt.
Proof. intros (_ & ? & ?). by apply validate_topic_filter_ok. Qed.

(** One iteration on a body that holds a filter and its QoS at the position. *)
Lemma decode_subscribe_step_wire pre f q suf acc :
  filter_ok f -> 0 <= q <= 2 -> len (pre ++ (field f ++ [q]) ++ suf) <= 268435455 ->
  decode_subscribe_step (pre ++ (field f ++ [q]) ++ suf) (len pre, acc) =
  Ok (inl (len (pre ++ field f ++ [q]), acc ++ [(f, q)])).
Proof.
  intros Hf Hq Hlen. set (body := pre ++ (field f ++ [q]) ++ suf) in *.
  pose proof (len_nonneg pre). pose proof (len_nonneg f). pose proof (len_nonneg suf).
  assert (Hbl : len body = len pre + (2 + len f) + 1 + len suf)
    by (unfold body; rewrite !len_app, len_cons, len_field, len_nil; lia).
  assert (Hrest : slice_from (E:=ProtocolError) body (len pre) = Ok (field f ++ [q] ++ suf)).
  { unfold body. rewrite <- app_assoc. by apply slice_from_at. }
  assert (Hq' : index (E:=ProtocolError) body (len pre + (2 + len f)) = Ok q).
  { unfold body. rewrite <- app_assoc, app_assoc. apply (index_at (pre ++ field f) suf).
    rewrite len_app, len_field. lia. }
  clearbody body. unfold decode_subscribe_step.
  replace (len pre <? len body) with true by (symmetry; apply Z.ltb_lt; lia).
  rewrite Hrest. cbn [mbind outcome_bind]. rewrite decode_field_field by apply Hf.
  cbn [mbind outcome_bind]. rewrite add_usize_ok by (unfold usize_max; lia).
  cbn [mbind outcome_bind]. rewrite validate_filter_ok by done. cbn [mbind outcome_bind].
  replace (len body <=? _) with false by (symmetry; apply Z.leb_gt; lia).
  rewrite Hq'. cbn [mbind outcome_bind]. replace (2 <? q) with false by lia.
  rewrite add_usize_ok by (unfold usize_max; lia). cbn [mbind outcome_bind].
  do 3 f_equal. rewrite !len_app, len_field, len_cons, len_nil. lia.
Qed.

Lemma decode_subscribe_loop_wire ss pre acc fuel :
  Forall subscription_ok ss -> (length ss < fuel)%nat ->
  len (pre ++ concat (map subscription_wire ss)) <= 268435455 ->
  loop fuel (decode_subscribe_step (pre ++ concat (map subscription_wire ss))) (len pre, acc) =
  Ok (acc ++ ss).
Proof.
  intros Hss. revert pre acc fuel. induction Hss as [|[f q] ss [Hf Hq] _ IH]; intros pre acc fuel Hfuel Hlen.
  - destruct fuel; [simpl in *; lia|]. cbn [map concat loop]. rewrite app_nil_r in *.
    unfold decode_subscribe_step. rewrite Z.ltb_irrefl. simpl. by rewrite app_nil_r.
  - destruct fuel as [|fuel]; [simpl in Hfuel; lia|]. cbn [loop map concat] in *.
    change (subscription_wire (f, q)) with (field f ++ [q]) in *.
    rewrite decode_subscribe_step_wire by done. cbn [mbind outcome_bind].
    rewrite (app_assoc pre) in *. rewrite IH by (try done; simpl in Hfuel; lia).
    by rewrite <- app_assoc.
Qed.

Lemma count_le_len {A} (g : A -> bytes) (l : list A) :
  (forall a, 1 <= len (g a)) -> Z.of_nat (length l) <= len (concat (map g l)).
Proof.
  intros Hg. induction l as [|a l IH]; [done|]. cbn [map concat length].
  rewrite len_app. specialize (Hg a). lia.
Qed.

Lemma decode_id_prefix {A} id l (k : Z -> Z -> result A) :
  (b0 ← index (u16_to_be_bytes id ++ l) 0; b1 ← index (u16_to_be_bytes id ++ l) 1; k b0 b1) =
  k (id / 256) (id mod 256).
Proof. reflexivity. Qed.

Lemma decode_subscribe_wire p :
  subscribe_ok p -> remaining_length (Subscribe p) <= 268435455 ->
  decode_subscribe (wire_body (Subscribe p)) = Ok p.
Proof.
  intros (Hid & Hne & Hss) Hlen. rewrite <- wire_body_len in Hlen.
  destruct p as [id ss]. cbn [wire_body sub_packet_id subscriptions] in *.
  set (l := concat (map subscription_wire ss)) in *.
  assert (Hpos : Z.of_nat (length ss) <= len l).
  { apply count_le_len. intros [f q]. unfold subscription_wire. simpl. len_lia. }
  assert (0 < length ss)%nat by (by destruct ss; [|simpl; lia]).
  assert (Hl : len (u16_to_be_bytes id ++ l) = 2 + len l) by len_lia.
  unfold decode_subscribe.
  replace (_ <? 2) with false by (symmetry; apply Z.ltb_ge; lia).
  rewrite decode_id_prefix. replace (_ <=? 2) with false by (symmetry; apply Z.leb_gt; lia).
  change 2 with (len (u16_to_be_bytes id)) at 1. unfold l at 2.
  rewrite decode_subscribe_loop_wire; [|done| |done].
  - cbn. rewrite u16_be_roundtrip by done. done.
  - rewrite length_app. unfold len in Hpos. simpl. lia.
Qed.

Lemma decode_unsubscribe_step_wire pre f suf acc :
  filter_ok f -> len (pre ++ field f ++ suf) <= 268435455 ->
  decode_unsubscribe_step (pre ++ field f ++ suf) (len pre, acc) =
  Ok (inl (len (pre ++ field f), acc ++ [f])).
Proof.
  intros Hf Hlen. set (body := pre ++ field f ++ suf) in *.
  pose proof (len_nonneg pre). pose proof (len_nonneg f). pose proof (len_nonneg suf).
  assert (Hbl : len body = len pre + (2 + len f) + len suf)
    by (unfold body; rewrite !len_app, len_field; lia).
  assert (Hrest : slice_from (E:=ProtocolError) body (len pre) = Ok (field f ++ suf))
    by (by apply slice_from_at).
  clearbody body. unfold decode_unsubscribe_step.
  replace (len pre <? len body) with true by (symmetry; apply Z.ltb_lt; lia).
  rewrite Hrest. cbn [mbind outcome_bind]. rewrite decode_field_field by apply Hf.
  cbn [mbind outcome_bind]. rewrite add_usize_ok by (unfold usize_max; lia).
  cbn [mbind outcome_bind]. rewrite validate_filter_ok by done. cbn [mbind outcome_bind].
  do 3 f_equal. rewrite !len_app, len_field. lia.
Qed.

Lemma decode_unsubscribe_loop_wire fs pre acc fuel :
  Forall filter_ok fs -> (length fs < fuel)%nat ->
  len (pre ++ concat (map field fs)) <= 268435455 ->
  loop fuel (decode_unsubscribe_step (pre ++ concat (map field fs))) (len pre, acc) = Ok (acc ++ fs).
Proof.
  intros Hfs. revert pre acc fuel. induction Hfs as [|f fs Hf _ IH]; intros pre acc fuel Hfuel Hlen.
  - destruct fuel; [simpl in *; lia|]. cbn [map concat loop]. rewrite app_nil_r in *.
    unfold decode_unsubscribe_step. rewrite Z.ltb_irrefl. simpl. by rewrite app_nil_r.
  - destruct fuel as [|fuel]; [simpl in Hfuel; lia|]. cbn [loop map concat] in *.
    rewrite decode_unsubscribe_step_wire by done. cbn [mbind outcome_bind].
    rewrite (app_assoc pre) in *. rewrite IH by (try done; simpl in Hfuel; lia).
    by rewrite <- app_assoc.
Qed.

Lemma decode_unsubscribe_wire p :
  unsubscribe_ok p -> remaining_length (Unsubscribe p) <= 268435455 ->
  decode_unsubscribe (wire_body (Unsubscribe p)) = Ok p.
Proof.
  intros (Hid & Hne & Hfs) Hlen. rewrite <- wire_body_len in Hlen.
  destruct p as [id fs]. cbn [wire_body unsub_packet_id topic_filters] in *.
  set (l := concat (map field fs)) in *.
  assert (Hpos : Z.of_nat (length fs) <= len l).
  { apply count_le_len. intros f. len_lia. }
  assert (0 < length fs)%nat by (by destruct fs; [|simpl; lia]).
  assert (Hl : len (u16_to_be_bytes id ++ l) = 2 + len l) by len_lia.
  unfold decode_unsubscribe.
  replace (_ <? 2) with false by (symmetry; apply Z.ltb_ge; lia).
  rewrite decode_id_prefix. replace (_ <=? 2) with false by (symmetry; apply Z.leb_gt; lia).
  change 2 with (len (u16_to_be_bytes id)) at 1. unfold l at 2.
  rewrite decode_unsubscribe_loop_wire; [|done| |done].
  - cbn. rewrite u16_be_roundtrip by done. done.
  - rewrite length_app. unfold len in Hpos. simpl. lia.
Qed.

(** *** PUBLISH and PUBACK *)

Lemma decode_publish_id_wire pre id q data :
  publish_id_ok q id -> len pre <= 65537 ->
  let body := pre ++ match id with Some i => u16_to_be_bytes i | None => [] end ++ data in
  decode_publish_id body q (len pre) =
  Ok (id, len pre + match id with Some _ => 2 | None => 0 end).
Proof.
  intros Hid Hpre body. unfold decode_publish_id. pose proof (len_nonneg pre). pose proof (len_nonneg data).
  destruct id as [i|]; [|rewrite Hid; simpl; by rewrite Z.add_0_r].
  destruct Hid as [-> Hi]. cbn [Z.eqb Pos.eqb].
  assert (Hx0 : index (E:=ProtocolError) body (len pre) = Ok (i / 256))
    by (by apply (index_at pre (i mod 256 :: data))).
  assert (Hx1 : index (E:=ProtocolError) body (len pre + 1) = Ok (i mod 256)).
  { unfold body, u16_to_be_bytes. change ([i / 256; i mod 256] ++ data) with ([i / 256] ++ i mod 256 :: data).
    rewrite app_assoc. apply index_at. len_lia. }
  assert (Hlen : len pre + 2 <= len body) by (unfold body; len_lia). clearbody body.
  rewrite add_usize_ok by (unfold usize_max; lia). cbn [mbind outcome_bind].
  replace (len body <? _) with false by (symmetry; apply Z.ltb_ge; lia).
  rewrite Hx0. cbn [mbind outcome_bind]. rewrite add_usize_ok by (unfold usize_max; lia).
  cbn [mbind outcome_bind]. rewrite Hx1. cbn [mbind outcome_bind].
  unfold nonzero_u16 in Hi. rewrite u16_be_roundtrip by lia. by replace (i =? 0) with false by lia.
Qed.

Lemma decode_publish_accepted fl p :
  publish_ok p -> qos p = Z.land (Z.shiftr fl 1) 3 -> retain p = negb (Z.land fl 1 =? 0) ->
  decode_publish fl (wire_body (Publish p)) = Ok p.
Proof.
  destruct p as [t data q r id]. intros (Ht & Hne & Hw & Hdata & Hid) Hb1 Hb2.
  cbn [topic payload qos retain pub_packet_id wire_body] in *.
  assert (Hq : q = 0 \/ q = 1) by (destruct id; [destruct Hid|]; auto).
  unfold decode_publish. rewrite <- Hb1, <- Hb2.
  replace (q =? 3) with false by lia. replace (q =? 2) with false by lia.
  rewrite decode_field_field by done. cbn [mbind outcome_bind].
  rewrite bool_decide_false by done.
  unfold is_wildcard_filter in Hw. rewrite Hw.
  rewrite <- len_field. rewrite decode_publish_id_wire; [|done|destruct Ht; rewrite len_field; lia].
  cbn [mbind outcome_bind]. rewrite app_assoc, slice_from_at; [done|].
  rewrite len_app. by destruct id.
Qed.

Lemma decode_puback_wire p :
  nonzero_u16 (puback_packet_id p) -> decode_puback (wire_body (PubAck p)) = Ok p.
Proof.
  destruct p as [i]. unfold nonzero_u16, decode_puback. cbn [puback_packet_id wire_body].
  intros Hi. rewrite <- (app_nil_r (u16_to_be_bytes i)). rewrite decode_id_prefix.
  cbn [negb Z.eqb]. change (negb (len (u16_to_be_bytes i ++ []) =? 2)) with false.
  rewrite u16_be_roundtrip by lia. by replace (i =? 0) with false by lia.
Qed.

(** ** The round trip *)

Lemma decode_body_accepted pt fl body p :
  accepted pt fl body p -> len body <= 268435455 -> decode_body pt fl body = Ok p.
Proof.
  intros Hacc Hlen. destruct Hacc as [fl cf p ? ? ? ?|fl p ?|fl p ?|fl p ? ? ?|p ?|fl|fl]; try done; unfold decode_body.
  - change (PT_CONNECT =? PT_CONNECT) with true. cbv iota. by rewrite decode_connect_accepted.
  - change (PT_SUBSCRIBE =? PT_CONNECT) with false. change (PT_SUBSCRIBE =? PT_SUBSCRIBE) with true. cbv iota.
    by rewrite decode_subscribe_wire by (done || by rewrite <- wire_body_len).
  - change (PT_UNSUBSCRIBE =? PT_CONNECT) with false. change (PT_UNSUBSCRIBE =? PT_SUBSCRIBE) with false.
    change (PT_UNSUBSCRIBE =? PT_UNSUBSCRIBE) with true. cbv iota.
    by rewrite decode_unsubscribe_wire by (done || by rewrite <- wire_body_len).
  - change (PT_PUBLISH =? PT_CONNECT) with false. change (PT_PUBLISH =? PT_SUBSCRIBE) with false.
    change (PT_PUBLISH =? PT_UNSUBSCRIBE) with false. change (PT_PUBLISH =? PT_PUBLISH) with true. cbv iota.
    by rewrite decode_publish_accepted.
  - change (PT_PUBACK =? PT_CONNECT) with false. change (PT_PUBACK =? PT_SUBSCRIBE) with false.
    change (PT_PUBACK =? PT_UNSUBSCRIBE) with false. change (PT_PUBACK =? PT_PUBLISH) with false.
    change (PT_PUBACK =? PT_PUBACK) with true. cbv iota. by rewrite decode_puback_wire.
Qed.

(** [decode] takes a packet off the front of any buffer. *)
Lemma decode_of_frame fr p rest : frame fr p -> decode (fr ++ rest) = Ok (p, len fr).
Proof.
  destruct 1 as [first rl body p Hf Hv Hl Hacc]. cbn [app]. rewrite <- app_assoc, decode_parts by done.
  pose proof (rl_value_max _ _ Hv Hl). by rewrite (decode_body_accepted _ _ _ _ Hacc) by lia.
Qed.

(** The beginning of a frame. *)
Lemma decode_unfinished buf : unfinished buf -> decode buf = Err Incomplete.
Proof.
  intros Hu. destruct Hu as [|first rl Ho Hl|first rl v part Hv Hl Hp]; [done|..]; unfold decode;
    rewrite bool_decide_false, index_head by done; cbn [mbind outcome_bind];
    rewrite slice_from_tail; cbn [mbind outcome_bind].
  - by rewrite decode_remaining_length_short.
  - rewrite (decode_remaining_length_value _ _ _ Hv Hl). cbn [mbind outcome_bind].
    pose proof (rl_value_max _ _ Hv Hl). pose proof (len_nonneg rl).
    rewrite add_usize_ok by (unfold usize_max; lia). cbn [mbind outcome_bind].
    unfold checked_add_usize. replace (1 + len rl + v <=? usize_max) with true by (unfold usize_max; lia).
    cbn [ok_or mbind outcome_bind].
    by replace (_ <? 1 + len rl + v) with true by (symmetry; apply Z.ltb_lt; len_lia).
Qed.

Lemma decode_endless buf : endless buf -> decode buf = Err InvalidRemainingLength.
Proof.
  intros (first & rl & rest & -> & Ho & Hl). unfold decode.
  rewrite bool_decide_false, index_head by done. cbn [mbind outcome_bind].
  rewrite slice_from_tail. cbn [mbind outcome_bind]. by rewrite decode_remaining_length_long.
Qed.

Lemma wire_header_range p : decodable p -> 0 <= wire_header p < 256.
Proof.
  destruct p as [| | | | | |p| | | |]; simpl; try lia. intros (_ & _ & _ & _ & Hid).
  assert (qos p = 0 \/ qos p = 1) by (destruct (pub_packet_id p); [destruct Hid|]; auto).
  destruct (retain p); lia.
Qed.

(** What [encode] writes is one of the things that [decode] takes. *)
Lemma wire_accepted p :
  decodable p -> accepted (Z.shiftr (wire_header p) 4) (Z.land (wire_header p) 15) (wire_body p) p.
Proof.
  destruct p as [p|p|p|p|p|p|p|p| | |]; try done; cbn [decodable]; intros Hp.
  - pose proof Hp as (Hn & Hlv & _). cbn [wire_body]. rewrite Hn, Hlv.
    by apply (accept_connect 0 (if clean_session p then 2 else 0)); destruct (clean_session p).
  - by apply (accept_subscribe 2).
  - by apply (accept_unsubscribe 2).
  - pose proof Hp as (_ & _ & _ & _ & Hid). set (h := wire_header (Publish p)).
    assert (Hq : qos p = 0 \/ qos p = 1) by (destruct (pub_packet_id p); [destruct Hid|]; auto).
    assert (Z.shiftr h 4 = PT_PUBLISH /\ qos p = Z.land (Z.shiftr (Z.land h 15) 1) 3 /\
            retain p = negb (Z.land (Z.land h 15) 1 =? 0)) as (-> & ? & ?).
    { unfold h. cbn [wire_header]. by destruct Hq as [-> | ->], (retain p). }
    by apply accept_publish.
  - by apply accept_puback.
  - by apply (accept_pingreq 0).
  - by apply (accept_disconnect 0).
Qed.

Lemma wire_frame p : decodable p -> remaining_length p <= 268435455 -> frame (wire p) p.
Proof.
  intros Hp Hlen. rewrite <- wire_body_len in Hlen. pose proof (len_nonneg (wire_body p)).
  unfold wire. change 5%nat with (4 + 1)%nat.
  rewrite rl_digits_enough by (change (128 ^ Z.of_nat 4) with 268435456; lia).
  apply frame_intro; [by apply wire_header_range| | |by apply wire_accepted].
  - apply rl_digits_value; [change (128 ^ Z.of_nat 4) with 268435456|]; lia.
  - pose proof (rl_digits_len 4 (len (wire_body p))). lia.
Qed.

Lemma decode_wire p rest :
  decodable p -> remaining_length p <= 268435455 ->
  decode (wire p ++ rest) = Ok (p, len (wire p)).
Proof. intros. by apply decode_of_frame, wire_frame. Qed.

Lemma decodable_encodable p : decodable p -> encodable p.
Proof.
  destruct p as [p|p|p|p|p|p|p|p| | |]; simpl; try done.
  - intros (-> & _ & _ & Hid). split; [by vm_compute|apply Hid].
  - intros (_ & _ & Hss). eapply Forall_impl; [exact Hss|]. intros [f q] [[Hf _] _]. apply Hf.
  - intros (_ & _ & Hfs). eapply Forall_impl; [exact Hfs|]. intros f [Hf _]. apply Hf.
  - intros (Ht & _ & _ & _ & Hid). split; [apply Ht|].
    destruct (pub_packet_id p); [destruct Hid|]; simpl in *; lia.
Qed.

Lemma encode_decodable {E} p :
  decodable p -> remaining_length p <= 268435455 -> encode (E:=E) p = Ok (wire p).
Proof.
  intros. apply encode_wire; [by apply decodable_encodable|unfold u32_max; lia].
Qed.

(** ** Framing: what arrives later *)

Lemma decode_app buf more :
  len buf + len more <= isize_max ->
  bytes_ok buf -> decode buf = Err Incomplete \/ decode (buf ++ more) = decode buf.
Proof.
  intros Hsz Hbuf. unfold isize_max in Hsz. pose proof (len_nonneg more).
  destruct buf as [|b tl]; [by left|]. unfold decode. cbn [app].
  rewrite !bool_decide_false, !index_head by done. cbn [mbind outcome_bind].
  rewrite !slice_from_tail. cbn [mbind outcome_bind].
  apply Forall_cons in Hbuf as [_ Htl].
  pose proof (decode_remaining_length_wp tl Htl) as Hwp.
  destruct (decode_remaining_length_app tl more) as [-> | ->]; [by left|].
  destruct (decode_remaining_length tl) as [[v n]|e| |]; cbn [mbind outcome_bind]; [|by right|done|done].
  destruct Hwp as (rl & rest & Htail & Hv & -> & Hl). pose proof (rl_value_max _ _ Hv Hl).
  pose proof (len_nonneg rl). rewrite !add_usize_ok by (unfold usize_max; lia).
  cbn [mbind outcome_bind]. unfold checked_add_usize.
  replace (1 + len rl + v <=? usize_max) with true by (unfold usize_max; lia).
  cbn [ok_or mbind outcome_bind].
  destruct (Z.ltb_spec (len (b :: tl)) (1 + len rl + v)); [by left|]. right.
  replace (_ <? 1 + len rl + v) with false by (symmetry; apply Z.ltb_ge; len_lia).
  change (b :: tl ++ more) with ((b :: tl) ++ more). by rewrite slice_app by lia.
Qed.
