(* ===== verification/Queue.v ===== *)
(** * The outbound queue (src/queue.rs)

    The bounded drop-oldest queue, operation by operation, on the data behind its
    locks.  [spec] is its contract as a plain list: a queue of capacity [c] keeps
    the last [c] items that were pushed and not yet popped. *)

From S2P Require Import Prelude.

Record BoundedDropOldestQueue (A : Type) : Type := mkQueue {
  items : list A;
  capacity : Z;
  closed : bool;
}.
Arguments mkQueue {A} items capacity closed.
Arguments items {A} b.
Arguments capacity {A} b.
Arguments closed {A} b.

(** What one pass of the loop of [pop_blocking] does: return, or wait on the
    condition variable. *)
Inductive pop_result (A : Type) : Type :=
| Return (r : option A)
| Wait.
Arguments Return {A} r.
Arguments Wait {A}.

Section operations.
  Context {A : Type}.
  Abbreviation queue := (BoundedDropOldestQueue A).

Definition new (capacity : Z) : queue := mkQueue [] capacity false.

(** [pop_front] of a [VecDeque]. *)
Definition pop_front (l : list A) : option A * list A :=
  match l with
  | [] => (None, [])
  | x :: l' => (Some x, l')
  end.

(** [push]: the queue and whether an item is reported as dropped. *)
Definition push (q : queue) (item : A) : queue * bool :=
  let guard := items q in
  let '(guard, dropped) :=
    if capacity q <=? len guard then (snd (pop_front guard), true) else (guard, false) in
  let guard := guard ++ [item] in
  (mkQueue guard (capacity q) (closed q), dropped).

(** One pass of the loop of [pop_blocking]. *)
Definition pop_blocking (q : queue) : queue * pop_result A :=
  match pop_front (items q) with
  | (Some item, guard) => (mkQueue guard (capacity q) (closed q), Return (Some item))
  | (None, guard) =>
      if closed q then (mkQueue guard (capacity q) (closed q), Return None)
      else (mkQueue guard (capacity q) (closed q), Wait)
  end.

Definition close (q : queue) : queue := mkQueue (items q) (capacity q) true.

(** ** A client's run of the queue *)

Inductive op : Type :=
| OpPush (x : A)
| OpPop
| OpClose.

(** The queue, the items popped and the number of drops reported, over a sequence
    of operations. *)
Fixpoint run (ops : list op) (q : queue) (popped : list A) (drops : Z) : queue * list A * Z :=
  match ops with
  | [] => (q, popped, drops)
  | OpPush x :: ops =>
      let '(q', d) := push q x in run ops q' popped (if d then drops + 1 else drops)
  | OpPop :: ops =>
      let '(q', r) := pop_blocking q in
      run ops q' (match r with Return (Some x) => popped ++ [x] | _ => popped end) drops
  | OpClose :: ops => run ops (close q) popped drops
  end.

Definition pushed (ops : list op) : list A :=
  omap (fun o => match o with OpPush x => Some x | _ => None end) ops.

(** ** The contract *)

(** The last [n] items. *)
Definition last_n (n : Z) (l : list A) : list A := drop (Z.to_nat (len l - n)) l.

Definition queue_ok (q : queue) : Prop := 1 <= capacity q /\ len (items q) <= capacity q.

Lemma new_ok c : 1 <= c -> queue_ok (new c).
Proof. intros. split; [done|]. unfold new, len. simpl. lia. Qed.

Lemma pop_front_eq (l : list A) : pop_front l = (head l, tail l).
Proof. by destruct l. Qed.

Lemma push_items q x :
  queue_ok q -> items (fst (push q x)) = last_n (capacity q) (items q ++ [x]).
Proof.
  intros [Hc Hl]. unfold push, last_n. rewrite len_app, len_cons, len_nil.
  destruct (Z.leb_spec (capacity q) (len (items q))); simpl.
  - replace (Z.to_nat _) with 1%nat by lia. rewrite pop_front_eq.
    destruct (items q); [autorewrite with len in *; lia|done].
  - replace (Z.to_nat _) with 0%nat by lia. done.
Qed.

Lemma last_n_len n l : 0 <= n -> len (last_n n l) = Z.min n (len l).
Proof. intros. unfold last_n, len. rewrite length_drop. lia. Qed.

Lemma push_ok q x : queue_ok q -> queue_ok (fst (push q x)).
Proof.
  intros Hq. pose proof Hq as [Hc Hl]. split.
  - unfold push. by destruct (_ <=? _).
  - rewrite push_items by done.
    replace (capacity (fst (push q x))) with (capacity q) by (unfold push; by destruct (_ <=? _)).
    rewrite last_n_len; lia.
Qed.

Lemma pop_ok q : queue_ok q -> queue_ok (fst (pop_blocking q)).
Proof.
  intros [Hc Hl]. unfold pop_blocking. rewrite pop_front_eq.
  destruct (items q) as [|x l]; simpl; [destruct (closed q); by split|].
  split; simpl; [done|]. autorewrite with len in *. lia.
Qed.

Lemma close_ok q : queue_ok q -> queue_ok (close q).
Proof. done. Qed.

Lemma push_dropped q x :
  queue_ok q -> snd (push q x) = true <-> len (items q) = capacity q.
Proof.
  intros [Hc Hl]. unfold push.
  destruct (Z.leb_spec (capacity q) (len (items q))); simpl; split; try done; lia.
Qed.

Lemma push_accounting q x :
  queue_ok q ->
  len (items (fst (push q x))) + (if snd (push q x) then 1 else 0) = len (items q) + 1.
Proof.
  intros Hq. pose proof Hq as [Hc Hl]. rewrite push_items by done.
  rewrite last_n_len, len_app, len_cons, len_nil by lia.
  destruct (snd (push q x)) eqn:Hd; [apply push_dropped in Hd; [lia|done]|].
  assert (len (items q) <> capacity q) by (intros He; apply push_dropped with (x:=x) in He; [congruence|done]).
  lia.
Qed.

(** The invariant of a run: what was popped and what is queued come, in order,
    from what was pushed; and every item is popped, queued or dropped. *)
Lemma run_spec ops q popped drops hist :
  queue_ok q -> popped ++ items q `sublist_of` hist ->
  len hist = len popped + len (items q) + drops -> 0 <= drops ->
  let '(q', popped', drops') := run ops q popped drops in
  queue_ok q' /\ popped' ++ items q' `sublist_of` hist ++ pushed ops /\
  len (hist ++ pushed ops) = len popped' + len (items q') + drops' /\ drops <= drops'.
Proof.
  revert q popped drops hist. induction ops as [|[x| |] ops IH]; intros q popped drops hist Hq Hs Hn Hd;
    cbn [run].
  - unfold pushed. simpl. rewrite app_nil_r. split_and!; try done; lia.
  - pose proof (push_ok q x Hq) as Hq'. pose proof (push_accounting q x Hq) as Ha.
    pose proof (push_items q x Hq) as Hi.
    destruct (push q x) as [q' d]. cbn [fst snd] in *.
    change (pushed (OpPush x :: ops)) with ([x] ++ pushed ops). rewrite app_assoc.
    specialize (IH q' popped (if d then drops + 1 else drops) (hist ++ [x]) Hq').
    assert (Hs' : popped ++ items q' `sublist_of` hist ++ [x]).
    { rewrite Hi. unfold last_n. transitivity (popped ++ items q ++ [x]).
      - apply sublist_app; [done|]. apply sublist_drop.
      - rewrite app_assoc. by apply sublist_app. }
    assert (len (hist ++ [x]) = len popped + len (items q') + (if d then drops + 1 else drops))
      by (destruct d; len_lia).
    specialize (IH Hs'). destruct (run ops q' popped _) as [[q'' popped''] drops''].
    destruct IH as (? & ? & ? & ?); [done|destruct d; lia|]. split_and!; try done. destruct d; lia.
  - pose proof (pop_ok q Hq) as Hq'. change (pushed (OpPop :: ops)) with (pushed ops).
    unfold pop_blocking in *. rewrite pop_front_eq in *. destruct (items q) as [|x l] eqn:Hi; cbn [head tail] in *.
    + destruct (closed q); cbn [fst] in Hq'; apply IH; try done; by rewrite Hi.
    + cbn [fst] in Hq'. apply IH; try done; cbn [items].
      * by rewrite <- app_assoc.
      * autorewrite with len in *. lia.
  - change (pushed (OpClose :: ops)) with (pushed ops). by apply IH.
Qed.
End operations.

Arguments op A : clear implicits.
