(* ===== verification/QueueConc.v ===== *)
(** * The outbound queue under concurrency (src/queue.rs, lines 50 to 89)

    The writer thread in [pop_blocking] against producers in [push] and a thread
    in [close], as atomic steps: each lock acquisition, each access to data under
    the [items] or the [closed] mutex, each notification.  A producer's critical
    section touches only data that its lock protects, so it is one step, enabled
    while no one holds the lock; [close] sets its flag under another mutex and is
    not stopped by the [items] lock. *)

From S2P Require Import Prelude Queue.

(** Where the consumer is inside [pop_blocking]. *)
Inductive consumer_pc (A : Type) : Type :=
| AtLock                      (* before [items.lock()] *)
| AtPop                       (* holds the lock, before [pop_front] *)
| AtClosed                    (* holds the lock, found no item, before reading [closed] *)
| AtWait                      (* holds the lock, read [closed = false], before [wait] *)
| Sleeping                    (* in [wait]: the lock is released *)
| Woken                       (* notified, before taking the lock again *)
| Returned (r : option A).    (* out of [pop_blocking] *)
Arguments AtLock {A}.
Arguments AtPop {A}.
Arguments AtClosed {A}.
Arguments AtWait {A}.
Arguments Sleeping {A}.
Arguments Woken {A}.
Arguments Returned {A} r.

(** A call and what it returns: [push] whether it dropped an item, [pop_blocking] an item
    or [None]. *)
Inductive entry (A : Type) : Type :=
| DidPush (x : A) (dropped : bool)
| DidPop (r : option A)
| DidClose.
Arguments DidPush {A} x dropped.
Arguments DidPop {A} r.
Arguments DidClose {A}.

Record config (A : Type) : Type := mkConfig {
  queue : BoundedDropOldestQueue A;
  consumer : consumer_pc A;
  notifies : nat;         (* producers between [drop(guard)] and [notify_one] *)
  closes : nat;           (* closers between setting the flag and [notify_all] *)
  log : list (entry A);   (* the calls so far, each logged when its result is fixed *)
}.
Arguments mkConfig {A} queue consumer notifies closes log.
Arguments queue {A} c.
Arguments consumer {A} c.
Arguments notifies {A} c.
Arguments closes {A} c.
Arguments log {A} c.

Inductive label (A : Type) : Type :=
| PushItem (x : A)
| NotifyOne
| SetClosed
| NotifyAll
| Lock
| PopFront
| ReadClosed
| CondWait
| Relock
| CallAgain
| Spurious.
Arguments PushItem {A} x.
Arguments NotifyOne {A}.
Arguments SetClosed {A}.
Arguments NotifyAll {A}.
Arguments Lock {A}.
Arguments PopFront {A}.
Arguments ReadClosed {A}.
Arguments CondWait {A}.
Arguments Relock {A}.
Arguments CallAgain {A}.
Arguments Spurious {A}.

Section concurrency.
  Context {A : Type}.

(** The consumer holds the [items] mutex. *)
Definition locked (c : config A) : bool :=
  match consumer c with AtPop | AtClosed | AtWait => true | _ => false end.

Definition wake (pc : consumer_pc A) : consumer_pc A :=
  match pc with Sleeping => Woken | _ => pc end.

(** One step; [None] when it is not enabled.  The result of a [push] is a local variable
    that its critical section sets; [pop_blocking] returns where it finds an item or finds
    the queue closed. *)
Definition exec (l : label A) (c : config A) : option (config A) :=
  let '(mkConfig q pc n m h) := c in
  match l with
  | PushItem x =>
      if locked c then None
      else let '(q', dropped) := push q x in Some (mkConfig q' pc (S n) m (h ++ [DidPush x dropped]))
  | NotifyOne =>
      match n with O => None | S n' => Some (mkConfig q (wake pc) n' m h) end
  | SetClosed => Some (mkConfig (close q) pc n (S m) (h ++ [DidClose]))
  | NotifyAll =>
      match m with O => None | S m' => Some (mkConfig q (wake pc) n m' h) end
  | Lock => match pc with AtLock => Some (mkConfig q AtPop n m h) | _ => None end
  | PopFront =>
      match pc with
      | AtPop =>
          match pop_front (items q) with
          | (Some x, guard) =>
              Some (mkConfig (mkQueue guard (capacity q) (closed q)) (Returned (Some x)) n m
                    (h ++ [DidPop (Some x)]))
          | (None, _) => Some (mkConfig q AtClosed n m h)
          end
      | _ => None
      end
  | ReadClosed =>
      match pc with
      | AtClosed =>
          if closed q then Some (mkConfig q (Returned None) n m (h ++ [DidPop None]))
          else Some (mkConfig q AtWait n m h)
      | _ => None
      end
  | CondWait => match pc with AtWait => Some (mkConfig q Sleeping n m h) | _ => None end
  | Relock => match pc with Woken => Some (mkConfig q AtPop n m h) | _ => None end
  | CallAgain =>
      match pc with Returned (Some _) => Some (mkConfig q AtLock n m h) | _ => None end
  | Spurious => match pc with Sleeping => Some (mkConfig q Woken n m h) | _ => None end
  end.

Fixpoint exec_all (ls : list (label A)) (c : config A) : option (config A) :=
  match ls with
  | [] => Some c
  | l :: ls' => c' ← exec l c; exec_all ls' c'
  end.

Definition init (cap : Z) : config A := mkConfig (new cap) AtLock 0 0 [].

(** The configurations that some interleaving reaches. *)
Inductive reachable (cap : Z) : config A -> Prop :=
| reach_init : reachable cap (init cap)
| reach_step l c c' : reachable cap c -> exec l c = Some c' -> reachable cap c'.

(** A sequential execution: each call is one of [Queue]'s operations, on the queue that the
    calls before it left, with its result. *)
Inductive legal : BoundedDropOldestQueue A -> list (entry A) -> BoundedDropOldestQueue A -> Prop :=
| legal_nil q : legal q [] q
| legal_push q x d q1 l q2 : push q x = (q1, d) -> legal q1 l q2 -> legal q (DidPush x d :: l) q2
| legal_pop q r q1 l q2 : pop_blocking q = (q1, Return r) -> legal q1 l q2 -> legal q (DidPop r :: l) q2
| legal_close q l q2 : legal (close q) l q2 -> legal q (DidClose :: l) q2.

(** The results of the calls of [pop_blocking]. *)
Definition popped (l : list (entry A)) : list (option A) :=
  omap (fun e => match e with DidPop r => Some r | _ => None end) l.

(** The steps inside [pop_blocking]. *)
Definition pop_label (l : label A) : bool :=
  match l with
  | Lock | PopFront | ReadClosed | CondWait | Relock | Spurious => true
  | PushItem _ | NotifyOne | SetClosed | NotifyAll | CallAgain => false
  end.

(** The item that the consumer has in hand, and then what is queued. *)
Definition hand (c : config A) : list A :=
  match consumer c with Returned (Some x) => [x] | _ => [] end.
Definition backlog (c : config A) : list A := hand c ++ items (queue c).

(** ** Push never loses a wakeup *)

Definition no_lost_push (c : config A) : Prop :=
  (consumer c = Sleeping -> items (queue c) <> [] -> (0 < notifies c)%nat) /\
  (consumer c = AtClosed \/ consumer c = AtWait -> items (queue c) = []).

Lemma push_nonempty (q : BoundedDropOldestQueue A) x : items (fst (push q x)) <> [].
Proof. unfold push. destruct (_ <=? _); simpl; intros [_ ?]%app_nil; done. Qed.

(** Case analysis on an enabled step. *)
Ltac step_cases :=
  repeat match goal with
  | H : exec ?l (mkConfig _ ?pc _ _ _) = Some _ |- _ => destruct l; simpl in H
  | H : (if locked ?c then _ else _) = Some _ |- _ => destruct (locked c) eqn:?
  | H : (match ?x with _ => _ end) = Some _ |- _ => destruct x eqn:?
  end; simplify_eq/=.

Lemma no_lost_push_step l c c' : no_lost_push c -> exec l c = Some c' -> no_lost_push c'.
Proof.
  destruct c as [q pc n m h]. unfold no_lost_push. intros [H1 H2] Hstep. simpl in *.
  step_cases; split; intros; simplify_eq/=; try (naive_solver lia);
    try (destruct pc; simpl in *; naive_solver).
  by destruct (items q).
Qed.

Lemma reachable_no_lost_push cap c : reachable cap c -> no_lost_push c.
Proof.
  induction 1 as [|l c c' _ IH Hstep]; [by split|]. by eapply no_lost_push_step.
Qed.

Lemma reachable_queue_ok cap c :
  1 <= cap -> reachable cap c -> queue_ok (queue c) /\ capacity (queue c) = cap.
Proof.
  intros Hcap. induction 1 as [|l [q pc n m h] c' _ [Hok Hc] Hstep]; [split; [by apply new_ok|done]|].
  cbn [queue] in *. step_cases; try done.
  - pose proof (push_ok q x Hok) as Hok'. destruct (push q x) eqn:Hp; simplify_eq/=.
    split; [done|]. by unfold push in Hp; destruct (_ <=? _); simplify_eq.
  - pose proof (pop_ok q Hok) as Hok'. unfold pop_blocking in Hok'. by destruct (items q); simplify_eq/=.
Qed.

(** ** Linearizability *)

Lemma legal_app q l1 q1 l2 q2 : legal q l1 q1 -> legal q1 l2 q2 -> legal q (l1 ++ l2) q2.
Proof. induction 1; intros; cbn [app]; [done|..]; econstructor; eauto. Qed.

(** What a step logs. *)
Definition logged (l : label A) (c' : config A) (es : list (entry A)) : Prop :=
  match l with
  | PushItem x => exists d, es = [DidPush x d]
  | SetClosed => es = [DidClose]
  | PopFront | ReadClosed => es = match consumer c' with Returned r => [DidPop r] | _ => [] end
  | _ => es = []
  end.

Lemma exec_legal l c c' :
  no_lost_push c -> exec l c = Some c' ->
  exists es, log c' = log c ++ es /\ logged l c' es /\ legal (queue c) es (queue c').
Proof.
  destruct c as [q pc n m h]. intros [_ Hempty] Hstep. cbn [queue consumer log] in *.
  step_cases; try (eexists; split; [by rewrite app_nil_r|split; [done|constructor]]).
  - destruct (push q x) as [q' d] eqn:Hp. simplify_eq/=.
    eexists. split; [done|]. split; [by eexists|]. by repeat econstructor.
  - eexists. split; [done|]. split; [done|]. repeat constructor.
  - destruct (items q) eqn:Hi; simplify_eq/=. eexists. split; [done|]. split; [done|].
    econstructor; [|constructor]. unfold pop_blocking. by rewrite Hi.
  - eexists. split; [done|]. split; [done|]. econstructor; [|constructor].
    unfold pop_blocking. rewrite Hempty by by left. cbn.
    destruct q as [its cap cl]. cbn in *. subst cl. by rewrite Hempty by by left.
Qed.

(** A call of [pop_blocking] that is over is the last that was logged. *)
Definition last_pop_logged (c : config A) : Prop :=
  forall r, consumer c = Returned r -> last (popped (log c)) = Some r.

Lemma popped_other l e : (forall r, e <> DidPop r) -> popped (l ++ [e]) = popped l.
Proof. intros He. unfold popped. rewrite omap_app. destruct e; cbn; rewrite ?app_nil_r; naive_solver. Qed.

Lemma popped_pop l r : last (popped (l ++ [DidPop r])) = Some r.
Proof. unfold popped. rewrite omap_app. cbn. apply last_snoc. Qed.

Lemma last_pop_step l c c' : last_pop_logged c -> exec l c = Some c' -> last_pop_logged c'.
Proof.
  destruct c as [q pc n m h]. unfold last_pop_logged. cbn [consumer log]. intros Hl Hstep.
  step_cases; try (destruct (push q x)); simplify_eq/=; intros r Hr; simplify_eq;
    try (rewrite popped_other by done); eauto;
    try apply popped_pop;
    try (destruct pc; simplify_eq/=; eauto).
Qed.

Lemma reachable_legal cap c :
  reachable cap c -> legal (new cap) (log c) (queue c) /\ last_pop_logged c.
Proof.
  induction 1 as [|l c c' Hr [IH1 IH2] Hstep]; [split; [constructor|by intros r]|].
  split; [|by eapply last_pop_step].
  destruct (exec_legal l c c') as (es & -> & _ & Hes); [by eapply reachable_no_lost_push|done|].
  by eapply legal_app.
Qed.

Lemma exec_all_reachable cap ls c c' :
  reachable cap c -> exec_all ls c = Some c' -> reachable cap c'.
Proof.
  revert c. induction ls as [|l ls IH]; intros c Hc Hls; simpl in Hls; [by simplify_eq|].
  destruct (exec l c) as [c1|] eqn:Hl; simpl in Hls; [|done].
  eapply IH; [|done]. by econstructor.
Qed.

(** ** What each step does to the parts of a configuration *)

Lemma push_closed (q : BoundedDropOldestQueue A) x q' d : push q x = (q', d) -> closed q' = closed q.
Proof. unfold push. by destruct (_ <=? _); intros; simplify_eq. Qed.

Lemma exec_effect l c c' :
  exec l c = Some c' ->
  notifies c' = match l with PushItem _ => S (notifies c) | NotifyOne => pred (notifies c) | _ => notifies c end /\
  closes c' = match l with SetClosed => S (closes c) | NotifyAll => pred (closes c) | _ => closes c end /\
  closed (queue c') = match l with SetClosed => true | _ => closed (queue c) end.
Proof.
  destruct c as [q pc n m h]. intros Hstep. cbn [queue consumer notifies closes] in *.
  step_cases; try done. split_and!; [done..|]. by eapply push_closed.
Qed.

Lemma exec_backlog l c c' :
  exec l c = Some c' ->
  backlog c' = match l with
    | PushItem x => hand c ++ items (fst (push (queue c) x))
    | CallAgain => items (queue c)
    | _ => backlog c
    end.
Proof.
  destruct c as [q pc n m h]. unfold backlog, hand. intros Hstep. cbn [queue consumer] in *.
  step_cases; try done; try (by destruct pc). by destruct (items q); simplify_eq/=.
Qed.

(** Outside [pop_blocking] only its caller moves the consumer, but for the notifications. *)
Lemma exec_returned l c c' r :
  exec l c = Some c' -> consumer c = Returned r -> l <> CallAgain -> consumer c' = Returned r.
Proof.
  destruct c as [q pc n m h]. intros Hstep Hc Hl. cbn [consumer] in *. subst pc.
  destruct l; simpl in Hstep; try done; try (destruct (push q x)); try destruct n; try destruct m; by simplify_eq.
Qed.

Lemma reachable_none_closed cap c :
  reachable cap c -> consumer c = Returned None -> closed (queue c) = true.
Proof.
  induction 1 as [|l c c' _ IH Hstep]; [done|].
  destruct c as [q pc n m h]. cbn [queue consumer] in *. step_cases; intros Hr; simplify_eq/=; auto;
    try (destruct pc; simplify_eq/=; auto).
  erewrite push_closed by done. auto.
Qed.

(** The consumer is never stuck inside [pop_blocking] but in [wait]. *)
Lemma consumer_moves c :
  (exists l c', pop_label l = true /\ l <> Spurious /\ exec l c = Some c') \/
  consumer c = Sleeping \/ exists r, consumer c = Returned r.
Proof.
  destruct c as [q pc n m h]. destruct pc as [| | | | | |r]; cbn [consumer]; eauto; left.
  - by exists Lock; eexists.
  - exists PopFront. cbn. destruct (pop_front (items q)) as [[]]; by eexists.
  - exists ReadClosed. cbn. destruct (closed q); by eexists.
  - by exists CondWait; eexists.
  - by exists Relock; eexists.
Qed.

(** Nobody waits for the lock but while the consumer moves. *)
Lemma push_enabled c x :
  (exists c', exec (PushItem x) c = Some c') \/ exists l c', pop_label l = true /\ l <> Spurious /\ exec l c = Some c'.
Proof.
  destruct (consumer_moves c) as [Hm|Hc]; [by right|left].
  destruct c as [q pc n m h]. cbn in *. destruct (push q x) as [q' d].
  destruct Hc as [->|[r ->]]; by eexists.
Qed.

(** What the consumer has still to do before it sleeps or is done; a wakeup adds to it. *)
Definition pop_work (c : config A) : nat :=
  (3 * length (items (queue c)) +
   match consumer c with
   | AtLock | Woken => 4 | AtPop => 3 | AtClosed => 2 | AtWait => 1 | Sleeping => 0
   | Returned (Some _) => 5 | Returned None => 1
   end)%nat.

Lemma pop_work_less l c c' :
  exec l c = Some c' -> pop_label l = true -> l <> Spurious -> (pop_work c' < pop_work c)%nat.
Proof.
  destruct c as [q pc n m h]. intros Hstep Hl Hs. step_cases; try done; unfold pop_work; cbn [queue consumer items]; try lia.
  match goal with H : pop_front _ = _ |- _ => rewrite pop_front_eq in H end.
  destruct (items q); [done|]. simplify_eq. cbn [length tail]. lia.
Qed.

Lemma pop_work_again c c' : exec CallAgain c = Some c' -> (pop_work c' < pop_work c)%nat.
Proof.
  destruct c as [q pc n m h]. unfold pop_work. intros Hstep. cbn [exec queue consumer] in *.
  destruct pc as [| | | | | |[x|]]; simplify_eq. cbn [queue consumer]. lia.
Qed.

(** The items that the consumer was given. *)
Definition taken (c : config A) : list A := omap (fun r => r) (popped (log c)).

Lemma popped_app l1 l2 : popped (l1 ++ l2) = popped l1 ++ popped l2.
Proof. apply omap_app. Qed.

(** What it is given it has in hand, until it calls [pop_blocking] again. *)
Lemma exec_taken l c c' :
  exec l c = Some c' ->
  match l with
  | CallAgain => hand c' = [] /\ taken c' = taken c
  | _ => exists xs, hand c' = hand c ++ xs /\ taken c' = taken c ++ xs
  end.
Proof.
  destruct c as [q pc n m h]. intros Hstep. unfold taken. cbn [log].
  step_cases; try done; try (exists []; rewrite ?popped_app, ?omap_app, ?app_nil_r; split; by destruct pc || done).
  eexists [_]. split; [done|]. by rewrite popped_app, omap_app.
Qed.

Lemma exec_log l c c' : exec l c = Some c' -> log c `prefix_of` log c'.
Proof.
  destruct c as [q pc n m h]. intros Hstep. cbn [log] in *. step_cases; try done; by eexists.
Qed.

(** ** Close can lose its wakeup *)

(** The steps that only a new call of [push] or [close], or a spurious wakeup,
    can make. *)
Definition external (l : label A) : bool :=
  match l with PushItem _ | SetClosed | Spurious => true | _ => false end.

(** The interleaving: the consumer reads [closed = false]; the flag is set and
    everyone is notified; then the consumer goes to sleep. *)
Definition lost_close : list (label A) :=
  [Lock; PopFront; ReadClosed; SetClosed; NotifyAll; CondWait].

Definition stuck (c : config A) : Prop :=
  closed (queue c) = true /\ consumer c = Sleeping /\
  forall l, external l = false -> exec l c = None.

(** Whoever makes a step on it, but for a spurious wakeup, logs a new call. *)
Lemma stuck_moves l c c' : stuck c -> exec l c = Some c' -> l = Spurious \/ log c' <> log c.
Proof.
  intros (_ & _ & Hs) Hstep. destruct l; try (by rewrite Hs in Hstep); [right|right|by left];
    destruct c as [q pc n m h]; cbn in *; step_cases; intros He; apply (f_equal length) in He;
    rewrite length_app in He; cbn in He; lia.
Qed.

Lemma lost_close_stuck cap :
  exec_all lost_close (init cap) =
    Some (mkConfig (mkQueue [] cap true) Sleeping 0 0 [DidClose]) /\
  stuck (mkConfig (mkQueue [] cap true) Sleeping 0 0 [DidClose]).
Proof. split; [done|]. split_and!; try done. by intros []. Qed.

(** A closer that finds the consumer already asleep does wake it up. *)
Definition close_asleep : list (label A) := [SetClosed; NotifyAll; Relock; PopFront; ReadClosed].

Lemma close_wakes_sleeper c :
  consumer c = Sleeping -> items (queue c) = [] ->
  exists c', exec_all close_asleep c = Some c' /\ consumer c' = Returned None.
Proof.
  destruct c as [q pc n m h]. simpl. intros -> Hi. unfold close_asleep.
  simpl. rewrite Hi. simpl. eauto.
Qed.
End concurrency.
