(* ===== verification/Broker.v ===== *)
(** * The broker actor (src/broker.rs, lines 57 to 294)

    [run_broker]'s registry and its five message handlers.  A handler returns the
    new registry and the [outbound.push] calls it makes, in order; a queue handle
    is the location of a shared queue, so that two clones of one handle are one
    location.  The iteration order of a [HashMap] is a parameter, [HashOrder], one
    for every message handled. *)

From S2P Require Import Prelude Packets Topics Queue.

Abbreviation ConnectionId := Z (only parsing).
(** The location of a queue: an [Arc]. *)
Abbreviation QueueHandle := Z (only parsing).

Definition DEFAULT_CLIENT_QUEUE_CAPACITY : Z := 128.

(** [NEXT_CONNECTION_ID.fetch_add(1)] on the counter's value: the id and the new
    value. *)
Definition NEXT_CONNECTION_ID : Z := 1.
Definition next_connection_id (counter : Z) : ConnectionId * Z :=
  (counter, (counter + 1) mod 2 ^ 64).

Inductive OutboundEvent : Type :=
| Packet (p : MqttPacket).

Inductive BrokerMessage : Type :=
| MsgRegister (id : ConnectionId) (cid : rstring) (outbound : QueueHandle)
| MsgSubscribe (id : ConnectionId) (t : rstring)
| MsgUnsubscribe (id : ConnectionId) (t : rstring)
| MsgPublish (from : ConnectionId) (packet : PublishPacket)
| MsgDisconnect (id : ConnectionId).

Record ClientState : Type := mkClient {
  state_client_id : rstring;
  outbound : QueueHandle;
}.

(** The three maps of [run_broker]. *)
Record broker_state : Type := mkBroker {
  clients : gmap ConnectionId ClientState;
  topics : gmap rstring (list ConnectionId);
  retained : gmap rstring PublishPacket;
}.

(** A call [outbound.push(event)]. *)
Abbreviation push_call := (QueueHandle * OutboundEvent)%type (only parsing).

(** The order in which a [HashMap] is iterated: unspecified, every entry once. *)
Class HashOrder : Type := {
  hash_iter : forall {V : Type}, gmap rstring V -> list (rstring * V);
  hash_iter_perm : forall {V : Type} (m : gmap rstring V), hash_iter m ≡ₚ map_to_list m;
}.

#[export] Program Instance key_order : HashOrder :=
  {| hash_iter := fun V m => map_to_list m |}.
Next Obligation. done. Qed.

(** [pkt.retain = true] on a clone. *)
Definition mark_retained (p : PublishPacket) : PublishPacket :=
  mkPublish (topic p) (payload p) (qos p) true (pub_packet_id p).

Definition init_broker : broker_state := mkBroker ∅ ∅ ∅.

Section handlers.
  Context {order : HashOrder}.

Definition handle_register (id : ConnectionId) (cid : rstring) (out : QueueHandle) (st : broker_state)
    : broker_state :=
  mkBroker (<[id := mkClient cid out]> (clients st)) (topics st) (retained st).

(** The replay of retained messages to a new subscription. *)
Definition replay (client : ClientState) (t : rstring) (ret : gmap rstring PublishPacket)
    : list push_call :=
  if is_wildcard_filter t then
    let matches :=
      filter (fun p => topic_matches_filter (topic p) t = true) (map snd (hash_iter ret)) in
    map (fun pkt => (outbound client, Packet (Publish (mark_retained pkt)))) matches
  else
    match ret !! t with
    | Some pkt => [(outbound client, Packet (Publish (mark_retained pkt)))]
    | None => []
    end.

Definition handle_subscribe (id : ConnectionId) (t : rstring) (st : broker_state)
    : broker_state * list push_call :=
  let subs := default [] (topics st !! t) in
  let subs := if bool_decide (id ∈ subs) then subs else subs ++ [id] in
  let st' := mkBroker (clients st) (<[t := subs]> (topics st)) (retained st) in
  match clients st !! id with
  | Some client => (st', replay client t (retained st))
  | None => (st', [])
  end.

Definition without (id : ConnectionId) (subs : list ConnectionId) : list ConnectionId :=
  filter (fun sid => sid <> id) subs.

Definition handle_unsubscribe (id : ConnectionId) (t : rstring) (st : broker_state) : broker_state :=
  match topics st !! t with
  | Some subs => mkBroker (clients st) (<[t := without id subs]> (topics st)) (retained st)
  | None => st
  end.

Definition update_retained (packet : PublishPacket) (ret : gmap rstring PublishPacket)
    : gmap rstring PublishPacket :=
  if retain packet then
    if bool_decide (payload packet = []) then delete (topic packet) ret
    else <[topic packet := packet]> ret
  else ret.

(** The two passes over a list of subscribers; the state is [notified] and the
    pushes made so far.  The exact pass does not look at [notified]. *)
Definition exact_pass (cs : gmap ConnectionId ClientState) (packet : PublishPacket)
    (acc : list ConnectionId * list push_call) (sid : ConnectionId)
    : list ConnectionId * list push_call :=
  let '(notified, out) := acc in
  match cs !! sid with
  | Some client => (notified ++ [sid], out ++ [(outbound client, Packet (Publish packet))])
  | None => acc
  end.

Definition wildcard_pass (cs : gmap ConnectionId ClientState) (packet : PublishPacket)
    (acc : list ConnectionId * list push_call) (sid : ConnectionId)
    : list ConnectionId * list push_call :=
  let '(notified, out) := acc in
  if bool_decide (sid ∈ notified) then acc
  else
    match cs !! sid with
    | Some client => (notified ++ [sid], out ++ [(outbound client, Packet (Publish packet))])
    | None => acc
    end.

Definition wildcard_entry (cs : gmap ConnectionId ClientState) (packet : PublishPacket)
    (acc : list ConnectionId * list push_call) (entry : rstring * list ConnectionId)
    : list ConnectionId * list push_call :=
  let '(filter, subs) := entry in
  if negb (is_wildcard_filter filter) then acc
  else if negb (topic_matches_filter (topic packet) filter) then acc
  else foldl (wildcard_pass cs packet) acc subs.

Definition fan_out (cs : gmap ConnectionId ClientState) (ts : gmap rstring (list ConnectionId))
    (packet : PublishPacket) : list ConnectionId * list push_call :=
  let acc := ([], []) in
  let acc :=
    match ts !! topic packet with
    | Some subs => foldl (exact_pass cs packet) acc subs
    | None => acc
    end in
  foldl (wildcard_entry cs packet) acc (hash_iter ts).

Definition handle_publish (packet : PublishPacket) (st : broker_state)
    : broker_state * list push_call :=
  let st' := mkBroker (clients st) (topics st) (update_retained packet (retained st)) in
  (st', snd (fan_out (clients st) (topics st) packet)).

Definition handle_disconnect (id : ConnectionId) (st : broker_state) : broker_state :=
  mkBroker (delete id (clients st)) (without id <$> topics st) (retained st).

(** One iteration of [for msg in rx]. *)
Definition handle (msg : BrokerMessage) (st : broker_state) : broker_state * list push_call :=
  match msg with
  | MsgRegister id cid out => (handle_register id cid out st, [])
  | MsgSubscribe id t => handle_subscribe id t st
  | MsgUnsubscribe id t => (handle_unsubscribe id t st, [])
  | MsgPublish _ packet => handle_publish packet st
  | MsgDisconnect id => (handle_disconnect id st, [])
  end.
End handlers.

(** [run_broker] from a state, [orders n] being the iteration order while the
    [n]-th message is handled: the registry when the channel closes, and the
    pushes made for each message. *)
Fixpoint run_from (orders : nat -> HashOrder) (msgs : list BrokerMessage) (st : broker_state)
    : broker_state * list (list push_call) :=
  match msgs with
  | [] => (st, [])
  | msg :: msgs' =>
      let '(st1, out) := handle (order := orders O) msg st in
      let '(st2, outs) := run_from (fun n => orders (S n)) msgs' st1 in
      (st2, out :: outs)
  end.

Definition run_broker (orders : nat -> HashOrder) (msgs : list BrokerMessage)
    : broker_state * list (list push_call) :=
  run_from orders msgs init_broker.

(** The effect of pushes on the shared queues. *)
Abbreviation store := (gmap QueueHandle (BoundedDropOldestQueue OutboundEvent)).

Definition push_event (m : store) (c : push_call) : store :=
  alter (fun q => fst (push q (snd c))) (fst c) m.

Definition push_events (m : store) (cs : list push_call) : store := foldl push_event m cs.
