(* ===== verification/BrokerSpec.v ===== *)
(** * What the broker promises (src/broker.rs, lines 155 to 294)

    The contract of [run_broker] as a function of the messages it has received,
    with no mention of its maps: who is connected, who is subscribed to what and
    which message is retained are each decided by the latest message that bears on
    the question ([latest]), and [delivers] says what one more message makes the
    broker push.  The registry of [Broker] refines it: [represents] holds after
    every run, and every handler's pushes are those of [delivers]. *)

From S2P Require Import Prelude Packets Topics Queue Broker.

(** ** The latest message that bears on a question *)

(** [eff msg] is what [msg] changes the answer to, [None] when it does not. *)
Definition latest_step {V} (eff : BrokerMessage -> option (option V)) (r : option V)
    (msg : BrokerMessage) : option V :=
  match eff msg with Some r' => r' | None => r end.

Definition latest {V} (eff : BrokerMessage -> option (option V)) (h : list BrokerMessage) : option V :=
  foldl (latest_step eff) None h.

Definition client_effect (id : ConnectionId) (msg : BrokerMessage) : option (option ClientState) :=
  match msg with
  | MsgRegister id' cid out => if id' =? id then Some (Some (mkClient cid out)) else None
  | MsgDisconnect id' => if id' =? id then Some None else None
  | _ => None
  end.

Definition subscription_effect (id : ConnectionId) (f : rstring) (msg : BrokerMessage)
    : option (option unit) :=
  match msg with
  | MsgSubscribe id' f' => if (id' =? id) && bool_decide (f' = f) then Some (Some tt) else None
  | MsgUnsubscribe id' f' => if (id' =? id) && bool_decide (f' = f) then Some None else None
  | MsgDisconnect id' => if id' =? id then Some None else None
  | _ => None
  end.

Definition retained_effect (t : rstring) (msg : BrokerMessage) : option (option PublishPacket) :=
  match msg with
  | MsgPublish _ p =>
      if retain p && bool_decide (topic p = t)
      then Some (if bool_decide (payload p = []) then None else Some p)
      else None
  | _ => None
  end.

Definition connected (h : list BrokerMessage) (id : ConnectionId) : option ClientState :=
  latest (client_effect id) h.
Definition subscribed (h : list BrokerMessage) (id : ConnectionId) (f : rstring) : Prop :=
  latest (subscription_effect id f) h = Some tt.
Definition retained_for (h : list BrokerMessage) (t : rstring) : option PublishPacket :=
  latest (retained_effect t) h.

(** A connected client with a subscription that matches the topic. *)
Definition interested (h : list BrokerMessage) (t : rstring) (id : ConnectionId) : Prop :=
  is_Some (connected h id) /\ exists f, subscribed h id f /\ topic_matches_filter t f = true.

(** The retained messages that a filter matches. *)
Definition replayed (h : list BrokerMessage) (f : rstring) (p : PublishPacket) : Prop :=
  retained_for h (topic p) = Some p /\ topic_matches_filter (topic p) f = true.

(** The pushes of one packet to each of [ids]. *)
Definition push_to (h : list BrokerMessage) (p : PublishPacket) (ids : list ConnectionId)
    : list push_call :=
  omap (fun id => c ← connected h id; Some (outbound c, Packet (Publish p))) ids.

(** What the broker pushes for [msg] after the history [h]. *)
Definition delivers (h : list BrokerMessage) (msg : BrokerMessage) (out : list push_call) : Prop :=
  match msg with
  | MsgPublish _ p =>
      exists ids, NoDup ids /\ (forall id, id ∈ ids <-> interested h (topic p) id) /\
                  out = push_to h p ids
  | MsgSubscribe id f =>
      match connected h id with
      | None => out = []
      | Some c =>
          exists ps, NoDup ps /\ (forall p, p ∈ ps <-> replayed h f p) /\
                     out = map (fun p => (outbound c, Packet (Publish (mark_retained p)))) ps
      end
  | _ => out = []
  end.

Lemma latest_snoc {V} (eff : BrokerMessage -> option (option V)) h msg :
  latest eff (h ++ [msg]) = latest_step eff (latest eff h) msg.
Proof. unfold latest. by rewrite foldl_app. Qed.

Lemma latest_irrelevant {V} (eff : BrokerMessage -> option (option V)) h1 h2 :
  Forall (fun msg => eff msg = None) h2 -> latest eff (h1 ++ h2) = latest eff h1.
Proof.
  unfold latest. rewrite foldl_app. generalize (foldl (latest_step eff) None h1).
  intros r H. revert r. induction H as [|msg h2 Hm _ IH]; intros r; [done|].
  simpl. unfold latest_step at 2. rewrite Hm. apply IH.
Qed.

(** [latest] reads: some message set the answer, and none after it bears on the
    question. *)
Lemma latest_Some {V} (eff : BrokerMessage -> option (option V)) h v :
  latest eff h = Some v <->
  exists h1 msg h2, h = h1 ++ msg :: h2 /\ eff msg = Some (Some v) /\
                    Forall (fun msg => eff msg = None) h2.
Proof.
  split.
  - induction h as [|msg h IH] using rev_ind; [done|].
    rewrite latest_snoc. unfold latest_step. destruct (eff msg) as [r|] eqn:Hm.
    + intros ->. exists h, msg, []. by split_and!.
    + intros (h1 & m & h2 & -> & Hm' & Hh2)%IH. exists h1, m, (h2 ++ [msg]).
      split_and!; [by rewrite <- app_assoc|done|]. apply Forall_app. split; [done|by constructor].
  - intros (h1 & msg & h2 & -> & Hm & Hh2).
    change (msg :: h2) with ([msg] ++ h2). rewrite app_assoc, latest_irrelevant by done.
    rewrite latest_snoc. unfold latest_step. by rewrite Hm.
Qed.

(** A retained message was published. *)
Lemma retained_was_published h t p :
  retained_for h t = Some p -> exists from, MsgPublish from p ∈ h /\ topic p = t.
Proof.
  intros (h1 & msg & h2 & -> & Hm & _)%latest_Some.
  destruct msg as [| | |from q|]; simpl in Hm; try discriminate Hm.
  destruct (retain q); simpl in Hm; [|discriminate Hm]. repeat (case_bool_decide; simplify_eq).
  exists from. split; [|done]. apply elem_of_app. right. left.
Qed.

(** Messages that do not bear on the question may be left out. *)
Lemma latest_filter {V} (eff : BrokerMessage -> option (option V)) (P : BrokerMessage -> Prop)
    `{!forall msg, Decision (P msg)} h :
  (forall msg, eff msg <> None -> P msg) -> latest eff (filter P h) = latest eff h.
Proof.
  intros HP. induction h as [|msg h IH] using rev_ind; [done|].
  rewrite filter_app, filter_cons. destruct (decide (P msg)) as [Hm|Hm].
  - by rewrite filter_nil, !latest_snoc, IH.
  - rewrite filter_nil, app_nil_r, latest_snoc, IH. unfold latest_step.
    destruct (eff msg) eqn:He; [|done]. destruct Hm. apply HP. by rewrite He.
Qed.

(** ** The registry's invariant, and what it represents *)

Record broker_ok (st : broker_state) : Prop := {
  subs_NoDup f subs : topics st !! f = Some subs -> NoDup subs;
  retained_key t p : retained st !! t = Some p -> topic p = t;
  retained_set t p : retained st !! t = Some p -> retain p = true /\ payload p <> [];
}.

Definition subscriber (st : broker_state) (id : ConnectionId) (f : rstring) : Prop :=
  exists subs, topics st !! f = Some subs /\ id ∈ subs.

Record represents (h : list BrokerMessage) (st : broker_state) : Prop := {
  rep_clients id : clients st !! id = connected h id;
  rep_topics id f : subscriber st id f <-> subscribed h id f;
  rep_retained t : retained st !! t = retained_for h t;
}.

Lemma init_broker_ok : broker_ok init_broker.
Proof. by split. Qed.

Lemma init_represents : represents [] init_broker.
Proof. split; [done| |done]. intros id f. split; [by intros (? & ? & _)|done]. Qed.

Lemma elem_of_without id x subs : x ∈ without id subs <-> x <> id /\ x ∈ subs.
Proof. unfold without. by rewrite list_elem_of_filter. Qed.

Lemma NoDup_without id subs : NoDup subs -> NoDup (without id subs).
Proof. unfold without. by apply NoDup_filter. Qed.

Section steps.
  Context {order : HashOrder}.

Definition after (msg : BrokerMessage) (st : broker_state) : broker_state := fst (handle msg st).

Lemma after_subscribe id t st :
  after (MsgSubscribe id t) st =
  mkBroker (clients st)
    (<[t := let subs := default [] (topics st !! t) in
            if bool_decide (id ∈ subs) then subs else subs ++ [id]]> (topics st)) (retained st).
Proof. unfold after. simpl. unfold handle_subscribe. by destruct (clients st !! id). Qed.

Lemma update_retained_key p ret t :
  update_retained p ret !! t =
  match retained_effect t (MsgPublish 0 p) with Some r => r | None => ret !! t end.
Proof.
  unfold update_retained. simpl. destruct (retain p); simpl; [|done].
  destruct (bool_decide_reflect (topic p = t)) as [<-|Hn]; case_bool_decide;
    by rewrite ?lookup_delete_eq, ?lookup_insert_eq, ?lookup_delete_ne, ?lookup_insert_ne.
Qed.

Lemma after_ok msg st : broker_ok st -> broker_ok (after msg st).
Proof.
  intros [Hn Hk Hs]. destruct msg as [id cid out|id t|id t|from p|id].
  - by split.
  - rewrite after_subscribe. split; simpl; try done. intros f subs.
    rewrite lookup_insert_Some. intros [[-> <-]|[_ ?]]; [|eauto].
    assert (Hd : NoDup (default [] (topics st !! f))).
    { destruct (topics st !! f) eqn:Hf; simpl; [eauto|constructor]. }
    case_bool_decide; [done|]. apply NoDup_app. split_and!; [done| |apply NoDup_singleton].
    intros x Hx Hx'%list_elem_of_singleton. by subst.
  - unfold after. simpl. unfold handle_unsubscribe. destruct (topics st !! t) as [subs|] eqn:Ht; [|by split].
    split; simpl; try done. intros f subs'. rewrite lookup_insert_Some.
    intros [[-> <-]|[_ ?]]; [|eauto]. apply NoDup_without. eauto.
  - unfold after. simpl. split; simpl; [done| |]; intros t q; rewrite update_retained_key; simpl;
      destruct (retain p) eqn:Hr; simpl; eauto;
      destruct (bool_decide_reflect (topic p = t)); eauto; case_bool_decide; naive_solver.
  - unfold after. simpl. split; simpl; try done. intros f subs. rewrite lookup_fmap_Some.
    intros (subs' & <- & ?). apply NoDup_without. eauto.
Qed.

Lemma after_clients msg st id :
  clients (after msg st) !! id =
  match client_effect id msg with Some r => r | None => clients st !! id end.
Proof.
  destruct msg as [id' cid out|id' t|id' t|from p|id']; [|by rewrite after_subscribe| |done|].
  - unfold after. simpl. destruct (Z.eqb_spec id' id) as [->|].
    + by rewrite lookup_insert_eq.
    + by rewrite lookup_insert_ne.
  - unfold after. simpl. unfold handle_unsubscribe. by destruct (topics st !! t).
  - unfold after. simpl. destruct (Z.eqb_spec id' id) as [->|].
    + by rewrite lookup_delete_eq.
    + by rewrite lookup_delete_ne.
Qed.

Lemma after_retained msg st t :
  retained (after msg st) !! t =
  match retained_effect t msg with Some r => r | None => retained st !! t end.
Proof.
  destruct msg as [| | |from p|]; try done.
  - by rewrite after_subscribe.
  - unfold after. simpl. unfold handle_unsubscribe. by destruct (topics st !! _).
  - unfold after. simpl. apply update_retained_key.
Qed.

(** Replacing the subscribers of one filter. *)
Lemma subscriber_insert st cs ret t subs id f :
  subscriber (mkBroker cs (<[t := subs]> (topics st)) ret) id f <->
  (if bool_decide (t = f) then id ∈ subs else subscriber st id f).
Proof.
  unfold subscriber. simpl. case_bool_decide as Hf; [subst f|].
  - setoid_rewrite lookup_insert_eq. naive_solver.
  - by rewrite lookup_insert_ne by done.
Qed.

Lemma after_subscriber msg st id f :
  subscriber (after msg st) id f <->
  match subscription_effect id f msg with
  | Some r => r = Some tt
  | None => subscriber st id f
  end.
Proof.
  destruct msg as [id' cid out|id' t|id' t|from p|id']; try done.
  - rewrite after_subscribe, subscriber_insert. cbn [subscription_effect].
    unfold subscriber.
    destruct (bool_decide_reflect (t = f)) as [->|]; rewrite ?andb_false_r, ?andb_true_r; [|done].
    assert (Hin : (exists subs, topics st !! f = Some subs /\ id ∈ subs) <->
                  id ∈ default [] (topics st !! f)).
    { destruct (topics st !! f); simpl; [naive_solver|]. split; [naive_solver|by intros ?%elem_of_nil]. }
    cbn zeta. destruct (Z.eqb_spec id' id) as [->|]; case_bool_decide;
      rewrite ?Hin, ?elem_of_app, ?list_elem_of_singleton; naive_solver.
  - unfold after. simpl. unfold handle_unsubscribe. destruct (topics st !! t) as [subs|] eqn:Ht.
    + cbn [subscription_effect]. rewrite subscriber_insert. unfold subscriber.
      destruct (bool_decide_reflect (t = f)) as [->|]; rewrite ?andb_false_r, ?andb_true_r; [|done].
      rewrite Ht, elem_of_without. destruct (Z.eqb_spec id' id) as [->|]; naive_solver.
    + unfold subscriber. destruct (Z.eqb_spec id' id) as [->|], (bool_decide_reflect (t = f)) as [->|];
        simpl; try done. rewrite Ht. naive_solver.
  - unfold after, subscriber. simpl. setoid_rewrite lookup_fmap_Some.
    destruct (Z.eqb_spec id' id) as [->|].
    + split; [|done]. intros (subs & (subs' & <- & _) & Hin). by apply elem_of_without in Hin as [? _].
    + split.
      * intros (subs & (subs' & <- & ?) & Hin%elem_of_without). naive_solver.
      * intros (subs & ? & Hin). exists (without id' subs). split; [eauto|].
        apply elem_of_without. by split; [congruence|].
Qed.

Lemma after_represents h msg st :
  represents h st -> represents (h ++ [msg]) (after msg st).
Proof.
  intros [Hc Ht Hr]. split.
  - intros id. unfold connected. rewrite latest_snoc, after_clients. unfold latest_step.
    destruct (client_effect id msg); [done|apply Hc].
  - intros id f. unfold subscribed. rewrite latest_snoc, after_subscriber. unfold latest_step.
    destruct (subscription_effect id f msg); [done|apply Ht].
  - intros t. unfold retained_for. rewrite latest_snoc, after_retained. unfold latest_step.
    destruct (retained_effect t msg); [done|apply Hr].
Qed.
End steps.

(** ** The fan-out *)

Section fan_out.
  Context (cs : gmap ConnectionId ClientState) (p : PublishPacket).

Definition pushes (ids : list ConnectionId) : list push_call :=
  omap (fun id => c ← cs !! id; Some (outbound c, Packet (Publish p))) ids.

(** The state of the two passes when they have seen the subscribers in [P]. *)
Definition fan_ok (acc : list ConnectionId * list push_call) (P : ConnectionId -> Prop) : Prop :=
  NoDup (fst acc) /\ snd acc = pushes (fst acc) /\
  forall id, id ∈ fst acc <-> is_Some (cs !! id) /\ P id.

Lemma fan_ok_ext acc P Q : (forall id, P id <-> Q id) -> fan_ok acc P -> fan_ok acc Q.
Proof. intros HPQ (? & ? & H). split_and!; [done..|]. intros id. by rewrite H, HPQ. Qed.

Lemma wildcard_pass_ok acc P sid :
  fan_ok acc P -> fan_ok (wildcard_pass cs p acc sid) (fun id => P id \/ id = sid).
Proof.
  destruct acc as [notified out]. intros (Hn & Ho & Hin). cbn [fst snd] in *. subst out.
  unfold wildcard_pass. case_bool_decide as Hsid; [|destruct (cs !! sid) as [c|] eqn:Hc].
  - split_and!; [done..|]. intros id. simpl. rewrite Hin. apply Hin in Hsid. naive_solver.
  - split_and!; cbn [fst snd].
    + apply NoDup_app. split_and!; [done| |apply NoDup_singleton].
      intros x Hx ->%list_elem_of_singleton. done.
    + unfold pushes. rewrite omap_app. simpl. by rewrite Hc.
    + intros id. rewrite elem_of_app, list_elem_of_singleton, Hin.
      split; [|naive_solver]. intros [?| ->]; [naive_solver|]. rewrite Hc. eauto.
  - split_and!; [done..|]. intros id. simpl. rewrite Hin. split; [naive_solver|].
    intros [[? ?] [?| ->]]; [naive_solver|congruence].
Qed.

Lemma wildcard_passes_ok subs acc P :
  fan_ok acc P -> fan_ok (foldl (wildcard_pass cs p) acc subs) (fun id => P id \/ id ∈ subs).
Proof.
  revert acc P. induction subs as [|sid subs IH]; intros acc P Hacc; simpl.
  - eapply fan_ok_ext; [|done]. set_solver.
  - eapply fan_ok_ext; [|by apply IH, wildcard_pass_ok]. set_solver.
Qed.

(** The exact pass needs no look at [notified]: its subscribers have no
    duplicates. *)
Lemma exact_is_wildcard subs notified out :
  NoDup subs -> (forall id, id ∈ subs -> id ∉ notified) ->
  foldl (exact_pass cs p) (notified, out) subs = foldl (wildcard_pass cs p) (notified, out) subs.
Proof.
  revert notified out. induction subs as [|sid subs IH]; intros notified out Hn Hd; [done|].
  apply NoDup_cons in Hn as [Hsid Hn]. cbn [foldl].
  assert (Hs : exact_pass cs p (notified, out) sid = wildcard_pass cs p (notified, out) sid).
  { simpl. rewrite bool_decide_eq_false_2; [done|]. apply Hd. left. }
  rewrite Hs. destruct (wildcard_pass cs p (notified, out) sid) as [n' o'] eqn:Hw.
  apply IH; [done|]. intros id Hid Hid'. simpl in Hw.
  rewrite bool_decide_eq_false_2 in Hw by (apply Hd; left).
  destruct (cs !! sid); simplify_eq; [|by apply (Hd id); [right|]].
  apply elem_of_app in Hid' as [?| ->%list_elem_of_singleton]; [|done]. by apply (Hd id); [right|].
Qed.

Lemma wildcard_entries_ok es acc P :
  fan_ok acc P ->
  fan_ok (foldl (wildcard_entry cs p) acc es)
    (fun id => P id \/ exists f subs, (f, subs) ∈ es /\ is_wildcard_filter f = true /\
                       topic_matches_filter (topic p) f = true /\ id ∈ subs).
Proof.
  revert acc P. induction es as [|[f subs] es IH]; intros acc P Hacc; cbn [foldl].
  - eapply fan_ok_ext; [|done]. set_solver.
  - assert (H1 : fan_ok (wildcard_entry cs p acc (f, subs))
                  (fun id => P id \/ (is_wildcard_filter f = true /\
                     topic_matches_filter (topic p) f = true /\ id ∈ subs))).
    { unfold wildcard_entry. destruct (is_wildcard_filter f); simpl;
        [destruct (topic_matches_filter (topic p) f); simpl|].
      2,3: eapply fan_ok_ext; [|done]; naive_solver.
      eapply fan_ok_ext; [|by apply wildcard_passes_ok]. naive_solver. }
    eapply fan_ok_ext; [|by apply IH, H1]. intros id. setoid_rewrite elem_of_cons. naive_solver.
Qed.

Lemma fan_out_ok {order : HashOrder} ts :
  (forall f subs, ts !! f = Some subs -> NoDup subs) ->
  fan_ok (fan_out cs ts p)
    (fun id => exists f subs, ts !! f = Some subs /\ id ∈ subs /\
                 topic_matches_filter (topic p) f = true).
Proof.
  intros Hts. unfold fan_out. cbn zeta.
  assert (Hentry : forall e, e ∈ hash_iter ts <-> ts !! (fst e) = Some (snd e)).
  { intros [f subs]. rewrite hash_iter_perm. apply elem_of_map_to_list. }
  assert (Hinit : fan_ok ([], []) (fun _ => False)) by (split_and!; [constructor|done|set_solver]).
  assert (Hexact : fan_ok (match ts !! topic p with
                           | Some subs => foldl (exact_pass cs p) ([], []) subs
                           | None => ([], [])
                           end)
            (fun id => exists subs, ts !! topic p = Some subs /\ id ∈ subs)).
  { destruct (ts !! topic p) as [subs|] eqn:Ht.
    - rewrite exact_is_wildcard by (eauto || set_solver).
      eapply fan_ok_ext; [|by apply wildcard_passes_ok]. naive_solver.
    - eapply fan_ok_ext; [|done]. naive_solver. }
  eapply fan_ok_ext; [|by apply wildcard_entries_ok, Hexact].
  intros id. setoid_rewrite Hentry. simpl. split.
  - intros [(subs & ? & ?)|(f & subs & ? & ? & ? & ?)]; [|naive_solver].
    exists (topic p), subs. split_and!; [done..|]. apply topic_matches_filter_spec, levels_match_refl.
  - intros (f & subs & Hf & Hid & Hm). destruct (is_wildcard_filter f) eqn:Hw; [right; naive_solver|].
    left. apply topic_matches_exact in Hm; [|done]. naive_solver.
Qed.
End fan_out.

(** ** The replay *)

Lemma replay_ok {order : HashOrder} c f ret :
  (forall t p, ret !! t = Some p -> topic p = t) ->
  exists ps, NoDup ps /\
    (forall p, p ∈ ps <-> ret !! topic p = Some p /\ topic_matches_filter (topic p) f = true) /\
    replay c f ret = map (fun p => (outbound c, Packet (Publish (mark_retained p)))) ps.
Proof.
  intros Hkey. unfold replay. destruct (is_wildcard_filter f) eqn:Hw.
  - eexists. split_and!; [| |done].
    + apply NoDup_filter. rewrite hash_iter_perm. apply NoDup_fmap_2_strong; [|apply NoDup_map_to_list].
      intros [t1 p1] [t2 p2] H1%elem_of_map_to_list H2%elem_of_map_to_list. simpl. intros <-.
      apply Hkey in H1, H2. congruence.
    + intros p. rewrite list_elem_of_filter, hash_iter_perm.
      assert (Hin : p ∈ map snd (map_to_list ret) <-> ret !! topic p = Some p); [|naive_solver].
      rewrite list_elem_of_fmap. split.
      * intros ([t q] & -> & Ht%elem_of_map_to_list). simpl. by rewrite (Hkey t q Ht).
      * intros ?. exists (topic p, p). split; [done|]. by apply elem_of_map_to_list.
  - destruct (ret !! f) as [q|] eqn:Hq.
    + exists [q]. split_and!; [apply NoDup_singleton| |done]. intros p.
      rewrite list_elem_of_singleton, topic_matches_exact by done.
      split; [intros ->|intros [? <-]; congruence]. split; [|by eapply Hkey]. by rewrite (Hkey f q Hq).
    + exists []. split_and!; [constructor| |done]. intros p.
      rewrite topic_matches_exact by done. split; [by intros ?%elem_of_nil|]. intros [? <-]. congruence.
Qed.

(** ** Every handler refines the contract *)

Lemma handle_delivers {order : HashOrder} h st msg :
  broker_ok st -> represents h st -> delivers h msg (snd (handle msg st)).
Proof.
  intros [Hn Hk _] [Hc Ht Hr]. destruct msg as [id cid out|id t|id t|from p|id]; try done.
  - simpl. rewrite <- (Hc id). unfold handle_subscribe. destruct (clients st !! id) as [c|]; [|done].
    destruct (replay_ok c t (retained st) Hk) as (ps & Hps & Hin & ->).
    exists ps. split_and!; [done| |done]. intros p. unfold replayed. by rewrite Hin, Hr.
  - destruct (fan_out_ok (clients st) p (topics st) Hn) as (Hnd & Hout & Hin). simpl.
    exists (fst (fan_out (clients st) (topics st) p)). split_and!; [done| |].
    + intros id. rewrite Hin. unfold interested. rewrite Hc. setoid_rewrite <- Ht.
      unfold subscriber. naive_solver.
    + rewrite Hout. unfold pushes, push_to. apply list_omap_ext, Forall2_same_length_lookup_2; [done|].
      intros i x y ? ?. simplify_eq. by rewrite Hc.
Qed.

Lemma run_from_snoc orders msgs msg st :
  run_from orders (msgs ++ [msg]) st =
  let '(st1, outs) := run_from orders msgs st in
  let '(st2, out) := handle (order := orders (length msgs)) msg st1 in
  (st2, outs ++ [out]).
Proof.
  revert orders st. induction msgs as [|m msgs IH]; intros orders st; simpl.
  - by destruct (handle msg st).
  - destruct (handle m st) as [st1 out1]. rewrite IH.
    destruct (run_from _ msgs st1) as [st2 outs]. by destruct (handle msg st2).
Qed.

Lemma run_broker_refines orders msgs :
  let '(st, outs) := run_broker orders msgs in
  broker_ok st /\ represents msgs st /\ length outs = length msgs /\
  forall n msg, msgs !! n = Some msg ->
    exists out, outs !! n = Some out /\ delivers (take n msgs) msg out.
Proof.
  unfold run_broker. induction msgs as [|msg msgs IH] using rev_ind.
  - simpl. split_and!; [apply init_broker_ok|apply init_represents|done|done].
  - rewrite run_from_snoc. destruct (run_from orders msgs init_broker) as [st outs].
    destruct IH as (Hok & Hrep & Hlen & Hdel).
    pose proof (after_ok (order := orders (length msgs)) msg st Hok) as Hok'.
    pose proof (after_represents (order := orders (length msgs)) msgs msg st Hrep) as Hrep'.
    pose proof (handle_delivers (order := orders (length msgs)) msgs st msg Hok Hrep) as Hd.
    unfold after in *. destruct (handle msg st) as [st' out]. simpl in *.
    split_and!; [done..|rewrite !length_app; simpl; lia|]. intros n m [Hn|[Hn Hm]]%lookup_app_Some.
    + destruct (Hdel n m Hn) as (o & Ho & Hdm). exists o.
      assert (n < length msgs)%nat by (by eapply lookup_lt_Some).
      rewrite lookup_app_l by lia. rewrite take_app_le by lia. done.
    + apply list_lookup_singleton_Some in Hm as [Hn0 ->].
      assert (n = length msgs) as -> by lia. exists out.
      rewrite lookup_app_r by lia. rewrite Hlen, Nat.sub_diag. by rewrite take_app_length.
Qed.

(** ** The iteration order *)

Lemma handle_orders (o1 o2 : HashOrder) msg st :
  broker_ok st ->
  fst (handle (order := o1) msg st) = fst (handle (order := o2) msg st) /\
  snd (handle (order := o1) msg st) ≡ₚ snd (handle (order := o2) msg st).
Proof.
  intros [Hn Hk _]. destruct msg as [id cid out|id t|id t|from p|id]; try done.
  - simpl. unfold handle_subscribe. destruct (clients st !! id) as [c|]; [|done]. split; [done|].
    destruct (replay_ok (order := o1) c t (retained st) Hk) as (ps1 & Hnd1 & Hin1 & Hr1).
    destruct (replay_ok (order := o2) c t (retained st) Hk) as (ps2 & Hnd2 & Hin2 & Hr2).
    simpl. rewrite Hr1, Hr2. apply fmap_Permutation, NoDup_Permutation; [done..|].
    intros p. by rewrite Hin1, Hin2.
  - split; [done|]. simpl.
    destruct (fan_out_ok (order := o1) (clients st) p (topics st) Hn) as (Hnd1 & -> & Hin1).
    destruct (fan_out_ok (order := o2) (clients st) p (topics st) Hn) as (Hnd2 & -> & Hin2).
    unfold pushes. apply omap_Permutation, NoDup_Permutation; [done..|].
    intros id. by rewrite Hin1, Hin2.
Qed.
