(* ===== verification/Sharded.v ===== *)
(** * The sharded broker (src/broker.rs, lines 66 to 89 and 296 to 427)

    [shard_for_topic], [ShardedBroker::send] and [spawn_sharded_broker].  A channel
    is its mailbox and whether the receiving thread still holds the other end.  The
    hash of a topic is a parameter, [TopicHasher]. *)

From S2P Require Import Prelude Packets Topics Queue Broker BrokerSpec.

Definition NUM_BROKER_SHARDS : Z := 4.

(** [DefaultHasher::new()], [topic.hash(&mut h)], [h.finish()]: one [u64] for every
    topic, the same in each call. *)
Class TopicHasher : Type := {
  hash_topic : rstring -> Z;
  hash_topic_u64 t : 0 <= hash_topic t < 2 ^ 64;
}.

(** A hasher to compute with: the sum of the bytes. *)
#[export] Program Instance sum_hasher : TopicHasher :=
  {| hash_topic := fun t => foldr Z.add 0 t mod 2 ^ 64 |}.
Next Obligation. intros t. apply Z.mod_pos_bound. lia. Qed.

Record channel : Type := mkChannel {
  mailbox : list BrokerMessage;
  rx_alive : bool;
}.

Inductive Routing : Type :=
| SingleShard (shard : Z)
| Broadcast.

(** [Sender::send]: the channel, and whether the receiver is there. *)
Definition tx_send (c : channel) (msg : BrokerMessage) : channel * bool :=
  if rx_alive c then (mkChannel (mailbox c ++ [msg]) true, true) else (c, false).

(** The loop over all the senders, [any_ok] its result. *)
Definition broadcast (chans : list channel) (msg : BrokerMessage) : list channel * bool :=
  foldl (fun '(done, any_ok) c =>
           let '(c', ok) := tx_send c msg in (done ++ [c'], if ok then true else any_ok))
        ([], false) chans.

(** [spawn_sharded_broker]: the senders of [num_shards] fresh channels, the thread
    behind the [i]-th runs [run_broker] on its mailbox.  [Vec::with_capacity] panics
    when the senders, of [sender_size] bytes each, would take more than [isize_max]. *)
Definition spawn_sharded_broker {E} (sender_size num_shards : Z) : outcome E (list channel) :=
  if negb (1 <=? num_shards) then Panic
  else if isize_max <? num_shards * sender_size then Panic
  else Ok (replicate (Z.to_nat num_shards) (mkChannel [] true)).

Lemma spawn_ok {E} sender_size n :
  1 <= n -> n * sender_size <= isize_max ->
  spawn_sharded_broker (E:=E) sender_size n = Ok (replicate (Z.to_nat n) (mkChannel [] true)).
Proof.
  intros. unfold spawn_sharded_broker. destruct (Z.leb_spec 1 n); [|lia].
  by destruct (Z.ltb_spec isize_max (n * sender_size)); [lia|].
Qed.

Section sharding.
  Context {hasher : TopicHasher}.

Definition shard_for_topic (t : rstring) (num_shards : Z) : Z :=
  if num_shards =? 0 then 0 else (hash_topic t mod 2 ^ 64) mod num_shards.

Definition routing (msg : BrokerMessage) (n : Z) : Routing :=
  match msg with
  | MsgSubscribe _ t | MsgUnsubscribe _ t =>
      if is_wildcard_filter t then Broadcast else SingleShard (shard_for_topic t n)
  | MsgPublish _ packet => SingleShard (shard_for_topic (topic packet) n)
  | MsgRegister _ _ _ | MsgDisconnect _ => Broadcast
  end.

(** [ShardedBroker::send]: the channels after the call and its result; the index
    of a missing shard is a panic, and so is [unreachable!()]. *)
Definition send (chans : list channel) (msg : BrokerMessage) : list channel * outcome unit unit :=
  let n := len chans in
  match routing msg n with
  | SingleShard shard =>
      match chans !! Z.to_nat shard with
      | Some c =>
          let '(c', ok) := tx_send c msg in
          (<[Z.to_nat shard := c']> chans, if ok then Ok tt else Err tt)
      | None => (chans, Panic)
      end
  | Broadcast =>
      match msg with
      | MsgPublish _ _ => (chans, Panic)
      | _ =>
          let '(chans', any_ok) := broadcast chans msg in
          (chans', if any_ok then Ok tt else Err tt)
      end
  end.

(** Sends one after the other, as one thread makes them. *)
Definition send_all (chans : list channel) (msgs : list BrokerMessage) : list channel :=
  foldl (fun chans msg => fst (send chans msg)) chans msgs.

(** ** Where a message goes *)

Definition to_shard (n : Z) (i : nat) (msg : BrokerMessage) : bool :=
  match routing msg n with
  | SingleShard shard => Z.of_nat i =? shard
  | Broadcast => true
  end.

(** The messages of a history that reach shard [i]. *)
Definition shard_history (n : Z) (i : nat) (h : list BrokerMessage) : list BrokerMessage :=
  filter (fun msg => to_shard n i msg = true) h.

Lemma shard_for_topic_range t n : 1 <= n -> 0 <= shard_for_topic t n < n.
Proof.
  intros. unfold shard_for_topic. destruct (Z.eqb_spec n 0); [lia|]. apply Z.mod_pos_bound. lia.
Qed.

Lemma broadcast_eq chans msg :
  broadcast chans msg =
  (map (fun c => fst (tx_send c msg)) chans, existsb rx_alive chans).
Proof.
  unfold broadcast.
  assert (H : forall done any_ok,
    foldl (fun '(done, any_ok) c =>
             let '(c', ok) := tx_send c msg in (done ++ [c'], if ok then true else any_ok))
          (done, any_ok) chans =
    (done ++ map (fun c => fst (tx_send c msg)) chans, any_ok || existsb rx_alive chans)).
  2: { by rewrite H. }
  induction chans as [|c chans IH]; intros done any_ok; simpl.
  - by rewrite app_nil_r, orb_false_r.
  - unfold tx_send at 2. destruct c as [mb []]; simpl; rewrite IH, <- app_assoc; simpl;
      by rewrite ?orb_true_r.
Qed.

(** A message that is not broadcast, or that [send] can broadcast. *)
Lemma routing_publish from p n : routing (MsgPublish from p) n = SingleShard (shard_for_topic (topic p) n).
Proof. done. Qed.

Lemma routing_range msg n s : 1 <= n -> routing msg n = SingleShard s -> 0 <= s < n.
Proof.
  intros Hn. pose proof (fun t => shard_for_topic_range t n Hn) as Hs.
  destruct msg; simpl; try destruct (is_wildcard_filter _); intros; simplify_eq; auto.
Qed.

(** [send] by its routing. *)
Lemma send_broadcast chans msg :
  routing msg (len chans) = Broadcast ->
  send chans msg = (map (fun c => fst (tx_send c msg)) chans,
                    if existsb rx_alive chans then Ok tt else Err tt).
Proof. unfold send. intros Hr. rewrite Hr, broadcast_eq. destruct msg; done. Qed.

Lemma send_single chans msg s c :
  routing msg (len chans) = SingleShard s -> chans !! Z.to_nat s = Some c ->
  send chans msg = (<[Z.to_nat s := fst (tx_send c msg)]> chans,
                    if rx_alive c then Ok tt else Err tt).
Proof. unfold send. intros -> ->. unfold tx_send. by destruct (rx_alive c). Qed.

Lemma single_lookup (chans : list channel) msg s :
  1 <= len chans -> routing msg (len chans) = SingleShard s ->
  exists c : channel, chans !! Z.to_nat s = Some c.
Proof.
  intros Hn Hs%routing_range; [|done]. apply lookup_lt_is_Some. unfold len in Hs. lia.
Qed.

(** The channels after a send: every shard the message is for gets it. *)
Lemma send_channels chans msg :
  1 <= len chans ->
  fst (send chans msg) =
  imap (fun i c => if to_shard (len chans) i msg then fst (tx_send c msg) else c) chans.
Proof.
  intros Hn. unfold to_shard. apply list_eq. intros i. rewrite list_lookup_imap.
  destruct (routing msg (len chans)) as [s|] eqn:Hr.
  - destruct (single_lookup _ _ _ Hn Hr) as [c Hc].
    pose proof (routing_range _ _ _ Hn Hr) as Hs.
    rewrite (send_single _ _ _ _ Hr Hc). cbn [fst].
    destruct (Z.eqb_spec (Z.of_nat i) s) as [<-|Hne].
    + rewrite Nat2Z.id in *. rewrite list_lookup_insert_eq by (by eapply lookup_lt_Some).
      by rewrite Hc.
    + rewrite list_lookup_insert_ne by lia. by destruct (chans !! i).
  - rewrite (send_broadcast _ _ Hr). cbn [fst]. by rewrite list_lookup_fmap.
Qed.

Lemma send_length chans msg : 1 <= len chans -> len (fst (send chans msg)) = len chans.
Proof. intros. rewrite send_channels by done. unfold len. by rewrite length_imap. Qed.

(** Its result: [Ok] when a shard the message is for is alive, [Err] otherwise,
    and no panic. *)
Lemma send_result chans msg :
  1 <= len chans ->
  (snd (send chans msg) = Ok tt /\
     exists i c, chans !! i = Some c /\ to_shard (len chans) i msg = true /\ rx_alive c = true) \/
  (snd (send chans msg) = Err tt /\
     forall i c, chans !! i = Some c -> to_shard (len chans) i msg = true -> rx_alive c = false).
Proof.
  intros Hn. unfold to_shard. destruct (routing msg (len chans)) as [s|] eqn:Hr.
  - destruct (single_lookup _ _ _ Hn Hr) as [c Hc].
    pose proof (routing_range _ _ _ Hn Hr) as Hs.
    rewrite (send_single _ _ _ _ Hr Hc). cbn [snd].
    destruct (rx_alive c) eqn:Ha; [left|right]; (split; [done|]).
    + exists (Z.to_nat s), c. split_and!; [done|apply Z.eqb_eq; lia|done].
    + intros i c' Hi His%Z.eqb_eq. subst s. rewrite Nat2Z.id in Hc. congruence.
  - rewrite (send_broadcast _ _ Hr). cbn [snd].
    destruct (existsb rx_alive chans) eqn:Ha; [left|right]; (split; [done|]).
    + apply existsb_exists in Ha as (c & [i Hi]%list_elem_of_In%list_elem_of_lookup & Hc). eauto.
    + intros i c Hi _. destruct (rx_alive c) eqn:Hc; [|done].
      rewrite (proj2 (existsb_exists rx_alive chans)) in Ha; [done|].
      exists c. split; [|done]. by apply list_elem_of_In, list_elem_of_lookup_2 with i.
Qed.

(** ** The histories of the shards *)

Lemma shard_history_app n i h1 h2 :
  shard_history n i (h1 ++ h2) = shard_history n i h1 ++ shard_history n i h2.
Proof. apply filter_app. Qed.

Lemma shard_history_one n i msg :
  shard_history n i [msg] = if to_shard n i msg then [msg] else [].
Proof. unfold shard_history. rewrite filter_cons, filter_nil. by destruct (to_shard n i msg). Qed.

(** Sent one after the other to a fresh broker, the messages reach the mailboxes in
    the order of the history. *)
Lemma send_all_histories n msgs :
  1 <= n ->
  send_all (replicate (Z.to_nat n) (mkChannel [] true)) msgs =
  map (fun i => mkChannel (shard_history n i msgs) true) (seq 0 (Z.to_nat n)).
Proof.
  intros Hn. unfold send_all. induction msgs as [|msg msgs IH] using rev_ind.
  - simpl. apply list_eq. intros i. rewrite list_lookup_fmap.
    destruct (decide (i < Z.to_nat n)%nat).
    + rewrite lookup_replicate_2, lookup_seq_lt by lia. done.
    + rewrite lookup_ge_None_2 by (rewrite length_replicate; lia).
      rewrite (lookup_ge_None_2 (seq _ _)) by (rewrite length_seq; lia). done.
  - rewrite foldl_app, IH. cbn [foldl].
    set (chans := map _ _). assert (Hl : len chans = n).
    { unfold chans, len. rewrite length_map, length_seq. lia. }
    rewrite send_channels by lia. rewrite Hl. apply list_eq. intros i.
    unfold chans. rewrite list_lookup_imap, !list_lookup_fmap.
    destruct (seq 0 (Z.to_nat n) !! i) as [j|] eqn:Hj; simpl; [|done].
    apply lookup_seq in Hj as [-> Hi]. simpl. rewrite shard_history_app, shard_history_one.
    destruct (to_shard n i msg); simpl; [done|]. by rewrite app_nil_r.
Qed.

Lemma to_shard_subscription n i id f msg :
  subscription_effect id f msg <> None ->
  is_wildcard_filter f = true \/ Z.of_nat i = shard_for_topic f n -> to_shard n i msg = true.
Proof.
  intros He Hf. destruct msg as [|id' f'|id' f'| |id']; simpl in He; try done; try by destruct He.
  all: assert (f' = f) as Hff by
    (destruct (id' =? id); simpl in He; [|by destruct He]; case_bool_decide; [done|by destruct He]).
  all: subst f'; unfold to_shard; simpl.
  all: destruct (is_wildcard_filter f); [done|]; destruct Hf as [?|<-]; [done|]; apply Z.eqb_refl.
Qed.

(** What a shard knows of the whole history: every connection, the subscriptions
    to wildcard filters and to its own topics, its own retained messages. *)
Lemma shard_connected n i h id : connected (shard_history n i h) id = connected h id.
Proof.
  apply latest_filter. intros msg He. by destruct msg.
Qed.

Lemma shard_subscribed n i h id f :
  is_wildcard_filter f = true \/ Z.of_nat i = shard_for_topic f n ->
  subscribed (shard_history n i h) id f <-> subscribed h id f.
Proof.
  intros Hf. unfold subscribed, shard_history. rewrite latest_filter; [done|].
  intros msg He. by eapply to_shard_subscription.
Qed.

Lemma shard_retained n i h t :
  retained_for (shard_history n i h) t =
  if Z.of_nat i =? shard_for_topic t n then retained_for h t else None.
Proof.
  unfold retained_for. destruct (Z.eqb_spec (Z.of_nat i) (shard_for_topic t n)) as [Hi|Hi].
  - apply latest_filter. intros msg He. destruct msg; simpl in He; try by destruct He.
    unfold to_shard. simpl. destruct (retain _); simpl in He; [|by destruct He].
    case_bool_decide as Ht; [|by destruct He]. rewrite Ht. by apply Z.eqb_eq.
  - destruct (latest (retained_effect t) (shard_history n i h)) as [p|] eqn:Hl; [|done].
    apply latest_Some in Hl as (h1 & msg & h2 & Hh & He & _).
    assert (Hm : msg ∈ shard_history n i h) by (rewrite Hh; set_solver).
    apply list_elem_of_filter in Hm as [Hm _]. destruct msg; simpl in He; try done.
    unfold to_shard in Hm. simpl in Hm. destruct (retain _); simpl in He; [|done].
    case_bool_decide as Ht; [|done]. rewrite Ht in Hm. by apply Z.eqb_eq in Hm.
Qed.
End sharding.
