(* ===== verification/ShardedSpec.v ===== *)
(** * The sharded broker refines the single broker (src/broker.rs, lines 296 to 427)

    Sends made one after the other give every shard the part of the history that is
    routed to it; the pushes that the shards make for one message, put together, are
    what one broker with the whole history delivers ([delivers]): a publish is fanned
    out by one shard to all the interested clients, and a wildcard subscription gets
    every retained message once although all the shards replay. *)

From S2P Require Import Prelude Packets Topics Queue Broker BrokerSpec Sharded.

Section refinement.
Context {hasher : TopicHasher}.

(** The pushes that shard [i] makes for the [k]-th message of [msgs]. *)
Definition shard_output (orders : nat -> nat -> HashOrder) (n : Z) (msgs : list BrokerMessage) (k : nat)
    (i : nat) : list push_call :=
  match msgs !! k with
  | Some msg =>
      if to_shard n i msg then
        default [] (snd (run_broker (orders i) (shard_history n i msgs))
                      !! length (shard_history n i (take k msgs)))
      else []
  | None => []
  end.

(** Those of all the shards. *)
Definition sharded_output (orders : nat -> nat -> HashOrder) (n : Z) (msgs : list BrokerMessage) (k : nat)
    : list push_call :=
  concat (map (shard_output orders n msgs k) (seq 0 (Z.to_nat n))).

(** The interest in a topic is the same on the topic's shard. *)
Lemma shard_interested n i h t id :
  Z.of_nat i = shard_for_topic t n ->
  interested (shard_history n i h) t id <-> interested h t id.
Proof.
  intros Hi. unfold interested. rewrite shard_connected.
  assert (H : forall f, topic_matches_filter t f = true ->
    subscribed (shard_history n i h) id f <-> subscribed h id f); [|naive_solver].
  intros f Hm. apply shard_subscribed. destruct (is_wildcard_filter f) eqn:Hw; [by left|right].
  apply topic_matches_exact in Hm; [|done]. congruence.
Qed.

Lemma shard_replayed n i h f p :
  replayed (shard_history n i h) f p <->
  replayed h f p /\ Z.of_nat i = shard_for_topic (topic p) n.
Proof.
  unfold replayed. rewrite shard_retained.
  destruct (Z.eqb_spec (Z.of_nat i) (shard_for_topic (topic p) n)); naive_solver.
Qed.

Lemma push_to_shard n i h p ids : push_to (shard_history n i h) p ids = push_to h p ids.
Proof.
  unfold push_to. apply list_omap_ext, Forall2_same_length_lookup_2; [done|].
  intros k x y ? ?. simplify_eq. by rewrite shard_connected.
Qed.

Section one_message.
Context (n : Z) (h : list BrokerMessage) (msg : BrokerMessage) (outs : list (list push_call)).
Context (Hn : 1 <= n) (Hlen : len outs = n).
Context (Houts : forall i out, outs !! i = Some out ->
           if to_shard n i msg then delivers (shard_history n i h) msg out else out = []).

(** A message for one shard: that shard's pushes are all there is. *)
Lemma single_output s :
  routing msg n = SingleShard s ->
  exists out, delivers (shard_history n (Z.to_nat s) h) msg out /\ concat outs = out.
Proof.
  intros Hr. pose proof (routing_range _ _ _ Hn Hr) as Hs.
  destruct (lookup_lt_is_Some_2 outs (Z.to_nat s)) as [out Hout]; [unfold len in Hlen; lia|].
  exists out. split.
  - specialize (Houts _ _ Hout). unfold to_shard in Houts. rewrite Hr in Houts.
    by replace (Z.of_nat (Z.to_nat s) =? s) with true in Houts by (symmetry; apply Z.eqb_eq; lia).
  - apply (concat_single _ _ _ Hout). intros i out' Hi Hne.
    specialize (Houts _ _ Hi). unfold to_shard in Houts. rewrite Hr in Houts.
    by replace (Z.of_nat i =? s) with false in Houts by (symmetry; apply Z.eqb_neq; lia).
Qed.

Lemma publish_refines from p : msg = MsgPublish from p -> delivers h msg (concat outs).
Proof.
  intros Hm. destruct (single_output (shard_for_topic (topic p) n)) as (out & Hd & ->).
  { by rewrite Hm. }
  rewrite Hm in *. destruct Hd as (ids & Hnd & Hin & ->). exists ids.
  split_and!; [done| |by rewrite push_to_shard]. intros id. rewrite Hin.
  apply shard_interested. pose proof (shard_for_topic_range (topic p) n Hn). lia.
Qed.

Lemma subscribe_exact_refines id f :
  msg = MsgSubscribe id f -> is_wildcard_filter f = false -> delivers h msg (concat outs).
Proof.
  intros Hm Hw. destruct (single_output (shard_for_topic f n)) as (out & Hd & ->).
  { rewrite Hm. simpl. by rewrite Hw. }
  rewrite Hm in *. simpl in *. rewrite shard_connected in Hd.
  destruct (connected h id) as [c|]; [|done]. destruct Hd as (ps & Hnd & Hin & ->).
  exists ps. split_and!; [done| |done]. intros p. rewrite Hin, shard_replayed.
  split; [naive_solver|]. intros Hp. split; [done|]. pose proof (proj2 Hp) as Hmt.
  apply topic_matches_exact in Hmt; [|done]. rewrite Hmt.
  pose proof (shard_for_topic_range f n Hn). lia.
Qed.

Lemma subscribe_wildcard_refines id f :
  msg = MsgSubscribe id f -> is_wildcard_filter f = true -> delivers h msg (concat outs).
Proof.
  intros Hm Hw.
  assert (Hto : forall i, to_shard n i msg = true).
  { intros i. rewrite Hm. unfold to_shard. simpl. by rewrite Hw. }
  assert (Hd : forall i out, outs !! i = Some out -> delivers (shard_history n i h) msg out).
  { intros i out Hi. specialize (Houts _ _ Hi). by rewrite Hto in Houts. }
  clear Houts Hto. rewrite Hm in *. simpl in *. setoid_rewrite shard_connected in Hd.
  destruct (connected h id) as [c|]; [|by apply concat_all_nil].
  apply list_choice in Hd as (pss & Hl & Hps).
  assert (Hex : forall i ps, pss !! i = Some ps -> NoDup ps /\
    (forall p, p ∈ ps <-> replayed h f p /\ Z.of_nat i = shard_for_topic (topic p) n) /\
    outs !! i = Some (map (fun p => (outbound c, Packet (Publish (mark_retained p)))) ps)).
  { intros i ps Hi. destruct (lookup_lt_is_Some_2 outs i) as [out Hout].
    { rewrite <- Hl. by eapply lookup_lt_Some. }
    destruct (Hps i out ps Hout Hi) as (? & Hin & ->). split_and!; [done| |done].
    intros p. by rewrite Hin, shard_replayed. }
  exists (concat pss). split_and!.
  - apply NoDup_concat_disjoint; [intros i ps Hi; by apply (Hex i)|].
    intros i j psi psj p Hi Hj Hpi Hpj.
    apply (Hex i) in Hpi as [_ Hpi]; [|done]. apply (Hex j) in Hpj as [_ Hpj]; [lia|done].
  - intros p. rewrite elem_of_concat_lookup. split.
    + intros (i & ps & Hi & Hp). apply (Hex i) in Hp as [? _]; done.
    + intros Hp. pose proof (shard_for_topic_range (topic p) n Hn) as Hs.
      destruct (lookup_lt_is_Some_2 pss (Z.to_nat (shard_for_topic (topic p) n))) as [ps Hi];
        [unfold len in Hlen; lia|].
      exists (Z.to_nat (shard_for_topic (topic p) n)), ps. split; [done|].
      apply (Hex _ _ Hi). split; [done|lia].
  - rewrite concat_map. f_equal. apply list_eq. intros i. rewrite list_lookup_fmap.
    destruct (pss !! i) as [ps|] eqn:Hi; simpl; [by apply (Hex i)|].
    apply lookup_ge_None. apply lookup_ge_None in Hi. lia.
Qed.

Lemma message_refines : delivers h msg (concat outs).
Proof.
  assert (exists m, msg = m) as [m Hm] by eauto.
  destruct m as [id cid out|id f|id f|from p|id].
  2: { destruct (is_wildcard_filter f) eqn:Hw.
       - by eapply subscribe_wildcard_refines.
       - by eapply subscribe_exact_refines. }
  3: { by eapply publish_refines. }
  all: rewrite Hm in *; apply concat_all_nil; intros i o Hi; specialize (Houts _ _ Hi);
    by destruct (to_shard n i _).
Qed.
End one_message.

(** The [k]-th message of the history, in the history of a shard that gets it. *)
Lemma shard_history_lookup n i msgs k msg :
  msgs !! k = Some msg -> to_shard n i msg = true ->
  shard_history n i msgs !! length (shard_history n i (take k msgs)) = Some msg /\
  take (length (shard_history n i (take k msgs))) (shard_history n i msgs) =
    shard_history n i (take k msgs).
Proof.
  intros Hk Hto. assert (Hs : msgs = take k msgs ++ [msg] ++ drop (S k) msgs).
  { simpl. symmetry. by apply take_drop_middle. }
  assert (H : shard_history n i msgs =
    shard_history n i (take k msgs) ++ msg :: shard_history n i (drop (S k) msgs)).
  { rewrite Hs at 1. by rewrite !shard_history_app, shard_history_one, Hto. }
  rewrite H. split; [by apply list_lookup_middle|]. by rewrite take_app_length.
Qed.

Lemma shard_output_delivers orders n msgs k msg i :
  msgs !! k = Some msg ->
  if to_shard n i msg
  then delivers (shard_history n i (take k msgs)) msg (shard_output orders n msgs k i)
  else shard_output orders n msgs k i = [].
Proof.
  intros Hk. unfold shard_output. rewrite Hk. destruct (to_shard n i msg) eqn:Hto; [|done].
  destruct (shard_history_lookup n i msgs k msg Hk Hto) as [Hl Ht].
  pose proof (run_broker_refines (orders i) (shard_history n i msgs)) as Hrun.
  destruct (run_broker (orders i) (shard_history n i msgs)) as [st outs].
  destruct Hrun as (_ & _ & _ & Hd). destruct (Hd _ _ Hl) as (out & Hout & Hdel).
  simpl. rewrite Hout. simpl. by rewrite Ht in Hdel.
Qed.

Lemma sharded_output_delivers orders n msgs k msg :
  1 <= n -> msgs !! k = Some msg -> delivers (take k msgs) msg (sharded_output orders n msgs k).
Proof.
  intros Hn Hk. apply (message_refines n); [done| |].
  - unfold len. rewrite length_map, length_seq. lia.
  - intros i out Hi. rewrite list_lookup_fmap in Hi.
    destruct (seq 0 (Z.to_nat n) !! i) as [j|] eqn:Hj; simplify_eq/=.
    apply lookup_seq in Hj as [-> _]. by apply shard_output_delivers.
Qed.
End refinement.
