(* ===== verification/ShardedConc.v ===== *)
(** * The sharded broker under concurrency (src/broker.rs, lines 308 to 427)

    Many connection threads send at the same time, and a broadcast is a loop of
    single sends, so that the shards may see the messages of two connections in
    different orders.  One step is one [Sender::send] on one channel, or the handling
    of one message by one shard.  What survives every interleaving: a shard's view of
    a connection is a prefix of that connection's own sequence of messages, and all
    of it once its messages have been handled. *)

From S2P Require Import Prelude Packets Topics Queue Broker BrokerSpec Sharded.

(** The connection whose thread sends the message. *)
Definition sender (msg : BrokerMessage) : ConnectionId :=
  match msg with
  | MsgRegister id _ _ | MsgSubscribe id _ | MsgUnsubscribe id _ | MsgDisconnect id => id
  | MsgPublish from _ => from
  end.

Record shard : Type := mkShard {
  received : list BrokerMessage;          (* handled so far *)
  mail : list BrokerMessage;              (* in the channel *)
  registry : broker_state;
}.

Record system : Type := mkSystem {
  shards : list shard;
  program : gmap ConnectionId (list BrokerMessage);           (* the sends begun by each thread *)
  pending : gmap ConnectionId (list (nat * BrokerMessage));   (* the rest of its current send *)
}.

Inductive label : Type :=
| BeginSend (msg : BrokerMessage)
| TxSend (id : ConnectionId)
| Recv (i : nat) (order : HashOrder).

Section system.
  Context {hasher : TopicHasher}.

(** The channels that [send] writes, in order. *)
Definition targets (n : Z) (msg : BrokerMessage) : list nat :=
  match routing msg n with
  | SingleShard s => [Z.to_nat s]
  | Broadcast => seq 0 (Z.to_nat n)
  end.

Definition lookup_list {V} (m : gmap ConnectionId (list V)) (id : ConnectionId) : list V :=
  default [] (m !! id).

Definition post (msg : BrokerMessage) (s : shard) : shard :=
  mkShard (received s) (mail s ++ [msg]) (registry s).

Definition exec (l : label) (c : system) : option system :=
  match l with
  | BeginSend msg =>
      let id := sender msg in
      match lookup_list (pending c) id with
      | [] =>
          Some (mkSystem (shards c)
                  (<[id := lookup_list (program c) id ++ [msg]]> (program c))
                  (<[id := map (fun i => (i, msg)) (targets (len (shards c)) msg)]> (pending c)))
      | _ => None
      end
  | TxSend id =>
      match lookup_list (pending c) id with
      | (i, msg) :: rest =>
          Some (mkSystem (alter (post msg) i (shards c)) (program c) (<[id := rest]> (pending c)))
      | [] => None
      end
  | Recv i order =>
      s ← shards c !! i;
      match mail s with
      | msg :: ms =>
          Some (mkSystem (<[i := mkShard (received s ++ [msg]) ms (fst (handle msg (registry s)))]> (shards c))
                  (program c) (pending c))
      | [] => None
      end
  end.

Definition start (n : Z) : system :=
  mkSystem (replicate (Z.to_nat n) (mkShard [] [] init_broker)) ∅ ∅.

Inductive reachable (n : Z) : system -> Prop :=
| reach_start : reachable n (start n)
| reach_exec l c c' : reachable n c -> exec l c = Some c' -> reachable n c'.

(** A send on its own: its writes are those of [ShardedBroker::send]. *)
Lemma tx_sends_eq chans msg js :
  NoDup js ->
  foldl (fun chans i => alter (fun c => fst (tx_send c msg)) i chans) chans js =
  imap (fun i c => if bool_decide (i ∈ js) then fst (tx_send c msg) else c) chans.
Proof.
  intros Hnd. apply list_eq. intros k. rewrite list_lookup_imap.
  revert chans. induction Hnd as [|i js Hi Hnd IH]; intros chans; cbn [foldl].
  - by destruct (chans !! k).
  - rewrite IH. destruct (decide (i = k)) as [->|Hne].
    + rewrite list_lookup_alter_eq. destruct (chans !! k); simpl; [|done].
      rewrite bool_decide_eq_false_2 by done. by rewrite bool_decide_eq_true_2 by left.
    + rewrite list_lookup_alter_ne by done. destruct (chans !! k); simpl; [|done].
      repeat case_bool_decide; set_solver.
Qed.

Lemma targets_to_shard n msg i :
  1 <= n -> (i < Z.to_nat n)%nat -> i ∈ targets n msg <-> to_shard n i msg = true.
Proof.
  intros Hn Hi. unfold targets, to_shard. destruct (routing msg n) as [s|] eqn:Hr.
  - apply routing_range in Hr; [|done]. rewrite list_elem_of_singleton, Z.eqb_eq. lia.
  - rewrite elem_of_seq. split; [done|lia].
Qed.

Lemma targets_NoDup n msg : NoDup (targets n msg).
Proof. unfold targets. destruct (routing msg n); [apply NoDup_singleton|apply NoDup_seq]. Qed.

Lemma send_targets chans msg :
  1 <= len chans ->
  fst (send chans msg) =
  foldl (fun chans i => alter (fun c => fst (tx_send c msg)) i chans) chans (targets (len chans) msg).
Proof.
  intros Hn. rewrite tx_sends_eq by apply targets_NoDup. rewrite send_channels by done.
  apply list_eq. intros i. rewrite !list_lookup_imap. destruct (chans !! i) as [c|] eqn:Hi; simpl; [|done].
  apply lookup_lt_Some in Hi. f_equal.
  pose proof (targets_to_shard (len chans) msg i Hn) as Ht. unfold len in *.
  destruct (to_shard _ i msg); case_bool_decide; try done; exfalso; naive_solver lia.
Qed.

(** ** The invariant *)

Definition sent_by (id : ConnectionId) (h : list BrokerMessage) : list BrokerMessage :=
  filter (fun msg => sender msg = id) h.

(** The messages of a pending send that are for shard [i]. *)
Definition pending_for (i : nat) (l : list (nat * BrokerMessage)) : list BrokerMessage :=
  map snd (filter (fun e => fst e = i) l).

Record system_ok (n : Z) (c : system) : Prop := {
  sys_len : len (shards c) = n;
  sys_registry i s : shards c !! i = Some s ->
    broker_ok (registry s) /\ represents (received s) (registry s);
  sys_pending id i msg : (i, msg) ∈ lookup_list (pending c) id -> sender msg = id;
  sys_fifo i s id : shards c !! i = Some s ->
    sent_by id (received s ++ mail s) ++ pending_for i (lookup_list (pending c) id) =
    shard_history n i (lookup_list (program c) id);
}.

Lemma sent_by_app id h1 h2 : sent_by id (h1 ++ h2) = sent_by id h1 ++ sent_by id h2.
Proof. apply filter_app. Qed.

Lemma sent_by_one id msg : sent_by id [msg] = if decide (sender msg = id) then [msg] else [].
Proof. unfold sent_by. rewrite filter_cons, filter_nil. done. Qed.

Lemma lookup_list_insert {V} (m : gmap ConnectionId (list V)) id v id' :
  lookup_list (<[id := v]> m) id' = if decide (id = id') then v else lookup_list m id'.
Proof.
  unfold lookup_list. destruct (decide (id = id')) as [->|]; by rewrite ?lookup_insert_eq, ?lookup_insert_ne.
Qed.

Lemma pending_for_targets n i msg :
  1 <= n -> (i < Z.to_nat n)%nat ->
  pending_for i (map (fun j => (j, msg)) (targets n msg)) = if to_shard n i msg then [msg] else [].
Proof.
  intros Hn Hi. pose proof (targets_to_shard n msg i Hn Hi) as Ht.
  pose proof (targets_NoDup n msg) as Hnd. revert Ht Hnd.
  generalize (to_shard n i msg). generalize (targets n msg). intros js b Hb Hnd.
  unfold pending_for. revert b Hb. induction Hnd as [|j js Hj Hnd IH]; intros b Hb.
  - destruct b; [|done]. set_solver.
  - simpl. rewrite filter_cons. simpl. destruct (decide (j = i)) as [->|Hne]; simpl.
    + rewrite (IH false) by (split; done). destruct b; [done|]. set_solver.
    + apply IH. rewrite <- Hb. set_solver.
Qed.

Lemma start_ok n : 1 <= n -> system_ok n (start n).
Proof.
  intros Hn. split; simpl.
  - unfold len. rewrite length_replicate. lia.
  - intros i s [-> _]%lookup_replicate. split; [apply init_broker_ok|apply init_represents].
  - intros id i msg. unfold lookup_list. rewrite lookup_empty. simpl. by intros ?%elem_of_nil.
  - by intros i s id [-> _]%lookup_replicate.
Qed.

Lemma exec_ok n l c c' : 1 <= n -> system_ok n c -> exec l c = Some c' -> system_ok n c'.
Proof.
  intros Hn [Hlen Hreg Hpen Hfifo] Hstep. destruct l as [msg|id|i order]; simpl in Hstep.
  - destruct (lookup_list (pending c) (sender msg)) as [|] eqn:Hp; simplify_eq.
    split; simpl; [done..| |].
    + intros id i m. rewrite lookup_list_insert. destruct (decide (sender msg = id)) as [<-|]; [|eauto].
      intros (j & ? & _)%list_elem_of_fmap. by simplify_eq.
    + intros i s id Hs. rewrite !lookup_list_insert.
      destruct (decide (sender msg = id)) as [<-|]; [|eauto].
      rewrite shard_history_app, shard_history_one, <- (Hfifo i s) by done. rewrite Hp.
      rewrite pending_for_targets; [by rewrite app_nil_r|done|].
      apply lookup_lt_Some in Hs. unfold len. lia.
  - destruct (lookup_list (pending c) id) as [|[j msg] rest] eqn:Hp; simplify_eq.
    assert (Hsender : sender msg = id) by (apply (Hpen id j); rewrite Hp; left).
    split; simpl.
    + unfold len in *. by rewrite length_alter.
    + intros i s. rewrite list_lookup_alter. destruct (decide (j = i)) as [->|]; [|eauto].
      intros (s' & Hs' & ->)%fmap_Some. simpl. eauto.
    + intros id' i m. rewrite lookup_list_insert. destruct (decide (id = id')) as [<-|]; [|eauto].
      intros ?. apply (Hpen id i). rewrite Hp. by right.
    + intros i s id'. rewrite list_lookup_alter, lookup_list_insert.
      destruct (decide (id = id')) as [<-|Hid], (decide (j = i)) as [->|Hj].
      * intros (s' & Hs' & ->)%fmap_Some. simpl. rewrite <- (Hfifo i s' id Hs'), Hp.
        rewrite app_assoc, (sent_by_app id _ [msg]), sent_by_one.
        destruct (decide (sender msg = id)); [|done]. unfold pending_for.
        rewrite filter_cons. simpl. destruct (decide (i = i)); [|done]. by rewrite <- app_assoc.
      * intros Hs. rewrite <- (Hfifo i s id Hs), Hp. unfold pending_for.
        rewrite filter_cons. simpl. by destruct (decide (j = i)).
      * intros (s' & Hs' & ->)%fmap_Some. simpl. rewrite <- (Hfifo i s' id' Hs').
        rewrite app_assoc, (sent_by_app id' _ [msg]), sent_by_one.
        destruct (decide (sender msg = id')); [congruence|]. by rewrite app_nil_r.
      * intros Hs. by apply Hfifo.
  - destruct (shards c !! i) as [s|] eqn:Hs; simpl in Hstep; [|done].
    destruct (mail s) as [|msg ms] eqn:Hm; simplify_eq. destruct (Hreg i s Hs) as [Hok Hrep].
    split; simpl; [unfold len in *; by rewrite length_insert| |done|].
    + intros j s'. rewrite list_lookup_insert_Some. intros [(-> & <- & _)|[_ ?]]; [|eauto]. simpl.
      split; [by apply after_ok|by apply after_represents].
    + intros j s' id. rewrite list_lookup_insert_Some. intros [(-> & <- & _)|[_ ?]]; [|eauto]. simpl.
      rewrite <- (Hfifo j s id Hs), Hm. by rewrite <- app_assoc.
Qed.

Lemma reachable_ok n c : 1 <= n -> reachable n c -> system_ok n c.
Proof. intros Hn. induction 1; [by apply start_ok|by eapply exec_ok]. Qed.

(** ** A shard's view of a connection *)

Lemma connected_sent_by h id : connected (sent_by id h) id = connected h id.
Proof.
  apply latest_filter. intros msg He. destruct msg; simpl in *; try by destruct He.
  all: destruct (Z.eqb_spec id0 id); [done|by destruct He].
Qed.

Lemma subscribed_sent_by h id f : subscribed (sent_by id h) id f <-> subscribed h id f.
Proof.
  unfold subscribed, sent_by. rewrite latest_filter; [done|].
  intros msg He. destruct msg; simpl in *; try by destruct He.
  all: destruct (Z.eqb_spec id0 id); [done|by destruct He].
Qed.

(** A prefix of a filtered list is a filtered prefix. *)
Lemma prefix_filter {A} (P : A -> Prop) `{!forall x, Decision (P x)} l1 l2 l :
  l1 ++ l2 = filter P l -> exists k, filter P (take k l) = l1.
Proof.
  revert l1. induction l as [|x l IH]; intros l1 Hl.
  - exists 0%nat. rewrite filter_nil in *. by apply app_nil in Hl as [-> _].
  - rewrite filter_cons in Hl. destruct (decide (P x)) as [Hx|Hx].
    + destruct l1 as [|y l1]; [by exists 0%nat|]. simpl in Hl. injection Hl as -> Hl.
      destruct (IH l1 Hl) as [k Hk]. exists (S k). simpl. rewrite filter_cons.
      destruct (decide (P x)); [by rewrite Hk|done].
    + destruct (IH l1 Hl) as [k Hk]. exists (S k). simpl. rewrite filter_cons.
      by destruct (decide (P x)).
Qed.

Lemma shard_view n c i s id :
  1 <= n -> reachable n c -> shards c !! i = Some s ->
  exists k, let h := take k (lookup_list (program c) id) in
    clients (registry s) !! id = connected h id /\
    forall f, is_wildcard_filter f = true \/ Z.of_nat i = shard_for_topic f n ->
      subscriber (registry s) id f <-> subscribed h id f.
Proof.
  intros Hn Hc Hs. apply reachable_ok in Hc as [_ Hreg _ Hfifo]; [|done].
  destruct (Hreg i s Hs) as [_ [Hcl Hsub _]]. specialize (Hfifo i s id Hs).
  rewrite sent_by_app, <- !app_assoc in Hfifo. apply prefix_filter in Hfifo as [k Hk].
  exists k. cbn zeta. split.
  - rewrite Hcl, <- connected_sent_by, <- Hk. apply (shard_connected n i).
  - intros f Hf. rewrite Hsub, <- subscribed_sent_by, <- Hk. by apply (shard_subscribed n i).
Qed.

(** When a connection's sends are done and a shard's channel is empty, the shard
    knows all of it. *)
Lemma quiescent_view n c i s id :
  1 <= n -> reachable n c -> shards c !! i = Some s ->
  lookup_list (pending c) id = [] -> mail s = [] ->
  clients (registry s) !! id = connected (lookup_list (program c) id) id /\
  forall f, is_wildcard_filter f = true \/ Z.of_nat i = shard_for_topic f n ->
    subscriber (registry s) id f <-> subscribed (lookup_list (program c) id) id f.
Proof.
  intros Hn Hc Hs Hp Hm. apply reachable_ok in Hc as [_ Hreg _ Hfifo]; [|done].
  destruct (Hreg i s Hs) as [_ [Hcl Hsub _]]. specialize (Hfifo i s id Hs).
  rewrite Hp, Hm in Hfifo. rewrite !app_nil_r in Hfifo. split.
  - rewrite Hcl, <- connected_sent_by, Hfifo. apply (shard_connected n i).
  - intros f Hf. rewrite Hsub, <- subscribed_sent_by, Hfifo. by apply (shard_subscribed n i).
Qed.
End system.
