(* ===== verification/Connection.v ===== *)
(** * Per-connection threads (src/connection.rs)

    The reader and the writer of one connection.  What a thread does to the world
    (messages to the broker, pushes to the outbound queue, closing it, log lines) is
    the list of its calls, in order; [run_calls] performs them on a broker and on the
    shared queues.  The socket is the list of the results of its [read] calls, and of
    its [write_all] calls. *)

From S2P Require Import Prelude Errors Packets Topics Codec Queue Broker Sharded.

(** ** The broker channel *)

(** The trait [BrokerSend]: send errors are ignored, a panic is not. *)
Class BrokerSend (B : Type) : Type :=
  broker_send : B -> BrokerMessage -> outcome unit B.

#[export] Instance sender_BrokerSend : BrokerSend channel :=
  fun self msg => Ok (fst (tx_send self msg)).

#[export] Instance sharded_BrokerSend {hasher : TopicHasher} : BrokerSend (list channel) :=
  fun self msg =>
    match send self msg with
    | (self', (Ok _ | Err _)) => Ok self'
    | (_, Panic) => Panic
    | (_, Diverge) => Diverge
    end.

(** What a connection relies on: a broker that is [ready] takes every message. *)
Class BrokerSendLaws (B : Type) `{BrokerSend B} : Type := {
  ready : B -> Prop;
  broker_send_ready b msg : ready b -> exists b', broker_send b msg = Ok b' /\ ready b';
}.

#[export] Program Instance sender_laws : BrokerSendLaws channel := {| ready := fun _ => True |}.
Next Obligation. intros b msg _. eexists. split; done. Qed.

#[export] Program Instance sharded_laws {hasher : TopicHasher} : BrokerSendLaws (list channel) :=
  {| ready := fun chans => 1 <= len chans |}.
Next Obligation.
  intros hasher b msg Hb. pose proof (send_length b msg Hb) as Hl.
  pose proof (send_result b msg Hb) as Hr. unfold broker_send, sharded_BrokerSend.
  destruct (send b msg) as [b' r]. simpl in *. exists b'.
  destruct Hr as [[-> _]|[-> _]]; split; by rewrite ?Hl.
Qed.

(** ** Calls *)

Inductive warning : Type :=
| CloneError
| ReadError
| ProtocolFailure (e : ProtocolError)
| WriteError.

Inductive call : Type :=
| CallSend (msg : BrokerMessage)
| CallPush (q : QueueHandle) (event : OutboundEvent)
| CallClose (q : QueueHandle)
| CallWarn (w : warning).

Definition run_call {B} `{BrokerSend B} (c : call) (w : B * store) : outcome unit (B * store) :=
  let '(b, m) := w in
  match c with
  | CallSend msg => b' ← broker_send b msg; Ok (b', m)
  | CallPush q event => Ok (b, push_event m (q, event))
  | CallClose q => Ok (b, alter close q m)
  | CallWarn _ => Ok w
  end.

Definition run_calls {B} `{BrokerSend B} (cs : list call) (w : B * store) : outcome unit (B * store) :=
  foldM (fun w c => run_call c w) w cs.

(** ** The reader *)

(** The loop over the filters of a SUBSCRIBE: the calls and the return codes. *)
Definition subscribe_each (id : ConnectionId) (subs : list (rstring * Z)) : list call * list Z :=
  foldl (fun '(calls, codes) '(t, _) => (calls ++ [CallSend (MsgSubscribe id t)], codes ++ [0]))
        ([], []) subs.

(** [dispatch_packet]: its calls, and whether the connection goes on. *)
Definition dispatch_packet (id : ConnectionId) (packet : MqttPacket) (out : QueueHandle)
    : list call * bool :=
  match packet with
  | Connect connect =>
      ([CallSend (MsgRegister id (client_id connect) out);
        CallPush out (Packet (ConnAck (mkConnAck false Accepted)))], true)
  | Subscribe sub =>
      let '(calls, return_codes) := subscribe_each id (subscriptions sub) in
      (calls ++ [CallPush out (Packet (SubAck (mkSubAck (sub_packet_id sub) return_codes)))], true)
  | Unsubscribe unsub =>
      (map (fun t => CallSend (MsgUnsubscribe id t)) (topic_filters unsub) ++
       [CallPush out (Packet (UnsubAck (mkUnsubAck (unsub_packet_id unsub))))], true)
  | Publish publish =>
      ((if qos publish =? 1 then
          match pub_packet_id publish with
          | Some packet_id => [CallPush out (Packet (PubAck (mkPubAck packet_id)))]
          | None => []
          end
        else []) ++
       [CallSend (MsgPublish id publish)], true)
  | PubAck _ => ([], true)
  | PingReq => ([CallPush out (Packet PingResp)], true)
  | Disconnect => ([], false)
  | ConnAck _ | SubAck _ | UnsubAck _ | PingResp => ([], true)
  end.

(** The three lines that end the reader. *)
Definition teardown (id : ConnectionId) (out : QueueHandle) : list call :=
  [CallSend (MsgDisconnect id); CallClose out].

(** One iteration of the loop that drains the buffered packets, on the buffer and the
    calls made so far.  It ends with the rest of the buffer when the packet there is
    incomplete, with [None] when the connection is torn down. *)
Definition drain_step (id : ConnectionId) (out : QueueHandle) (st : bytes * list call)
    : outcome unit (bytes * list call + option bytes * list call) :=
  let '(buf, calls) := st in
  match decode buf with
  | Ok (packet, consumed) =>
      buf' ← slice_from buf consumed;
      let '(cs, go_on) := dispatch_packet id packet out in
      if go_on then Ok (inl (buf', calls ++ cs))
      else Ok (inr (None, calls ++ cs ++ teardown id out))
  | Err Incomplete => Ok (inr (Some buf, calls))
  | Err e => Ok (inr (None, calls ++ [CallWarn (ProtocolFailure e)] ++ teardown id out))
  | Panic => Panic
  | Diverge => Diverge
  end.

Definition drain (id : ConnectionId) (out : QueueHandle) (buf : bytes)
    : outcome unit (option bytes * list call) :=
  loop (S (length buf)) (drain_step id out) (buf, []).

(** [stream.read]: [Ok(n)] with the [n] bytes read, or an error. *)
Inductive read_result : Type :=
| ReadOk (chunk : bytes)
| ReadErr.

(** Where the reader is after the given reads: blocked in the next one with a
    buffer, or returned. *)
Inductive reader_state : Type :=
| Reading (buf : bytes)
| ReaderExited.

Fixpoint reader_loop (id : ConnectionId) (out : QueueHandle) (buf : bytes) (reads : list read_result)
    : outcome unit (reader_state * list call) :=
  match reads with
  | [] => Ok (Reading buf, [])
  | ReadOk [] :: _ => Ok (ReaderExited, teardown id out)
  | ReadErr :: _ => Ok (ReaderExited, [CallWarn ReadError] ++ teardown id out)
  | ReadOk chunk :: reads' =>
      '(rest, calls) ← drain id out (buf ++ chunk);
      match rest with
      | None => Ok (ReaderExited, calls)
      | Some buf' =>
          '(st, calls') ← reader_loop id out buf' reads';
          Ok (st, calls ++ calls')
      end
  end.

(** ** The writer *)

Inductive writer_state : Type :=
| Writing
| WriterExited.

(** [stream.write_all]: every byte is written, or some are, fewer than there were, and
    then a write fails. *)
Inductive write_result : Type :=
| WriteOk
| WriteErr (n : nat).

Definition bytes_out (r : write_result) (frame : bytes) : bytes :=
  match r with
  | WriteOk => frame
  | WriteErr n => take (Nat.min n (length frame - 1)) frame
  end.

(** The results of the [pop_blocking] calls and of the [write_all] calls; what each
    [write_all] put on the socket, and a log line when one failed. *)
Fixpoint writer_loop (pops : list (option OutboundEvent)) (writes : list write_result)
    : outcome unit (writer_state * list bytes * list call) :=
  match pops with
  | [] => Ok (Writing, [], [])
  | None :: _ => Ok (WriterExited, [], [])
  | Some event :: pops' =>
      let 'Packet packet := event in
      frame ← encode packet;
      match writes with
      | [] => Ok (Writing, [], [])
      | WriteErr n :: _ => Ok (WriterExited, [bytes_out (WriteErr n) frame], [CallWarn WriteError])
      | WriteOk :: writes' =>
          '(st, outs, calls) ← writer_loop pops' writes';
          Ok (st, bytes_out WriteOk frame :: outs, calls)
      end
  end.

(** ** One connection *)

(** Where [handle_connection] is: it has returned because the socket could not be cloned,
    it is in the reader, in [writer.join()], or has returned. *)
Inductive connection_state : Type :=
| NotCloned
| InReader (buf : bytes)
| InJoin
| Finished.

(** What the thread of the writer does, the results of its [pop_blocking] and [write_all]
    calls given.  That it panicked would not be noticed: the result of the join is ignored. *)
Definition writer_thread (pops : list (option OutboundEvent)) (writes : list write_result)
    : writer_state * list bytes * list call :=
  match writer_loop pops writes with
  | Ok r => r
  | Err _ | Panic | Diverge => (WriterExited, [], [])
  end.

(** [handle_connection]: the counter of connection ids, the shared queues with the new one
    at the location [fresh], and where it is after the given results of the reader's
    [read] calls and of the writer's; the calls of both threads, the reader's first, and
    what was put on the socket. *)
Definition handle_connection (counter : Z) (m : store) (fresh : QueueHandle) (clone_ok : bool)
    (reads : list read_result) (pops : list (option OutboundEvent)) (writes : list write_result)
    : Z * outcome unit (store * connection_state * list call * list bytes) :=
  let '(id, counter') := next_connection_id counter in
  (counter',
   if negb clone_ok then Ok (m, NotCloned, [CallWarn CloneError], [])
   else
     let m' := <[fresh := new DEFAULT_CLIENT_QUEUE_CAPACITY]> m in
     let '(writer, outs, wcalls) := writer_thread pops writes in
     '(reader, calls) ← reader_loop id fresh [] reads;
     let state :=
       match reader, writer with
       | Reading buf, _ => InReader buf
       | ReaderExited, Writing => InJoin
       | ReaderExited, WriterExited => Finished
       end in
     Ok (m', state, calls ++ wcalls, outs)).
