(* ===== verification/ConnectionSpec.v ===== *)
(** * What a connection does (src/connection.rs)

    The reader returns on every input, whatever the bytes and however they are cut
    into reads; it does what the stream of packets says and not how it was cut; and it
    leaves by one [Disconnect] and one [close].  Its calls never fail on a broker that
    keeps the laws of [BrokerSend]. *)

From S2P Require Import Prelude Errors Packets Topics Wire Codec CodecSafety CodecRoundtrip.
From S2P Require Import Queue Broker Sharded ShardedConc Connection.

(** ** The calls of one connection *)

(** An event that the writer can frame. *)
Definition frame_ok (e : OutboundEvent) : Prop :=
  let 'Packet p := e in encodable p /\ remaining_length p <= u32_max.

(** A message as the decoder lets it through. *)
Definition valid_message (msg : BrokerMessage) : Prop :=
  match msg with
  | MsgSubscribe _ t | MsgUnsubscribe _ t => filter_ok t
  | MsgPublish _ p => publish_ok p /\ remaining_length (Publish p) <= 268435455
  | MsgRegister _ _ _ | MsgDisconnect _ => True
  end.

(** A registration gives the broker the connection's own queue. *)
Definition own_queue (out : QueueHandle) (msg : BrokerMessage) : Prop :=
  match msg with MsgRegister _ _ q => q = out | _ => True end.

(** An acknowledgement, or the answer to a ping. *)
Definition answer_event (e : OutboundEvent) : Prop :=
  match e with
  | Packet (ConnAck _ | SubAck _ | UnsubAck _ | PubAck _ | PingResp) => True
  | _ => False
  end.

(** A call of connection [id], with the outbound queue [out], on valid data. *)
Definition own_call (id : ConnectionId) (out : QueueHandle) (c : call) : Prop :=
  match c with
  | CallSend msg => sender msg = id /\ own_queue out msg /\ valid_message msg
  | CallPush q e => q = out /\ answer_event e /\ frame_ok e
  | CallClose q => q = out
  | CallWarn (ProtocolFailure e) => one_line (ProtocolError_fmt e) = true
  | CallWarn _ => True
  end.

(** A call that is not part of the tear-down. *)
Definition running_call (c : call) : Prop :=
  match c with
  | CallSend (MsgDisconnect _) | CallClose _ => False
  | _ => True
  end.

Lemma valid_publish_frame p :
  publish_ok p -> remaining_length (Publish p) <= 268435455 ->
  frame_ok (Packet (Publish p)) /\ frame_ok (Packet (Publish (mark_retained p))).
Proof.
  intros ([_ Ht] & _ & _ & _ & Hid) Hl.
  assert (Hq : 0 <= qos p <= 2) by (destruct (pub_packet_id p); simpl in Hid; lia).
  assert (Hu : 268435455 <= u32_max) by (by vm_compute).
  unfold frame_ok. cbn in *. split_and!; try done; lia.
Qed.

Lemma subscribe_each_eq id subs :
  subscribe_each id subs =
  (map (fun s => CallSend (MsgSubscribe id (fst s))) subs, map (fun _ => 0) subs).
Proof.
  unfold subscribe_each.
  enough (H : forall calls codes,
    foldl (fun '(calls, codes) '(t, _) => (calls ++ [CallSend (MsgSubscribe id t)], codes ++ [0]))
      (calls, codes) subs =
    (calls ++ map (fun s => CallSend (MsgSubscribe id (fst s))) subs, codes ++ map (fun _ => 0) subs))
    by apply H.
  induction subs as [|[t q] subs IH]; intros calls codes; simpl; [by rewrite !app_nil_r|].
  by rewrite IH, <- !app_assoc.
Qed.

Lemma subscriptions_len_ge ss : len ss <= subscriptions_len ss.
Proof. induction ss as [|s ss IH]; simpl; len_lia. Qed.

Lemma dispatch_calls id packet out :
  decodable packet -> remaining_length packet <= 268435455 ->
  Forall (fun c => own_call id out c /\ running_call c) (fst (dispatch_packet id packet out)).
Proof.
  assert (Hack : forall p : MqttPacket, match p with ConnAck _ | UnsubAck _ | PubAck _ | PingResp => True | _ => False end ->
    own_call id out (CallPush out (Packet p)) /\ running_call (CallPush out (Packet p))).
  { intros p Hp. split; [|done]. split; [done|]. by destruct p. }
  intros Hp Hl. destruct packet as [p|p|p|p|p|p|p|p| | |]; simpl; try done; try by apply Forall_nil.
  - apply Forall_cons. split; [done|]. apply list.Forall_singleton. by apply Hack.
  - rewrite subscribe_each_eq. simpl. destruct Hp as (_ & _ & Hss). apply Forall_app. split.
    + apply Forall_fmap. eapply Forall_impl; [exact Hss|]. intros [t q] [Hf _]. by split.
    + apply list.Forall_singleton. split; [|done]. split_and!; [done..|]. cbn.
      rewrite len_map. pose proof (subscriptions_len_ge (subscriptions p)). cbn in Hl. unfold u32_max. lia.
  - destruct Hp as (_ & _ & Hfs). apply Forall_app. split.
    + apply Forall_fmap. eapply Forall_impl; [exact Hfs|]. intros t Hf. by split.
    + apply list.Forall_singleton. by apply Hack.
  - apply Forall_app. split; [|by apply list.Forall_singleton].
    destruct (qos p =? 1), (pub_packet_id p); try by apply Forall_nil.
    apply list.Forall_singleton. by apply Hack.
  - apply list.Forall_singleton. by apply Hack.
Qed.

Lemma dispatch_goes_on id packet out :
  snd (dispatch_packet id packet out) = negb (bool_decide (packet = Disconnect)).
Proof.
  destruct packet; simpl; by rewrite ?subscribe_each_eq.
Qed.

(** ** Draining the buffer *)

Section reader.
  Context (id : ConnectionId) (out : QueueHandle).

Definition prepend {A} (calls : list call) (o : outcome unit (A * list call)) : outcome unit (A * list call) :=
  '(a, calls') ← o; Ok (a, calls ++ calls').

Lemma prepend_app {A} c1 c2 (o : outcome unit (A * list call)) :
  prepend c1 (prepend c2 o) = prepend (c1 ++ c2) o.
Proof. destruct o as [[a c]| | |]; simpl; try done. by rewrite app_assoc. Qed.

Lemma prepend_nil {A} (o : outcome unit (A * list call)) : prepend [] o = o.
Proof. by destruct o as [[a c]| | |]. Qed.

Definition drain_fuel (fuel : nat) (buf : bytes) : outcome unit (option bytes * list call) :=
  loop fuel (drain_step id out) (buf, []).

Lemma drain_acc fuel buf calls :
  loop fuel (drain_step id out) (buf, calls) = prepend calls (drain_fuel fuel buf).
Proof.
  unfold drain_fuel. revert buf calls. induction fuel as [|fuel IH]; intros buf calls; [done|].
  cbn [loop drain_step]. destruct (decode buf) as [[packet n]|e| |]; try done.
  - destruct (slice_from (E:=unit) buf n) as [buf'| | |]; try done. cbn [mbind outcome_bind].
    destruct (dispatch_packet id packet out) as [cs []]; cbn [mbind outcome_bind]; [|done].
    rewrite (IH buf' (calls ++ cs)), (IH buf' ([] ++ cs)). by rewrite prepend_app.
  - destruct e; simpl; by rewrite ?app_nil_r.
Qed.

Lemma drain_fuel_S fuel buf :
  drain_fuel (S fuel) buf =
  match decode buf with
  | Ok (packet, n) =>
      buf' ← slice_from buf n;
      let '(cs, go_on) := dispatch_packet id packet out in
      if go_on then prepend cs (drain_fuel fuel buf') else Ok (None, cs ++ teardown id out)
  | Err Incomplete => Ok (Some buf, [])
  | Err e => Ok (None, CallWarn (ProtocolFailure e) :: teardown id out)
  | Panic => Panic
  | Diverge => Diverge
  end.
Proof.
  unfold drain_fuel at 1. cbn [loop drain_step]. destruct (decode buf) as [[packet n]|e| |]; try done.
  - destruct (slice_from (E:=unit) buf n) as [buf'| | |]; try done. cbn [mbind outcome_bind].
    destruct (dispatch_packet id packet out) as [cs []]; cbn [mbind outcome_bind]; [|done].
    apply drain_acc.
  - by destruct e.
Qed.

(** A complete packet in front of the buffer. *)
Lemma slice_from_ok (buf : bytes) n :
  0 <= n <= len buf -> exists pre buf', buf = pre ++ buf' /\ len pre = n /\
    forall E more, slice_from (E:=E) (buf ++ more) n = Ok (buf' ++ more).
Proof.
  intros Hn. exists (take (Z.to_nat n) buf), (drop (Z.to_nat n) buf).
  assert (Hl : len (take (Z.to_nat n) buf) = n) by (unfold len in *; rewrite length_take; lia).
  split_and!; [by rewrite take_drop|done|]. intros E more.
  rewrite <- (take_drop (Z.to_nat n) buf) at 1. rewrite <- app_assoc. by apply slice_from_at.
Qed.

(** What draining leaves: an incomplete packet, or the tear-down. *)
Definition drained (buf : bytes) (r : option bytes * list call) : Prop :=
  Forall (own_call id out) (snd r) /\
  match fst r with
  | Some rest =>
      bytes_ok rest /\ len rest <= len buf /\ decode rest = Err Incomplete /\
      Forall running_call (snd r)
  | None => exists calls, snd r = calls ++ teardown id out /\ Forall running_call calls
  end.

Lemma teardown_own : Forall (own_call id out) (teardown id out).
Proof. by repeat constructor. Qed.

Lemma drain_fuel_ok fuel buf :
  bytes_ok buf -> len buf <= isize_max -> (length buf < fuel)%nat ->
  exists r, drain_fuel fuel buf = Ok r /\ drained buf r.
Proof.
  revert buf. induction fuel as [|fuel IH]; intros buf Hbuf Hlen Hf; [lia|].
  rewrite drain_fuel_S. pose proof (decode_wp buf Hbuf Hlen) as Hd.
  destruct (decode buf) as [[packet n]|e| |] eqn:He; try done.
  - destruct Hd as (Hdec & Hrl & Hn & Hle). destruct (slice_from_ok buf n) as (pre & buf' & Hb & Hp & Hs); [lia|].
    specialize (Hs unit []). rewrite !app_nil_r in Hs. rewrite Hs. cbn [mbind outcome_bind].
    pose proof (dispatch_calls id packet out Hdec Hrl) as Hcalls.
    destruct (dispatch_packet id packet out) as [cs []]; apply Forall_and in Hcalls as [Hown Hrun]; simpl in *.
    + destruct (IH buf') as ([rest calls] & -> & Hown' & Hd); [..|].
      { rewrite Hb in Hbuf. by apply bytes_ok_app in Hbuf as [_ ?]. }
      { rewrite Hb in Hlen. len_lia. }
      { rewrite Hb in Hf. rewrite length_app in Hf. unfold len in Hp. lia. }
      exists (rest, cs ++ calls). split; [done|]. split; [by apply Forall_app|]. simpl in *.
      destruct rest as [rest|].
      * destruct Hd as (? & ? & ? & ?). split_and!; [done| |done|by apply Forall_app].
        rewrite Hb. len_lia.
      * destruct Hd as (calls' & -> & ?). exists (cs ++ calls'). split; [by rewrite app_assoc|by apply Forall_app].
    + exists (None, cs ++ teardown id out). split; [done|].
      split; [apply Forall_app; split; [done|apply teardown_own]|]. by exists cs.
  - assert (Hfatal : drained buf (None, CallWarn (ProtocolFailure e) :: teardown id out)).
    { split; [apply Forall_cons; split; [exact Hd|apply teardown_own]|]. exists [CallWarn (ProtocolFailure e)].
      split; [done|by repeat constructor]. }
    destruct e; eexists; (split; [done|]); try exact Hfatal.
    split; [constructor|]. by split_and!.
Qed.

Lemma drain_enough fuel buf :
  bytes_ok buf -> len buf <= isize_max -> (length buf < fuel)%nat ->
  drain_fuel fuel buf = drain id out buf.
Proof.
  intros Hbuf Hlen Hf. destruct (drain_fuel_ok (S (length buf)) buf) as (r & Hr & _); [done|done|lia|].
  unfold drain_fuel, drain in *. apply loop_fuel_mono; [lia|by rewrite Hr].
Qed.

Lemma drain_ok buf :
  bytes_ok buf -> len buf <= isize_max -> exists r, drain id out buf = Ok r /\ drained buf r.
Proof. intros. apply (drain_fuel_ok (S (length buf))); [done|done|lia]. Qed.

Lemma drain_incomplete buf : decode buf = Err Incomplete -> drain id out buf = Ok (Some buf, []).
Proof. intros He. unfold drain. change (drain_fuel (S (length buf)) buf = Ok (Some buf, [])).
  by rewrite drain_fuel_S, He. Qed.

(** One packet at a time. *)
Lemma drain_packet buf packet n pre rest :
  bytes_ok buf -> len buf <= isize_max ->
  decode buf = Ok (packet, n) -> buf = pre ++ rest -> len pre = n ->
  drain id out buf =
  let '(cs, go_on) := dispatch_packet id packet out in
  if go_on then prepend cs (drain id out rest) else Ok (None, cs ++ teardown id out).
Proof.
  intros Hbuf Hlen Hd Hb Hp. pose proof (decode_wp buf Hbuf Hlen) as Hw. rewrite Hd in Hw.
  destruct Hw as (_ & _ & Hn & Hle).
  change (drain id out buf) with (drain_fuel (S (length buf)) buf). rewrite drain_fuel_S, Hd.
  rewrite Hb at 1. rewrite slice_from_at by done. cbn [mbind outcome_bind].
  destruct (dispatch_packet id packet out) as [cs []]; [|done]. f_equal.
  apply drain_enough.
  - rewrite Hb in Hbuf. by apply bytes_ok_app in Hbuf as [_ ?].
  - rewrite Hb in Hlen. len_lia.
  - rewrite Hb, length_app. unfold len in Hp. lia.
Qed.

(** More bytes behind the buffer change nothing of what it already held. *)
Lemma drain_app buf more :
  bytes_ok (buf ++ more) -> len (buf ++ more) <= isize_max ->
  drain id out (buf ++ more) =
  '(rest, calls) ← drain id out buf;
  match rest with
  | None => Ok (None, calls)
  | Some rest => prepend calls (drain id out (rest ++ more))
  end.
Proof.
  remember (length buf) as k eqn:Hk. revert buf Hk. induction k as [k IH] using lt_wf_ind.
  intros buf -> Hb Hl. pose proof Hb as [Hbuf Hmore]%bytes_ok_app.
  assert (Hlen : len buf <= isize_max) by len_lia.
  pose proof (decode_wp buf Hbuf Hlen) as Hw.
  assert (Happ : decode buf = Err Incomplete \/ decode (buf ++ more) = decode buf)
    by (apply decode_app; [by rewrite len_app in Hl|done]).
  destruct (decode buf) as [[packet n]|e| |] eqn:Hd; try done.
  - destruct Happ as [?|Happ]; [done|]. destruct Hw as (_ & _ & Hn & Hle).
    destruct (slice_from_ok buf n) as (pre & buf' & Hbb & Hp & _); [lia|].
    rewrite (drain_packet buf packet n pre buf') by done.
    rewrite (drain_packet (buf ++ more) packet n pre (buf' ++ more)) by (try done; by rewrite Hbb, app_assoc).
    destruct (dispatch_packet id packet out) as [cs []]; [|done].
    rewrite (IH (length buf')); [|rewrite Hbb, length_app; unfold len in Hp; lia|done|..].
    + destruct (drain id out buf') as [[rest calls]| | |]; simpl; try done.
      destruct rest; [|done]. apply prepend_app.
    + rewrite Hbb, <- app_assoc in Hb. by apply bytes_ok_app in Hb as [_ ?].
    + rewrite Hbb, <- app_assoc in Hl. len_lia.
  - destruct (decide (e = Incomplete)) as [->|Hne].
    + rewrite (drain_incomplete buf Hd). simpl. by rewrite prepend_nil.
    + destruct Happ as [?|Happ]; [congruence|].
      change (drain id out (buf ++ more)) with (drain_fuel (S (length (buf ++ more))) (buf ++ more)).
      change (drain id out buf) with (drain_fuel (S (length buf)) buf).
      rewrite !drain_fuel_S, Happ, Hd. by destruct e.
Qed.
(** ** The read loop *)

(** The bytes of the reads. *)
Definition read_bytes (reads : list read_result) : bytes :=
  concat (map (fun r => match r with ReadOk chunk => chunk | ReadErr => [] end) reads).

Lemma reader_loop_cons buf b chunk reads :
  reader_loop id out buf (ReadOk (b :: chunk) :: reads) =
  '(rest, calls) ← drain id out (buf ++ b :: chunk);
  match rest with
  | None => Ok (ReaderExited, calls)
  | Some buf' => prepend calls (reader_loop id out buf' reads)
  end.
Proof. done. Qed.

(** A reader's result: it is blocked in a read and has not torn down, or it has
    returned and the tear-down is what it did last. *)
Definition reader_done (r : reader_state * list call) : Prop :=
  Forall (own_call id out) (snd r) /\
  match fst r with
  | Reading _ => Forall running_call (snd r)
  | ReaderExited => exists calls, snd r = calls ++ teardown id out /\ Forall running_call calls
  end.

Lemma reader_done_prepend calls r :
  Forall (own_call id out) calls -> Forall running_call calls -> reader_done r ->
  reader_done (fst r, calls ++ snd r).
Proof.
  intros Ho Hr [Ho' Hr']. split; [by apply Forall_app|]. simpl. destruct (fst r).
  - by apply Forall_app.
  - destruct Hr' as (calls' & -> & ?). exists (calls ++ calls').
    split; [by rewrite app_assoc|by apply Forall_app].
Qed.

Lemma reader_loop_ok reads buf :
  bytes_ok (buf ++ read_bytes reads) -> len (buf ++ read_bytes reads) <= isize_max ->
  exists r, reader_loop id out buf reads = Ok r /\ reader_done r.
Proof.
  assert (Hexit : forall calls, Forall (own_call id out) calls -> Forall running_call calls ->
    reader_done (ReaderExited, calls ++ teardown id out)).
  { intros calls ? ?. split; [apply Forall_app; split; [done|apply teardown_own]|]. by exists calls. }
  revert buf. induction reads as [|[[|b chunk]|] reads IH]; intros buf Hb Hl.
  - eexists. split; [done|]. by split; constructor.
  - eexists. split; [done|]. by apply (Hexit []).
  - rewrite reader_loop_cons. unfold read_bytes in Hb, Hl. cbn [map concat] in Hb, Hl.
    rewrite app_assoc in Hb, Hl. apply bytes_ok_app in Hb as [Hb Hb'].
    destruct (drain_ok (buf ++ b :: chunk)) as ([rest calls] & -> & Hown & Hd); [done|len_lia|].
    simpl in *. destruct rest as [rest|].
    + destruct Hd as (Hrest & Hle & _ & Hrun).
      destruct (IH rest) as (r & -> & Hr).
      { by apply bytes_ok_app. }
      { unfold read_bytes. len_lia. }
      destruct r as [st calls']. eexists. split; [done|].
      by apply (reader_done_prepend calls (st, calls')).
    + destruct Hd as (calls' & -> & ?). eexists. split; [done|]. split; [done|]. by exists calls'.
  - eexists. split; [done|]. apply (Hexit [CallWarn ReadError]); by repeat constructor.
Qed.

(** How the stream is cut into reads does not matter. *)
Lemma reader_loop_chunks chunks tail buf :
  Forall (fun chunk => chunk <> []) chunks ->
  bytes_ok (buf ++ concat chunks) -> len (buf ++ concat chunks) <= isize_max ->
  decode buf = Err Incomplete ->
  reader_loop id out buf (map ReadOk chunks ++ tail) =
  '(rest, calls) ← drain id out (buf ++ concat chunks);
  match rest with
  | None => Ok (ReaderExited, calls)
  | Some buf' => prepend calls (reader_loop id out buf' tail)
  end.
Proof.
  intros Hne. revert buf. induction Hne as [|chunk chunks Hc Hne IH]; intros buf Hb Hl Hinc.
  - simpl. rewrite app_nil_r, drain_incomplete by done. simpl. by rewrite prepend_nil.
  - destruct chunk as [|b chunk]; [done|]. cbn [map app]. rewrite reader_loop_cons.
    cbn [concat] in *. rewrite app_assoc in Hb, Hl |- *. rewrite (drain_app (buf ++ b :: chunk)) by done.
    apply bytes_ok_app in Hb as [Hb Hb'].
    destruct (drain_ok (buf ++ b :: chunk)) as ([rest calls] & -> & _ & Hd); [done|len_lia|].
    simpl in *. destruct rest as [rest|]; [|done]. destruct Hd as (Hrest & Hle & Hr & _).
    rewrite IH; [|by apply bytes_ok_app|len_lia|done].
    destruct (drain id out (rest ++ concat chunks)) as [[rest' calls']| | |]; simpl; try done.
    destruct rest'; [|done]. apply prepend_app.
Qed.

(** ** A stream of packets *)

(** A packet that a client may send while the connection goes on. *)
Definition client_packet (p : MqttPacket) : Prop :=
  decodable p /\ remaining_length p <= 268435455 /\ p <> Disconnect.

(** What the connection does for a sequence of packets. *)
Definition dispatch_all (ps : list MqttPacket) : list call :=
  concat (map (fun p => fst (dispatch_packet id p out)) ps).

Lemma drain_wire ps rest :
  Forall client_packet ps ->
  bytes_ok (concat (map wire ps) ++ rest) -> len (concat (map wire ps) ++ rest) <= isize_max ->
  drain id out (concat (map wire ps) ++ rest) = prepend (dispatch_all ps) (drain id out rest).
Proof.
  intros Hps. unfold dispatch_all. induction Hps as [|p ps (Hp & Hlen & Hnd) Hps IH]; intros Hb Hl.
  - simpl. by rewrite prepend_nil.
  - cbn [map concat] in *. rewrite <- app_assoc in Hb, Hl |- *.
    rewrite (drain_packet _ p (len (wire p)) (wire p) (concat (map wire ps) ++ rest));
      [|done|done|by apply decode_wire|done|done].
    pose proof (dispatch_goes_on id p out) as Hgo. rewrite bool_decide_eq_false_2 in Hgo by done.
    destruct (dispatch_packet id p out) as [cs go_on]. cbn [fst snd negb] in *. subst go_on.
    rewrite IH, prepend_app; [done|by apply bytes_ok_app in Hb as [_ ?]|len_lia].
Qed.

(** The stream ends at a packet boundary by an end of file, or by a DISCONNECT
    packet. *)
Lemma reader_loop_stream ps chunks :
  Forall client_packet ps ->
  Forall (fun chunk => chunk <> []) chunks -> concat chunks = concat (map wire ps) ->
  bytes_ok (concat chunks) -> len (concat chunks) <= isize_max ->
  reader_loop id out [] (map ReadOk chunks ++ [ReadOk []]) =
  Ok (ReaderExited, dispatch_all ps ++ teardown id out).
Proof.
  intros Hps Hne Hc Hb Hl. rewrite reader_loop_chunks by done. cbn [app]. rewrite Hc in *.
  pose proof (drain_wire ps []) as Hd. rewrite !app_nil_r in Hd. rewrite Hd by done.
  rewrite (drain_incomplete []) by done. simpl. by rewrite app_nil_r.
Qed.

Lemma reader_loop_disconnect ps chunks rest tail :
  Forall client_packet ps ->
  Forall (fun chunk => chunk <> []) chunks ->
  concat chunks = concat (map wire ps) ++ wire Disconnect ++ rest ->
  bytes_ok (concat chunks) -> len (concat chunks) <= isize_max ->
  reader_loop id out [] (map ReadOk chunks ++ tail) =
  Ok (ReaderExited, dispatch_all ps ++ teardown id out).
Proof.
  intros Hps Hne Hc Hb Hl. rewrite reader_loop_chunks by done. cbn [app]. rewrite Hc in *.
  rewrite drain_wire by done.
  rewrite (drain_packet (wire Disconnect ++ rest) Disconnect (len (wire Disconnect))
             (wire Disconnect) rest); try done.
  - by apply bytes_ok_app in Hb as [_ ?].
  - len_lia.
  - by apply decode_wire.
Qed.
End reader.

(** ** The writer *)

Definition event_wire (e : OutboundEvent) : bytes := let 'Packet p := e in wire p.

(** With a socket that takes every write, each event popped is one frame written, in
    order. *)
Lemma writer_loop_frames events tail writes :
  Forall frame_ok events -> Forall (fun w => w = WriteOk) writes -> (length events <= length writes)%nat ->
  writer_loop (map Some events ++ tail) writes =
  '(st, frames, calls) ← writer_loop tail (drop (length events) writes);
  Ok (st, map event_wire events ++ frames, calls).
Proof.
  intros Hev. revert writes. induction Hev as [|[p] events [Hp Hlen] Hev IH]; intros writes Hw Hl.
  - simpl. rewrite drop_0. by destruct (writer_loop tail writes) as [[[? ?] ?]| | |].
  - simpl. rewrite encode_wire by done. simpl.
    destruct Hw as [|w writes -> Hw]; simpl in Hl; [lia|].
    rewrite (IH writes) by (done || lia). simpl.
    by destruct (writer_loop tail (drop (length events) writes)) as [[[? ?] ?]| | |].
Qed.

(** ** On any broker *)

(** The calls never fail on a broker that keeps the interface's laws. *)
Lemma run_calls_ready {B} `{BrokerSendLaws B} cs (b : B) m :
  ready b -> exists b' m', run_calls cs (b, m) = Ok (b', m') /\ ready b'.
Proof.
  unfold run_calls. revert b m. induction cs as [|c cs IH]; intros b m Hb; [simpl; eauto|].
  cbn [foldM run_call]. destruct c as [msg|q e|q|w]; cbn [mbind outcome_bind]; try by apply IH.
  destruct (broker_send_ready b msg Hb) as (b' & -> & Hb'). cbn [mbind outcome_bind]. by apply IH.
Qed.

(** On a plain channel the messages arrive in order, whatever else is called. *)
Definition sends (cs : list call) : list BrokerMessage :=
  omap (fun c => match c with CallSend msg => Some msg | _ => None end) cs.

Lemma run_calls_channel cs mb m :
  exists m', run_calls cs (mkChannel mb true, m) = Ok (mkChannel (mb ++ sends cs) true, m').
Proof.
  unfold run_calls. revert mb m. induction cs as [|c cs IH]; intros mb m.
  - exists m. simpl. by rewrite app_nil_r.
  - destruct c as [msg|q e|q|w]; cbn [foldM run_call mbind outcome_bind]; try apply IH.
    destruct (IH (mb ++ [msg]) m) as [m' Hm]. exists m'. rewrite <- app_assoc in Hm. exact Hm.
Qed.
