(* ===== verification/Main.v ===== *)
(** * The broker's entry point (src/main.rs)

    [parse_args] on the argument vector, and [main] as the sequence of what it does
    to the process: the listener's and the accept loop's results are its input.
    [args_spec] reads the arguments by pattern matching; [parse_args] is equal to it. *)

From S2P Require Import Prelude Numbers Sharded.

Record Config : Type := mkConfig {
  host : rstring;
  port : Z;
  num_shards : Z;
}.

(** The two warnings of [parse_args]. *)
Inductive arg_warning : Type :=
| BadShards (v : rstring)
| Unrecognized (arg : rstring).

Definition default_config : Config := mkConfig (str "127.0.0.1") 1883 NUM_BROKER_SHARDS.

(** [args.get(i)] *)
Definition get_arg (args : list rstring) (i : Z) : option rstring := args !! Z.to_nat i.

(** The variables of the [while] loop. *)
Definition arg_state : Type := Z * Config * list arg_warning.

(** One iteration of the [while i < args.len()] loop. *)
Definition parse_args_step (args : list rstring) (st : arg_state)
    : outcome unit (arg_state + Config * list arg_warning) :=
  let '(i, cfg, warns) := st in
  if i <? len args then
    arg ← index args i;
    next ← add_usize i 1;
    '(i, cfg, warns) ←
      (if bool_decide (arg = str "--host") then
         match get_arg args next with
         | Some v => Ok (next, mkConfig v (port cfg) (num_shards cfg), warns)
         | None => Ok (i, cfg, warns)
         end
       else if bool_decide (arg = str "--port") then
         match get_arg args next with
         | Some v =>
             let cfg := match parse_uint u16_max v with
                        | Some p => mkConfig (host cfg) p (num_shards cfg)
                        | None => cfg
                        end in
             Ok (next, cfg, warns)
         | None => Ok (i, cfg, warns)
         end
       else if bool_decide (arg = str "--shards") then
         match get_arg args next with
         | Some v =>
             match parse_uint usize_max v with
             | Some n =>
                 if 1 <=? n then Ok (next, mkConfig (host cfg) (port cfg) n, warns)
                 else Ok (next, cfg, warns ++ [BadShards v])
             | None => Ok (next, cfg, warns ++ [BadShards v])
             end
         | None => Ok (i, cfg, warns)
         end
       else Ok (i, cfg, warns ++ [Unrecognized arg]));
    i ← add_usize i 1;
    Ok (inl (i, cfg, warns))
  else Ok (inr (cfg, warns)).

Definition parse_args (args : list rstring) : outcome unit (Config * list arg_warning) :=
  loop (S (length args)) (parse_args_step args) (1, default_config, []).

(** What [main] does, in order. *)
Inductive main_event : Type :=
| ArgWarning (w : arg_warning)
| ShardsActive (n : Z)
| BindFailed
| Listening
| HandleConnection (stream : Z)   (* a thread for an accepted stream *)
| AcceptError
| Exit (code : Z).

(** One iteration of the accept loop. *)
Definition accept_event (stream : option Z) : main_event :=
  match stream with Some s => HandleConnection s | None => AcceptError end.

(** [bind_ok]: [TcpListener::bind] succeeded; [incoming]: the accept results. *)
Definition main (sender_size : Z) (args : list rstring) (bind_ok : bool) (incoming : list (option Z))
    : outcome unit (list main_event) :=
  '(cfg, warns) ← parse_args args;
  _ ← spawn_sharded_broker (E:=unit) sender_size (num_shards cfg);
  let started := map ArgWarning warns ++ [ShardsActive (num_shards cfg)] in
  if negb bind_ok then Ok (started ++ [BindFailed; Exit 1])
  else Ok (started ++ [Listening] ++ map accept_event incoming).

(** ** The arguments, read as a list *)

Definition set_port (v : rstring) (cfg : Config) : Config :=
  match parse_uint u16_max v with
  | Some p => mkConfig (host cfg) p (num_shards cfg)
  | None => cfg
  end.

Definition set_shards (v : rstring) (cfg : Config) : Config * list arg_warning :=
  match parse_uint usize_max v with
  | Some n => if 1 <=? n then (mkConfig (host cfg) (port cfg) n, []) else (cfg, [BadShards v])
  | None => (cfg, [BadShards v])
  end.

(** A flag takes the argument behind it, whatever it is; the last flag of the list
    without one is ignored. *)
Fixpoint args_spec (args : list rstring) (cfg : Config) : Config * list arg_warning :=
  match args with
  | [] => (cfg, [])
  | arg :: rest =>
      if bool_decide (arg = str "--host") then
        match rest with
        | v :: rest' => args_spec rest' (mkConfig v (port cfg) (num_shards cfg))
        | [] => (cfg, [])
        end
      else if bool_decide (arg = str "--port") then
        match rest with
        | v :: rest' => args_spec rest' (set_port v cfg)
        | [] => (cfg, [])
        end
      else if bool_decide (arg = str "--shards") then
        match rest with
        | v :: rest' =>
            let '(cfg, w) := set_shards v cfg in
            let '(cfg, ws) := args_spec rest' cfg in (cfg, w ++ ws)
        | [] => (cfg, [])
        end
      else let '(cfg, ws) := args_spec rest cfg in (cfg, Unrecognized arg :: ws)
  end.

Example parse_args_sample :
  parse_args (map str ["blitzbroker"; "--port"; "18830"; "--shards"; "0"; "-v"; "--host"; "::1"]) =
  Ok (mkConfig (str "::1") 18830 4, [BadShards (str "0"); Unrecognized (str "-v")]).
Proof. reflexivity. Qed.

Section parse.
Context (args : list rstring) (Hlen : len args <= isize_max).

(** What is left of the arguments from [i] on, when its first is known. *)
Lemma arg_at i arg rest :
  1 <= i -> drop (Z.to_nat i) args = arg :: rest ->
  i < len args /\ index (E:=unit) args i = Ok arg /\
  drop (Z.to_nat (i + 1)) args = rest /\ get_arg args (i + 1) = head rest.
Proof.
  intros Hi Hd.
  assert (Ha : args !! Z.to_nat i = Some arg).
  { rewrite <- (Nat.add_0_r (Z.to_nat i)), <- lookup_drop, Hd. done. }
  assert (Hr : drop (Z.to_nat (i + 1)) args = rest).
  { replace (Z.to_nat (i + 1)) with (Z.to_nat i + 1)%nat by lia. rewrite <- drop_drop, Hd. done. }
  apply lookup_lt_Some in Ha as Hlt. split_and!; [unfold len; lia| |done|].
  - unfold index. destruct (Z.ltb_spec i 0); [lia|]. by rewrite Ha.
  - unfold get_arg. by rewrite <- Hr, head_lookup, lookup_drop, Nat.add_0_r.
Qed.

(** What one argument does: whether it takes the next one, and the rest. *)
Definition arg_effect (arg : rstring) (rest : list rstring) (cfg : Config)
    : nat * Config * list arg_warning :=
  match rest with
  | v :: _ =>
      if bool_decide (arg = str "--host") then (1%nat, mkConfig v (port cfg) (num_shards cfg), [])
      else if bool_decide (arg = str "--port") then (1%nat, set_port v cfg, [])
      else if bool_decide (arg = str "--shards") then
        let '(cfg, w) := set_shards v cfg in (1%nat, cfg, w)
      else (0%nat, cfg, [Unrecognized arg])
  | [] =>
      if bool_decide (arg = str "--host") || bool_decide (arg = str "--port") ||
         bool_decide (arg = str "--shards") then (0%nat, cfg, [])
      else (0%nat, cfg, [Unrecognized arg])
  end.

Lemma args_spec_effect arg rest cfg :
  args_spec (arg :: rest) cfg =
  let '(extra, cfg', w) := arg_effect arg rest cfg in
  let '(cfg'', ws) := args_spec (drop extra rest) cfg' in (cfg'', w ++ ws).
Proof.
  cbn [args_spec]. unfold arg_effect. destruct rest as [|v rest].
  - repeat case_bool_decide; done.
  - destruct (set_shards v cfg) as [c1 w1]. repeat case_bool_decide; cbn [drop app]; rewrite ?drop_0;
      match goal with |- context [args_spec ?a ?b] => by destruct (args_spec a b) end.
Qed.

Lemma parse_args_step_end i cfg warns :
  drop (Z.to_nat i) args = [] -> 1 <= i ->
  parse_args_step args (i, cfg, warns) = Ok (inr (cfg, warns)).
Proof.
  intros Hd Hi. unfold parse_args_step. destruct (Z.ltb_spec i (len args)); [|done].
  apply (f_equal length) in Hd. rewrite length_drop in Hd. unfold len in *. simpl in Hd. lia.
Qed.

Lemma parse_args_step_arg i cfg warns arg rest :
  1 <= i -> drop (Z.to_nat i) args = arg :: rest ->
  parse_args_step args (i, cfg, warns) =
  let '(extra, cfg', w) := arg_effect arg rest cfg in
  Ok (inl (i + 1 + Z.of_nat extra, cfg', warns ++ w)).
Proof.
  intros Hi Hd. destruct (arg_at i arg rest Hi Hd) as (Hlt & Hidx & Hrest & Hget).
  assert (Hmax : i + 1 + 1 <= usize_max) by (unfold isize_max, usize_max in *; lia).
  unfold parse_args_step. rewrite (proj2 (Z.ltb_lt _ _) Hlt), Hidx.
  cbn [mbind outcome_bind]. rewrite (add_usize_ok i 1) by lia. cbn [mbind outcome_bind].
  rewrite Hget. unfold arg_effect, set_port, set_shards.
  destruct rest as [|v rest]; cbn [head]; repeat (case_bool_decide; cbn [orb]); repeat case_match;
    simplify_eq; cbn [mbind outcome_bind]; rewrite add_usize_ok by lia; cbn [mbind outcome_bind];
    rewrite ?app_nil_r, ?Z.add_0_r; done.
Qed.

(** The loop from [i] on does what [args_spec] says of the rest. *)
Lemma parse_args_loop fuel i cfg warns :
  1 <= i -> (length (drop (Z.to_nat i) args) < fuel)%nat ->
  loop fuel (parse_args_step args) (i, cfg, warns) =
  Ok (let '(cfg', ws) := args_spec (drop (Z.to_nat i) args) cfg in (cfg', warns ++ ws)).
Proof.
  revert i cfg warns. induction fuel as [|fuel IH]; intros i cfg warns Hi Hf; [lia|]. cbn [loop].
  destruct (drop (Z.to_nat i) args) as [|arg rest] eqn:Hd.
  - rewrite parse_args_step_end by done. simpl. by rewrite app_nil_r.
  - rewrite (parse_args_step_arg i cfg warns arg rest Hi Hd), args_spec_effect.
    destruct (arg_effect arg rest cfg) as [[extra cfg'] w]. cbn [mbind outcome_bind].
    assert (Hdrop : drop (Z.to_nat (i + 1 + Z.of_nat extra)) args = drop extra rest).
    { replace (Z.to_nat _) with (Z.to_nat i + (1 + extra))%nat by lia.
      rewrite <- drop_drop, Hd. done. }
    rewrite IH, Hdrop; [|lia|rewrite Hdrop, length_drop; simpl in Hf; lia].
    destruct (args_spec (drop extra rest) cfg') as [c ws]. by rewrite app_assoc.
Qed.

Lemma parse_args_eq : parse_args args = Ok (args_spec (tail args) default_config).
Proof.
  unfold parse_args. rewrite parse_args_loop; [|lia|rewrite length_drop; lia].
  change (Z.to_nat 1) with 1%nat. replace (drop 1 args) with (tail args) by by destruct args.
  by destruct (args_spec (tail args) default_config).
Qed.
End parse.

(** The configuration that any arguments give. *)
Definition config_ok (cfg : Config) : Prop :=
  0 <= port cfg <= u16_max /\ 1 <= num_shards cfg <= usize_max.

Lemma set_port_ok v cfg : config_ok cfg -> config_ok (set_port v cfg).
Proof.
  intros [Hp Hn]. unfold set_port. destruct (parse_uint u16_max v) eqn:Hv; [|by split].
  split; [|done]. by apply parse_uint_range in Hv.
Qed.

Lemma set_shards_ok v cfg : config_ok cfg -> config_ok (fst (set_shards v cfg)).
Proof.
  intros [Hp Hn]. unfold set_shards. destruct (parse_uint usize_max v) as [n|] eqn:Hv; [|by split].
  apply parse_uint_range in Hv; [|done]. destruct (Z.leb_spec 1 n); [|by split]. by split; [|simpl; lia].
Qed.

Lemma args_spec_ok args cfg : config_ok cfg -> config_ok (fst (args_spec args cfg)).
Proof.
  remember (length args) as k eqn:Hk. revert args Hk cfg.
  induction k as [k IH] using lt_wf_ind. intros args -> cfg Hc. destruct args as [|arg rest]; [done|].
  cbn [args_spec]. repeat case_bool_decide.
  - destruct rest as [|v rest]; [done|]. eapply IH; [|done|done]. simpl. lia.
  - destruct rest as [|v rest]; [done|]. eapply IH; [|done|by apply set_port_ok]. simpl. lia.
  - destruct rest as [|v rest]; [done|]. pose proof (set_shards_ok v cfg Hc) as Hc'.
    destruct (set_shards v cfg) as [cfg' w]. specialize (IH (length rest) ltac:(simpl; lia) rest eq_refl cfg' Hc').
    by destruct (args_spec rest cfg').
  - specialize (IH (length rest) ltac:(simpl; lia) rest eq_refl cfg Hc). by destruct (args_spec rest cfg).
Qed.

Lemma default_config_ok : config_ok default_config.
Proof. by vm_compute. Qed.
