(* ===== verification/Logging.v ===== *)
(** * The log (src/logging.rs) and what the broker writes to it

    A line is the bytes that one call prints.  The clock is an input; the texts of
    [std::io::Error] and the [Debug] format of a string are parameters. *)

From S2P Require Import Prelude Numbers Errors Broker Connection.
From S2P Require Main.

Inductive log_stream : Type := Stdout | Stderr.

(** [now]: the seconds since the epoch, unless the clock is before it. *)
Definition timestamp (now : option Z) : Z := default 0 now.

Definition info (now : option Z) (msg : rstring) : log_stream * rstring :=
  (Stdout, str "[" ++ display (timestamp now) ++ str "] INFO  " ++ msg ++ [10]).

Definition warn (now : option Z) (msg : rstring) : log_stream * rstring :=
  (Stdout, str "[" ++ display (timestamp now) ++ str "] WARN  " ++ msg ++ [10]).

Definition error (now : option Z) (msg : rstring) : log_stream * rstring :=
  (Stderr, str "[" ++ display (timestamp now) ++ str "] ERROR " ++ msg ++ [10]).

(** ** The warnings of a connection (src/connection.rs) *)

Definition warning_text (io_text : rstring) (id : ConnectionId) (w : warning) : rstring :=
  str "connection " ++ display id ++
  match w with
  | CloneError => str ": failed to clone socket: " ++ io_text
  | ReadError => str ": read error: " ++ io_text
  | ProtocolFailure e => str ": protocol error: " ++ str (ProtocolError_fmt e)
  | WriteError => str ": write error: " ++ io_text
  end.

Definition connection_log (now : option Z) (io_text : rstring) (id : ConnectionId) (calls : list call)
    : list (log_stream * rstring) :=
  omap (fun c => match c with CallWarn w => Some (warn now (warning_text io_text id w)) | _ => None end) calls.

(** ** The lines of [main] (src/main.rs) *)

Section main_log.
  Context (now : option Z) (io_text : rstring) (debug : rstring -> rstring) (cfg : Main.Config).

Definition addr : rstring := Main.host cfg ++ str ":" ++ display (Main.port cfg).

Definition main_line (e : Main.main_event) : option (log_stream * rstring) :=
  match e with
  | Main.ArgWarning (Main.BadShards v) =>
      Some (warn now (str "--shards must be a positive integer, ignoring value " ++ debug v))
  | Main.ArgWarning (Main.Unrecognized arg) =>
      Some (warn now (str "ignoring unrecognized argument: " ++ arg))
  | Main.ShardsActive n =>
      Some (info now (str "BlitzBroker: " ++ display n ++ str " broker shard(s) active"))
  | Main.BindFailed => Some (error now (str "failed to bind " ++ addr ++ str ": " ++ io_text))
  | Main.Listening => Some (info now (str "BlitzBroker listening on " ++ addr))
  | Main.AcceptError => Some (warn now (str "accept error: " ++ io_text))
  | Main.HandleConnection _ | Main.Exit _ => None
  end.

Definition main_log (events : list Main.main_event) : list (log_stream * rstring) := omap main_line events.
End main_log.

Example warn_sample :
  warn (Some 17) (warning_text [] 3 (ProtocolFailure (UnknownPacketType 15))) =
  (Stdout, str "[17] WARN  connection 3: protocol error: unknown packet type: 0x0f" ++ [10]).
Proof. reflexivity. Qed.

(** ** A line is a line *)

Lemma one_line_str s : one_line s = true -> 10 ∉ str s.
Proof.
  unfold one_line, str. induction (String.list_ascii_of_string s) as [|a l IH]; cbn; [intros _ ?%elem_of_nil; done|].
  intros [Ha Hl]%andb_true_iff [Heq|Hin]%elem_of_cons; [|by apply IH].
  apply negb_true_iff, Ascii.eqb_neq in Ha. apply Ha.
  rewrite <- (Ascii.ascii_N_embedding a). rewrite <- (N2Z.id (Ascii.N_of_ascii a)), <- Heq. reflexivity.
Qed.

Lemma display_one_line n : 0 <= n <= usize_max -> 10 ∉ display n.
Proof.
  intros [Hd _]%display_ascii Hin. rewrite Forall_forall in Hd. by apply Hd in Hin.
Qed.

Lemma warning_one_line io_text id w :
  10 ∉ io_text -> 0 <= id <= usize_max ->
  match w with ProtocolFailure e => one_line (ProtocolError_fmt e) = true | _ => True end ->
  10 ∉ warning_text io_text id w.
Proof.
  intros Hio Hid Hw. unfold warning_text. rewrite !elem_of_app.
  intros [Hin|[Hin|Hin]]; [|by apply display_one_line in Hin|].
  - by apply one_line_str in Hin.
  - destruct w; apply elem_of_app in Hin as [Hin|Hin]; try done; by apply one_line_str in Hin.
Qed.

Lemma warn_one_line now msg :
  0 <= timestamp now <= usize_max -> 10 ∉ msg ->
  exists text, warn now msg = (Stdout, text ++ [10]) /\ 10 ∉ text.
Proof.
  intros Hn Hm. exists (str "[" ++ display (timestamp now) ++ str "] WARN  " ++ msg).
  split; [unfold warn; by rewrite <- !app_assoc|]. rewrite !elem_of_app.
  intros [Hin|[Hin|[Hin|Hin]]]; [|by apply display_one_line in Hin| |done]; by apply one_line_str in Hin.
Qed.
