(* ===== verification/Socket.v ===== *)
(** * A blocking TCP stream, as the programs under src/bin use it

    The two command-line programs share [std::net::TcpStream] and no code.  A stream is
    the bytes still to come before the peer closes, the results of the writes to come
    and the bytes written. *)

From S2P Require Import Prelude.

Record socket : Type := mkSocket {
  incoming : bytes;
  write_results : list bool;
  sent : bytes;
}.

(** [stream.read_exact] into [n] bytes, on the bytes still to come. *)
Definition read_exact {E} (e : E) (n : Z) (stream : bytes) : outcome E (bytes * bytes) :=
  if n <=? len stream then Ok (take (Z.to_nat n) stream, drop (Z.to_nat n) stream) else Err e.

(** [stream.write_all]. *)
Definition write_all {E} (e : E) (pkt : bytes) (s : socket) : outcome E socket :=
  match write_results s with
  | true :: ws => Ok (mkSocket (incoming s) ws (sent s ++ pkt))
  | _ => Err e
  end.

(** [Result::unwrap]. *)
Definition unwrap {E F A} (o : outcome E A) : outcome F A :=
  match o with
  | Ok a => Ok a
  | Err _ | Panic => Panic
  | Diverge => Diverge
  end.
