(* ===== verification/Client.v ===== *)
(** * The command-line client's codec (src/bin/blitzclient.rs, lines 19 to 306)

    The client shares no code with the broker: its encoders, its decoders and
    [read_packet], which reads one packet from the socket.  An error text of the
    source is a constructor of [client_error], with the values it shows. *)

From S2P Require Import Prelude Utf8 Socket.

Inductive client_error : Type :=
(* the wire format *)
| RlExceeds4 | RlTruncated
| StrPrefixTruncated (pos buf_len : Z) | StrOverflow
| StrBodyTruncated (end_ buf_len : Z) | StrInvalidUtf8 (start end_ : Z)
| ReadHeader | ReadRl | RlMoreThan4 | ReadBody (body_len : Z)
| ConnackShort (n : Z) | SubackShort (n : Z) | PubackShort (n : Z)
| PublishTruncated (pos buf_len : Z) | PublishIdZero
(* the flows *)
| TcpConnect | WriteConnect | ExpectedConnack (t : Z) | ConnackRefused (rc : Z) (reason : string)
| WritePublish | ExpectedPuback (t : Z) | PubackMismatch (sent acked : Z) | WriteDisconnect
| WriteSubscribe | ExpectedSuback (t : Z) | SubackMismatch (sent got : Z)
| SubackRefused | SubackNoCodes.

Definition PT_CONNECT : Z := 1.
Definition PT_CONNACK : Z := 2.
Definition PT_PUBLISH : Z := 3.
Definition PT_PUBACK : Z := 4.
Definition PT_SUBSCRIBE : Z := 8.
Definition PT_SUBACK : Z := 9.
Definition PT_DISCONNECT : Z := 14.

(** ** Wire-format helpers *)

Definition encode_remaining_length_step {E} (st : Z * bytes) : outcome E (Z * bytes + bytes) :=
  let '(n, out) := st in
  let encoded_byte := as_u8 (n mod 128) in
  let n := n / 128 in
  let encoded_byte := if 0 <? n then Z.lor encoded_byte 128 else encoded_byte in
  let out := out ++ [encoded_byte] in
  if n =? 0 then Ok (inr out) else Ok (inl (n, out)).

Definition encode_remaining_length {E} (n : Z) : outcome E bytes :=
  loop 5 encode_remaining_length_step (n, []).

Definition decode_remaining_length_step (buf : bytes) (st : Z * Z)
    : outcome client_error (Z * Z + Z * Z) :=
  let '(value, i) := st in
  if 4 <=? i then Err RlExceeds4
  else if len buf <=? i then Err RlTruncated
  else
    byte ← index buf i;
    multiplier ← pow_u32 128 (as_u32 i);
    term ← mul_u32 (Z.land byte 127) multiplier;
    value ← add_u32 value term;
    i ← add_usize i 1;
    if Z.land byte 128 =? 0 then Ok (inr (value, i)) else Ok (inl (value, i)).

Definition decode_remaining_length (buf : bytes) : outcome client_error (Z * Z) :=
  loop 5 (decode_remaining_length_step buf) (0, 0).

Definition encode_utf8_str {E} (s : rstring) (out : bytes) : outcome E bytes :=
  let n := as_u16 (Z.min (len s) u16_max) in
  let out := out ++ u16_to_be_bytes n in
  field ← slice s 0 n;
  Ok (out ++ field).

Definition decode_utf8_str (buf : bytes) (pos : Z) : outcome client_error (rstring * Z) :=
  start ← add_usize pos 2;
  if len buf <? start then Err (StrPrefixTruncated pos (len buf))
  else
    b0 ← index buf pos;
    pos1 ← add_usize pos 1;
    b1 ← index buf pos1;
    let str_len := u16_from_be_bytes b0 b1 in
    end_ ← ok_or StrOverflow (checked_add_usize start str_len);
    if len buf <? end_ then Err (StrBodyTruncated end_ (len buf))
    else
      field ← slice buf start end_;
      s ← ok_or (StrInvalidUtf8 start end_) (from_utf8 field);
      Ok (s, end_).

Definition make_packet {E} (packet_type flags : Z) (body : bytes) : outcome E bytes :=
  rl ← encode_remaining_length (as_u32 (len body));
  Ok (Z.lor (as_u8 (Z.shiftl packet_type 4)) (Z.land flags 15) :: rl ++ body).

(** ** Encoders *)

Definition encode_connect {E} (client_id : rstring) (keep_alive : Z) : outcome E bytes :=
  body ← encode_utf8_str (str "MQTT") [];
  let body := body ++ [4] in
  let body := body ++ [2] in
  let body := body ++ u16_to_be_bytes keep_alive in
  body ← encode_utf8_str client_id body;
  make_packet PT_CONNECT 0 body.

Definition encode_subscribe {E} (packet_id : Z) (filter : rstring) (qos : Z) : outcome E bytes :=
  let body := u16_to_be_bytes packet_id in
  body ← encode_utf8_str filter body;
  let body := body ++ [Z.land qos 3] in
  make_packet PT_SUBSCRIBE 2 body.

Definition encode_publish {E} (topic : rstring) (payload : bytes) (qos : Z) (packet_id : option Z)
    : outcome E bytes :=
  body ← encode_utf8_str topic [];
  let body :=
    if 0 <? qos then
      let pid := default 1 packet_id in
      body ++ u16_to_be_bytes pid
    else body in
  let body := body ++ payload in
  let flags := as_u8 (Z.shiftl (Z.land qos 3) 1) in
  make_packet PT_PUBLISH flags body.

Definition encode_disconnect : bytes := [as_u8 (Z.shiftl PT_DISCONNECT 4); 0].

(** ** Decoders *)

(** One iteration of the loop that reads the remaining length. *)
Definition read_rl_step (st : bytes * bytes) : outcome client_error (bytes * bytes + bytes * bytes) :=
  let '(stream, rl_bytes) := st in
  '(b, stream) ← read_exact ReadRl 1 stream;
  b0 ← index b 0;
  let rl_bytes := rl_bytes ++ [b0] in
  if Z.land b0 128 =? 0 then Ok (inr (stream, rl_bytes))
  else if 4 <=? len rl_bytes then Err RlMoreThan4
  else Ok (inl (stream, rl_bytes)).

(** [read_packet]: the type, the flags and the body, and the rest of the stream. *)
Definition read_packet (stream : bytes) : outcome client_error ((Z * Z * bytes) * bytes) :=
  '(header_byte, stream) ← read_exact ReadHeader 1 stream;
  b ← index header_byte 0;
  let packet_type := Z.shiftr b 4 in
  let flags := Z.land b 15 in
  '(stream, rl_bytes) ← loop 5 read_rl_step (stream, []);
  '(remaining_len, _) ← decode_remaining_length rl_bytes;
  let body_len := remaining_len in
  '(body, stream) ←
    (if 0 <? body_len then read_exact (ReadBody body_len) body_len stream
     else Ok ([], stream));
  Ok ((packet_type, flags, body), stream).

Definition decode_connack_body (body : bytes) : outcome client_error (bool * Z) :=
  if len body <? 2 then Err (ConnackShort (len body))
  else
    b0 ← index body 0;
    let session_present := negb (Z.land b0 1 =? 0) in
    return_code ← index body 1;
    Ok (session_present, return_code).

Definition decode_suback_body (body : bytes) : outcome client_error (Z * list Z) :=
  if len body <? 3 then Err (SubackShort (len body))
  else
    b0 ← index body 0;
    b1 ← index body 1;
    let packet_id := u16_from_be_bytes b0 b1 in
    return_codes ← slice_from body 2;
    Ok (packet_id, return_codes).

(** The packet identifier of a PUBLISH, and the new position. *)
Definition decode_publish_pid (qos : Z) (body : bytes) (pos : Z) : outcome client_error (option Z * Z) :=
  if 0 <? qos then
    need ← add_usize pos 2;
    if len body <? need then Err (PublishTruncated pos (len body))
    else
      b0 ← index body pos;
      pos1 ← add_usize pos 1;
      b1 ← index body pos1;
      let pid := u16_from_be_bytes b0 b1 in
      if pid =? 0 then Err PublishIdZero
      else
        pos ← add_usize pos 2;
        Ok (Some pid, pos)
  else Ok (None, pos).

Definition decode_publish_body (flags : Z) (body : bytes)
    : outcome client_error (rstring * bytes * Z * option Z) :=
  let qos := Z.land (Z.shiftr flags 1) 3 in
  '(topic, pos) ← decode_utf8_str body 0;
  '(packet_id, pos) ← decode_publish_pid qos body pos;
  payload ← slice_from body pos;
  Ok (topic, payload, qos, packet_id).

Definition decode_puback_body (body : bytes) : outcome client_error Z :=
  if len body <? 2 then Err (PubackShort (len body))
  else
    b0 ← index body 0;
    b1 ← index body 1;
    Ok (u16_from_be_bytes b0 b1).

Example read_sample :
  read_packet [48; 5; 0; 1; 116; 104; 105; 208; 0] = Ok ((3, 0, [0; 1; 116; 104; 105]), [208; 0]).
Proof. reflexivity. Qed.
Example decode_publish_body_sample :
  decode_publish_body 0 [0; 1; 116; 104; 105] = Ok (str "t", str "hi", 0, None).
Proof. reflexivity. Qed.
