(* ===== verification/ClientSpec.v ===== *)
(** * The client and the broker read each other (src/bin/blitzclient.rs)

    The two codecs share no code.  What the client encodes is the broker's wire format
    and the broker decodes it to the packet that was meant; what the broker encodes,
    [read_packet] takes from the stream as one packet and the client's decoders give
    its fields back.  No client decoder panics, whatever bytes arrive. *)

From S2P Require Import Prelude Utf8 Errors Packets RemainingLength Topics.
From S2P Require Import Wire Codec CodecSafety CodecRoundtrip Socket.
From S2P Require Client.

(** ** The client's encoders *)

Lemma client_utf8_str {E} s out :
  len s <= 65535 -> Client.encode_utf8_str (E:=E) s out = Ok (out ++ field s).
Proof. apply encode_utf8_string_eq. Qed.

(** The two encoders of a CONNECT are the same function. *)
Lemma client_encode_connect {E} cid keep :
  Client.encode_connect (E:=E) cid keep = encode (Connect (mkConnect (str "MQTT") 4 true keep cid)).
Proof. reflexivity. Qed.

Lemma client_encode_subscribe {E} id f q :
  0 <= q <= 2 -> len f <= 65535 ->
  Client.encode_subscribe (E:=E) id f q = encode (Subscribe (mkSubscribe id [(f, q)])).
Proof.
  intros Hq Hf. unfold Client.encode_subscribe. cbn [encode]. unfold encode_subscribe.
  cbn [sub_packet_id subscriptions foldM]. rewrite client_utf8_str, encode_utf8_string_eq by done.
  cbn [mbind outcome_bind]. rewrite land_3, Z.mod_small by lia. done.
Qed.

(** A packet identifier goes with QoS 1 only. *)
Lemma client_encode_publish {E} t data q id :
  publish_id_ok q id -> len t <= 65535 ->
  Client.encode_publish (E:=E) t data q id = encode (Publish (mkPublish t data q false id)).
Proof.
  intros Hid Ht. unfold Client.encode_publish. cbn [encode]. unfold encode_publish.
  cbn [topic payload qos retain pub_packet_id]. rewrite client_utf8_str, encode_utf8_string_eq by done.
  destruct id as [id|]; simpl in Hid; [destruct Hid as [-> _]|subst q]; done.
Qed.

(** ** Reading from the stream *)

Lemma read_exact_ok {E} (e : E) l rest n :
  n = len l -> read_exact e n (l ++ rest) = Ok (l, rest).
Proof.
  intros ->. unfold read_exact. destruct (Z.leb_spec (len l) (len (l ++ rest))); [|len_lia].
  by rewrite len_to_nat, take_app_length, drop_app_length.
Qed.

Lemma read_rl_step_digit b s pre :
  0 <= b < 256 ->
  Client.read_rl_step (b :: s, pre) =
  if b <? 128 then Ok (inr (s, pre ++ [b]))
  else if 4 <=? len pre + 1 then Err Client.RlMoreThan4 else Ok (inl (s, pre ++ [b])).
Proof.
  intros Hb. unfold Client.read_rl_step. change (b :: s) with ([b] ++ s).
  rewrite read_exact_ok by done. cbn [mbind outcome_bind]. rewrite index_head. cbn [mbind outcome_bind].
  rewrite land_128 by done. cbn zeta. replace (len (pre ++ [b])) with (len pre + 1) by len_lia.
  destruct (Z.ltb_spec b 128), (Z.eqb_spec (b / 128 * 128) 0); try done; lia.
Qed.

(** The loop takes the digits of a remaining length, and no more. *)
Lemma read_rl_digits k fuel x pre rest :
  (0 < k <= fuel)%nat -> 0 <= x < 128 ^ Z.of_nat k -> len pre + Z.of_nat k <= 4 ->
  loop fuel Client.read_rl_step (rl_digits k x ++ rest, pre) = Ok (rest, pre ++ rl_digits k x).
Proof.
  revert fuel x pre. induction k as [|k IH]; intros fuel x pre Hk Hx Hpre; [lia|].
  rewrite pow_128_succ in Hx. cbn [rl_digits]. destruct fuel as [|fuel]; [lia|]. cbn [loop].
  destruct (Z.ltb_spec x 128); cbn [app].
  - rewrite read_rl_step_digit by lia. by replace (x <? 128) with true by lia.
  - rewrite read_rl_step_digit by lia. replace (_ <? 128) with false by lia.
    destruct k as [|k]; [change (128 ^ Z.of_nat 0) with 1 in Hx; lia|].
    replace (4 <=? len pre + 1) with false by lia. cbn [mbind outcome_bind].
    rewrite IH; [by rewrite <- app_assoc|lia|split; [lia|apply Z.div_lt_upper_bound; lia]|len_lia].
Qed.

(** The two decoders of the remaining length agree up to their errors. *)
Definition rl_error (e : ProtocolError) : Client.client_error :=
  match e with Incomplete => Client.RlTruncated | _ => Client.RlExceeds4 end.

Lemma client_decode_remaining_length buf :
  Client.decode_remaining_length buf = map_err rl_error (decode_remaining_length buf).
Proof.
  apply loop_map_err. intros [v i].
  unfold Client.decode_remaining_length_step, decode_remaining_length_step.
  destruct (Z.leb_spec 4 i); [done|]. destruct (len buf <=? i); [done|].
  unfold index. destruct (Z.ltb_spec i 0); [done|].
  destruct (buf !! Z.to_nat i) as [b|]; [|done]. cbn [mbind outcome_bind map_err].
  unfold as_u32. rewrite Z.mod_small by lia.
  unfold pow_u32, mul_u32, add_u32, add_usize.
  repeat (case_match; simplify_eq/=; try done).
Qed.

(** The header of a packet is its type and its flags. *)
Lemma header_nibbles b : 0 <= b < 256 -> Z.shiftr b 4 = b / 16 /\ Z.land b 15 = b mod 16.
Proof.
  intros Hb. change 15 with (Z.ones 4). rewrite Z.land_ones, Z.shiftr_div_pow2 by lia. done.
Qed.

(** [read_packet] takes exactly one packet off the stream. *)
Lemma read_packet_wire p rest :
  0 <= wire_header p < 256 -> remaining_length p <= 268435455 ->
  Client.read_packet (wire p ++ rest) =
  Ok ((wire_header p / 16, wire_header p mod 16, wire_body p), rest).
Proof.
  intros Hh Hl. unfold Client.read_packet, wire.
  change ((?h :: ?l) ++ ?r) with ([h] ++ (l ++ r)). rewrite <- app_assoc.
  rewrite read_exact_ok by done. cbn [mbind outcome_bind]. rewrite index_head. cbn [mbind outcome_bind].
  destruct (header_nibbles _ Hh) as [-> ->]. rewrite wire_body_len.
  pose proof (len_nonneg (wire_body p)) as Hn. rewrite wire_body_len in Hn.
  change 5%nat with (4 + 1)%nat.
  rewrite rl_digits_enough by (change (128 ^ Z.of_nat 4) with 268435456; lia).
  rewrite (read_rl_digits 4 (4 + 1)) by (change (128 ^ Z.of_nat 4) with 268435456; autorewrite with len; lia).
  cbn [mbind outcome_bind app].
  rewrite client_decode_remaining_length.
  rewrite <- (rl_digits_enough 4 1) by (change (128 ^ Z.of_nat 4) with 268435456; lia).
  change (4 + 1)%nat with 5%nat.
  pose proof (decode_encode_remaining_length (remaining_length p) []) as Hd. rewrite app_nil_r in Hd.
  rewrite Hd by lia. cbn [map_err mbind outcome_bind].
  destruct (Z.ltb_spec 0 (remaining_length p)).
  - rewrite read_exact_ok by (by rewrite wire_body_len). done.
  - assert (Hz : wire_body p = []) by (apply len_zero; rewrite wire_body_len; lia).
    by rewrite Hz.
Qed.

(** ** The client's decoders on the broker's packets *)

Lemma client_decode_connack p :
  Client.decode_connack_body (wire_body (ConnAck p)) =
  Ok (session_present p, ConnectReturnCode_u8 (return_code p)).
Proof. by destruct p as [[] []]. Qed.

Lemma client_decode_suback p :
  u16 (suback_packet_id p) -> return_codes p <> [] ->
  Client.decode_suback_body (wire_body (SubAck p)) = Ok (suback_packet_id p, return_codes p).
Proof.
  intros Hid Hrc. cbn [wire_body]. unfold Client.decode_suback_body.
  replace (_ <? 3) with false.
  2: { symmetry. apply Z.ltb_ge. destruct (return_codes p); [done|]. len_lia. }
  unfold u16_to_be_bytes. cbn [app]. rewrite index_head. cbn [mbind outcome_bind].
  rewrite index_second. cbn [mbind outcome_bind].
  rewrite slice_from_second. cbn [mbind outcome_bind]. by rewrite u16_be_roundtrip.
Qed.

Lemma client_decode_puback p :
  u16 (puback_packet_id p) ->
  Client.decode_puback_body (wire_body (PubAck p)) = Ok (puback_packet_id p).
Proof.
  intros Hid. cbn [wire_body]. unfold Client.decode_puback_body, u16_to_be_bytes.
  rewrite index_head. cbn [len length mbind outcome_bind].
  rewrite index_second. cbn [mbind outcome_bind]. by rewrite u16_be_roundtrip.
Qed.

Lemma client_decode_utf8_str_field s rest :
  rstring_ok s -> len rest <= 268435455 ->
  Client.decode_utf8_str (field s ++ rest) 0 = Ok (s, 2 + len s).
Proof.
  intros [Hv Hl] Hr. pose proof (len_nonneg s). pose proof (len_nonneg rest).
  unfold Client.decode_utf8_str. rewrite (add_usize_ok 0 2), (add_usize_ok 0 1) by done. cbn [mbind outcome_bind].
  replace (_ <? 0 + 2) with false by (symmetry; apply Z.ltb_ge; len_lia).
  unfold field, u16_to_be_bytes. cbn [app]. rewrite index_head. cbn [mbind outcome_bind].
  rewrite index_second. cbn [mbind outcome_bind].
  rewrite u16_be_roundtrip by lia. unfold checked_add_usize.
  replace (_ <=? usize_max) with true by (unfold usize_max; lia). cbn [ok_or mbind outcome_bind].
  replace (_ <? 0 + 2 + len s) with false by (symmetry; apply Z.ltb_ge; len_lia).
  change (len s / 256 :: len s mod 256 :: s ++ rest) with (u16_to_be_bytes (len s) ++ s ++ rest).
  rewrite (slice_at (u16_to_be_bytes (len s)) s rest) by len_lia.
  cbn [mbind outcome_bind]. unfold from_utf8. by rewrite Hv.
Qed.

(** The packet identifier behind the topic. *)
Lemma client_decode_publish_pid q id t data :
  publish_id_ok q id -> len t <= 65535 -> len data <= 268435455 ->
  Client.decode_publish_pid q
    (field t ++ match id with Some id => u16_to_be_bytes id | None => [] end ++ data) (2 + len t) =
  Ok (id, 2 + len t + match id with Some _ => 2 | None => 0 end).
Proof.
  intros Hid Ht Hd. pose proof (len_nonneg data). pose proof (len_nonneg t).
  unfold Client.decode_publish_pid. destruct id as [id|]; simpl in Hid.
  2: { subst q. cbn. by rewrite Z.add_0_r. }
  destruct Hid as [-> Hid]. unfold nonzero_u16 in Hid.
  set (body := field t ++ u16_to_be_bytes id ++ data).
  assert (Hl : len body = 2 + len t + 2 + len data) by (unfold body; len_lia).
  assert (Hi0 : index (E:=Client.client_error) body (2 + len t) = Ok (id / 256)).
  { apply (index_at (field t)). len_lia. }
  assert (Hi1 : index (E:=Client.client_error) body (2 + len t + 1) = Ok (id mod 256)).
  { unfold body, u16_to_be_bytes. cbn [app].
    change (field t ++ id / 256 :: id mod 256 :: data) with (field t ++ [id / 256] ++ id mod 256 :: data).
    rewrite app_assoc. apply index_at. len_lia. }
  clearbody body. change (0 <? 1) with true. cbn iota.
  rewrite (add_usize_ok _ 2), (add_usize_ok _ 1) by (unfold usize_max; lia). cbn [mbind outcome_bind].
  replace (len body <? 2 + len t + 2) with false by (symmetry; apply Z.ltb_ge; lia).
  rewrite Hi0. cbn [mbind outcome_bind]. rewrite Hi1. cbn [mbind outcome_bind].
  rewrite u16_be_roundtrip by lia. by replace (id =? 0) with false by lia.
Qed.

Lemma client_decode_publish p :
  publish_ok p -> remaining_length (Publish p) <= 268435455 ->
  Client.decode_publish_body (wire_header (Publish p) mod 16) (wire_body (Publish p)) =
  Ok (topic p, payload p, qos p, pub_packet_id p).
Proof.
  intros (Ht & _ & _ & _ & Hid) Hl. pose proof (len_nonneg (payload p)). pose proof (len_nonneg (topic p)).
  assert (Hq : Z.land (Z.shiftr (wire_header (Publish p) mod 16) 1) 3 = qos p).
  { cbn [wire_header]. destruct (pub_packet_id p); simpl in Hid; [destruct Hid as [-> _]|rewrite Hid];
      by destruct (retain p). }
  unfold Client.decode_publish_body. rewrite Hq. cbn [wire_body remaining_length] in *.
  rewrite client_decode_utf8_str_field; [|done|destruct (pub_packet_id p); len_lia].
  cbn [mbind outcome_bind].
  rewrite client_decode_publish_pid; [|done|apply Ht|destruct (pub_packet_id p); lia].
  cbn [mbind outcome_bind]. rewrite app_assoc, slice_from_at; [done|].
  destruct (pub_packet_id p); len_lia.
Qed.

(** ** No panics *)

Lemma land_15_range b : 0 <= b < 256 -> 0 <= b / 16 < 16.
Proof. lia. Qed.

Lemma read_exact_wp {E} (e : E) n stream (Q : bytes * bytes -> Prop) (R : E -> Prop) :
  0 <= n -> bytes_ok stream ->
  (forall l rest, stream = l ++ rest -> len l = n -> bytes_ok l -> bytes_ok rest -> Q (l, rest)) ->
  R e -> wp (read_exact e n stream) Q R.
Proof.
  intros Hn Hs HQ HR. unfold read_exact. wp_step; [|done].
  set (l := take (Z.to_nat n) stream). set (rest := drop (Z.to_nat n) stream).
  assert (Hb : stream = l ++ rest) by (symmetry; apply take_drop).
  rewrite Hb in Hs. apply bytes_ok_app in Hs as [? ?]. apply HQ; try done.
  unfold l, len in *. rewrite length_take. lia.
Qed.

(** The remaining-length bytes, read one at a time. *)
Lemma read_rl_wp stream :
  bytes_ok stream ->
  WP (loop 5 Client.read_rl_step (stream, []))
    {{ r, bytes_ok (fst r) /\ bytes_ok (snd r) /\ len (fst r) + 1 <= len stream | e, True }}.
Proof.
  intros Hs.
  apply (wp_loop (fun '(s, rl) => bytes_ok s /\ bytes_ok rl /\ len s + len rl = len stream /\ len rl < 4)
           (fun '(_, rl) => Z.to_nat (4 - len rl))); [|split_and!; [done|by apply Forall_nil|len_lia|len_lia]|vm_compute; lia].
  intros [s rl] (Hsb & Hrlb & Hlen & Hrl). unfold Client.read_rl_step.
  wp_step. apply read_exact_wp; [lia|done| |done]. intros l s' -> Hl Hl' Hs'. wp_step. wp_step.
  assert (Hx : 0 <= x < 256) by (eapply bytes_ok_lookup; [|eassumption]; done).
  assert (Hrl' : bytes_ok (rl ++ [x])).
  { apply bytes_ok_app. split; [done|]. repeat constructor. by apply u8_ok_iff. }
  cbn zeta. wp_step; [simpl; split_and!; try done; len_lia|].
  wp_step; [done|]. simpl. split; [|len_lia]. split_and!; try done; len_lia.
Qed.

(** [read_packet] returns on every stream, and what it takes is at least the two bytes
    of a fixed header. *)
Lemma read_packet_wp stream :
  bytes_ok stream ->
  WP (Client.read_packet stream)
    {{ r, let '((_, flags, body), rest) := r in
          0 <= flags < 16 /\ bytes_ok body /\ len body <= 268435455 /\ bytes_ok rest /\
          len rest + 2 <= len stream
     | e, True }}.
Proof.
  intros Hs. unfold Client.read_packet. wp_step. apply read_exact_wp; [lia|done| |done].
  intros l s1 -> Hl Hlb Hb1. wp_step. wp_step.
  assert (Hx : 0 <= x < 256) by (eapply bytes_ok_lookup; [|eassumption]; done).
  destruct (header_nibbles x Hx) as [_ ->]. cbn zeta. wp_step.
  eapply wp_mono; [by apply read_rl_wp| |done]. intros [s2 rl] (Hs2 & Hrl & Hlen). cbn [fst snd] in *.
  wp_step. rewrite client_decode_remaining_length. wp_step.
  eapply wp_mono; [by apply decode_remaining_length_wp| |done].
  intros [v n] (bs & tl & _ & Hv & _ & Hbs). apply rl_value_max in Hv; [|done]. wp_step.
  assert (Hbody : WP (if 0 <? v then read_exact (Client.ReadBody v) v s2 else Ok ([], s2))
    {{ r, bytes_ok (fst r) /\ len (fst r) <= 268435455 /\ bytes_ok (snd r) /\ len (snd r) <= len s2
     | e, True }}).
  { wp_step.
    - apply read_exact_wp; [lia|done| |done]. intros b rest -> Hb ? ?. simpl. split_and!; try done; len_lia.
    - simpl. split_and!; try done; by apply Forall_nil. }
  eapply wp_mono; [exact Hbody| |done]. intros [body rest] (? & ? & ? & ?). simpl in *.
  split_and!; try done; try (apply Z.mod_pos_bound; lia). len_lia.
Qed.

Lemma client_decode_utf8_str_wp buf pos :
  bytes_ok buf -> len buf <= 268435455 -> 0 <= pos <= len buf ->
  WP (Client.decode_utf8_str buf pos) {{ '(s, n), pos + 2 <= n <= len buf | e, True }}.
Proof.
  intros Hb Hl Hp. unfold Client.decode_utf8_str. wp_step. wp_step. wp_step; [done|].
  wp_step. wp_step. wp_step. wp_step. wp_step. wp_step.
  match goal with |- context [u16_from_be_bytes ?a ?b] =>
    assert (0 <= u16_from_be_bytes a b < 65536)
      by (apply u16_from_be_bytes_range; eapply bytes_ok_lookup; eauto) end.
  cbn zeta. unfold checked_add_usize.
  replace (_ <=? usize_max) with true by (symmetry; apply Z.leb_le; unfold usize_max; lia).
  wp_step. cbn [ok_or wp]. wp_step; [done|]. wp_step. apply wp_slice; [lia..|].
  intros pre mid suf Hm Hpre Hmid. wp_step. wp_step; [|done]. simpl. lia.
Qed.

Lemma client_decode_publish_wp flags body :
  bytes_ok body -> len body <= 268435455 ->
  WP (Client.decode_publish_body flags body) {{ _, True | e, True }}.
Proof.
  intros Hb Hl. pose proof (len_nonneg body). unfold Client.decode_publish_body. wp_step.
  eapply wp_mono; [apply client_decode_utf8_str_wp; try done; lia| |done]. intros [t pos] Hpos.
  wp_step.
  assert (Hpid : forall q, WP (Client.decode_publish_pid q body pos) {{ r, 0 <= snd r <= len body | e, True }}).
  { intros q. unfold Client.decode_publish_pid. repeat first [done | wp_step]; simpl; lia. }
  eapply wp_mono; [apply Hpid| |done]. intros [id pos'] Hpos'. simpl in Hpos'. wp_step.
  by apply wp_slice_from.
Qed.

Lemma client_decode_connack_wp body : WP (Client.decode_connack_body body) {{ _, True | e, True }}.
Proof. unfold Client.decode_connack_body. by repeat first [done | wp_step]. Qed.

Lemma client_decode_suback_wp body : WP (Client.decode_suback_body body) {{ _, True | e, True }}.
Proof.
  unfold Client.decode_suback_body. repeat first [done | wp_step].
  apply wp_slice_from; [lia|done].
Qed.

Lemma client_decode_puback_wp body : WP (Client.decode_puback_body body) {{ _, True | e, True }}.
Proof. unfold Client.decode_puback_body. by repeat first [done | wp_step]. Qed.
