(* ===== verification/ClientFlows.v ===== *)
(** * The command-line client's flows (src/bin/blitzclient.rs, lines 308 to 619)

    The CLI, the connection set-up and the two operation modes.  A socket is the bytes
    still to come, the results of the writes to come and the bytes written; a process
    exit is an error of [parse_args]. *)

From S2P Require Import Prelude Utf8 Numbers Socket Client.

(** ** The connection *)

Definition receive (s : socket) : outcome client_error ((Z * Z * bytes) * socket) :=
  '(pkt, rest) ← read_packet (incoming s);
  Ok (pkt, mkSocket rest (write_results s) (sent s)).

Definition refusal_reason (return_code : Z) : string :=
  if return_code =? 1 then "unacceptable protocol version"
  else if return_code =? 2 then "identifier rejected"
  else if return_code =? 3 then "server unavailable"
  else if return_code =? 4 then "bad username or password"
  else if return_code =? 5 then "not authorized"
  else "unknown return code".

Definition client_id_of (process_id : Z) : rstring := str "blitzclient-" ++ display process_id.

(** [connect_to_broker]; [tcp] is the socket of a successful [TcpStream::connect]. *)
Definition connect_to_broker (tcp : option socket) (process_id : Z) : outcome client_error socket :=
  s ← ok_or TcpConnect tcp;
  let client_id := client_id_of process_id in
  connect_pkt ← encode_connect client_id 60;
  s ← write_all WriteConnect connect_pkt s;
  '((pkt_type, _, body), s) ← receive s;
  if negb (pkt_type =? PT_CONNACK) then Err (ExpectedConnack pkt_type)
  else
    '(_, return_code) ← decode_connack_body body;
    if negb (return_code =? 0) then Err (ConnackRefused return_code (refusal_reason return_code))
    else Ok s.

(** ** pub *)

Definition await_puback (pid : Z) (s : socket) : outcome client_error socket :=
  '((pkt_type, _, body), s) ← receive s;
  if negb (pkt_type =? PT_PUBACK) then Err (ExpectedPuback pkt_type)
  else
    acked_pid ← decode_puback_body body;
    if negb (acked_pid =? pid) then Err (PubackMismatch pid acked_pid)
    else Ok s.

Definition run_pub (tcp : option socket) (process_id : Z) (topic message : rstring) (qos : Z)
    : outcome client_error socket :=
  s ← connect_to_broker tcp process_id;
  let packet_id := if qos =? 1 then Some 1 else None in
  publish_pkt ← encode_publish topic message qos packet_id;
  s ← write_all WritePublish publish_pkt s;
  s ← (if qos =? 1 then
         match packet_id with
         | Some pid => await_puback pid s
         | None => Panic
         end
       else Ok s);
  write_all WriteDisconnect encode_disconnect s.

(** ** sub *)

Definition SUB_PACKET_ID : Z := 1.

(** What the receive loop prints or logs. *)
Inductive sub_event : Type :=
| Printed (line : rstring)
| MalformedIgnored (e : client_error)
| UnexpectedIgnored (pkt_type : Z)
| ConnectionClosed (e : client_error).

(** [println!("{topic}: {payload_str}")] *)
Definition message_line (topic : rstring) (payload : bytes) : rstring :=
  topic ++ str ": " ++ from_utf8_lossy payload.

Definition handle_received (pkt_type flags : Z) (body : bytes) : outcome client_error sub_event :=
  if pkt_type =? PT_PUBLISH then
    match decode_publish_body flags body with
    | Ok (topic, payload, _, _) => Ok (Printed (message_line topic payload))
    | Err e => Ok (MalformedIgnored e)
    | Panic => Panic
    | Diverge => Diverge
    end
  else Ok (UnexpectedIgnored pkt_type).

(** One iteration of the receive loop, on the stream and the events so far. *)
Definition receive_step (st : bytes * list sub_event)
    : outcome client_error (bytes * list sub_event + list sub_event) :=
  let '(stream, events) := st in
  match read_packet stream with
  | Err e => Ok (inr (events ++ [ConnectionClosed e]))
  | Ok ((pkt_type, flags, body), stream) =>
      event ← handle_received pkt_type flags body;
      Ok (inl (stream, events ++ [event]))
  | Panic => Panic
  | Diverge => Diverge
  end.

Definition receive_loop (stream : bytes) : outcome client_error (list sub_event) :=
  loop (S (length stream)) receive_step (stream, []).

Definition run_sub (tcp : option socket) (process_id : Z) (filter : rstring)
    : outcome client_error (bytes * list sub_event) :=
  s ← connect_to_broker tcp process_id;
  subscribe_pkt ← encode_subscribe SUB_PACKET_ID filter 0;
  s ← write_all WriteSubscribe subscribe_pkt s;
  '((pkt_type, _, body), s) ← receive s;
  if negb (pkt_type =? PT_SUBACK) then Err (ExpectedSuback pkt_type)
  else
    '(suback_pid, return_codes) ← decode_suback_body body;
    if negb (suback_pid =? SUB_PACKET_ID) then Err (SubackMismatch SUB_PACKET_ID suback_pid)
    else
      match return_codes with
      | 128 :: _ => Err SubackRefused
      | [] => Err SubackNoCodes
      | _ :: _ =>
          events ← receive_loop (incoming s);
          Ok (sent s, events)
      end.

(** ** The command line *)

Inductive Subcommand : Type :=
| Pub (topic message : rstring) (qos : Z)
| Sub (filter : rstring).

Record Cli : Type := mkCli {
  cli_host : rstring;
  cli_port : Z;
  subcommand : Subcommand;
}.

(** Why the process exits with code 1. *)
Inductive cli_exit : Type :=
| QosOutOfScope | HostRequired | PortRequired | PubTopicRequired | MessageRequired
| SubTopicRequired | SubcommandRequired.

Inductive subcmd_word : Type := PubWord | SubWord.

(** The variables of [parse_args]; [ignored] are the arguments it logs as unknown. *)
Record cli_state : Type := mkCliState {
  st_host : option rstring;
  st_port : option Z;
  pub_topic : option rstring;
  message : option rstring;
  st_qos : Z;
  sub_filter : option rstring;
  subcmd : option subcmd_word;
  ignored : list rstring;
}.

Definition init_cli : cli_state := mkCliState None None None None 0 None None [].

Definition starts_with (c : Z) (s : rstring) : bool :=
  match s with b :: _ => b =? c | [] => false end.

Definition arg_is (arg : rstring) (s : string) : bool := bool_decide (arg = str s).

Definition u8_max : Z := 255.

(** The body of the [match args[i].as_str()]: [value] is [args.get(i + 1)]; whether
    the flag takes it, and the new variables. *)
Definition cli_arg (arg : rstring) (value : option rstring) (st : cli_state)
    : outcome cli_exit (bool * cli_state) :=
  let '(mkCliState h p t m q f c ig) := st in
  if arg_is arg "pub" && negb (starts_with 45 arg) then
    Ok (false, mkCliState h p t m q f (Some PubWord) ig)
  else if arg_is arg "sub" && negb (starts_with 45 arg) then
    Ok (false, mkCliState h p t m q f (Some SubWord) ig)
  else if arg_is arg "--host" then Ok (true, mkCliState value p t m q f c ig)
  else if arg_is arg "--port" then
    Ok (true, mkCliState h (v ← value; parse_uint u16_max v) t m q f c ig)
  else if arg_is arg "--topic" || arg_is arg "--filter" then
    Ok (true, mkCliState h p value m q value c ig)
  else if arg_is arg "--message" || arg_is arg "--msg" then
    Ok (true, mkCliState h p t value q f c ig)
  else if arg_is arg "--qos" then
    let q := default 0 (v ← value; parse_uint u8_max v) in
    if 1 <? q then Err QosOutOfScope else Ok (true, mkCliState h p t m q f c ig)
  else Ok (false, mkCliState h p t m q f c (ig ++ [arg])).

Definition parse_step (args : list rstring) (acc : Z * cli_state)
    : outcome cli_exit (Z * cli_state + cli_state) :=
  let '(i, st) := acc in
  if i <? len args then
    arg ← index args i;
    '(takes, st) ← cli_arg arg (args !! Z.to_nat (i + 1)) st;
    i ← (if takes : bool then add_usize i 1 else Ok i);
    i ← add_usize i 1;
    Ok (inl (i, st))
  else Ok (inr st).

(** The checks behind the loop. *)
Definition finish_cli (st : cli_state) : outcome cli_exit Cli :=
  h ← ok_or HostRequired (st_host st);
  p ← ok_or PortRequired (st_port st);
  sub ← match subcmd st with
        | Some PubWord =>
            t ← ok_or PubTopicRequired (pub_topic st);
            m ← ok_or MessageRequired (message st);
            Ok (Pub t m (st_qos st))
        | Some SubWord =>
            f ← ok_or SubTopicRequired (sub_filter st);
            Ok (Sub f)
        | None => Err SubcommandRequired
        end;
  Ok (mkCli h p sub).

Definition parse_args (args : list rstring) : outcome cli_exit Cli :=
  st ← loop (S (length args)) (parse_step args) (1, init_cli);
  finish_cli st.

(** [main]'s exit code; [connect] is the TCP connection to a host and port. *)
Definition main (args : list rstring) (connect : rstring -> Z -> option socket) (process_id : Z)
    : outcome client_error Z :=
  match parse_args args with
  | Err _ => Ok 1
  | Panic => Panic
  | Diverge => Diverge
  | Ok cli =>
      let tcp := connect (cli_host cli) (cli_port cli) in
      let result :=
        match subcommand cli with
        | Pub topic message qos => s ← run_pub tcp process_id topic message qos; Ok tt
        | Sub filter => s ← run_sub tcp process_id filter; Ok tt
        end in
      match result with
      | Ok _ => Ok 0
      | Err _ => Ok 1
      | Panic => Panic
      | Diverge => Diverge
      end
  end.

Example cli_sample :
  parse_args (map str ["blitzclient"; "pub"; "--host"; "h"; "--port"; "1883"; "--topic"; "t"; "--msg"; "m"]) =
  Ok (mkCli (str "h") 1883 (Pub (str "t") (str "m") 0)).
Proof. reflexivity. Qed.
