(* ===== verification/ClientFlowsSpec.v ===== *)
(** * The client's sessions (src/bin/blitzclient.rs, lines 308 to 619)

    [run_pub] and [run_sub] against what the broker sends: the bytes they write are the
    wire format of the packets of the session, they succeed on the broker's answers and
    print every message; and, with the reader of [Connection], a session from end to
    end.  The command line always gives a result. *)

From S2P Require Import Prelude Utf8 Numbers Errors Packets RemainingLength Topics.
From S2P Require Import Wire Codec CodecSafety CodecRoundtrip Queue Broker Connection ConnectionSpec.
From S2P Require Import Socket ClientSpec ClientFlows.
From S2P Require Client.

(** ** The packets of a session *)

Definition connect_packet (process_id : Z) : MqttPacket :=
  Connect (mkConnect (str "MQTT") 4 true 60 (client_id_of process_id)).

Definition publish_packet (t data : rstring) (q : Z) : PublishPacket :=
  mkPublish t data q false (if q =? 1 then Some 1 else None).

Definition subscribe_packet (f : rstring) : MqttPacket := Subscribe (mkSubscribe SUB_PACKET_ID [(f, 0)]).

Definition connack_packet : MqttPacket := ConnAck (mkConnAck false Accepted).

(** A process id: a [u32]. *)
Definition pid_ok (process_id : Z) : Prop := 0 <= process_id <= u32_max.

Lemma client_id_ok process_id : pid_ok process_id -> rstring_ok (client_id_of process_id).
Proof.
  unfold pid_ok, u32_max. intros Hp. unfold client_id_of. split.
  - apply valid_utf8_app; [done|].
    destruct (display_digits_spec 20 process_id) as (_ & Hd & _); [simpl Z.of_nat; lia|lia|].
    apply valid_utf8_ascii. eapply Forall_impl; [exact Hd|]. intros d Hdig%is_digit_iff.
    apply in_range_true. lia.
  - rewrite len_app. change (len (str "blitzclient-")) with 12.
    pose proof (display_len 20 process_id). unfold display, len. lia.
Qed.

Lemma connect_packet_ok process_id :
  pid_ok process_id -> client_packet (connect_packet process_id).
Proof.
  intros Hp. pose proof (client_id_ok _ Hp) as Hid. split_and!; [|cbn|done].
  - split_and!; try done; vm_compute; split; congruence.
  - change (len (str "MQTT")) with 4. destruct Hid. lia.
Qed.

Lemma client_connect_wire {E} process_id :
  pid_ok process_id ->
  Client.encode_connect (E:=E) (client_id_of process_id) 60 = Ok (wire (connect_packet process_id)).
Proof.
  intros Hp. rewrite client_encode_connect. destruct (connect_packet_ok _ Hp) as (? & ? & _).
  by apply encode_decodable.
Qed.

(** ** Sessions *)

Lemma receive_wire p rest ws out :
  0 <= wire_header p < 256 -> remaining_length p <= 268435455 ->
  receive (mkSocket (wire p ++ rest) ws out) =
  Ok ((wire_header p / 16, wire_header p mod 16, wire_body p), mkSocket rest ws out).
Proof. intros. unfold receive. cbn [incoming]. by rewrite read_packet_wire. Qed.

Lemma connect_ok_socket process_id rest ws out :
  pid_ok process_id ->
  connect_to_broker (Some (mkSocket (wire connack_packet ++ rest) (true :: ws) out)) process_id =
  Ok (mkSocket rest ws (out ++ wire (connect_packet process_id))).
Proof.
  intros Hp. unfold connect_to_broker. cbn [ok_or mbind outcome_bind]. rewrite client_connect_wire by done.
  cbn [mbind outcome_bind write_all write_results incoming sent].
  rewrite receive_wire by done. cbn [mbind outcome_bind].
  change (wire_header connack_packet / 16 =? Client.PT_CONNACK) with true. cbn [negb].
  unfold connack_packet. rewrite client_decode_connack. done.
Qed.

(** The answers that [run_pub] waits for. *)
Definition pub_answers (q : Z) : bytes :=
  wire connack_packet ++ (if q =? 1 then wire (PubAck (mkPubAck 1)) else []).

Lemma run_pub_ok process_id t data q rest ws :
  pid_ok process_id -> q = 0 \/ q = 1 ->
  publish_ok (publish_packet t data q) -> remaining_length (Publish (publish_packet t data q)) <= 268435455 ->
  run_pub (Some (mkSocket (pub_answers q ++ rest) (true :: true :: true :: ws) [])) process_id t data q =
  Ok (mkSocket rest ws
        (wire (connect_packet process_id) ++ wire (Publish (publish_packet t data q)) ++ wire Disconnect)).
Proof.
  intros Hp Hq Hpub Hlen. unfold run_pub, pub_answers. rewrite <- app_assoc, connect_ok_socket by done.
  cbn [mbind outcome_bind app]. pose proof Hpub as ([_ Ht] & _ & _ & _ & Hid).
  rewrite client_encode_publish by (done || destruct Hq as [-> | ->]; done).
  change (mkPublish t data q false _) with (publish_packet t data q).
  rewrite encode_decodable by done.
  cbn [mbind outcome_bind write_all write_results incoming sent].
  destruct Hq as [-> | ->]; cbn [Z.eqb Pos.eqb app].
  - cbn [mbind outcome_bind write_all write_results incoming sent]. by rewrite <- app_assoc.
  - unfold await_puback. rewrite receive_wire by done. cbn [mbind outcome_bind].
    change (wire_header (PubAck (mkPubAck 1)) / 16 =? Client.PT_PUBACK) with true. cbn [negb].
    rewrite client_decode_puback by done.
    cbn [mbind outcome_bind puback_packet_id Z.eqb Pos.eqb negb write_all write_results incoming sent].
    by rewrite <- app_assoc.
Qed.

(** *** The receive loop *)

Lemma handle_received_wp pkt_type flags body :
  bytes_ok body -> len body <= 268435455 ->
  WP (handle_received pkt_type flags body) {{ _, True | e, True }}.
Proof.
  intros Hb Hl. unfold handle_received. wp_step; [|done].
  pose proof (client_decode_publish_wp flags body Hb Hl) as Hw.
  by destruct (Client.decode_publish_body flags body) as [[[[? ?] ?] ?]|?| |].
Qed.

(** The receive loop ends on every stream, when the connection does. *)
Lemma receive_loop_ok stream :
  bytes_ok stream ->
  exists events e, receive_loop stream = Ok (events ++ [ConnectionClosed e]).
Proof.
  intros Hs. unfold receive_loop.
  assert (Hw : WP (loop (S (length stream)) receive_step (stream, []))
    {{ r, exists events e, r = events ++ [ConnectionClosed e] | e, False }}).
  { apply (wp_loop (fun '(s, _) => bytes_ok s) (fun '(s, _) => length s)); [|done|lia].
    clear stream Hs. intros [s events] Hs. unfold receive_step.
    pose proof (read_packet_wp s Hs) as Hr.
    destruct (Client.read_packet s) as [[[[pt flags] body] rest]|e| |]; try done.
    - simpl in Hr. destruct Hr as (_ & Hb & Hl & Hrest & Hlen). wp_step.
      pose proof (handle_received_wp pt flags body Hb Hl) as Hh.
      unfold handle_received in *. repeat (case_match; try done); simpl; unfold len in Hlen; (split; [done|lia]).
    - simpl. eauto. }
  destruct (loop _ _ _) as [r|e| |]; try done. destruct Hw as (events & e & ->). eauto.
Qed.

(** A message that the broker may send. *)
Definition sendable (p : PublishPacket) : Prop :=
  publish_ok p /\ remaining_length (Publish p) <= 268435455.

Definition printed (p : PublishPacket) : sub_event := Printed (message_line (topic p) (payload p)).

Lemma publish_header p : publish_ok p -> 0 <= wire_header (Publish p) < 256 /\ wire_header (Publish p) / 16 = 3.
Proof.
  intros (_ & _ & _ & _ & Hid). cbn [wire_header].
  destruct (pub_packet_id p); simpl in Hid; [destruct Hid as [-> _]|rewrite Hid]; destruct (retain p); done.
Qed.

Lemma receive_step_publish p rest events :
  sendable p ->
  receive_step (wire (Publish p) ++ rest, events) = Ok (inl (rest, events ++ [printed p])).
Proof.
  intros [Hp Hl]. destruct (publish_header p Hp) as [Hh Ht]. unfold receive_step.
  rewrite read_packet_wire, Ht by done. unfold handle_received. change (3 =? Client.PT_PUBLISH) with true.
  by rewrite client_decode_publish.
Qed.

(** Every message is printed, in order, until the connection closes. *)
Lemma receive_loop_messages ps :
  Forall sendable ps ->
  receive_loop (concat (map (fun p => wire (Publish p)) ps)) =
  Ok (map printed ps ++ [ConnectionClosed Client.ReadHeader]).
Proof.
  intros Hps. unfold receive_loop. set (stream := concat _).
  enough (H : forall fuel events, (length stream < fuel)%nat ->
    loop fuel receive_step (stream, events) =
    Ok (events ++ map printed ps ++ [ConnectionClosed Client.ReadHeader])) by (apply H; lia).
  unfold stream. clear stream. induction Hps as [|p ps Hp Hps IH]; intros fuel events Hf.
  - destruct fuel; [simpl in Hf; lia|]. done.
  - destruct fuel as [|fuel]; [lia|]. cbn [map concat loop] in *. rewrite receive_step_publish by done.
    cbn [mbind outcome_bind]. rewrite IH; [by rewrite <- app_assoc|].
    rewrite length_app in Hf. assert (0 < length (wire (Publish p)))%nat by (unfold wire; simpl; lia). lia.
Qed.

Lemma run_sub_ok process_id f ps ws :
  pid_ok process_id -> filter_ok f -> Forall sendable ps ->
  run_sub (Some (mkSocket
      (wire connack_packet ++ wire (SubAck (mkSubAck SUB_PACKET_ID [0])) ++
       concat (map (fun p => wire (Publish p)) ps)) (true :: true :: ws) [])) process_id f =
  Ok (wire (connect_packet process_id) ++ wire (subscribe_packet f),
      map printed ps ++ [ConnectionClosed Client.ReadHeader]).
Proof.
  intros Hp Hf Hps. unfold run_sub. rewrite connect_ok_socket by done. cbn [mbind outcome_bind app].
  pose proof Hf as ([_ Hlen] & _).
  rewrite client_encode_subscribe by done. change (Subscribe _) with (subscribe_packet f).
  rewrite encode_decodable; cycle 1.
  { split_and!; [done|done|]. repeat constructor; try done; apply Hf. }
  { cbn. lia. }
  cbn [mbind outcome_bind write_all write_results incoming sent].
  rewrite receive_wire by done. cbn [mbind outcome_bind].
  change (wire_header (SubAck (mkSubAck SUB_PACKET_ID [0])) / 16 =? Client.PT_SUBACK) with true. cbn [negb].
  rewrite client_decode_suback by done.
  cbn [mbind outcome_bind suback_packet_id return_codes incoming sent].
  change (SUB_PACKET_ID =? SUB_PACKET_ID) with true. cbn [negb].
  by rewrite receive_loop_messages.
Qed.

(** ** A publishing session from end to end *)

(** The events that the calls put on the outbound queue. *)
Definition pushed_events (cs : list call) : list OutboundEvent :=
  omap (fun c => match c with CallPush _ e => Some e | _ => None end) cs.

(** The broker's reader on the client's bytes, however they arrive. *)
Lemma pub_session_reader id out process_id p chunks :
  pid_ok process_id -> publish_ok p -> remaining_length (Publish p) <= 268435455 ->
  Forall (fun chunk => chunk <> []) chunks -> bytes_ok (concat chunks) -> len (concat chunks) <= isize_max ->
  concat chunks = wire (connect_packet process_id) ++ wire (Publish p) ++ wire Disconnect ->
  reader_loop id out [] (map ReadOk chunks) =
  Ok (ReaderExited, dispatch_all id out [connect_packet process_id; Publish p] ++ teardown id out).
Proof.
  intros Hpid Hp Hl Hne Hb Hlen Hc.
  pose proof (reader_loop_disconnect id out [connect_packet process_id; Publish p] chunks [] []) as Hr.
  rewrite !app_nil_r in Hr. apply Hr; try done.
  - apply Forall_cons. split; [by apply connect_packet_ok|].
    apply Forall_cons. split; [by split_and!|by apply Forall_nil].
  - rewrite Hc. cbn [map concat]. by rewrite !app_nil_r, <- app_assoc.
Qed.

(** What it sends to the broker, and what it answers: the bytes that the client waits
    for. *)
Lemma pub_session_calls id out process_id t data q :
  q = 0 \/ q = 1 ->
  let calls := dispatch_all id out [connect_packet process_id; Publish (publish_packet t data q)] ++
               teardown id out in
  sends calls = [MsgRegister id (client_id_of process_id) out; MsgPublish id (publish_packet t data q);
                 MsgDisconnect id] /\
  concat (map event_wire (pushed_events calls)) = pub_answers q.
Proof. by intros [-> | ->]. Qed.

(** ** The command line *)

Definition cli_state_ok (st : cli_state) : Prop :=
  (forall p, st_port st = Some p -> 0 <= p <= u16_max) /\ 0 <= st_qos st <= 1.

Definition cli_ok (c : Cli) : Prop :=
  0 <= cli_port c <= u16_max /\
  match subcommand c with Pub _ _ q => 0 <= q <= 1 | Sub _ => True end.

Lemma cli_arg_wp arg value st :
  cli_state_ok st -> WP (cli_arg arg value st) {{ r, cli_state_ok (snd r) | e, True }}.
Proof.
  destruct st as [h p t m q f c ig]. intros [Hp Hq]. simpl in *. unfold cli_arg.
  repeat first [done | wp_step].
  - split; [|done]. simpl. intros p'. destruct value as [v|]; simpl; [|done].
    intros Hv. apply parse_uint_range in Hv; done.
  - split; [done|]. simpl.
    destruct value as [v|]; simpl in *; [|lia].
    destruct (parse_uint u8_max v) as [n|] eqn:Hn; simpl in *; [|lia].
    apply parse_uint_range in Hn; [lia|done].
Qed.

Lemma finish_cli_wp st : cli_state_ok st -> WP (finish_cli st) {{ c, cli_ok c | e, True }}.
Proof.
  intros [Hp Hq]. unfold finish_cli. repeat first [done | wp_step].
  destruct (subcmd st) as [[]|]; repeat first [done | wp_step]; split; simpl; try done; by apply Hp.
Qed.

(** The loop over the arguments ends, and the process has a configuration or exits. *)
Lemma parse_args_wp args :
  len args <= isize_max -> WP (parse_args args) {{ c, cli_ok c | e, True }}.
Proof.
  intros Hlen. unfold parse_args. wp_step.
  apply (wp_loop (fun '(i, st) => 1 <= i <= isize_max + 2 /\ cli_state_ok st)
           (fun '(i, _) => Z.to_nat (len args - i))).
  2: { unfold isize_max. split; [lia|]. split; [done|simpl; lia]. }
  2: { unfold len. lia. }
  intros [i st] [Hi Hst]. unfold parse_step. wp_step; [|by apply finish_cli_wp].
  wp_step. wp_step. wp_step. eapply wp_mono; [by apply cli_arg_wp| |done]. intros [takes st'] Hst'.
  simpl in Hst'. unfold isize_max, usize_max in *.
  destruct takes; repeat wp_step; simpl; (split; [split; [lia|done]|lia]).
Qed.

(** The arguments, read as a list: a flag takes the argument behind it, whatever it
    is. *)
Fixpoint cli_spec (args : list rstring) (st : cli_state) : outcome cli_exit cli_state :=
  match args with
  | [] => Ok st
  | arg :: rest =>
      '(takes, st) ← cli_arg arg (head rest) st;
      match rest with
      | _ :: rest' => if takes : bool then cli_spec rest' st else cli_spec rest st
      | [] => Ok st
      end
  end.

Lemma parse_loop_spec args fuel i st :
  len args <= isize_max -> 1 <= i <= isize_max + 2 -> (length (drop (Z.to_nat i) args) < fuel)%nat ->
  loop fuel (parse_step args) (i, st) = cli_spec (drop (Z.to_nat i) args) st.
Proof.
  intros Hlen. revert i st. induction fuel as [|fuel IH]; intros i st Hi Hf; [lia|].
  cbn [loop parse_step]. unfold isize_max in *.
  destruct (drop (Z.to_nat i) args) as [|arg rest] eqn:Hd.
  - destruct (Z.ltb_spec i (len args)); [|done].
    apply (f_equal length) in Hd. rewrite length_drop in Hd. unfold len in *. simpl in Hd. lia.
  - assert (Ha : args !! Z.to_nat i = Some arg).
    { rewrite <- (Nat.add_0_r (Z.to_nat i)), <- lookup_drop, Hd. done. }
    assert (Hr : drop (Z.to_nat (i + 1)) args = rest).
    { replace (Z.to_nat (i + 1)) with (Z.to_nat i + 1)%nat by lia. rewrite <- drop_drop, Hd. done. }
    assert (Hv : args !! Z.to_nat (i + 1) = head rest)
      by (by rewrite <- Hr, head_lookup, lookup_drop, Nat.add_0_r).
    apply lookup_lt_Some in Ha as Hlt.
    replace (i <? len args) with true by (symmetry; apply Z.ltb_lt; unfold len; lia).
    unfold index. replace (i <? 0) with false by lia. rewrite Ha, Hv. cbn [mbind outcome_bind cli_spec].
    destruct (cli_arg arg (head rest) st) as [[takes st']|e| |]; cbn [mbind outcome_bind]; try done.
    unfold len in Hlen. assert (Hmax : i + 1 + 1 <= usize_max) by (unfold usize_max; lia).
    destruct takes.
    + rewrite (add_usize_ok i) by lia. cbn [mbind outcome_bind]. rewrite add_usize_ok by done.
      cbn [mbind outcome_bind].
      assert (Hr2 : drop (Z.to_nat (i + 1 + 1)) args = tail rest).
      { replace (Z.to_nat (i + 1 + 1)) with (Z.to_nat (i + 1) + 1)%nat by lia. rewrite <- drop_drop, Hr.
        by destruct rest. }
      rewrite IH, Hr2; [by destruct rest as [|? [|]]|lia|].
      rewrite Hr2. destruct rest; simpl in *; lia.
    + cbn [mbind outcome_bind]. rewrite add_usize_ok by lia. cbn [mbind outcome_bind].
      rewrite IH, Hr; [by destruct rest|lia|]. rewrite Hr. simpl in Hf. lia.
Qed.

Lemma parse_args_spec args :
  len args <= isize_max -> parse_args args = (st ← cli_spec (tail args) init_cli; finish_cli st).
Proof.
  intros Hlen. unfold parse_args. rewrite parse_loop_spec; [|done|unfold isize_max; lia|rewrite length_drop; lia].
  change (Z.to_nat 1) with 1%nat. by destruct args.
Qed.

(** The usage line for a publish. *)
Lemma parse_args_pub h p t m q :
  0 <= p <= u16_max -> 0 <= q <= 1 ->
  parse_args [str "blitzclient"; str "--host"; h; str "--port"; display p; str "pub";
              str "--topic"; t; str "--message"; m; str "--qos"; display q] =
  Ok (mkCli h p (Pub t m q)).
Proof.
  intros Hp Hq.
  assert (Hport : parse_uint u16_max (display p) = Some p) by (apply parse_display; [lia|done]).
  assert (Hqos : parse_uint u8_max (display q) = Some q) by (apply parse_display; [unfold u8_max; lia|done]).
  rewrite parse_args_spec by done. cbn [tail].
  generalize dependent (display p). generalize dependent (display q). intros dq Hqos dp Hport.
  cbn [cli_spec head mbind outcome_bind].
  change (cli_arg (str "--host") (Some h) init_cli) with
    (Ok (E:=cli_exit) (true, mkCliState (Some h) None None None 0 None None [])).
  cbn [cli_spec head mbind outcome_bind].
  set (port_flag := cli_arg (str "--port") _ _).
  assert (port_flag = Ok (true, mkCliState (Some h) (parse_uint u16_max dp) None None 0 None None [])) as ->
    by reflexivity.
  rewrite Hport. cbn [cli_spec head mbind outcome_bind].
  set (qos_flag := cli_arg (str "--qos")).
  assert (Hflag : forall st, qos_flag (Some dq) st =
    Ok (true, mkCliState (st_host st) (st_port st) (pub_topic st) (message st) q (sub_filter st)
                (subcmd st) (ignored st))).
  { intros [h' p' t' m' q' f' c' ig']. change (qos_flag (Some dq) _) with
      (if 1 <? default 0 (parse_uint u8_max dq) then Err QosOutOfScope else
       Ok (E:=cli_exit) (true, mkCliState h' p' t' m' (default 0 (parse_uint u8_max dq)) f' c' ig')).
    rewrite Hqos. cbn [from_option]. unfold id. by replace (1 <? q) with false by lia. }
  change (('(takes, st) ← qos_flag (Some dq)
             (mkCliState (Some h) (Some p) (Some t) (Some m) 0 (Some t) (Some PubWord) []);
           if takes : bool then Ok st else cli_spec [dq] st) ≫= finish_cli = Ok (mkCli h p (Pub t m q))).
  rewrite Hflag. done.
Qed.
