(* ===== verification/Bench.v ===== *)
(** * The sharded-broker benchmark (src/bin/shard_benchmark.rs)

    Its codec, a copy of some of the client's with other error texts; its command line,
    which trusts its arguments; the threads of a channel, a publisher and a subscriber on
    a topic of their own, each as a function of its socket and then, with the broker
    between them, as interleaved steps; and [main], its barrier, which waits for all of
    them, and its joins.  Times are not modelled. *)

From S2P Require Import Prelude Utf8 Numbers Queue Broker Connection Socket.

Inductive bench_error : Type :=
| IoError
| RlExceeds4 | RlTruncated | RlMoreThan4
| ExpectedConnack | ConnackRefused.

Definition PT_CONNECT : Z := 1.
Definition PT_CONNACK : Z := 2.
Definition PT_PUBLISH : Z := 3.
Definition PT_SUBSCRIBE : Z := 8.
Definition PT_SUBACK : Z := 9.
Definition PT_DISCONNECT : Z := 14.

(** ** Wire format *)

Definition encode_remaining_length_step {E} (st : Z * bytes) : outcome E (Z * bytes + bytes) :=
  let '(n, out) := st in
  let encoded_byte := as_u8 (n mod 128) in
  let n := n / 128 in
  let encoded_byte := if 0 <? n then Z.lor encoded_byte 128 else encoded_byte in
  let out := out ++ [encoded_byte] in
  if n =? 0 then Ok (inr out) else Ok (inl (n, out)).

Definition encode_remaining_length {E} (n : Z) : outcome E bytes :=
  loop 5 encode_remaining_length_step (n, []).

Definition decode_remaining_length_step (buf : bytes) (st : Z * Z)
    : outcome bench_error (Z * Z + Z * Z) :=
  let '(value, i) := st in
  if 4 <=? i then Err RlExceeds4
  else if len buf <=? i then Err RlTruncated
  else
    byte ← index buf i;
    multiplier ← pow_u32 128 (as_u32 i);
    term ← mul_u32 (Z.land byte 127) multiplier;
    value ← add_u32 value term;
    i ← add_usize i 1;
    if Z.land byte 128 =? 0 then Ok (inr (value, i)) else Ok (inl (value, i)).

Definition decode_remaining_length (buf : bytes) : outcome bench_error (Z * Z) :=
  loop 5 (decode_remaining_length_step buf) (0, 0).

Definition encode_utf8_str {E} (s : rstring) (out : bytes) : outcome E bytes :=
  let n := as_u16 (Z.min (len s) u16_max) in
  let out := out ++ u16_to_be_bytes n in
  field ← slice s 0 n;
  Ok (out ++ field).

Definition make_packet {E} (packet_type flags : Z) (body : bytes) : outcome E bytes :=
  rl ← encode_remaining_length (as_u32 (len body));
  Ok (Z.lor (as_u8 (Z.shiftl packet_type 4)) (Z.land flags 15) :: rl ++ body).

Definition encode_connect {E} (client_id : rstring) : outcome E bytes :=
  body ← encode_utf8_str (str "MQTT") [];
  let body := body ++ [4] in
  let body := body ++ [2] in
  let body := body ++ u16_to_be_bytes 60 in
  body ← encode_utf8_str client_id body;
  make_packet PT_CONNECT 0 body.

Definition encode_subscribe {E} (packet_id : Z) (filter : rstring) : outcome E bytes :=
  let body := u16_to_be_bytes packet_id in
  body ← encode_utf8_str filter body;
  let body := body ++ [0] in
  make_packet PT_SUBSCRIBE 2 body.

Definition encode_publish {E} (topic : rstring) (payload : bytes) : outcome E bytes :=
  body ← encode_utf8_str topic [];
  let body := body ++ payload in
  make_packet PT_PUBLISH 0 body.

Definition encode_disconnect : bytes := [as_u8 (Z.shiftl PT_DISCONNECT 4); 0].

(** One iteration of the loop that reads the remaining length. *)
Definition read_rl_step (st : bytes * bytes) : outcome bench_error (bytes * bytes + bytes * bytes) :=
  let '(stream, rl_bytes) := st in
  '(b, stream) ← read_exact IoError 1 stream;
  b0 ← index b 0;
  let rl_bytes := rl_bytes ++ [b0] in
  if Z.land b0 128 =? 0 then Ok (inr (stream, rl_bytes))
  else if 4 <=? len rl_bytes then Err RlMoreThan4
  else Ok (inl (stream, rl_bytes)).

Definition read_packet (stream : bytes) : outcome bench_error ((Z * Z * bytes) * bytes) :=
  '(header_byte, stream) ← read_exact IoError 1 stream;
  b ← index header_byte 0;
  let packet_type := Z.shiftr b 4 in
  let flags := Z.land b 15 in
  '(stream, rl_bytes) ← loop 5 read_rl_step (stream, []);
  '(remaining_len, _) ← decode_remaining_length rl_bytes;
  let body_len := remaining_len in
  '(body, stream) ←
    (if 0 <? body_len then read_exact IoError body_len stream
     else Ok ([], stream));
  Ok ((packet_type, flags, body), stream).

Definition receive (s : socket) : outcome bench_error ((Z * Z * bytes) * socket) :=
  '(pkt, rest) ← read_packet (incoming s);
  Ok (pkt, mkSocket rest (write_results s) (sent s)).

(** [tcp] is the socket of a successful [TcpStream::connect]. *)
Definition connect_to_broker (tcp : option socket) (client_id : rstring) : outcome bench_error socket :=
  s ← ok_or IoError tcp;
  pkt ← encode_connect client_id;
  s ← write_all IoError pkt s;
  '((pkt_type, _, body), s) ← receive s;
  if negb (pkt_type =? PT_CONNACK) then Err ExpectedConnack
  else
    refused ← (if len body <? 2 then Ok true else rc ← index body 1; Ok (negb (rc =? 0)));
    if refused : bool then Err ConnackRefused else Ok s.

(** ** The command line *)

Record BenchConfig : Type := mkBenchConfig {
  host : rstring;
  port : Z;
  channels : Z;
  messages_per_channel : Z;
  batch_size : Z;
}.

Definition default_config : BenchConfig := mkBenchConfig (str "127.0.0.1") 1883 16 1000 50.

Definition arg_is (arg : rstring) (s : string) : bool := bool_decide (arg = str s).

(** [args[i].parse().unwrap()] *)
Definition parse_arg (max : Z) (args : list rstring) (i : Z) : outcome unit Z :=
  v ← index args i;
  match parse_uint max v with Some n => Ok n | None => Panic end.

(** One iteration of the [while i < args.len()] loop. *)
Definition args_step (args : list rstring) (st : Z * BenchConfig)
    : outcome unit (Z * BenchConfig + BenchConfig) :=
  let '(i, cfg) := st in
  let '(mkBenchConfig h p c m b) := cfg in
  if i <? len args then
    arg ← index args i;
    '(i, cfg) ←
      (if arg_is arg "--host" then
         i ← add_usize i 1; v ← index args i; Ok (i, mkBenchConfig v p c m b)
       else if arg_is arg "--port" then
         i ← add_usize i 1; v ← parse_arg u16_max args i; Ok (i, mkBenchConfig h v c m b)
       else if arg_is arg "--channels" then
         i ← add_usize i 1; v ← parse_arg usize_max args i; Ok (i, mkBenchConfig h p v m b)
       else if arg_is arg "--messages" then
         i ← add_usize i 1; v ← parse_arg usize_max args i; Ok (i, mkBenchConfig h p c v b)
       else if arg_is arg "--batch-size" then
         i ← add_usize i 1; v ← parse_arg usize_max args i; Ok (i, mkBenchConfig h p c m v)
       else Ok (i, cfg));
    i ← add_usize i 1;
    Ok (inl (i, cfg))
  else Ok (inr cfg).

Definition parse_args (args : list rstring) : outcome unit BenchConfig :=
  loop (S (length args)) (args_step args) (1, default_config).

(** ** The threads of a channel, one at a time *)

Definition topic_of (c : Z) : rstring := str "bench/topic/" ++ display c.
Definition sub_client_id (c : Z) : rstring := str "bench-sub-" ++ display c.
Definition pub_client_id (c : Z) : rstring := str "bench-pub-" ++ display c.

(** A thread before the barrier: an error of [connect_to_broker] is counted and the
    thread returns; what is unwrapped or asserted panics; [Ok] waits at the barrier. *)
Definition subscriber_setup (tcp : option socket) (c : Z) : outcome bench_error socket :=
  s ← connect_to_broker tcp (sub_client_id c);
  sub_pkt ← encode_subscribe 1 (topic_of c);
  s ← unwrap (write_all IoError sub_pkt s);
  '((pt, _, _), s) ← unwrap (receive s);
  if pt =? PT_SUBACK then Ok s else Panic.

Definition publisher_setup (tcp : option socket) (c : Z) : outcome bench_error socket :=
  connect_to_broker tcp (pub_client_id c).

(** The [for _ in 0..to_receive] loop: the stream and [received]. *)
Fixpoint receive_batch {E} (to_receive : nat) (stream : bytes) (received : Z) : outcome E (bytes * Z) :=
  match to_receive with
  | O => Ok (stream, received)
  | S k =>
      '((pt, _, _), stream) ← unwrap (read_packet stream);
      if pt =? PT_PUBLISH then
        received ← add_usize received 1;
        receive_batch k stream received
      else receive_batch k stream received
  end.

(** One iteration of [while received < msgs]; [signals] counts the [tx.send(())]. *)
Definition receive_step {E} (batch msgs : Z) (st : bytes * Z * Z)
    : outcome E (bytes * Z * Z + bytes * Z) :=
  let '(stream, received, signals) := st in
  if received <? msgs then
    let to_receive := Z.min batch (msgs - received) in
    '(stream, received) ← receive_batch (Z.to_nat to_receive) stream received;
    Ok (inl (stream, received, signals + 1))
  else Ok (inr (stream, signals)).

Definition receive_messages {E} (fuel : nat) (batch msgs : Z) (stream : bytes) : outcome E (bytes * Z) :=
  loop fuel (receive_step batch msgs) (stream, 0, 0).

(** The subscriber's thread when the barrier opens: the bytes it has sent in the end and
    the batches it has signalled. *)
Definition run_subscriber (fuel : nat) (tcp : option socket) (c batch msgs : Z)
    : outcome bench_error (socket * Z) :=
  s ← subscriber_setup tcp c;
  '(rest, signals) ← receive_messages fuel batch msgs (incoming s);
  s ← unwrap (write_all IoError encode_disconnect (mkSocket rest (write_results s) (sent s)));
  Ok (s, signals).

Definition payload_text : bytes := str "benchmark payload".

(** The [for _ in 0..to_send] loop: the socket and [sent]. *)
Fixpoint publish_batch {E} (to_send : nat) (topic : rstring) (s : socket) (n_sent : Z)
    : outcome E (socket * Z) :=
  match to_send with
  | O => Ok (s, n_sent)
  | S k =>
      pkt ← encode_publish topic payload_text;
      s ← unwrap (write_all IoError pkt s);
      n_sent ← add_usize n_sent 1;
      publish_batch k topic s n_sent
  end.

(** One iteration of [while sent < msgs]; [waits] counts the [rx.recv()]. *)
Definition publish_step {E} (topic : rstring) (batch msgs : Z) (st : socket * Z * Z)
    : outcome E (socket * Z * Z + socket * Z) :=
  let '(s, n_sent, waits) := st in
  if n_sent <? msgs then
    let to_send := Z.min batch (msgs - n_sent) in
    '(s, n_sent) ← publish_batch (Z.to_nat to_send) topic s n_sent;
    Ok (inl (s, n_sent, waits + 1))
  else Ok (inr (s, waits)).

Definition publish_messages {E} (fuel : nat) (topic : rstring) (batch msgs : Z) (s : socket)
    : outcome E (socket * Z) :=
  loop fuel (publish_step topic batch msgs) (s, 0, 0).

(** The publisher's two threads. *)
Definition run_publisher (fuel : nat) (tcp : option socket) (c batch msgs : Z)
    : outcome bench_error (socket * Z) :=
  s ← publisher_setup tcp c;
  '(s, waits) ← publish_messages fuel (topic_of c) batch msgs s;
  s ← unwrap (write_all IoError encode_disconnect s);
  Ok (s, waits).

(** ** A channel and the broker between its threads

    The publishes of a channel are numbered.  [in_transit] are those that the publisher has
    written and the broker has not yet queued: they stay in order, since one connection
    sends them to one shard ([ShardedConc]).  [outbound] is the subscriber's queue,
    [arriving] what its writer has put on the socket.  [signal] says whether the
    [sync_channel] of capacity one holds a token. *)

Inductive pub_pc : Type :=
| PubBatch (k : Z)      (* in the [for] loop with [k] messages to go; 0: in [rx.recv] *)
| PubFinished.

Inductive sub_pc : Type :=
| SubBatch (k : Z)      (* in the [for] loop with [k] messages to go; 0: in [tx.send] *)
| SubFinished.

Record channel : Type := mkChannel {
  published : Z;
  pub : pub_pc;
  in_transit : list Z;
  outbound : BoundedDropOldestQueue Z;
  arriving : list Z;
  got : list Z;
  sub : sub_pc;
  signal : bool;
}.

Inductive channel_label : Type :=
| SendPublish | Forward | WriteOut | ReadPacket | SendSignal | RecvSignal.

Section channel.
  Context (batch msgs : Z).

(** The head of the publisher's [while] loop, and of the subscriber's. *)
Definition next_pub (n : Z) : pub_pc :=
  if n <? msgs then PubBatch (Z.min batch (msgs - n)) else PubFinished.
Definition next_sub (n : Z) : sub_pc :=
  if n <? msgs then SubBatch (Z.min batch (msgs - n)) else SubFinished.

Definition start_channel : channel :=
  mkChannel 0 (next_pub 0) [] (new DEFAULT_CLIENT_QUEUE_CAPACITY) [] [] (next_sub 0) false.

Definition channel_step (l : channel_label) (ch : channel) : option channel :=
  let '(mkChannel n p w q a g s t) := ch in
  match l with
  | SendPublish =>
      match p with
      | PubBatch k => if 0 <? k then Some (mkChannel (n + 1) (PubBatch (k - 1)) (w ++ [n]) q a g s t) else None
      | PubFinished => None
      end
  | Forward =>
      match w with
      | m :: w' => Some (mkChannel n p w' (fst (push q m)) a g s t)
      | [] => None
      end
  | WriteOut =>
      match pop_blocking q with
      | (q', Return (Some m)) => Some (mkChannel n p w q' (a ++ [m]) g s t)
      | _ => None
      end
  | ReadPacket =>
      match s, a with
      | SubBatch k, m :: a' =>
          if 0 <? k then Some (mkChannel n p w q a' (g ++ [m]) (SubBatch (k - 1)) t) else None
      | _, _ => None
      end
  | SendSignal =>
      match s with
      | SubBatch 0 => if t then None else Some (mkChannel n p w q a g (next_sub (len g)) true)
      | _ => None
      end
  | RecvSignal =>
      match p with
      | PubBatch 0 => if t then Some (mkChannel n (next_pub n) w q a g s false) else None
      | _ => None
      end
  end.

Fixpoint channel_steps (ls : list channel_label) (ch : channel) : option channel :=
  match ls with
  | [] => Some ch
  | l :: ls' => ch' ← channel_step l ch; channel_steps ls' ch'
  end.

Inductive channel_reachable : channel -> Prop :=
| channel_start : channel_reachable start_channel
| channel_next l ch ch' :
    channel_reachable ch -> channel_step l ch = Some ch' -> channel_reachable ch'.
End channel.

(** Both threads of a channel have returned. *)
Definition channel_done (ch : channel) : bool :=
  match pub ch, sub ch with
  | PubFinished, SubFinished => true
  | _, _ => false
  end.

(** ** [main] *)

(** Where [main] is: at the barrier, with so many threads; in its joins; or at the report. *)
Inductive main_result : Type :=
| BlockedAtBarrier (waiting : Z)
| Joining
| Measured (total errors : Z).

(** A product or a sum: the debug profile checks it, the release profile wraps. *)
Definition arith_usize {E} (overflow_checks : bool) (x : Z) : outcome E Z :=
  if x <=? usize_max then Ok x else if overflow_checks then Panic else Ok (x mod 2 ^ 64).

(** The threads that wait at the barrier, and [error_count]. *)
Definition count_setup {A} (o : outcome bench_error A) (acc : Z * Z) : Z * Z :=
  let '(waiting, errors) := acc in
  match o with
  | Ok _ => (waiting + 1, errors)
  | Err _ => (waiting, errors + 1)
  | Panic | Diverge => (waiting, errors)
  end.

(** The two threads of a channel; [sockets] are the connections they get, the
    subscriber's first. *)
Definition setup_channel (sockets : Z -> option socket * option socket) (acc : Z * Z) (c : Z) : Z * Z :=
  let '(tcp_sub, tcp_pub) := sockets c in
  let acc := count_setup (subscriber_setup tcp_sub c) acc in
  count_setup (publisher_setup tcp_pub c) acc.

(** [main] when the threads of each channel have come as far as [chans] says.  The barrier
    opens when [channels * 2 + 1] threads wait, the main thread among them; then the main
    thread joins the publishers and the subscribers, and reports when all have returned. *)
Definition main (overflow_checks : bool) (args : list rstring) (sockets : Z -> option socket * option socket)
    (chans : Z -> channel) : outcome unit main_result :=
  config ← parse_args args;
  total_messages ← arith_usize overflow_checks (channels config * messages_per_channel config);
  twice ← arith_usize overflow_checks (channels config * 2);
  parties ← arith_usize overflow_checks (twice + 1);
  let '(waiting, errors) := foldl (setup_channel sockets) (0, 0) (seqZ 0 (channels config)) in
  if waiting + 1 <? parties then Ok (BlockedAtBarrier (waiting + 1))
  else if forallb (fun c => channel_done (chans c)) (seqZ 0 (channels config)) then Ok (Measured total_messages errors)
  else Ok Joining.

Example args_sample :
  parse_args (map str ["shard_benchmark"; "--channels"; "2"; "-x"; "--port"; "99"]) =
  Ok (mkBenchConfig (str "127.0.0.1") 99 2 1000 50).
Proof. reflexivity. Qed.
Example args_bad : parse_args (map str ["shard_benchmark"; "--port"]) = Panic.
Proof. reflexivity. Qed.
