(* ===== verification/BenchSpec.v ===== *)
(** * What the benchmark's threads and its command line do (src/bin/shard_benchmark.rs)

    The copied codec is the client's up to the error texts; the argument loop as a
    function of the list of arguments; a subscriber and a publisher against the broker's
    bytes. *)

From S2P Require Import Prelude Utf8 Numbers Errors Packets RemainingLength Topics.
From S2P Require Import Wire Codec CodecSafety CodecRoundtrip Queue Broker Connection ConnectionSpec Socket ClientSpec.
From S2P Require Import ClientFlowsSpec Bench.
From S2P Require Client ClientFlows Main.

(** ** The codec *)

(** The benchmark's text for an error of the client's [read_packet]. *)
Definition bench_error_of (e : Client.client_error) : bench_error :=
  match e with
  | Client.RlExceeds4 => RlExceeds4
  | Client.RlTruncated => RlTruncated
  | Client.RlMoreThan4 => RlMoreThan4
  | _ => IoError
  end.

Lemma bench_encode_connect {E} cid : encode_connect (E:=E) cid = Client.encode_connect cid 60.
Proof. reflexivity. Qed.

Lemma bench_encode_subscribe {E} id f : encode_subscribe (E:=E) id f = Client.encode_subscribe id f 0.
Proof. reflexivity. Qed.

Lemma bench_encode_publish {E} t data : encode_publish (E:=E) t data = Client.encode_publish t data 0 None.
Proof. reflexivity. Qed.

Lemma bench_decode_remaining_length buf :
  decode_remaining_length buf = map_err bench_error_of (Client.decode_remaining_length buf).
Proof.
  apply loop_map_err. intros [v i].
  unfold decode_remaining_length_step, Client.decode_remaining_length_step.
  destruct (4 <=? i); [done|]. destruct (len buf <=? i); [done|].
  unfold index. destruct (i <? 0); [done|].
  destruct (buf !! Z.to_nat i) as [b|]; [|done]. cbn [mbind outcome_bind map_err].
  unfold pow_u32, mul_u32, add_u32, add_usize. repeat (case_match; simplify_eq/=; try done).
Qed.

Lemma read_exact_err e n stream :
  bench_error_of e = IoError ->
  read_exact IoError n stream = map_err bench_error_of (read_exact e n stream).
Proof. intros <-. unfold read_exact. by destruct (_ <=? _). Qed.

Lemma bench_read_rl_step st : read_rl_step st = map_err bench_error_of (Client.read_rl_step st).
Proof.
  destruct st as [stream pre]. unfold read_rl_step, Client.read_rl_step.
  rewrite (read_exact_err Client.ReadRl), !map_err_bind by done. apply bind_ext. intros [b s].
  rewrite map_err_bind, index_map_err. apply bind_ext. intros b0. by repeat case_match.
Qed.

Lemma bench_read_packet stream : read_packet stream = map_err bench_error_of (Client.read_packet stream).
Proof.
  unfold read_packet, Client.read_packet.
  rewrite (read_exact_err Client.ReadHeader), !map_err_bind by done. apply bind_ext. intros [h s].
  rewrite map_err_bind, index_map_err. apply bind_ext. intros b.
  rewrite map_err_bind, (loop_map_err bench_error_of Client.read_rl_step _ _ _ bench_read_rl_step).
  apply bind_ext. intros [s' pre]. rewrite map_err_bind, bench_decode_remaining_length.
  apply bind_ext. intros [n k]. rewrite map_err_bind. destruct (0 <? n); [|done].
  rewrite (read_exact_err (Client.ReadBody n)) by done. apply bind_ext. by intros [].
Qed.

(** ** The command line *)

(** A flag's effect on the configuration, given its value. *)
Definition flag_effect (arg v : rstring) (cfg : BenchConfig) : option (outcome unit BenchConfig) :=
  let '(mkBenchConfig h p c m b) := cfg in
  let parsed max (k : Z -> BenchConfig) : outcome unit BenchConfig :=
    match parse_uint max v with Some n => Ok (k n) | None => Panic end in
  if arg_is arg "--host" then Some (Ok (mkBenchConfig v p c m b))
  else if arg_is arg "--port" then Some (parsed u16_max (fun x => mkBenchConfig h x c m b))
  else if arg_is arg "--channels" then Some (parsed usize_max (fun x => mkBenchConfig h p x m b))
  else if arg_is arg "--messages" then Some (parsed usize_max (fun x => mkBenchConfig h p c x b))
  else if arg_is arg "--batch-size" then Some (parsed usize_max (fun x => mkBenchConfig h p c m x))
  else None.

(** The arguments read as a list: a flag takes the argument behind it and trusts it. *)
Fixpoint args_spec (args : list rstring) (cfg : BenchConfig) : outcome unit BenchConfig :=
  match args with
  | [] => Ok cfg
  | arg :: rest =>
      match rest with
      | v :: rest' =>
          match flag_effect arg v cfg with
          | Some o => cfg' ← o; args_spec rest' cfg'
          | None => args_spec rest cfg
          end
      | [] => match flag_effect arg [] cfg with Some _ => Panic | None => Ok cfg end
      end
  end.

Lemma args_step_arg args i cfg arg rest :
  len args <= isize_max -> 1 <= i -> drop (Z.to_nat i) args = arg :: rest ->
  args_step args (i, cfg) =
  match flag_effect arg (default [] (head rest)) cfg with
  | Some o => match rest with [] => Panic | _ => cfg' ← o; Ok (inl (i + 2, cfg')) end
  | None => Ok (inl (i + 1, cfg))
  end.
Proof.
  intros Hlen Hi Hd. destruct cfg as [h p c m b]. unfold args_step, parse_arg.
  assert (Hlt : (i <? len args) = true) by (by rewrite ltb_len_drop, Hd by lia).
  pose proof Hlt as Hb%Z.ltb_lt. rewrite Hlt, (index_drop args i), Hd by lia. cbn [mbind outcome_bind].
  assert (Hmax : i + 1 + 1 <= usize_max) by (unfold isize_max, usize_max in *; lia).
  rewrite (add_usize_ok i) by lia. cbn [mbind outcome_bind].
  assert (Hv : index (E:=unit) args (i + 1) = match rest with v :: _ => Ok v | [] => Panic end).
  { rewrite index_drop by lia. change (i + 1) with (i + Z.of_nat 1). rewrite drop_next, Hd by lia. done. }
  rewrite Hv. unfold flag_effect.
  repeat match goal with |- context [arg_is arg ?s] => destruct (arg_is arg s) end;
    destruct rest as [|v rest]; cbn [head default from_option mbind outcome_bind]; unfold id;
    repeat (case_match; simplify_eq; cbn [mbind outcome_bind] in *); try done;
    rewrite add_usize_ok by lia; cbn [mbind outcome_bind];
    by replace (i + 1 + 1) with (i + 2) by lia.
Qed.

Lemma args_loop args fuel i cfg :
  len args <= isize_max -> 1 <= i -> (length (drop (Z.to_nat i) args) < fuel)%nat ->
  loop fuel (args_step args) (i, cfg) = args_spec (drop (Z.to_nat i) args) cfg.
Proof.
  intros Hlen. revert i cfg. induction fuel as [|fuel IH]; intros i cfg Hi Hf; [lia|]. cbn [loop].
  destruct (drop (Z.to_nat i) args) as [|arg rest] eqn:Hd.
  - destruct cfg. unfold args_step. by rewrite ltb_len_drop, Hd by lia.
  - rewrite (args_step_arg args i cfg arg rest) by done.
    assert (H1 := drop_next args i 1 ltac:(lia)). assert (H2 := drop_next args i 2 ltac:(lia)).
    rewrite Hd in H1, H2. change (Z.of_nat 1) with 1 in H1. change (Z.of_nat 2) with 2 in H2.
    cbn [drop length] in H1, H2, Hf. rewrite drop_0 in H1.
    destruct rest as [|v rest]; cbn [args_spec head default from_option].
    + destruct (flag_effect arg [] cfg); [done|]. cbn [mbind outcome_bind]. 
      by rewrite IH, H1 by (rewrite ?H1; simpl in *; lia).
    + cbn [drop] in H2. rewrite drop_0 in H2. unfold id. simpl in Hf.
      destruct (flag_effect arg v cfg) as [[cfg'| | |]|]; cbn [mbind outcome_bind]; try done.
      * rewrite IH, H2; [done|lia|rewrite H2; lia].
      * rewrite IH, H1; [done|lia|rewrite H1; simpl; lia].
Qed.

Lemma bench_args_eq args :
  len args <= isize_max -> parse_args args = args_spec (tail args) default_config.
Proof.
  intros Hlen. unfold parse_args. rewrite args_loop by (rewrite ?length_drop; lia).
  change (Z.to_nat 1) with 1%nat. by destruct args.
Qed.

(** ** The names of a channel *)

Lemma named_ok prefix n :
  Forall (fun b => in_range 0 127 b = true) prefix -> len prefix <= 100 -> 0 <= n <= usize_max ->
  rstring_ok (prefix ++ display n).
Proof.
  intros Hp Hl Hn. destruct (display_ascii n Hn) as [Hd Hdl]. split; [|len_lia].
  apply valid_utf8_app; [by apply valid_utf8_ascii|]. apply valid_utf8_ascii.
  eapply Forall_impl; [exact Hd|]. intros d ?%is_digit_iff. apply in_range_true. lia.
Qed.

Definition bench_connect_packet (cid : rstring) : MqttPacket :=
  Connect (mkConnect (str "MQTT") 4 true 60 cid).
Definition bench_subscribe_packet (c : Z) : MqttPacket := Subscribe (mkSubscribe 1 [(topic_of c, 0)]).
Definition bench_publish_packet (c : Z) : PublishPacket :=
  mkPublish (topic_of c) payload_text 0 false None.

Lemma bench_connect_ok cid :
  rstring_ok cid -> len cid <= 200 -> client_packet (bench_connect_packet cid).
Proof.
  intros Hid Hl. split_and!; [|cbn|done].
  - split_and!; try done; vm_compute; split; congruence.
  - change (len (str "MQTT")) with 4. lia.
Qed.

Lemma topic_of_ok c :
  0 <= c <= usize_max ->
  rstring_ok (topic_of c) /\ is_wildcard_filter (topic_of c) = false /\ len (topic_of c) <= 32.
Proof.
  intros Hc. destruct (display_ascii c Hc) as [Hd Hl]. split_and!.
  - apply named_ok; [|done|done]. by repeat constructor.
  - unfold is_wildcard_filter, topic_of. rewrite orb_false_iff, !contains_false, Forall_forall in *.
    split; intros [Hin|Hin%Hd]%elem_of_app; try (by apply is_digit_iff in Hin; lia);
      revert Hin; apply (bool_decide_unpack _); by vm_compute.
  - unfold topic_of. rewrite len_app. change (len (str "bench/topic/")) with 12. lia.
Qed.

Lemma bench_subscribe_ok c :
  0 <= c <= usize_max -> client_packet (bench_subscribe_packet c).
Proof.
  intros Hc. destruct (topic_of_ok c Hc) as (Hok & Hw & Hl). split_and!; [|cbn; lia|done].
  split; [done|]. split; [done|]. apply list.Forall_singleton. split; [|done].
  split; [done|]. split; [by unfold topic_of|by apply exact_levels_ok].
Qed.

Lemma bench_publish_ok c : 0 <= c <= usize_max -> sendable (bench_publish_packet c).
Proof.
  intros Hc. destruct (topic_of_ok c Hc) as (Hok & Hw & Hl). split.
  - split_and!; try done. apply (bool_decide_unpack _). by vm_compute.
  - cbn. change (len payload_text) with 17. lia.
Qed.

(** ** The sessions *)

(** The number of batches. *)
Definition batches (batch n : Z) : Z := (n + batch - 1) / batch.

Lemma batches_step batch n :
  1 <= batch -> 0 < n -> batches batch n = 1 + batches batch (n - Z.min batch n).
Proof.
  intros Hb Hn. unfold batches. destruct (Z.le_gt_cases n batch).
  - rewrite Z.min_r by lia. replace (n - n + batch - 1) with (batch - 1) by lia.
    rewrite (Z.div_small (batch - 1)) by lia. symmetry. apply (Z.div_unique _ _ _ (n - 1)); lia.
  - rewrite Z.min_l by lia. rewrite <- Z.div_add_l by lia. f_equal. lia.
Qed.

Lemma batches_zero batch : 1 <= batch -> batches batch 0 = 0.
Proof. intros Hb. unfold batches. apply Z.div_small. lia. Qed.

Lemma bench_receive_wire p rest ws out :
  0 <= wire_header p < 256 -> remaining_length p <= 268435455 ->
  receive (mkSocket (wire p ++ rest) ws out) =
  Ok ((wire_header p / 16, wire_header p mod 16, wire_body p), mkSocket rest ws out).
Proof. intros. unfold receive. cbn [incoming]. by rewrite bench_read_packet, read_packet_wire. Qed.

Lemma bench_connect_socket cid rest ws out :
  rstring_ok cid -> len cid <= 200 ->
  connect_to_broker (Some (mkSocket (wire connack_packet ++ rest) (true :: ws) out)) cid =
  Ok (mkSocket rest ws (out ++ wire (bench_connect_packet cid))).
Proof.
  intros Hid Hl. unfold connect_to_broker. cbn [ok_or mbind outcome_bind].
  destruct (bench_connect_ok cid Hid Hl) as (Hd & Hr & _).
  rewrite bench_encode_connect, client_encode_connect, encode_decodable by done.
  cbn [mbind outcome_bind write_all write_results incoming sent]. by rewrite bench_receive_wire.
Qed.

Lemma setup_names_ok c :
  0 <= c <= usize_max ->
  rstring_ok (sub_client_id c) /\ len (sub_client_id c) <= 200 /\
  rstring_ok (pub_client_id c) /\ len (pub_client_id c) <= 200.
Proof.
  intros Hc. destruct (display_ascii c Hc) as [_ Hl]. unfold sub_client_id, pub_client_id. rewrite !len_app.
  change (len (str "bench-sub-")) with 10. change (len (str "bench-pub-")) with 10.
  split_and!; try lia; (apply named_ok; [by repeat constructor|done|done]).
Qed.

(** A subscriber that gets a CONNACK and a SUBACK waits at the barrier. *)
Lemma subscriber_setup_ok c rest ws :
  0 <= c <= usize_max ->
  subscriber_setup (Some (mkSocket (wire connack_packet ++ wire (SubAck (mkSubAck 1 [0])) ++ rest)
                            (true :: true :: ws) [])) c =
  Ok (mkSocket rest ws (wire (bench_connect_packet (sub_client_id c)) ++ wire (bench_subscribe_packet c))).
Proof.
  intros Hc. destruct (setup_names_ok c Hc) as (Hs & Hsl & _). unfold subscriber_setup.
  rewrite bench_connect_socket by done. cbn [mbind outcome_bind app].
  destruct (topic_of_ok c Hc) as (_ & _ & Hl). destruct (bench_subscribe_ok c Hc) as (Hd & Hr & _).
  rewrite bench_encode_subscribe, client_encode_subscribe by (done || lia).
  change (Subscribe _) with (bench_subscribe_packet c). rewrite encode_decodable by done.
  cbn [mbind outcome_bind write_all write_results incoming sent unwrap].
  by rewrite bench_receive_wire.
Qed.

Lemma receive_batch_ok {E} ps rest received :
  Forall sendable ps -> received + len ps <= usize_max ->
  receive_batch (E:=E) (length ps) (concat (map (fun p => wire (Publish p)) ps) ++ rest) received =
  Ok (rest, received + len ps).
Proof.
  intros Hps. revert received. induction Hps as [|p ps [Hp Hl] _ IH]; intros received Hr.
  - cbn. by rewrite Z.add_0_r.
  - destruct (publish_header p Hp) as [Hh Ht]. cbn [length receive_batch map concat].
    rewrite <- app_assoc, bench_read_packet, read_packet_wire, Ht by done.
    cbn [unwrap map_err mbind outcome_bind]. change (3 =? PT_PUBLISH) with true. cbv iota.
    rewrite len_cons in Hr. pose proof (len_nonneg ps). rewrite add_usize_ok by lia. cbn [mbind outcome_bind].
    rewrite IH by lia. rewrite len_cons. f_equal. f_equal. lia.
Qed.

Lemma receive_messages_ok {E} batch msgs fuel ps rest received signals :
  1 <= batch -> msgs <= usize_max -> Forall sendable ps -> received + len ps = msgs ->
  (length ps < fuel)%nat ->
  loop (E:=E) fuel (receive_step batch msgs)
    (concat (map (fun p => wire (Publish p)) ps) ++ rest, received, signals) =
  Ok (rest, signals + batches batch (len ps)).
Proof.
  intros Hb Hm. revert ps received signals.
  induction fuel as [|fuel IH]; intros ps received signals Hps Hr Hf; [lia|]. cbn [loop receive_step].
  pose proof (len_nonneg ps) as Hn. destruct (Z.ltb_spec received msgs).
  - replace (msgs - received) with (len ps) by lia. set (k := Z.to_nat (Z.min batch (len ps))).
    assert (Hk : length (take k ps) = k) by (rewrite length_take; unfold k, len in *; lia).
    assert (Hd : length (drop k ps) = (length ps - k)%nat) by apply length_drop.
    rewrite <- (take_drop k ps) at 1. rewrite map_app, concat_app, <- app_assoc.
    assert (Hbatch := fun rest => receive_batch_ok (E:=E) (take k ps) rest received (Forall_take _ k ps Hps)).
    rewrite Hk in Hbatch.
    assert (Hlk : len (take k ps) = Z.min batch (len ps)) by (unfold len at 1; rewrite Hk; unfold k; lia).
    rewrite Hlk in Hbatch. rewrite Hbatch by lia. cbn [mbind outcome_bind].
    assert (Hld : len (drop k ps) = len ps - Z.min batch (len ps))
      by (unfold len at 1; rewrite Hd; unfold k, len in *; lia).
    rewrite IH; [|by apply Forall_drop|lia|unfold len in *; lia].
    rewrite (batches_step batch (len ps)), Hld by lia. f_equal. f_equal. lia.
  - assert (ps = []) as -> by (apply len_zero; lia). cbn [map concat app mbind outcome_bind].
    rewrite len_nil, batches_zero, Z.add_0_r by done. done.
Qed.

Lemma publish_batch_ok {E} c k inc ws out n :
  0 <= c <= usize_max -> n + Z.of_nat k <= usize_max ->
  publish_batch (E:=E) k (topic_of c) (mkSocket inc (replicate k true ++ ws) out) n =
  Ok (mkSocket inc ws (out ++ concat (replicate k (wire (Publish (bench_publish_packet c))))), n + Z.of_nat k).
Proof.
  intros Hc. destruct (bench_publish_ok c Hc) as [Hp Hl].
  revert out n. induction k as [|k IH]; intros out n Hn.
  - cbn. by rewrite app_nil_r, Z.add_0_r.
  - cbn [publish_batch replicate app]. pose proof Hp as ([_ Ht] & _).
    rewrite bench_encode_publish, client_encode_publish by done. change (mkPublish _ _ _ _ _) with (bench_publish_packet c).
    rewrite encode_decodable by done.
    cbn [mbind outcome_bind write_all write_results incoming sent unwrap].
    rewrite add_usize_ok by lia. cbn [mbind outcome_bind].
    rewrite IH by lia. cbn [concat]. rewrite app_assoc. f_equal. f_equal. lia.
Qed.

Lemma publish_loop_ok {E} c batch msgs fuel k inc ws out n waits :
  0 <= c <= usize_max -> 1 <= batch -> msgs <= usize_max -> n + Z.of_nat k = msgs -> (k < fuel)%nat ->
  loop (E:=E) fuel (publish_step (topic_of c) batch msgs) (mkSocket inc (replicate k true ++ ws) out, n, waits) =
  Ok (mkSocket inc ws (out ++ concat (replicate k (wire (Publish (bench_publish_packet c))))),
      waits + batches batch (Z.of_nat k)).
Proof.
  intros Hc Hb Hm. revert k out n waits.
  induction fuel as [|fuel IH]; intros k out n waits Hn Hf; [lia|]. cbn [loop publish_step].
  destruct (Z.ltb_spec n msgs).
  - replace (msgs - n) with (Z.of_nat k) by lia. set (j := Z.to_nat (Z.min batch (Z.of_nat k))).
    assert (Hj : k = (j + (k - j))%nat) by (unfold j; lia).
    rewrite Hj at 1. rewrite replicate_add, <- app_assoc, publish_batch_ok by (done || (unfold j; lia)).
    cbn [mbind outcome_bind]. rewrite IH by (unfold j; lia).
    rewrite (batches_step batch (Z.of_nat k)) by lia. f_equal. f_equal.
    + f_equal. rewrite <- app_assoc, <- concat_app, <- replicate_add, <- Hj. done.
    + replace (Z.of_nat (k - j)) with (Z.of_nat k - Z.min batch (Z.of_nat k)) by (unfold j; lia). lia.
  - assert (k = 0%nat) as -> by lia. cbn [replicate concat app mbind outcome_bind].
    by rewrite app_nil_r, batches_zero, Z.add_0_r.
Qed.

(** The subscriber's bytes: CONNACK, SUBACK and the messages. *)
Definition subscriber_answers (ps : list PublishPacket) : bytes :=
  wire connack_packet ++ wire (SubAck (mkSubAck 1 [0])) ++ concat (map (fun p => wire (Publish p)) ps).

Lemma run_subscriber_ok c batch ps fuel ws :
  0 <= c <= usize_max -> 1 <= batch -> len ps <= usize_max -> Forall sendable ps -> (length ps < fuel)%nat ->
  run_subscriber fuel (Some (mkSocket (subscriber_answers ps) (true :: true :: true :: ws) [])) c batch (len ps) =
  Ok (mkSocket [] ws (wire (bench_connect_packet (sub_client_id c)) ++ wire (bench_subscribe_packet c) ++
                      wire Disconnect), batches batch (len ps)).
Proof.
  intros Hc Hb Hl Hps Hf. unfold run_subscriber, subscriber_answers.
  rewrite subscriber_setup_ok by done. cbn [mbind outcome_bind incoming]. unfold receive_messages.
  pose proof (receive_messages_ok (E:=bench_error) batch (len ps) fuel ps [] 0 0 Hb Hl Hps eq_refl Hf) as Hloop.
  rewrite app_nil_r in Hloop. rewrite Hloop.
  cbn [mbind outcome_bind write_all write_results incoming sent unwrap]. by rewrite <- app_assoc.
Qed.

Lemma run_publisher_ok c batch k fuel rest ws :
  0 <= c <= usize_max -> 1 <= batch -> Z.of_nat k <= usize_max -> (k < fuel)%nat ->
  run_publisher fuel (Some (mkSocket (wire connack_packet ++ rest) (true :: replicate k true ++ true :: ws) []))
    c batch (Z.of_nat k) =
  Ok (mkSocket rest ws
        (wire (bench_connect_packet (pub_client_id c)) ++
         concat (replicate k (wire (Publish (bench_publish_packet c)))) ++ wire Disconnect),
      batches batch (Z.of_nat k)).
Proof.
  intros Hc Hb Hk Hf. destruct (setup_names_ok c Hc) as (_ & _ & Hp & Hpl).
  unfold run_publisher, publisher_setup. rewrite bench_connect_socket by done.
  cbn [mbind outcome_bind app]. unfold publish_messages. rewrite publish_loop_ok by (done || lia).
  cbn [mbind outcome_bind write_all write_results incoming sent unwrap]. by rewrite <- app_assoc.
Qed.

(** A batch size of zero: both loops run for ever and send nothing. *)
Lemma batch_zero_diverges {E} fuel msgs stream topic s :
  0 < msgs ->
  receive_messages (E:=E) fuel 0 msgs stream = Diverge /\
  publish_messages (E:=E) fuel topic 0 msgs s = Diverge.
Proof.
  intros Hm. assert (Hlt : (0 <? msgs) = true) by lia. assert (Hz : Z.min 0 (msgs - 0) = 0) by lia.
  enough (H : forall z,
    loop (E:=E) fuel (receive_step 0 msgs) (stream, 0, z) = Diverge /\
    loop (E:=E) fuel (publish_step topic 0 msgs) (s, 0, z) = Diverge) by apply H.
  induction fuel as [|fuel IH]; intros z; [done|]. cbn [loop]. split.
  - unfold receive_step. rewrite Hlt, Hz. change (Z.to_nat 0) with 0%nat.
    cbn [receive_batch mbind outcome_bind]. apply IH.
  - unfold publish_step. rewrite Hlt, Hz. change (Z.to_nat 0) with 0%nat.
    cbn [publish_batch mbind outcome_bind]. apply IH.
Qed.

(** ** The barrier *)

(** The threads that do not reach the barrier. *)
Definition setup_fails (sockets : Z -> option socket * option socket) (c : Z) : Prop :=
  ~ ((exists s, subscriber_setup (fst (sockets c)) c = Ok s) /\
     (exists s, publisher_setup (snd (sockets c)) c = Ok s)).

Lemma setup_channel_count sockets acc c :
  let '(w', e') := setup_channel sockets acc c in
  fst acc <= w' <= fst acc + 2 /\ snd acc <= e' /\
  (w' = fst acc + 2 -> e' = snd acc /\ ~ setup_fails sockets c) /\
  (~ setup_fails sockets c -> w' = fst acc + 2).
Proof.
  destruct acc as [w e]. unfold setup_channel, setup_fails. destruct (sockets c) as [s1 s2]. cbn [fst snd].
  unfold count_setup. destruct (subscriber_setup s1 c), (publisher_setup s2 c);
    (split; [lia|split; [lia|split]]);
    first [lia|intros; split; [lia|naive_solver]|intros Hn; exfalso; naive_solver].
Qed.

Lemma setup_count sockets cs acc :
  let '(w, e) := foldl (setup_channel sockets) acc cs in
  fst acc <= w <= fst acc + 2 * len cs /\ snd acc <= e /\
  (w = fst acc + 2 * len cs -> e = snd acc /\ Forall (fun c => ~ setup_fails sockets c) cs) /\
  (Forall (fun c => ~ setup_fails sockets c) cs -> w = fst acc + 2 * len cs).
Proof.
  revert acc. induction cs as [|c cs IH]; intros acc; cbn [foldl].
  - destruct acc as [w e]. cbn [fst snd]. rewrite (@len_nil Z).
    split; [lia|split; [lia|split; intros; [split; [lia|constructor]|lia]]].
  - pose proof (setup_channel_count sockets acc c) as H1. destruct (setup_channel sockets acc c) as [w1 e1].
    specialize (IH (w1, e1)). destruct (foldl _ _ cs) as [w e]. cbn [fst snd] in *. rewrite len_cons.
    destruct H1 as (? & ? & Ha & Hb), IH as (? & ? & Hc & Hd).
    split; [lia|split; [lia|split]].
    + intros. destruct Ha as [-> ?]; [lia|]. destruct Hc as [-> ?]; [lia|]. split; [done|]. by constructor.
    + intros [Hx Hy]%Forall_cons. apply Hb in Hx. apply Hd in Hy. lia.
Qed.

(** ** [main] *)

Definition bench_config_ok (cfg : BenchConfig) : Prop :=
  0 <= port cfg <= u16_max /\ 0 <= channels cfg <= usize_max /\
  0 <= messages_per_channel cfg <= usize_max /\ 0 <= batch_size cfg <= usize_max.

Lemma flag_effect_wp arg v cfg o :
  bench_config_ok cfg -> flag_effect arg v cfg = Some o -> o = Panic \/ exists cfg', o = Ok cfg' /\ bench_config_ok cfg'.
Proof.
  destruct cfg as [h p c m b]. intros (Hp & Hc & Hm & Hb). cbn in *. unfold flag_effect.
  repeat case_match; intros; simplify_eq; try done; try (by left); right; eexists; (split; [done|]); cbn;
    repeat match goal with H : parse_uint _ _ = Some _ |- _ => apply parse_uint_range in H; [|done] end;
    unfold bench_config_ok; cbn; lia.
Qed.

Lemma args_spec_result args cfg :
  bench_config_ok cfg -> args_spec args cfg = Panic \/ exists cfg', args_spec args cfg = Ok cfg' /\ bench_config_ok cfg'.
Proof.
  remember (length args) as k eqn:Hk. revert args Hk cfg.
  induction k as [k IH] using lt_wf_ind. intros args -> cfg Hc.
  destruct args as [|arg [|v rest]]; cbn [args_spec]; [by right; eexists| |].
  - destruct (flag_effect arg [] cfg); [by left|by right; eexists].
  - destruct (flag_effect arg v cfg) as [o|] eqn:Hf.
    + apply flag_effect_wp in Hf as [->|(cfg' & -> & Hc')]; [by left|cbn [mbind outcome_bind]|done].
      eapply IH; [|done|done]. simpl. lia.
    + exact (IH (length (v :: rest)) ltac:(simpl; lia) (v :: rest) eq_refl cfg Hc).
Qed.

Lemma main_barrier sockets n :
  0 <= n ->
  let '(waiting, errors) := foldl (setup_channel sockets) (0, 0) (seqZ 0 n) in
  0 <= waiting <= 2 * n /\
  (waiting = 2 * n <-> forall c, 0 <= c < n -> ~ setup_fails sockets c) /\
  (waiting = 2 * n -> errors = 0).
Proof.
  intros Hn. pose proof (setup_count sockets (seqZ 0 n) (0, 0)) as Hs.
  destruct (foldl _ _ _) as [w e]. cbn [fst snd] in Hs. unfold len in Hs. rewrite length_seqZ in Hs.
  rewrite Z2Nat.id in Hs by lia. rewrite Forall_seqZ in Hs. destruct Hs as (Hw & He & H1 & H2).
  split; [lia|]. split; [|naive_solver lia]. split.
  - intros Heq. destruct H1 as [_ H1]; [lia|]. intros c Hc. apply H1. lia.
  - intros Hall. rewrite H2; [lia|]. intros c Hc. apply Hall. lia.
Qed.
