(* ===== verification/BenchChannel.v ===== *)
(** * A benchmark channel under every interleaving (src/bin/shard_benchmark.rs)

    The publisher waits after each batch until the subscriber has received it.  With
    batches no larger than a client's queue nothing is dropped and both threads finish,
    however the threads and the broker between them are scheduled. *)

From S2P Require Import Prelude Queue Broker Bench.

Section channel_proofs.
  Context (batch msgs : Z) (Hbatch : 1 <= batch <= DEFAULT_CLIENT_QUEUE_CAPACITY) (Hmsgs : 0 <= msgs).

(** Where the two threads are, by the numbers of messages published and received. *)
Inductive phase (n r : Z) : pub_pc -> sub_pc -> bool -> Prop :=
| phase_batch target :
    r <= n <= target -> target <= msgs -> target - r <= batch ->
    phase n r (PubBatch (target - n)) (SubBatch (target - r)) false
| phase_signalled :
    r = n -> n <= msgs -> phase n r (PubBatch 0) (next_sub batch msgs r) true
| phase_finished :
    n = msgs -> r = msgs -> phase n r PubFinished SubFinished false.

Record channel_ok (ch : channel) : Prop := mkChannelOk {
  ch_all : got ch ++ arriving ch ++ items (outbound ch) ++ in_transit ch = seqZ 0 (published ch);
  ch_published : 0 <= published ch;
  ch_capacity : capacity (outbound ch) = DEFAULT_CLIENT_QUEUE_CAPACITY;
  ch_open : closed (outbound ch) = false;
  ch_phase : phase (published ch) (len (got ch)) (pub ch) (sub ch) (signal ch);
}.

Lemma phase_le n r p s t : phase n r p s t -> n <= msgs.
Proof. destruct 1; lia. Qed.

Lemma phase_start n r :
  r = n -> n <= msgs -> phase n r (next_pub batch msgs n) (next_sub batch msgs r) false.
Proof.
  intros -> Hn. unfold next_pub, next_sub. destruct (Z.ltb_spec n msgs).
  - replace (Z.min batch (msgs - n)) with (n + Z.min batch (msgs - n) - n) by lia. apply phase_batch; lia.
  - apply phase_finished; lia.
Qed.

Lemma start_channel_ok : channel_ok (start_channel batch msgs).
Proof. constructor; [done..|]. by apply phase_start. Qed.

(** What is on its way is never more than a batch. *)
Lemma channel_counts ch :
  channel_ok ch ->
  len (got ch) + len (arriving ch) + len (items (outbound ch)) + len (in_transit ch) = published ch /\
  published ch - len (got ch) <= batch /\ published ch <= msgs.
Proof.
  intros [Hall Hp _ _ Hph]. apply (f_equal len) in Hall.
  assert (Hlen : len (seqZ 0 (published ch)) = published ch) by (unfold len; rewrite length_seqZ; lia).
  rewrite Hlen in Hall. split; [len_lia|]. destruct Hph; lia.
Qed.

(** A push never finds the queue full. *)
Lemma forward_keeps ch m w :
  channel_ok ch -> in_transit ch = m :: w ->
  push (outbound ch) m = (mkQueue (items (outbound ch) ++ [m]) DEFAULT_CLIENT_QUEUE_CAPACITY false, false).
Proof.
  intros Hok Hw. pose proof (channel_counts ch Hok) as (Hl & Hd & _). destruct Hok as [_ _ Hc Ho _].
  rewrite Hw in Hl. unfold push. rewrite Hc, Ho.
  destruct (Z.leb_spec DEFAULT_CLIENT_QUEUE_CAPACITY (len (items (outbound ch)))); [|done].
  len_lia.
Qed.

(** The number of messages that have still to move, and the threads between batches. *)
Definition waiting_pub (p : pub_pc) : nat := match p with PubBatch 0 => 1 | _ => 0 end.
Definition waiting_sub (s : sub_pc) : nat := match s with SubBatch 0 => 1 | _ => 0 end.
#[local] Arguments Z.mul : simpl never.
#[local] Arguments waiting_pub : simpl never.
#[local] Arguments waiting_sub : simpl never.

Definition remaining (ch : channel) : nat :=
  Z.to_nat (3 * (4 * (msgs - published ch) + 3 * len (in_transit ch) + 2 * len (items (outbound ch)) +
                 len (arriving ch)))
  + waiting_pub (pub ch) + waiting_sub (sub ch).

Lemma next_pub_waiting n : waiting_pub (next_pub batch msgs n) = 0%nat.
Proof.
  unfold waiting_pub, next_pub. destruct (Z.ltb_spec n msgs); [|done].
  by destruct (Z.min batch (msgs - n)) eqn:Hm; [lia|..].
Qed.

Lemma next_sub_waiting n : waiting_sub (next_sub batch msgs n) = 0%nat.
Proof.
  unfold waiting_sub, next_sub. destruct (Z.ltb_spec n msgs); [|done].
  by destruct (Z.min batch (msgs - n)) eqn:Hm; [lia|..].
Qed.

Lemma waiting_le p s : (waiting_pub p <= 1 /\ waiting_sub s <= 1)%nat.
Proof. destruct p as [[]|], s as [[]|]; unfold waiting_pub, waiting_sub; lia. Qed.

Lemma publish_phase n r k s t :
  phase n r (PubBatch k) s t -> 0 < k -> phase (n + 1) r (PubBatch (k - 1)) s t.
Proof.
  inversion 1; subst; [|lia]. intros. replace (target - n - 1) with (target - (n + 1)) by lia.
  apply phase_batch; lia.
Qed.

Lemma read_phase n r p k t :
  phase n r p (SubBatch k) t -> 0 < k -> r < n -> phase n (r + 1) p (SubBatch (k - 1)) t.
Proof.
  inversion 1; subst; [|lia]. intros. replace (target - r - 1) with (target - (r + 1)) by lia.
  apply phase_batch; lia.
Qed.

Lemma send_phase n r p :
  phase n r p (SubBatch 0) false -> phase n r p (next_sub batch msgs r) true.
Proof.
  inversion 1; subst. replace (target - n) with 0 by lia. apply phase_signalled; lia.
Qed.

Lemma recv_phase n r s :
  phase n r (PubBatch 0) s true -> phase n r (next_pub batch msgs n) s false.
Proof. inversion 1; subst. by apply phase_start. Qed.

Lemma channel_step_ok l ch ch' :
  channel_ok ch -> channel_step batch msgs l ch = Some ch' ->
  channel_ok ch' /\ (remaining ch' < remaining ch)%nat.
Proof.
  intros Hok. pose proof (channel_counts ch Hok) as (Hl & Hd & Hle).
  pose proof (forward_keeps ch) as Hfw. pose proof Hok as [Hall Hn Hc Ho Hph].
  destruct ch as [n p w q a g s t]. cbn in *. unfold remaining.
  destruct l; cbn; intros Hstep.
  - destruct p as [k|]; [|done]. destruct (Z.ltb_spec 0 k); [|done]. injection Hstep as <-. cbn in *.
    apply publish_phase in Hph; [|done].
    pose proof (waiting_le (PubBatch (k - 1)) s). pose proof (phase_le _ _ _ _ _ Hph).
    split; [constructor; cbn; try done; try lia|len_lia].
    rewrite seqZ_app by lia. rewrite <- Hall. change (seqZ (0 + n) 1) with [0 + n].
    by rewrite Z.add_0_l, <- !app_assoc.
  - destruct w as [|m w]; [done|]. rewrite (Hfw m w) in Hstep by done. injection Hstep as <-. cbn in *.
    split; [constructor; cbn; try done|len_lia]. by rewrite <- app_assoc.
  - unfold pop_blocking in Hstep. rewrite pop_front_eq in Hstep.
    destruct q as [[|m l] c o]; cbn in *; [by rewrite Ho in Hstep|]. injection Hstep as <-. cbn in *.
    split; [constructor; cbn; try done|len_lia]. by rewrite <- app_assoc.
  - destruct s as [k|]; [|done]. destruct a as [|m a]; [done|].
    destruct (Z.ltb_spec 0 k); [|done]. injection Hstep as <-. cbn in *. apply read_phase in Hph; [|done|len_lia].
    pose proof (waiting_le p (SubBatch (k - 1))).
    split; [constructor; cbn; try done|len_lia]; [by rewrite <- app_assoc|].
    by rewrite len_app, len_cons, len_nil.
  - destruct s as [[| |]|]; try done. destruct t; [done|]. injection Hstep as <-. cbn in *. apply send_phase in Hph.
    split; [by constructor|]. rewrite next_sub_waiting. unfold waiting_sub. lia.
  - destruct p as [[| |]|]; try done. destruct t; [|done]. injection Hstep as <-. cbn in *. apply recv_phase in Hph.
    split; [by constructor|]. rewrite next_pub_waiting. unfold waiting_pub. lia.
Qed.

Lemma channel_reachable_ok ch : channel_reachable batch msgs ch -> channel_ok ch.
Proof.
  induction 1 as [|l ch ch' _ IH Hs]; [exact start_channel_ok|]. by destruct (channel_step_ok l ch ch' IH Hs).
Qed.

Lemma channel_terminates ch :
  channel_ok ch -> Acc (fun ch2 ch1 => exists l, channel_step batch msgs l ch1 = Some ch2) ch.
Proof.
  apply (acc_measure channel_ok (fun ch1 ch2 => exists l, channel_step batch msgs l ch1 = Some ch2) remaining).
  intros ch1 ch2 Hok [l Hl]. by eapply channel_step_ok.
Qed.

(** Both threads are done, and everything has arrived in order. *)
Definition completed (ch : channel) : Prop :=
  pub ch = PubFinished /\ sub ch = SubFinished /\ got ch = seqZ 0 msgs.

Lemma channel_progress ch :
  channel_ok ch -> (exists l ch', channel_step batch msgs l ch = Some ch') \/ completed ch.
Proof.
  intros Hok. pose proof (channel_counts ch Hok) as (Hl & Hd & Hle). destruct Hok as [Hall Hn Hc Ho Hph].
  destruct ch as [n p w [l c o] a g s t]. cbn in *.
  destruct w as [|m w]; [|left; by exists Forward; eexists].
  destruct l as [|m l]; [|left; by exists WriteOut; eexists].
  destruct a as [|m a].
  - autorewrite with len in Hl. rewrite !app_nil_r in Hall. destruct Hph as [target| |].
    + destruct (Z.ltb_spec 0 (target - n)) as [Hpos|].
      * left. exists SendPublish. by eexists.
      * left. exists SendSignal. eexists. cbn. by replace (target - len g) with 0 by lia.
    + left. exists RecvSignal. by eexists.
    + right. split_and!; [done..|]. cbn. by subst.
  - left. destruct Hph as [target| |]; [|autorewrite with len in Hl; pose proof (len_nonneg a); lia..].
    exists ReadPacket. eexists. cbv beta iota delta [channel_step]. autorewrite with len in Hl. pose proof (len_nonneg a).
    assert (Hpos : 0 < target - len g) by lia. by rewrite (proj2 (Z.ltb_lt _ _) Hpos).
Qed.

Lemma done_completed ch : channel_ok ch -> channel_done ch = true -> completed ch.
Proof.
  intros Hok Hd. pose proof (channel_counts ch Hok) as (Hl & _). destruct Hok as [Hall _ _ _ Hph].
  destruct ch as [n p w q a g s t]. unfold channel_done in Hd. cbn in *.
  destruct p; [done|]. destruct s; [done|]. inversion Hph; subst.
  split_and!; [done..|]. cbn. assert (Hlen : len a = 0 /\ len (items q) = 0 /\ len w = 0) by len_lia.
  destruct Hlen as (Ha & Hi & Hw). apply len_zero in Ha, Hi, Hw. rewrite Ha, Hi, Hw, !app_nil_r in Hall.
  etrans; [exact Hall|]. f_equal. rewrite !len_nil. lia.
Qed.
End channel_proofs.

(** ** Batches of size zero *)

Lemma next_zero msgs : 0 < msgs -> next_pub 0 msgs 0 = PubBatch 0 /\ next_sub 0 msgs 0 = SubBatch 0.
Proof.
  intros Hm. unfold next_pub, next_sub. replace (0 <? msgs) with true by lia.
  by replace (Z.min 0 (msgs - 0)) with 0 by lia.
Qed.

(** The threads signal to each other for ever and nothing is sent. *)
Lemma zero_batch msgs ch :
  0 < msgs -> channel_reachable 0 msgs ch -> pub ch = PubBatch 0 /\ sub ch = SubBatch 0 /\ published ch = 0 /\ got ch = [].
Proof.
  intros Hm. destruct (next_zero msgs Hm) as [Hnp Hns]. induction 1 as [|l ch ch' _ (Hp & Hs & Hn & Hg) Hstep].
  - unfold start_channel. rewrite Hnp, Hns. done.
  - destruct ch as [n p w q a g s t]. cbn in Hp, Hs, Hn, Hg. subst. unfold channel_step in Hstep.
    destruct l; cbn in Hstep; try done.
    + destruct w; by simplify_eq.
    + destruct (pop_blocking q) as [q' [[]|]]; by simplify_eq.
    + destruct a; by simplify_eq.
    + destruct t; simplify_eq. split_and!; [done|exact Hns|done|done].
    + destruct t; simplify_eq. by rewrite Hnp.
Qed.

Lemma zero_batch_goes_on msgs ch :
  0 < msgs -> channel_reachable 0 msgs ch -> exists l ch', channel_step 0 msgs l ch = Some ch'.
Proof.
  intros Hm (Hp & Hs & _)%zero_batch; [|done]. destruct ch as [n p w q a g s t]. cbn in Hp, Hs. subst.
  destruct t; [exists RecvSignal|exists SendSignal]; by eexists.
Qed.

(** ** Batches larger than the queue *)

Lemma last_n_last_n {A} c (l1 l2 : list A) : 0 <= c -> last_n c (last_n c l1 ++ l2) = last_n c (l1 ++ l2).
Proof.
  intros Hc. unfold last_n. destruct (Z.leb_spec (len l1) c).
  - by replace (Z.to_nat (len l1 - c)) with 0%nat by lia.
  - rewrite <- (drop_app_le l1 l2 (Z.to_nat (len l1 - c))) by (unfold len in *; lia).
    rewrite drop_drop. f_equal.
    unfold len in *. rewrite length_drop, !length_app. lia.
Qed.

Lemma push_shape {A} (q : BoundedDropOldestQueue A) x :
  capacity (fst (push q x)) = capacity q /\ closed (fst (push q x)) = closed q.
Proof. unfold push. by destruct (_ <=? _). Qed.

Section large_batch.
  Context (batch msgs : Z).

Lemma channel_steps_app ls1 ls2 ch ch' :
  channel_steps batch msgs ls1 ch = Some ch' ->
  channel_steps batch msgs (ls1 ++ ls2) ch = channel_steps batch msgs ls2 ch'.
Proof.
  revert ch. induction ls1 as [|l ls1 IH]; intros ch Hs; cbn in *; [by simplify_eq|].
  destruct (channel_step batch msgs l ch); cbn in *; [by apply IH|done].
Qed.

Lemma send_many k j n w q a g s t :
  0 <= j ->
  channel_steps batch msgs (replicate k SendPublish) (mkChannel n (PubBatch (Z.of_nat k + j)) w q a g s t) =
  Some (mkChannel (n + Z.of_nat k) (PubBatch j) (w ++ seqZ n (Z.of_nat k)) q a g s t).
Proof.
  intros Hj. revert n w. induction k as [|k IH]; intros n w.
  - cbn. by rewrite Z.add_0_r, app_nil_r.
  - cbn [replicate channel_steps channel_step]. destruct (Z.ltb_spec 0 (Z.of_nat (S k) + j)); [|lia].
    cbn [mbind option_bind].
    replace (Z.of_nat (S k) + j - 1) with (Z.of_nat k + j) by lia. rewrite IH.
    rewrite <- app_assoc. do 2 f_equal; [lia|]. f_equal. replace (Z.of_nat (S k)) with (1 + Z.of_nat k) by lia.
    rewrite seqZ_app by lia. done.
Qed.

Lemma forward_many w n p q a g s t :
  queue_ok q ->
  channel_steps batch msgs (replicate (length w) Forward) (mkChannel n p w q a g s t) =
  Some (mkChannel n p [] (mkQueue (last_n (capacity q) (items q ++ w)) (capacity q) (closed q)) a g s t).
Proof.
  revert q. induction w as [|m w IH]; intros q Hok.
  - cbn. rewrite app_nil_r. destruct q as [l c o]. destruct Hok as [Hc Hl]. unfold last_n. cbn in *.
    by replace (Z.to_nat (len l - c)) with 0%nat by lia.
  - cbn [length replicate channel_steps channel_step mbind option_bind]. rewrite IH by by apply push_ok.
    rewrite push_items by done. pose proof (push_shape q m) as [-> ->].
    rewrite last_n_last_n by (destruct Hok; lia). by rewrite <- app_assoc.
Qed.

Lemma write_many n p w l c o a g s t :
  channel_steps batch msgs (replicate (length l) WriteOut) (mkChannel n p w (mkQueue l c o) a g s t) =
  Some (mkChannel n p w (mkQueue [] c o) (a ++ l) g s t).
Proof.
  revert a. induction l as [|m l IH]; intros a; cbn [length replicate channel_steps]; [by rewrite app_nil_r|].
  cbn [channel_step]. unfold pop_blocking. rewrite pop_front_eq. cbn [items head tail capacity closed mbind option_bind].
  by rewrite IH, <- app_assoc.
Qed.

Lemma read_many n p w q a g k t :
  len a <= k ->
  channel_steps batch msgs (replicate (length a) ReadPacket) (mkChannel n p w q a g (SubBatch k) t) =
  Some (mkChannel n p w q [] (g ++ a) (SubBatch (k - len a)) t).
Proof.
  revert g k. induction a as [|m a IH]; intros g k Hk.
  - cbn [length replicate channel_steps]. by rewrite app_nil_r, len_nil, Z.sub_0_r.
  - rewrite len_cons in *. pose proof (len_nonneg a). cbn [length replicate channel_steps channel_step].
    replace (0 <? k) with true by lia. cbn [mbind option_bind]. rewrite IH by lia.
    rewrite <- app_assoc. by replace (k - 1 - len a) with (k - (1 + len a)) by lia.
Qed.

Lemma channel_steps_reach ls ch ch' :
  channel_reachable batch msgs ch -> channel_steps batch msgs ls ch = Some ch' -> channel_reachable batch msgs ch'.
Proof.
  revert ch. induction ls as [|l ls IH]; intros ch Hch Hs; cbn in Hs; [by simplify_eq|].
  destruct (channel_step batch msgs l ch) as [ch1|] eqn:Hl; cbn in Hs; [|done].
  eapply IH; [|done]. by eapply channel_next.
Qed.

(** The publisher sends its batch before anybody else does anything: the queue drops what
    does not fit, the subscriber waits for it, and the publisher for the subscriber. *)
Lemma large_batch_hangs :
  DEFAULT_CLIENT_QUEUE_CAPACITY < batch -> DEFAULT_CLIENT_QUEUE_CAPACITY < msgs ->
  exists ch, channel_reachable batch msgs ch /\ channel_done ch = false /\
    len (got ch) = DEFAULT_CLIENT_QUEUE_CAPACITY /\ published ch = Z.min batch msgs /\
    forall l, channel_step batch msgs l ch = None.
Proof.
  intros Hb Hm. set (b := Z.min batch msgs). set (cap := DEFAULT_CLIENT_QUEUE_CAPACITY) in *.
  assert (Hcap : 0 < cap) by done. assert (Hbc : cap < b) by (unfold b; lia).
  set (kept := last_n cap (seqZ 0 b)).
  assert (Hkept : len kept = cap).
  { unfold kept. rewrite last_n_len by lia. unfold len. rewrite length_seqZ. lia. }
  set (stuck := mkChannel b (PubBatch 0) [] (mkQueue [] cap false) [] kept (SubBatch (b - cap)) false).
  exists stuck. split_and!; [|done|exact Hkept|done|].
  - apply (channel_steps_reach (replicate (Z.to_nat b) SendPublish ++ replicate (Z.to_nat b) Forward ++
      replicate (length kept) WriteOut ++ replicate (length kept) ReadPacket) _ _ (channel_start batch msgs)).
    unfold start_channel, next_pub, next_sub. replace (0 <? msgs) with true by lia.
    replace (Z.min batch (msgs - 0)) with b by (unfold b; f_equal; lia).
    assert (Hsend := send_many (Z.to_nat b) 0 0 [] (new cap) [] [] (SubBatch b) false ltac:(lia)).
    rewrite Z2Nat.id, Z.add_0_r, Z.add_0_l in Hsend by lia. rewrite (channel_steps_app _ _ _ _ Hsend). clear Hsend.
    assert (Hfw := forward_many (seqZ 0 b) b (PubBatch 0) (new cap) [] [] (SubBatch b) false ltac:(by apply new_ok)).
    rewrite length_seqZ in Hfw. cbn [app]. rewrite (channel_steps_app _ _ _ _ Hfw). clear Hfw. cbn [new items capacity closed app].
    fold kept. rewrite (channel_steps_app _ _ _ _ (write_many b (PubBatch 0) [] kept cap false [] [] (SubBatch b) false)).
    cbn [app]. rewrite read_many by lia. cbn [app]. by rewrite Hkept.
  - intros []; try done. unfold stuck. cbn. destruct (b - cap) eqn:He; try done. lia.
Qed.
End large_batch.

