(* ===== verification/System.v ===== *)
(** * The whole broker process

    All the connections (src/connection.rs), the shards (src/broker.rs) and the
    outbound queues (src/queue.rs) together, as threads that interleave.  A reader
    makes the calls of its [reader_loop] in order, a broadcast one send at a time; a
    shard handles the messages of its channel and pushes to the queues; a writer calls
    [pop_blocking], encodes and writes; the thread of a connection joins its writer when
    its reader has returned.  The queues take the steps of [QueueConc]: a push and its
    notification are two steps of the pushing thread, a close too, and a writer can be
    anywhere inside [pop_blocking]. *)

From S2P Require Import Prelude Packets Topics Codec Queue QueueConc Broker Sharded ShardedConc Connection.

(** An accepted connection: its id and its queue, which [handle_connection] makes, and
    what its socket gives to read. *)
Record connection : Type := mkConnection {
  conn_id : ConnectionId;
  conn_queue : QueueHandle;
  conn_reads : list read_result;
}.

(** The calls of its reader.  They depend on what was read only: a reader never waits
    for the broker, and for a queue no longer than the queue's lock is held. *)
Definition conn_calls (c : connection) : list call :=
  match reader_loop (conn_id c) (conn_queue c) [] (conn_reads c) with
  | Ok (_, calls) => calls
  | _ => []
  end.

(** Whether its reader returns, or goes on to wait for bytes. *)
Definition conn_ends (c : connection) : bool :=
  match reader_loop (conn_id c) (conn_queue c) [] (conn_reads c) with
  | Ok (ReaderExited, _) => true
  | _ => false
  end.

(** The threads that push and close: the readers and the shards. *)
Definition thread : Type := ConnectionId + nat.

Abbreviation shared := (gmap QueueHandle (config OutboundEvent)) (only parsing).

Record world : Type := mkWorld {
  broker : system;                           (* the shards and their channels *)
  outbox : list (list push_call);            (* what each shard has still to push for its message *)
  queues : shared;                           (* each queue, and where its writer is in [pop_blocking] *)
  waking : gmap thread (QueueHandle * bool); (* threads before [notify_one], or before [notify_all] (true) *)
  todo : gmap ConnectionId (list call);      (* the calls each reader has still to make *)
  written : gmap QueueHandle (list bytes);   (* the frames that were written to each socket *)
  cut : gmap QueueHandle bytes;              (* what a failed [write_all] wrote of its frame *)
  exited : gset QueueHandle;                 (* the writers that have returned *)
  joining : gmap ConnectionId QueueHandle;   (* the connections with [writer.join()] still to return *)
}.

(** The bytes on a socket. *)
Definition socket_bytes (w : world) (q : QueueHandle) : bytes :=
  concat (lookup_list (written w) q) ++ default [] (cut w !! q).

Inductive step : Type :=
| Reader (id : ConnectionId)
| ReaderTx (id : ConnectionId)
| ShardRecv (i : nat) (order : HashOrder)
| ShardPush (i : nat)
| Notify (t : thread)
| Pop (q : QueueHandle) (l : QueueConc.label OutboundEvent)
| Write (q : QueueHandle) (r : write_result)
| WriterReturns (q : QueueHandle)
| Join (id : ConnectionId).

(** [Condvar::wait] may return without a notification. *)
Definition spurious (l : step) : bool :=
  match l with Pop _ Spurious => true | _ => false end.

(** A step of one queue. *)
Definition on_queue (l : QueueConc.label OutboundEvent) (q : QueueHandle) (qs : shared) : option shared :=
  c ← qs !! q; c' ← QueueConc.exec l c; Some (<[q := c']> qs).

Section system.
  Context {hasher : TopicHasher}.

(** The next call of a reader, when it is not in the middle of one. *)
Definition reader_step (id : ConnectionId) (w : world) : option world :=
  let '(mkWorld b o qs wk t fs ct ex jn) := w in
  match wk !! inl id, lookup_list (pending b) id, lookup_list t id with
  | None, [], c :: cs =>
      let t' := <[id := cs]> t in
      match c with
      | CallSend msg => b' ← exec (BeginSend msg) b; Some (mkWorld b' o qs wk t' fs ct ex jn)
      | CallPush q e =>
          qs' ← on_queue (PushItem e) q qs;
          Some (mkWorld b o qs' (<[inl id := (q, false)]> wk) t' fs ct ex jn)
      | CallClose q =>
          qs' ← on_queue SetClosed q qs;
          Some (mkWorld b o qs' (<[inl id := (q, true)]> wk) t' fs ct ex jn)
      | CallWarn _ => Some (mkWorld b o qs wk t' fs ct ex jn)
      end
  | _, _, _ => None
  end.

(** A reader in the middle of a send. *)
Definition reader_tx (id : ConnectionId) (w : world) : option world :=
  let '(mkWorld b o qs wk t fs ct ex jn) := w in
  b' ← exec (TxSend id) b; Some (mkWorld b' o qs wk t fs ct ex jn).

(** A shard takes the next message from its channel when it is done with the last. *)
Definition shard_recv (i : nat) (order : HashOrder) (w : world) : option world :=
  let '(mkWorld b o qs wk t fs ct ex jn) := w in
  match wk !! inr i, o !! i, shards b !! i with
  | None, Some [], Some s =>
      match mail s with
      | msg :: _ =>
          b' ← exec (Recv i order) b;
          Some (mkWorld b' (<[i := snd (handle (order := order) msg (registry s))]> o) qs wk t fs ct ex jn)
      | [] => None
      end
  | _, _, _ => None
  end.

Definition shard_push (i : nat) (w : world) : option world :=
  let '(mkWorld b o qs wk t fs ct ex jn) := w in
  match wk !! inr i, o !! i with
  | None, Some ((q, e) :: cs) =>
      qs' ← on_queue (PushItem e) q qs;
      Some (mkWorld b (<[i := cs]> o) qs' (<[inr i := (q, false)]> wk) t fs ct ex jn)
  | _, _ => None
  end.

(** The notification at the end of a push or a close. *)
Definition notify_step (th : thread) (w : world) : option world :=
  let '(mkWorld b o qs wk t fs ct ex jn) := w in
  '(q, all) ← wk !! th;
  qs' ← on_queue (if all : bool then NotifyAll else NotifyOne) q qs;
  Some (mkWorld b o qs' (delete th wk) t fs ct ex jn).

(** The writer inside [pop_blocking]. *)
Definition pop_step (q : QueueHandle) (l : QueueConc.label OutboundEvent) (w : world) : option world :=
  let '(mkWorld b o qs wk t fs ct ex jn) := w in
  if pop_label l then qs' ← on_queue l q qs; Some (mkWorld b o qs' wk t fs ct ex jn) else None.

(** The writer has an event: [encode] and [write_all]; then it calls [pop_blocking] again,
    or leaves its loop. *)
Definition write_step (q : QueueHandle) (r : write_result) (w : world) : option world :=
  let '(mkWorld b o qs wk t fs ct ex jn) := w in
  if bool_decide (q ∈ ex) then None
  else
    c ← qs !! q;
    match consumer c with
    | Returned (Some (Packet packet)) =>
        match encode (E:=unit) packet with
        | Ok frame =>
            match r with
            | WriteOk =>
                qs' ← on_queue CallAgain q qs;
                Some (mkWorld b o qs' wk t (<[q := lookup_list fs q ++ [bytes_out r frame]]> fs) ct ex jn)
            | WriteErr _ => Some (mkWorld b o qs wk t fs (<[q := bytes_out r frame]> ct) ({[q]} ∪ ex) jn)
            end
        | _ => None
        end
    | _ => None
    end.

(** [pop_blocking] returned [None]: the writer returns. *)
Definition writer_returns (q : QueueHandle) (w : world) : option world :=
  let '(mkWorld b o qs wk t fs ct ex jn) := w in
  if bool_decide (q ∈ ex) then None
  else
    c ← qs !! q;
    match consumer c with
    | Returned None => Some (mkWorld b o qs wk t fs ct ({[q]} ∪ ex) jn)
    | _ => None
    end.

(** [writer.join()] after the reader, and [handle_connection] returns. *)
Definition join_step (id : ConnectionId) (w : world) : option world :=
  let '(mkWorld b o qs wk t fs ct ex jn) := w in
  match wk !! inl id, lookup_list (pending b) id, lookup_list t id, jn !! id with
  | None, [], [], Some q =>
      if bool_decide (q ∈ ex) then Some (mkWorld b o qs wk t fs ct ex (delete id jn)) else None
  | _, _, _, _ => None
  end.

Definition world_step (l : step) (w : world) : option world :=
  match l with
  | Reader id => reader_step id w
  | ReaderTx id => reader_tx id w
  | ShardRecv i order => shard_recv i order w
  | ShardPush i => shard_push i w
  | Notify th => notify_step th w
  | Pop q l => pop_step q l w
  | Write q r => write_step q r w
  | WriterReturns q => writer_returns q w
  | Join id => join_step id w
  end.

Fixpoint world_steps (ls : list step) (w : world) : option world :=
  match ls with
  | [] => Some w
  | l :: ls' => w' ← world_step l w; world_steps ls' w'
  end.

(** The process with [n] shards when the connections have been accepted. *)
Definition start_world (n : Z) (conns : list connection) : world :=
  mkWorld (start n) (replicate (Z.to_nat n) [])
    (list_to_map (map (fun c => (conn_queue c, init DEFAULT_CLIENT_QUEUE_CAPACITY)) conns)) ∅
    (list_to_map (map (fun c => (conn_id c, conn_calls c)) conns)) ∅ ∅ ∅
    (list_to_map (map (fun c => (conn_id c, conn_queue c)) (filter (fun c => conn_ends c = true) conns))).

Inductive world_reachable (n : Z) (conns : list connection) : world -> Prop :=
| world_start : world_reachable n conns (start_world n conns)
| world_next l w w' :
    world_reachable n conns w -> world_step l w = Some w' -> world_reachable n conns w'.
End system.

(** The calls that a reader has made, when it has those of [t] still to make. *)
Definition made (t : gmap ConnectionId (list call)) (c : connection) : list call :=
  take (length (conn_calls c) - length (lookup_list t (conn_id c))) (conn_calls c).
