(* ===== verification/SystemSpec.v ===== *)
(** * What the whole process guarantees (src/connection.rs, src/broker.rs, src/queue.rs)

    The invariant of [System]: under every interleaving, everything that is queued for
    a connection, in its writer's hand or written to its socket is justified by calls
    that were made before: by a request of its own or by somebody's PUBLISH that it
    subscribed to.  Each queue is in a state of [QueueConc], and the notifications that
    its counters promise are those that some thread is about to make. *)

From S2P Require Import Prelude Packets Topics Wire Codec CodecRoundtrip Queue QueueConc Broker BrokerSpec.
From S2P Require Import Sharded ShardedConc Connection ConnectionSpec System.

(** What can be accepted: the ids and the queues are different, and a socket gives
    bytes. *)
Record connections_ok (conns : list connection) : Prop := {
  conns_ids : NoDup (map conn_id conns);
  conns_queues : NoDup (map conn_queue conns);
  conns_bytes c : c ∈ conns -> bytes_ok (read_bytes (conn_reads c));
  conns_len c : c ∈ conns -> len (read_bytes (conn_reads c)) <= isize_max;
}.

(** The calls that the readers have still to make, in a state of the process. *)
Abbreviation todos := (gmap ConnectionId (list call)) (only parsing).

(** Why an event may be on the queue [q]: the connection's own reader has answered with
    it, or it is a PUBLISH that some connection has sent, perhaps marked as retained, for
    a topic that the queue's connection, having registered, has asked for. *)
Inductive justified (conns : list connection) (t : todos) (q : QueueHandle) : OutboundEvent -> Prop :=
| just_answer c e :
    c ∈ conns -> conn_queue c = q -> CallPush q e ∈ made t c -> justified conns t q e
| just_delivery c cid f pub p p' :
    c ∈ conns -> conn_queue c = q -> pub ∈ conns ->
    CallSend (MsgRegister (conn_id c) cid q) ∈ made t c ->
    CallSend (MsgSubscribe (conn_id c) f) ∈ made t c ->
    CallSend (MsgPublish (conn_id pub) p) ∈ made t pub ->
    topic_matches_filter (topic p) f = true -> p' = p \/ p' = mark_retained p ->
    justified conns t q (Packet (Publish p')).

(** The request of a connection. *)
Definition requested (conns : list connection) (t : todos) (msg : BrokerMessage) : Prop :=
  exists c, c ∈ conns /\ conn_id c = sender msg /\ CallSend msg ∈ made t c.

(** The reader of the connection with the queue [q] has closed it. *)
Definition closer (conns : list connection) (t : todos) (q : QueueHandle) : Prop :=
  exists c, c ∈ conns /\ conn_queue c = q /\ CallClose q ∈ made t c.

(** The calls of a later state. *)
Definition grown (conns : list connection) (t t' : todos) : Prop :=
  forall c, c ∈ conns -> made t c ⊆ made t' c.

(** The threads that are about to notify the consumer of [q]: one of them, or all. *)
Definition waking_on (q : QueueHandle) (all : bool) (wk : gmap thread (QueueHandle * bool)) : nat :=
  length (filter (fun e => snd e = (q, all)) (map_to_list wk)).

Lemma waking_on_insert q all wk th x :
  wk !! th = None ->
  waking_on q all (<[th := x]> wk) = ((if decide (x = (q, all)) then 1 else 0) + waking_on q all wk)%nat.
Proof.
  intros Hth. unfold waking_on. rewrite map_to_list_insert, filter_cons by done. cbn [snd].
  by destruct (decide (x = (q, all))).
Qed.

Lemma waking_on_delete q all wk th x :
  wk !! th = Some x ->
  waking_on q all wk = ((if decide (x = (q, all)) then 1 else 0) + waking_on q all (delete th wk))%nat.
Proof.
  intros Hth. rewrite <- (insert_delete_id wk th x Hth) at 1.
  apply waking_on_insert. apply lookup_delete_eq.
Qed.

(** What a failed write left is the beginning of its frame. *)
Definition cut_short (part : bytes) (e : OutboundEvent) : Prop :=
  part `prefix_of` event_wire e /\ (length part < length (event_wire e))%nat.

Lemma bytes_out_cut n packet : cut_short (bytes_out (WriteErr n) (wire packet)) (Packet packet).
Proof.
  split; cbn [bytes_out event_wire]; [apply prefix_take|]. rewrite length_take. unfold wire. cbn [length]. lia.
Qed.

(** Computes the parts of a world, and the step at hand. *)
Ltac world_cbn :=
  cbn [broker outbox queues waking todo written cut exited joining world_step reader_step reader_tx shard_recv
       shard_push notify_step pop_step write_step writer_returns join_step] in *.

(** Takes an enabled step apart. *)
Ltac step_inv :=
  repeat match goal with
  | H : mbind _ ?x = Some _ |- _ => destruct x as [?|] eqn:?; cbn [mbind option_bind] in H; [|done]
  | H : match ?x with _ => _ end = Some _ |- _ => destruct x eqn:?; try done
  end; simplify_eq.

Section system_spec.
Context {hasher : TopicHasher} (n : Z) (conns : list connection).
Context (Hn : 1 <= n) (Hconns : connections_ok conns).

Lemma conn_reader_done c :
  c ∈ conns -> exists st, reader_loop (conn_id c) (conn_queue c) [] (conn_reads c) = Ok (st, conn_calls c) /\
    reader_done (conn_id c) (conn_queue c) (st, conn_calls c) /\
    conn_ends c = match st with ReaderExited => true | Reading _ => false end.
Proof.
  intros Hc. unfold conn_calls, conn_ends.
  destruct (reader_loop_ok (conn_id c) (conn_queue c) (conn_reads c) []) as ([st calls] & Hr & Hd).
  - by apply conns_bytes with conns.
  - by apply conns_len with conns.
  - exists st. rewrite Hr. split_and!; [done|done|]. by destruct st.
Qed.

Lemma conn_calls_own c : c ∈ conns -> Forall (own_call (conn_id c) (conn_queue c)) (conn_calls c).
Proof. intros (st & _ & [Hown _] & _)%conn_reader_done. done. Qed.

(** The reader closes its queue exactly when it returns. *)
Lemma conn_closes c : c ∈ conns -> CallClose (conn_queue c) ∈ conn_calls c <-> conn_ends c = true.
Proof.
  intros (st & _ & [_ Hd] & ->)%conn_reader_done. destruct st as [buf|]; cbn [fst snd] in Hd.
  - split; [|done]. rewrite Forall_forall in Hd. by intros Hin%Hd.
  - destruct Hd as (calls & -> & _). split; [done|]. intros _. apply elem_of_app. right. by right; left.
Qed.

Lemma conn_id_inj c1 c2 : c1 ∈ conns -> c2 ∈ conns -> conn_id c1 = conn_id c2 -> c1 = c2.
Proof.
  intros [i1 H1]%list_elem_of_lookup [i2 H2]%list_elem_of_lookup He.
  assert (i1 = i2); [|congruence].
  apply (NoDup_lookup (map conn_id conns) _ _ (conn_id c1)); [by apply conns_ids| |];
    rewrite list_lookup_fmap; [by rewrite H1|by rewrite H2, He].
Qed.

Lemma conn_queue_inj c1 c2 : c1 ∈ conns -> c2 ∈ conns -> conn_queue c1 = conn_queue c2 -> c1 = c2.
Proof.
  intros [i1 H1]%list_elem_of_lookup [i2 H2]%list_elem_of_lookup He.
  assert (i1 = i2); [|congruence].
  apply (NoDup_lookup (map conn_queue conns) _ _ (conn_queue c1)); [by apply conns_queues| |];
    rewrite list_lookup_fmap; [by rewrite H1|by rewrite H2, He].
Qed.

Lemma made_calls t c : made t c ⊆ conn_calls c.
Proof. intros call Hin. by eapply elem_of_sublist, sublist_take. Qed.

(** A call that was made is one of the connection's own. *)
Lemma made_own t c call : c ∈ conns -> call ∈ made t c -> own_call (conn_id c) (conn_queue c) call.
Proof.
  intros Hc Hin%made_calls. pose proof (conn_calls_own c Hc) as Ho. rewrite Forall_forall in Ho. by apply Ho.
Qed.

(** Everything a reader says is on valid data, so that a justified event can be framed. *)
Lemma justified_frame t q e : justified conns t q e -> frame_ok e.
Proof.
  intros [c e' Hc Hq Hin|c cid f pub p p' Hc Hq Hpub _ _ Hin _ Hp'].
  - by apply made_own in Hin as (_ & _ & ?).
  - apply made_own in Hin as (_ & _ & Hp & Hl); [|done].
    destruct (valid_publish_frame p Hp Hl). by destruct Hp' as [->| ->].
Qed.

(** A PUBLISH is a delivery, never an answer. *)
Lemma justified_publish t q p' :
  justified conns t q (Packet (Publish p')) ->
  exists c cid f pub p, c ∈ conns /\ conn_queue c = q /\ pub ∈ conns /\
    CallSend (MsgRegister (conn_id c) cid q) ∈ made t c /\
    CallSend (MsgSubscribe (conn_id c) f) ∈ made t c /\
    CallSend (MsgPublish (conn_id pub) p) ∈ made t pub /\
    topic_matches_filter (topic p) f = true /\ (p' = p \/ p' = mark_retained p).
Proof.
  intros Hj. inversion Hj as [c e Hc Hq Hin He|c cid f pub p p'' Hc Hq Hpub Hr Hs Hp Hm Hp' He].
  - by apply made_own in Hin as (_ & ? & _).
  - exists c, cid, f, pub, p. by split_and!.
Qed.

Lemma justified_owner t q e : justified conns t q e -> exists c, c ∈ conns /\ conn_queue c = q.
Proof. by intros []; eauto. Qed.

Lemma justified_grown t t' q e : grown conns t t' -> justified conns t q e -> justified conns t' q e.
Proof.
  intros Hg [c e' Hc Hq Hin|c cid f pub p p' Hc Hq Hpub Hr Hs Hp Hm Hp'].
  - eapply just_answer; [done|done|]. by apply Hg.
  - apply (just_delivery conns t' q c cid f pub p p'); try done; by apply Hg.
Qed.

Lemma justified_all_grown t t' q es :
  grown conns t t' -> Forall (justified conns t q) es -> Forall (justified conns t' q) es.
Proof. intros Hg Hj. eapply Forall_impl; [done|]. intros e. by apply justified_grown. Qed.

Lemma requested_grown t t' msg : grown conns t t' -> requested conns t msg -> requested conns t' msg.
Proof. intros Hg (c & Hc & Hid & Hin). exists c. split_and!; [done..|by apply Hg]. Qed.

Lemma grown_refl t : grown conns t t.
Proof. by intros c _ call. Qed.

(** ** What a broker delivers *)

(** The connection that a registered id belongs to. *)
Lemma connected_owner t h id cl :
  Forall (requested conns t) h -> connected h id = Some cl ->
  exists c, c ∈ conns /\ conn_id c = id /\ conn_queue c = outbound cl /\
    CallSend (MsgRegister (conn_id c) (state_client_id cl) (outbound cl)) ∈ made t c.
Proof.
  rewrite Forall_forall. intros Hh (h1 & m & h2 & Heq & He & _)%latest_Some.
  destruct (Hh m) as (c & Hc & Hs & Hin); [rewrite Heq; set_solver|].
  destruct m as [id' cid q| | | |id']; simpl in He; try done; destruct (Z.eqb_spec id' id); simplify_eq/=.
  pose proof (made_own t c _ Hc Hin) as (_ & Hq & _). simpl in Hq. exists c. by subst.
Qed.

(** What a broker delivers that knows requests only is justified. *)
Lemma delivers_justified t h msg out :
  Forall (requested conns t) h -> requested conns t msg -> delivers h msg out ->
  Forall (fun call => justified conns t (fst call) (snd call)) out.
Proof.
  intros Hh (cm & Hcm & Hid & Hmsg) Hd. pose proof (fun id cl => connected_owner t h id cl Hh) as Hreg.
  rewrite Forall_forall in Hh.
  destruct msg as [id cid q|id f|id f|from p|id]; simpl in Hd; try (subst out; by apply Forall_nil).
  - destruct (connected h id) as [cl|] eqn:Hcl; [|subst out; by apply Forall_nil].
    destruct Hd as (ps & _ & Hps & ->). apply Forall_fmap, Forall_forall. intros p Hp.
    apply Hps in Hp as [Hret Hmt]. apply retained_was_published in Hret as (from & Hp & _).
    destruct (Hh _ Hp) as (pub & Hpub & Hfrom & Hin). destruct (Hreg id cl Hcl) as (c & Hc & <- & Hq & Hr).
    assert (c = cm) as <- by by apply conn_id_inj. simpl in Hfrom. rewrite <- Hfrom in Hin.
    eapply (just_delivery conns t _ c _ f pub p); simpl; eauto.
  - destruct Hd as (ids & _ & Hids & ->). apply Forall_forall. intros call Hc.
    apply list_elem_of_omap in Hc as (id & Hi & Hcall). apply Hids in Hi as [_ (f & Hsub & Hmt)].
    destruct (connected h id) as [cl|] eqn:Hcl; simplify_eq/=.
    destruct (Hreg id cl Hcl) as (c & Hc & <- & Hq & Hr).
    apply latest_Some in Hsub as (h1 & m & h2 & Heq & He & _).
    assert (Hm : m = MsgSubscribe (conn_id c) f).
    { destruct m as [|id' f'|id' f'| |id']; simpl in He; try done;
        destruct (Z.eqb_spec id' (conn_id c)); simpl in He; try done; case_bool_decide; simplify_eq; done. }
    subst m. destruct (Hh (MsgSubscribe (conn_id c) f)) as (c' & Hc' & Hs & Hin); [rewrite Heq; set_solver|].
    assert (c' = c) as -> by by apply conn_id_inj.
    eapply (just_delivery conns t _ c _ f cm p); eauto.
Qed.

(** ** The invariant, part by part *)

(** The readers and the broker. *)
Record readers_ok (b : system) (t : todos) : Prop := {
  r_system : reachable n b;
  r_made c : c ∈ conns -> conn_calls c = made t c ++ lookup_list t (conn_id c);
  r_program c : c ∈ conns -> lookup_list (program b) (conn_id c) = sends (made t c);
  r_todo id : lookup_list t id <> [] -> exists c, c ∈ conns /\ conn_id c = id;
  r_sender id : Forall (fun msg => sender msg = id /\ requested conns t msg) (lookup_list (program b) id);
  r_pending id : lookup_list (pending b) id <> [] -> exists c, c ∈ conns /\ conn_id c = id;
}.

(** What the shards have still to push. *)
Record outbox_ok (t : todos) (o : list (list push_call)) : Prop := {
  o_len : len o = n;
  o_just i cs : o !! i = Some cs -> Forall (fun call => justified conns t (fst call) (snd call)) cs;
}.

(** A queue. *)
Record queue_inv (t : todos) (wk : gmap thread (QueueHandle * bool)) (q : QueueHandle)
    (c : config OutboundEvent) : Prop := {
  q_reach : QueueConc.reachable DEFAULT_CLIENT_QUEUE_CAPACITY c;
  q_just : Forall (justified conns t q) (backlog c);
  q_notifies : notifies c = waking_on q false wk;
  q_closes : closes c = waking_on q true wk;
  q_closed : closed (queue c) = true <-> closer conns t q;
}.

Record queues_ok (t : todos) (wk : gmap thread (QueueHandle * bool)) (qs : shared) : Prop := {
  q_inv q c : qs !! q = Some c -> queue_inv t wk q c;
  q_present q : is_Some (qs !! q) <-> exists c, c ∈ conns /\ conn_queue c = q;
  q_waking th q all : wk !! th = Some (q, all) -> is_Some (qs !! q);
}.

(** What was written. *)
Definition written_ok (t : todos) (fs : gmap QueueHandle (list bytes)) : Prop :=
  forall q, exists events, lookup_list fs q = map event_wire events /\ Forall (justified conns t q) events.

(** The writers that have returned: [pop_blocking] gave them [None], or an event that they
    could not write. *)
Record exited_ok (qs : shared) (ct : gmap QueueHandle bytes) (ex : gset QueueHandle) : Prop := {
  e_out q : q ∈ ex -> exists c r, qs !! q = Some c /\ consumer c = Returned r /\
    match r with
    | None => ct !! q = None
    | Some e => exists part, ct !! q = Some part /\ cut_short part e
    end;
  e_cut q : is_Some (ct !! q) -> q ∈ ex;
}.

(** The threads that have to join their writer. *)
Record joins_ok (ex : gset QueueHandle) (jn : gmap ConnectionId QueueHandle) : Prop := {
  j_own id q : jn !! id = Some q ->
    exists c, c ∈ conns /\ conn_id c = id /\ conn_queue c = q /\ conn_ends c = true;
  j_done c : c ∈ conns -> conn_ends c = true -> jn !! conn_id c = None -> conn_queue c ∈ ex;
}.

Record world_ok (w : world) : Prop := {
  w_readers : readers_ok (broker w) (todo w);
  w_outbox : outbox_ok (todo w) (outbox w);
  w_queues : queues_ok (todo w) (waking w) (queues w);
  w_written : written_ok (todo w) (written w);
  w_exited : exited_ok (queues w) (cut w) (exited w);
  w_joins : joins_ok (exited w) (joining w);
}.

Lemma outbox_grown t t' o : grown conns t t' -> outbox_ok t o -> outbox_ok t' o.
Proof.
  intros Hg [Hl Hj]. split; [done|]. intros i cs Hcs. eapply Forall_impl; [by eapply Hj|].
  intros call. by apply justified_grown.
Qed.

Lemma written_grown t t' fs : grown conns t t' -> written_ok t fs -> written_ok t' fs.
Proof.
  intros Hg Hw q. destruct (Hw q) as (events & ? & ?). exists events.
  split; [done|by eapply justified_all_grown].
Qed.

(** What the shards have received was requested. *)
Lemma known_requested b t i s :
  readers_ok b t -> shards b !! i = Some s -> Forall (requested conns t) (received s ++ mail s).
Proof.
  intros Hr Hs. apply Forall_forall. intros msg Hm.
  pose proof (sys_fifo _ _ (reachable_ok n _ Hn (r_system b t Hr)) i s (sender msg) Hs) as Hf.
  assert (Hin : msg ∈ shard_history n i (lookup_list (program b) (sender msg))).
  { rewrite <- Hf. apply elem_of_app. left. by apply list_elem_of_filter. }
  apply list_elem_of_filter in Hin as [_ Hin].
  pose proof (r_sender b t Hr (sender msg)) as Hp. rewrite Forall_forall in Hp. by apply Hp in Hin as [_ ?].
Qed.

(** The pushes of a shard for the next message in its channel. *)
Lemma handle_justified b t i s msg ms order :
  readers_ok b t -> shards b !! i = Some s -> mail s = msg :: ms ->
  Forall (fun call => justified conns t (fst call) (snd call)) (snd (handle (order := order) msg (registry s))).
Proof.
  intros Hr Hs Hm. pose proof (known_requested b t i s Hr Hs) as Hk. rewrite Hm in Hk.
  apply Forall_app in Hk as [Hk [Hmsg _]%Forall_cons].
  destruct (sys_registry _ _ (reachable_ok n _ Hn (r_system b t Hr)) i s Hs) as [Hok Hrep].
  by apply (delivers_justified t (received s) msg), handle_delivers.
Qed.

(** ** A reader makes a call *)

Lemma next_call b t id call cs :
  readers_ok b t -> lookup_list t id = call :: cs ->
  exists c, c ∈ conns /\ conn_id c = id /\ own_call id (conn_queue c) call /\
    conn_calls c = (made t c ++ [call]) ++ cs /\ made (<[id := cs]> t) c = made t c ++ [call] /\
    forall c', c' ∈ conns -> c' <> c -> made (<[id := cs]> t) c' = made t c'.
Proof.
  intros Hr Ht. destruct (r_todo b t Hr id) as (c & Hc & Hid); [by rewrite Ht|].
  pose proof (r_made b t Hr c Hc) as Hm. rewrite Hid, Ht in Hm.
  change (call :: cs) with ([call] ++ cs) in Hm. rewrite app_assoc in Hm.
  exists c. split_and!; [done|done| |done| |].
  - pose proof (conn_calls_own c Hc) as Ho. rewrite <- Hid. rewrite Forall_forall in Ho. apply Ho. rewrite Hm. set_solver.
  - unfold made at 1. rewrite lookup_list_insert, decide_True by done. rewrite Hm at 2.
    rewrite Hm, length_app at 1. apply take_app_length'. lia.
  - intros c' Hc' Hne. unfold made. rewrite lookup_list_insert, decide_False; [done|].
    intros He. apply Hne. apply conn_id_inj; congruence.
Qed.

Lemma next_grown b t id call cs :
  readers_ok b t -> lookup_list t id = call :: cs -> grown conns t (<[id := cs]> t).
Proof.
  intros Hr (c & Hc & Hid & _ & _ & Hm & Ho)%(next_call b t); [|done]. intros c' Hc'.
  destruct (decide (conn_id c' = conn_id c)) as [He|He].
  - apply conn_id_inj in He as ->; [|done|done]. rewrite Hm. set_solver.
  - rewrite Ho; [done|done|congruence].
Qed.

(** Only [CallClose] closes. *)
Lemma next_closer b t id call cs q :
  readers_ok b t -> lookup_list t id = call :: cs ->
  closer conns (<[id := cs]> t) q <-> closer conns t q \/ call = CallClose q.
Proof.
  intros Hr Ht. destruct (next_call b t id call cs Hr Ht) as (c & Hc & Hid & Hown & _ & Hm & Ho). split.
  - intros (c' & Hc' & Hq & Hin). destruct (decide (conn_id c' = conn_id c)) as [He|He].
    + apply conn_id_inj in He as ->; [|done|done]. rewrite Hm in Hin.
      apply elem_of_app in Hin as [Hin|Hin%list_elem_of_singleton]; [left; by exists c|by right].
    + left. exists c'. rewrite Ho in Hin; [done|done|congruence].
  - intros [(c' & Hc' & Hq & Hin)| ->].
    + exists c'. split_and!; [done..|]. by apply (next_grown b t id call cs Hr Ht).
    + simpl in Hown. exists c. split_and!; [done..|]. rewrite Hm. set_solver.
Qed.

Lemma readers_call b b' t id call cs :
  readers_ok b t -> lookup_list t id = call :: cs ->
  match call with CallSend msg => exec (BeginSend msg) b = Some b' | _ => b' = b end ->
  readers_ok b' (<[id := cs]> t).
Proof.
  intros Hr Ht Hb. pose proof (next_grown b t id call cs Hr Ht) as Hg.
  destruct (next_call b t id call cs Hr Ht) as (c & Hc & Hid & Hown & Hcalls & Hm & Ho).
  pose proof Hr as [Hsys Hmade Hprog Htodo Hsend Hpd].
  assert (Hpb : (forall id', lookup_list (program b') id' = lookup_list (program b) id' ++
      (if decide (id = id') then sends [call] else [])) /\ reachable n b' /\
    (forall id', lookup_list (pending b') id' <> [] -> exists c, c ∈ conns /\ conn_id c = id')).
  { destruct call as [msg|q e|q|wn];
      try (subst b'; split_and!; [intros id'; cbn; by destruct (decide _); rewrite app_nil_r|done|done]).
    pose proof (reach_exec n (BeginSend msg) b b' Hsys Hb) as Hsys'.
    destruct Hown as (Hs & _). cbn in Hb. rewrite Hs in Hb.
    destruct (lookup_list (pending b) id); [|done]. injection Hb as <-.
    split_and!; [|done|]; intros id'; cbn; rewrite lookup_list_insert; destruct (decide (id = id')) as [<-|];
      rewrite ?app_nil_r; try done; [intros _; by exists c|apply Hpd]. }
  destruct Hpb as (Hp & Hsys' & Hpd'). split; [done| | | | |done].
  - intros c' Hc'. rewrite lookup_list_insert. destruct (decide (id = conn_id c')) as [He|He].
    + assert (c' = c) as -> by (apply conn_id_inj; congruence). by rewrite Hm.
    + rewrite Ho by congruence. by apply Hmade.
  - intros c' Hc'. rewrite Hp. destruct (decide (id = conn_id c')) as [He|He].
    + assert (c' = c) as -> by (apply conn_id_inj; congruence). rewrite Hm, Hprog by done.
      unfold sends. by rewrite omap_app.
    + rewrite Ho, app_nil_r by congruence. by apply Hprog.
  - intros id'. rewrite lookup_list_insert. destruct (decide (id = id')) as [<-|]; [intros _; by exists c|apply Htodo].
  - intros id'. rewrite Hp. apply Forall_app. split.
    + eapply Forall_impl; [apply Hsend|]. intros msg [? ?]. split; [done|by eapply requested_grown].
    + destruct (decide (id = id')) as [<-|]; [|constructor]. destruct call as [msg| | |]; cbn; try constructor; [|done].
      destruct Hown as (Hs & _). split; [done|]. exists c. split_and!; [done|congruence|]. rewrite Hm. set_solver.
Qed.

(** The broker's own steps. *)
Lemma exec_program l b b' :
  exec l b = Some b' -> match l with BeginSend _ => True | _ => program b' = program b end.
Proof.
  destruct l as [msg|id|i order]; simpl; [done| |].
  - by destruct (lookup_list (pending b) id) as [|[j msg] rest]; intros; simplify_eq.
  - destruct (shards b !! i) as [s|]; simpl; [|done]. by destruct (mail s); intros; simplify_eq.
Qed.

Lemma readers_exec b b' t l :
  readers_ok b t -> exec l b = Some b' -> match l with BeginSend _ => False | _ => True end -> readers_ok b' t.
Proof.
  intros [Hsys Hmade Hprog Htodo Hsend Hpd] He Hl. pose proof (exec_program l b b' He) as Hp.
  destruct l as [msg|id|i order]; [done|..]; (split; rewrite ?Hp; try done; [by eapply reach_exec|]).
  - intros id' Hne. apply Hpd. cbn in He. destruct (lookup_list (pending b) id) as [|[j m] rest] eqn:Hl'; [done|].
    simplify_eq. cbn in Hne. rewrite lookup_list_insert in Hne. destruct (decide (id = id')) as [<-|]; [by rewrite Hl'|done].
  - intros id' Hne. apply Hpd. cbn in He. destruct (shards b !! i) as [s|]; cbn in He; [|done].
    destruct (mail s); by simplify_eq.
Qed.

(** ** A queue makes a step *)

(** What it does to the number of threads that are to notify. *)
Definition waking_after (l : QueueConc.label OutboundEvent) (all : bool) (k : nat) : nat :=
  match l, all with
  | PushItem _, false | SetClosed, true => S k
  | NotifyOne, false | NotifyAll, true => pred k
  | _, _ => k
  end.

Lemma queue_step_ok t t' wk wk' l q c c' :
  queue_inv t wk q c -> grown conns t t' -> QueueConc.exec l c = Some c' ->
  (forall e, l = PushItem e -> justified conns t' q e) ->
  (forall all, waking_on q all wk' = waking_after l all (waking_on q all wk)) ->
  (closer conns t' q <-> closer conns t q \/ l = SetClosed) ->
  queue_inv t' wk' q c'.
Proof.
  intros [Hr Hj Hnot Hclo Hcl] Hg Hs He Hwk Hcl'. destruct (exec_effect l c c' Hs) as (Hn' & Hm' & Hc').
  split.
  - by eapply QueueConc.reach_step.
  - rewrite (exec_backlog l c c' Hs). apply (justified_all_grown t t' q _ Hg) in Hj.
    apply Forall_app in Hj as Hj'. destruct Hj' as [Hh Hi].
    destruct l as [e| | | | | | | | | |]; try done. apply Forall_app. split; [done|].
    destruct (reachable_queue_ok DEFAULT_CLIENT_QUEUE_CAPACITY c) as [Hq _]; [done|done|].
    rewrite push_items by done. apply Forall_drop, Forall_app. split; [done|]. by apply list.Forall_singleton, He.
  - rewrite Hn', Hwk, Hnot. by destruct l.
  - rewrite Hm', Hwk, Hclo. by destruct l.
  - rewrite Hc', Hcl', <- Hcl. destruct l; naive_solver.
Qed.

Lemma on_queue_inv l q qs qs' :
  on_queue l q qs = Some qs' -> exists c c', qs !! q = Some c /\ QueueConc.exec l c = Some c' /\ qs' = <[q := c']> qs.
Proof.
  unfold on_queue. destruct (qs !! q) as [c|]; cbn; [|done].
  destruct (QueueConc.exec l c) as [c'|] eqn:He; cbn; [|done]. intros. simplify_eq. eauto.
Qed.

Lemma queues_step_ok t t' wk wk' l q qs qs' :
  queues_ok t wk qs -> grown conns t t' -> on_queue l q qs = Some qs' ->
  (forall e, l = PushItem e -> justified conns t' q e) ->
  (forall q' all, waking_on q' all wk' = if decide (q' = q) then waking_after l all (waking_on q' all wk)
                                         else waking_on q' all wk) ->
  (forall q', closer conns t' q' <-> closer conns t q' \/ l = SetClosed /\ q' = q) ->
  (forall th q' all, wk' !! th = Some (q', all) -> wk !! th = Some (q', all) \/ q' = q) ->
  queues_ok t' wk' qs'.
Proof.
  intros [Hinv Hpre Hth] Hg (c & c' & Hc & Hs & ->)%on_queue_inv He Hwk Hcl Hth'.
  assert (Hpre' : forall q', is_Some (<[q := c']> qs !! q') <-> is_Some (qs !! q')).
  { intros q'. rewrite lookup_insert. destruct (decide (q = q')) as [<-|]; [|done]. rewrite Hc. split; by eexists. }
  split.
  - intros q' c0. rewrite lookup_insert. destruct (decide (q = q')) as [<-|].
    + intros ?. simplify_eq. apply (queue_step_ok t t' wk wk' l q c c0); auto.
      * intros all. rewrite Hwk. by rewrite decide_True.
      * rewrite Hcl. naive_solver.
    + intros Hc0. destruct (Hinv q' c0 Hc0) as [? ? ? ? Hclosed]. split; rewrite ?Hwk, ?decide_False by done; try done.
      * by eapply justified_all_grown.
      * rewrite Hclosed, Hcl. naive_solver.
  - intros q'. by rewrite Hpre'.
  - intros th q' all Hw. apply Hpre'. destruct (Hth' th q' all Hw) as [Ho| ->]; [by eapply Hth|by rewrite Hc].
Qed.

(** A call that is not about a queue. *)
Lemma queues_grown t t' wk qs :
  queues_ok t wk qs -> grown conns t t' -> (forall q, closer conns t' q <-> closer conns t q) -> queues_ok t' wk qs.
Proof.
  intros [Hinv Hpre Hth] Hg Hcl. split; [|done|done]. intros q c Hc. destruct (Hinv q c Hc) as [? ? ? ? Hclosed].
  split; try done; [by eapply justified_all_grown|]. by rewrite Hclosed, Hcl.
Qed.

(** A thread begins a push or a close, and ends it. *)
Lemma queues_begin t t' wk th l q qs qs' :
  queues_ok t wk qs -> grown conns t t' -> wk !! th = None -> on_queue l q qs = Some qs' ->
  ((exists e, l = PushItem e /\ justified conns t' q e) \/ l = SetClosed) ->
  (forall q', closer conns t' q' <-> closer conns t q' \/ l = SetClosed /\ q' = q) ->
  queues_ok t' (<[th := (q, match l with SetClosed => true | _ => false end)]> wk) qs'.
Proof.
  intros Hq Hg Hth Hs Hl Hcl. apply (queues_step_ok t t' wk _ l q qs qs' Hq Hg Hs).
  - intros e ->. by destruct Hl as [(? & ? & ?)|]; simplify_eq.
  - intros q' all. rewrite waking_on_insert by done.
    destruct Hl as [(e & -> & _)| ->]; destruct all; cbn; repeat case_decide; simplify_eq; done.
  - done.
  - intros th' q' all. rewrite lookup_insert. destruct (decide (th = th')); [|by left].
    intros ?. simplify_eq. by right.
Qed.

Lemma queues_end t wk th q (all : bool) qs qs' :
  queues_ok t wk qs -> wk !! th = Some (q, all) ->
  on_queue (if all then NotifyAll else NotifyOne) q qs = Some qs' ->
  queues_ok t (delete th wk) qs'.
Proof.
  intros Hq Hth Hs. apply (queues_step_ok t t wk _ _ q qs qs' Hq (grown_refl t) Hs).
  - by destruct all.
  - intros q' all'. rewrite (waking_on_delete q' all' wk th (q, all)) by done.
    destruct all, all'; cbn; repeat case_decide; simplify_eq; try done; by cbn.
  - intros q'. destruct all; naive_solver.
  - intros th' q' all'. rewrite lookup_delete_Some. naive_solver.
Qed.

(** The steps of the writer do not touch the notifications. *)
Lemma queues_writer t wk l q qs qs' :
  queues_ok t wk qs -> pop_label l = true \/ l = CallAgain -> on_queue l q qs = Some qs' -> queues_ok t wk qs'.
Proof.
  intros Hq Hl Hs. apply (queues_step_ok t t wk _ l q qs qs' Hq (grown_refl t) Hs).
  - intros e ->. by destruct Hl.
  - intros q' all. destruct Hl as [Hl| ->]; [|by destruct (decide _)]. destruct l; try done; by destruct (decide _).
  - intros q'. destruct Hl as [Hl| ->]; [|naive_solver]. destruct l; naive_solver.
  - auto.
Qed.

(** A writer that has returned is not moved by the others. *)
Lemma exited_step qs qs' ct ex l q :
  exited_ok qs ct ex -> on_queue l q qs = Some qs' -> l <> CallAgain \/ q ∉ ex -> exited_ok qs' ct ex.
Proof.
  intros [Ho Hc] (c & c' & Hqc & Hs & ->)%on_queue_inv Hl. split; [|done]. intros q' Hin.
  destruct (Ho q' Hin) as (c0 & r & Hc0 & Hr & Hm). rewrite lookup_insert. destruct (decide (q = q')) as [<-|]; [|eauto].
  rewrite Hqc in Hc0. simplify_eq. exists c', r. split_and!; [done| |done].
  destruct Hl as [Hl|]; [|done]. by eapply exec_returned.
Qed.

Lemma joins_grow ex ex' jn : joins_ok ex jn -> ex ⊆ ex' -> joins_ok ex' jn.
Proof. intros [Ho Hd] Hs. split; [done|]. intros c Hc He Hj. by apply Hs, Hd. Qed.

(** ** Every step keeps the invariant *)

Lemma reader_step_ok w w' id : world_ok w -> reader_step id w = Some w' -> world_ok w'.
Proof.
  intros [Hr Ho Hq Hwr Hex Hj] Hstep. destruct w as [b o qs wk t fs ct ex jn]. world_cbn.
  destruct (wk !! inl id) eqn:Hw; [done|]. destruct (lookup_list (pending b) id) eqn:Hp; [|done].
  destruct (lookup_list t id) as [|call cs] eqn:Ht; [done|].
  pose proof (next_grown b t id call cs Hr Ht) as Hg.
  pose proof (fun q => next_closer b t id call cs q Hr Ht) as Hcl.
  destruct (next_call b t id call cs Hr Ht) as (c & Hc & Hid & Hown & _ & Hm & _).
  assert (Hpush : forall e, CallPush (conn_queue c) e = call -> justified conns (<[id := cs]> t) (conn_queue c) e).
  { intros e <-. apply (just_answer _ _ _ c); [done|done|]. rewrite Hm. set_solver. }
  apply (outbox_grown t _ o Hg) in Ho. apply (written_grown t _ fs Hg) in Hwr.
  destruct call as [msg|q e|q|wn].
  - destruct (exec (BeginSend msg) b) as [b'|] eqn:He; cbn in Hstep; [|done]. simplify_eq. split; world_cbn; try done.
    + by apply (readers_call b b' t (conn_id c) (CallSend msg) cs).
    + apply (queues_grown t); [done|done|]. intros q. rewrite Hcl. naive_solver.
  - destruct (on_queue _ q qs) as [qs'|] eqn:Hqs; cbn in Hstep; [|done]. simplify_eq.
    destruct Hown as (-> & _). split; world_cbn; try done.
    + by apply (readers_call b b t (conn_id c) (CallPush (conn_queue c) e) cs).
    + apply (queues_begin t _ wk _ (PushItem e) _ qs); [done|done|done|done|left; eauto|]. intros q. rewrite Hcl. naive_solver.
    + eapply exited_step; [done|done|by left].
  - destruct (on_queue _ q qs) as [qs'|] eqn:Hqs; cbn in Hstep; [|done]. simplify_eq. split; world_cbn; try done.
    + by apply (readers_call b b t (conn_id c) (CallClose q) cs).
    + apply (queues_begin t _ wk _ SetClosed _ qs); [done|done|done|done|by right|]. intros q'. rewrite Hcl. naive_solver.
    + eapply exited_step; [done|done|by left].
  - simplify_eq. split; world_cbn; try done.
    + by apply (readers_call b b t (conn_id c) (CallWarn wn) cs).
    + apply (queues_grown t); [done|done|]. intros q. rewrite Hcl. naive_solver.
Qed.

Lemma shard_recv_ok w w' i order : world_ok w -> shard_recv i order w = Some w' -> world_ok w'.
Proof.
  intros [Hr Ho Hq Hwr Hex Hj] Hstep. destruct w as [b o qs wk t fs ct ex jn]. world_cbn.
  destruct (wk !! inr i); [done|]. destruct (o !! i) as [[|]|] eqn:Hoi; try done.
  destruct (shards b !! i) as [s|] eqn:Hs; [|done]. destruct (mail s) as [|msg ms] eqn:Hm; [done|].
  destruct (exec (Recv i order) b) as [b'|] eqn:He; cbn in Hstep; [|done]. simplify_eq.
  pose proof (handle_justified b t i s msg ms order Hr Hs Hm) as Hnew. split; world_cbn; try done.
  - by apply (readers_exec b b' t (Recv i order)).
  - destruct Ho as [Hl Hj']. split; [unfold len in *; by rewrite length_insert|].
    intros j cs. rewrite list_lookup_insert_Some. intros [(-> & <- & _)|[_ Hcs]]; [done|by apply Hj' in Hcs].
Qed.

Lemma shard_push_ok w w' i : world_ok w -> shard_push i w = Some w' -> world_ok w'.
Proof.
  intros [Hr Ho Hq Hwr Hex Hj] Hstep. destruct w as [b o qs wk t fs ct ex jn]. world_cbn.
  destruct (wk !! inr i) eqn:Hw; [done|]. destruct (o !! i) as [[|[q e] cs]|] eqn:Hoi; try done.
  destruct (on_queue _ q qs) as [qs'|] eqn:Hqs; cbn in Hstep; [|done]. simplify_eq.
  destruct Ho as [Hl Hj']. pose proof (Hj' i _ Hoi) as [He Hcs]%Forall_cons. split; world_cbn; try done.
  - split; [unfold len in *; by rewrite length_insert|].
    intros j cs'. rewrite list_lookup_insert_Some. intros [(-> & <- & _)|[_ Hcs']]; [done|by apply Hj' in Hcs'].
  - apply (queues_begin t _ wk _ (PushItem e) _ qs); [done|by apply grown_refl|done|done|left; eauto|naive_solver].
  - eapply exited_step; [done|done|by left].
Qed.

(** The writer wrote a frame, or a part of it. *)
Lemma write_step_ok w w' q r : world_ok w -> write_step q r w = Some w' -> world_ok w'.
Proof.
  intros [Hr Ho Hq Hwr Hex Hj] Hstep. destruct w as [b o qs wk t fs ct ex jn]. world_cbn.
  case_bool_decide as Hin; [done|]. destruct (qs !! q) as [c|] eqn:Hc; cbn in Hstep; [|done].
  destruct (consumer c) as [| | | | | |[[packet]|]] eqn:Hcons; try done.
  assert (He : justified conns (todo (mkWorld b o qs wk t fs ct ex jn)) q (Packet packet)).
  { pose proof (q_just _ _ _ _ (q_inv _ _ _ Hq q c Hc)) as Hback. unfold backlog, hand in Hback.
    rewrite Hcons in Hback. by apply Forall_cons in Hback as [? _]. }
  cbn in He. destruct (justified_frame t q _ He) as [Hp Hpl]. rewrite encode_wire in Hstep by done.
  destruct r as [|k].
  - destruct (on_queue CallAgain q qs) as [qs'|] eqn:Hqs; cbn in Hstep; [|done]. simplify_eq. split; world_cbn; try done.
    + eapply queues_writer; [done|by right|done].
    + intros q'. rewrite lookup_list_insert. destruct (decide (q = q')) as [<-|]; [|done].
      destruct (Hwr q) as (events & -> & Hev). exists (events ++ [Packet packet]). rewrite map_app. split; [done|].
      apply Forall_app. split; [done|]. by apply list.Forall_singleton.
    + eapply exited_step; [done|done|by right].
  - simplify_eq. split; world_cbn; try done; [|eapply joins_grow; [done|set_solver]].
    destruct Hex as [Hout Hcut]. split; intros q'; rewrite lookup_insert; destruct (decide (q = q')) as [<-|Hne].
    + intros _. exists c, (Some (Packet packet)). split_and!; [done..|]. eexists. split; [done|]. apply bytes_out_cut.
    + intros Hin'. apply Hout. set_solver.
    + set_solver.
    + intros Hs. apply Hcut in Hs. set_solver.
Qed.

Lemma writer_returns_ok w w' q : world_ok w -> writer_returns q w = Some w' -> world_ok w'.
Proof.
  intros [Hr Ho Hq Hwr Hex Hj] Hstep. destruct w as [b o qs wk t fs ct ex jn]. world_cbn.
  case_bool_decide as Hin; [done|]. destruct (qs !! q) as [c|] eqn:Hc; cbn in Hstep; [|done].
  destruct (consumer c) as [| | | | | |[e|]] eqn:Hcons; try done. simplify_eq.
  split; world_cbn; try done; [|eapply joins_grow; [done|set_solver]].
  destruct Hex as [Hout Hcut]. split; intros q'; [|intros Hs%Hcut; set_solver].
  intros [->%elem_of_singleton|Hin']%elem_of_union; [|by apply Hout].
  exists c, None. split_and!; [done..|]. destruct (ct !! q) eqn:Hct; [|done]. exfalso. apply Hin, Hcut. by rewrite Hct.
Qed.

Lemma join_step_ok w w' id : world_ok w -> join_step id w = Some w' -> world_ok w'.
Proof.
  intros [Hr Ho Hq Hwr Hex [Hown Hdone]] Hstep. destruct w as [b o qs wk t fs ct ex jn]. world_cbn.
  destruct (wk !! inl id); [done|]. destruct (lookup_list (pending b) id); [|done].
  destruct (lookup_list t id); [|done]. destruct (jn !! id) as [q|] eqn:Hj; [|done].
  case_bool_decide as Hin; [|done]. simplify_eq. split; world_cbn; try done. split.
  - intros id' q' [_ Hj']%lookup_delete_Some. by apply Hown.
  - intros c Hc He. rewrite lookup_delete. destruct (decide (id = conn_id c)) as [->|]; [|by apply Hdone].
    intros _. destruct (Hown _ _ Hj) as (c' & Hc' & Hid & <- & _).
    by assert (c' = c) as -> by by apply conn_id_inj.
Qed.

Lemma world_step_ok l w w' : world_ok w -> world_step l w = Some w' -> world_ok w'.
Proof.
  destruct l as [id|id|i order|i|th|q l|q r|q|id]; cbn [world_step]; intros Hw Hstep.
  - by eapply reader_step_ok.
  - destruct Hw as [Hr Ho Hq Hwr Hex Hj]. destruct w as [b o qs wk t fs ct ex jn]. world_cbn.
    destruct (exec (TxSend id) b) as [b'|] eqn:He; cbn in Hstep; [|done]. simplify_eq. split; world_cbn; try done.
    by apply (readers_exec b b' t (TxSend id)).
  - by eapply shard_recv_ok.
  - by eapply shard_push_ok.
  - destruct Hw as [Hr Ho Hq Hwr Hex Hj]. destruct w as [b o qs wk t fs ct ex jn]. world_cbn.
    destruct (wk !! th) as [[q all]|] eqn:Hth; cbn in Hstep; [|done].
    destruct (on_queue _ q qs) as [qs'|] eqn:Hqs; cbn in Hstep; [|done]. simplify_eq. split; world_cbn; try done.
    + by eapply queues_end.
    + eapply exited_step; [done|done|left; by destruct all].
  - destruct Hw as [Hr Ho Hq Hwr Hex Hj]. destruct w as [b o qs wk t fs ct ex jn]. world_cbn.
    destruct (pop_label l) eqn:Hl; [|done].
    destruct (on_queue l q qs) as [qs'|] eqn:Hqs; cbn in Hstep; [|done]. simplify_eq. split; world_cbn; try done.
    + eapply queues_writer; [done|by left|done].
    + eapply exited_step; [done|done|left; by intros ->].
  - by eapply write_step_ok.
  - by eapply writer_returns_ok.
  - by eapply join_step_ok.
Qed.

(** ** The start *)

Lemma start_todo c : c ∈ conns -> lookup_list (todo (start_world n conns)) (conn_id c) = conn_calls c.
Proof.
  intros Hc. unfold lookup_list, start_world. cbn [todo].
  rewrite (elem_of_list_to_map_1 _ (conn_id c) (conn_calls c)); [done| |].
  - rewrite map_map. by apply conns_ids.
  - apply list_elem_of_fmap. by exists c.
Qed.

Lemma start_made c : c ∈ conns -> made (todo (start_world n conns)) c = [].
Proof. intros Hc. unfold made. rewrite start_todo by done. by rewrite Nat.sub_diag. Qed.

Lemma start_queue q c :
  queues (start_world n conns) !! q = Some c ->
  c = init DEFAULT_CLIENT_QUEUE_CAPACITY /\ exists cn, cn ∈ conns /\ conn_queue cn = q.
Proof.
  cbn. intros Hq%elem_of_list_to_map_2. apply list_elem_of_fmap in Hq as (cn & ? & Hcn). simplify_eq. eauto.
Qed.

Lemma start_joining c :
  c ∈ conns -> conn_ends c = true -> joining (start_world n conns) !! conn_id c = Some (conn_queue c).
Proof.
  intros Hc He. cbn [start_world joining].
  set (cs := filter (fun c => conn_ends c = true) conns).
  assert (Hnd : NoDup (map conn_id cs)).
  { apply (sublist_NoDup _ (map conn_id conns)); [by apply conns_ids|]. apply (fmap_sublist conn_id), list.sublist_filter. }
  apply elem_of_list_to_map_1; [by rewrite map_map|].
  apply list_elem_of_fmap. exists c. split; [done|]. by apply list_elem_of_filter.
Qed.

Lemma start_world_ok : world_ok (start_world n conns).
Proof.
  assert (Hnil : forall id, lookup_list (program (start n)) id = []) by done.
  split.
  - split; cbn [start_world broker].
    + constructor.
    + intros c Hc. by rewrite start_made, start_todo.
    + intros c Hc. by rewrite Hnil, start_made.
    + intros id Hne. unfold lookup_list in Hne. cbn [start_world todo] in Hne.
      destruct (_ !! id) as [calls|] eqn:He; [|done].
      apply elem_of_list_to_map_2, list_elem_of_fmap in He as (c & ? & Hc). simplify_eq. by exists c.
    + intros id. rewrite Hnil. constructor.
    + intros id Hne. by destruct Hne.
  - split; cbn [start_world outbox].
    + unfold len. rewrite length_replicate. lia.
    + intros i cs [-> _]%lookup_replicate. by apply Forall_nil.
  - split.
    + intros q c [-> Hq]%start_queue. split; [apply QueueConc.reach_init|apply Forall_nil; done|done|done|]. split; [done|].
      intros (c & Hc & _ & Hin). rewrite start_made in Hin by done. by apply not_elem_of_nil in Hin.
    + intros q. split; [by intros [c [_ Hc]%start_queue]|]. intros (c & Hc & <-).
      exists (init DEFAULT_CLIENT_QUEUE_CAPACITY). cbn [start_world queues]. apply elem_of_list_to_map_1.
      * rewrite map_map. by apply conns_queues.
      * apply list_elem_of_fmap. by exists c.
    + by intros th q all.
  - intros q. exists []. by split.
  - split; cbn [start_world exited cut]; intros q; [set_solver|by intros []].
  - split.
    + cbn [start_world joining]. intros id q Hj%elem_of_list_to_map_2.
      apply list_elem_of_fmap in Hj as (c & ? & [He Hc]%list_elem_of_filter). simplify_eq. by exists c.
    + intros c Hc He. by rewrite start_joining.
Qed.

Lemma world_reachable_ok w : world_reachable n conns w -> world_ok w.
Proof. induction 1 as [|l w w' _ IH Hs]; [apply start_world_ok|by apply (world_step_ok l w)]. Qed.

(** ** A socket *)

(** The bytes of a socket stay, and nothing follows what a writer wrote that has returned. *)
Lemma socket_grows l w w' q :
  world_ok w -> world_step l w = Some w' ->
  socket_bytes w q `prefix_of` socket_bytes w' q /\ (q ∈ exited w -> socket_bytes w' q = socket_bytes w q).
Proof.
  intros [_ _ _ _ Hex _] Hstep. destruct w as [b o qs wk t fs ct ex jn].
  assert (Hsame : written w' = fs -> cut w' = ct -> socket_bytes (mkWorld b o qs wk t fs ct ex jn) q
    `prefix_of` socket_bytes w' q /\ (q ∈ ex -> socket_bytes w' q = socket_bytes (mkWorld b o qs wk t fs ct ex jn) q)).
  { intros Hf Hc. unfold socket_bytes. rewrite Hf, Hc. by split. }
  destruct l as [id|id|i order|i|th|q0 l|q0 r|q0|id]; world_cbn;
    try (step_inv; by apply Hsame).
  case_bool_decide as Hin; [done|]. destruct (qs !! q0) as [c|]; cbn in Hstep; [|done].
  destruct (consumer c) as [| | | | | |[[packet]|]]; try done. destruct (encode packet) as [frame| | |]; try done.
  assert (Hnone : ct !! q0 = None).
  { destruct (ct !! q0) eqn:Hct; [|done]. destruct Hin. apply (e_cut _ _ _ Hex). by rewrite Hct. }
  destruct r as [|k]; unfold socket_bytes; world_cbn.
  - destruct (on_queue CallAgain q0 qs) as [qs'|]; cbn in Hstep; [|done]. simplify_eq. world_cbn.
    rewrite lookup_list_insert. destruct (decide (q0 = q)) as [->|]; [|done].
    rewrite Hnone. cbn. rewrite concat_app, !app_nil_r. split; [by eexists|done].
  - simplify_eq. world_cbn. rewrite lookup_insert. destruct (decide (q0 = q)) as [->|]; [|done].
    rewrite Hnone. cbn [default from_option]. rewrite app_nil_r. split; [by eexists|done].
Qed.

Lemma exited_cut qs ct ex q part :
  exited_ok qs ct ex -> ct !! q = Some part ->
  q ∈ ex /\ exists c e, qs !! q = Some c /\ consumer c = Returned (Some e) /\ cut_short part e.
Proof.
  intros [Ho Hc] Hp. assert (Hin : q ∈ ex) by (apply Hc; by rewrite Hp). split; [done|].
  destruct (Ho q Hin) as (c & r & Hq & Hr & Hcut). rewrite Hp in Hcut. destruct r as [e|]; [|done].
  destruct Hcut as (part' & ? & ?). simplify_eq. by exists c, e.
Qed.

Lemma queue_bound (c : config OutboundEvent) :
  QueueConc.reachable DEFAULT_CLIENT_QUEUE_CAPACITY c -> len (items (queue c)) <= 128.
Proof.
  intros Hr. destruct (reachable_queue_ok DEFAULT_CLIENT_QUEUE_CAPACITY c) as [[_ Hl] Hcap]; [done|done|].
  by rewrite Hcap in Hl.
Qed.

(** What was written is what the writer popped, but for the event in its hand. *)
Lemma written_taken w q c :
  world_reachable n conns w -> queues w !! q = Some c ->
  lookup_list (written w) q ++ map event_wire (hand c) = map event_wire (taken c).
Proof.
  intros Hr. revert q c. induction Hr as [|l w w' Hr IH Hs]; intros q c Hq.
  - by apply start_queue in Hq as [-> _].
  - apply world_reachable_ok in Hr as [_ _ Hqs _ _ _]. destruct w as [b o qs wk t fs ct ex jn].
    assert (Hqueue : forall l' q' qs', on_queue l' q' qs = Some qs' -> l' <> CallAgain -> qs' !! q = Some c ->
      lookup_list fs q ++ map event_wire (hand c) = map event_wire (taken c)).
    { intros l' q' qs' (c0 & c1 & Hc0 & He & ->)%on_queue_inv Hl'. rewrite lookup_insert.
      destruct (decide (q' = q)) as [->|]; [|apply IH]. intros ?. simplify_eq.
      assert (exists xs, hand c = hand c0 ++ xs /\ taken c = taken c0 ++ xs) as (xs & -> & ->)
        by (pose proof (exec_taken l' c0 c He); by destruct l').
      rewrite !map_app, app_assoc. f_equal. by apply IH. }
    destruct l as [id|id|i order|i|th|q0 l|q0 r|q0|id]; world_cbn.
    all: try (step_inv; world_cbn; by eauto).
    + destruct (wk !! th) as [[q' all]|]; cbn in Hs; [|done].
      destruct (on_queue _ q' qs) as [qs'|] eqn:Hqs'; cbn in Hs; [|done]. simplify_eq. by eapply Hqueue; [|destruct all|].
    + destruct (pop_label l) eqn:Hl; [|done]. destruct (on_queue l q0 qs) as [qs'|] eqn:Hqs'; cbn in Hs; [|done].
      simplify_eq. eapply Hqueue; [done| |done]. by intros ->.
    + case_bool_decide; [done|]. destruct (qs !! q0) as [c0|] eqn:Hc0; cbn in Hs; [|done].
      destruct (consumer c0) as [| | | | | |[[packet]|]] eqn:Hcons; try done.
      pose proof (q_just _ _ _ _ (q_inv _ _ _ Hqs q0 c0 Hc0)) as Hj. unfold backlog, hand in Hj. rewrite Hcons in Hj.
      apply Forall_cons in Hj as [[Hp Hpl]%justified_frame _]. rewrite encode_wire in Hs by done.
      destruct r as [|k]; [|simplify_eq; by apply IH].
      destruct (on_queue CallAgain q0 qs) as [qs'|] eqn:Hqs'; cbn in Hs; [|done].
      apply on_queue_inv in Hqs' as (c1 & c2 & Hc1 & He & ->). rewrite Hc0 in Hc1. injection Hc1 as <-. simplify_eq. world_cbn.
      rewrite lookup_list_insert. rewrite lookup_insert in Hq. destruct (decide (q0 = q)) as [->|]; [|by apply IH].
      simplify_eq. destruct (exec_taken _ _ _ He) as [Hh Ht]. rewrite Hh, Ht, app_nil_r.
      specialize (IH q c0 Hc0). unfold hand in IH. by rewrite Hcons in IH.
Qed.
End system_spec.
