(* ===== verification/SystemLive.v ===== *)
(** * Where the whole process ends (src/connection.rs, src/broker.rs, src/queue.rs)

    Every step of [System] makes progress in an order that is well-founded, but for a
    spurious wakeup, which a run can only have so many of.  A run stops when the process
    is [quiescent]: then all has been handled and written out, and a connection's thread
    that is not back is either waiting for bytes or, its queue closed, waiting for a
    writer that sleeps on the lost notification of the close. *)

From S2P Require Import Prelude Packets Topics Wire Codec CodecRoundtrip Queue QueueConc Broker BrokerSpec.
From S2P Require Import Sharded ShardedConc Connection ConnectionSpec System SystemSpec.

From Stdlib Require Import Relation_Operators Wellfounded.Lexicographic_Product.

(** Nothing is left to do but for new bytes: the readers have made their calls, the
    channels are empty, the shards have pushed, everybody has been notified, and a writer
    has returned, and been joined, or sleeps on an empty queue. *)
Record quiescent (conns : list connection) (w : world) : Prop := {
  quiet_readers c : c ∈ conns ->
    lookup_list (todo w) (conn_id c) = [] /\ lookup_list (pending (broker w)) (conn_id c) = [];
  quiet_mail i s : shards (broker w) !! i = Some s -> mail s = [];
  quiet_outbox i cs : outbox w !! i = Some cs -> cs = [];
  quiet_waking : waking w = ∅;
  quiet_writers c : c ∈ conns -> conn_queue c ∉ exited w ->
    exists qc, queues w !! conn_queue c = Some qc /\ consumer qc = Sleeping /\ items (queue qc) = [];
  quiet_joins c : c ∈ conns -> conn_queue c ∈ exited w -> joining w !! conn_id c = None;
}.

(** How a writer ends: it sleeps in [pop_blocking] with everything written; it has returned,
    since its queue was closed; or since a write failed, with a part of its frame. *)
Inductive writer_end (w : world) (q : QueueHandle) : Prop :=
| writer_sleeps qc :
    q ∉ exited w -> queues w !! q = Some qc -> consumer qc = Sleeping -> backlog qc = [] -> writer_end w q
| writer_left qc :
    q ∈ exited w -> queues w !! q = Some qc -> consumer qc = Returned None -> closed (queue qc) = true ->
    cut w !! q = None -> writer_end w q
| writer_failed qc e part :
    q ∈ exited w -> queues w !! q = Some qc -> consumer qc = Returned (Some e) ->
    cut w !! q = Some part -> cut_short part e -> writer_end w q.

(** How the thread of a connection ends: its reader waits for bytes; it has returned, and so
    has its writer; or it waits in [join] for a writer that nobody will wake up. *)
Inductive connection_end (w : world) (c : connection) : Prop :=
| still_reading qc :
    conn_ends c = false -> queues w !! conn_queue c = Some qc -> closed (queue qc) = false -> connection_end w c
| has_returned :
    conn_ends c = true -> joining w !! conn_id c = None -> conn_queue c ∈ exited w -> connection_end w c
| lost_wakeup qc :
    conn_ends c = true -> joining w !! conn_id c = Some (conn_queue c) -> queues w !! conn_queue c = Some qc ->
    stuck qc -> connection_end w c.

(** A step of a run that may have so many spurious wakeups. *)
Definition run_step {hasher : TopicHasher} (after before : nat * world) : Prop :=
  exists l, world_step l (snd before) = Some (snd after) /\
    fst before = if spurious l then S (fst after) else fst after.

Section system_live.
Context {hasher : TopicHasher} (n : Z) (conns : list connection).
Context (Hn : 1 <= n) (Hconns : connections_ok conns).

(** ** Every run is finite *)

(** How much a writer has to do. *)
Definition to_write (w : world) (c : connection) : nat :=
  (from_option pop_work 0 (queues w !! conn_queue c) + if bool_decide (conn_queue c ∈ exited w) then 0 else 1)%nat.

(** What is left to do, the more far-reaching work first: a reader's call may leave
    sends, a send a message, a message pushes, a push a notification, and that a wakeup. *)
Definition work (w : world) : nat * (nat * (nat * (nat * (nat * (nat * nat))))) :=
  (sum_list_with (fun c => length (lookup_list (todo w) (conn_id c))) conns,
   (sum_list_with (fun c => length (lookup_list (pending (broker w)) (conn_id c))) conns,
    (sum_list_with (fun s => length (mail s)) (shards (broker w)),
     (sum_list_with length (outbox w),
      (size (waking w),
       (sum_list_with (to_write w) conns,
        size (joining w))))))).

Definition less_work : relation (nat * (nat * (nat * (nat * (nat * (nat * nat)))))) :=
  slexprod _ _ lt (slexprod _ _ lt (slexprod _ _ lt (slexprod _ _ lt (slexprod _ _ lt (slexprod _ _ lt lt))))).

Lemma less_work_wf : well_founded less_work.
Proof. repeat apply wf_slexprod; apply lt_wf. Qed.

(** A shorter list for one connection is less to do. *)
Lemma shorter_list {V} (m : gmap ConnectionId (list V)) id x xs :
  lookup_list m id = x :: xs -> (exists c, c ∈ conns /\ conn_id c = id) ->
  (sum_list_with (fun c => length (lookup_list (<[id := xs]> m) (conn_id c))) conns <
   sum_list_with (fun c => length (lookup_list m (conn_id c))) conns)%nat.
Proof.
  intros Hm (c & Hc & Hid). apply (sum_list_lt _ _ _ c); [|done|].
  - intros c' _. rewrite lookup_list_insert. destruct (decide (id = conn_id c')) as [<-|]; [|done].
    rewrite Hm. simpl. lia.
  - rewrite lookup_list_insert. destruct (decide (id = conn_id c)); [|congruence].
    rewrite Hid, Hm. simpl. lia.
Qed.

Lemma size_delete_lt {K V} `{Countable K} (m : gmap K V) k v :
  m !! k = Some v -> (size (delete k m) < size m)%nat.
Proof.
  intros Hk. rewrite map_size_delete_Some by by eexists.
  assert (size m <> 0%nat); [|lia]. intros He%map_size_empty_inv. subst. done.
Qed.

Lemma reader_less w w' id : world_ok n conns w -> reader_step id w = Some w' -> less_work (work w') (work w).
Proof.
  intros [Hr _ _ _ _ _] Hstep. destruct w as [b o qs wk t fs ct ex jn]. world_cbn.
  destruct (wk !! inl id); [done|]. destruct (lookup_list (pending b) id); [|done].
  destruct (lookup_list t id) as [|c cs] eqn:Ht; [done|].
  assert (todo w' = <[id := cs]> t) as Ht'.
  { destruct c as [msg|q e|q|wn]; [destruct (exec _ b)|destruct (on_queue _ _ _)|destruct (on_queue _ _ _)|];
      cbn in Hstep; by simplify_eq. }
  apply left_slex. rewrite Ht'. apply (shorter_list t id c cs Ht). apply (r_todo _ _ _ _ Hr id). by rewrite Ht.
Qed.

Lemma tx_less w w' id : world_ok n conns w -> reader_tx id w = Some w' -> less_work (work w') (work w).
Proof.
  intros [Hr _ _ _ _ _] Hstep. pose proof (r_pending _ _ _ _ Hr id) as Hpd.
  destruct w as [b o qs wk t fs ct ex jn]. world_cbn. cbn in Hstep.
  destruct (lookup_list (pending b) id) as [|[i msg] rest] eqn:Hpen; [done|]. simplify_eq/=.
  apply right_slex, left_slex. cbn. apply (shorter_list (pending b) id (i, msg) rest Hpen). by apply Hpd.
Qed.

Lemma recv_less w w' i order : shard_recv i order w = Some w' -> less_work (work w') (work w).
Proof.
  intros Hstep. destruct w as [b o qs wk t fs ct ex jn]. world_cbn. destruct (wk !! inr i); [done|].
  destruct (o !! i) as [[|]|] eqn:Ho; try done. destruct (shards b !! i) as [s|] eqn:Hs; [|done].
  destruct (mail s) as [|msg ms] eqn:Hm; [done|]. cbn in Hstep. rewrite Hs in Hstep. cbn in Hstep.
  rewrite Hm in Hstep. simplify_eq/=.
  apply right_slex, right_slex, left_slex. apply (sum_list_insert_lt _ _ _ s); [done|]. rewrite Hm. simpl. lia.
Qed.

Lemma push_less w w' i : shard_push i w = Some w' -> less_work (work w') (work w).
Proof.
  intros Hstep. destruct w as [b o qs wk t fs ct ex jn]. world_cbn. destruct (wk !! inr i); [done|].
  destruct (o !! i) as [[|[q e] cs]|] eqn:Ho; try done.
  destruct (on_queue _ q qs) as [qs'|]; cbn in Hstep; [|done]. simplify_eq/=.
  do 3 apply right_slex. apply left_slex. apply (sum_list_insert_lt _ _ _ ((q, e) :: cs)); [done|]. simpl. lia.
Qed.

(** A writer that does something, or leaves. *)
Lemma to_write_less w w' t wk q c c' :
  queues_ok conns t wk (queues w) -> queues w !! q = Some c -> queues w' = <[q := c']> (queues w) ->
  exited w ⊆ exited w' -> (pop_work c' <= pop_work c)%nat ->
  (pop_work c' < pop_work c)%nat \/ ((q ∉ exited w) /\ q ∈ exited w') ->
  (sum_list_with (to_write w') conns < sum_list_with (to_write w) conns)%nat.
Proof.
  intros Hq Hc Hqs Hex Hle Hlt. destruct (proj1 (q_present _ _ _ _ Hq q)) as (cn & Hcn & Hcq); [by eexists|].
  assert (Hone : forall c0, (to_write w' c0 <= to_write w c0)%nat).
  { intros c0. unfold to_write. rewrite Hqs, lookup_insert. destruct (decide (q = conn_queue c0)) as [<-|];
      rewrite ?Hc; cbn [from_option]; repeat case_bool_decide; try lia; set_solver. }
  apply (sum_list_lt _ _ _ cn); [auto|done|]. unfold to_write. rewrite Hqs, Hcq, lookup_insert_eq, Hc.
  cbn [from_option]. repeat case_bool_decide; try lia; set_solver by lia.
Qed.

Lemma pop_less w w' q l :
  world_ok n conns w -> pop_step q l w = Some w' -> l <> Spurious -> less_work (work w') (work w).
Proof.
  intros [_ _ Hq _ _ _] Hstep Hs. destruct w as [b o qs wk t fs ct ex jn]. world_cbn.
  destruct (pop_label l) eqn:Hl; [|done]. destruct (on_queue l q qs) as [qs'|] eqn:Hqs; cbn in Hstep; [|done].
  apply on_queue_inv in Hqs as (c & c' & Hc & He & ->). simplify_eq.
  pose proof (pop_work_less l c c' He Hl Hs). do 5 apply right_slex. apply left_slex.
  eapply (to_write_less _ _ t wk q c c'); world_cbn; try done; [lia|by left].
Qed.

Lemma write_less w w' q r : world_ok n conns w -> write_step q r w = Some w' -> less_work (work w') (work w).
Proof.
  intros [_ _ Hq _ _ _] Hstep. destruct w as [b o qs wk t fs ct ex jn]. world_cbn.
  case_bool_decide as Hin; [done|]. destruct (qs !! q) as [c|] eqn:Hc; cbn in Hstep; [|done].
  destruct (consumer c) as [| | | | | |[[packet]|]] eqn:Hcons; try done.
  destruct (encode packet) as [frame| | |]; try done. destruct r as [|k].
  - destruct (on_queue CallAgain q qs) as [qs'|] eqn:Hqs; cbn in Hstep; [|done].
    apply on_queue_inv in Hqs as (c0 & c' & Hc0 & He & ->). rewrite Hc in Hc0. injection Hc0 as <-. simplify_eq.
    pose proof (pop_work_again c c' He). do 5 apply right_slex. apply left_slex.
    eapply (to_write_less _ _ t wk q c c'); world_cbn; try done; [lia|by left].
  - simplify_eq. do 5 apply right_slex. apply left_slex.
    eapply (to_write_less _ _ t wk q c c); world_cbn; try done; [by rewrite insert_id|set_solver|right; set_solver].
Qed.

Lemma returns_less w w' q : world_ok n conns w -> writer_returns q w = Some w' -> less_work (work w') (work w).
Proof.
  intros [_ _ Hq _ _ _] Hstep. destruct w as [b o qs wk t fs ct ex jn]. world_cbn.
  case_bool_decide as Hin; [done|]. destruct (qs !! q) as [c|] eqn:Hc; cbn in Hstep; [|done].
  destruct (consumer c) as [| | | | | |[|]]; try done. simplify_eq. do 5 apply right_slex. apply left_slex.
  eapply (to_write_less _ _ t wk q c c); world_cbn; try done; [by rewrite insert_id|set_solver|right; set_solver].
Qed.

Lemma notify_less w w' th : notify_step th w = Some w' -> less_work (work w') (work w).
Proof.
  intros Hstep. destruct w as [b o qs wk t fs ct ex jn]. world_cbn.
  destruct (wk !! th) as [[q all]|] eqn:Hth; cbn in Hstep; [|done].
  destruct (on_queue _ q qs) as [qs'|]; cbn in Hstep; [|done]. simplify_eq.
  do 4 apply right_slex. apply left_slex. world_cbn. by eapply size_delete_lt.
Qed.

Lemma join_less w w' id : join_step id w = Some w' -> less_work (work w') (work w).
Proof.
  intros Hstep. destruct w as [b o qs wk t fs ct ex jn]. world_cbn.
  destruct (wk !! inl id); [done|]. destruct (lookup_list (pending b) id); [|done].
  destruct (lookup_list t id); [|done]. destruct (jn !! id) as [q|] eqn:Hj; [|done].
  case_bool_decide; [|done]. simplify_eq. do 6 apply right_slex. world_cbn. by eapply size_delete_lt.
Qed.

Lemma world_step_less l w w' :
  world_ok n conns w -> world_step l w = Some w' -> spurious l = false -> less_work (work w') (work w).
Proof.
  destruct l as [id|id|i order|i|th|q l|q r|q|id]; intros Hw Hstep Hs; cbn [world_step] in Hstep.
  - by eapply reader_less.
  - by eapply tx_less.
  - by eapply recv_less.
  - by eapply push_less.
  - by eapply notify_less.
  - eapply pop_less; [done..|]. by intros ->.
  - by eapply write_less.
  - by eapply returns_less.
  - by eapply join_less.
Qed.

(** No scheduler can make the process run for ever. *)
Lemma world_terminates k w : world_ok n conns w -> Acc run_step (k, w).
Proof.
  revert w. induction k as [k IHk] using lt_wf_ind. intros w.
  remember (work w) as m eqn:Hm. revert w Hm. induction m as [m IH] using (well_founded_ind less_work_wf).
  intros w -> Hw. constructor. intros [k' w'] (l & Hl & Hk). cbn [fst snd] in *.
  assert (Hw' : world_ok n conns w') by by eapply world_step_ok.
  destruct (spurious l) eqn:Hs; subst k; [by apply IHk; [lia|]|].
  eapply IH; [by eapply world_step_less|done|done].
Qed.

(** ** It stops only when nothing is left to do *)

Definition enabled (w : world) : Prop := exists l w', world_step l w = Some w' /\ spurious l = false.

Lemma forall_or_exists {A} (P : A -> Prop) `{!forall x, Decision (P x)} (l : list A) :
  Forall P l \/ exists x, x ∈ l /\ ~ P x.
Proof.
  destruct (decide (Forall P l)) as [|Hf%not_Forall_Exists%Exists_exists]; [by left|by right|done].
Qed.

(** A thread that is to notify finds its notification counted. *)
Lemma notify_enabled w : world_ok n conns w -> waking w <> ∅ -> enabled w.
Proof.
  intros [_ _ Hq _ _ _] (th & [q all] & Hth)%map_choose. exists (Notify th).
  destruct w as [b o qs wk t fs ct ex jn]. world_cbn. rewrite Hth. cbn.
  destruct (q_waking _ _ _ _ Hq th q all Hth) as [c Hc]. destruct (q_inv _ _ _ _ Hq q c Hc) as [_ _ Hnot Hclo _].
  rewrite (waking_on_delete q _ wk th _ Hth) in Hnot. rewrite (waking_on_delete q _ wk th _ Hth) in Hclo.
  unfold on_queue. rewrite Hc. destruct c as [qu pc k m h]. cbn [notifies closes] in *.
  destruct all; cbn in *; rewrite ?decide_True in Hnot by done; rewrite ?decide_True in Hclo by done; subst; cbn; eauto.
Qed.

Lemma tx_enabled w id : lookup_list (pending (broker w)) id <> [] -> enabled w.
Proof.
  intros Hp. exists (ReaderTx id). destruct w as [b o qs wk t fs ct ex jn]. world_cbn. cbn.
  destruct (lookup_list (pending b) id) as [|[i msg] rest]; [done|]. cbn. eauto.
Qed.

(** The writer is not stuck inside [pop_blocking]. *)
Lemma pop_enabled w q c :
  queues w !! q = Some c -> (exists l c', pop_label l = true /\ l <> Spurious /\ QueueConc.exec l c = Some c') ->
  enabled w.
Proof.
  intros Hc (l & c' & Hl & Hs & He). exists (Pop q l). destruct w as [b o qs wk t fs ct ex jn]. world_cbn.
  rewrite Hl. unfold on_queue. rewrite Hc. cbn. rewrite He. cbn. eexists. split; [done|]. by destruct l.
Qed.

(** A thread that pushes gets the lock, or the writer has it and can go on. *)
Lemma on_queue_push w q c e :
  queues w !! q = Some c -> enabled w \/ exists qs', on_queue (PushItem e) q (queues w) = Some qs'.
Proof.
  intros Hc. destruct (push_enabled c e) as [[c' He]|Hm]; [right|left; by eapply pop_enabled].
  unfold on_queue. rewrite Hc. cbn -[QueueConc.exec]. rewrite He. cbn. eauto.
Qed.

Lemma reader_enabled w id :
  world_ok n conns w -> waking w = ∅ -> lookup_list (pending (broker w)) id = [] -> lookup_list (todo w) id <> [] ->
  enabled w.
Proof.
  intros [Hr _ Hq _ _ _] Hwk Hp Ht.
  destruct (lookup_list (todo w) id) as [|call cs] eqn:Htd; [done|].
  destruct (next_call n conns Hn Hconns _ _ id call cs Hr Htd) as (c & Hc & Hid & Hown & _).
  destruct (proj2 (q_present _ _ _ _ Hq (conn_queue c))) as [qc Hqc]; [by exists c|].
  assert (Hpush : forall e, enabled w \/ exists qs', on_queue (PushItem e) (conn_queue c) (queues w) = Some qs')
    by (intros e; by eapply on_queue_push).
  destruct w as [b o qs wk t fs ct ex jn]. world_cbn. subst wk.
  destruct call as [msg|q e|q|wn].
  - destruct Hown as (Hs & _). exists (Reader id). world_cbn. rewrite lookup_empty, Hp, Htd. cbn. rewrite Hs, Hp. cbn. eauto.
  - destruct Hown as (-> & _). destruct (Hpush e) as [|[qs' Hqs]]; [done|].
    exists (Reader id). world_cbn. rewrite lookup_empty, Hp, Htd, Hqs. cbn. eauto.
  - simpl in Hown. subst q. exists (Reader id). world_cbn. rewrite lookup_empty, Hp, Htd.
    unfold on_queue. rewrite Hqc. destruct qc as [qu pc k m h]. cbn. eauto.
  - exists (Reader id). world_cbn. rewrite lookup_empty, Hp, Htd. eauto.
Qed.

Lemma outbox_enabled w i cs :
  world_ok n conns w -> waking w = ∅ -> outbox w !! i = Some cs -> cs <> [] -> enabled w.
Proof.
  intros [_ Ho Hq _ _ _] Hwk Hi Hne. destruct cs as [|[q e] cs]; [done|].
  pose proof (o_just _ _ _ _ Ho i _ Hi) as [He _]%Forall_cons.
  destruct (proj2 (q_present _ _ _ _ Hq q)) as [qc Hqc]; [by eapply justified_owner|].
  destruct (on_queue_push w q qc e Hqc) as [|[qs' Hqs]]; [done|]. exists (ShardPush i).
  destruct w as [b o qs wk t fs ct ex jn]. world_cbn. subst wk. rewrite lookup_empty, Hi, Hqs. cbn. eauto.
Qed.

Lemma recv_enabled w i s :
  waking w = ∅ -> outbox w !! i = Some [] -> shards (broker w) !! i = Some s -> mail s <> [] -> enabled w.
Proof.
  intros Hwk Hi Hs Hm. exists (ShardRecv i key_order). destruct w as [b o qs wk t fs ct ex jn]. world_cbn. subst wk.
  rewrite lookup_empty, Hi, Hs. destruct (mail s) as [|msg ms] eqn:Hms; [done|]. cbn. rewrite Hs. cbn. rewrite Hms. cbn. eauto.
Qed.

(** A writer that is there sleeps with all written, or goes on. *)
Lemma writer_enabled w q c :
  world_ok n conns w -> waking w = ∅ -> queues w !! q = Some c -> q ∉ exited w ->
  enabled w \/ consumer c = Sleeping /\ items (queue c) = [].
Proof.
  intros [_ _ Hq _ _ _] Hwk Hc Hin. pose proof (q_inv _ _ _ _ Hq q c Hc) as [Hr Hj Hnot _ _].
  destruct (consumer_moves c) as [Hm|[Hs|[r Hret]]]; [left; by eapply pop_enabled|right|left].
  - split; [done|]. destruct (reachable_no_lost_push _ c Hr) as [Hl _]. specialize (Hl Hs).
    rewrite Hnot, Hwk in Hl. destruct (items (queue c)); [done|]. specialize (Hl ltac:(done)).
    unfold waking_on in Hl. rewrite map_to_list_empty in Hl. cbn in Hl. lia.
  - unfold backlog, hand in Hj. rewrite Hret in Hj. destruct r as [[packet]|].
    + apply Forall_cons in Hj as [[Hp Hpl]%(justified_frame _ Hconns) _]. exists (Write q WriteOk).
      destruct w as [b o qs wk t fs ct ex jn]. world_cbn. rewrite bool_decide_eq_false_2, Hc by done. cbn.
      rewrite Hret, encode_wire by done. unfold on_queue. rewrite Hc. destruct c as [qu pc k m h]. cbn in *. subst pc.
      cbn. eauto.
    + exists (WriterReturns q). destruct w as [b o qs wk t fs ct ex jn]. world_cbn.
      rewrite bool_decide_eq_false_2, Hc by done. cbn. rewrite Hret. eauto.
Qed.

(** A connection with its writer gone is joined when its reader is done. *)
Lemma join_enabled w c :
  world_ok n conns w -> waking w = ∅ -> c ∈ conns -> conn_queue c ∈ exited w ->
  lookup_list (pending (broker w)) (conn_id c) = [] -> lookup_list (todo w) (conn_id c) = [] ->
  joining w !! conn_id c <> None -> enabled w.
Proof.
  intros [_ _ _ _ _ Hj] Hwk Hc Hin Hp Ht Hne. exists (Join (conn_id c)).
  destruct w as [b o qs wk t fs ct ex jn]. world_cbn. subst wk. rewrite lookup_empty, Hp, Ht.
  destruct (jn !! conn_id c) as [q|] eqn:Hq; [|done].
  destruct (j_own _ _ _ Hj _ _ Hq) as (c' & Hc' & Hid & <- & _).
  assert (c' = c) as -> by (by eapply conn_id_inj). rewrite bool_decide_eq_true_2 by done. eauto.
Qed.

Lemma world_progress w : world_ok n conns w -> enabled w \/ quiescent conns w.
Proof.
  intros Hw. destruct (decide (waking w = ∅)) as [Hwk|]; [|left; by apply notify_enabled].
  destruct (forall_or_exists (fun c => lookup_list (pending (broker w)) (conn_id c) = []) conns)
    as [Hpen|(c & _ & ?)]; [|left; by eapply tx_enabled].
  destruct (forall_or_exists (fun c => lookup_list (todo w) (conn_id c) = []) conns)
    as [Htodo|(c & Hc & ?)]; [|left; eapply reader_enabled; [done|done| |done]; rewrite Forall_forall in Hpen; auto].
  destruct (forall_or_exists (fun cs => cs = []) (outbox w))
    as [Hout|(cs & [i Hi]%list_elem_of_lookup & Hne)]; [|left; by eapply outbox_enabled].
  pose proof (sys_len _ _ (reachable_ok n _ Hn (r_system _ _ _ _ (w_readers _ _ _ Hw)))) as Hl.
  pose proof (o_len _ _ _ _ (w_outbox _ _ _ Hw)) as Hlo. rewrite !Forall_forall in *.
  destruct (forall_or_exists (fun s => mail s = []) (shards (broker w)))
    as [Hmail|(s & [i Hi]%list_elem_of_lookup & ?)]; [rewrite Forall_forall in Hmail|left].
  2: { destruct (lookup_lt_is_Some_2 (outbox w) i) as [cs Hcs]; [apply lookup_lt_Some in Hi; unfold len in *; lia|].
       assert (cs = []) as -> by (apply Hout; by eapply list_elem_of_lookup_2). by eapply recv_enabled. }
  destruct (forall_or_exists (fun c => conn_queue c ∈ exited w \/
      from_option (fun qc => bool_decide (items (queue qc) = []) && (if consumer qc is Sleeping then true else false))
        false (queues w !! conn_queue c) = true) conns) as [Hwr|(c & Hc & Hne)].
  2: { left. destruct (proj2 (q_present _ _ _ _ (w_queues _ _ _ Hw) (conn_queue c))) as [qc Hqc]; [by exists c|].
       destruct (writer_enabled w (conn_queue c) qc Hw Hwk Hqc) as [|[Hs Hi]]; [naive_solver|done|].
       destruct Hne. right. rewrite Hqc. cbn. rewrite Hs, Hi. done. }
  destruct (forall_or_exists (fun c => conn_queue c ∉ exited w \/ joining w !! conn_id c = None) conns)
    as [Hjn|(c & Hc & Hne)].
  2: { left. apply (join_enabled w c); auto. apply dec_stable. intros ?. apply Hne. auto. }
  right. rewrite !Forall_forall in *. split; auto.
  - intros i s Hs. apply Hmail. by eapply list_elem_of_lookup_2.
  - intros i cs Hcs. apply Hout. by eapply list_elem_of_lookup_2.
  - intros c Hc Hin. destruct (Hwr c Hc) as [|Hq]; [done|].
    destruct (queues w !! conn_queue c) as [qc|]; [|done]. cbn in Hq. exists qc. split; [done|].
    apply andb_true_iff in Hq as [Hi%bool_decide_eq_true Hs]. by destruct (consumer qc).
  - intros c Hc Hin. by destruct (Hjn c Hc).
Qed.

(** Then no step is left but spurious wakeups. *)
Lemma quiescent_stops w l w' :
  world_ok n conns w -> quiescent conns w -> world_step l w = Some w' -> spurious l = true.
Proof.
  intros Hw [Hrd Hm Ho Hwk Hwr Hjn] Hstep. pose proof Hw as [Hr Hob Hq _ Hex Hj].
  destruct w as [b o qs wk t fs ct ex jn]. world_cbn. subst wk.
  destruct l as [id|id|i order|i|th|q l|q r|q|id]; world_cbn; rewrite ?lookup_empty in Hstep.
  - exfalso. destruct (lookup_list (pending b) id); [|done].
    destruct (lookup_list t id) as [|call cs] eqn:Ht; [done|].
    destruct (r_todo _ _ _ _ Hr id) as (c & Hc & <-); [by rewrite Ht|]. destruct (Hrd c Hc). congruence.
  - exfalso. cbn in Hstep. destruct (lookup_list (pending b) id) as [|[i m] rest] eqn:Hp; [done|].
    destruct (r_pending _ _ _ _ Hr id) as (c & Hc & <-); [by rewrite Hp|]. destruct (Hrd c Hc). congruence.
  - exfalso. destruct (o !! i) as [[|]|]; try done. destruct (shards b !! i) as [s|] eqn:Hs; [|done].
    by rewrite (Hm i s Hs) in Hstep.
  - exfalso. destruct (o !! i) as [cs|] eqn:Hi; [|done]. by rewrite (Ho i cs Hi) in Hstep.
  - done.
  - destruct (pop_label l) eqn:Hl; [|done]. destruct (on_queue l q qs) as [qs'|] eqn:Hqs; [|done].
    apply on_queue_inv in Hqs as (c & c' & Hc & He & _).
    destruct (proj1 (q_present _ _ _ _ Hq q)) as (cn & Hcn & <-); [by eexists|].
    assert (Hcons : consumer c = Sleeping \/ exists r, consumer c = Returned r).
    { destruct (decide (conn_queue cn ∈ ex)) as [Hin|Hin].
      - destruct (e_out _ _ _ Hex _ Hin) as (c0 & r & Hc0 & Hr0 & _). right. exists r. congruence.
      - destruct (Hwr cn Hcn Hin) as (c0 & Hc0 & Hs0 & _). left. congruence. }
    destruct c as [qu pc k m h]. cbn in Hcons. destruct Hcons as [->|[r ->]]; by destruct l.
  - exfalso. case_bool_decide as Hin; [done|]. destruct (qs !! q) as [c|] eqn:Hc; [|done]. cbn in Hstep.
    destruct (proj1 (q_present _ _ _ _ Hq q)) as (cn & Hcn & <-); [by eexists|].
    destruct (Hwr cn Hcn Hin) as (c0 & Hc0 & Hs0 & _). simplify_eq. by rewrite Hs0 in Hstep.
  - exfalso. case_bool_decide as Hin; [done|]. destruct (qs !! q) as [c|] eqn:Hc; [|done]. cbn in Hstep.
    destruct (proj1 (q_present _ _ _ _ Hq q)) as (cn & Hcn & <-); [by eexists|].
    destruct (Hwr cn Hcn Hin) as (c0 & Hc0 & Hs0 & _). simplify_eq. by rewrite Hs0 in Hstep.
  - exfalso. destruct (lookup_list (pending b) id); [|done]. destruct (lookup_list t id); [|done].
    destruct (jn !! id) as [q|] eqn:Hji; [|done]. case_bool_decide as Hin; [|done].
    destruct (j_own _ _ _ Hj id q Hji) as (c & Hc & <- & <- & _). rewrite (Hjn c Hc Hin) in Hji. done.
Qed.

(** ** Then *)

Lemma quiescent_writer w c :
  world_ok n conns w -> quiescent conns w -> c ∈ conns -> writer_end w (conn_queue c).
Proof.
  intros Hw Hquiet Hc. pose proof Hw as [_ _ Hq _ Hex _].
  destruct (decide (conn_queue c ∈ exited w)) as [Hin|Hin].
  - destruct (e_out _ _ _ Hex _ Hin) as (qc & r & Hqc & Hr & Hcut). destruct r as [e|].
    + destruct Hcut as (part & ? & ?). by eapply writer_failed.
    + eapply writer_left; [done..| |done]. eapply reachable_none_closed; [|done].
      by apply (q_reach _ _ _ _ _ (q_inv _ _ _ _ Hq _ _ Hqc)).
  - destruct (quiet_writers _ _ Hquiet c Hc Hin) as (qc & Hqc & Hs & Hi).
    eapply writer_sleeps; [done..|]. unfold backlog, hand. by rewrite Hs, Hi.
Qed.

(** All the calls of a reader have been made. *)
Lemma quiescent_made w c :
  world_ok n conns w -> quiescent conns w -> c ∈ conns -> made (todo w) c = conn_calls c.
Proof.
  intros [Hr _ _ _ _ _] Hquiet Hc. destruct (quiet_readers _ _ Hquiet c Hc) as [Ht _].
  rewrite (r_made _ _ _ _ Hr c Hc), Ht at 1. by rewrite app_nil_r.
Qed.

Lemma quiescent_connection w c :
  world_ok n conns w -> quiescent conns w -> c ∈ conns -> connection_end w c.
Proof.
  intros Hw Hquiet Hc. pose proof (quiescent_made w c Hw Hquiet Hc) as Hmade. pose proof Hw as [_ _ Hq _ Hex Hj].
  destruct (proj2 (q_present _ _ _ _ Hq (conn_queue c))) as [qc Hqc]; [by exists c|].
  destruct (q_inv _ _ _ _ Hq _ _ Hqc) as [Hr _ Hnot Hclo Hcl].
  assert (Hclosed : closed (queue qc) = true <-> conn_ends c = true).
  { rewrite Hcl, <- (conn_closes conns Hconns) by done. split.
    - intros (c' & Hc' & He & Hin). assert (c' = c) as -> by (by eapply conn_queue_inj). by rewrite <- Hmade.
    - intros Hin. exists c. by rewrite Hmade. }
  destruct (conn_ends c) eqn:Hends; [|eapply still_reading; [done..|by destruct (closed (queue qc)); naive_solver]].
  destruct (decide (conn_queue c ∈ exited w)) as [Hin|Hin].
  - apply has_returned; [done|by apply (quiet_joins _ _ Hquiet)|done].
  - destruct (quiet_writers _ _ Hquiet c Hc Hin) as (qc' & Hqc' & Hs & Hi). rewrite Hqc in Hqc'. simplify_eq.
    rewrite (quiet_waking _ _ Hquiet) in Hnot, Hclo. unfold waking_on in Hnot, Hclo. rewrite map_to_list_empty in Hnot, Hclo.
    eapply lost_wakeup; [done| |done|].
    + destruct (joining w !! conn_id c) as [q|] eqn:Hjc; [|by destruct Hin; apply (j_done _ _ _ Hj)].
      destruct (j_own _ _ _ Hj _ _ Hjc) as (c' & Hc' & Hid & <- & _).
      by assert (c' = c) as -> by (by eapply conn_id_inj).
    + split_and!; [by apply Hclosed|done|]. destruct qc' as [qu pc k m h]. cbn in *. subst. by intros [].
Qed.

(** And then every shard knows of a connection exactly what its reader has said. *)
Lemma quiescent_knows w c i s :
  world_ok n conns w -> quiescent conns w -> c ∈ conns -> shards (broker w) !! i = Some s ->
  let said := sends (conn_calls c) in
  clients (registry s) !! conn_id c = connected said (conn_id c) /\
  forall f, is_wildcard_filter f = true \/ Z.of_nat i = shard_for_topic f n ->
    subscriber (registry s) (conn_id c) f <-> subscribed said (conn_id c) f.
Proof.
  intros Hw Hquiet Hc Hs. cbn zeta. rewrite <- (quiescent_made w c Hw Hquiet Hc).
  pose proof Hw as [Hr _ _ _ _ _]. rewrite <- (r_program _ _ _ _ Hr c Hc).
  destruct (quiet_readers _ _ Hquiet c Hc) as [_ Hp].
  apply (quiescent_view n); [done|by eapply r_system|done|done|by eapply quiet_mail].
Qed.
(** ** The connection that hangs *)

(** A step makes at most one step on a queue. *)
Lemma world_step_queue l w w' q qc :
  world_step l w = Some w' -> queues w !! q = Some qc ->
  exists qc', queues w' !! q = Some qc' /\
    (qc' = qc \/ exists l', QueueConc.exec l' qc = Some qc' /\ (l' = Spurious -> spurious l = true)).
Proof.
  intros Hstep Hq. destruct w as [b o qs wk t fs ct ex jn]. cbn [queues] in Hq.
  assert (Hone : forall l' q' qs', on_queue l' q' qs = Some qs' -> (l' = Spurious -> spurious l = true) ->
    exists qc', qs' !! q = Some qc' /\
      (qc' = qc \/ exists l', QueueConc.exec l' qc = Some qc' /\ (l' = Spurious -> spurious l = true))).
  { intros l' q' qs' (c0 & c1 & Hc0 & He & ->)%on_queue_inv Hsp. rewrite lookup_insert.
    destruct (decide (q' = q)) as [->|]; [|eauto]. rewrite Hq in Hc0. injection Hc0 as <-. eauto 6. }
  destruct l as [id|id|i order|i|th|q0 l|q0 r|q0|id]; world_cbn; step_inv; world_cbn; eauto;
    eapply Hone; try done; try (by intros ->); by case_match.
Qed.

(** A writer leaves only out of [pop_blocking]. *)
Lemma world_step_exits l w w' q :
  world_step l w = Some w' -> q ∈ exited w' -> q ∈ exited w \/ exists qc r, queues w !! q = Some qc /\ consumer qc = Returned r.
Proof.
  intros Hstep. destruct w as [b o qs wk t fs ct ex jn].
  destruct l as [id|id|i order|i|th|q0 l|q0 r|q0|id]; world_cbn; step_inv; world_cbn; auto; set_solver.
Qed.

(** A join returns only when the writer has. *)
Lemma world_step_joins l w w' id q :
  world_step l w = Some w' -> joining w !! id = Some q -> q ∉ exited w -> joining w' !! id = Some q.
Proof.
  intros Hstep Hj Hin. destruct w as [b o qs wk t fs ct ex jn].
  destruct l as [id0|id0|i order|i|th|q0 l|q0 r|q0|id0]; world_cbn; step_inv; world_cbn; auto.
  rewrite lookup_delete_ne; [done|]. intros ->. simplify_eq. case_bool_decide; done.
Qed.

Lemma world_steps_log ls w w' q qc qc' :
  world_steps ls w = Some w' -> queues w !! q = Some qc -> queues w' !! q = Some qc' -> log qc `prefix_of` log qc'.
Proof.
  revert w qc. induction ls as [|l ls IH]; intros w qc Hs Hq Hq'; cbn in Hs.
  - injection Hs as <-. rewrite Hq in Hq'. by injection Hq' as <-.
  - destruct (world_step l w) as [w1|] eqn:Hstep; cbn in Hs; [|done].
    destruct (world_step_queue l w w1 _ qc Hstep Hq) as (qc1 & Hq1 & [->|(l' & He & _)]); [by eapply IH|].
    etrans; [by eapply exec_log|by eapply IH].
Qed.

(** While nobody uses the queue, its writer sleeps and the thread waits for it. *)
Lemma hangs ls w w' c qc qc' :
  Forall (fun l => spurious l = false) ls -> world_steps ls w = Some w' ->
  joining w !! conn_id c = Some (conn_queue c) -> conn_queue c ∉ exited w ->
  queues w !! conn_queue c = Some qc -> stuck qc ->
  queues w' !! conn_queue c = Some qc' -> log qc' = log qc ->
  joining w' !! conn_id c = Some (conn_queue c) /\ stuck qc'.
Proof.
  intros Hls. revert w qc. induction Hls as [|l ls Hl Hls IH]; intros w qc Hsteps Hj Hin Hq Hst Hq' Hlog; cbn in Hsteps.
  - injection Hsteps as <-. rewrite Hq in Hq'. by injection Hq' as <-.
  - destruct (world_step l w) as [w1|] eqn:Hstep; cbn in Hsteps; [|done].
    destruct (world_step_queue l w w1 _ qc Hstep Hq) as (qc1 & Hq1 & Hmove).
    pose proof (world_steps_log ls w1 w' _ qc1 qc' Hsteps Hq1 Hq') as Hpre.
    assert (qc1 = qc) as ->.
    { destruct Hmove as [->|(l' & He & Hsp)]; [done|]. exfalso.
      destruct (stuck_moves l' qc qc1 Hst He) as [->|Hne]; [by rewrite Hsp in Hl|].
      apply Hne. rewrite Hlog in Hpre. apply exec_log in He. by apply (anti_symm prefix). }
    apply (IH w1 qc); try done; [by eapply world_step_joins|].
    intros Hin1. destruct (world_step_exits l w w1 _ Hstep Hin1) as [|(qc2 & r & Hq2 & Hr)]; [done|].
    destruct Hst as (_ & Hs & _). congruence.
Qed.

(** The reader closes the queue after the writer has read the flag and before it waits. *)
Lemma close_races w c qc :
  world_ok n conns w -> c ∈ conns ->
  lookup_list (todo w) (conn_id c) = [CallClose (conn_queue c)] ->
  waking w !! inl (conn_id c) = None -> lookup_list (pending (broker w)) (conn_id c) = [] ->
  queues w !! conn_queue c = Some qc -> consumer qc = AtWait -> notifies qc = 0%nat -> closes qc = 0%nat ->
  exists w' qc', world_steps [Reader (conn_id c); Notify (inl (conn_id c)); Pop (conn_queue c) CondWait] w = Some w' /\
    queues w' !! conn_queue c = Some qc' /\ stuck qc' /\
    joining w' !! conn_id c = Some (conn_queue c) /\ (conn_queue c ∉ exited w') /\ lookup_list (todo w') (conn_id c) = [].
Proof.
  intros Hw Hc Ht Hwk Hp Hq Hpc Hnot Hclo. pose proof Hw as [Hr _ _ _ Hex Hj].
  assert (Hin : conn_queue c ∉ exited w).
  { intros Hin. destruct (e_out _ _ _ Hex _ Hin) as (qc0 & r & Hq0 & Hr0 & _). congruence. }
  assert (Hends : conn_ends c = true).
  { apply (conn_closes conns Hconns c Hc). rewrite (r_made _ _ _ _ Hr c Hc), Ht. set_solver. }
  assert (Hjoin : joining w !! conn_id c = Some (conn_queue c)).
  { destruct (joining w !! conn_id c) as [q|] eqn:Hjc; [|by destruct Hin; apply (j_done _ _ _ Hj)].
    destruct (j_own _ _ _ Hj _ _ Hjc) as (c' & Hc' & Hid & <- & _).
    by assert (c' = c) as -> by (by eapply conn_id_inj). }
  destruct w as [b o qs wk t fs ct ex jn]. world_cbn. destruct qc as [qu pc k m h]. cbn in Hpc, Hnot, Hclo. subst.
  eexists _, (mkConfig (close qu) Sleeping 0 0 (h ++ [DidClose])). split_and!.
  - cbn [world_steps world_step reader_step]. rewrite Hwk, Hp, Ht. unfold on_queue at 1. rewrite Hq.
    cbn [mbind option_bind QueueConc.exec world_step notify_step]. rewrite lookup_insert_eq. cbn [mbind option_bind].
    unfold on_queue at 1. rewrite lookup_insert_eq. cbn [mbind option_bind QueueConc.exec world_step pop_step pop_label wake].
    unfold on_queue at 1. rewrite lookup_insert_eq. cbn [mbind option_bind QueueConc.exec]. reflexivity.
  - cbn [queues]. by rewrite lookup_insert_eq.
  - split_and!; [done|done|]. by intros [].
  - done.
  - done.
  - cbn [todo]. by rewrite lookup_list_insert, decide_True.
Qed.
End system_live.
