(* ===== verification/SystemOrder.v ===== *)
(** * The order of a publisher's messages through the whole process

    Every interleaving of [System] keeps the order in which a connection publishes on a
    topic: what reaches a socket of them is a subsequence, with nothing twice.  A
    topic's messages pass through one shard, the channel of the shard keeps each
    sender's order, the outbound queue drops and never reorders, and the writer is
    sequential.  Messages with the RETAIN flag are left out: what arrives cannot be told
    from a replay. *)

From S2P Require Import Prelude Packets Topics Wire Codec CodecRoundtrip Queue QueueConc Broker BrokerSpec.
From S2P Require Import Sharded ShardedConc Connection ConnectionSpec System SystemSpec.

(** A PUBLISH that was not retained: it can only be a live delivery. *)
Definition live (e : OutboundEvent) : option PublishPacket :=
  match e with
  | Packet (Publish p) => if retain p then None else Some p
  | _ => None
  end.

(** The messages that a connection published on a topic, without the RETAIN flag. *)
Definition published_one (from : ConnectionId) (t : rstring) (msg : BrokerMessage) : option PublishPacket :=
  match msg with
  | MsgPublish id p => if bool_decide (id = from /\ topic p = t /\ retain p = false) then Some p else None
  | _ => None
  end.
Definition published (from : ConnectionId) (t : rstring) (h : list BrokerMessage) : list PublishPacket :=
  omap (published_one from t) h.

(** The same of deliveries, each with the connection it came from. *)
Definition delivered_one (from : ConnectionId) (t : rstring) (x : ConnectionId * OutboundEvent)
    : option PublishPacket :=
  p ← live (snd x);
  if bool_decide (fst x = from /\ topic p = t) then Some p else None.
Definition delivered (from : ConnectionId) (t : rstring) (l : list (ConnectionId * OutboundEvent))
    : list PublishPacket :=
  omap (delivered_one from t) l.

(** Those of an attributed list of messages that came from a connection, on a topic. *)
Definition from_on (from : ConnectionId) (t : rstring) (l : list (ConnectionId * PublishPacket)) : list PublishPacket :=
  omap (fun x => if bool_decide (fst x = from /\ topic (snd x) = t) then Some (snd x) else None) l.

(** The publisher of the message that a shard handled last: what is in its outbox is
    from it. *)
Definition last_publisher (h : list BrokerMessage) : ConnectionId :=
  match last h with Some (MsgPublish id _) => id | _ => 0 end.

(** The pushes of an outbox to a queue. *)
Definition waiting (q : QueueHandle) (h : list BrokerMessage) (cs : list push_call)
    : list (ConnectionId * OutboundEvent) :=
  map (fun c => (last_publisher h, snd c)) (filter (fun c => fst c = q) cs).

Lemma omap_sublist {A B} (f : A -> option B) l1 l2 :
  l1 `sublist_of` l2 -> omap f l1 `sublist_of` omap f l2.
Proof.
  induction 1 as [|x l1 l2 _ IH|x l1 l2 _ IH]; cbn; [constructor| |]; destruct (f x); try done.
  - by constructor.
  - by constructor.
Qed.

Lemma omap_length_le {A B} (f : A -> option B) l : (length (omap f l) <= length l)%nat.
Proof. induction l as [|x l IH]; cbn; [done|]. destruct (f x); cbn; lia. Qed.

Lemma delivered_app from t l1 l2 : delivered from t (l1 ++ l2) = delivered from t l1 ++ delivered from t l2.
Proof. apply omap_app. Qed.

Lemma delivered_cons from t x l : delivered from t (x :: l) = delivered from t [x] ++ delivered from t l.
Proof. by rewrite <- delivered_app. Qed.

Lemma published_app from t h1 h2 : published from t (h1 ++ h2) = published from t h1 ++ published from t h2.
Proof. apply omap_app. Qed.

(** Only the connection's own messages matter. *)
Lemma published_sent_by from t h : published from t (sent_by from h) = published from t h.
Proof.
  unfold published, sent_by. induction h as [|msg h IH]; [done|]. rewrite filter_cons. cbn [omap list_omap].
  destruct (decide (sender msg = from)); cbn [omap list_omap]; [by rewrite IH|].
  rewrite IH. destruct msg; try done. simpl in *. by rewrite bool_decide_eq_false_2 by naive_solver.
Qed.

Lemma delivered_None from t l :
  Forall (fun x => live (snd x) = None) l -> delivered from t l = [].
Proof.
  unfold delivered. induction 1 as [|x l Hx _ IH]; [done|]. cbn. unfold delivered_one at 1. by rewrite Hx.
Qed.

(** ** What a shard pushes for one message *)

Section order.
Context {hasher : TopicHasher} (n : Z) (conns : list connection).
Context (Hn : 1 <= n) (Hconns : connections_ok conns).

(** A live push comes from the PUBLISH that is handled. *)
Lemma delivers_live h msg out q e p :
  delivers h msg out -> (q, e) ∈ out -> live e = Some p -> exists from, msg = MsgPublish from p.
Proof.
  intros Hd Hin Hl. destruct msg as [id cid q'|id f|id f|from p0|id]; cbn in Hd.
  - subst. by apply not_elem_of_nil in Hin.
  - destruct (connected h id); [|subst; by apply not_elem_of_nil in Hin].
    destruct Hd as (ps & _ & _ & ->). apply list_elem_of_fmap in Hin as (p0 & ? & _). by simplify_eq/=.
  - subst. by apply not_elem_of_nil in Hin.
  - destruct Hd as (ids & _ & _ & ->). exists from. apply list_elem_of_omap in Hin as (id & _ & Hid).
    destruct (connected h id); simplify_eq/=. by destruct (retain p0); simplify_eq.
  - subst. by apply not_elem_of_nil in Hin.
Qed.

(** A queue belongs to one connection. *)
Lemma queue_owner t h id1 id2 cl1 cl2 :
  Forall (requested conns t) h -> connected h id1 = Some cl1 -> connected h id2 = Some cl2 ->
  outbound cl1 = outbound cl2 -> id1 = id2.
Proof.
  intros Hh H1 H2 Hq.
  destruct (connected_owner n conns Hn Hconns t h id1 cl1 Hh H1) as (c1 & Hc1 & <- & Hq1 & _).
  destruct (connected_owner n conns Hn Hconns t h id2 cl2 Hh H2) as (c2 & Hc2 & <- & Hq2 & _).
  by rewrite (conn_queue_inj conns Hconns c1 c2) by congruence.
Qed.

(** A PUBLISH is pushed to a queue once at most. *)
Lemma delivers_once t h from p out q :
  Forall (requested conns t) h -> delivers h (MsgPublish from p) out ->
  (length (filter (fun c => fst c = q) out) <= 1)%nat.
Proof.
  intros Hh (ids & Hnd & _ & ->). unfold push_to. induction Hnd as [|id ids Hid Hnd IH]; [simpl; lia|].
  cbn [omap list_omap]. destruct (connected h id) as [cl|] eqn:Hcl; cbn [mbind option_bind]; [|done].
  rewrite filter_cons. cbn [fst]. destruct (decide (outbound cl = q)) as [Hq|]; [|done].
  assert (Hnone : filter (fun c : push_call => fst c = q)
    (omap (fun id => c ← connected h id; Some (outbound c, Packet (Publish p))) ids) = []).
  { apply elem_of_nil_inv. intros [q' e] [Hq' (id' & Hin & Hc)%list_elem_of_omap]%list_elem_of_filter.
    destruct (connected h id') as [cl'|] eqn:Hcl'; simplify_eq/=.
    apply Hid. by rewrite (queue_owner t h id id' cl cl'). }
  rewrite Hnone. simpl. lia.
Qed.
(** ** The invariant *)

Record order_ok (w : world) : Prop := {
  o_live i cs s q e p : outbox w !! i = Some cs -> shards (broker w) !! i = Some s ->
    (q, e) ∈ cs -> live e = Some p ->
    shard_for_topic (topic p) n = Z.of_nat i /\ exists from, last (received s) = Some (MsgPublish from p);
  o_chain q : exists tw tq, lookup_list (written w) q = map event_wire (map snd tw) /\
    from_option backlog [] (queues w !! q) = map snd tq /\
    forall from t i cs s, outbox w !! i = Some cs -> shards (broker w) !! i = Some s ->
      shard_for_topic t n = Z.of_nat i ->
      delivered from t (tw ++ tq) ++ delivered from t (waiting q (received s) cs)
        `sublist_of` published from t (received s);
}.

(** What a step leaves alone: the frames, the queues' events but for drops, what the shards
    have handled and have to push. *)
Definition same_shards (b b' : system) : Prop :=
  forall i s', shards b' !! i = Some s' -> exists s, shards b !! i = Some s /\ received s = received s'.

Lemma order_keep w w' :
  order_ok w -> same_shards (broker w) (broker w') -> outbox w' = outbox w -> written w' = written w ->
  (forall q tq, from_option backlog [] (queues w !! q) = map snd tq -> exists tq',
     from_option backlog [] (queues w' !! q) = map snd tq' /\
     forall from t, delivered from t tq' `sublist_of` delivered from t tq) ->
  order_ok w'.
Proof.
  intros [Hlive Hchain] Hsh Ho Hw Hq. split.
  - intros i cs s q e p. rewrite Ho. intros Hcs (s0 & Hs & <-)%Hsh. by apply (Hlive i cs s0).
  - intros q. destruct (Hchain q) as (tw & tq & Htw & Htq & Hc). destruct (Hq q tq Htq) as (tq' & Htq' & Hsub).
    exists tw, tq'. rewrite Hw, Ho. split_and!; [done..|].
    intros from t i cs s Hcs (s0 & Hs & <-)%Hsh Ht. etrans; [|by apply (Hc from t i cs s0)].
    rewrite !delivered_app. apply sublist_app; [|done]. by apply sublist_app.
Qed.

Lemma same_shards_refl b : same_shards b b.
Proof. intros i s Hs. by exists s. Qed.

Lemma same_shards_begin msg b b' : exec (BeginSend msg) b = Some b' -> same_shards b b'.
Proof.
  cbn. destruct (lookup_list _ _); [|done]. intros ? i s. simplify_eq. cbn. eauto.
Qed.

Lemma same_shards_tx id b b' : exec (TxSend id) b = Some b' -> same_shards b b'.
Proof.
  cbn. destruct (lookup_list _ _) as [|[j msg] rest]; [done|]. intros ? i s. simplify_eq. cbn.
  rewrite list_lookup_alter. destruct (decide (j = i)) as [->|]; [|eauto].
  intros (s0 & Hs & ->)%fmap_Some. by exists s0.
Qed.
(** A push adds its event and may drop the oldest one that is queued. *)
Lemma push_tags (qs qs' : shared) q0 e (tag : ConnectionId) q (tq : list (ConnectionId * OutboundEvent)) :
  (forall c, qs !! q0 = Some c -> queue_ok (queue c)) -> on_queue (PushItem e) q0 qs = Some qs' ->
  from_option backlog [] (qs !! q) = map snd tq ->
  exists tq', from_option backlog [] (qs' !! q) = map snd tq' /\
    tq' `sublist_of` tq ++ (if decide (q0 = q) then [(tag, e)] else []).
Proof.
  intros Hok (c & c' & Hc & He & ->)%on_queue_inv Htq. rewrite lookup_insert.
  destruct (decide (q0 = q)) as [->|]; [|by exists tq; rewrite app_nil_r].
  rewrite Hc in Htq. cbn in *. rewrite (exec_backlog _ _ _ He). symmetry in Htq. unfold backlog in Htq.
  apply fmap_app_inv in Htq as (th & ti & Hth & Hti & ->).
  exists (th ++ last_n (capacity (queue c)) (ti ++ [(tag, e)])). rewrite push_items by auto. split.
  - rewrite map_app. f_equal; [done|]. unfold last_n.
    change (map snd) with (fmap (M:=list) (@snd ConnectionId OutboundEvent)).
    rewrite Hti, fmap_drop, fmap_app, !len_app. unfold len at 1 3. by rewrite length_fmap.
  - rewrite <- app_assoc. apply sublist_app; [done|]. apply sublist_drop.
Qed.

(** An event that is no live PUBLISH does not matter. *)
Lemma push_other (qs qs' : shared) q0 e q (tq : list (ConnectionId * OutboundEvent)) :
  (forall c, qs !! q0 = Some c -> queue_ok (queue c)) -> on_queue (PushItem e) q0 qs = Some qs' -> live e = None ->
  from_option backlog [] (qs !! q) = map snd tq ->
  exists tq', from_option backlog [] (qs' !! q) = map snd tq' /\
    forall from t, delivered from t tq' `sublist_of` delivered from t tq.
Proof.
  intros Hok Hqs Hl Htq. destruct (push_tags qs qs' q0 e 0 q tq Hok Hqs Htq) as (tq' & Htq' & Hsub).
  exists tq'. split; [done|]. intros from t. etrans; [by apply omap_sublist|]. rewrite omap_app.
  fold (delivered from t tq). rewrite <- (app_nil_r (delivered from t tq)) at 2. apply sublist_app; [done|].
  change (delivered from t (if decide (q0 = q) then [(0, e)] else []) `sublist_of` []).
  rewrite delivered_None; [done|]. destruct (decide (q0 = q)); [by apply list.Forall_singleton|constructor].
Qed.

(** The other steps of a queue and of its writer do not change what is behind. *)
Lemma other_tags (qs qs' : shared) l q0 q :
  on_queue l q0 qs = Some qs' -> match l with PushItem _ | CallAgain => False | _ => True end ->
  from_option backlog [] (qs' !! q) = from_option backlog [] (qs !! q).
Proof.
  intros (c & c' & Hc & He & ->)%on_queue_inv Hl. rewrite lookup_insert. destruct (decide (q0 = q)) as [->|]; [|done].
  rewrite Hc. cbn. rewrite (exec_backlog _ _ _ He). by destruct l.
Qed.

Lemma queue_step_order w w' l q0 :
  order_ok w -> broker w' = broker w -> outbox w' = outbox w -> written w' = written w ->
  on_queue l q0 (queues w) = Some (queues w') -> match l with PushItem _ | CallAgain => False | _ => True end -> order_ok w'.
Proof.
  intros Hord Hb Ho Hwr Hqs Hl. apply (order_keep _ _ Hord); [rewrite Hb; apply same_shards_refl|done|done|].
  intros q tq Htq. exists tq. by rewrite (other_tags _ _ _ _ q Hqs Hl).
Qed.

Lemma world_queue_ok w q c : world_ok n conns w -> queues w !! q = Some c -> queue_ok (queue c).
Proof.
  intros Hw Hc. pose proof (q_reach _ _ _ _ _ (q_inv _ _ _ _ (w_queues _ _ _ Hw) q c Hc)) as Hr.
  by destruct (reachable_queue_ok DEFAULT_CLIENT_QUEUE_CAPACITY c) as [? _].
Qed.

Lemma reader_step_order w w' id :
  world_ok n conns w -> order_ok w -> reader_step id w = Some w' -> order_ok w'.
Proof.
  intros Hw Hord Hstep. pose proof (w_readers _ _ _ Hw) as Hr. pose proof (fun q c => world_queue_ok w q c Hw) as Hok.
  destruct w as [b o qs wk t fs ct ex jn]. world_cbn. destruct (wk !! inl id); [done|].
  destruct (lookup_list (pending b) id); [|done]. destruct (lookup_list t id) as [|call cs] eqn:Ht; [done|].
  destruct (next_call n conns Hn Hconns b t id call cs Hr Ht) as (c & _ & _ & Hown & _).
  destruct call as [msg|q0 e|q0|wn].
  - destruct (exec (BeginSend msg) b) as [b'|] eqn:He; [|done]. cbn [mbind option_bind] in Hstep. simplify_eq.
    apply (order_keep _ _ Hord); [by eapply same_shards_begin|done|done|]. world_cbn. intros q tq Htq. by exists tq.
  - destruct (on_queue _ q0 qs) as [qs'|] eqn:Hqs; [|done]. cbn [mbind option_bind] in Hstep. simplify_eq.
    apply (order_keep _ _ Hord); [apply same_shards_refl|done|done|]. world_cbn. intros q tq Htq.
    eapply push_other; [|done| |done]; [eauto|]. destruct Hown as (_ & Ha & _). by destruct e as [[]].
  - destruct (on_queue _ q0 qs) as [qs'|] eqn:Hqs; [|done]. cbn [mbind option_bind] in Hstep. simplify_eq.
    by apply (queue_step_order _ _ SetClosed q0 Hord).
  - simplify_eq. apply (order_keep _ _ Hord); [apply same_shards_refl|done|done|]. world_cbn.
    intros q tq Htq. by exists tq.
Qed.

Lemma write_step_order w w' q0 r :
  world_ok n conns w -> order_ok w -> write_step q0 r w = Some w' -> order_ok w'.
Proof.
  intros Hw Hord Hstep. pose proof (w_queues _ _ _ Hw) as Hqs. destruct w as [b o qs wk t fs ct ex jn]. world_cbn.
  case_bool_decide; [done|]. destruct (qs !! q0) as [c|] eqn:Hc; cbn in Hstep; [|done].
  destruct (consumer c) as [| | | | | |[[packet]|]] eqn:Hcons; try done.
  pose proof (q_just _ _ _ _ _ (q_inv _ _ _ _ Hqs q0 c Hc)) as Hj. unfold backlog, hand in Hj. rewrite Hcons in Hj.
  apply Forall_cons in Hj as [[Hp Hpl]%(justified_frame _ Hconns) _]. rewrite encode_wire in Hstep by done.
  destruct r as [|k].
  - destruct (on_queue CallAgain q0 qs) as [qs'|] eqn:Hqs'; cbn in Hstep; [|done].
    apply on_queue_inv in Hqs' as (c0 & c' & Hc0 & He & ->). rewrite Hc in Hc0. injection Hc0 as <-. simplify_eq.
    destruct Hord as [Hlive Hchain]. split; [exact Hlive|]. intros q.
    destruct (Hchain q) as (tw & tq & Htw & Htq & Hch). world_cbn. rewrite lookup_list_insert, lookup_insert.
    destruct (decide (q0 = q)) as [->|]; [|by exists tw, tq].
    rewrite Hc in Htq. cbn in Htq. unfold backlog, hand in Htq. rewrite Hcons in Htq. cbn in Htq.
    destruct tq as [|[tag e] tq]; [done|]. cbn in Htq. injection Htq as <- Htq.
    exists (tw ++ [(tag, Packet packet)]), tq. split_and!.
    + by rewrite Htw, !map_app.
    + cbn. by rewrite (exec_backlog _ _ _ He).
    + by rewrite <- app_assoc.
  - simplify_eq. apply (order_keep _ _ Hord); [apply same_shards_refl|done|done|]. world_cbn. intros q tq Htq. by exists tq.
Qed.
(** A shard gets the messages of its topics. *)
Lemma known_to_shard w i s from p :
  world_ok n conns w -> shards (broker w) !! i = Some s -> MsgPublish from p ∈ received s ++ mail s ->
  shard_for_topic (topic p) n = Z.of_nat i.
Proof.
  intros Hw Hs Hm.
  pose proof (sys_fifo _ _ (reachable_ok n _ Hn (r_system _ _ _ _ (w_readers _ _ _ Hw))) i s from Hs) as Hf.
  assert (Hin : MsgPublish from p ∈ shard_history n i (lookup_list (program (broker w)) from)).
  { rewrite <- Hf. apply elem_of_app. left. by apply list_elem_of_filter. }
  apply list_elem_of_filter in Hin as [Hsh _]. unfold to_shard in Hsh. cbn in Hsh. lia.
Qed.

Lemma waiting_new td h msg out q from t :
  Forall (requested conns td) h -> delivers h msg out ->
  delivered from t (waiting q (h ++ [msg]) out) `sublist_of` published from t [msg].
Proof.
  intros Hh Hd.
  assert (Hlive : forall e p, (q, e) ∈ out -> live e = Some p -> exists id, msg = MsgPublish id p)
    by (intros e p; by apply (delivers_live h msg out q e p)).
  destruct (delivered from t (waiting q (h ++ [msg]) out)) as [|p0 rest] eqn:Hdel; [apply sublist_nil_l|].
  assert (Hlen : (length (p0 :: rest) <= length (filter (fun c => fst c = q) out))%nat).
  { rewrite <- Hdel. etrans; [apply omap_length_le|]. unfold waiting. by rewrite length_map. }
  assert (Hp0 : p0 ∈ delivered from t (waiting q (h ++ [msg]) out)) by (rewrite Hdel; left).
  apply list_elem_of_omap in Hp0 as ([tag e] & Hx & Hone).
  apply list_elem_of_fmap in Hx as ([q' e'] & ? & [Hq Hin]%list_elem_of_filter). simplify_eq/=.
  unfold delivered_one in Hone. cbn [fst snd] in Hone. destruct (live e') as [p|] eqn:Hl; cbn in Hone; [|done].
  case_bool_decide as Hc; [|done]. simplify_eq. destruct Hc as [Htag Ht].
  destruct (Hlive e' p0 Hin Hl) as [id ->].
  pose proof (delivers_once td h id p0 out q Hh Hd) as Honce. destruct rest; [|simpl in Hlen; lia].
  unfold last_publisher in Htag. rewrite last_snoc in Htag. subst id.
  assert (Hret : retain p0 = false).
  { destruct e' as [[]]; try done. cbn in Hl. by destruct (retain p) eqn:?; simplify_eq. }
  cbn. rewrite bool_decide_eq_true_2 by done. done.
Qed.

Lemma shard_recv_order w w' i order :
  world_ok n conns w -> order_ok w -> shard_recv i order w = Some w' -> order_ok w'.
Proof.
  intros Hw [Hlive Hchain] Hstep. pose proof (w_readers _ _ _ Hw) as Hr.
  pose proof (known_requested n conns Hn (broker w) (todo w) i) as Hknown.
  pose proof (sys_registry _ _ (reachable_ok n _ Hn (r_system _ _ _ _ Hr)) i) as Hreg.
  pose proof (known_to_shard w i) as Hto.
  destruct w as [b o qs wk td fs ct ex jn]. world_cbn. destruct (wk !! inr i); [done|].
  destruct (o !! i) as [[|]|] eqn:Ho; try done. destruct (shards b !! i) as [s|] eqn:Hs; [|done].
  destruct (mail s) as [|msg ms] eqn:Hm; [done|]. cbn in Hstep. rewrite Hs in Hstep. cbn in Hstep.
  rewrite Hm in Hstep. cbn in Hstep. simplify_eq.
  specialize (Hknown s Hr eq_refl). rewrite Hm in Hknown. apply Forall_app in Hknown as [Hknown _].
  destruct (Hreg s eq_refl) as [Hok Hrep].
  pose proof (handle_delivers (order := order) (received s) (registry s) msg Hok Hrep) as Hd.
  split; world_cbn; cbn [shards].
  - intros j cs s' q e p. rewrite !list_lookup_insert_Some.
    intros [(-> & <- & _)|[Hj Hcs]] [(? & <- & _)|[? Hs']] Hin Hl; try done; [|by apply (Hlive j cs s' q e p)].
    destruct (delivers_live _ _ _ _ _ _ Hd Hin Hl) as [from ->]. cbn [received]. split.
    + apply (Hto s from p Hw eq_refl). rewrite Hm. apply elem_of_app. right. left.
    + exists from. apply last_snoc.
  - intros q. destruct (Hchain q) as (tw & tq & Htw & Htq & Hc). exists tw, tq. split_and!; [done..|].
    intros from t' j cs s'. rewrite !list_lookup_insert_Some.
    intros [(-> & <- & _)|[Hj Hcs]] [(? & <- & _)|[? Hs']] Ht; try done; [|by apply (Hc from t' j cs s')].
    cbn [received]. rewrite published_app. apply sublist_app; [|by eapply waiting_new].
    specialize (Hc from t' j [] s Ho Hs Ht). cbn in Hc. by rewrite app_nil_r in Hc.
Qed.

Lemma shard_push_order w w' i :
  world_ok n conns w -> order_ok w -> shard_push i w = Some w' -> order_ok w'.
Proof.
  intros Hw [Hlive Hchain] Hstep. pose proof (fun q c => world_queue_ok w q c Hw) as Hqs.
  pose proof (o_len _ _ _ _ (w_outbox _ _ _ Hw)) as Hlen.
  pose proof (sys_len _ _ (reachable_ok n _ Hn (r_system _ _ _ _ (w_readers _ _ _ Hw)))) as Hsl.
  destruct w as [b o qs wk td fs ct ex jn]. world_cbn. destruct (wk !! inr i); [done|].
  destruct (o !! i) as [[|[q0 e] cs]|] eqn:Ho; try done.
  destruct (on_queue _ q0 qs) as [qs'|] eqn:Hpush; [|done]. cbn [mbind option_bind] in Hstep. simplify_eq.
  assert (exists s, shards b !! i = Some s) as [s Hs].
  { apply lookup_lt_is_Some. apply lookup_lt_Some in Ho. unfold len in *. lia. }
  split; world_cbn.
  - intros j cs' s' q e' p. rewrite list_lookup_insert_Some. intros [(-> & <- & _)|[Hj Hcs]] Hs' Hin.
    + eapply (Hlive j _ s' q e'); [done|done|by right].
    + by apply (Hlive j cs' s' q e' p).
  - intros q. destruct (Hchain q) as (tw & tq & Htw & Htq & Hc).
    destruct (push_tags qs qs' q0 e (last_publisher (received s)) q tq) as (tq' & Htq' & Hsub); [eauto|done|done|].
    exists tw, tq'. split_and!; [done..|]. intros from t' j cs' s' Hcs' Hs' Ht.
    assert (Hd : delivered from t' (tw ++ tq') `sublist_of` delivered from t' (tw ++ tq) ++
              delivered from t' (if decide (q0 = q) then [(last_publisher (received s), e)] else [])).
    { rewrite !delivered_app, <- app_assoc. apply sublist_app; [done|]. rewrite <- delivered_app. by apply omap_sublist. }
    apply list_lookup_insert_Some in Hcs' as [(-> & <- & _)|[Hj Hcs']].
    + assert (s' = s) as -> by congruence. etrans; [|by apply (Hc from t' j _ s Ho Hs Ht)].
      unfold waiting. rewrite filter_cons. cbn [fst]. destruct (decide (q0 = q)).
      * cbn [map snd]. rewrite delivered_cons, app_assoc. by apply sublist_app.
      * cbn in Hd. rewrite app_nil_r in Hd. by apply sublist_app.
    + etrans; [|by apply (Hc from t' j cs' s')]. apply sublist_app; [|done]. etrans; [exact Hd|].
      rewrite <- (app_nil_r (delivered from t' (tw ++ tq))) at 2. apply sublist_app; [done|].
      destruct (decide (q0 = q)) as [->|]; [|done]. cbn. unfold delivered_one. cbn [fst snd].
      destruct (live e) as [p|] eqn:Hl; cbn; [|done]. case_bool_decide as Hp; [|done]. destruct Hp as [_ <-].
      destruct (Hlive i _ s q e p Ho Hs ltac:(left) Hl) as [Hsh _]. lia.
Qed.

Lemma world_step_order l w w' :
  world_ok n conns w -> order_ok w -> world_step l w = Some w' -> order_ok w'.
Proof.
  destruct l as [id|id|i order|i|th|q l|q r|q|id]; cbn [world_step]; intros Hw Hord Hstep.
  - by eapply reader_step_order.
  - destruct w as [b o qs wk td fs ct ex jn]. cbn [reader_tx] in Hstep.
    destruct (exec (TxSend id) b) as [b'|] eqn:He; cbn [mbind option_bind] in Hstep; [|done]. simplify_eq.
    apply (order_keep _ _ Hord); [by eapply same_shards_tx|done|done|]. intros q tq Htq. by exists tq.
  - by eapply shard_recv_order.
  - by eapply shard_push_order.
  - destruct w as [b o qs wk td fs ct ex jn]. world_cbn. destruct (wk !! th) as [[q all]|]; cbn in Hstep; [|done].
    destruct (on_queue _ q qs) as [qs'|] eqn:Hqs; cbn in Hstep; [|done]. simplify_eq.
    eapply (queue_step_order _ _ (if all then NotifyAll else NotifyOne) q Hord); try done. by destruct all.
  - destruct w as [b o qs wk td fs ct ex jn]. world_cbn. destruct (pop_label l) eqn:Hl; [|done].
    destruct (on_queue l q qs) as [qs'|] eqn:Hqs; cbn in Hstep; [|done]. simplify_eq.
    apply (queue_step_order _ _ l q Hord); try done. by destruct l.
  - by eapply write_step_order.
  - destruct w as [b o qs wk td fs ct ex jn]. world_cbn. step_inv.
    apply (order_keep _ _ Hord); [apply same_shards_refl|done|done|]. intros q' tq Htq. by exists tq.
  - destruct w as [b o qs wk td fs ct ex jn]. world_cbn. step_inv.
    apply (order_keep _ _ Hord); [apply same_shards_refl|done|done|]. intros q' tq Htq. by exists tq.
Qed.

Lemma start_order : order_ok (start_world n conns).
Proof.
  split; cbn.
  - intros i cs s q e p [-> _]%lookup_replicate _ Hin. by apply not_elem_of_nil in Hin.
  - intros q. exists [], []. split_and!; [done| |].
    + destruct (_ !! q) as [qu|] eqn:Hqu; [|done].
      apply elem_of_list_to_map_2, list_elem_of_fmap in Hqu as (c & ? & _). by simplify_eq.
    + intros from t i cs s [-> _]%lookup_replicate _ _. apply sublist_nil_l.
Qed.

Lemma world_reachable_order w : world_reachable n conns w -> order_ok w.
Proof.
  induction 1 as [|l w w' Hr IH Hs]; [apply start_order|].
  eapply world_step_order; [by apply (world_reachable_ok n conns)|done|done].
Qed.

(** What a shard has handled of a connection's messages on a topic is part of what the
    connection said. *)
Lemma handled_said w i s c t :
  world_ok n conns w -> c ∈ conns -> shards (broker w) !! i = Some s ->
  published (conn_id c) t (received s) `sublist_of` published (conn_id c) t (sends (made (todo w) c)).
Proof.
  intros Hw Hc Hs. pose proof (w_readers _ _ _ Hw) as Hr. rewrite <- (r_program _ _ _ _ Hr c Hc).
  pose proof (sys_fifo _ _ (reachable_ok n _ Hn (r_system _ _ _ _ Hr)) i s (conn_id c) Hs) as Hf.
  rewrite sent_by_app, <- app_assoc in Hf. rewrite <- published_sent_by.
  etrans; [|apply omap_sublist, (sublist_filter (fun msg => to_shard n i msg = true))].
  fold (shard_history n i (lookup_list (program (broker w)) (conn_id c))). rewrite <- Hf.
  apply omap_sublist, sublist_inserts_r. done.
Qed.
Definition attributed (x : ConnectionId * OutboundEvent) : option (ConnectionId * PublishPacket) :=
  p ← live (snd x); Some (fst x, p).

Lemma from_on_attributed from t l : from_on from t (omap attributed l) = delivered from t l.
Proof.
  induction l as [|[tag e] l IH]; [done|]. cbn. unfold attributed at 1, delivered_one at 1. cbn [fst snd].
  destruct (live e) as [p|]; cbn; [|done]. unfold from_on in IH. rewrite IH. by case_bool_decide.
Qed.

Lemma attributed_live l : map snd (omap attributed l) = omap live (map snd l).
Proof.
  induction l as [|[tag e] l IH]; [done|]. cbn. unfold attributed at 1. cbn [fst snd].
  destruct (live e) as [p|]; cbn; by rewrite IH.
Qed.

(** Everything live in a socket and its queue, with where it came from. *)
Lemma live_in_order w q :
  world_reachable n conns w ->
  exists events lv, lookup_list (written w) q = map event_wire events /\
    map snd lv = omap live (events ++ from_option backlog [] (queues w !! q)) /\
    (forall from p, (from, p) ∈ lv -> exists c, c ∈ conns /\ conn_id c = from) /\
    forall c t, c ∈ conns ->
      from_on (conn_id c) t lv `sublist_of` published (conn_id c) t (sends (made (todo w) c)).
Proof.
  intros Hr. pose proof (world_reachable_ok n conns Hn Hconns w Hr) as Hw. pose proof (w_readers _ _ _ Hw) as Hrd.
  destruct (world_reachable_order w Hr) as [_ Hchain]. destruct (Hchain q) as (tw & tq & Htw & Htq & Hc).
  assert (Hdel : forall from t, exists i s, shards (broker w) !! i = Some s /\
    delivered from t (tw ++ tq) `sublist_of` published from t (received s)).
  { intros from t. pose proof (shard_for_topic_range t n Hn) as Hi.
    pose proof (o_len _ _ _ _ (w_outbox _ _ _ Hw)) as Hlen. pose proof (sys_len _ _ (reachable_ok n _ Hn (r_system _ _ _ _ Hrd))) as Hsl.
    destruct (lookup_lt_is_Some_2 (shards (broker w)) (Z.to_nat (shard_for_topic t n))) as [s Hs];
      [unfold len in *; lia|].
    destruct (lookup_lt_is_Some_2 (outbox w) (Z.to_nat (shard_for_topic t n))) as [cs Ho]; [unfold len in *; lia|].
    exists (Z.to_nat (shard_for_topic t n)), s. split; [done|].
    etrans; [|by apply (Hc from t _ cs s Ho Hs); lia]. by apply sublist_inserts_r. }
  exists (map snd tw), (omap attributed (tw ++ tq)). split_and!; [done| | |].
  - by rewrite Htq, <- map_app, attributed_live.
  - intros from p Hin. destruct (Hdel from (topic p)) as (i & s & Hs & Hsub).
    assert (Hp : p ∈ published from (topic p) (received s)).
    { eapply elem_of_sublist; [|exact Hsub]. rewrite <- from_on_attributed. apply list_elem_of_omap.
      exists (from, p). split; [done|]. cbn [fst snd]. by rewrite bool_decide_eq_true_2. }
    apply list_elem_of_omap in Hp as (msg & Hmsg & Hone). destruct msg as [| | |id p'|]; cbn in Hone; try done.
    case_bool_decide as Hd; [|done]. destruct Hd as (-> & _).
    pose proof (known_requested n conns Hn _ _ i s Hrd Hs) as Hk. apply Forall_app in Hk as [Hk _].
    rewrite Forall_forall in Hk. destruct (Hk _ Hmsg) as (c & Hcin & Hid & _). by exists c.
  - intros c t Hcin. rewrite from_on_attributed. destruct (Hdel (conn_id c) t) as (i & s & Hs & Hsub).
    etrans; [exact Hsub|]. by apply (handled_said w i s c t).
Qed.
End order.
