(* ===== verification/SystemRace.v ===== *)
(** * The replay of a retained message against the SUBACK (src/connection.rs, src/broker.rs, src/bin/blitzclient.rs)

    [dispatch_packet] sends a subscription to the broker before it queues the SUBACK.
    The shard that gets it may therefore queue the replay of a retained message first.
    Both orders, from any state of [System] in which a reader is about to do so, and what
    the client's [run_sub] makes of each. *)

From S2P Require Import Socket ClientFlows ClientFlowsSpec.
From S2P Require Import Prelude Packets Topics Wire Codec CodecRoundtrip Queue QueueConc Broker BrokerSpec.
From S2P Require Import Sharded ShardedConc Connection ConnectionSpec System SystemSpec.
From S2P Require Client ClientSpec.

(** ** The client *)

(** A PUBLISH where the SUBACK should be. *)
Lemma run_sub_overtaken process_id f p more ws :
  pid_ok process_id -> filter_ok f -> sendable p ->
  run_sub (Some (mkSocket (wire connack_packet ++ wire (Publish p) ++ more) (true :: true :: ws) [])) process_id f =
  Err (Client.ExpectedSuback 3).
Proof.
  intros Hp Hf [Hpub Hl]. unfold run_sub. rewrite connect_ok_socket by done. cbn [mbind outcome_bind app].
  pose proof Hf as ([_ Hlen] & _).
  rewrite ClientSpec.client_encode_subscribe by done. change (Subscribe _) with (subscribe_packet f).
  rewrite encode_decodable; cycle 1.
  { split_and!; [done|done|]. repeat constructor; try done; apply Hf. }
  { cbn. lia. }
  cbn [mbind outcome_bind write_all write_results incoming sent].
  destruct (publish_header p Hpub) as [Hh Ht]. rewrite receive_wire by done. cbn [mbind outcome_bind]. by rewrite Ht.
Qed.

(** ** The broker *)

Definition suback : OutboundEvent := Packet (SubAck (mkSubAck SUB_PACKET_ID [0])).
Definition replay_of (p : PublishPacket) : OutboundEvent := Packet (Publish (mark_retained p)).

(** What is on a socket and what is behind it for the writer. *)
Definition outgoing (w : world) (q : QueueHandle) : bytes :=
  socket_bytes w q ++ concat (map event_wire (from_option backlog [] (queues w !! q))).

Section race.
Context {hasher : TopicHasher} (n : Z) (conns : list connection).

(** A reader is about to serve a SUBSCRIBE to the topic [f], the shard [i] of the topic is
    idle, knows the connection and has a message [p] retained for the topic; nobody has the
    lock of the connection's queue, and there is room. *)
Record about_to_subscribe (w : world) (c : connection) (f : rstring) (p : PublishPacket) (i : nat) : Prop := {
  sub_exact : is_wildcard_filter f = false;
  sub_calls : exists rest, lookup_list (todo w) (conn_id c) =
    CallSend (MsgSubscribe (conn_id c) f) :: CallPush (conn_queue c) suback :: rest;
  sub_reader : waking w !! inl (conn_id c) = None /\ lookup_list (pending (broker w)) (conn_id c) = [];
  sub_shard : Z.of_nat i = shard_for_topic f n /\ waking w !! inr i = None /\ outbox w !! i = Some [];
  sub_known : exists s cl, shards (broker w) !! i = Some s /\ mail s = [] /\
    clients (registry s) !! conn_id c = Some cl /\ retained (registry s) !! f = Some p;
  sub_queue : exists qc, queues w !! conn_queue c = Some qc /\ locked qc = false /\ len (items (queue qc)) <= 126;
}.

(** The same steps in two orders: the shard pushes first, or the reader. *)
Definition replay_first (id : ConnectionId) (i : nat) (order : HashOrder) : list step :=
  [Reader id; ReaderTx id; ShardRecv i order; ShardPush i; Reader id].
Definition suback_first (id : ConnectionId) (i : nat) (order : HashOrder) : list step :=
  [Reader id; ReaderTx id; ShardRecv i order; Reader id; ShardPush i].

Context (Hn : 1 <= n) (Hconns : connections_ok conns).

(** A push with nobody in the way and room in the queue. *)
Lemma push_room (qs : shared) q qc e :
  qs !! q = Some qc -> locked qc = false -> queue_ok (queue qc) -> len (items (queue qc)) < capacity (queue qc) ->
  exists qc', on_queue (PushItem e) q qs = Some (<[q := qc']> qs) /\ locked qc' = false /\
    queue_ok (queue qc') /\ capacity (queue qc') = capacity (queue qc) /\
    items (queue qc') = items (queue qc) ++ [e] /\ backlog qc' = backlog qc ++ [e].
Proof.
  intros Hq Hl Hok Hroom. pose proof (push_ok (queue qc) e Hok) as Hok'.
  destruct qc as [qu pc k m h]. cbn [queue] in *. unfold push in Hok'.
  destruct (Z.leb_spec (capacity qu) (len (items qu))); [lia|]. cbn in Hok'.
  exists (mkConfig (mkQueue (items qu ++ [e]) (capacity qu) (closed qu)) pc (S k) m (h ++ [DidPush e false])).
  split_and!; try done.
  - unfold on_queue. rewrite Hq. cbn -[locked]. rewrite Hl. unfold push.
    destruct (Z.leb_spec (capacity qu) (len (items qu))); [lia|done].
  - unfold backlog. cbn. by rewrite app_assoc.
Qed.

(** What the broker knows is what the invariant says. *)
Lemma known_retained w c f p i :
  world_ok n conns w -> c ∈ conns -> about_to_subscribe w c f p i ->
  filter_ok f /\ sendable (mark_retained p) /\
  exists s cl, shards (broker w) !! i = Some s /\ mail s = [] /\
    clients (registry s) !! conn_id c = Some cl /\ outbound cl = conn_queue c /\ retained (registry s) !! f = Some p.
Proof.
  intros Hw Hc [_ (rest & Ht) _ _ (s & cl & Hs & Hm & Hcl & Hret) _]. pose proof (w_readers _ _ _ Hw) as Hr.
  destruct (next_call n conns Hn Hconns _ _ _ _ _ Hr Ht) as (c' & _ & _ & (_ & _ & Hf) & _).
  pose proof (known_requested n conns Hn _ _ i s Hr Hs) as Hk. apply Forall_app in Hk as [Hk _].
  destruct (sys_registry _ _ (reachable_ok n _ Hn (r_system _ _ _ _ Hr)) i s Hs) as [_ [Hrc _ Hrr]].
  split_and!; [done| |exists s, cl; split_and!; try done].
  - rewrite Hrr in Hret. apply retained_was_published in Hret as (from & Hin & _).
    rewrite Forall_forall in Hk. destruct (Hk _ Hin) as (pub & Hpub & _ & Hcall).
    by apply (made_own conns Hconns) in Hcall as (_ & _ & ?).
  - rewrite Hrc in Hcl. destruct (connected_owner n conns Hn Hconns _ _ _ _ Hk Hcl) as (c0 & Hc0 & Hid & <- & _).
    by rewrite (conn_id_inj conns Hconns c0 c).
Qed.

(** The three steps that the two orders share. *)
Lemma subscription_arrives w c f p i order :
  world_ok n conns w -> c ∈ conns -> about_to_subscribe w c f p i ->
  exists w', world_steps [Reader (conn_id c); ReaderTx (conn_id c); ShardRecv i order] w = Some w' /\
    queues w' = queues w /\ waking w' = waking w /\ written w' = written w /\ cut w' = cut w /\
    lookup_list (pending (broker w')) (conn_id c) = [] /\
    outbox w' !! i = Some [(conn_queue c, replay_of p)] /\
    exists rest, lookup_list (todo w') (conn_id c) = CallPush (conn_queue c) suback :: rest.
Proof.
  intros Hw Hc Hsub. destruct (known_retained w c f p i Hw Hc Hsub) as (_ & _ & s & cl & Hs & Hm & Hcl & Hout & Hret).
  destruct Hsub as [Hexact (rest & Ht) [Hwr Hp] (Hi & Hws & Ho) _ _].
  pose proof (sys_len _ _ (reachable_ok n _ Hn (r_system _ _ _ _ (w_readers _ _ _ Hw)))) as Hlen.
  assert (Htg : targets n (MsgSubscribe (conn_id c) f) = [i]).
  { unfold targets. cbn. rewrite Hexact, <- Hi. by rewrite Nat2Z.id. }
  destruct w as [b o qs wk t fs ct ex jn]. world_cbn. destruct b as [sh pr pd]. cbn [shards pending program] in *.
  eexists. split; [|split_and!].
  - cbn [world_steps world_step reader_step pending]. rewrite Hwr, Hp, Ht. cbn [exec sender pending shards program].
    rewrite Hp, Hlen, Htg. cbn [map mbind option_bind reader_tx]. cbn [exec pending shards program].
    rewrite lookup_list_insert, decide_True by done. cbn [mbind option_bind world_step shard_recv].
    rewrite Hws, Ho. cbn [shards]. rewrite list_lookup_alter_eq, Hs. cbn [fmap option_fmap option_map post mail].
    rewrite Hm. cbn [app exec]. cbn [shards]. rewrite list_lookup_alter_eq, Hs.
    cbn [fmap option_fmap option_map mbind option_bind post mail received registry]. rewrite Hm. cbn [app mbind option_bind].
    reflexivity.
  - done.
  - done.
  - done.
  - done.
  - cbn. by rewrite lookup_list_insert, decide_True.
  - cbn. rewrite list_lookup_insert_eq by (by eapply lookup_lt_Some). unfold handle_subscribe. rewrite Hcl. cbn [snd].
    unfold replay. by rewrite Hexact, Hret, Hout.
  - exists rest. cbn. by rewrite lookup_list_insert, decide_True.
Qed.

Lemma world_steps_app ls1 ls2 w w' :
  world_steps ls1 w = Some w' -> world_steps (ls1 ++ ls2) w = world_steps ls2 w'.
Proof.
  revert w. induction ls1 as [|l ls1 IH]; intros w Hw; cbn in *; [by simplify_eq|].
  destruct (world_step l w); cbn in *; [by apply IH|done].
Qed.

(** Two pushes with room for both. *)
Lemma two_pushes (qs : shared) q qc e1 e2 :
  QueueConc.reachable DEFAULT_CLIENT_QUEUE_CAPACITY qc -> qs !! q = Some qc -> locked qc = false ->
  len (items (queue qc)) <= 126 ->
  exists qs1 qs2 qc2, on_queue (PushItem e1) q qs = Some qs1 /\ on_queue (PushItem e2) q qs1 = Some qs2 /\
    qs2 !! q = Some qc2 /\ backlog qc2 = backlog qc ++ [e1; e2].
Proof.
  intros Hr Hq Hl Hroom. destruct (reachable_queue_ok DEFAULT_CLIENT_QUEUE_CAPACITY qc) as [Hok Hcap]; [done|done|].
  change DEFAULT_CLIENT_QUEUE_CAPACITY with 128 in Hcap.
  destruct (push_room qs q qc e1) as (qc1 & H1 & Hl1 & Hok1 & Hc1 & Hi1 & Hb1); [done..|lia|].
  destruct (push_room (<[q := qc1]> qs) q qc1 e2) as (qc2 & H2 & _ & _ & _ & _ & Hb2);
    [by rewrite lookup_insert_eq|done|done| |].
  { rewrite Hc1, Hi1. autorewrite with len. lia. }
  eexists _, _, qc2. split_and!; [done|done|by rewrite lookup_insert_eq|]. by rewrite Hb2, Hb1, <- app_assoc.
Qed.

Lemma outgoing_more w w' q qc qc' es :
  queues w !! q = Some qc -> queues w' !! q = Some qc' -> written w' = written w -> cut w' = cut w ->
  backlog qc' = backlog qc ++ es -> outgoing w' q = outgoing w q ++ concat (map event_wire es).
Proof.
  intros Hq Hq' Hf Hc Hb. unfold outgoing, socket_bytes. rewrite Hq, Hq', Hf, Hc. cbn [from_option].
  by rewrite Hb, map_app, concat_app, !app_assoc.
Qed.

(** The two orders, up to the frames. *)
Lemma both_orders w c f p i order :
  world_ok n conns w -> c ∈ conns -> about_to_subscribe w c f p i ->
  exists w1 w2, world_steps (replay_first (conn_id c) i order) w = Some w1 /\
    world_steps (suback_first (conn_id c) i order) w = Some w2 /\
    outgoing w1 (conn_queue c) = outgoing w (conn_queue c) ++ event_wire (replay_of p) ++ event_wire suback /\
    outgoing w2 (conn_queue c) = outgoing w (conn_queue c) ++ event_wire suback ++ event_wire (replay_of p).
Proof.
  intros Hw Hc Hsub. pose proof Hsub as [_ _ [Hwr _] (_ & Hws & _) _ (qc & Hqc & Hl & Hroom)].
  destruct (subscription_arrives w c f p i order Hw Hc Hsub)
    as (w3 & Hw3 & Hqs & Hwk & Hfs & Hct & Hp & Ho & rest & Ht).
  pose proof (q_reach _ _ _ _ _ (q_inv _ _ _ _ (w_queues _ _ _ Hw) _ qc Hqc)) as Hr.
  destruct (two_pushes (queues w) _ qc (replay_of p) suback Hr Hqc Hl Hroom) as (qs1 & qs2 & qc2 & H1 & H2 & Hq2 & Hb2).
  destruct (two_pushes (queues w) _ qc suback (replay_of p) Hr Hqc Hl Hroom) as (qs3 & qs4 & qc4 & H3 & H4 & Hq4 & Hb4).
  pose proof (fun w' => outgoing_more w w' _ qc qc2 [replay_of p; suback] Hqc) as Hout2.
  pose proof (fun w' => outgoing_more w w' _ qc qc4 [suback; replay_of p] Hqc) as Hout4.
  rewrite <- Hqs in H1, H3. destruct w3 as [b3 o3 q3 wk3 t3 fs3 ct3 ex3 jn3]. world_cbn. subst wk3.
  eexists _, _. split_and!.
  - etrans; [apply (world_steps_app _ [ShardPush i; Reader (conn_id c)] _ _ Hw3)|].
    cbn [world_steps world_step shard_push]. rewrite Hws, Ho, H1. cbn [mbind option_bind world_step reader_step].
    rewrite lookup_insert_ne, Hwr, Hp, Ht by done. rewrite H2. reflexivity.
  - etrans; [apply (world_steps_app _ [Reader (conn_id c); ShardPush i] _ _ Hw3)|].
    cbn [world_steps world_step reader_step]. rewrite Hwr, Hp, Ht, H3. cbn [mbind option_bind world_step shard_push].
    rewrite lookup_insert_ne, Hws, Ho by done. rewrite H4. reflexivity.
  - erewrite Hout2 by done. cbn. by rewrite app_nil_r.
  - erewrite Hout4 by done. cbn. by rewrite app_nil_r.
Qed.
End race.
