(* ===== verification/Process.v ===== *)
(** * From the command line to the running process (src/main.rs, src/connection.rs)

    [main] accepts streams and starts a thread for each; the threads run in any order,
    and [handle_connection] takes its id from the shared counter when its thread gets
    there, and makes its queue.  The connections of every run are those that [System]
    starts from. *)

From S2P Require Import Prelude Queue Broker BrokerSpec Sharded ShardedConc Connection ConnectionSpec System SystemSpec.
From S2P Require Main.

(** The streams that [main] has started threads for. *)
Definition accepted_streams (events : list Main.main_event) : list Z :=
  omap (fun e => match e with Main.HandleConnection s => Some s | _ => None end) events.

(** The threads in the order in which they reach [handle_connection]: the id from the
    counter, a queue of its own at the next location, what its socket gives to read;
    nothing when the socket cannot be cloned. *)
Fixpoint open_connections (counter : Z) (fresh : QueueHandle) (clone_ok : Z -> bool) (reads : Z -> list read_result)
    (streams : list Z) : list connection :=
  match streams with
  | [] => []
  | s :: streams' =>
      let '(id, counter') := next_connection_id counter in
      if clone_ok s then
        mkConnection id fresh (reads s) :: open_connections counter' (fresh + 1) clone_ok reads streams'
      else open_connections counter' fresh clone_ok reads streams'
  end.

Lemma open_connections_fresh counter fresh clone_ok reads streams :
  0 <= counter -> counter + len streams < 2 ^ 64 ->
  Forall (fun c => counter <= conn_id c < counter + len streams /\ fresh <= conn_queue c)
    (open_connections counter fresh clone_ok reads streams) /\
  NoDup (map conn_id (open_connections counter fresh clone_ok reads streams)) /\
  NoDup (map conn_queue (open_connections counter fresh clone_ok reads streams)).
Proof.
  revert counter fresh. induction streams as [|s streams IH]; intros counter fresh Hc Hl; [by repeat constructor|].
  cbn [open_connections]. unfold next_connection_id. rewrite len_cons in *. pose proof (len_nonneg streams).
  rewrite Z.mod_small by lia.
  set (fresh' := if clone_ok s then fresh + 1 else fresh).
  destruct (IH (counter + 1) fresh') as (Hall & Hids & Hqs); [lia|lia|]. unfold fresh' in *.
  destruct (clone_ok s); cbn [map].
  - assert (Hall' : Forall (fun c => counter < conn_id c < counter + (1 + len streams) /\ fresh < conn_queue c)
      (open_connections (counter + 1) (fresh + 1) clone_ok reads streams))
      by (eapply Forall_impl; [exact Hall|]; cbn; lia).
    rewrite Forall_forall in Hall'. split_and!.
    + apply Forall_cons. split; [cbn; lia|]. apply Forall_forall. intros c Hin. apply Hall' in Hin. lia.
    + apply NoDup_cons. split; [|done]. intros (c & Hid & Hin)%list_elem_of_fmap. apply Hall' in Hin. cbn in Hid. lia.
    + apply NoDup_cons. split; [|done]. intros (c & Hid & Hin)%list_elem_of_fmap. apply Hall' in Hin. cbn in Hid. lia.
  - split_and!; [|done|done]. eapply Forall_impl; [exact Hall|]. cbn. lia.
Qed.

Lemma open_connections_reads counter fresh clone_ok reads streams c :
  c ∈ open_connections counter fresh clone_ok reads streams -> exists s, s ∈ streams /\ conn_reads c = reads s.
Proof.
  revert counter fresh. induction streams as [|s streams IH]; intros counter fresh; cbn [open_connections];
    [by intros ?%not_elem_of_nil|].
  destruct (next_connection_id counter) as [id counter']. destruct (clone_ok s).
  - intros [->|Hin]%elem_of_cons; [exists s; split; [left|done]|].
    destruct (IH _ _ Hin) as (s' & ? & ?). exists s'. split; [by right|done].
  - intros Hin. destruct (IH _ _ Hin) as (s' & ? & ?). exists s'. split; [by right|done].
Qed.

(** Every accepted stream whose socket can be cloned is there. *)
Lemma open_connections_all counter fresh clone_ok reads streams :
  map conn_reads (open_connections counter fresh clone_ok reads streams) =
  map reads (filter (fun s => clone_ok s = true) streams).
Proof.
  revert counter fresh. induction streams as [|s streams IH]; intros counter fresh; [done|].
  cbn [open_connections]. destruct (next_connection_id counter) as [id counter']. rewrite filter_cons.
  destruct (clone_ok s); cbn; by rewrite IH.
Qed.

(** The connection of a thread is the one that [handle_connection] makes: its id is the
    counter's, its queue the new one, its calls those of the reader, and the thread is back
    only if the reader and the writer are. *)
Lemma handle_connection_opens counter m fresh rs pops writes :
  let c := mkConnection counter fresh rs in
  bytes_ok (read_bytes rs) -> len (read_bytes rs) <= isize_max ->
  exists st wcalls outs, handle_connection counter m fresh true rs pops writes =
      (snd (next_connection_id counter),
       Ok (<[conn_queue c := new DEFAULT_CLIENT_QUEUE_CAPACITY]> m, st, conn_calls c ++ wcalls, outs)) /\
    (st = Finished \/ st = InJoin <-> conn_ends c = true) /\
    (st = Finished -> exists o w, writer_thread pops writes = (WriterExited, o, w)).
Proof.
  intros c Hb Hl. subst c. unfold conn_calls, conn_ends, handle_connection, next_connection_id. cbn [conn_id conn_queue conn_reads].
  destruct (reader_loop_ok counter fresh rs []) as ([st calls] & -> & _); [done|done|].
  destruct (writer_thread pops writes) as [[ws outs] wcalls] eqn:Hw. cbn.
  exists (match st, ws with Reading buf, _ => InReader buf | ReaderExited, Writing => InJoin
          | ReaderExited, WriterExited => Finished end), wcalls, outs.
  split; [done|]. destruct st as [buf|], ws; naive_solver.
Qed.

(** The connections of every run are as [System] assumes. *)
Lemma open_connections_ok fresh clone_ok reads streams :
  len streams < 2 ^ 64 - 1 ->
  (forall s, s ∈ streams -> bytes_ok (read_bytes (reads s)) /\ len (read_bytes (reads s)) <= isize_max) ->
  connections_ok (open_connections NEXT_CONNECTION_ID fresh clone_ok reads streams).
Proof.
  intros Hl Hr. destruct (open_connections_fresh NEXT_CONNECTION_ID fresh clone_ok reads streams) as (_ & Hids & Hqs);
    [done|unfold NEXT_CONNECTION_ID; lia|].
  split; [done|done|..]; intros c (s & Hs & ->)%open_connections_reads; by apply Hr.
Qed.

(** A run of [main] that got as far as listening. *)
Lemma main_listens sender_size args incoming events :
  len args <= isize_max -> Main.main sender_size args true incoming = Ok events ->
  let n := Main.num_shards (fst (Main.args_spec (tail args) Main.default_config)) in
  1 <= n /\ n * sender_size <= isize_max /\ accepted_streams events = omap (fun s => s) incoming.
Proof.
  intros Hl Hm. unfold Main.main in Hm. rewrite Main.parse_args_eq in Hm by done.
  pose proof (Main.args_spec_ok (tail args) Main.default_config Main.default_config_ok) as Hc.
  destruct (Main.args_spec (tail args) Main.default_config) as [cfg warns]. destruct Hc as [_ Hn].
  cbn [fst mbind outcome_bind] in *. unfold spawn_sharded_broker in Hm.
  destruct (Z.leb_spec 1 (Main.num_shards cfg)); [|lia]. cbn [negb] in Hm.
  destruct (Z.ltb_spec isize_max (Main.num_shards cfg * sender_size)); [done|].
  cbn in Hm. simplify_eq. split_and!; [lia|lia|].
  unfold accepted_streams. rewrite !omap_app.
  assert (Hw : omap (fun e => match e with Main.HandleConnection s => Some s | _ => None end)
    (map Main.ArgWarning warns) = []) by (by induction warns).
  rewrite Hw. cbn. clear. induction incoming as [|[s|] l IH]; cbn; [done|by rewrite IH|done].
Qed.
