(* ===== verification/ProtocolProps.v ===== *)
(** * Properties of the packet codec (src/protocol.rs)

    What the codec promises to the rest of the broker, each with a concrete instance:
    it returns on every input, it reads back what it writes, it is insensitive to how
    the bytes arrive, and its topic functions decide the relations of the standard. *)

From S2P Require Import Prelude Utf8 Errors Packets RemainingLength Topics.
From S2P Require Import Wire Codec CodecSafety CodecRoundtrip.

(** A PUBLISH at QoS 1 with the RETAIN flag, and its bytes. *)
Definition sample_publish : PublishPacket := mkPublish (str "a/b") [104; 105] 1 true (Some 7).
Definition sample_bytes : bytes := [51; 9; 0; 3; 97; 47; 98; 0; 7; 104; 105].

Lemma sample_publish_ok : publish_ok sample_publish.
Proof.
  split_and!; try done; try (vm_compute; split; congruence).
  repeat constructor.
Qed.

Lemma sample_bytes_ok : bytes_ok sample_bytes.
Proof. repeat constructor. Qed.

(** C1: whatever bytes a client sends, [decode] returns: it neither panics (no index,
    slice or sum out of range) nor loops.  When it accepts, the packet is one a client
    may send, well-formed in every field, and the number of bytes consumed is between 2
    and the length of the buffer, so that draining them is safe and makes progress. *)
Theorem decode_total buf :
  bytes_ok buf -> len buf <= isize_max ->
  (exists p n, decode buf = Ok (p, n) /\ decodable p /\ 2 <= n <= len buf) \/
  (exists e, decode buf = Err e).
Proof.
  intros Hb Hl. pose proof (decode_wp buf Hb Hl) as Hw.
  destruct (decode buf) as [[p n]|e| |]; try done; [left|right; eauto].
  destruct Hw as (? & _ & ?). eauto.
Qed.

Lemma decode_total_witness :
  (exists p n, decode sample_bytes = Ok (p, n) /\ decodable p /\ 2 <= n <= len sample_bytes) \/
  (exists e, decode sample_bytes = Err e).
Proof. apply decode_total; [exact sample_bytes_ok|by vm_compute]. Defined.

(** C7: which bytes [decode] accepts, for which packet: those that start with a frame, and
    it consumes the frame.  A frame is a first byte, any encoding of the body's length in
    at most four bytes, and a body of the standard's format; what [decode] does not look at
    is the DUP flag, the flags of the first byte but for PUBLISH and PUBACK, and four of the
    connect flags. *)
Theorem decode_accepts_exactly buf p n :
  bytes_ok buf -> len buf <= isize_max ->
  decode buf = Ok (p, n) <-> exists fr rest, buf = fr ++ rest /\ frame fr p /\ n = len fr.
Proof.
  intros Hb Hl. split.
  - intros Hd. exact (wp_ok _ _ _ _ (decode_frame_wp buf Hb Hl) Hd).
  - intros (fr & rest & -> & Hf & ->). by apply decode_of_frame.
Qed.

(** A PUBLISH with the DUP flag and a length in two bytes, and bytes behind it. *)
Definition loose_bytes : bytes := [59; 137; 0; 0; 3; 97; 47; 98; 0; 7; 104; 105; 192].

Lemma decode_accepts_exactly_witness :
  decode loose_bytes = Ok (Publish sample_publish, 12) <->
  exists fr rest, loose_bytes = fr ++ rest /\ frame fr (Publish sample_publish) /\ 12 = len fr.
Proof. apply decode_accepts_exactly; [repeat constructor|by vm_compute]. Defined.

Example decode_loose : decode loose_bytes = Ok (Publish sample_publish, 12).
Proof. reflexivity. Qed.

(** C22: when [decode] asks for more and when it gives up on the header.  [Incomplete] is for
    the proper beginnings of a frame, and nothing else; [InvalidRemainingLength] for a
    length that does not end within four bytes. *)
Theorem decode_waits_exactly buf :
  bytes_ok buf -> len buf <= isize_max ->
  (decode buf = Err Incomplete <-> unfinished buf) /\
  (decode buf = Err InvalidRemainingLength <-> endless buf).
Proof.
  intros Hb Hl. pose proof (decode_frame_wp buf Hb Hl) as Hw. split; split.
  - intros Hd. rewrite Hd in Hw. by destruct Hw as [[_ ?]|[[? _]|[]]].
  - intros Hu. by apply decode_unfinished.
  - intros Hd. rewrite Hd in Hw. by destruct Hw as [[? _]|[[_ ?]|[]]].
  - intros He. by apply decode_endless.
Qed.

Lemma decode_waits_exactly_witness :
  (decode [59; 137; 0; 0; 3; 97] = Err Incomplete <-> unfinished [59; 137; 0; 0; 3; 97]) /\
  (decode [59; 137; 0; 0; 3; 97] = Err InvalidRemainingLength <-> endless [59; 137; 0; 0; 3; 97]).
Proof. apply decode_waits_exactly; [repeat constructor|by vm_compute]. Defined.

(** C6: every packet a client may send is encoded, and [decode] reads it back from the
    front of any buffer that starts with its bytes, consuming exactly those. *)
Theorem encode_decode_roundtrip p :
  decodable p -> remaining_length p <= 268435455 ->
  exists bs, encode (E:=ProtocolError) p = Ok bs /\ forall rest, decode (bs ++ rest) = Ok (p, len bs).
Proof.
  intros Hp Hl. exists (wire p). split; [by apply encode_decodable|]. intros rest. by apply decode_wire.
Qed.

Lemma encode_decode_roundtrip_witness :
  exists bs, encode (E:=ProtocolError) (Publish sample_publish) = Ok bs /\
    forall rest, decode (bs ++ rest) = Ok (Publish sample_publish, len bs).
Proof. apply encode_decode_roundtrip; [exact sample_publish_ok|by vm_compute]. Defined.

(** An answer of [decode] other than [Incomplete] does not depend on the bytes that
    arrive later: a packet is never cut short and an error never comes too early. *)
Theorem decode_stable buf more :
  bytes_ok buf -> len buf + len more <= isize_max ->
  decode buf <> Err Incomplete -> decode (buf ++ more) = decode buf.
Proof. intros Hb Hl Hd. by destruct (decode_app buf more Hl Hb). Qed.

Lemma decode_stable_witness : decode (sample_bytes ++ [192]) = decode sample_bytes.
Proof. apply decode_stable; [exact sample_bytes_ok|by vm_compute|by vm_compute]. Defined.

(** A packet that was decoded, in whatever encoding of its length, can be encoded
    again and decodes to itself: a PUBLISH that the broker forwards is the PUBLISH it
    received. *)
Theorem decoded_reencodes buf p n :
  bytes_ok buf -> len buf <= isize_max -> decode buf = Ok (p, n) ->
  encode (E:=ProtocolError) p = Ok (wire p) /\ decode (wire p) = Ok (p, len (wire p)).
Proof.
  intros Hb Hl Hd. pose proof (decode_wp buf Hb Hl) as Hw. rewrite Hd in Hw. destruct Hw as (Hp & Hr & _).
  split; [by apply encode_decodable|]. rewrite <- (app_nil_r (wire p)) at 1. by apply decode_wire.
Qed.

Lemma decoded_reencodes_witness :
  encode (E:=ProtocolError) (Publish sample_publish) = Ok (wire (Publish sample_publish)) /\
  decode (wire (Publish sample_publish)) = Ok (Publish sample_publish, len (wire (Publish sample_publish))).
Proof. apply (decoded_reencodes sample_bytes _ 11); [exact sample_bytes_ok|by vm_compute|reflexivity]. Defined.

(** [encode] writes the MQTT 3.1.1 layout of every packet whose strings fit their
    two-byte length prefix, server packets included: the fixed header, the shortest
    Remaining Length, and a body of exactly that length. *)
Theorem encode_is_wire p :
  encodable p -> remaining_length p <= u32_max ->
  encode (E:=ProtocolError) p =
    Ok (wire_header p :: rl_digits 5 (remaining_length p) ++ wire_body p) /\
  len (wire_body p) = remaining_length p.
Proof.
  intros Hp Hl. rewrite encode_wire by done. unfold wire. by rewrite wire_body_len.
Qed.

Lemma encode_is_wire_witness :
  encode (E:=ProtocolError) (SubAck (mkSubAck 10 [0; 128])) =
    Ok (wire_header (SubAck (mkSubAck 10 [0; 128])) ::
        rl_digits 5 (remaining_length (SubAck (mkSubAck 10 [0; 128]))) ++
        wire_body (SubAck (mkSubAck 10 [0; 128]))) /\
  len (wire_body (SubAck (mkSubAck 10 [0; 128]))) = remaining_length (SubAck (mkSubAck 10 [0; 128])).
Proof. apply encode_is_wire; [exact I|by vm_compute]. Defined.

(** The Remaining Length: every value up to 268435455 is encoded in one to four
    bytes and decoded back, whatever follows. *)
Theorem remaining_length_roundtrip n rest :
  0 <= n <= 268435455 ->
  exists bs, encode_remaining_length (E:=ProtocolError) n = Ok bs /\ 1 <= len bs <= 4 /\
    decode_remaining_length (bs ++ rest) = Ok (n, len bs).
Proof.
  intros Hn. exists (rl_digits 5 n). split_and!.
  - apply encode_remaining_length_eq. unfold u32_max. lia.
  - pose proof (rl_digits_len 5 n). lia.
  - change 5%nat with (4 + 1)%nat. rewrite rl_digits_enough by (change (128 ^ Z.of_nat 4) with 268435456; lia).
    pose proof (rl_digits_len 4 n). lia.
  - by apply decode_encode_remaining_length.
Qed.

Lemma remaining_length_roundtrip_witness :
  exists bs, encode_remaining_length (E:=ProtocolError) 268435455 = Ok bs /\ 1 <= len bs <= 4 /\
    decode_remaining_length (bs ++ [1; 2]) = Ok (268435455, len bs).
Proof. apply remaining_length_roundtrip. lia. Defined.

(** C34: on any bytes the decoder of the Remaining Length reads at most four of them,
    overflows nothing and gives a value below 2^28, or rejects; it asks for more only
    when the buffer has fewer than four bytes. *)
Theorem remaining_length_bounds buf :
  bytes_ok buf ->
  match decode_remaining_length buf with
  | Ok (v, n) => 0 <= v <= 268435455 /\ 1 <= n <= 4 /\ n <= len buf
  | Err e => e = Incomplete /\ len buf < 4 \/ e = InvalidRemainingLength /\ 4 <= len buf
  | Panic | Diverge => False
  end.
Proof.
  intros Hb. pose proof (decode_remaining_length_wp buf Hb) as Hw.
  destruct (decode_remaining_length buf) as [[v n]|e| |]; try done.
  - destruct Hw as (bs & rest & -> & Hv & -> & Hl). pose proof (rl_value_max _ _ Hv Hl).
    apply rl_value_range in Hv as [_ ?]. split_and!; try lia. len_lia.
  - destruct Hw as [(-> & _ & ?)|(-> & bs & rest & -> & _ & Hl)]; [by left|right]. split; [done|len_lia].
Qed.

Lemma remaining_length_bounds_witness :
  match decode_remaining_length [255; 255; 255; 255; 1] with
  | Ok (v, n) => 0 <= v <= 268435455 /\ 1 <= n <= 4 /\ n <= len [255; 255; 255; 255; 1]
  | Err e => e = Incomplete /\ len [255; 255; 255; 255; 1] < 4 \/
             e = InvalidRemainingLength /\ 4 <= len [255; 255; 255; 255; 1]
  | Panic | Diverge => False
  end.
Proof. apply remaining_length_bounds. repeat constructor. Defined.

(** C24: a topic filter is accepted exactly when it is a well-formed filter of section
    4.7: not empty, every level plain or "+", "#" only as the last level; and a rejected
    one gives a [MalformedPayload]. *)
Theorem validate_topic_filter_iff f :
  (validate_topic_filter f = Ok tt <-> f <> [] /\ filter_levels_ok (split SLASH f)) /\
  (validate_topic_filter f = Ok tt \/ exists s, validate_topic_filter f = Err (MalformedPayload s)).
Proof.
  split; [apply validate_topic_filter_ok|]. pose proof (validate_topic_filter_wp f) as Hw.
  destruct (validate_topic_filter f) as [[]|e| |]; try done; [by left|right].
  destruct Hw as (s & -> & _). eauto.
Qed.

(** C23: [topic_matches_filter] decides the matching relation of section 4.7.1, for every
    topic and every filter: "+" is any one level, "#" the parent level and all below
    it, another level is itself. *)
Theorem topic_matches_filter_iff t f :
  topic_matches_filter t f = true <-> levels_match (split SLASH t) (split SLASH f).
Proof. apply topic_matches_filter_spec. Qed.

(** A filter without wildcard characters matches exactly the topic it names: the
    broker's lookup by key and the matching predicate agree. *)
Theorem exact_filter_matches_itself t f :
  is_wildcard_filter f = false -> topic_matches_filter t f = true <-> t = f.
Proof. apply topic_matches_exact. Qed.

Lemma exact_filter_matches_itself_witness :
  topic_matches_filter (str "a/b") (str "a/b") = true <-> str "a/b" = str "a/b".
Proof. apply exact_filter_matches_itself. reflexivity. Defined.

(** A string field is accepted only if its bytes are the UTF-8 encoding of Unicode
    scalar values (no surrogates, no overlong forms), and it is kept byte for byte. *)
Theorem from_utf8_scalars s r :
  from_utf8 s = Some r <->
  r = s /\ exists cs, Forall (fun c => scalar_ok c = true) cs /\ s = utf8_encode cs.
Proof. by rewrite from_utf8_Some, valid_utf8_spec. Qed.

(** [encode_utf8_string] never writes a field whose prefix disagrees with its
    length: a string of more than 65535 bytes is cut to its first 65535 bytes, a shorter
    one is written whole. *)
Theorem encode_utf8_string_fits s out :
  exists field, encode_utf8_string (E:=ProtocolError) s out = Ok (out ++ u16_to_be_bytes (len field) ++ field) /\
    len field <= 65535 /\ field `prefix_of` s /\ (len s <= 65535 -> field = s).
Proof.
  destruct (Z.leb_spec (len s) 65535) as [Hs|Hs].
  - exists s. rewrite encode_utf8_string_eq by done. by split_and!.
  - exists (take (Z.to_nat 65535) s).
    assert (Hl : len (take (Z.to_nat 65535) s) = 65535) by (unfold len in *; rewrite length_take; lia).
    rewrite encode_utf8_string_long, Hl by done. split_and!; [done|done| |lia].
    exists (drop (Z.to_nat 65535) s). by rewrite take_drop.
Qed.
