(* ===== verification/QueueProps.v ===== *)
(** * Properties of the outbound queue (src/queue.rs)

    Bounded, first in first out, dropping the oldest; and, under concurrency,
    linearizable, without a lost wakeup for a push, with one for a close. *)

From S2P Require Import Prelude Queue QueueConc.

(** C13: over any sequence of operations on a fresh queue of capacity [c >= 1], the queue
    never holds more than [c] items, what was popped and what is queued is in order a
    subsequence of what was pushed, and every item pushed is popped, still queued, or
    reported as dropped: nothing is lost silently, duplicated or reordered. *)
Theorem queue_fifo_accounting {A} c (ops : list (op A)) :
  1 <= c ->
  let '(q, popped, drops) := run ops (new c) [] 0 in
  len (items q) <= capacity q /\ popped ++ items q `sublist_of` pushed ops /\
  len (pushed ops) = len popped + len (items q) + drops /\ 0 <= drops.
Proof.
  intros Hc. pose proof (run_spec ops (new c) [] 0 [] (new_ok c Hc)) as Hr.
  destruct (run ops (new c) [] 0) as [[q popped] drops].
  destruct Hr as ([_ ?] & ? & ? & ?); [done|done|done|by split_and!].
Qed.

Lemma queue_fifo_accounting_witness :
  let '(q, popped, drops) := run [OpPush 1; OpPush 2; OpPush 3; OpPop; OpClose] (new 2) [] 0 in
  len (items q) <= capacity q /\
  popped ++ items q `sublist_of` pushed [OpPush 1; OpPush 2; OpPush 3; OpPop; OpClose] /\
  len (pushed [OpPush 1; OpPush 2; OpPush 3; OpPop; OpClose]) = len popped + len (items q) + drops /\
  0 <= drops.
Proof. apply (queue_fifo_accounting 2 [OpPush 1; OpPush 2; OpPush 3; OpPop; OpClose]). lia. Defined.

(** [push] refines its specification as a list: the queue becomes the last
    [capacity] items of the old items and the new one, and a drop is reported exactly
    when the queue was full. *)
Theorem push_refines_last {A} (q : BoundedDropOldestQueue A) x :
  queue_ok q ->
  let '(q', dropped) := push q x in
  items q' = last_n (capacity q) (items q ++ [x]) /\ queue_ok q' /\ closed q' = closed q /\
  (dropped = true <-> len (items q) = capacity q).
Proof.
  intros Hq. pose proof (push_items q x Hq) as Hi. pose proof (push_ok q x Hq) as Hok.
  pose proof (push_dropped q x Hq) as Hd.
  assert (Hc : closed (fst (push q x)) = closed q) by (unfold push; by destruct (_ <=? _)).
  by destruct (push q x).
Qed.

Lemma push_refines_last_witness :
  let '(q', dropped) := push (mkQueue [1; 2] 2 false) 3 in
  items q' = last_n 2 ([1; 2] ++ [3]) /\ queue_ok q' /\ closed q' = false /\
  (dropped = true <-> len [1; 2] = 2).
Proof. apply (push_refines_last (mkQueue [1; 2] 2 false) 3). split; by vm_compute. Defined.

(** [n] calls of [pop_blocking], none of which waits. *)
Fixpoint pops {A} (n : nat) (q : BoundedDropOldestQueue A) : option (list (option A)) :=
  match n with
  | O => Some []
  | S n' =>
      match pop_blocking q with
      | (q', Return r) => rs ← pops n' q'; Some (r :: rs)
      | (_, Wait) => None
      end
  end.

(** Closing loses nothing: the calls of [pop_blocking] on a closed queue return every
    queued item in order and then [None], and none of them blocks. *)
Theorem close_drains {A} (q : BoundedDropOldestQueue A) n :
  pops (length (items q) + n) (close q) = Some (map Some (items q) ++ replicate n None).
Proof.
  destruct q as [l c b]. unfold close. simpl. induction l as [|x l IH]; simpl.
  - induction n as [|n IH]; [done|]. cbn [pops]. unfold pop_blocking at 1. simpl. by rewrite IH.
  - unfold pop_blocking. simpl. by rewrite IH.
Qed.

(** C15: no push is lost on a sleeping consumer: in every reachable state in which the
    consumer sleeps while an item is queued, a producer is still to notify it, and that
    notification makes it return the oldest item. *)
Theorem push_wakes_consumer {A} cap (c : config A) x rest :
  reachable cap c -> consumer c = Sleeping -> items (queue c) = x :: rest ->
  exists c', exec_all [NotifyOne; Relock; PopFront] c = Some c' /\
    consumer c' = Returned (Some x) /\ items (queue c') = rest.
Proof.
  intros Hr Hs Hi. destruct (reachable_no_lost_push cap c Hr) as [Hn _].
  specialize (Hn Hs). rewrite Hi in Hn. specialize (Hn ltac:(done)).
  destruct c as [q pc n m h]. simpl in *. subst pc. destruct n as [|n]; [lia|].
  simpl. rewrite Hi. simpl. eauto.
Qed.

Definition sleeping_config : config Z := mkConfig (mkQueue [5] 2 false) Sleeping 1 0 [DidPush 5 false].

Lemma sleeping_config_reachable : reachable 2 sleeping_config.
Proof.
  apply (exec_all_reachable 2 [Lock; PopFront; ReadClosed; CondWait; PushItem 5] (init 2));
    [constructor|reflexivity].
Qed.

Lemma push_wakes_consumer_witness :
  exists c', exec_all [NotifyOne; Relock; PopFront] sleeping_config = Some c' /\
    consumer c' = Returned (Some 5) /\ items (queue c') = [].
Proof. apply (push_wakes_consumer 2); [exact sleeping_config_reachable|reflexivity|reflexivity]. Defined.

(** C16: the queue is linearizable, results included.  Under every interleaving of producers,
    closers and the consumer, the calls in the order of their critical sections are a
    sequential execution of [push], [pop_blocking] and [close] that leads to the queue as
    it is, and in which each [push] has reported a drop, and each [pop_blocking] has
    returned an item or [None], exactly as there; the call that [pop_blocking] has just
    returned from is the last one of them; and a step completes one call at most, a push,
    a close, or the pop that returns with it. *)
Theorem queue_linearizable {A} cap (c : config A) :
  reachable cap c ->
  legal (new cap) (log c) (queue c) /\
  (forall r, consumer c = Returned r -> last (popped (log c)) = Some r) /\
  (forall l c', exec l c = Some c' -> exists es, log c' = log c ++ es /\ logged l c' es).
Proof.
  intros Hr. destruct (reachable_legal cap c Hr) as [Hl Hp]. split_and!; [done|exact Hp|].
  intros l c' Hs. destruct (exec_legal l c c') as (es & ? & ? & _); [by eapply reachable_no_lost_push|done|eauto].
Qed.

Lemma queue_linearizable_witness :
  legal (new 2) (log sleeping_config) (queue sleeping_config) /\
  (forall r, consumer sleeping_config = Returned r -> last (popped (log sleeping_config)) = Some r) /\
  (forall l c', exec l sleeping_config = Some c' ->
     exists es, log c' = log sleeping_config ++ es /\ logged l c' es).
Proof. apply queue_linearizable. exact sleeping_config_reachable. Defined.

(** C19: [close] can lose its wakeup.  It sets the flag and notifies without the [items]
    lock, so it can run after the consumer has read [closed = false] and before it
    waits: the queue is then closed, the consumer sleeps, and no step of the program
    (only a spurious wakeup or another call) ever makes it return. *)
Theorem close_can_lose_wakeup {A} cap :
  exec_all lost_close (init (A:=A) cap) = Some (mkConfig (mkQueue [] cap true) Sleeping 0 0 [DidClose]) /\
  stuck (A:=A) (mkConfig (mkQueue [] cap true) Sleeping 0 0 [DidClose]).
Proof. apply lost_close_stuck. Qed.

(** A close that finds the consumer already asleep on an empty queue does wake it,
    and [pop_blocking] returns [None]. *)
Theorem close_wakes_sleeping_consumer {A} cap (c : config A) :
  reachable cap c -> consumer c = Sleeping -> items (queue c) = [] ->
  exists c', exec_all close_asleep c = Some c' /\ reachable cap c' /\ consumer c' = Returned None.
Proof.
  intros Hr Hs Hi. destruct (close_wakes_sleeper c Hs Hi) as (c' & He & Hc).
  exists c'. split_and!; [done|by eapply exec_all_reachable|done].
Qed.

Definition asleep_config : config Z := mkConfig (mkQueue [] 2 false) Sleeping 0 0 [].

Lemma close_wakes_sleeping_consumer_witness :
  exists c', exec_all close_asleep asleep_config = Some c' /\ reachable 2 c' /\ consumer c' = Returned None.
Proof.
  apply close_wakes_sleeping_consumer; [|reflexivity|reflexivity].
  apply (exec_all_reachable 2 [Lock; PopFront; ReadClosed; CondWait] (init 2)); [constructor|reflexivity].
Defined.
