(* ===== verification/BrokerProps.v ===== *)
(** * Properties of the broker and of its shards (src/broker.rs) *)

From S2P Require Import Prelude Packets Topics Queue Broker BrokerSpec Sharded ShardedSpec ShardedConc.

(** Two clients, an exact and two wildcard subscriptions, a retained message. *)
Definition sample_pub (r : bool) (data : bytes) : PublishPacket := mkPublish (str "a/b") data 0 r None.
Definition sample_history : list BrokerMessage :=
  [MsgRegister 1 (str "x") 100; MsgRegister 2 (str "y") 200; MsgSubscribe 1 (str "a/b");
   MsgSubscribe 1 (str "a/+"); MsgSubscribe 2 (str "#"); MsgPublish 1 (sample_pub true [7])].

Definition any_order : nat -> HashOrder := fun _ => key_order.

(** C4: the broker refines its contract: after any sequence of messages, whatever the
    iteration order of its maps, the registry is well-formed and holds the connections,
    the subscriptions and the retained messages that the sequence says, and every
    message made exactly the pushes of [delivers]: a publish one push to each interested
    client, a subscription one push of each retained message that matches, the other
    messages none. *)
Theorem broker_refines_contract orders msgs :
  let '(st, outs) := run_broker orders msgs in
  broker_ok st /\ represents msgs st /\ length outs = length msgs /\
  forall n msg, msgs !! n = Some msg ->
    exists out, outs !! n = Some out /\ delivers (take n msgs) msg out.
Proof. apply run_broker_refines. Qed.

Lemma push_to_cons h p id ids :
  push_to h p (id :: ids) =
  match connected h id with
  | Some c => (outbound c, Packet (Publish p)) :: push_to h p ids
  | None => push_to h p ids
  end.
Proof. unfold push_to. simpl. by destruct (connected h id). Qed.

(** The pushes to one client's queue. *)
Lemma filter_push_to h p id c ids :
  NoDup ids -> connected h id = Some c ->
  (forall id' c', connected h id' = Some c' -> outbound c' = outbound c -> id' = id) ->
  filter (fun call => fst call = outbound c) (push_to h p ids) =
  if decide (id ∈ ids) then [(outbound c, Packet (Publish p))] else [].
Proof.
  intros Hnd Hc Huniq. induction Hnd as [|id' ids Hid' Hnd IH]; [done|]. rewrite push_to_cons.
  destruct (decide (id' = id)) as [->|Hne].
  - rewrite Hc, filter_cons_True, IH by done. rewrite decide_False by done. by rewrite decide_True by left.
  - assert (Hin : id ∈ id' :: ids <-> id ∈ ids) by (rewrite elem_of_cons; naive_solver).
    rewrite (decide_ext _ _ _ _ Hin). destruct (connected h id') as [c'|] eqn:Hc'; [|done].
    rewrite filter_cons_False; [done|]. simpl. intros ?. by apply Hne, (Huniq id' c').
Qed.

(** C10: a publish reaches an interested client exactly once, through however many of
    its subscriptions it matches, and nobody else: the pushes to the client's queue are
    the packet once, or none. *)
Theorem publish_reaches_once orders msgs from p id c {order : HashOrder} :
  connected msgs id = Some c ->
  (forall id' c', connected msgs id' = Some c' -> outbound c' = outbound c -> id' = id) ->
  let st := fst (run_broker orders msgs) in
  let mine := filter (fun call => fst call = outbound c) (snd (handle (MsgPublish from p) st)) in
  (interested msgs (topic p) id -> mine = [(outbound c, Packet (Publish p))]) /\
  (~ interested msgs (topic p) id -> mine = []).
Proof.
  intros Hc Huniq. pose proof (run_broker_refines orders msgs) as Hr.
  destruct (run_broker orders msgs) as [st outs]. destruct Hr as (Hok & Hrep & _). cbn zeta. cbn [fst].
  destruct (handle_delivers msgs st (MsgPublish from p) Hok Hrep) as (ids & Hnd & Hin & ->).
  rewrite (filter_push_to msgs p id c ids Hnd Hc Huniq).
  rewrite <- Hin. split; intros Hi; [by rewrite decide_True|by rewrite decide_False].
Qed.

Lemma publish_reaches_once_witness :
  let st := fst (run_broker any_order sample_history) in
  let mine := filter (fun call => fst call = 100) (snd (handle (MsgPublish 2 (sample_pub false [9])) st)) in
  (interested sample_history (str "a/b") 1 ->
     mine = [(100, Packet (Publish (sample_pub false [9])))]) /\
  (~ interested sample_history (str "a/b") 1 -> mine = []).
Proof.
  apply (publish_reaches_once any_order sample_history 2 (sample_pub false [9]) 1 (mkClient (str "x") 100)).
  - reflexivity.
  - intros id' c'. unfold connected, latest, sample_history. cbn [foldl]. unfold latest_step.
    cbn [client_effect]. destruct (Z.eqb_spec 1 id'), (Z.eqb_spec 2 id'); intros ? ?; simplify_eq/=; done.
Defined.

(** An answer that the later messages leave as it is. *)
Lemma latest_kept {V} (eff : BrokerMessage -> option (option V)) h1 h2 v :
  latest eff h1 = Some v -> Forall (fun msg => latest_step eff (Some v) msg = Some v) h2 ->
  latest eff (h1 ++ h2) = Some v.
Proof.
  intros Hh1 Hh2. unfold latest in *. rewrite foldl_app, Hh1.
  induction Hh2 as [|msg h2 Hm _ IH]; [done|]. cbn [foldl]. by rewrite Hm.
Qed.

(** C30: what a client is subscribed to: a filter is in the registry for a client exactly
    when the client sent a SUBSCRIBE for it and has not unsubscribed from it nor
    disconnected since. *)
Theorem subscriptions_follow_history orders msgs id f :
  subscriber (fst (run_broker orders msgs)) id f <->
  exists h1 h2, msgs = h1 ++ MsgSubscribe id f :: h2 /\
    Forall (fun msg => msg <> MsgUnsubscribe id f /\ msg <> MsgDisconnect id) h2.
Proof.
  pose proof (run_broker_refines orders msgs) as Hr.
  destruct (run_broker orders msgs) as [st outs]. destruct Hr as (_ & [_ Ht _] & _). cbn [fst].
  rewrite Ht. unfold subscribed. split.
  - intros (h1 & msg & h2 & -> & Hm & Hh2)%latest_Some.
    exists h1, h2. split.
    + destruct msg as [|id' f'|id' f'| |id']; simpl in Hm; try done;
        destruct (Z.eqb_spec id' id); simpl in Hm; try done.
      all: case_bool_decide; simplify_eq. done.
    + eapply Forall_impl; [exact Hh2|]. intros m Hmn. simpl in Hmn.
      split; intros ->; simpl in Hmn; rewrite Z.eqb_refl in Hmn; [|done].
      by rewrite bool_decide_eq_true_2 in Hmn.
  - intros (h1 & h2 & -> & Hh2).
    change (MsgSubscribe id f :: h2) with ([MsgSubscribe id f] ++ h2). rewrite app_assoc.
    apply latest_kept.
    + rewrite latest_snoc. unfold latest_step. simpl. by rewrite Z.eqb_refl, bool_decide_eq_true_2.
    + eapply Forall_impl; [exact Hh2|]. intros m [Hu Hd].
      unfold latest_step. destruct m as [|id' f'|id' f'| |id']; simpl; try done.
      * by destruct (_ && _).
      * destruct (Z.eqb_spec id' id) as [->|]; [|done]. simpl. case_bool_decide; congruence.
      * destruct (Z.eqb_spec id' id); congruence.
Qed.

(** C29: the retained message of a topic is the last PUBLISH with the RETAIN flag for
    it; one with an empty payload removes it. *)
Theorem retained_is_latest orders msgs t p :
  retained (fst (run_broker orders msgs)) !! t = Some p <->
  retain p = true /\ topic p = t /\ payload p <> [] /\
  exists h1 from h2, msgs = h1 ++ MsgPublish from p :: h2 /\
    Forall (fun msg => forall from' p', msg = MsgPublish from' p' -> retain p' = true -> topic p' <> t) h2.
Proof.
  pose proof (run_broker_refines orders msgs) as Hr.
  destruct (run_broker orders msgs) as [st outs]. destruct Hr as (_ & [_ _ Hret] & _). cbn [fst].
  rewrite Hret. unfold retained_for. rewrite latest_Some.
  assert (Hnone : forall msg, retained_effect t msg = None <->
    forall from' p', msg = MsgPublish from' p' -> retain p' = true -> topic p' <> t).
  { intros msg. destruct msg as [| | |from' p'|]; simpl; try (by split; [|done]).
    destruct (retain p') eqn:Hre; simpl; [|split; [|done]; intros _ ? ? ? ?; simplify_eq; congruence].
    case_bool_decide as Ht; split; try done.
    - intros Hall. by destruct (Hall from' p').
    - intros _ ? ? ? ?. by simplify_eq. }
  split.
  - intros (h1 & msg & h2 & -> & Hm & Hh2).
    destruct msg as [| | |from q|]; simpl in Hm; try discriminate Hm.
    destruct (retain q) eqn:Hre; simpl in Hm; [|done].
    repeat (case_bool_decide; simplify_eq). split_and!; try done. exists h1, from, h2. split; [done|].
    eapply Forall_impl; [exact Hh2|]. intros m. apply Hnone.
  - intros (Hre & Htop & Hpay & h1 & from & h2 & -> & Hh2). exists h1, (MsgPublish from p), h2.
    split_and!; [done| |].
    + simpl. rewrite Hre, bool_decide_eq_true_2 by done. simpl. by rewrite bool_decide_eq_false_2.
    + eapply Forall_impl; [exact Hh2|]. intros m. apply Hnone.
Qed.

(** A disconnect is final: whatever came before, until the connection registers
    again the broker has no client for it, so that no message makes a push to it; and
    unless it subscribes again it is in no subscriber list. *)
Theorem disconnect_forgets orders h1 id h2 :
  Forall (fun msg => forall cid out, msg <> MsgRegister id cid out) h2 ->
  let st := fst (run_broker orders (h1 ++ MsgDisconnect id :: h2)) in
  clients st !! id = None /\
  (Forall (fun msg => forall f, msg <> MsgSubscribe id f) h2 -> forall f, ~ subscriber st id f).
Proof.
  intros Hreg. pose proof (run_broker_refines orders (h1 ++ MsgDisconnect id :: h2)) as Hr.
  destruct (run_broker orders _) as [st outs]. destruct Hr as (_ & [Hc Ht _] & _). cbn [fst].
  assert (Hkeep : forall {V} (eff : BrokerMessage -> option (option V)),
    eff (MsgDisconnect id) = Some None -> Forall (fun msg => eff msg = None \/ eff msg = Some None) h2 ->
    latest eff (h1 ++ MsgDisconnect id :: h2) = None).
  { intros V eff Hd. change (MsgDisconnect id :: h2) with ([MsgDisconnect id] ++ h2).
    clear -Hd. induction h2 as [|m h2' IH] using rev_ind; intros Hh2.
    - rewrite app_nil_r, latest_snoc. unfold latest_step. by rewrite Hd.
    - apply Forall_app in Hh2 as [Hh2 [Hm|Hm]%Forall_singleton]; rewrite !app_assoc, latest_snoc;
        unfold latest_step; rewrite Hm; [|done]. rewrite <- app_assoc. by apply IH. }
  split.
  - rewrite Hc. apply Hkeep; [by simpl; rewrite Z.eqb_refl|].
    eapply Forall_impl; [exact Hreg|]. intros m Hm. destruct m as [id' cid out| | | |id']; simpl; auto.
    + destruct (Z.eqb_spec id' id) as [->|]; [|by left]. by destruct (Hm cid out).
    + destruct (id' =? id); auto.
  - intros Hsub f. rewrite Ht. unfold subscribed.
    rewrite (Hkeep _ (subscription_effect id f)); [done|by simpl; rewrite Z.eqb_refl|].
    eapply Forall_impl; [exact Hsub|]. intros m Hm. destruct m as [|id' f'|id' f'| |id']; simpl; auto.
    + destruct (Z.eqb_spec id' id) as [->|]; [|by left]. simpl. case_bool_decide; [|by left].
      subst. by destruct (Hm f).
    + destruct (_ && _); auto.
    + destruct (id' =? id); auto.
Qed.

Lemma disconnect_forgets_witness :
  let st := fst (run_broker any_order (sample_history ++ MsgDisconnect 1 :: [MsgSubscribe 2 (str "c")])) in
  clients st !! 1 = None /\
  (Forall (fun msg => forall f, msg <> MsgSubscribe 1 f) [MsgSubscribe 2 (str "c")] ->
   forall f, ~ subscriber st 1 f).
Proof. apply disconnect_forgets. repeat constructor. discriminate. Defined.

(** The iteration order of the maps does not matter: one message leaves the same
    registry and makes the same pushes, up to their order. *)
Theorem order_irrelevant (o1 o2 : HashOrder) msg st :
  broker_ok st ->
  fst (handle (order := o1) msg st) = fst (handle (order := o2) msg st) /\
  snd (handle (order := o1) msg st) ≡ₚ snd (handle (order := o2) msg st).
Proof. apply handle_orders. Qed.

(** The reverse order. *)
Definition reverse_order : HashOrder.
Proof. refine {| hash_iter := fun V m => reverse (map_to_list m) |}. intros V m. apply reverse_Permutation. Defined.

Lemma order_irrelevant_witness :
  let st := fst (run_broker any_order []) in
  fst (handle (order := key_order) (MsgPublish 1 (sample_pub true [1])) st) =
  fst (handle (order := reverse_order) (MsgPublish 1 (sample_pub true [1])) st) /\
  snd (handle (order := key_order) (MsgPublish 1 (sample_pub true [1])) st) ≡ₚ
  snd (handle (order := reverse_order) (MsgPublish 1 (sample_pub true [1])) st).
Proof. apply order_irrelevant. apply init_broker_ok. Defined.

Lemma fan_out_verbatim {order : HashOrder} cs ts p :
  Forall (fun call => snd call = Packet (Publish p)) (snd (fan_out cs ts p)).
Proof.
  set (P := fun acc : list ConnectionId * list push_call =>
              Forall (fun call => snd call = Packet (Publish p)) (snd acc)).
  assert (Hpush : forall n o c, P (n, o) -> P (n, o ++ [(outbound c, Packet (Publish p))])).
  { intros n o c Ho. apply Forall_app. split; [done|]. by repeat constructor. }
  unfold fan_out. cbn zeta. apply (foldl_invariant P).
  - destruct (ts !! topic p) as [subs|]; [|by apply Forall_nil].
    apply (foldl_invariant P); [by apply Forall_nil|].
    intros [n o] sid Ho. unfold exact_pass. destruct (cs !! sid); [by apply (Hpush n)|done].
  - intros acc [f subs] Ho. unfold wildcard_entry. do 2 (case_match; [done|]).
    apply (foldl_invariant P); [done|]. intros [n o] sid Ho'. unfold wildcard_pass.
    case_bool_decide; [done|]. destruct (cs !! sid); [by apply (Hpush n)|done].
Qed.

(** A live publish is forwarded verbatim: every push of a publish carries the packet
    the publisher sent, its RETAIN flag, its QoS and its packet identifier included. *)
Theorem live_publish_verbatim {order : HashOrder} from p st :
  Forall (fun call => snd call = Packet (Publish p)) (snd (handle (MsgPublish from p) st)).
Proof. apply fan_out_verbatim. Qed.

(** The results of [n] calls of [next_connection_id]. *)
Fixpoint connection_ids (n : nat) (counter : Z) : list ConnectionId :=
  match n with
  | O => []
  | S n' => let '(id, counter') := next_connection_id counter in id :: connection_ids n' counter'
  end.

Lemma connection_ids_eq n counter :
  0 <= counter -> counter + Z.of_nat n < 2 ^ 64 ->
  connection_ids n counter = map (fun k => counter + Z.of_nat k) (seq 0 n).
Proof.
  revert counter. induction n as [|n IH]; intros counter Hc Hn; [done|].
  cbn [connection_ids]. unfold next_connection_id. rewrite Z.mod_small by lia.
  rewrite IH by lia. cbn [seq map]. f_equal; [lia|]. rewrite <- seq_shift, map_map.
  apply map_ext. intros k. lia.
Qed.

(** Connection ids are unique: the calls from the initial counter give different
    positive numbers, for all calls below 2^64 - 1. *)
Theorem connection_ids_unique n :
  Z.of_nat n < 2 ^ 64 - 1 ->
  NoDup (connection_ids n NEXT_CONNECTION_ID) /\
  Forall (fun id => 1 <= id <= Z.of_nat n) (connection_ids n NEXT_CONNECTION_ID).
Proof.
  intros Hn. rewrite connection_ids_eq by (unfold NEXT_CONNECTION_ID; lia). split.
  - apply NoDup_fmap_2; [intros x y; lia|apply NoDup_seq].
  - apply Forall_forall. intros id (k & -> & Hk%elem_of_seq)%list_elem_of_fmap.
    unfold NEXT_CONNECTION_ID. lia.
Qed.

Lemma connection_ids_unique_witness :
  NoDup (connection_ids 3 NEXT_CONNECTION_ID) /\
  Forall (fun id => 1 <= id <= Z.of_nat 3) (connection_ids 3 NEXT_CONNECTION_ID).
Proof. apply connection_ids_unique. reflexivity. Defined.
