(* ===== verification/ShardedProps.v ===== *)
(** * Properties of the sharded broker (src/broker.rs, lines 66 to 89 and 296 to 427) *)

From S2P Require Import Prelude Packets Topics Queue Broker BrokerSpec Sharded ShardedSpec ShardedConc.

Definition shard_orders : nat -> nat -> HashOrder := fun _ _ => key_order.

Definition two_shard_history : list BrokerMessage :=
  [MsgRegister 1 (str "x") 100;
   MsgPublish 9 (mkPublish (str "a") [1] 0 true None);
   MsgPublish 9 (mkPublish (str "b") [2] 0 true None);
   MsgSubscribe 1 (str "#")].

(** C5: the sharded broker refines the single one.  For any number of shards, any hash
    and any sequence of messages: [send] puts into each mailbox the part of the sequence
    that is routed to it, in order, and the pushes that the shards together make for a
    message are what one broker with the whole sequence delivers: a publish reaches
    every interested client once, a wildcard subscription gets each matching retained
    message once. *)
Theorem sharded_refines_single {hasher : TopicHasher} orders sender_size n msgs k msg :
  1 <= n -> n * sender_size <= isize_max -> msgs !! k = Some msg ->
  (exists chans, spawn_sharded_broker (E:=unit) sender_size n = Ok chans /\
     map mailbox (send_all chans msgs) = map (fun i => shard_history n i msgs) (seq 0 (Z.to_nat n))) /\
  delivers (take k msgs) msg (sharded_output orders n msgs k).
Proof.
  intros Hn Hsz Hk. split; [|by apply sharded_output_delivers].
  exists (replicate (Z.to_nat n) (mkChannel [] true)). split.
  - by rewrite spawn_ok.
  - rewrite send_all_histories by done. by rewrite map_map.
Qed.

Lemma sharded_refines_single_witness :
  (exists chans, spawn_sharded_broker (E:=unit) 16 2 = Ok chans /\
     map mailbox (send_all chans two_shard_history) =
       map (fun i => shard_history 2 i two_shard_history) (seq 0 (Z.to_nat 2))) /\
  delivers (take 3 two_shard_history) (MsgSubscribe 1 (str "#"))
    (sharded_output shard_orders 2 two_shard_history 3).
Proof. apply sharded_refines_single; [lia|by vm_compute|reflexivity]. Defined.

(** C31: [ShardedBroker::send] with at least one shard never panics; it returns [Ok] when
    some shard that the message is for is alive, and [Err] only if all of those are
    gone; and it hands the message to exactly the shards it is for, and only once, by
    single sends on their channels, one after the other. *)
Theorem send_reaches_targets {hasher : TopicHasher} chans msg :
  1 <= len chans ->
  ((snd (send chans msg) = Ok tt /\
      exists i c, chans !! i = Some c /\ to_shard (len chans) i msg = true /\ rx_alive c = true) \/
   (snd (send chans msg) = Err tt /\
      forall i c, chans !! i = Some c -> to_shard (len chans) i msg = true -> rx_alive c = false)) /\
  fst (send chans msg) =
    foldl (fun chans i => alter (fun c => fst (tx_send c msg)) i chans) chans (targets (len chans) msg) /\
  forall i c, chans !! i = Some c ->
    exists c', fst (send chans msg) !! i = Some c' /\ rx_alive c' = rx_alive c /\
      mailbox c' = mailbox c ++ (if to_shard (len chans) i msg && rx_alive c then [msg] else []).
Proof.
  intros Hn. split; [by apply send_result|]. split; [by apply send_targets|].
  intros i c Hi. rewrite send_channels by done.
  rewrite list_lookup_imap, Hi. simpl. eexists. split; [done|].
  unfold tx_send. destruct (to_shard (len chans) i msg), (rx_alive c) eqn:Ha; simpl;
    by rewrite ?Ha, ?app_nil_r.
Qed.

Lemma send_reaches_targets_witness :
  let chans := [mkChannel [] true; mkChannel [] false] in
  ((snd (send chans (MsgDisconnect 1)) = Ok tt /\
      exists i c, chans !! i = Some c /\ to_shard (len chans) i (MsgDisconnect 1) = true /\ rx_alive c = true) \/
   (snd (send chans (MsgDisconnect 1)) = Err tt /\
      forall i c, chans !! i = Some c -> to_shard (len chans) i (MsgDisconnect 1) = true -> rx_alive c = false)) /\
  fst (send chans (MsgDisconnect 1)) =
    foldl (fun chans i => alter (fun c => fst (tx_send c (MsgDisconnect 1))) i chans) chans
      (targets (len chans) (MsgDisconnect 1)) /\
  forall i c, chans !! i = Some c ->
    exists c', fst (send chans (MsgDisconnect 1)) !! i = Some c' /\ rx_alive c' = rx_alive c /\
      mailbox c' = mailbox c ++ (if to_shard (len chans) i (MsgDisconnect 1) && rx_alive c then [MsgDisconnect 1] else []).
Proof. apply send_reaches_targets. by vm_compute. Defined.

(** The routing agrees with itself: the shard of a topic is one of the shards; a
    publish, an exact subscription and its cancellation for the same topic go to that
    one shard; and a wildcard filter, a registration and a disconnect go to all. *)
Theorem routing_consistent {hasher : TopicHasher} n i id from p f cid out :
  1 <= n ->
  0 <= shard_for_topic f n < n /\
  to_shard n i (MsgRegister id cid out) = true /\ to_shard n i (MsgDisconnect id) = true /\
  to_shard n i (MsgSubscribe id f) = to_shard n i (MsgUnsubscribe id f) /\
  (is_wildcard_filter f = true -> to_shard n i (MsgSubscribe id f) = true) /\
  (is_wildcard_filter f = false -> topic p = f ->
     (to_shard n i (MsgSubscribe id f) = true <-> Z.of_nat i = shard_for_topic f n) /\
     to_shard n i (MsgPublish from p) = to_shard n i (MsgSubscribe id f)).
Proof.
  intros Hn. split; [by apply shard_for_topic_range|]. unfold to_shard. simpl.
  split_and!; [done..|by intros ->|]. intros -> <-. by rewrite Z.eqb_eq.
Qed.

Lemma routing_consistent_witness :
  0 <= shard_for_topic (str "a") 4 < 4 /\
  to_shard 4 0 (MsgRegister 1 [] 1) = true /\ to_shard 4 0 (MsgDisconnect 1) = true /\
  to_shard 4 0 (MsgSubscribe 1 (str "a")) = to_shard 4 0 (MsgUnsubscribe 1 (str "a")) /\
  (is_wildcard_filter (str "a") = true -> to_shard 4 0 (MsgSubscribe 1 (str "a")) = true) /\
  (is_wildcard_filter (str "a") = false -> topic (mkPublish (str "a") [] 0 false None) = str "a" ->
     (to_shard 4 0 (MsgSubscribe 1 (str "a")) = true <-> Z.of_nat 0 = shard_for_topic (str "a") 4) /\
     to_shard 4 0 (MsgPublish 2 (mkPublish (str "a") [] 0 false None)) = to_shard 4 0 (MsgSubscribe 1 (str "a"))).
Proof. apply routing_consistent. lia. Defined.

(** A state of two shards: connection 1's REGISTER is handled by the first shard and
    still in the channel of the second. *)
Definition sample_steps : list label :=
  [BeginSend (MsgRegister 1 (str "x") 100); TxSend 1; TxSend 1; Recv 0 key_order].

Fixpoint exec_all {hasher : TopicHasher} (ls : list label) (c : system) : option system :=
  match ls with
  | [] => Some c
  | l :: ls' => c' ← exec l c; exec_all ls' c'
  end.

Lemma exec_all_reachable_system {hasher : TopicHasher} n ls c c' :
  reachable n c -> exec_all ls c = Some c' -> reachable n c'.
Proof.
  revert c. induction ls as [|l ls IH]; intros c Hc Hls; simpl in Hls; [by simplify_eq|].
  destruct (exec l c) as [c1|] eqn:Hl; simpl in Hls; [|done].
  eapply IH; [|done]. by econstructor.
Qed.

Definition sample_system : system := default (start 2) (exec_all sample_steps (start 2)).

Lemma sample_system_reachable : reachable 2 sample_system.
Proof. apply (exec_all_reachable_system 2 sample_steps (start 2)); [constructor|reflexivity]. Qed.

(** C14: under any interleaving of the connection threads' sends (a broadcast is one send
    after the other) and of the shards, a shard's knowledge of a connection is that of a
    prefix of the connection's own messages: it is never out of the order in which the
    connection sent them, whatever the other connections do. *)
Theorem shard_sees_prefix {hasher : TopicHasher} n c i s id :
  1 <= n -> reachable n c -> shards c !! i = Some s ->
  exists k, let h := take k (lookup_list (program c) id) in
    clients (registry s) !! id = connected h id /\
    forall f, is_wildcard_filter f = true \/ Z.of_nat i = shard_for_topic f n ->
      subscriber (registry s) id f <-> subscribed h id f.
Proof. apply shard_view. Qed.

Definition sample_shard : shard :=
  default (mkShard [] [] init_broker) (shards sample_system !! 1%nat).

Lemma shard_sees_prefix_witness :
  exists k, let h := take k (lookup_list (program sample_system) 1) in
    clients (registry sample_shard) !! 1 = connected h 1 /\
    forall f, is_wildcard_filter f = true \/ Z.of_nat 1 = shard_for_topic f 2 ->
      subscriber (registry sample_shard) 1 f <-> subscribed h 1 f.
Proof. apply (shard_sees_prefix 2 sample_system 1 sample_shard); [lia|exact sample_system_reachable|reflexivity]. Defined.

(** And it catches up: when a connection's sends are done and a shard has emptied
    its channel, the shard knows the connection's registration and, for wildcard filters
    and for the topics it owns, exactly the connection's subscriptions. *)
Theorem shard_catches_up {hasher : TopicHasher} n c i s id :
  1 <= n -> reachable n c -> shards c !! i = Some s ->
  lookup_list (pending c) id = [] -> mail s = [] ->
  clients (registry s) !! id = connected (lookup_list (program c) id) id /\
  forall f, is_wildcard_filter f = true \/ Z.of_nat i = shard_for_topic f n ->
    subscriber (registry s) id f <-> subscribed (lookup_list (program c) id) id f.
Proof. apply quiescent_view. Qed.

Definition first_shard : shard :=
  default (mkShard [] [] init_broker) (shards sample_system !! 0%nat).

Lemma shard_catches_up_witness :
  clients (registry first_shard) !! 1 = connected (lookup_list (program sample_system) 1) 1 /\
  forall f, is_wildcard_filter f = true \/ Z.of_nat 0 = shard_for_topic f 2 ->
    subscriber (registry first_shard) 1 f <-> subscribed (lookup_list (program sample_system) 1) 1 f.
Proof.
  apply (shard_catches_up 2 sample_system 0 first_shard);
    [lia|exact sample_system_reachable|reflexivity|reflexivity|reflexivity].
Defined.
