(* ===== verification/ConnectionProps.v ===== *)
(** * Properties of a connection (src/connection.rs) *)

From S2P Require Import Prelude Utf8 Errors Packets RemainingLength Topics.
From S2P Require Import Wire Codec CodecSafety CodecRoundtrip Queue Broker BrokerSpec Sharded ShardedConc.
From S2P Require Import Connection ConnectionSpec Logging.

(** Two packets of a client, and their bytes cut in two places. *)
Definition sample_packets : list MqttPacket :=
  [Publish (mkPublish (str "t") [104] 1 false (Some 9)); PingReq].
Definition sample_chunks : list bytes := [[50]; [6; 0; 1; 116; 0; 9; 104; 192]; [0]].

Lemma sample_packets_ok : Forall client_packet sample_packets.
Proof.
  repeat apply Forall_cons, conj; [| |by apply Forall_nil].
  - split_and!; [|by vm_compute|done]. split_and!; try done; try (vm_compute; split; congruence).
    by repeat constructor.
  - by split_and!.
Qed.

Lemma sample_chunks_ok : bytes_ok (concat sample_chunks).
Proof. repeat constructor. Qed.

(** C11: how the network cuts the stream does not matter: for any two ways of cutting the
    same bytes into reads, followed by the same reads, the reader makes the same calls
    and ends in the same state. *)
Theorem reads_chunking_irrelevant id out chunks1 chunks2 tail :
  Forall (fun chunk => chunk <> []) chunks1 -> Forall (fun chunk => chunk <> []) chunks2 ->
  concat chunks1 = concat chunks2 -> bytes_ok (concat chunks1) -> len (concat chunks1) <= isize_max ->
  reader_loop id out [] (map ReadOk chunks1 ++ tail) = reader_loop id out [] (map ReadOk chunks2 ++ tail).
Proof.
  intros H1 H2 He Hb Hl. rewrite (reader_loop_chunks id out chunks1) by done.
  rewrite He in Hb, Hl. rewrite (reader_loop_chunks id out chunks2) by done. cbn [app]. by rewrite He.
Qed.

Lemma reads_chunking_irrelevant_witness :
  reader_loop 1 100 [] (map ReadOk sample_chunks ++ [ReadOk []]) =
  reader_loop 1 100 [] (map ReadOk [concat sample_chunks] ++ [ReadOk []]).
Proof.
  apply reads_chunking_irrelevant;
    [by repeat constructor|by repeat constructor|reflexivity|exact sample_chunks_ok|by vm_compute].
Defined.

(** C8: from the bytes to the broker: when the stream is the wire format of a sequence of
    packets, cut in any way, and then ends, the reader dispatches exactly these packets
    in order, and then tears down. *)
Theorem reader_dispatches_stream id out ps chunks :
  Forall client_packet ps ->
  Forall (fun chunk => chunk <> []) chunks -> concat chunks = concat (map wire ps) ->
  bytes_ok (concat chunks) -> len (concat chunks) <= isize_max ->
  reader_loop id out [] (map ReadOk chunks ++ [ReadOk []]) =
  Ok (ReaderExited, concat (map (fun p => fst (dispatch_packet id p out)) ps) ++
                    [CallSend (MsgDisconnect id); CallClose out]).
Proof. apply reader_loop_stream. Qed.

Lemma reader_dispatches_stream_witness :
  reader_loop 1 100 [] (map ReadOk sample_chunks ++ [ReadOk []]) =
  Ok (ReaderExited, concat (map (fun p => fst (dispatch_packet 1 p 100)) sample_packets) ++
                    [CallSend (MsgDisconnect 1); CallClose 100]).
Proof.
  apply reader_dispatches_stream;
    [exact sample_packets_ok|by repeat constructor|reflexivity|exact sample_chunks_ok|by vm_compute].
Defined.

(** A DISCONNECT ends the connection at once: the packets before it are dispatched,
    nothing behind it is, not even bytes of the same read or later reads. *)
Theorem reader_stops_at_disconnect id out ps chunks rest tail :
  Forall client_packet ps ->
  Forall (fun chunk => chunk <> []) chunks ->
  concat chunks = concat (map wire ps) ++ wire Disconnect ++ rest ->
  bytes_ok (concat chunks) -> len (concat chunks) <= isize_max ->
  reader_loop id out [] (map ReadOk chunks ++ tail) =
  Ok (ReaderExited, dispatch_all id out ps ++ [CallSend (MsgDisconnect id); CallClose out]).
Proof. apply reader_loop_disconnect. Qed.

Lemma reader_stops_at_disconnect_witness :
  reader_loop 1 100 [] (map ReadOk [[192; 0; 224]; [0; 192; 0]] ++ [ReadErr]) =
  Ok (ReaderExited, dispatch_all 1 100 [PingReq] ++ [CallSend (MsgDisconnect 1); CallClose 100]).
Proof.
  apply (reader_stops_at_disconnect 1 100 [PingReq] _ [192; 0]).
  - by apply list.Forall_singleton.
  - by repeat constructor.
  - reflexivity.
  - by repeat constructor.
  - by vm_compute.
Defined.

(** A call that ends the connection. *)
Definition ends_connection (c : call) : bool :=
  match c with CallSend (MsgDisconnect _) | CallClose _ => true | _ => false end.

Lemma running_no_end calls :
  Forall running_call calls -> filter (fun c => ends_connection c = true) calls = [].
Proof.
  induction 1 as [|c calls Hc _ IH]; [done|]. rewrite filter_cons_False; [done|].
  destruct c as [[]| | |]; simpl in *; done.
Qed.

(** C12: whatever arrives (any bytes, a read error, the end of the stream), the reader
    returns from every step without a panic and without looping.  When it is over it has
    sent exactly one [Disconnect], for its own connection, and closed its queue exactly
    once, last of all; until then it has done neither. *)
Theorem reader_tears_down_once id out reads :
  bytes_ok (read_bytes reads) -> len (read_bytes reads) <= isize_max ->
  exists st calls, reader_loop id out [] reads = Ok (st, calls) /\
    match st with
    | Reading _ => filter (fun c => ends_connection c = true) calls = []
    | ReaderExited =>
        filter (fun c => ends_connection c = true) calls = [CallSend (MsgDisconnect id); CallClose out] /\
        [CallSend (MsgDisconnect id); CallClose out] `suffix_of` calls
    end.
Proof.
  intros Hb Hl. destruct (reader_loop_ok id out reads []) as ([st calls] & Hr & _ & Hd); [done|done|].
  exists st, calls. split; [done|]. simpl in Hd. destruct st; [by apply running_no_end|].
  destruct Hd as (calls' & -> & Hrun). split; [|by exists calls'].
  by rewrite filter_app, running_no_end.
Qed.

Lemma reader_tears_down_once_witness :
  exists st calls, reader_loop 1 100 [] [ReadOk [192]; ReadOk [0; 0]; ReadErr] = Ok (st, calls) /\
    match st with
    | Reading _ => filter (fun c => ends_connection c = true) calls = []
    | ReaderExited =>
        filter (fun c => ends_connection c = true) calls = [CallSend (MsgDisconnect 1); CallClose 100] /\
        [CallSend (MsgDisconnect 1); CallClose 100] `suffix_of` calls
    end.
Proof. apply reader_tears_down_once; [by repeat constructor|by vm_compute]. Defined.

(** C26: what the broker is told is true and well-formed, whatever the bytes: every
    message of a connection's reader carries the connection's own id, a registration
    gives its own queue, every filter it (un)subscribes is a well-formed filter,
    every PUBLISH has a topic without wildcards and the packet identifier its QoS
    needs; and every packet it queues for the client, on its own queue, is an answer
    that the writer can encode. *)
Theorem reader_calls_valid id out reads st calls :
  bytes_ok (read_bytes reads) -> len (read_bytes reads) <= isize_max ->
  reader_loop id out [] reads = Ok (st, calls) ->
  (forall msg, CallSend msg ∈ calls -> sender msg = id /\ own_queue out msg /\ valid_message msg) /\
  (forall q e, CallPush q e ∈ calls -> q = out /\ answer_event e /\ frame_ok e).
Proof.
  intros Hb Hl Hr. destruct (reader_loop_ok id out reads []) as (r & Hr' & Hown & _); [done|done|].
  rewrite Hr in Hr'. simplify_eq. simpl in Hown. rewrite Forall_forall in Hown.
  split; intros; by match goal with H : _ ∈ calls |- _ => apply Hown in H end.
Qed.

Lemma reader_calls_valid_witness :
  let calls := concat (map (fun p => fst (dispatch_packet 1 p 100)) sample_packets) ++
               [CallSend (MsgDisconnect 1); CallClose 100] in
  (forall msg, CallSend msg ∈ calls -> sender msg = 1 /\ own_queue 100 msg /\ valid_message msg) /\
  (forall q e, CallPush q e ∈ calls -> q = 100 /\ answer_event e /\ frame_ok e).
Proof.
  apply (reader_calls_valid 1 100 (map ReadOk sample_chunks ++ [ReadOk []]) ReaderExited);
    [by repeat constructor|by vm_compute|reflexivity].
Defined.

(** C28: a client cannot forge the log.  Whatever bytes a connection reads, every line that
    its reader logs is one line: the text has no line break, unless the operating system's
    error text has one. *)
Theorem log_not_forged now io_text id out reads st calls :
  bytes_ok (read_bytes reads) -> len (read_bytes reads) <= isize_max ->
  10 ∉ io_text -> 0 <= timestamp now <= usize_max -> 0 <= id <= usize_max ->
  reader_loop id out [] reads = Ok (st, calls) ->
  Forall (fun l => exists text, l = (Stdout, text ++ [10]) /\ 10 ∉ text) (connection_log now io_text id calls).
Proof.
  intros Hb Hl Hio Hnow Hid Hr. destruct (reader_loop_ok id out reads []) as (r & Hr' & Hown & _); [done|done|].
  rewrite Hr in Hr'. simplify_eq. simpl in Hown. rewrite Forall_forall in Hown.
  apply Forall_forall. intros l (c & Hc & Hw)%list_elem_of_omap. apply Hown in Hc.
  destruct c as [|?|?|w]; simplify_eq. apply warn_one_line; [done|]. by apply warning_one_line.
Qed.

(** A packet type that MQTT does not have. *)
Lemma log_not_forged_witness :
  connection_log (Some 17) [] 1 [CallWarn (ProtocolFailure (UnknownPacketType 15)); CallSend (MsgDisconnect 1);
                                 CallClose 100] =
    [(Stdout, str "[17] WARN  connection 1: protocol error: unknown packet type: 0x0f" ++ [10])] /\
  Forall (fun l => exists text, l = (Stdout, text ++ [10]) /\ 10 ∉ text)
    (connection_log (Some 17) [] 1 [CallWarn (ProtocolFailure (UnknownPacketType 15)); CallSend (MsgDisconnect 1);
                                    CallClose 100]).
Proof.
  split; [reflexivity|].
  apply (log_not_forged (Some 17) [] 1 100 [ReadOk [240; 0]] ReaderExited);
    [by repeat constructor|by vm_compute|by intros ?%elem_of_nil|by vm_compute|by vm_compute|reflexivity].
Defined.

(** What the standard asks a server to answer to a packet. *)
Definition answers (packet : MqttPacket) : list MqttPacket :=
  match packet with
  | Connect _ => [ConnAck (mkConnAck false Accepted)]
  | Subscribe s => [SubAck (mkSubAck (sub_packet_id s) (replicate (length (subscriptions s)) 0))]
  | Unsubscribe u => [UnsubAck (mkUnsubAck (unsub_packet_id u))]
  | Publish p => if decide (qos p = 1) then [PubAck (mkPubAck (default 0 (pub_packet_id p)))] else []
  | PingReq => [PingResp]
  | _ => []
  end.

(** And what it is to do for it. *)
Definition requests (id : ConnectionId) (out : QueueHandle) (packet : MqttPacket) : list BrokerMessage :=
  match packet with
  | Connect c => [MsgRegister id (client_id c) out]
  | Subscribe s => map (fun x => MsgSubscribe id (fst x)) (subscriptions s)
  | Unsubscribe u => map (MsgUnsubscribe id) (topic_filters u)
  | Publish p => [MsgPublish id p]
  | _ => []
  end.

(** The events that the calls put on the queue [out]. *)
Definition queued (out : QueueHandle) (cs : list call) : list OutboundEvent :=
  omap (fun c => match c with CallPush q e => if decide (q = out) then Some e else None | _ => None end) cs.

Lemma queued_sends out msgs : queued out (map CallSend msgs) = [] /\ sends (map CallSend msgs) = msgs.
Proof. split; induction msgs as [|m msgs IH]; simpl; unfold queued, sends in *; simpl; congruence. Qed.

(** C25: every packet that decodes is answered as the standard asks: CONNECT by an accepted
    CONNACK, SUBSCRIBE by one SUBACK with its identifier and one granted code for each
    filter, UNSUBSCRIBE by its UNSUBACK, PUBLISH by a PUBACK with its identifier at QoS 1
    and by nothing at QoS 0, PINGREQ by PINGRESP; the broker gets one message for each
    filter, in order, and the connection ends on DISCONNECT only. *)
Theorem dispatch_answers id packet out :
  decodable packet ->
  let '(calls, go_on) := dispatch_packet id packet out in
  queued out calls = map Packet (answers packet) /\ sends calls = requests id out packet /\
  (go_on = false <-> packet = Disconnect).
Proof.
  assert (Happ : forall l1 l2, queued out (l1 ++ l2) = queued out l1 ++ queued out l2 /\
    sends (l1 ++ l2) = sends l1 ++ sends l2) by (intros; unfold queued, sends; by rewrite !omap_app).
  assert (Hone : forall e, queued out [CallPush out e] = [e]).
  { intros e. unfold queued. simpl. by rewrite decide_True. }
  intros Hp. destruct packet as [p|p|p|p|p|p|p|p| | |]; try done; simpl.
  - split_and!; [|done|done]. unfold queued. simpl. by rewrite decide_True.
  - rewrite subscribe_each_eq. destruct (Happ (map (fun s => CallSend (MsgSubscribe id (fst s))) (subscriptions p))
      [CallPush out (Packet (SubAck (mkSubAck (sub_packet_id p) (map (fun _ => 0) (subscriptions p)))))]) as [-> ->].
    rewrite Hone. rewrite <- (map_map (fun s => MsgSubscribe id (fst s)) CallSend).
    destruct (queued_sends out (map (fun s => MsgSubscribe id (fst s)) (subscriptions p))) as [-> ->].
    split_and!; [|by rewrite app_nil_r|done]. simpl. do 4 f_equal.
    induction (subscriptions p); simpl; congruence.
  - destruct (Happ (map (fun t => CallSend (MsgUnsubscribe id t)) (topic_filters p))
      [CallPush out (Packet (UnsubAck (mkUnsubAck (unsub_packet_id p))))]) as [-> ->].
    rewrite Hone. rewrite <- (map_map (MsgUnsubscribe id) CallSend).
    destruct (queued_sends out (map (MsgUnsubscribe id) (topic_filters p))) as [-> ->].
    split_and!; [done|by rewrite app_nil_r|done].
  - destruct Hp as (_ & _ & _ & _ & Hid).
    destruct (pub_packet_id p) as [i|]; simpl in Hid; [destruct Hid as [-> _]|rewrite Hid]; simpl;
      split_and!; try done. unfold queued. simpl. by rewrite decide_True.
Qed.

(** Filters whose well-formedness [validate_topic_filter] decides. *)
Lemma sample_filter_ok f :
  valid_utf8 f = true -> bool_decide (len f <= 65535) = true -> validate_topic_filter f = Ok tt -> filter_ok f.
Proof. intros ? ?%bool_decide_eq_true Hv%validate_topic_filter_ok. by split. Qed.

Lemma dispatch_answers_witness :
  let packet := Subscribe (mkSubscribe 3 [(str "a", 1); (str "b/#", 0)]) in
  let '(calls, go_on) := dispatch_packet 1 packet 100 in
  queued 100 calls = map Packet (answers packet) /\ sends calls = requests 1 100 packet /\
  (go_on = false <-> packet = Disconnect).
Proof.
  apply (dispatch_answers 1 (Subscribe (mkSubscribe 3 [(str "a", 1); (str "b/#", 0)])) 100).
  split_and!; [unfold u16; simpl; lia|done|].
  apply Forall_cons. split; [|apply list.Forall_singleton]; (split; [|by vm_compute]).
  - by apply sample_filter_ok.
  - by apply sample_filter_ok.
Defined.

(** On any broker that keeps the laws of [BrokerSend], the plain channel of the unit
    tests and the sharded broker alike, all the calls of a reader go through: nothing it
    does to the broker panics, whatever the bytes were. *)
Theorem reader_runs_on_any_broker {B} `{BrokerSendLaws B} (b : B) m id out reads :
  ready b -> bytes_ok (read_bytes reads) -> len (read_bytes reads) <= isize_max ->
  exists st calls b' m', reader_loop id out [] reads = Ok (st, calls) /\
    run_calls calls (b, m) = Ok (b', m') /\ ready b'.
Proof.
  intros Hready Hb Hl. destruct (reader_loop_ok id out reads []) as ([st calls] & Hr & _); [done|done|].
  destruct (run_calls_ready calls b m Hready) as (b' & m' & ? & ?). by exists st, calls, b', m'.
Qed.

Lemma reader_runs_on_any_broker_witness :
  exists st calls b' m', reader_loop 1 100 [] (map ReadOk sample_chunks ++ [ReadErr]) = Ok (st, calls) /\
    run_calls calls ([mkChannel [] true; mkChannel [] true], <[100 := new 128]> ∅) = Ok (b', m') /\ ready b'.
Proof. apply reader_runs_on_any_broker; [by vm_compute|by repeat constructor|by vm_compute]. Defined.

(** The writer: while the socket takes its writes, it writes the wire format of each
    event it pops, one frame for each in order, and leaves when the queue is closed and
    empty; a write that fails leaves a proper prefix of its frame and ends the loop. *)
Theorem writer_writes_frames events writes tail n more :
  Forall frame_ok events -> Forall (fun w => w = WriteOk) writes -> length events = length writes ->
  writer_loop (map Some events ++ [None]) writes = Ok (WriterExited, map event_wire events, []) /\
  (forall e, frame_ok e -> exists part, part `prefix_of` event_wire e /\
     (length part < length (event_wire e))%nat /\
     writer_loop (map Some events ++ Some e :: tail) (writes ++ WriteErr n :: more) =
       Ok (WriterExited, map event_wire events ++ [part], [CallWarn WriteError])).
Proof.
  intros He Hw Hl. split.
  - rewrite writer_loop_frames by (done || lia). simpl. by rewrite app_nil_r.
  - intros [p] [Hp Hlen]. exists (bytes_out (WriteErr n) (wire p)). cbn [event_wire bytes_out].
    split_and!; [apply prefix_take|rewrite length_take; unfold wire; cbn [length]; lia|].
    clear - He Hw Hl Hp Hlen. revert writes Hw Hl.
    induction He as [|[p'] events [Hp' Hlen'] He IH]; intros [|w writes] Hw Hl; simpl in Hl; try lia.
    + simpl. by rewrite encode_wire.
    + apply Forall_cons in Hw as [-> Hw]. simpl. rewrite encode_wire by done. simpl.
      by rewrite (IH writes) by (done || lia).
Qed.

Lemma writer_writes_frames_witness :
  let events := [Packet PingResp; Packet (PubAck (mkPubAck 9))] in
  writer_loop (map Some events ++ [None]) [WriteOk; WriteOk] = Ok (WriterExited, map event_wire events, []) /\
  (forall e, frame_ok e -> exists part, part `prefix_of` event_wire e /\
     (length part < length (event_wire e))%nat /\
     writer_loop (map Some events ++ Some e :: []) ([WriteOk; WriteOk] ++ WriteErr 1 :: []) =
       Ok (WriterExited, map event_wire events ++ [part], [CallWarn WriteError])).
Proof.
  apply writer_writes_frames; [|by repeat constructor|done].
  apply Forall_cons. split; [by vm_compute|]. apply list.Forall_singleton. by vm_compute.
Defined.

(** C27: the broker keeps data well-formed: when every message it gets is one that a reader
    may send, every packet it pushes can be encoded by the writer, and only concrete
    topic names are keys of its retained messages. *)
Theorem broker_pushes_encodable orders msgs :
  Forall valid_message msgs ->
  let '(st, outs) := run_broker orders msgs in
  Forall (Forall (fun call => frame_ok (snd call))) outs /\
  forall t p, retained st !! t = Some p -> is_wildcard_filter t = false /\ publish_ok p.
Proof.
  intros Hv. pose proof (run_broker_refines orders msgs) as Hr.
  destruct (run_broker orders msgs) as [st outs]. destruct Hr as (_ & [_ _ Hret] & Hlen & Hdel).
  assert (Hpub : forall h from p, h `prefix_of` msgs -> MsgPublish from p ∈ h -> valid_message (MsgPublish from p)).
  { intros h from p [h' ->] Hin. rewrite Forall_forall in Hv. apply Hv. set_solver. }
  split.
  - apply Forall_lookup. intros n out Hout.
    destruct (lookup_lt_is_Some_2 msgs n) as [msg Hmsg]; [rewrite <- Hlen; by eapply lookup_lt_Some|].
    destruct (Hdel n msg Hmsg) as (out' & Hout' & Hd). assert (out' = out) as -> by congruence.
    destruct msg as [id cid q|id f|id f|from p|id]; simpl in Hd; try (subst out; by apply Forall_nil).
    + destruct (connected (take n msgs) id) as [c|]; [|subst out; by apply Forall_nil].
      destruct Hd as (ps & _ & Hin & ->). apply Forall_fmap, Forall_forall. intros p Hp.
      apply Hin in Hp as [Hp _]. apply retained_was_published in Hp as (from & Hp & _).
      apply Hpub in Hp as [? ?]; [|apply prefix_take]. by apply valid_publish_frame.
    + destruct Hd as (ids & _ & _ & ->). apply Forall_forall. intros call Hc.
      apply list_elem_of_omap in Hc as (id & _ & Hc). destruct (connected (take n msgs) id); simplify_eq/=.
      destruct (Hpub msgs from p) as [? ?]; [done|by eapply list_elem_of_lookup_2|].
      by apply valid_publish_frame.
  - intros t p Hp. rewrite Hret in Hp. apply retained_was_published in Hp as (from & Hp & <-).
    apply Hpub in Hp as [Hp _]; [|done]. split; [|done]. by destruct Hp as (_ & _ & ? & _).
Qed.

Definition retained_sample : list BrokerMessage :=
  [MsgRegister 1 (str "x") 100; MsgPublish 2 (mkPublish (str "t") [104] 1 true (Some 9));
   MsgSubscribe 1 (str "#")].

Lemma broker_pushes_encodable_witness :
  let '(st, outs) := run_broker (fun _ => key_order) retained_sample in
  Forall (Forall (fun call => frame_ok (snd call))) outs /\
  forall t p, retained st !! t = Some p -> is_wildcard_filter t = false /\ publish_ok p.
Proof.
  apply (broker_pushes_encodable (fun _ => key_order) retained_sample).
  apply Forall_cons. split; [done|]. apply Forall_cons. split; [|apply list.Forall_singleton].
  - split; [|by vm_compute]. split_and!; try done; try (vm_compute; split; congruence).
    by repeat constructor.
  - by apply sample_filter_ok.
Defined.

(** [handle_connection] takes a connection id of its own, gives the connection a fresh
    queue of capacity 128, and returns when its reader and its writer have: a reader that is
    done waits for the writer.  When the socket cannot be cloned it does nothing to the
    broker. *)
Theorem handle_connection_result counter m fresh clone_ok reads pops writes :
  bytes_ok (read_bytes reads) -> len (read_bytes reads) <= isize_max ->
  exists m' st calls outs,
    handle_connection counter m fresh clone_ok reads pops writes =
      ((counter + 1) mod 2 ^ 64, Ok (m', st, calls, outs)) /\
    if clone_ok
    then m' = <[fresh := mkQueue [] 128 false]> m /\ st <> NotCloned /\
         (forall msg, CallSend msg ∈ calls -> sender msg = counter) /\
         (st = Finished -> fst (fst (writer_thread pops writes)) = WriterExited) /\
         (st = InJoin -> fst (fst (writer_thread pops writes)) = Writing /\ CallClose fresh ∈ calls)
    else m' = m /\ st = NotCloned /\ calls = [CallWarn CloneError] /\ outs = [].
Proof.
  intros Hb Hl. unfold handle_connection, next_connection_id. destruct clone_ok; simpl; [|by eexists _, _, _, _].
  destruct (reader_loop_ok counter fresh reads []) as ([st calls] & -> & Hown & Hend); [done|done|].
  assert (Hw : Forall (fun c => forall msg, c = CallSend msg -> sender msg = counter) (snd (writer_thread pops writes))).
  { unfold writer_thread. destruct (writer_loop pops writes) as [r| | |] eqn:Hr; try by apply Forall_nil.
    revert writes r Hr. induction pops as [|[[p]|] pops IH]; intros writes r Hr; simpl in Hr;
      try (injection Hr as <-; apply Forall_nil; done).
    destruct (encode p); simplify_eq/=. destruct writes as [|[|k] writes]; simplify_eq/=;
      [apply Forall_nil; done| |by apply list.Forall_singleton].
    destruct (writer_loop pops writes) as [[[? ?] ?]| | |] eqn:Hw; simplify_eq/=. exact (IH writes _ Hw). }
  destruct (writer_thread pops writes) as [[ws outs] wcalls]. cbn [fst snd mbind outcome_bind] in *.
  eexists _, _, _, _. split; [done|]. rewrite Forall_forall in Hown, Hw.
  split_and!; [done|by destruct st, ws| | |].
  - intros msg [Hm|Hm]%elem_of_app; [by apply Hown in Hm as [? _]|by apply (Hw _ Hm)].
  - by destruct st, ws.
  - destruct st, ws; try done. intros _. split; [done|]. apply elem_of_app. left. cbn in Hend.
    destruct Hend as (cs & -> & _). apply elem_of_app. right. unfold teardown. set_solver.
Qed.

Lemma handle_connection_result_witness :
  exists m' st calls outs,
    handle_connection 7 ∅ 100 true (map ReadOk sample_chunks) [Some (Packet PingResp); None] [WriteOk] =
      ((7 + 1) mod 2 ^ 64, Ok (m', st, calls, outs)) /\
    (m' = <[100 := mkQueue [] 128 false]> ∅ /\ st <> NotCloned /\
     (forall msg, CallSend msg ∈ calls -> sender msg = 7) /\
     (st = Finished -> fst (fst (writer_thread [Some (Packet PingResp); None] [WriteOk])) = WriterExited) /\
     (st = InJoin -> fst (fst (writer_thread [Some (Packet PingResp); None] [WriteOk])) = Writing /\ CallClose 100 ∈ calls)).
Proof. apply (handle_connection_result 7 ∅ 100 true); [by repeat constructor|by vm_compute]. Defined.
