(* ===== verification/ClientProps.v ===== *)
(** * Properties of the client and of the two command lines
    (src/bin/blitzclient.rs, src/main.rs) *)

From S2P Require Import Prelude Utf8 Numbers Errors Packets RemainingLength Topics.
From S2P Require Import Wire Codec CodecSafety CodecRoundtrip Queue Broker Sharded Connection ConnectionSpec.
From S2P Require Import Socket ClientSpec ClientFlows ClientFlowsSpec.
From S2P Require Client Main.

(** ** Interoperability *)

(** C36: the broker decodes what the client encodes, to the packet that was meant and
    consuming exactly its bytes: CONNECT, SUBSCRIBE and PUBLISH at QoS 0 and 1. *)
Theorem broker_decodes_client cid keep f id t data q pid rest :
  rstring_ok cid -> u16 keep -> filter_ok f -> u16 id ->
  publish_ok (mkPublish t data q false pid) -> len t + len data <= 268435451 ->
  (exists bs, Client.encode_connect (E:=unit) cid keep = Ok bs /\
     decode (bs ++ rest) = Ok (Connect (mkConnect (str "MQTT") 4 true keep cid), len bs)) /\
  (exists bs, Client.encode_subscribe (E:=unit) id f 0 = Ok bs /\
     decode (bs ++ rest) = Ok (Subscribe (mkSubscribe id [(f, 0)]), len bs)) /\
  (exists bs, Client.encode_publish (E:=unit) t data q pid = Ok bs /\
     decode (bs ++ rest) = Ok (Publish (mkPublish t data q false pid), len bs)) /\
  decode (Client.encode_disconnect ++ rest) = Ok (Disconnect, 2).
Proof.
  intros Hcid Hk Hf Hid Hp Hl.
  assert (Hread : forall p, decodable p -> remaining_length p <= 268435455 ->
    exists bs, encode (E:=unit) p = Ok bs /\ decode (bs ++ rest) = Ok (p, len bs)).
  { intros p Hdec Hlen. exists (wire p). split; [by apply encode_decodable|by apply decode_wire]. }
  pose proof Hp as ([_ Ht] & _ & _ & _ & Hpid). pose proof Hf as ([_ Hfl] & _).
  rewrite client_encode_connect, client_encode_subscribe, client_encode_publish by done.
  split_and!.
  - apply Hread; [by split_and!|]. cbn. change (len (str "MQTT")) with 4. destruct Hcid. lia.
  - apply Hread; [|cbn; lia]. split_and!; [apply Hid|done|]. apply list.Forall_singleton. by split.
  - apply Hread; [done|]. cbn. destruct pid; lia.
  - apply (decode_wire Disconnect rest); [done|by vm_compute].
Qed.

Lemma sample_filter f :
  valid_utf8 f = true -> bool_decide (len f <= 65535) = true -> validate_topic_filter f = Ok tt -> filter_ok f.
Proof. intros ? ?%bool_decide_eq_true Hv%validate_topic_filter_ok. by split. Qed.

Lemma sample_message_ok : publish_ok (mkPublish (str "t") [104] 1 false (Some 1)).
Proof. split_and!; try done; try (vm_compute; split; congruence). by repeat constructor. Qed.

Lemma broker_decodes_client_witness :
  (exists bs, Client.encode_connect (E:=unit) (str "c") 60 = Ok bs /\
     decode (bs ++ [192]) = Ok (Connect (mkConnect (str "MQTT") 4 true 60 (str "c")), len bs)) /\
  (exists bs, Client.encode_subscribe (E:=unit) 1 (str "a/#") 0 = Ok bs /\
     decode (bs ++ [192]) = Ok (Subscribe (mkSubscribe 1 [(str "a/#", 0)]), len bs)) /\
  (exists bs, Client.encode_publish (E:=unit) (str "t") [104] 1 (Some 1) = Ok bs /\
     decode (bs ++ [192]) = Ok (Publish (mkPublish (str "t") [104] 1 false (Some 1)), len bs)) /\
  decode (Client.encode_disconnect ++ [192]) = Ok (Disconnect, 2).
Proof.
  apply broker_decodes_client; [split; by vm_compute|unfold u16; lia|by apply sample_filter|unfold u16; lia|
    exact sample_message_ok|by vm_compute].
Defined.

(** C37: the client reads what the broker writes: [read_packet] takes exactly one packet off
    the stream, and the client's decoders give back the fields of the broker's CONNACK,
    SUBACK, PUBACK and PUBLISH. *)
Theorem client_reads_broker p rest :
  match p with
  | ConnAck _ => True
  | SubAck a => u16 (suback_packet_id a) /\ return_codes a <> [] /\ len (return_codes a) <= 268435453
  | PubAck a => u16 (puback_packet_id a)
  | Publish m => publish_ok m /\ remaining_length p <= 268435455
  | _ => False
  end ->
  exists bs body, encode (E:=unit) p = Ok bs /\
    Client.read_packet (bs ++ rest) = Ok ((wire_header p / 16, wire_header p mod 16, body), rest) /\
    match p with
    | ConnAck a => Client.decode_connack_body body = Ok (session_present a, ConnectReturnCode_u8 (return_code a))
    | SubAck a => Client.decode_suback_body body = Ok (suback_packet_id a, return_codes a)
    | PubAck a => Client.decode_puback_body body = Ok (puback_packet_id a)
    | Publish m => Client.decode_publish_body (wire_header p mod 16) body =
                   Ok (topic m, payload m, qos m, pub_packet_id m)
    | _ => False
    end.
Proof.
  assert (Hread : encodable p -> 0 <= wire_header p < 256 -> remaining_length p <= 268435455 ->
    encode (E:=unit) p = Ok (wire p) /\ Client.read_packet (wire p ++ rest) =
      Ok ((wire_header p / 16, wire_header p mod 16, wire_body p), rest)).
  { intros He Hh Hl. split; [apply encode_wire; [done|unfold u32_max; lia]|by apply read_packet_wire]. }
  intros Hp. exists (wire p), (wire_body p). destruct p as [|a| |a| | |m|a| | |]; try done.
  - destruct Hread as [-> ->]; [done..|]. split_and!; [done..|]. apply client_decode_connack.
  - destruct Hp as (? & ? & ?). destruct Hread as [-> ->]; [done|done|cbn; lia|].
    split_and!; [done..|]. by apply client_decode_suback.
  - destruct Hp as [Hm Hl]. pose proof (publish_header m Hm) as [? _].
    destruct Hread as [-> ->]; [by apply (decodable_encodable (Publish m))|done|done|].
    split_and!; [done..|]. by apply client_decode_publish.
  - destruct Hread as [-> ->]; [done|done|done|]. split_and!; [done..|]. by apply client_decode_puback.
Qed.

Lemma client_reads_broker_witness :
  exists bs body, encode (E:=unit) (Publish (mkPublish (str "t") [104] 1 false (Some 1))) = Ok bs /\
    Client.read_packet (bs ++ [1; 2]) =
      Ok ((wire_header (Publish (mkPublish (str "t") [104] 1 false (Some 1))) / 16,
           wire_header (Publish (mkPublish (str "t") [104] 1 false (Some 1))) mod 16, body), [1; 2]) /\
    Client.decode_publish_body (wire_header (Publish (mkPublish (str "t") [104] 1 false (Some 1))) mod 16) body =
      Ok (str "t", [104], 1, Some 1).
Proof.
  apply (client_reads_broker (Publish (mkPublish (str "t") [104] 1 false (Some 1)))).
  split; [exact sample_message_ok|by vm_compute].
Defined.

(** C38: the client never panics and never loops on what it receives: [read_packet] and
    the four body decoders return on all bytes; a packet that is read takes at least two
    bytes off the stream; and the receive loop of [run_sub] ends, when the stream does. *)
Theorem client_survives_any_bytes stream flags body :
  bytes_ok stream -> bytes_ok body -> len body <= 268435455 ->
  WP (Client.read_packet stream) {{ r, len (snd r) + 2 <= len stream | e, True }} /\
  WP (Client.decode_publish_body flags body) {{ _, True | e, True }} /\
  WP (Client.decode_connack_body body) {{ _, True | e, True }} /\
  WP (Client.decode_suback_body body) {{ _, True | e, True }} /\
  WP (Client.decode_puback_body body) {{ _, True | e, True }} /\
  exists events e, receive_loop stream = Ok (events ++ [ConnectionClosed e]).
Proof.
  intros Hs Hb Hl. split_and!.
  - eapply wp_mono; [by apply read_packet_wp| |done]. intros [[[pt fl] b] rest]. simpl. by intros (_ & _ & _ & _ & ?).
  - by apply client_decode_publish_wp.
  - apply client_decode_connack_wp.
  - apply client_decode_suback_wp.
  - apply client_decode_puback_wp.
  - by apply receive_loop_ok.
Qed.

Lemma client_survives_any_bytes_witness :
  WP (Client.read_packet [48; 255; 255; 255; 255]) {{ r, len (snd r) + 2 <= len [48; 255; 255; 255; 255] | e, True }} /\
  WP (Client.decode_publish_body 2 [0; 9]) {{ _, True | e, True }} /\
  WP (Client.decode_connack_body [0; 9]) {{ _, True | e, True }} /\
  WP (Client.decode_suback_body [0; 9]) {{ _, True | e, True }} /\
  WP (Client.decode_puback_body [0; 9]) {{ _, True | e, True }} /\
  exists events e, receive_loop [48; 255; 255; 255; 255] = Ok (events ++ [ConnectionClosed e]).
Proof. apply client_survives_any_bytes; [by repeat constructor|by repeat constructor|by vm_compute]. Defined.

(** ** Sessions *)

(** C21: a publishing session from end to end.  [run_pub] writes CONNECT, PUBLISH and
    DISCONNECT; the broker's reader, however these bytes arrive, registers the client,
    forwards the publish and disconnects it; the packets it queues in answer are, on the
    wire, exactly the bytes that [run_pub] waits for, CONNACK and at QoS 1 the PUBACK
    with its identifier; and given those [run_pub] succeeds. *)
Theorem publish_session process_id t data q id out chunks :
  pid_ok process_id -> q = 0 \/ q = 1 ->
  publish_ok (publish_packet t data q) -> remaining_length (Publish (publish_packet t data q)) <= 268435455 ->
  Forall (fun chunk => chunk <> []) chunks -> bytes_ok (concat chunks) -> len (concat chunks) <= isize_max ->
  concat chunks = wire (connect_packet process_id) ++ wire (Publish (publish_packet t data q)) ++ wire Disconnect ->
  exists calls answer,
    reader_loop id out [] (map ReadOk chunks) = Ok (ReaderExited, calls) /\
    sends calls = [MsgRegister id (client_id_of process_id) out; MsgPublish id (publish_packet t data q);
                   MsgDisconnect id] /\
    answer = concat (map event_wire (pushed_events calls)) /\
    run_pub (Some (mkSocket answer [true; true; true] [])) process_id t data q =
      Ok (mkSocket [] [] (concat chunks)).
Proof.
  intros Hpid Hq Hp Hl Hne Hb Hlen Hc.
  pose proof (pub_session_reader id out process_id _ chunks Hpid Hp Hl Hne Hb Hlen Hc) as Hr.
  destruct (pub_session_calls id out process_id t data q Hq) as [Hs Ha].
  eexists _, (pub_answers q). split_and!; [exact Hr|exact Hs|by rewrite Ha|].
  rewrite Hc. rewrite <- (app_nil_r (pub_answers q)). by apply run_pub_ok.
Qed.

Definition session_chunks : list bytes :=
  [wire (connect_packet 42); wire (Publish (publish_packet (str "t") [104] 1)) ++ wire Disconnect].

Lemma publish_session_witness :
  exists calls answer,
    reader_loop 1 100 [] (map ReadOk session_chunks) = Ok (ReaderExited, calls) /\
    sends calls = [MsgRegister 1 (client_id_of 42) 100; MsgPublish 1 (publish_packet (str "t") [104] 1);
                   MsgDisconnect 1] /\
    answer = concat (map event_wire (pushed_events calls)) /\
    run_pub (Some (mkSocket answer [true; true; true] [])) 42 (str "t") [104] 1 =
      Ok (mkSocket [] [] (concat session_chunks)).
Proof.
  apply publish_session; [by vm_compute|by right|exact sample_message_ok|by vm_compute|by repeat constructor|
    vm_compute; by repeat constructor|by vm_compute|reflexivity].
Defined.

(** C35: a subscribing session: on the broker's CONNACK, its SUBACK and any sequence of
    messages, [run_sub] writes CONNECT and SUBSCRIBE and prints every message, in order,
    as its topic and its payload, until the connection closes. *)
Theorem subscribe_session process_id f ps :
  pid_ok process_id -> filter_ok f ->
  Forall (fun p => publish_ok p /\ remaining_length (Publish p) <= 268435455) ps ->
  run_sub (Some (mkSocket
      (wire (ConnAck (mkConnAck false Accepted)) ++ wire (SubAck (mkSubAck 1 [0])) ++
       concat (map (fun p => wire (Publish p)) ps)) [true; true] [])) process_id f =
  Ok (wire (connect_packet process_id) ++ wire (Subscribe (mkSubscribe 1 [(f, 0)])),
      map (fun p => Printed (topic p ++ str ": " ++ from_utf8_lossy (payload p))) ps ++
      [ConnectionClosed Client.ReadHeader]).
Proof. intros. by apply run_sub_ok. Qed.

Lemma subscribe_session_witness :
  run_sub (Some (mkSocket
      (wire (ConnAck (mkConnAck false Accepted)) ++ wire (SubAck (mkSubAck 1 [0])) ++
       concat (map (fun p => wire (Publish p)) [mkPublish (str "t") [104] 1 false (Some 1)])) [true; true] [])) 42 (str "#") =
  Ok (wire (connect_packet 42) ++ wire (Subscribe (mkSubscribe 1 [(str "#", 0)])),
      map (fun p => Printed (topic p ++ str ": " ++ from_utf8_lossy (payload p))) [mkPublish (str "t") [104] 1 false (Some 1)] ++
      [ConnectionClosed Client.ReadHeader]).
Proof.
  apply subscribe_session; [by vm_compute|by apply sample_filter|].
  apply list.Forall_singleton. split; [exact sample_message_ok|by vm_compute].
Defined.

(** ** Command lines *)

(** C39: the broker's command line: whatever the arguments, [parse_args] gives what reading
    them as a list of flags and values gives; the port is a 16-bit number and there is at
    least one shard, so that the assertion of [spawn_sharded_broker] holds.  [main] then
    reports its warnings, binds, and handles every connection accepted, a failed accept
    notwithstanding; or it exits with status 1 when it cannot bind.  It panics exactly
    when the senders of the shards asked for are more than a [Vec] can hold, which
    [parse_args] does not exclude. *)
Theorem broker_args sender_size args bind_ok incoming :
  len args <= isize_max ->
  let '(cfg, warns) := Main.args_spec (tail args) Main.default_config in
  let n := Main.num_shards cfg in
  Main.parse_args args = Ok (cfg, warns) /\
  0 <= Main.port cfg <= 65535 /\ 1 <= n <= usize_max /\
  Main.main sender_size args bind_ok incoming =
    if n * sender_size <=? isize_max then
      Ok (map Main.ArgWarning warns ++ Main.ShardsActive n ::
          if bind_ok then Main.Listening :: map Main.accept_event incoming
          else [Main.BindFailed; Main.Exit 1])
    else Panic.
Proof.
  intros Hl. pose proof (Main.parse_args_eq args Hl) as Hp.
  pose proof (Main.args_spec_ok (tail args) Main.default_config Main.default_config_ok) as Hc.
  unfold Main.main. destruct (Main.args_spec (tail args) Main.default_config) as [cfg warns].
  destruct Hc as [Hport Hshards]. cbn [fst] in *. split_and!; try done; try apply Hport; try apply Hshards.
  rewrite Hp. cbn [mbind outcome_bind].
  destruct (Z.leb_spec (Main.num_shards cfg * sender_size) isize_max) as [Hsz|Hsz].
  - rewrite spawn_ok by lia. cbn [mbind outcome_bind]. destruct bind_ok; simpl; by rewrite <- app_assoc.
  - unfold spawn_sharded_broker. destruct (Z.leb_spec 1 (Main.num_shards cfg)); [|lia].
    by rewrite (proj2 (Z.ltb_lt _ _) Hsz).
Qed.

Lemma broker_args_witness :
  let '(cfg, warns) :=
    Main.args_spec (map str ["--shards"; "18446744073709551615"; "--port"; "99999"]) Main.default_config in
  let n := Main.num_shards cfg in
  Main.parse_args (map str ["b"; "--shards"; "18446744073709551615"; "--port"; "99999"]) = Ok (cfg, warns) /\
  0 <= Main.port cfg <= 65535 /\ 1 <= n <= usize_max /\
  Main.main 16 (map str ["b"; "--shards"; "18446744073709551615"; "--port"; "99999"]) true [Some 1; None] =
    if n * 16 <=? isize_max then
      Ok (map Main.ArgWarning warns ++ Main.ShardsActive n ::
          if true then Main.Listening :: map Main.accept_event [Some 1; None]
          else [Main.BindFailed; Main.Exit 1])
    else Panic.
Proof.
  apply (broker_args 16 (map str ["b"; "--shards"; "18446744073709551615"; "--port"; "99999"]) true [Some 1; None]).
  by vm_compute.
Defined.

(** The client's command line: whatever the arguments, [parse_args] returns: a
    configuration whose port is a 16-bit number and whose QoS is 0 or 1, or an exit; it
    is what reading the arguments as a list of flags and values gives; and the usage line
    for a publish is understood. *)
Theorem client_args args h p t m q :
  len args <= isize_max -> 0 <= p <= 65535 -> 0 <= q <= 1 ->
  WP (parse_args args)
    {{ c, 0 <= cli_port c <= 65535 /\ match subcommand c with Pub _ _ q => 0 <= q <= 1 | Sub _ => True end
     | e, True }} /\
  parse_args args = (st ← cli_spec (tail args) init_cli; finish_cli st) /\
  parse_args [str "blitzclient"; str "--host"; h; str "--port"; display p; str "pub";
              str "--topic"; t; str "--message"; m; str "--qos"; display q] =
    Ok (mkCli h p (Pub t m q)).
Proof. intros. split_and!; [by apply parse_args_wp|by apply parse_args_spec|by apply parse_args_pub]. Qed.

Lemma client_args_witness :
  WP (parse_args (map str ["blitzclient"; "--qos"; "2"]))
    {{ c, 0 <= cli_port c <= 65535 /\ match subcommand c with Pub _ _ q => 0 <= q <= 1 | Sub _ => True end
     | e, True }} /\
  parse_args (map str ["blitzclient"; "--qos"; "2"]) =
    (st ← cli_spec (tail (map str ["blitzclient"; "--qos"; "2"])) init_cli; finish_cli st) /\
  parse_args [str "blitzclient"; str "--host"; str "localhost"; str "--port"; display 1883; str "pub";
              str "--topic"; str "t"; str "--message"; str "m"; str "--qos"; display 1] =
    Ok (mkCli (str "localhost") 1883 (Pub (str "t") (str "m") 1)).
Proof.
  apply (client_args (map str ["blitzclient"; "--qos"; "2"]) (str "localhost") 1883 (str "t") (str "m") 1);
    [by vm_compute|lia|lia].
Defined.
