(* ===== verification/BenchProps.v ===== *)
(** * Properties of the benchmark (src/bin/shard_benchmark.rs) *)

From S2P Require Import Prelude Utf8 Numbers Errors Packets RemainingLength Topics.
From S2P Require Import Wire Codec CodecSafety CodecRoundtrip Queue Broker Connection Socket ClientSpec.
From S2P Require Import ClientFlowsSpec Bench BenchSpec BenchChannel.
From S2P Require Client.

(** C17: the benchmark's backpressure works.  With a batch size between 1 and the capacity of
    a client's queue, under every interleaving of a channel's publisher and subscriber
    and the broker between them: what was published is received, on its way or queued, in
    order, and never more than a batch of it is on its way; the broker never drops a
    message; every schedule ends, and only when both threads have finished and the
    subscriber has received every message in order. *)
Theorem bench_backpressure batch msgs ch :
  1 <= batch <= 128 -> 0 <= msgs -> channel_reachable batch msgs ch ->
  got ch ++ arriving ch ++ items (outbound ch) ++ in_transit ch = seqZ 0 (published ch) /\
  published ch - len (got ch) <= batch /\
  (forall m w, in_transit ch = m :: w -> snd (push (outbound ch) m) = false) /\
  Acc (fun ch2 ch1 => exists l, channel_step batch msgs l ch1 = Some ch2) ch /\
  ((exists l ch', channel_step batch msgs l ch = Some ch') \/ completed msgs ch).
Proof.
  intros Hb Hm Hr. apply channel_reachable_ok in Hr; [|done..].
  pose proof (channel_counts batch msgs Hb ch Hr) as (_ & Hd & _).
  split_and!; [by destruct Hr|done| |by apply channel_terminates|by apply channel_progress].
  intros m w Hw. by rewrite (forward_keeps batch msgs Hb ch m w).
Qed.

(** A channel of three messages in batches of two, after the first batch. *)
Definition sample_channel_labels : list channel_label :=
  [SendPublish; Forward; SendPublish; WriteOut; Forward; ReadPacket; WriteOut; ReadPacket; SendSignal; RecvSignal;
   SendPublish].
Definition sample_channel : channel :=
  default (start_channel 2 3) (channel_steps 2 3 sample_channel_labels (start_channel 2 3)).

Lemma channel_steps_reachable batch msgs ls ch ch' :
  channel_reachable batch msgs ch -> channel_steps batch msgs ls ch = Some ch' -> channel_reachable batch msgs ch'.
Proof.
  revert ch. induction ls as [|l ls IH]; intros ch Hch Hs; simpl in Hs; [by simplify_eq|].
  destruct (channel_step batch msgs l ch) as [ch1|] eqn:Hl; simpl in Hs; [|done].
  eapply IH; [|done]. by eapply channel_next.
Qed.

Lemma sample_channel_reachable : channel_reachable 2 3 sample_channel.
Proof.
  eapply (channel_steps_reachable 2 3 sample_channel_labels); [apply channel_start|]. by vm_compute.
Qed.

Lemma bench_backpressure_witness :
  got sample_channel ++ arriving sample_channel ++ items (outbound sample_channel) ++ in_transit sample_channel =
    seqZ 0 (published sample_channel) /\
  published sample_channel - len (got sample_channel) <= 2 /\
  (forall m w, in_transit sample_channel = m :: w -> snd (push (outbound sample_channel) m) = false) /\
  Acc (fun ch2 ch1 => exists l, channel_step 2 3 l ch1 = Some ch2) sample_channel /\
  ((exists l ch', channel_step 2 3 l sample_channel = Some ch') \/ completed 3 sample_channel).
Proof. apply bench_backpressure; [lia|lia|exact sample_channel_reachable]. Defined.

(** C32: the two sessions of a channel.  Against a broker that answers as [Connection] does
    and delivers [msgs] well-formed messages, the subscriber writes CONNECT, SUBSCRIBE and,
    when it has read them all, DISCONNECT; the publisher writes CONNECT, one PUBLISH per
    message and DISCONNECT; each is the broker's wire format of that packet; and the
    subscriber signals as often as the publisher waits, once per batch. *)
Theorem bench_sessions c batch ps rest ws fuel :
  0 <= c <= usize_max -> 1 <= batch -> len ps <= usize_max -> Forall sendable ps -> (length ps < fuel)%nat ->
  run_subscriber fuel (Some (mkSocket (subscriber_answers ps) (true :: true :: true :: ws) [])) c batch (len ps) =
    Ok (mkSocket [] ws (wire (bench_connect_packet (sub_client_id c)) ++ wire (bench_subscribe_packet c) ++
                        wire Disconnect), batches batch (len ps)) /\
  run_publisher fuel
    (Some (mkSocket (wire connack_packet ++ rest) (true :: replicate (length ps) true ++ true :: ws) []))
    c batch (len ps) =
    Ok (mkSocket rest ws
          (wire (bench_connect_packet (pub_client_id c)) ++
           concat (replicate (length ps) (wire (Publish (bench_publish_packet c)))) ++ wire Disconnect),
        batches batch (len ps)).
Proof. intros. split; [by apply run_subscriber_ok|by apply run_publisher_ok]. Qed.

Definition sample_messages : list PublishPacket := replicate 3 (bench_publish_packet 7).

Lemma bench_sessions_witness :
  run_subscriber 4 (Some (mkSocket (subscriber_answers sample_messages) [true; true; true] [])) 7 2 3 =
    Ok (mkSocket [] [] (wire (bench_connect_packet (sub_client_id 7)) ++ wire (bench_subscribe_packet 7) ++
                        wire Disconnect), 2) /\
  run_publisher 4 (Some (mkSocket (wire connack_packet ++ [9]) [true; true; true; true; true] [])) 7 2 3 =
    Ok (mkSocket [9] []
          (wire (bench_connect_packet (pub_client_id 7)) ++
           concat (replicate 3 (wire (Publish (bench_publish_packet 7)))) ++ wire Disconnect), 2).
Proof.
  apply (bench_sessions 7 2 sample_messages [9] [] 4); [done|done|done| |by apply Nat.ltb_lt].
  apply Forall_replicate. by apply bench_publish_ok.
Defined.

(** What the subscribers of [n] channels have received. *)
Definition received_in_all (n : Z) (chans : Z -> channel) : Z :=
  foldr Z.add 0 (map (fun c => len (got (chans c))) (seqZ 0 n)).

Lemma len_seqZ m : 0 <= m -> len (seqZ 0 m) = m.
Proof. intros. unfold len. rewrite length_seqZ. lia. Qed.

Lemma received_completed n msgs chans :
  0 <= n -> 0 <= msgs -> (forall c, 0 <= c < n -> completed msgs (chans c)) -> received_in_all n chans = n * msgs.
Proof.
  intros Hn Hm Hall. unfold received_in_all.
  assert (Hgot : forall cs, (forall c, c ∈ cs -> 0 <= c < n) ->
    foldr Z.add 0 (map (fun c => len (got (chans c))) cs) = len cs * msgs).
  { induction cs as [|c cs IH]; intros Hcs; [done|]. cbn [map foldr]. rewrite IH by (intros; apply Hcs; by right).
    destruct (Hall c) as (_ & _ & ->); [apply Hcs; left|]. rewrite len_cons, len_seqZ by done. ring. }
  rewrite Hgot; [by rewrite len_seqZ|]. intros c Hc%elem_of_seqZ. lia.
Qed.

Lemma all_done n chans :
  (forall c, 0 <= c < n -> channel_done (chans c) = true) /\
    forallb (fun c => channel_done (chans c)) (seqZ 0 n) = true \/
  (exists c, 0 <= c < n /\ channel_done (chans c) = false) /\
    forallb (fun c => channel_done (chans c)) (seqZ 0 n) = false.
Proof.
  destruct (forallb _ _) eqn:Hd; [left|right]; split; try done.
  - rewrite forallb_forall in Hd. intros c Hc. apply Hd, list_elem_of_In, elem_of_seqZ. lia.
  - apply not_true_iff_false in Hd. rewrite forallb_forall in Hd.
    destruct (decide (Exists (fun c => channel_done (chans c) = false) (seqZ 0 n))) as [(c & Hc%elem_of_seqZ & Hf)%Exists_exists|Hne].
    + exists c. split; [lia|done].
    + destruct Hd. intros c Hc%list_elem_of_In. destruct (channel_done (chans c)) eqn:Hf; [done|].
      destruct Hne. apply Exists_exists. by exists c.
Qed.

(** The numbers that [main] computes first. *)
Lemma arith_usize_ok {E} checks x :
  0 <= x -> checks && (usize_max <? x) = false -> arith_usize (E:=E) checks x = Ok (x mod 2 ^ 64).
Proof.
  intros Hx Hc. unfold arith_usize. destruct (Z.leb_spec x usize_max) as [Hl|Hl].
  - rewrite Z.mod_small; [done|]. unfold usize_max in Hl. lia.
  - destruct checks; [|done]. cbn in Hc. lia.
Qed.

Lemma main_overflows {A} n msgs (k : Z -> Z -> outcome unit A) :
  (usize_max <? n * msgs) || (usize_max <? n * 2 + 1) = true ->
  (total ← arith_usize true (n * msgs); twice ← arith_usize true (n * 2); parties ← arith_usize true (twice + 1);
   k total parties) = Panic.
Proof.
  intros Hov. unfold arith_usize. destruct (Z.leb_spec (n * msgs) usize_max); [|done]. cbn [mbind outcome_bind].
  destruct (Z.leb_spec (n * 2) usize_max); [|done]. cbn [mbind outcome_bind].
  destruct (Z.leb_spec (n * 2 + 1) usize_max); [|done]. lia.
Qed.

Lemma main_products {A} checks n msgs (k : Z -> Z -> outcome unit A) :
  0 <= n -> 0 <= msgs -> n * 2 + 1 <= usize_max -> checks && (usize_max <? n * msgs) = false ->
  (total ← arith_usize checks (n * msgs); twice ← arith_usize checks (n * 2); parties ← arith_usize checks (twice + 1);
   k total parties) = k ((n * msgs) mod 2 ^ 64) (n * 2 + 1).
Proof.
  intros Hn Hm Hp Hc. rewrite (arith_usize_ok checks (n * msgs)) by (done || lia). cbn [mbind outcome_bind].
  assert (Hs : forall x, x <= usize_max -> arith_usize (E:=unit) checks x = Ok x)
    by (intros x Hx; unfold arith_usize; by destruct (Z.leb_spec x usize_max); [|lia]).
  rewrite Hs by lia. cbn [mbind outcome_bind]. rewrite Hs by lia. done.
Qed.

(** [main] after the barrier. *)
Lemma main_joins n batch msgs chans :
  0 <= n -> 0 <= msgs -> (forall c, 0 <= c < n -> channel_reachable batch msgs (chans c)) ->
  let result : outcome unit main_result :=
    if forallb (fun c => channel_done (chans c)) (seqZ 0 n) then Ok (Measured ((n * msgs) mod 2 ^ 64) 0) else Ok Joining in
  ((forall c, 0 <= c < n -> channel_done (chans c) = true) /\ result = Ok (Measured ((n * msgs) mod 2 ^ 64) 0) \/
   (exists c, 0 <= c < n /\ channel_done (chans c) = false) /\ result = Ok Joining) /\
  (1 <= batch <= 128 ->
     (result = Ok Joining -> exists c l ch', 0 <= c < n /\ channel_step batch msgs l (chans c) = Some ch') /\
     (forall c, 0 <= c < n -> Acc (fun ch2 ch1 => exists l, channel_step batch msgs l ch1 = Some ch2) (chans c)) /\
     (forall total errors, result = Ok (Measured total errors) -> total = received_in_all n chans mod 2 ^ 64)) /\
  (batch = 0 -> 0 < msgs -> 0 < n -> result = Ok Joining) /\
  (128 < batch -> 128 < msgs -> exists ch, channel_reachable batch msgs ch /\
     (forall l, channel_step batch msgs l ch = None) /\
     forall c, 0 <= c < n -> chans c = ch -> result = Ok Joining).
Proof.
  intros Hn Hm Hreach result. subst result.
  assert (Hnot : forall c, 0 <= c < n -> channel_done (chans c) = false ->
    forallb (fun c => channel_done (chans c)) (seqZ 0 n) = false).
  { intros c Hc Hf. destruct (all_done n chans) as [[Hall _]|[_ ->]]; [|done]. by rewrite Hall in Hf. }
  split; [destruct (all_done n chans) as [[? ->]|[? ->]]; [by left|by right]|]. split_and!.
  - intros Hb. assert (Hok : forall c, 0 <= c < n -> channel_ok batch msgs (chans c)).
    { intros c Hc. apply channel_reachable_ok; [done|done|by apply Hreach]. }
    split_and!.
    + intros Hj. destruct (all_done n chans) as [[_ Hd]|[(c & Hc & Hf) _]]; [by rewrite Hd in Hj|].
      destruct (channel_progress batch msgs Hb (chans c) (Hok c Hc)) as [(l & ch' & Hl)|(Hp & Hs & _)].
      * by exists c, l, ch'.
      * unfold channel_done in Hf. by rewrite Hp, Hs in Hf.
    + intros c Hc. by apply (channel_terminates batch msgs), Hok.
    + intros total errors. destruct (all_done n chans) as [[Hd ->]|[_ ->]]; [|done]. intros Heq. simplify_eq.
      rewrite (received_completed n msgs); [done|done|done|]. intros c Hc.
      apply (done_completed batch msgs Hb); auto.
  - intros -> Hpos Hn'. rewrite (Hnot 0); [done|lia|]. destruct (zero_batch msgs (chans 0)) as (Hp & _); [done|apply Hreach; lia|].
    unfold channel_done. by rewrite Hp.
  - intros Hb Hm'. destruct (large_batch_hangs batch msgs) as (ch & Hr & Hd & _ & _ & Hs); [done|done|].
    exists ch. split_and!; [done|done|]. intros c Hc <-. by rewrite (Hnot c).
Qed.

(** C33: the benchmark from its arguments to its report.  A flag without a value or with
    one that is not a number panics; so does a product that overflows, when the profile
    checks it.  When a single connection is not set up, the main thread waits at the barrier
    for ever, so that the report's warning about connection errors can never be printed.
    When all are, it reports no errors, exactly when the threads of all channels have
    returned, and waits for them until then.  With a batch between 1 and 128 they always do:
    while [main] waits some channel can go on, no channel can go on for ever, and the total in
    the report is what the subscribers have received, modulo 2^64 where the release profile
    wraps.  With a batch of 0 it never reports; and with more than 128 messages in batches of
    more than 128 a channel can come to a state in which nothing moves any more. *)
Theorem bench_main checks args sockets chans :
  len args <= isize_max ->
  match args_spec (tail args) default_config with
  | Ok cfg =>
      let n := channels cfg in
      let batch := batch_size cfg in
      let msgs := messages_per_channel cfg in
      let result := main checks args sockets chans in
      if checks && ((usize_max <? n * msgs) || (usize_max <? n * 2 + 1)) then result = Panic
      else n * 2 + 1 <= usize_max -> (forall c, 0 <= c < n -> channel_reachable batch msgs (chans c)) ->
        (forall c, 0 <= c < n -> setup_fails sockets c ->
           exists waiting, result = Ok (BlockedAtBarrier waiting) /\ 1 <= waiting < n * 2 + 1) /\
        ((forall c, 0 <= c < n -> ~ setup_fails sockets c) ->
           ((forall c, 0 <= c < n -> channel_done (chans c) = true) /\ result = Ok (Measured ((n * msgs) mod 2 ^ 64) 0) \/
            (exists c, 0 <= c < n /\ channel_done (chans c) = false) /\ result = Ok Joining) /\
           (1 <= batch <= 128 ->
              (result = Ok Joining -> exists c l ch', 0 <= c < n /\ channel_step batch msgs l (chans c) = Some ch') /\
              (forall c, 0 <= c < n -> Acc (fun ch2 ch1 => exists l, channel_step batch msgs l ch1 = Some ch2) (chans c)) /\
              (forall total errors, result = Ok (Measured total errors) -> total = received_in_all n chans mod 2 ^ 64)) /\
           (batch = 0 -> 0 < msgs -> 0 < n -> result = Ok Joining) /\
           (128 < batch -> 128 < msgs -> exists ch, channel_reachable batch msgs ch /\
              (forall l, channel_step batch msgs l ch = None) /\
              forall c, 0 <= c < n -> chans c = ch -> result = Ok Joining))
  | Panic => main checks args sockets chans = Panic
  | Err _ | Diverge => False
  end.
Proof.
  intros Hlen. unfold main. rewrite bench_args_eq by done.
  destruct (args_spec_result (tail args) default_config) as [->|(cfg & -> & _ & Hc & Hmsgs & _)]; [done|done|].
  cbn [mbind outcome_bind]. set (n := channels cfg) in *. set (msgs := messages_per_channel cfg) in *.
  set (batch := batch_size cfg).
  pose proof (main_barrier sockets n) as Hm.
  destruct (checks && _) eqn:Hov.
  { apply andb_true_iff in Hov as [-> Hov].
    apply (main_overflows n msgs (fun total parties => let '(waiting, errors) := foldl (setup_channel sockets) (0, 0) (seqZ 0 n) in
      if waiting + 1 <? parties then Ok (BlockedAtBarrier (waiting + 1))
      else if forallb (fun c => channel_done (chans c)) (seqZ 0 n) then Ok (Measured total errors) else Ok Joining) Hov). }
  intros Hp Hreach.
  assert (Hov' : checks && (usize_max <? n * msgs) = false)
    by (destruct checks; [cbn in *; by apply orb_false_iff in Hov as [? _]|done]).
  pose proof (main_products checks n msgs (fun total parties => let '(waiting, errors) := foldl (setup_channel sockets) (0, 0) (seqZ 0 n) in
      if waiting + 1 <? parties then Ok (BlockedAtBarrier (waiting + 1))
      else if forallb (fun c => channel_done (chans c)) (seqZ 0 n) then Ok (Measured total errors) else Ok Joining)
      ltac:(lia) ltac:(lia) Hp Hov') as ->.
  destruct (foldl _ _ _) as [w e].
  destruct (Hm (proj1 Hc)) as (Hw & Hiff & He). split.
  - intros c Hcc Hf. exists (w + 1). assert (w <> 2 * n) by (intros Heq; by apply Hiff with c in Heq).
    split; [by replace (w + 1 <? n * 2 + 1) with true by lia|lia].
  - intros Hall%Hiff. rewrite (He Hall). replace (w + 1 <? n * 2 + 1) with false by lia.
    apply main_joins; [lia|lia|done].
Qed.

(** One channel whose publisher is refused, and one whose threads are both set up. *)
Definition refused_sockets (c : Z) : option socket * option socket :=
  (Some (mkSocket (subscriber_answers []) [true; true] []), None).
Definition sample_sockets (c : Z) : option socket * option socket :=
  (Some (mkSocket (subscriber_answers []) [true; true] []),
   Some (mkSocket (wire connack_packet) [true] [])).
Definition sample_args : list rstring :=
  map str ["shard_benchmark"; "--channels"; "1"; "--messages"; "3"; "--batch-size"; "2"].

Lemma bench_main_witness :
  (exists waiting, main true sample_args refused_sockets (fun _ => sample_channel) = Ok (BlockedAtBarrier waiting) /\
    1 <= waiting < 3) /\
  exists c l ch', 0 <= c < 1 /\ channel_step 2 3 l sample_channel = Some ch'.
Proof.
  split.
  - apply (proj1 (bench_main true sample_args refused_sockets (fun _ => sample_channel) ltac:(done)
      ltac:(by vm_compute) (fun _ _ => sample_channel_reachable)) 0); [done|]. intros [_ [s Hs]]. done.
  - apply (proj2 (bench_main true sample_args sample_sockets (fun _ => sample_channel) ltac:(done)
      ltac:(by vm_compute) (fun _ _ => sample_channel_reachable))); [|by vm_compute|by vm_compute].
    intros c Hc Hf. apply Hf. assert (c = 0) as -> by (cbn in Hc; lia). split; eexists; by vm_compute.
Defined.
