(* ===== verification/SystemProps.v ===== *)
(** * Properties of the whole process (src/connection.rs, src/broker.rs, src/queue.rs)

    Every interleaving of the connections, the shards and the writers, whatever bytes
    the clients send. *)

From S2P Require Import Socket Client ClientFlows ClientFlowsSpec.
From S2P Require Import Prelude Packets Topics Wire Codec CodecRoundtrip Queue QueueConc Broker BrokerSpec.
From S2P Require Import Sharded ShardedConc Connection ConnectionSpec System SystemSpec SystemLive SystemOrder.
From S2P Require Import SystemRace Process.
From S2P Require Main.

(** Two clients: one subscribes to a/+, the other publishes to a/b. *)
Definition sample_conns : list connection :=
  [mkConnection 1 100 [ReadOk [16; 13; 0; 4; 77; 81; 84; 84; 4; 2; 0; 60; 0; 1; 120; 130; 8; 0; 5];
                       ReadOk [0; 3; 97; 47; 43; 0]];
   mkConnection 2 200 [ReadOk [16; 13; 0; 4; 77; 81; 84; 84; 4; 2; 0; 60; 0; 1; 121];
                       ReadOk [50; 9; 0; 3; 97; 47; 98; 0; 7; 104; 105]; ReadErr]].

(** A push of a reader or a shard with its notification, and a writer's turn when an event
    is queued. *)
Definition reader_pushes (id : ConnectionId) : list step := [Reader id; Notify (inl id)].
Definition shard_pushes (i : nat) : list step := [ShardPush i; Notify (inr i)].
Definition writes (q : QueueHandle) (r : write_result) : list step := [Pop q Lock; Pop q PopFront; Write q r].

(** A schedule of two shards; the second write of the second writer fails. *)
Definition sample_schedule : list step :=
  [Reader 1; ReaderTx 1; Reader 2; ReaderTx 1; ReaderTx 2] ++ reader_pushes 1 ++
  [Reader 1; ReaderTx 1; ReaderTx 2; ReaderTx 1] ++ writes 100 WriteOk ++ reader_pushes 1 ++
  [ShardRecv 0 key_order; ShardRecv 1 key_order] ++ reader_pushes 2 ++ reader_pushes 2 ++
  [Reader 2; ReaderTx 2; ShardRecv 0 key_order] ++ writes 100 WriteOk ++
  [ShardRecv 0 key_order; ShardRecv 0 key_order] ++ shard_pushes 0 ++ [Reader 2] ++ writes 100 WriteOk ++
  writes 200 WriteOk ++ writes 200 (WriteErr 1).

Definition sample_world : world :=
  default (start_world 2 sample_conns) (world_steps sample_schedule (start_world 2 sample_conns)).

(** The subscriber's socket: CONNACK, SUBACK and the PUBLISH; the publisher's: CONNACK and
    the first byte of the PUBACK. *)
Example sample_sockets :
  (lookup_list (written sample_world) 100, lookup_list (written sample_world) 200, cut sample_world !! 200) =
  ([[32; 2; 0; 0]; [144; 3; 0; 5; 0]; [50; 9; 0; 3; 97; 47; 98; 0; 7; 104; 105]],
   [[32; 2; 0; 0]], Some [64]).
Proof. vm_compute. reflexivity. Qed.

Lemma world_steps_reachable {hasher : TopicHasher} n conns ls w w' :
  world_reachable n conns w -> world_steps ls w = Some w' -> world_reachable n conns w'.
Proof.
  revert w. induction ls as [|l ls IH]; intros w Hw Hs; simpl in Hs; [by simplify_eq|].
  destruct (world_step l w) as [w1|] eqn:Hl; simpl in Hs; [|done]. eapply IH; [|done]. by eapply world_next.
Qed.

Lemma sample_world_reachable : world_reachable 2 sample_conns sample_world.
Proof.
  eapply (world_steps_reachable 2 sample_conns sample_schedule); [apply world_start|].
  vm_compute. reflexivity.
Qed.

Lemma sample_conns_ok : connections_ok sample_conns.
Proof.
  split.
  - apply (bool_decide_unpack _). by vm_compute.
  - apply (bool_decide_unpack _). by vm_compute.
  - intros c Hc. repeat (apply elem_of_cons in Hc as [->|Hc]); [| |by apply not_elem_of_nil in Hc];
      by repeat constructor.
  - intros c Hc. repeat (apply elem_of_cons in Hc as [->|Hc]); [| |by apply not_elem_of_nil in Hc]; by vm_compute.
Qed.

(** C2: nobody is sent what he did not ask for.  Under every interleaving of any
    connections, shards and writers, whatever bytes arrive and whichever writes fail: a
    socket has whole frames, and after them at most the beginning of one more, when its
    write failed; the writer then has returned and nothing follows.  The frames are those of
    the events that [pop_blocking] returned, in order, and the calls on the queue, which
    never holds more than 128 events, are a sequential execution of the queue.  Each event that
    was written, or is in the writer's hand or queued, can be encoded, and is an answer that
    the connection's own reader has already pushed, or a PUBLISH that some connection has
    already sent, the same but perhaps for the RETAIN flag, whose topic matches a filter
    that this connection, which has registered, has already subscribed to. *)
Theorem system_integrity {hasher : TopicHasher} n conns w q :
  1 <= n -> connections_ok conns -> world_reachable n conns w ->
  exists events, lookup_list (written w) q = map event_wire events /\
    (forall part, cut w !! q = Some part -> q ∈ exited w /\
       exists c e, queues w !! q = Some c /\ consumer c = Returned (Some e) /\ cut_short part e) /\
    (forall l w', world_step l w = Some w' ->
       socket_bytes w q `prefix_of` socket_bytes w' q /\ (q ∈ exited w -> socket_bytes w' q = socket_bytes w q)) /\
    (forall c, queues w !! q = Some c -> len (items (queue c)) <= 128 /\
       legal (new 128) (log c) (queue c) /\ map event_wire (events ++ hand c) = map event_wire (taken c)) /\
    (forall e, e ∈ events ++ from_option backlog [] (queues w !! q) -> frame_ok e /\
       match e with
       | Packet (Publish p') => exists c cid f pub p, c ∈ conns /\ conn_queue c = q /\ pub ∈ conns /\
           CallSend (MsgRegister (conn_id c) cid q) ∈ made (todo w) c /\
           CallSend (MsgSubscribe (conn_id c) f) ∈ made (todo w) c /\
           CallSend (MsgPublish (conn_id pub) p) ∈ made (todo w) pub /\
           topic_matches_filter (topic p) f = true /\ (p' = p \/ p' = mark_retained p)
       | _ => exists c, c ∈ conns /\ conn_queue c = q /\ CallPush q e ∈ made (todo w) c
       end).
Proof.
  intros Hn Hok Hr. pose proof (world_reachable_ok n conns Hn Hok w Hr) as Hw.
  pose proof Hw as [_ _ Hq Hwr Hex _]. destruct (Hwr q) as (events & He & Hev).
  exists events. split_and!; [done| | | |].
  - intros part Hp. by eapply exited_cut.
  - intros l w' Hs. by eapply socket_grows.
  - intros c Hc. pose proof (q_reach _ _ _ _ _ (q_inv _ _ _ _ Hq q c Hc)) as Hqr.
    split_and!; [by apply queue_bound|by apply reachable_legal|].
    rewrite map_app, <- He. by eapply written_taken.
  - intros e Hin. assert (Hj : justified conns (todo w) q e).
    { apply elem_of_app in Hin as [Hin|Hin]; [rewrite Forall_forall in Hev; auto|].
      destruct (queues w !! q) as [c|] eqn:Hc; cbn in Hin; [|by apply not_elem_of_nil in Hin].
      pose proof (q_just _ _ _ _ _ (q_inv _ _ _ _ Hq q c Hc)) as Hj. rewrite Forall_forall in Hj. auto. }
    split; [by eapply justified_frame|].
    destruct e as [[]]; try (inversion Hj; subst; eauto; done). by eapply justified_publish.
Qed.

Lemma system_integrity_witness :
  exists events, lookup_list (written sample_world) 100 = map event_wire events /\
    (forall part, cut sample_world !! 100 = Some part -> 100 ∈ exited sample_world /\
       exists c e, queues sample_world !! 100 = Some c /\ consumer c = Returned (Some e) /\ cut_short part e) /\
    (forall l w', world_step l sample_world = Some w' ->
       socket_bytes sample_world 100 `prefix_of` socket_bytes w' 100 /\
       (100 ∈ exited sample_world -> socket_bytes w' 100 = socket_bytes sample_world 100)) /\
    (forall c, queues sample_world !! 100 = Some c -> len (items (queue c)) <= 128 /\
       legal (new 128) (log c) (queue c) /\ map event_wire (events ++ hand c) = map event_wire (taken c)) /\
    (forall e, e ∈ events ++ from_option backlog [] (queues sample_world !! 100) -> frame_ok e /\
       match e with
       | Packet (Publish p') => exists c cid f pub p, c ∈ sample_conns /\ conn_queue c = 100 /\ pub ∈ sample_conns /\
           CallSend (MsgRegister (conn_id c) cid 100) ∈ made (todo sample_world) c /\
           CallSend (MsgSubscribe (conn_id c) f) ∈ made (todo sample_world) c /\
           CallSend (MsgPublish (conn_id pub) p) ∈ made (todo sample_world) pub /\
           topic_matches_filter (topic p) f = true /\ (p' = p \/ p' = mark_retained p)
       | _ => exists c, c ∈ sample_conns /\ conn_queue c = 100 /\ CallPush 100 e ∈ made (todo sample_world) c
       end).
Proof. apply (system_integrity 2); [lia|exact sample_conns_ok|exact sample_world_reachable]. Defined.

(** C3: where the process ends.  On inputs that end, every run with boundedly many spurious
    wakeups is finite, whatever the scheduler does.  It goes on until it is quiescent, and
    then nothing but a spurious wakeup can happen.  By then every reader has made all its
    calls; every shard knows of every connection exactly its registration and its
    subscriptions, to wildcard filters and to the shard's topics; a writer sleeps with
    everything written, or has returned because its queue was closed, or because a write failed;
    and the thread of a connection waits for more bytes, or has returned with its writer, or,
    in the one way in which the process can hang, waits in [join] for a writer that sleeps on
    its closed queue since it missed the notification of the close, and that only a spurious
    wakeup can move, since nobody is left to call the queue. *)
Theorem system_settles {hasher : TopicHasher} n conns w k :
  1 <= n -> connections_ok conns -> world_reachable n conns w ->
  Acc run_step (k, w) /\
  ((exists l w', world_step l w = Some w' /\ spurious l = false) \/ quiescent conns w) /\
  (quiescent conns w ->
     (forall l w', world_step l w = Some w' -> spurious l = true) /\
     (forall c, c ∈ conns ->
        made (todo w) c = conn_calls c /\ writer_end w (conn_queue c) /\ connection_end w c /\
        forall i s, shards (broker w) !! i = Some s ->
          let said := sends (conn_calls c) in
          clients (registry s) !! conn_id c = connected said (conn_id c) /\
          forall f, is_wildcard_filter f = true \/ Z.of_nat i = shard_for_topic f n ->
            subscriber (registry s) (conn_id c) f <-> subscribed said (conn_id c) f)).
Proof.
  intros Hn Hok Hr. apply world_reachable_ok in Hr; [|done|done].
  split_and!; [by eapply world_terminates|by eapply world_progress|].
  intros Hquiet. split; [intros l w'; by eapply quiescent_stops|].
  intros c Hc. split_and!; [by eapply quiescent_made|by eapply quiescent_writer|by eapply quiescent_connection|].
  intros i s Hs. by eapply quiescent_knows.
Qed.

Lemma system_settles_witness :
  Acc run_step (3%nat, sample_world) /\
  ((exists l w', world_step l sample_world = Some w' /\ spurious l = false) \/ quiescent sample_conns sample_world) /\
  (quiescent sample_conns sample_world ->
     (forall l w', world_step l sample_world = Some w' -> spurious l = true) /\
     (forall c, c ∈ sample_conns ->
        made (todo sample_world) c = conn_calls c /\ writer_end sample_world (conn_queue c) /\
        connection_end sample_world c /\
        forall i s, shards (broker sample_world) !! i = Some s ->
          let said := sends (conn_calls c) in
          clients (registry s) !! conn_id c = connected said (conn_id c) /\
          forall f, is_wildcard_filter f = true \/ Z.of_nat i = shard_for_topic f 2 ->
            subscriber (registry s) (conn_id c) f <-> subscribed said (conn_id c) f)).
Proof. apply (system_settles 2); [lia|exact sample_conns_ok|exact sample_world_reachable]. Defined.

(** A client that connects and leaves. *)
Definition leaving_conns : list connection :=
  [mkConnection 1 100 [ReadOk [16; 13; 0; 4; 77; 81; 84; 84; 4; 2; 0; 60; 0; 1; 120; 224; 0]]].

(** Up to the writer's look at the flag, and then the reader's close before the writer waits. *)
Definition closing_schedule : list step :=
  [Reader 1; ReaderTx 1] ++ reader_pushes 1 ++ [Reader 1; ReaderTx 1; ShardRecv 0 key_order; ShardRecv 0 key_order] ++
  writes 100 WriteOk ++ [Pop 100 Lock; Pop 100 PopFront; Pop 100 ReadClosed].
Definition close_overtakes (c : connection) : list step :=
  [Reader (conn_id c); Notify (inl (conn_id c)); Pop (conn_queue c) CondWait].

Definition closing_world : world :=
  default (start_world 1 leaving_conns) (world_steps closing_schedule (start_world 1 leaving_conns)).

Lemma closing_world_reachable : world_reachable 1 leaving_conns closing_world.
Proof.
  eapply (world_steps_reachable 1 leaving_conns closing_schedule); [apply world_start|].
  vm_compute. reflexivity.
Qed.

Lemma leaving_conns_ok : connections_ok leaving_conns.
Proof.
  split; [apply (bool_decide_unpack _); by vm_compute..| |]; intros c Hc; apply list_elem_of_singleton in Hc as ->;
    [by repeat constructor|by vm_compute].
Qed.

(** C40: a connection's thread can hang.  In any state of the process in which a reader has
    nothing left to do but to close its queue, while its writer has just read [closed = false]
    and nobody is about to notify it: the close, its notification and the writer's
    [wait] can follow, in this order.  The reader is then done, but its thread never returns
    from [writer.join()]: however the process goes on, without a spurious wakeup, as long as
    nobody makes another call on the queue, the thread still waits and the writer sleeps. *)
Theorem close_hangs_connection {hasher : TopicHasher} n conns w c qc :
  1 <= n -> connections_ok conns -> world_reachable n conns w -> c ∈ conns ->
  lookup_list (todo w) (conn_id c) = [CallClose (conn_queue c)] ->
  waking w !! inl (conn_id c) = None -> lookup_list (pending (broker w)) (conn_id c) = [] ->
  queues w !! conn_queue c = Some qc -> consumer qc = AtWait -> notifies qc = 0%nat -> closes qc = 0%nat ->
  exists w' qc', world_steps (close_overtakes c) w = Some w' /\ lookup_list (todo w') (conn_id c) = [] /\
    queues w' !! conn_queue c = Some qc' /\ stuck qc' /\
    forall ls w2 qc2, Forall (fun l => spurious l = false) ls -> world_steps ls w' = Some w2 ->
      queues w2 !! conn_queue c = Some qc2 -> log qc2 = log qc' ->
      joining w2 !! conn_id c = Some (conn_queue c) /\ stuck qc2.
Proof.
  intros Hn Hok Hr Hc Ht Hwk Hp Hq Hpc Hnot Hclo. apply world_reachable_ok in Hr; [|done|done].
  destruct (close_races n conns Hn Hok w c qc Hr Hc Ht Hwk Hp Hq Hpc Hnot Hclo)
    as (w' & qc' & Hs & Hq' & Hst & Hj & Hin & Hdone).
  exists w', qc'. split_and!; [done..|]. intros ls w2 qc2 Hls Hsteps Hq2 Hlog. by eapply hangs.
Qed.

Lemma close_hangs_connection_witness :
  let c := mkConnection 1 100 [ReadOk [16; 13; 0; 4; 77; 81; 84; 84; 4; 2; 0; 60; 0; 1; 120; 224; 0]] in
  exists w' qc', world_steps (close_overtakes c) closing_world = Some w' /\ lookup_list (todo w') 1 = [] /\
    queues w' !! 100 = Some qc' /\ stuck qc' /\
    forall ls w2 qc2, Forall (fun l => spurious l = false) ls -> world_steps ls w' = Some w2 ->
      queues w2 !! 100 = Some qc2 -> log qc2 = log qc' ->
      joining w2 !! 1 = Some 100 /\ stuck qc2.
Proof.
  intros c. eapply (close_hangs_connection 1 leaving_conns closing_world c).
  - lia.
  - exact leaving_conns_ok.
  - exact closing_world_reachable.
  - left.
  - by vm_compute.
  - by vm_compute.
  - by vm_compute.
  - by vm_compute.
  - done.
  - done.
  - done.
Defined.

(** C9: the order of a publisher's messages is kept, and none is delivered twice.  Under
    every interleaving, for every socket: the messages without the RETAIN flag that were
    written to it, are in its writer's hand or wait in its queue can be attributed to connections, so that those from
    one connection on one topic are a subsequence of what that connection has published on
    the topic so far, in its order.  (With the flag, a message cannot be told from a replay.) *)
Theorem system_order {hasher : TopicHasher} n conns w q :
  1 <= n -> connections_ok conns -> world_reachable n conns w ->
  exists events lv, lookup_list (written w) q = map event_wire events /\
    map snd lv = omap live (events ++ from_option backlog [] (queues w !! q)) /\
    (forall from p, (from, p) ∈ lv -> exists c, c ∈ conns /\ conn_id c = from) /\
    forall c t, c ∈ conns ->
      from_on (conn_id c) t lv `sublist_of` published (conn_id c) t (sends (made (todo w) c)).
Proof. intros Hn Hok Hr. by apply (live_in_order n). Qed.

Lemma system_order_witness :
  exists events lv, lookup_list (written sample_world) 100 = map event_wire events /\
    map snd lv = omap live (events ++ from_option backlog [] (queues sample_world !! 100)) /\
    (forall from p, (from, p) ∈ lv -> exists c, c ∈ sample_conns /\ conn_id c = from) /\
    forall c t, c ∈ sample_conns ->
      from_on (conn_id c) t lv `sublist_of` published (conn_id c) t (sends (made (todo sample_world) c)).
Proof. apply (system_order 2); [lia|exact sample_conns_ok|exact sample_world_reachable]. Defined.

(** C18: from the command line to the running process.  When [main] gets to listen, for any
    arguments, any accept results, any order in which the threads of the accepted streams
    reach [handle_connection] and any sockets that cannot be cloned: there is at least one
    shard; the other streams are the connections of the process, with different ids and
    queues, so that the theorems on the process apply to it; its runs are finite, up to
    spurious wakeups; and when nothing can happen any more, each connection's thread waits
    for bytes, has returned with its writer, or hangs in [join] since the notification of its
    close was lost. *)
Theorem process_runs {hasher : TopicHasher} sender_size args incoming events streams fresh clone_ok reads w k :
  len args <= isize_max -> Main.main sender_size args true incoming = Ok events ->
  streams ≡ₚ accepted_streams events -> len incoming < 2 ^ 64 - 1 ->
  (forall s, Some s ∈ incoming -> bytes_ok (read_bytes (reads s)) /\ len (read_bytes (reads s)) <= isize_max) ->
  let n := Main.num_shards (fst (Main.args_spec (tail args) Main.default_config)) in
  let conns := open_connections NEXT_CONNECTION_ID fresh clone_ok reads streams in
  world_reachable n conns w ->
  1 <= n /\ connections_ok conns /\
  map conn_reads conns = map reads (filter (fun s => clone_ok s = true) streams) /\
  Acc run_step (k, w) /\
  ((exists l w', world_step l w = Some w' /\ spurious l = false) \/
   quiescent conns w /\ forall c, c ∈ conns -> connection_end w c).
Proof.
  intros Hargs Hmain Hperm Hl Hreads n conns Hr.
  destruct (main_listens sender_size args incoming events Hargs Hmain) as (Hn & _ & Hacc).
  rewrite Hacc in Hperm.
  assert (Hok : connections_ok conns).
  { apply open_connections_ok.
    - unfold len in *. rewrite (Permutation_length Hperm). pose proof (omap_length_le (fun s => s) incoming). lia.
    - intros s Hs. apply Hreads. rewrite Hperm in Hs. by apply list_elem_of_omap in Hs as (x & Hx & ->). }
  apply world_reachable_ok in Hr; [|done|done].
  split; [done|]. split; [exact Hok|]. split; [apply open_connections_all|]. split; [by eapply world_terminates|].
  destruct (world_progress n conns Hn Hok w Hr) as [|Hquiet]; [by left|right].
  split; [done|]. intros c Hc. by eapply quiescent_connection.
Qed.

Definition sample_reads (s : Z) : list read_result :=
  if s =? 7 then [ReadOk [16; 13; 0; 4; 77; 81; 84; 84; 4; 2; 0; 60; 0; 1; 120; 192; 0]] else [ReadErr].

Lemma process_runs_witness :
  let conns := open_connections NEXT_CONNECTION_ID 100 (fun s => negb (s =? 9)) sample_reads [8; 9; 7] in
  1 <= 4 /\ connections_ok conns /\
  map conn_reads conns = map sample_reads (filter (fun s => negb (s =? 9) = true) [8; 9; 7]) /\
  Acc run_step (2%nat, start_world 4 conns) /\
  ((exists l w', world_step l (start_world 4 conns) = Some w' /\ spurious l = false) \/
   quiescent conns (start_world 4 conns) /\ forall c, c ∈ conns -> connection_end (start_world 4 conns) c).
Proof.
  apply (process_runs 16 [str "blitzbroker"] [Some 7; None; Some 8; Some 9]
    [Main.ShardsActive 4; Main.Listening; Main.HandleConnection 7; Main.AcceptError; Main.HandleConnection 8;
     Main.HandleConnection 9] [8; 9; 7]).
  - done.
  - by vm_compute.
  - cbn. apply (bool_decide_unpack _). by vm_compute.
  - done.
  - intros s _. unfold sample_reads. destruct (s =? 7); (split; [repeat constructor|by vm_compute]).
  - apply world_start.
Defined.

(** A retained message for the topic a, and then the client's subscription to it. *)
Definition race_client_bytes : bytes :=
  match Client.encode_connect (E:=unit) (client_id_of 7) 60, Client.encode_subscribe (E:=unit) 1 (str "a") 0 with
  | Ok connect, Ok subscribe => connect ++ subscribe
  | _, _ => []
  end.
Definition race_publisher : connection :=
  mkConnection 1 100 [ReadOk [16; 13; 0; 4; 77; 81; 84; 84; 4; 2; 0; 60; 0; 1; 120; 49; 5; 0; 1; 97; 104; 105]].
Definition race_client : connection := mkConnection 2 200 [ReadOk race_client_bytes].
Definition race_schedule : list step :=
  [Reader 1; ReaderTx 1] ++ reader_pushes 1 ++ [Reader 1; ReaderTx 1; ShardRecv 0 key_order; ShardRecv 0 key_order] ++
  [Reader 2; ReaderTx 2; ShardRecv 0 key_order] ++ reader_pushes 2 ++ writes 200 WriteOk.
Definition race_world : world :=
  default (start_world 1 [race_publisher; race_client])
    (world_steps race_schedule (start_world 1 [race_publisher; race_client])).

Lemma race_world_reachable : world_reachable 1 [race_publisher; race_client] race_world.
Proof.
  eapply (world_steps_reachable 1 _ race_schedule); [apply world_start|]. vm_compute. reflexivity.
Qed.

Lemma race_conns_ok : connections_ok [race_publisher; race_client].
Proof.
  split.
  - apply (bool_decide_unpack _). by vm_compute.
  - apply (bool_decide_unpack _). by vm_compute.
  - intros c Hc. repeat (apply elem_of_cons in Hc as [->|Hc]); [| |by apply not_elem_of_nil in Hc];
      by repeat constructor.
  - intros c Hc. repeat (apply elem_of_cons in Hc as [->|Hc]); [| |by apply not_elem_of_nil in Hc]; by vm_compute.
Qed.

(** C20: a retained message can overtake the SUBACK, and the client does not survive it.
    In any state of the process in which a reader is about to serve a SUBSCRIBE to a topic
    with a retained message, its client has been sent the CONNACK, the topic's shard is idle
    and the queue is free: the reader sends the subscription to the broker before it queues
    the SUBACK, so that the same five steps can go in two orders, and the shard's replay can
    be queued first, as section 3.8.4 permits.  Then [run_sub], which asked for the topic,
    takes the PUBLISH for a broken SUBACK and gives up, whatever comes later; in the other
    order it goes on and prints the message. *)
Theorem replay_can_overtake_suback {hasher : TopicHasher} n conns w c f p i order process_id :
  1 <= n -> connections_ok conns -> world_reachable n conns w -> c ∈ conns -> pid_ok process_id ->
  about_to_subscribe n w c f p i -> outgoing w (conn_queue c) = wire connack_packet ->
  exists w1 w2, world_steps (replay_first (conn_id c) i order) w = Some w1 /\
    world_steps (suback_first (conn_id c) i order) w = Some w2 /\
    replay_first (conn_id c) i order ≡ₚ suback_first (conn_id c) i order /\
    (forall more, run_sub (Some (mkSocket (outgoing w1 (conn_queue c) ++ more) [true; true] [])) process_id f =
       Err (Client.ExpectedSuback 3)) /\
    run_sub (Some (mkSocket (outgoing w2 (conn_queue c)) [true; true] [])) process_id f =
      Ok (wire (connect_packet process_id) ++ wire (subscribe_packet f),
          [printed (mark_retained p); ConnectionClosed Client.ReadHeader]).
Proof.
  intros Hn Hok Hr Hc Hp Hsub Hout. apply world_reachable_ok in Hr; [|done|done].
  destruct (known_retained n conns Hn Hok w c f p i Hr Hc Hsub) as (Hf & Hsend & _).
  destruct (both_orders n conns Hn Hok w c f p i order Hr Hc Hsub) as (w1 & w2 & H1 & H2 & Ho1 & Ho2).
  exists w1, w2. split; [done|]. split; [done|]. split; [do 3 constructor; constructor|]. split.
  - intros more. rewrite Ho1, Hout, <- !app_assoc. by apply run_sub_overtaken.
  - rewrite Ho2, Hout. pose proof (run_sub_ok process_id f [mark_retained p] [] Hp Hf) as Hs.
    cbn [map concat] in Hs. rewrite app_nil_r in Hs. apply Hs. by apply list.Forall_singleton.
Qed.

Lemma replay_can_overtake_suback_witness :
  exists w1 w2, world_steps (replay_first 2 0 key_order) race_world = Some w1 /\
    world_steps (suback_first 2 0 key_order) race_world = Some w2 /\
    replay_first 2 0 key_order ≡ₚ suback_first 2 0 key_order /\
    (forall more, run_sub (Some (mkSocket (outgoing w1 200 ++ more) [true; true] [])) 7 (str "a") =
       Err (Client.ExpectedSuback 3)) /\
    run_sub (Some (mkSocket (outgoing w2 200) [true; true] [])) 7 (str "a") =
      Ok (wire (connect_packet 7) ++ wire (subscribe_packet (str "a")),
          [printed (mark_retained (mkPublish (str "a") (str "hi") 0 true None)); ConnectionClosed Client.ReadHeader]).
Proof.
  apply (replay_can_overtake_suback 1 [race_publisher; race_client] race_world race_client (str "a")
    (mkPublish (str "a") (str "hi") 0 true None) 0 key_order 7).
  - lia.
  - exact race_conns_ok.
  - exact race_world_reachable.
  - right. left.
  - by vm_compute.
  - split; [done|eexists; by vm_compute|by vm_compute|by vm_compute| |].
    + do 2 eexists. split_and!; by vm_compute.
    + eexists. split_and!; by vm_compute.
  - by vm_compute.
Defined.
