(* ===== verification/TestKit.v ===== *)
(** * What the repository's unit tests use of Rust's test harness

    A test is an [outcome]: it passes when it is [Ok tt]; a failed assertion, a failed
    [unwrap] or [expect], an index out of range and [panic!] are [Panic]. *)

From S2P Require Import Prelude Errors.

Abbreviation test := (outcome Empty_set unit).

(** [assert!] *)
Definition assert_that {E} (b : bool) : outcome E unit := if b then Ok tt else Panic.

(** [assert_eq!] *)
Definition assert_eq {E A} `{EqDecision A} (x y : A) : outcome E unit :=
  assert_that (bool_decide (x = y)).

(** [assert!(matches!(o, Err(...)))] *)
Definition assert_err {E F A} (f : F -> bool) (o : outcome F A) : outcome E unit :=
  match o with
  | Err e => assert_that (f e)
  | Ok _ | Panic => Panic
  | Diverge => Diverge
  end.

(** [is_err()], [is_ok()] *)
Definition any_err {F} (e : F) : bool := true.
Definition assert_ok {E F A} (o : outcome F A) : outcome E unit :=
  match o with
  | Ok _ => Ok tt
  | Err _ | Panic => Panic
  | Diverge => Diverge
  end.

Definition is_incomplete (e : ProtocolError) : bool :=
  match e with Incomplete => true | _ => false end.
Definition is_malformed (e : ProtocolError) : bool :=
  match e with MalformedPayload _ => true | _ => false end.
Definition is_unsupported (e : ProtocolError) : bool :=
  match e with UnsupportedFeature _ => true | _ => false end.

(** Every test of a suite passes. *)
Definition suite_passes (tests : list test) : Prop := Forall (fun t => t = Ok tt) tests.

(** Evaluates the tests of a suite one by one. *)
Ltac run_suite := repeat (first [apply Forall_nil_2 | apply Forall_cons_2; [vm_compute; reflexivity|]]).
