(* ===== verification/ProtocolTests.v ===== *)
(** * The unit tests of the codec (src/protocol.rs, [mod tests])

    Each test of the source as it is written there, run on the model. *)

From S2P Require Import Prelude Errors Packets RemainingLength Topics Codec CodecSafety CodecRoundtrip Wire Socket TestKit.

(** ** Remaining Length *)

Definition remaining_length_roundtrip_single_byte : test :=
  encoded ← encode_remaining_length 64;
  _ ← assert_eq encoded [64];
  d ← unwrap (decode_remaining_length encoded);
  assert_eq d (64, 1).

Definition remaining_length_roundtrip_two_bytes : test :=
  encoded ← encode_remaining_length 321;
  _ ← assert_eq encoded [193; 2];
  d ← unwrap (decode_remaining_length encoded);
  assert_eq d (321, 2).

Definition remaining_length_max_value_four_bytes : test :=
  encoded ← encode_remaining_length 268435455;
  _ ← assert_eq encoded [255; 255; 255; 127];
  d ← unwrap (decode_remaining_length encoded);
  assert_eq d (268435455, 4).

Definition remaining_length_incomplete_never_panics : test :=
  _ ← assert_err is_incomplete (decode_remaining_length [128]);
  assert_err is_incomplete (decode_remaining_length []).

Definition remaining_length_rejects_five_continuation_bytes : test :=
  let malformed := [255; 255; 255; 255; 1] in
  assert_err (fun e => bool_decide (e = InvalidRemainingLength)) (decode_remaining_length malformed).

(** ** Framing *)

Definition decode_empty_buffer_is_incomplete_not_panic : test := assert_err is_incomplete (decode []).

Definition decode_unknown_packet_type_is_rejected : test :=
  let buf := [0; 0] in
  assert_err (fun e => bool_decide (e = UnknownPacketType 0)) (decode buf).

Definition decode_truncated_after_fixed_header_is_incomplete : test :=
  let buf := [as_u8 (Z.shiftl PT_PINGREQ 4); 10] in
  assert_err is_incomplete (decode buf).

Definition decode_pingreq_roundtrip : test :=
  bytes ← encode PingReq;
  '(packet, consumed) ← unwrap (decode bytes);
  _ ← assert_eq consumed (len bytes);
  assert_that (match packet with PingReq => true | _ => false end).

Definition decode_pingreq_rejects_nonzero_remaining_length : test :=
  let buf := [as_u8 (Z.shiftl PT_PINGREQ 4); 1; 171] in
  assert_err is_malformed (decode buf).

(** ** UTF-8 fields *)

Definition utf8_string_rejects_truncated_length_prefix : test := assert_err any_err (decode_utf8_string [0]).

Definition utf8_string_rejects_length_exceeding_buffer : test :=
  let buf := [0; 100] ++ str "hi" in
  assert_err any_err (decode_utf8_string buf).

Definition utf8_string_rejects_invalid_utf8_bytes : test :=
  let buf := [0; 2; 255; 254] in
  assert_err any_err (decode_utf8_string buf).

(** ** CONNECT *)

Definition sample_connect : ConnectPacket :=
  {| protocol_name := str "MQTT"; protocol_level := 4; clean_session := true;
     keep_alive_secs := 60; client_id := str "test-client" |}.

Definition connect_roundtrip : test :=
  let original := Connect sample_connect in
  bytes ← encode original;
  '(decoded, consumed) ← unwrap (decode bytes);
  _ ← assert_eq consumed (len bytes);
  match decoded with
  | Connect p =>
      _ ← assert_eq (protocol_name p) (str "MQTT");
      _ ← assert_eq (protocol_level p) 4;
      _ ← assert_that (clean_session p);
      _ ← assert_eq (keep_alive_secs p) 60;
      assert_eq (client_id p) (str "test-client")
  | _ => Panic
  end.

Definition connect_rejects_wrong_protocol_name : test :=
  body ← encode_utf8_string (str "MQXX") [];
  let body := body ++ [4] in
  let body := body ++ [2] in
  let body := body ++ u16_to_be_bytes 60 in
  body ← encode_utf8_string (str "id") body;
  bytes ← prepend_fixed_header PT_CONNECT 0 body;
  assert_err is_malformed (decode bytes).

Definition connect_rejects_unsupported_protocol_level : test :=
  body ← encode_utf8_string (str "MQTT") [];
  let body := body ++ [5] in
  let body := body ++ [2] in
  let body := body ++ u16_to_be_bytes 60 in
  body ← encode_utf8_string (str "id") body;
  bytes ← prepend_fixed_header PT_CONNECT 0 body;
  assert_err is_unsupported (decode bytes).

Definition connect_truncated_mid_variable_header_is_malformed_not_panic : test :=
  body ← encode_utf8_string (str "MQTT") [];
  bytes ← prepend_fixed_header PT_CONNECT 0 body;
  assert_err any_err (decode bytes).

(** ** SUBSCRIBE and UNSUBSCRIBE *)

Definition subscribe_roundtrip_multiple_topics : test :=
  let original := Subscribe {| sub_packet_id := 42; subscriptions := [(str "a/b", 0); (str "c/d", 1)] |} in
  bytes ← encode original;
  '(decoded, consumed) ← unwrap (decode bytes);
  _ ← assert_eq consumed (len bytes);
  match decoded with
  | Subscribe p =>
      _ ← assert_eq (sub_packet_id p) 42;
      assert_eq (subscriptions p) [(str "a/b", 0); (str "c/d", 1)]
  | _ => Panic
  end.

Definition subscribe_rejects_empty_topic_list : test :=
  let body := u16_to_be_bytes 1 in
  bytes ← prepend_fixed_header PT_SUBSCRIBE 2 body;
  assert_err is_malformed (decode bytes).

Definition subscribe_rejects_invalid_qos : test :=
  let body := u16_to_be_bytes 1 in
  body ← encode_utf8_string (str "a") body;
  let body := body ++ [3] in
  bytes ← prepend_fixed_header PT_SUBSCRIBE 2 body;
  assert_err is_malformed (decode bytes).

Definition unsubscribe_roundtrip : test :=
  let original := Unsubscribe {| unsub_packet_id := 7; topic_filters := [str "x/y"] |} in
  bytes ← encode original;
  '(decoded, _) ← unwrap (decode bytes);
  match decoded with
  | Unsubscribe p =>
      _ ← assert_eq (unsub_packet_id p) 7;
      assert_eq (topic_filters p) [str "x/y"]
  | _ => Panic
  end.

(** ** PUBLISH and PUBACK *)

Definition publish_qos0_roundtrip : test :=
  let original := Publish {| topic := str "weather"; payload := str "rain"; qos := 0; retain := false;
                             pub_packet_id := None |} in
  bytes ← encode original;
  '(decoded, consumed) ← unwrap (decode bytes);
  _ ← assert_eq consumed (len bytes);
  match decoded with
  | Publish p =>
      _ ← assert_eq (topic p) (str "weather");
      _ ← assert_eq (payload p) (str "rain");
      _ ← assert_eq (qos p) 0;
      _ ← assert_that (negb (retain p));
      assert_eq (pub_packet_id p) None
  | _ => Panic
  end.

Definition publish_empty_payload_is_valid : test :=
  let original := Publish {| topic := str "t"; payload := []; qos := 0; retain := false;
                             pub_packet_id := None |} in
  bytes ← encode original;
  '(decoded, _) ← unwrap (decode bytes);
  match decoded with
  | Publish p => assert_eq (payload p) []
  | _ => Panic
  end.

Definition publish_rejects_qos2_reserved_value : test :=
  body ← encode_utf8_string (str "t") [];
  bytes ← prepend_fixed_header PT_PUBLISH 6 body;
  assert_err is_malformed (decode bytes).

Definition publish_rejects_qos2_as_unsupported : test :=
  body ← encode_utf8_string (str "t") [];
  let body := body ++ u16_to_be_bytes 1 in
  bytes ← prepend_fixed_header PT_PUBLISH 4 body;
  assert_err is_unsupported (decode bytes).

Definition publish_qos1_roundtrip : test :=
  let original := Publish {| topic := str "weather"; payload := str "rain"; qos := 1; retain := false;
                             pub_packet_id := Some 42 |} in
  bytes ← encode original;
  '(decoded, consumed) ← unwrap (decode bytes);
  _ ← assert_eq consumed (len bytes);
  match decoded with
  | Publish p =>
      _ ← assert_eq (qos p) 1;
      _ ← assert_eq (pub_packet_id p) (Some 42);
      assert_eq (payload p) (str "rain")
  | _ => Panic
  end.

Definition publish_qos1_rejects_truncated_packet_identifier : test :=
  body ← encode_utf8_string (str "t") [];
  let body := body ++ [0] in
  bytes ← prepend_fixed_header PT_PUBLISH 2 body;
  assert_err is_malformed (decode bytes).

Definition publish_qos1_rejects_zero_packet_identifier : test :=
  body ← encode_utf8_string (str "t") [];
  let body := body ++ u16_to_be_bytes 0 in
  bytes ← prepend_fixed_header PT_PUBLISH 2 body;
  assert_err is_malformed (decode bytes).

Definition puback_roundtrip : test :=
  let original := PubAck {| puback_packet_id := 99 |} in
  bytes ← encode original;
  '(decoded, consumed) ← unwrap (decode bytes);
  _ ← assert_eq consumed (len bytes);
  match decoded with
  | PubAck p => assert_eq (puback_packet_id p) 99
  | _ => Panic
  end.

Definition puback_rejects_wrong_body_length : test :=
  bytes ← prepend_fixed_header PT_PUBACK 0 [0; 1; 2];
  assert_err is_malformed (decode bytes).

Definition puback_rejects_zero_packet_identifier : test :=
  bytes ← prepend_fixed_header PT_PUBACK 0 (u16_to_be_bytes 0);
  assert_err is_malformed (decode bytes).

Definition puback_rejects_nonzero_flags : test :=
  bytes ← prepend_fixed_header PT_PUBACK 0 (u16_to_be_bytes 2);
  b0 ← index bytes 0;
  let bytes := <[0%nat := Z.lor b0 1]> bytes in
  assert_err is_malformed (decode bytes).

Definition publish_rejects_empty_topic_name : test :=
  body ← encode_utf8_string (str "") [];
  bytes ← prepend_fixed_header PT_PUBLISH 0 body;
  assert_err is_malformed (decode bytes).

Definition publish_rejects_wildcard_in_topic_name : test :=
  body ← encode_utf8_string (str "a/+/b") [];
  bytes ← prepend_fixed_header PT_PUBLISH 0 body;
  assert_err is_malformed (decode bytes).

(** ** Topic filters *)

Definition validate_filter_accepts_plain_topic : test :=
  assert_ok (validate_topic_filter (str "sport/tennis/player1")).

Definition validate_filter_accepts_hash_alone : test := assert_ok (validate_topic_filter (str "#")).

Definition validate_filter_accepts_hash_as_last_level : test :=
  assert_ok (validate_topic_filter (str "sport/tennis/player1/#")).

Definition validate_filter_rejects_hash_not_last : test :=
  assert_err is_malformed (validate_topic_filter (str "sport/#/player1")).

Definition validate_filter_rejects_hash_not_alone_in_level : test :=
  assert_err is_malformed (validate_topic_filter (str "sport/tennis#")).

Definition validate_filter_accepts_plus_at_any_level : test :=
  _ ← assert_ok (validate_topic_filter (str "sport/+/player1"));
  _ ← assert_ok (validate_topic_filter (str "+/+"));
  assert_ok (validate_topic_filter (str "+")).

Definition validate_filter_rejects_plus_not_alone_in_level : test :=
  assert_err is_malformed (validate_topic_filter (str "sport/+aa/player1")).

Definition validate_filter_rejects_empty_filter : test :=
  assert_err is_malformed (validate_topic_filter (str "")).

Definition matches_exact_topic : test :=
  _ ← assert_that (topic_matches_filter (str "sport/tennis/player1") (str "sport/tennis/player1"));
  assert_that (negb (topic_matches_filter (str "sport/tennis/player1") (str "sport/tennis/player2"))).

Definition matches_multi_level_wildcard : test :=
  _ ← assert_that (topic_matches_filter (str "sport/tennis/player1") (str "sport/tennis/player1/#"));
  _ ← assert_that (topic_matches_filter (str "sport/tennis/player1/ranking") (str "sport/tennis/player1/#"));
  _ ← assert_that (topic_matches_filter (str "sport") (str "sport/#"));
  _ ← assert_that (topic_matches_filter (str "sport/anything/at/all") (str "sport/#"));
  assert_that (topic_matches_filter (str "anything") (str "#")).

Definition matches_single_level_wildcard : test :=
  _ ← assert_that (topic_matches_filter (str "sport/tennis/player1") (str "sport/+/player1"));
  _ ← assert_that (topic_matches_filter (str "sport/hockey/player1") (str "sport/+/player1"));
  assert_that (negb (topic_matches_filter (str "sport/tennis/junior/player1") (str "sport/+/player1"))).

Definition matches_plus_does_not_match_missing_level : test :=
  assert_that (negb (topic_matches_filter (str "sport") (str "sport/+"))).

Definition matches_leading_slash_topics : test :=
  assert_that (topic_matches_filter (str "/finance") (str "+/+")).

Definition matches_never_panics_on_adversarial_slash_counts : test :=
  let many_slashes := concat (repeat (str "a/") (Z.to_nat 10000)) in
  _ ← assert_that (negb (topic_matches_filter many_slashes (str "x/y/z")));
  assert_that (topic_matches_filter many_slashes (str "#")).

Definition subscribe_rejects_invalid_wildcard_filter : test :=
  let body := u16_to_be_bytes 1 in
  body ← encode_utf8_string (str "sport/tennis#") body;
  let body := body ++ [0] in
  bytes ← prepend_fixed_header PT_SUBSCRIBE 2 body;
  assert_err is_malformed (decode bytes).

Definition subscribe_accepts_valid_wildcard_filter : test :=
  let original := Subscribe {| sub_packet_id := 1; subscriptions := [(str "sport/+/player1", 0)] |} in
  bytes ← encode original;
  assert_ok (decode bytes).

(** ** Buffering *)

(** The [next] closure: the generator's state, which is also its result. *)
Definition xorshift (state : Z) : Z :=
  let state := Z.lxor state (as_u32 (Z.shiftl state 13)) in
  let state := Z.lxor state (Z.shiftr state 17) in
  Z.lxor state (as_u32 (Z.shiftl state 5)).

(** [n] random bytes, and the state after them. *)
Fixpoint random_bytes (n : nat) (state : Z) : bytes * Z :=
  match n with
  | O => ([], state)
  | S n' =>
      let state := xorshift state in
      let '(buf, state') := random_bytes n' state in
      (as_u8 (state mod 256) :: buf, state')
  end.

(** The loop body: [decode] on a random buffer may return either way. *)
Definition random_step (state : Z) (i : nat) : outcome Empty_set Z :=
  let state := xorshift state in
  let n := state mod 64 in
  let '(buf, state) := random_bytes (Z.to_nat n) state in
  match decode buf with
  | Ok _ | Err _ => Ok state
  | Panic => Panic
  | Diverge => Diverge
  end.

Definition decode_never_panics_on_random_bytes : test :=
  _ ← foldM random_step 305419896 (seq 0 (Z.to_nat 20000));
  Ok tt.

Definition decode_only_consumes_one_packet_leaves_rest_buffered : test :=
  buf ← encode PingReq;
  second ← encode PingReq;
  let buf := buf ++ second in
  '(_, consumed) ← unwrap (decode buf);
  _ ← assert_eq consumed (len buf - len second);
  rest ← slice_from buf consumed;
  '(_, consumed2) ← unwrap (decode rest);
  assert_eq consumed2 (len second).

Definition decode_max_remaining_length_never_panics : test :=
  let buf := [as_u8 (Z.shiftl PT_PUBLISH 4); 255; 255; 255; 127] in
  assert_err any_err (decode buf).

Definition decode_large_publish_payload_roundtrip : test :=
  let t := str "load/test" in
  let data := repeat 171 (Z.to_nat (1024 * 1024)) in
  let original := Publish {| topic := t; payload := data; qos := 0; retain := false;
                             pub_packet_id := None |} in
  bytes ← encode original;
  '(decoded, consumed) ← unwrap (decode bytes);
  _ ← assert_eq consumed (len bytes);
  match decoded with
  | Publish p =>
      _ ← assert_eq (topic p) t;
      _ ← assert_eq (len (payload p)) (len data);
      _ ← assert_eq (payload p) data;
      _ ← assert_eq (qos p) 0;
      _ ← assert_that (negb (retain p));
      assert_eq (pub_packet_id p) None
  | _ => Panic
  end.

(** The tests that only have to be evaluated. *)
Definition protocol_tests : list test :=
  [remaining_length_roundtrip_single_byte;
   remaining_length_roundtrip_two_bytes;
   remaining_length_max_value_four_bytes;
   remaining_length_incomplete_never_panics;
   remaining_length_rejects_five_continuation_bytes;
   decode_empty_buffer_is_incomplete_not_panic;
   decode_unknown_packet_type_is_rejected;
   decode_truncated_after_fixed_header_is_incomplete;
   decode_pingreq_roundtrip;
   decode_pingreq_rejects_nonzero_remaining_length;
   utf8_string_rejects_truncated_length_prefix;
   utf8_string_rejects_length_exceeding_buffer;
   utf8_string_rejects_invalid_utf8_bytes;
   connect_roundtrip;
   connect_rejects_wrong_protocol_name;
   connect_rejects_unsupported_protocol_level;
   connect_truncated_mid_variable_header_is_malformed_not_panic;
   subscribe_roundtrip_multiple_topics;
   subscribe_rejects_empty_topic_list;
   subscribe_rejects_invalid_qos;
   unsubscribe_roundtrip;
   publish_qos0_roundtrip;
   publish_empty_payload_is_valid;
   publish_rejects_qos2_reserved_value;
   publish_rejects_qos2_as_unsupported;
   publish_qos1_roundtrip;
   publish_qos1_rejects_truncated_packet_identifier;
   publish_qos1_rejects_zero_packet_identifier;
   puback_roundtrip;
   puback_rejects_wrong_body_length;
   puback_rejects_zero_packet_identifier;
   puback_rejects_nonzero_flags;
   publish_rejects_empty_topic_name;
   publish_rejects_wildcard_in_topic_name;
   validate_filter_accepts_plain_topic;
   validate_filter_accepts_hash_alone;
   validate_filter_accepts_hash_as_last_level;
   validate_filter_rejects_hash_not_last;
   validate_filter_rejects_hash_not_alone_in_level;
   validate_filter_accepts_plus_at_any_level;
   validate_filter_rejects_plus_not_alone_in_level;
   validate_filter_rejects_empty_filter;
   matches_exact_topic;
   matches_multi_level_wildcard;
   matches_single_level_wildcard;
   matches_plus_does_not_match_missing_level;
   matches_leading_slash_topics;
   matches_never_panics_on_adversarial_slash_counts;
   subscribe_rejects_invalid_wildcard_filter;
   subscribe_accepts_valid_wildcard_filter;
   decode_only_consumes_one_packet_leaves_rest_buffered;
   decode_max_remaining_length_never_panics].

Lemma protocol_tests_evaluate : suite_passes protocol_tests.
Proof. unfold suite_passes, protocol_tests. run_suite. Qed.

(** ** The two long tests

    They hold for every buffer and every payload. *)

Lemma random_bytes_ok n state :
  bytes_ok (fst (random_bytes n state)) /\ length (fst (random_bytes n state)) = n.
Proof.
  revert state. induction n as [|n IH]; intros state; [by repeat constructor|]. cbn [random_bytes].
  destruct (IH (xorshift state)) as [Hb Hl]. destruct (random_bytes n (xorshift state)) as [buf st]. cbn in *.
  split; [|by rewrite Hl]. constructor; [|done]. unfold u8_ok, as_u8. lia.
Qed.

Lemma random_step_ok state i : exists state', random_step state i = Ok state'.
Proof.
  unfold random_step. cbn zeta. set (n := Z.to_nat (xorshift state mod 64)).
  destruct (random_bytes_ok n (xorshift state)) as [Hb Hl].
  destruct (random_bytes n (xorshift state)) as [buf st]. cbn [fst] in *.
  pose proof (decode_wp buf Hb) as Hw. assert (Hlen : len buf <= isize_max).
  { unfold len, isize_max. rewrite Hl. unfold n. lia. }
  specialize (Hw Hlen). destruct (decode buf) as [a|e| |]; [by exists st..|done|done].
Qed.

Lemma random_bytes_pass : decode_never_panics_on_random_bytes = Ok tt.
Proof.
  unfold decode_never_panics_on_random_bytes. generalize (seq 0 (Z.to_nat 20000)). intros l.
  generalize 305419896. induction l as [|i l IH]; intros st; [done|]. cbn [foldM].
  destruct (random_step_ok st i) as [st' ->]. apply IH.
Qed.

Lemma large_publish_pass : decode_large_publish_payload_roundtrip = Ok tt.
Proof.
  unfold decode_large_publish_payload_roundtrip. cbn zeta.
  assert (Hl : len (repeat 171 (Z.to_nat (1024 * 1024))) = 1048576) by (unfold len; rewrite repeat_length; lia).
  assert (Hb : bytes_ok (repeat 171 (Z.to_nat (1024 * 1024)))) by (apply Forall_forall; intros x ->%list_elem_of_In%repeat_spec; done).
  revert Hl Hb. generalize (repeat 171 (Z.to_nat (1024 * 1024))). intros data Hl Hb.
  set (p := Publish _). assert (Hp : decodable p).
  { split_and!; try done; try (vm_compute; split; congruence). }
  assert (Hr : remaining_length p <= 268435455) by (cbn; rewrite Hl; vm_compute; congruence).
  rewrite (encode_decodable p Hp Hr). cbn [mbind outcome_bind].
  rewrite <- (app_nil_r (wire p)) at 1. rewrite (decode_wire p [] Hp Hr). cbn [mbind outcome_bind unwrap p].
  unfold assert_eq. rewrite !bool_decide_eq_true_2 by done. done.
Qed.

Definition protocol_suite : list test :=
  decode_never_panics_on_random_bytes :: decode_large_publish_payload_roundtrip :: protocol_tests.

Lemma protocol_suite_passes : suite_passes protocol_suite.
Proof.
  apply Forall_cons_2; [exact random_bytes_pass|]. apply Forall_cons_2; [exact large_publish_pass|].
  exact protocol_tests_evaluate.
Qed.
