(* ===== verification/QueueTests.v ===== *)
(** * The unit tests of the queue (src/queue.rs, [mod tests])

    The consumer is the only thread: a [pop_blocking] that has to wait waits for ever. *)

From S2P Require Import Prelude Queue TestKit.

(** [pop_blocking], when nobody else uses the queue. *)
Definition pop {E A} (q : BoundedDropOldestQueue A) : outcome E (option A * BoundedDropOldestQueue A) :=
  match pop_blocking q with
  | (q', Return r) => Ok (r, q')
  | (_, Wait) => Diverge
  end.

Definition drop_oldest_when_full : test :=
  let q := new 2 in
  let '(q, dropped) := push q 1 in
  _ ← assert_that (negb dropped);
  let '(q, dropped) := push q 2 in
  _ ← assert_that (negb dropped);
  let '(q, dropped) := push q 3 in
  _ ← assert_that dropped;
  '(r, q) ← pop q;
  _ ← assert_eq r (Some 2);
  '(r, q) ← pop q;
  assert_eq r (Some 3).

Definition close_wakes_blocked_consumer : test :=
  let q := new (A:=Z) 4 in
  let q := close q in
  '(r, q) ← pop q;
  assert_eq r None.

Definition fifo_order_preserved_under_capacity : test :=
  let q := new 10 in
  let q := foldl (fun q i => fst (push q i)) q (seqZ 0 5) in
  _ ← foldM (fun q i =>
    '(r, q) ← pop q;
    _ ← assert_eq r (Some i);
    Ok q) q (seqZ 0 5);
  Ok tt.

Definition queue_suite : list test :=
  [drop_oldest_when_full; close_wakes_blocked_consumer; fifo_order_preserved_under_capacity].

Lemma queue_suite_passes : suite_passes queue_suite.
Proof. unfold suite_passes, queue_suite. run_suite. Qed.
