(* ===== verification/ConnectionTests.v ===== *)
(** * The unit tests of the dispatcher (src/connection.rs, [mod tests])

    [dispatch_packet] on a plain channel, whose receiving end the test holds, and on one
    outbound queue, at location 0. *)

From S2P Require Import Prelude Packets Queue Broker Sharded Connection Socket TestKit QueueTests.

Abbreviation test_world := (channel * store)%type.

(** [mpsc::channel()] and [queue::new(DEFAULT_CLIENT_QUEUE_CAPACITY)]. *)
Definition fresh_world : test_world := (mkChannel [] true, {[ 0 := new DEFAULT_CLIENT_QUEUE_CAPACITY ]}).

(** A call of [dispatch_packet(1, packet, &tx, &outbound)]. *)
Definition dispatch {E} (packet : MqttPacket) (w : test_world) : outcome E (bool * test_world) :=
  let '(calls, result) := dispatch_packet 1 packet 0 in
  w ← unwrap (run_calls calls w);
  Ok (result, w).

(** [rx.try_recv()] *)
Definition try_recv (w : test_world) : option BrokerMessage * test_world :=
  let '(rx, m) := w in
  match mailbox rx with
  | [] => (None, w)
  | msg :: rest => (Some msg, (mkChannel rest (rx_alive rx), m))
  end.

(** [outbound.close()] and [outbound.pop_blocking()] *)
Definition close_outbound (w : test_world) : test_world := let '(rx, m) := w in (rx, alter close 0 m).

Definition pop_outbound {E} (w : test_world) : outcome E (option OutboundEvent * test_world) :=
  let '(rx, m) := w in
  match m !! 0 with
  | None => Panic
  | Some q => '(r, q) ← pop q; Ok (r, (rx, <[0 := q]> m))
  end.

Definition pop_packet {E} (w : test_world) : outcome E (MqttPacket * test_world) :=
  '(r, w) ← pop_outbound w;
  match r with
  | Some (Packet p) => Ok (p, w)
  | None => Panic
  end.

(** The [for expected in ...] loops over the topics of the messages received. *)
Definition expect_topics {E} (topic_in : BrokerMessage -> option rstring) (topics : list rstring) (w : test_world)
    : outcome E test_world :=
  foldM (fun w expected =>
    let '(r, w) := try_recv w in
    match r with
    | Some msg =>
        match topic_in msg with
        | Some t => _ ← assert_eq t expected; Ok w
        | None => Panic
        end
    | None => Panic
    end) w topics.

Definition subscribed (msg : BrokerMessage) : option rstring :=
  match msg with MsgSubscribe _ t => Some t | _ => None end.
Definition unsubscribed (msg : BrokerMessage) : option rstring :=
  match msg with MsgUnsubscribe _ t => Some t | _ => None end.

(** ** SUBSCRIBE *)

Definition subscribe_single_topic_produces_suback_with_correct_packet_id_and_return_code : test :=
  let sub := mkSubscribe 5 [(str "sensors/temp", 0)] in
  '(result, w) ← dispatch (Subscribe sub) fresh_world;
  _ ← assert_that result;
  w ← expect_topics subscribed [str "sensors/temp"] w;
  let '(r, w) := try_recv w in
  _ ← assert_that (bool_decide (r = None));
  let w := close_outbound w in
  '(p, w) ← pop_packet w;
  match p with
  | SubAck ack =>
      _ ← assert_eq (suback_packet_id ack) 5;
      assert_eq (return_codes ack) [0]
  | _ => Panic
  end.

Definition subscribe_multiple_topics_produces_suback_with_one_code_per_topic_in_order : test :=
  let sub := mkSubscribe 99 [(str "a/b", 0); (str "c/d", 0); (str "e/f", 0)] in
  '(_, w) ← dispatch (Subscribe sub) fresh_world;
  w ← expect_topics subscribed [str "a/b"; str "c/d"; str "e/f"] w;
  let '(r, w) := try_recv w in
  _ ← assert_that (bool_decide (r = None));
  let w := close_outbound w in
  '(p, w) ← pop_packet w;
  match p with
  | SubAck ack =>
      _ ← assert_eq (suback_packet_id ack) 99;
      assert_eq (return_codes ack) [0; 0; 0]
  | _ => Panic
  end.

Definition subscribe_max_packet_id_echoed_in_suback : test :=
  let sub := mkSubscribe 65535 [(str "t", 0)] in
  '(_, w) ← dispatch (Subscribe sub) fresh_world;
  let w := close_outbound w in
  '(p, w) ← pop_packet w;
  match p with
  | SubAck ack => assert_eq (suback_packet_id ack) 65535
  | _ => Panic
  end.

(** ** UNSUBSCRIBE *)

Definition unsubscribe_produces_unsuback_with_correct_packet_id : test :=
  let unsub := mkUnsubscribe 12 [str "sensors/temp"] in
  '(result, w) ← dispatch (Unsubscribe unsub) fresh_world;
  _ ← assert_that result;
  w ← expect_topics unsubscribed [str "sensors/temp"] w;
  let '(r, w) := try_recv w in
  _ ← assert_that (bool_decide (r = None));
  let w := close_outbound w in
  '(p, w) ← pop_packet w;
  match p with
  | UnsubAck ack => assert_eq (unsuback_packet_id ack) 12
  | _ => Panic
  end.

Definition unsubscribe_multiple_topics_sends_one_unsuback : test :=
  let unsub := mkUnsubscribe 7 [str "a/b"; str "c/d"] in
  '(_, w) ← dispatch (Unsubscribe unsub) fresh_world;
  w ← expect_topics unsubscribed [str "a/b"; str "c/d"] w;
  let '(r, w) := try_recv w in
  _ ← assert_that (bool_decide (r = None));
  let w := close_outbound w in
  '(p, w) ← pop_packet w;
  _ ← (match p with
       | UnsubAck ack => assert_eq (unsuback_packet_id ack) 7
       | _ => Panic
       end);
  '(r, w) ← pop_outbound w;
  assert_that (bool_decide (r = None)).

(** ** PUBLISH *)

Definition publish_qos1_produces_puback_with_matching_packet_id : test :=
  let publish := mkPublish (str "sensors/temp") (str "21C") 1 false (Some 42) in
  '(result, w) ← dispatch (Publish publish) fresh_world;
  _ ← assert_that result;
  let '(r, w) := try_recv w in
  _ ← (match r with
       | Some (MsgPublish _ packet) =>
           _ ← assert_eq (topic packet) (str "sensors/temp");
           assert_eq (qos packet) 1
       | _ => Panic
       end);
  let '(r, w) := try_recv w in
  _ ← assert_that (bool_decide (r = None));
  let w := close_outbound w in
  '(p, w) ← pop_packet w;
  _ ← (match p with
       | PubAck ack => assert_eq (puback_packet_id ack) 42
       | _ => Panic
       end);
  '(r, w) ← pop_outbound w;
  assert_that (bool_decide (r = None)).

Definition publish_qos0_produces_no_puback : test :=
  let publish := mkPublish (str "sensors/temp") (str "21C") 0 false None in
  '(result, w) ← dispatch (Publish publish) fresh_world;
  _ ← assert_that result;
  let '(r, w) := try_recv w in
  _ ← assert_that (bool_decide (is_Some r));
  let w := close_outbound w in
  '(r, w) ← pop_outbound w;
  assert_that (bool_decide (r = None)).

Definition multiple_qos1_publishes_each_get_correctly_matched_puback : test :=
  w ← foldM (fun w pid =>
    let publish := mkPublish (str "t") [] 1 false (Some pid) in
    '(_, w) ← dispatch (Publish publish) w;
    Ok w) fresh_world [1; 2; 3];
  let w := close_outbound w in
  w ← foldM (fun w expected_pid =>
    '(p, w) ← pop_packet w;
    match p with
    | PubAck ack => _ ← assert_eq (puback_packet_id ack) expected_pid; Ok w
    | _ => Panic
    end) w [1; 2; 3];
  '(r, w) ← pop_outbound w;
  assert_that (bool_decide (r = None)).

Definition connection_suite : list test :=
  [subscribe_single_topic_produces_suback_with_correct_packet_id_and_return_code;
   subscribe_multiple_topics_produces_suback_with_one_code_per_topic_in_order;
   subscribe_max_packet_id_echoed_in_suback;
   unsubscribe_produces_unsuback_with_correct_packet_id;
   unsubscribe_multiple_topics_sends_one_unsuback;
   publish_qos1_produces_puback_with_matching_packet_id;
   publish_qos0_produces_no_puback;
   multiple_qos1_publishes_each_get_correctly_matched_puback].

Lemma connection_suite_passes : suite_passes connection_suite.
Proof. unfold suite_passes, connection_suite. run_suite. Qed.
