(* ===== verification/BrokerTests.v ===== *)
(** * Unit tests of the broker (src/broker.rs, [mod tests])

    The tests that shut the broker's thread down before they look at the queues: the
    thread has then handled every message, so a test is a function of [run_broker].  The
    orders of the maps' iterations are arguments, and the tests pass for all of them.
    Queues are at the locations 0, 1, ... in the order in which a test makes them. *)

From S2P Require Import Prelude Numbers Packets Topics Queue Broker BrokerSpec TestKit QueueTests.

Section tests.
  Context (orders : nat -> HashOrder).

(** The queues, of the given capacities, after the thread has ended. *)
Definition joined (capacities : list Z) (msgs : list BrokerMessage) : store :=
  let m := list_to_map (imap (fun i c => (Z.of_nat i, new c)) capacities) in
  push_events m (concat (snd (run_broker orders msgs))).

(** [queue.close()] on the handle *)
Definition closed_queue {E} (m : store) (out : QueueHandle) : outcome E (BoundedDropOldestQueue OutboundEvent) :=
  match m !! out with Some q => Ok (close q) | None => Panic end.

Definition pop_publish {E} (q : BoundedDropOldestQueue OutboundEvent)
    : outcome E (PublishPacket * BoundedDropOldestQueue OutboundEvent) :=
  '(r, q) ← pop q;
  match r with
  | Some (Packet (Publish p)) => Ok (p, q)
  | _ => Panic
  end.

Definition assert_empty (q : BoundedDropOldestQueue OutboundEvent) : test :=
  '(r, _) ← pop q;
  assert_that (bool_decide (r = None)).

(** [while q.pop_blocking().is_some() { received += 1; }] *)
Definition count_received {E} (q : BoundedDropOldestQueue OutboundEvent) : outcome E Z :=
  loop (S (length (items q))) (fun '(q, received) =>
    '(r, q) ← pop q;
    match r with
    | Some _ => received ← add_usize received 1; Ok (inl (q, received))
    | None => Ok (inr received)
    end) (q, 0).

Definition disconnect_removes_subscriptions_across_multiple_topics : test :=
  let topics := [str "alpha"; str "beta"; str "gamma"] in
  let m := joined [4]
    ([MsgRegister 10 (str "multi-sub-client") 0] ++
     map (fun t => MsgSubscribe 10 t) topics ++
     [MsgDisconnect 10] ++
     map (fun t => MsgPublish 99 (mkPublish t (str "should-not-arrive") 0 false None)) topics) in
  q ← closed_queue m 0;
  assert_empty q.

(** ** The stress test *)

Definition N_CLIENTS : Z := 20.
Definition N_TOPICS : Z := 5.
Definition MSGS_PER_TOPIC : Z := 50.
Definition OVER : Z := DEFAULT_CLIENT_QUEUE_CAPACITY + 20.

Definition stress_messages : list BrokerMessage :=
  map (fun i => MsgRegister (i + 100) (str "stress-client-" ++ display i) i) (seqZ 0 N_CLIENTS) ++
  map (fun i => MsgSubscribe (i + 100) (str "stress/t" ++ display (i mod N_TOPICS))) (seqZ 0 N_CLIENTS) ++
  concat (map (fun t =>
    map (fun seq => MsgPublish 0 (mkPublish (str "stress/t" ++ display t)
                      (str "t" ++ display t ++ str ":" ++ display seq) 0 false None))
        (seqZ 0 MSGS_PER_TOPIC)) (seqZ 0 N_TOPICS)).

Definition overflow_messages : list BrokerMessage :=
  [MsgRegister 200 (str "stress-overflow") 0; MsgSubscribe 200 (str "stress/overflow")] ++
  map (fun seq => MsgPublish 0 (mkPublish (str "stress/overflow") (str "msg:" ++ display seq) 0 false None))
      (seqZ 0 OVER).

Definition stress_no_data_loss_beyond_drop_oldest : test :=
  let m := joined (repeat DEFAULT_CLIENT_QUEUE_CAPACITY (Z.to_nat N_CLIENTS)) stress_messages in
  _ ← foldM (fun _ i =>
    q ← closed_queue m i;
    received ← count_received q;
    assert_eq received MSGS_PER_TOPIC) tt (seqZ 0 N_CLIENTS);
  let m := joined [DEFAULT_CLIENT_QUEUE_CAPACITY] overflow_messages in
  q ← closed_queue m 0;
  received_b ← count_received q;
  assert_eq received_b DEFAULT_CLIENT_QUEUE_CAPACITY.

(** ** Wildcards *)

Definition wildcard_subscribe_same_shard_delivers : test :=
  let m := joined [8]
    [MsgRegister 1 (str "wc-client") 0;
     MsgSubscribe 1 (str "sensors/+/temp");
     MsgPublish 0 (mkPublish (str "sensors/kitchen/temp") (str "21C") 0 false None)] in
  q ← closed_queue m 0;
  '(p, q) ← pop_publish q;
  _ ← assert_eq (topic p) (str "sensors/kitchen/temp");
  _ ← assert_eq (payload p) (str "21C");
  assert_empty q.

Definition wildcard_subscribe_non_matching_not_delivered : test :=
  let m := joined [8]
    [MsgRegister 1 (str "wc-client") 0;
     MsgSubscribe 1 (str "sensors/+/temp");
     MsgPublish 0 (mkPublish (str "sensors/kitchen/humidity") (str "60%") 0 false None)] in
  q ← closed_queue m 0;
  assert_empty q.

Definition wildcard_unsubscribe_stops_delivery : test :=
  let m := joined [8]
    [MsgRegister 1 (str "wc-client") 0;
     MsgSubscribe 1 (str "sensors/+/temp");
     MsgUnsubscribe 1 (str "sensors/+/temp");
     MsgPublish 0 (mkPublish (str "sensors/kitchen/temp") (str "21C") 0 false None)] in
  q ← closed_queue m 0;
  assert_empty q.

(** ** Retained messages *)

Definition make_publish (t : rstring) (data : bytes) (r : bool) : PublishPacket := mkPublish t data 0 r None.

Definition retain_then_subscribe_delivers_retained_message : test :=
  let m := joined [8]
    [MsgPublish 0 (make_publish (str "home/temp") (str "21C") true);
     MsgRegister 1 (str "late-sub") 0;
     MsgSubscribe 1 (str "home/temp")] in
  q ← closed_queue m 0;
  '(p, q) ← pop_publish q;
  _ ← assert_eq (topic p) (str "home/temp");
  _ ← assert_eq (payload p) (str "21C");
  _ ← assert_that (retain p);
  assert_empty q.

Definition retain_overwrite_new_subscriber_gets_only_latest : test :=
  let m := joined [8]
    [MsgPublish 0 (make_publish (str "sensors/door") (str "closed") true);
     MsgPublish 0 (make_publish (str "sensors/door") (str "open") true);
     MsgRegister 1 (str "late-sub") 0;
     MsgSubscribe 1 (str "sensors/door")] in
  q ← closed_queue m 0;
  '(p, q) ← pop_publish q;
  _ ← assert_eq (payload p) (str "open");
  _ ← assert_that (retain p);
  assert_empty q.

Definition retain_empty_payload_clears_stored_message : test :=
  let m := joined [8]
    [MsgPublish 0 (make_publish (str "status/light") (str "on") true);
     MsgPublish 0 (make_publish (str "status/light") (str "") true);
     MsgRegister 1 (str "late-sub") 0;
     MsgSubscribe 1 (str "status/light")] in
  q ← closed_queue m 0;
  assert_empty q.

Definition retain_wildcard_subscribe_receives_retained_message : test :=
  let m := joined [8]
    [MsgPublish 0 (make_publish (str "sensors/living/temp") (str "22C") true);
     MsgRegister 1 (str "wildcard-sub") 0;
     MsgSubscribe 1 (str "sensors/+/temp")] in
  q ← closed_queue m 0;
  '(p, q) ← pop_publish q;
  _ ← assert_eq (topic p) (str "sensors/living/temp");
  _ ← assert_eq (payload p) (str "22C");
  _ ← assert_that (retain p);
  assert_empty q.

Definition broker_suite : list test :=
  [disconnect_removes_subscriptions_across_multiple_topics;
   stress_no_data_loss_beyond_drop_oldest;
   wildcard_subscribe_same_shard_delivers;
   wildcard_subscribe_non_matching_not_delivered;
   wildcard_unsubscribe_stops_delivery;
   retain_then_subscribe_delivers_retained_message;
   retain_overwrite_new_subscriber_gets_only_latest;
   retain_empty_payload_clears_stored_message;
   retain_wildcard_subscribe_receives_retained_message].
End tests.

(** ** The orders do not matter

    Where a message makes at most one push, or no wildcard filter is registered, every
    order gives the same pushes. *)

Definition no_wildcards (st : broker_state) : bool :=
  forallb (fun e => negb (is_wildcard_filter (fst e))) (map_to_list (topics st)).

Definition publishes (msg : BrokerMessage) : bool :=
  match msg with MsgPublish _ _ => true | _ => false end.

Fixpoint order_free (msgs : list BrokerMessage) (st : broker_state) : bool :=
  match msgs with
  | [] => true
  | msg :: msgs' =>
      let '(st', out) := handle (order := key_order) msg st in
      ((len out <=? 1) || (publishes msg && no_wildcards st)) && order_free msgs' st'
  end.

Lemma fan_out_no_wildcards {order : HashOrder} cs st p :
  no_wildcards st = true ->
  fan_out cs (topics st) p =
  match topics st !! topic p with
  | Some subs => foldl (exact_pass cs p) ([], []) subs
  | None => ([], [])
  end.
Proof.
  unfold no_wildcards. intros Hn. unfold fan_out. cbn zeta. generalize (match topics st !! topic p with
    | Some subs => foldl (exact_pass cs p) ([], []) subs | None => ([], []) end). intros acc.
  assert (Hall : Forall (fun e => is_wildcard_filter (fst e) = false) (hash_iter (topics st))).
  { rewrite hash_iter_perm. apply Forall_forall. intros e He.
    apply forallb_forall with (x := e) in Hn; [by apply negb_true_iff|by apply list_elem_of_In]. }
  induction Hall as [|[f subs] l Hf _ IH]; [done|]. cbn [foldl]. cbn [fst] in Hf.
  unfold wildcard_entry at 2. by rewrite Hf.
Qed.

Lemma handle_order_free (order : HashOrder) msg st :
  broker_ok st ->
  (len (snd (handle (order := key_order) msg st)) <=? 1) || (publishes msg && no_wildcards st) = true ->
  handle (order := order) msg st = handle (order := key_order) msg st.
Proof.
  intros Hok Hfree. destruct (handle_orders order key_order msg st Hok) as [Hst Hout].
  apply orb_true_iff in Hfree as [Hone|[Hp Hn]%andb_true_iff].
  - destruct (handle (order := order) msg st) as [st1 out1], (handle (order := key_order) msg st) as [st2 out2].
    cbn [fst snd] in *. subst st2. f_equal.
    destruct out2 as [|x [|y out2]]; [by symmetry in Hout; apply Permutation_nil in Hout|by symmetry in Hout; apply Permutation_length_1_inv in Hout|].
    autorewrite with len in Hone. pose proof (len_nonneg out2). lia.
  - destruct msg as [| | |from p|]; try done. cbn [handle]. unfold handle_publish.
    by rewrite !fan_out_no_wildcards.
Qed.

Lemma order_free_run msgs st orders :
  broker_ok st -> order_free msgs st = true -> run_from orders msgs st = run_from (fun _ => key_order) msgs st.
Proof.
  revert st orders. induction msgs as [|msg msgs IH]; intros st orders Hok Hfree; [done|].
  cbn [order_free run_from] in *. pose proof (after_ok (order := key_order) msg st Hok) as Hok'. unfold after in Hok'.
  assert (Hh : handle (order := orders O) msg st = handle (order := key_order) msg st).
  { apply handle_order_free; [done|]. destruct (handle (order := key_order) msg st). apply andb_true_iff in Hfree as [Hm _]. exact Hm. }
  rewrite Hh. destruct (handle (order := key_order) msg st) as [st' out]. cbn [fst] in Hok'.
  apply andb_true_iff in Hfree as [_ Hfree]. by rewrite (IH st') by done.
Qed.

Lemma joined_orders orders capacities msgs :
  order_free msgs init_broker = true -> joined orders capacities msgs = joined (fun _ => key_order) capacities msgs.
Proof. intros Hf. unfold joined, run_broker. by rewrite order_free_run by (done || apply init_broker_ok). Qed.

(** A test on [joined] runs at the order of the keys. *)
Ltac run_joined orders t :=
  unfold t; cbn zeta; rewrite ?(joined_orders orders) by (vm_compute; reflexivity); vm_compute; reflexivity.

Lemma broker_suite_passes orders : suite_passes (broker_suite orders).
Proof.
  unfold suite_passes, broker_suite. repeat apply Forall_cons_2; [..|apply Forall_nil_2].
  - run_joined orders disconnect_removes_subscriptions_across_multiple_topics.
  - run_joined orders stress_no_data_loss_beyond_drop_oldest.
  - run_joined orders wildcard_subscribe_same_shard_delivers.
  - run_joined orders wildcard_subscribe_non_matching_not_delivered.
  - run_joined orders wildcard_unsubscribe_stops_delivery.
  - run_joined orders retain_then_subscribe_delivers_retained_message.
  - run_joined orders retain_overwrite_new_subscriber_gets_only_latest.
  - run_joined orders retain_empty_payload_clears_stored_message.
  - run_joined orders retain_wildcard_subscribe_receives_retained_message.
Qed.
