(* ===== verification/RacingTests.v ===== *)
(** * The other unit tests of the broker (src/broker.rs, [mod tests])

    Those that look at a queue while the broker's threads run.  A test is a process that
    branches over everything that the threads may have done when it looks: [explore]
    gives every interleaving of the pushes that the shards still have to make.  What a
    shard will push is determined by the messages in its channel, so it is worked out
    when they are sent.  The hash is [sum_hasher], the order of the maps [key_order]. *)

From S2P Require Import Prelude Numbers Packets Topics Queue Broker BrokerTests Sharded TestKit QueueTests.

(** The channels, the registries, the pushes to come, and the queues. *)
Record threads : Type := mkThreads {
  chans : list channel;
  registries : list broker_state;
  to_push : list (list push_call);
  shared : store;
}.

(** A process: its results, one for each way the threads may run. *)
Definition proc (A : Type) : Type := threads -> list (outcome Empty_set (A * threads)).

#[export] Instance proc_ret : MRet proc := fun A a w => [Ok (a, w)].

#[export] Instance proc_bind : MBind proc := fun A B k p w =>
  concat (map (fun o => match o with
    | Ok (a, w') => k a w'
    | Err e => [Err e]
    | Panic => [Panic]
    | Diverge => [Diverge]
    end) (p w)).

(** What the test's own thread does. *)
Definition run {A} (o : outcome Empty_set A) : proc A := fun w => [a ← o; Ok (a, w)].

(** The states that the shards may have reached, [fuel] pushes at most. *)
Fixpoint explore (fuel : nat) (w : threads) : list threads :=
  w ::
  match fuel with
  | O => []
  | S fuel' =>
      concat (imap (fun i pending =>
        match pending with
        | [] => []
        | c :: cs =>
            explore fuel' (mkThreads (chans w) (registries w) (<[i := cs]> (to_push w)) (push_event (shared w) c))
        end) (to_push w))
  end.

Definition pushes_left (w : threads) : nat := length (concat (to_push w)).
Definition may_reach (w : threads) : list threads := explore (pushes_left w) w.

(** ** The operations of the tests *)

(** The [i]-th shard's thread takes what is in its channel. *)
Definition serve (i : nat) (msg : BrokerMessage) (w : threads) : threads :=
  match registries w !! i with
  | Some st =>
      let '(st', out) := handle (order := key_order) msg st in
      mkThreads (chans w) (<[i := st']> (registries w)) (alter (fun cs => cs ++ out) i (to_push w)) (shared w)
  | None => w
  end.

(** The messages that [chans'] has and [chans w] has not. *)
Definition serve_new (chans' : list channel) (w : threads) : threads :=
  let w' := mkThreads chans' (registries w) (to_push w) (shared w) in
  foldl (fun w' '(i, (c, c')) =>
    foldl (fun w' msg => serve i msg w') w' (drop (length (mailbox c)) (mailbox c')))
    w' (imap (fun i cc => (i, cc)) (zip (chans w) chans')).

(** [mpsc::channel()] and [thread::spawn(move || run_broker(rx))], [n] times *)
Definition spawn_shards (n : nat) : threads :=
  mkThreads (replicate n (mkChannel [] true)) (replicate n init_broker) (replicate n []) ∅.

(** [tx.send(msg).unwrap()] on the [i]-th channel *)
Definition tx_tell (i : nat) (msg : BrokerMessage) : proc unit := fun w =>
  match chans w !! i with
  | Some c =>
      let '(c', ok) := tx_send c msg in
      if ok : bool then [Ok (tt, serve_new (<[i := c']> (chans w)) w)] else [Panic]
  | None => [Panic]
  end.

(** [broker.send(msg).unwrap()] *)
Definition tell (msg : BrokerMessage) : proc unit := fun w =>
  match send (hasher := sum_hasher) (chans w) msg with
  | (chans', Ok _) => [Ok (tt, serve_new chans' w)]
  | (_, Diverge) => [Diverge]
  | _ => [Panic]
  end.

(** [queue::new(c)], at the location [out] *)
Definition queue_new (out : QueueHandle) (c : Z) : proc unit := fun w =>
  [Ok (tt, mkThreads (chans w) (registries w) (to_push w) (<[out := new c]> (shared w)))].

Definition close_queue (out : QueueHandle) : proc unit := fun w =>
  map (fun w => Ok (tt, mkThreads (chans w) (registries w) (to_push w) (alter close out (shared w)))) (may_reach w).

(** [thread.join()]: every push of the [i]-th shard has been made. *)
Definition join_shard (i : nat) : proc unit := fun w =>
  map (fun w => Ok (tt, w)) (filter (fun w => length (default [] (to_push w !! i)) = O) (may_reach w)).

(** [out.pop_blocking()] returns in a state where it need not wait.  When it has to wait
    and no shard has a push to make, it waits for ever. *)
Definition pop_from (out : QueueHandle) : proc (option OutboundEvent) := fun w =>
  omap (fun w =>
    match shared w !! out with
    | None => Some Panic
    | Some q =>
        match pop_blocking q with
        | (q', Return r) =>
            Some (Ok (r, mkThreads (chans w) (registries w) (to_push w) (<[out := q']> (shared w))))
        | (_, Wait) => if bool_decide (pushes_left w = O) then Some Diverge else None
        end
    end) (may_reach w).

Definition expect_publish (out : QueueHandle) : proc PublishPacket :=
  r ← pop_from out;
  match r with
  | Some (Packet (Publish p)) => mret p
  | _ => run Panic
  end.

Definition expect_none (out : QueueHandle) : proc unit :=
  r ← pop_from out;
  run (assert_that (bool_decide (r = None))).

(** The test passes however the threads run, and there is a way to run. *)
Definition every_run (n : nat) (p : proc unit) : test :=
  let results := p (spawn_shards n) in
  assert_that (negb (bool_decide (length results = O)) &&
    forallb (fun o => match o with Ok _ => true | _ => false end) results).

(** [(0u64..).map(f).find(ok)], the first 64 *)
Definition find_topic (f : Z -> rstring) (ok : rstring -> bool) : outcome Empty_set rstring :=
  loop 64 (fun i => if ok (f i) then Ok (inr (f i)) else Ok (inl (i + 1))) 0.

Definition find_two_topics_on_different_shards (num_shards : Z) : outcome Empty_set (rstring * rstring) :=
  _ ← assert_that (2 <=? num_shards);
  loop 64 (fun '(i, (r0, r1)) =>
    let t := str "t/" ++ display i in
    let s := shard_for_topic (hasher := sum_hasher) t num_shards in
    let '(r0, r1) :=
      if (s =? 0) && bool_decide (r0 = None) then (Some t, r1)
      else if (s =? 1) && bool_decide (r1 = None) then (r0, Some t)
      else (r0, r1) in
    match r0, r1 with
    | Some t0, Some t1 => Ok (inr (t0, t1))
    | _, _ => Ok (inl (i + 1, (r0, r1)))
    end) (0, (None, None)).

(** ** The tests *)

Definition publish_fans_out_to_all_subscribers : test := every_run 1 (
  _ ← queue_new 0 4;
  _ ← queue_new 1 4;
  _ ← tx_tell 0 (MsgRegister 1 (str "a") 0);
  _ ← tx_tell 0 (MsgRegister 2 (str "b") 1);
  _ ← tx_tell 0 (MsgSubscribe 1 (str "weather"));
  _ ← tx_tell 0 (MsgSubscribe 2 (str "weather"));
  _ ← tx_tell 0 (MsgPublish 1 (mkPublish (str "weather") (str "rain") 0 false None));
  got_a ← expect_publish 0;
  got_b ← expect_publish 1;
  _ ← run (assert_eq (topic got_a) (str "weather"));
  _ ← run (assert_eq (payload got_a) (str "rain"));
  _ ← run (assert_eq (topic got_b) (str "weather"));
  _ ← run (assert_eq (payload got_b) (str "rain"));
  join_shard 0).

Definition disconnect_removes_all_subscriptions : test := every_run 1 (
  _ ← queue_new 0 4;
  _ ← tx_tell 0 (MsgRegister 1 (str "a") 0);
  _ ← tx_tell 0 (MsgSubscribe 1 (str "weather"));
  _ ← tx_tell 0 (MsgDisconnect 1);
  _ ← tx_tell 0 (MsgPublish 99 (mkPublish (str "weather") (str "rain") 0 false None));
  _ ← close_queue 0;
  _ ← expect_none 0;
  join_shard 0).

Definition sharded_broker_num_shards_1_behaves_like_single_broker : test := every_run 1 (
  _ ← queue_new 0 4;
  _ ← queue_new 1 4;
  _ ← tell (MsgRegister 1 (str "a") 0);
  _ ← tell (MsgRegister 2 (str "b") 1);
  _ ← tell (MsgSubscribe 1 (str "news"));
  _ ← tell (MsgSubscribe 2 (str "news"));
  _ ← tell (MsgPublish 0 (mkPublish (str "news") (str "headline") 0 false None));
  p ← expect_publish 0;
  _ ← run (assert_eq (topic p) (str "news"));
  _ ← run (assert_eq (payload p) (str "headline"));
  p ← expect_publish 1;
  _ ← run (assert_eq (topic p) (str "news"));
  _ ← run (assert_eq (payload p) (str "headline"));
  _ ← tell (MsgDisconnect 1);
  _ ← tell (MsgPublish 0 (mkPublish (str "news") (str "late") 0 false None));
  p ← expect_publish 1;
  _ ← run (assert_eq (payload p) (str "late"));
  _ ← close_queue 0;
  expect_none 0).

Definition shard_isolation_publish_only_reaches_subscribed_shard : test := every_run 2 (
  '(topic_shard0, topic_shard1) ← run (find_two_topics_on_different_shards 2);
  _ ← queue_new 0 8;
  _ ← tx_tell 0 (MsgRegister 50 (str "isolated") 0);
  _ ← tx_tell 0 (MsgSubscribe 50 topic_shard0);
  _ ← tx_tell 0 (MsgPublish 0 (mkPublish topic_shard0 (str "for-client") 0 false None));
  p ← expect_publish 0;
  _ ← run (assert_eq (topic p) topic_shard0);
  _ ← tx_tell 1 (MsgPublish 0 (mkPublish topic_shard1 (str "wrong-shard") 0 false None));
  _ ← join_shard 1;
  _ ← join_shard 0;
  _ ← close_queue 0;
  expect_none 0).

(** One delivery of the loop of the next test: which of the two topics it has. *)
Definition cross_delivery (topic_a topic_b : rstring) (got : bool * bool) : proc (bool * bool) :=
  let '(got_a, got_b) := got in
  p ← expect_publish 0;
  if bool_decide (topic p = topic_a) then
    _ ← run (assert_eq (payload p) (str "from-shard-a")); mret (true, got_b)
  else if bool_decide (topic p = topic_b) then
    _ ← run (assert_eq (payload p) (str "from-shard-b")); mret (got_a, true)
  else run Panic.

Definition cross_shard_client_receives_from_both_shards : test := every_run 4 (
  '(topic_a, topic_b) ← run (find_two_topics_on_different_shards 4);
  _ ← run (assert_that (negb (shard_for_topic (hasher := sum_hasher) topic_a 4 =?
                              shard_for_topic (hasher := sum_hasher) topic_b 4)));
  _ ← queue_new 0 16;
  _ ← tell (MsgRegister 77 (str "cross-shard-client") 0);
  _ ← tell (MsgSubscribe 77 topic_a);
  _ ← tell (MsgSubscribe 77 topic_b);
  _ ← tell (MsgPublish 0 (mkPublish topic_a (str "from-shard-a") 0 false None));
  _ ← tell (MsgPublish 0 (mkPublish topic_b (str "from-shard-b") 0 false None));
  got ← cross_delivery topic_a topic_b (false, false);
  got ← cross_delivery topic_a topic_b got;
  _ ← run (assert_that (fst got));
  _ ← run (assert_that (snd got));
  _ ← close_queue 0;
  expect_none 0).

Definition wildcard_filter : rstring := str "sensors/+/temp".
Definition wildcard_shard : Z := shard_for_topic (hasher := sum_hasher) wildcard_filter 4.
Definition find_concrete_topic : outcome Empty_set rstring :=
  find_topic (fun i => str "sensors/" ++ display i ++ str "/temp")
    (fun t => negb (shard_for_topic (hasher := sum_hasher) t 4 =? wildcard_shard)).

Definition wildcard_cross_shard_delivers : test := every_run 4 (
  concrete_topic ← run find_concrete_topic;
  _ ← run (assert_that (negb (shard_for_topic (hasher := sum_hasher) concrete_topic 4 =? wildcard_shard)));
  _ ← run (assert_that (topic_matches_filter concrete_topic wildcard_filter));
  _ ← queue_new 0 8;
  _ ← tell (MsgRegister 99 (str "xshard-wc-client") 0);
  _ ← tell (MsgSubscribe 99 wildcard_filter);
  _ ← tell (MsgPublish 0 (mkPublish concrete_topic (str "cross-shard") 0 false None));
  p ← expect_publish 0;
  _ ← run (assert_eq (topic p) concrete_topic);
  _ ← run (assert_eq (payload p) (str "cross-shard"));
  _ ← close_queue 0;
  expect_none 0).

Definition wildcard_cross_shard_unsubscribe_stops_delivery : test := every_run 4 (
  concrete_topic ← run find_concrete_topic;
  _ ← queue_new 0 8;
  _ ← tell (MsgRegister 98 (str "xshard-unsub-client") 0);
  _ ← tell (MsgSubscribe 98 wildcard_filter);
  _ ← tell (MsgUnsubscribe 98 wildcard_filter);
  _ ← tell (MsgPublish 0 (mkPublish concrete_topic (str "should-not-arrive") 0 false None));
  _ ← close_queue 0;
  expect_none 0).

Definition retain_cross_shard_wildcard_subscribe_receives_retained_message : test := every_run 4 (
  concrete_topic ← run find_concrete_topic;
  _ ← run (assert_that (negb (shard_for_topic (hasher := sum_hasher) concrete_topic 4 =? wildcard_shard)));
  _ ← queue_new 0 4;
  _ ← tell (MsgRegister 51 (str "fence") 0);
  _ ← tell (MsgSubscribe 51 concrete_topic);
  _ ← tell (MsgPublish 0 (make_publish concrete_topic (str "99C") true));
  p ← expect_publish 0;
  _ ← run (assert_eq (topic p) concrete_topic);
  _ ← queue_new 1 8;
  _ ← tell (MsgRegister 50 (str "xshard-retain-sub") 1);
  _ ← tell (MsgSubscribe 50 wildcard_filter);
  p ← expect_publish 1;
  _ ← run (assert_eq (topic p) concrete_topic);
  _ ← run (assert_eq (payload p) (str "99C"));
  _ ← run (assert_that (retain p));
  _ ← close_queue 1;
  expect_none 1).

Definition racing_suite : list test :=
  [publish_fans_out_to_all_subscribers;
   disconnect_removes_all_subscriptions;
   sharded_broker_num_shards_1_behaves_like_single_broker;
   shard_isolation_publish_only_reaches_subscribed_shard;
   cross_shard_client_receives_from_both_shards;
   wildcard_cross_shard_delivers;
   wildcard_cross_shard_unsubscribe_stops_delivery;
   retain_cross_shard_wildcard_subscribe_receives_retained_message].

Lemma racing_suite_passes : suite_passes racing_suite.
Proof. unfold suite_passes, racing_suite. run_suite. Qed.
