(* ===== verification/ClientTests.v ===== *)
(** * The unit tests of the client (src/bin/blitzclient.rs, [mod tests]) *)

From S2P Require Import Prelude Socket Client TestKit.

(** ** Remaining Length *)

Definition remaining_length_single_byte_zero : test :=
  enc ← encode_remaining_length 0;
  _ ← assert_eq enc [0];
  '(val, n) ← unwrap (decode_remaining_length enc);
  _ ← assert_eq val 0;
  assert_eq n 1.

Definition remaining_length_127 : test :=
  enc ← encode_remaining_length 127;
  _ ← assert_eq enc [127];
  '(val, n) ← unwrap (decode_remaining_length enc);
  _ ← assert_eq val 127;
  assert_eq n 1.

Definition remaining_length_128 : test :=
  enc ← encode_remaining_length 128;
  _ ← assert_eq enc [128; 1];
  '(val, n) ← unwrap (decode_remaining_length enc);
  _ ← assert_eq val 128;
  assert_eq n 2.

Definition remaining_length_16383 : test :=
  enc ← encode_remaining_length 16383;
  _ ← assert_eq enc [255; 127];
  '(val, n) ← unwrap (decode_remaining_length enc);
  _ ← assert_eq val 16383;
  assert_eq n 2.

Definition remaining_length_max : test :=
  enc ← encode_remaining_length 268435455;
  _ ← assert_eq enc [255; 255; 255; 127];
  '(val, n) ← unwrap (decode_remaining_length enc);
  _ ← assert_eq val 268435455;
  assert_eq n 4.

Definition remaining_length_rejects_five_continuation_bytes : test :=
  assert_err any_err (decode_remaining_length [255; 255; 255; 255; 1]).

Definition remaining_length_truncated : test := assert_err any_err (decode_remaining_length [128]).

(** ** CONNECT and SUBSCRIBE *)

(** [assert_eq!(v[i], x)] and [assert_eq!(&v[a..b], xs)] *)
Definition assert_at (v : bytes) (i x : Z) : test := b ← index v i; assert_eq b x.
Definition assert_slice (v : bytes) (a b : Z) (xs : bytes) : test := s ← slice v a b; assert_eq s xs.
Definition assert_from (v : bytes) (a : Z) (xs : bytes) : test := s ← slice_from v a; assert_eq s xs.

Definition connect_packet_fixed_header_and_body : test :=
  pkt ← encode_connect (str "test-client") 60;
  _ ← assert_at pkt 0 16;
  _ ← assert_at pkt 1 23;
  _ ← assert_slice pkt 2 8 ([0; 4] ++ str "MQTT");
  _ ← assert_at pkt 8 4;
  _ ← assert_at pkt 9 2;
  _ ← assert_slice pkt 10 12 [0; 60];
  _ ← assert_slice pkt 12 14 [0; 11];
  assert_from pkt 14 (str "test-client").

Definition connect_packet_total_length : test :=
  pkt ← encode_connect (str "abc") 0;
  assert_eq (len pkt) 17.

Definition subscribe_fixed_header_flags_are_0b0010 : test :=
  pkt ← encode_subscribe 1 (str "a/b") 0;
  assert_at pkt 0 130.

Definition subscribe_packet_structure : test :=
  pkt ← encode_subscribe 42 (str "test/#") 0;
  _ ← assert_at pkt 0 130;
  _ ← assert_at pkt 1 11;
  _ ← assert_slice pkt 2 4 [0; 42];
  _ ← assert_slice pkt 4 6 [0; 6];
  _ ← assert_slice pkt 6 12 (str "test/#");
  assert_at pkt 12 0.

Definition subscribe_wildcard_plus : test :=
  pkt ← encode_subscribe 1 (str "sensors/+/temp") 0;
  _ ← assert_at pkt 1 19;
  _ ← assert_slice pkt 4 6 [0; 14];
  _ ← assert_slice pkt 6 20 (str "sensors/+/temp");
  assert_at pkt 20 0.

(** ** CONNACK and SUBACK *)

Definition decode_connack_accepted : test :=
  let body := [0; 0] in
  '(sp, rc) ← unwrap (decode_connack_body body);
  _ ← assert_that (negb sp);
  assert_eq rc 0.

Definition decode_connack_refused_server_unavailable : test :=
  let body := [0; 3] in
  '(sp, rc) ← unwrap (decode_connack_body body);
  _ ← assert_that (negb sp);
  assert_eq rc 3.

Definition decode_connack_session_present_bit : test :=
  let body := [1; 0] in
  '(sp, rc) ← unwrap (decode_connack_body body);
  _ ← assert_that sp;
  assert_eq rc 0.

Definition decode_connack_body_too_short_does_not_panic : test :=
  _ ← assert_err any_err (decode_connack_body []);
  assert_err any_err (decode_connack_body [0]).

Definition decode_suback_single_subscription_granted : test :=
  let body := [0; 1; 0] in
  '(pid, rcs) ← unwrap (decode_suback_body body);
  _ ← assert_eq pid 1;
  assert_eq rcs [0].

Definition decode_suback_failure_return_code : test :=
  let body := [0; 5; 128] in
  '(pid, rcs) ← unwrap (decode_suback_body body);
  _ ← assert_eq pid 5;
  assert_eq rcs [128].

Definition decode_suback_multiple_return_codes : test :=
  let body := [0; 255; 0; 1; 128] in
  '(pid, rcs) ← unwrap (decode_suback_body body);
  _ ← assert_eq pid 255;
  assert_eq rcs [0; 1; 128].

Definition decode_suback_max_packet_id : test :=
  let body := [255; 255; 0] in
  '(pid, rcs) ← unwrap (decode_suback_body body);
  _ ← assert_eq pid 65535;
  assert_eq rcs [0].

Definition decode_suback_too_short_does_not_panic : test :=
  _ ← assert_err any_err (decode_suback_body []);
  _ ← assert_err any_err (decode_suback_body [0]);
  assert_err any_err (decode_suback_body [0; 1]).

(** ** PUBLISH and PUBACK *)

Definition decode_publish_body_qos0 : test :=
  let body := [0; 3] ++ str "a/b" ++ str "hello" in
  let flags := 0 in
  '(topic, payload, qos, pid) ← unwrap (decode_publish_body flags body);
  _ ← assert_eq topic (str "a/b");
  _ ← assert_eq payload (str "hello");
  _ ← assert_eq qos 0;
  assert_eq pid None.

Definition decode_publish_body_qos1_with_packet_id : test :=
  let body := [0; 1] ++ str "t" ++ [0; 42] ++ str "v" in
  let flags := 2 in
  '(topic, payload, qos, pid) ← unwrap (decode_publish_body flags body);
  _ ← assert_eq topic (str "t");
  _ ← assert_eq payload (str "v");
  _ ← assert_eq qos 1;
  assert_eq pid (Some 42).

Definition decode_publish_body_empty_payload : test :=
  let body := [0; 5] ++ str "hello" in
  let flags := 0 in
  '(topic, payload, qos, pid) ← unwrap (decode_publish_body flags body);
  _ ← assert_eq topic (str "hello");
  _ ← assert_eq payload [];
  _ ← assert_eq qos 0;
  assert_eq pid None.

Definition decode_publish_body_wildcard_topic_delivered : test :=
  let topic_str := str "sensors/kitchen/temp" in
  let tlen := as_u16 (len topic_str) in
  let body := u16_to_be_bytes tlen ++ topic_str ++ str "21C" in
  '(topic, payload, qos, _) ← unwrap (decode_publish_body 0 body);
  _ ← assert_eq topic (str "sensors/kitchen/temp");
  _ ← assert_eq payload (str "21C");
  assert_eq qos 0.

Definition decode_publish_body_truncated_topic_does_not_panic : test :=
  _ ← assert_err any_err (decode_publish_body 0 []);
  assert_err any_err (decode_publish_body 0 ([0; 5] ++ str "h")).

Definition decode_publish_body_qos1_missing_packet_id_does_not_panic : test :=
  let body := [0; 1] ++ str "t" in
  assert_err any_err (decode_publish_body 2 body).

Definition publish_qos0_no_packet_id : test :=
  pkt ← encode_publish (str "a/b") (str "hello") 0 None;
  _ ← assert_at pkt 0 48;
  _ ← assert_at pkt 1 10;
  _ ← assert_slice pkt 2 4 [0; 3];
  _ ← assert_slice pkt 4 7 (str "a/b");
  assert_from pkt 7 (str "hello").

Definition publish_qos1_has_packet_id : test :=
  pkt ← encode_publish (str "t") (str "v") 1 (Some 42);
  _ ← assert_at pkt 0 50;
  _ ← assert_at pkt 1 6;
  _ ← assert_slice pkt 2 4 [0; 1];
  _ ← assert_at pkt 4 116;
  _ ← assert_slice pkt 5 7 [0; 42];
  assert_at pkt 7 118.

Definition publish_empty_payload : test :=
  pkt ← encode_publish (str "x") [] 0 None;
  _ ← assert_at pkt 1 3;
  assert_eq (len pkt) (2 + 3).

Definition decode_puback_packet_id : test :=
  let body := [0; 42] in
  pid ← unwrap (decode_puback_body body);
  assert_eq pid 42.

Definition decode_puback_max_packet_id : test :=
  let body := [255; 255] in
  pid ← unwrap (decode_puback_body body);
  assert_eq pid 65535.

Definition decode_puback_body_too_short_does_not_panic : test :=
  _ ← assert_err any_err (decode_puback_body []);
  assert_err any_err (decode_puback_body [0]).

Definition disconnect_is_two_bytes : test :=
  let pkt := encode_disconnect in
  assert_eq pkt [224; 0].

(** ** Round trips *)

Definition publish_encode_decode_roundtrip_qos0 : test :=
  encoded ← encode_publish (str "home/sensors/temp") (str "22.5C") 0 None;
  b0 ← index encoded 0;
  let flags := as_u8 (Z.land b0 15) in
  body ← slice_from encoded 2;
  '(topic, payload, qos, pid) ← unwrap (decode_publish_body flags body);
  _ ← assert_eq topic (str "home/sensors/temp");
  _ ← assert_eq payload (str "22.5C");
  _ ← assert_eq qos 0;
  assert_eq pid None.

Definition publish_encode_decode_roundtrip_qos1 : test :=
  encoded ← encode_publish (str "alerts/door") (str "open") 1 (Some 7);
  b0 ← index encoded 0;
  let flags := as_u8 (Z.land b0 15) in
  body ← slice_from encoded 2;
  '(topic, payload, qos, pid) ← unwrap (decode_publish_body flags body);
  _ ← assert_eq topic (str "alerts/door");
  _ ← assert_eq payload (str "open");
  _ ← assert_eq qos 1;
  assert_eq pid (Some 7).

Definition client_suite : list test :=
  [remaining_length_single_byte_zero;
   remaining_length_127;
   remaining_length_128;
   remaining_length_16383;
   remaining_length_max;
   remaining_length_rejects_five_continuation_bytes;
   remaining_length_truncated;
   connect_packet_fixed_header_and_body;
   connect_packet_total_length;
   subscribe_fixed_header_flags_are_0b0010;
   subscribe_packet_structure;
   subscribe_wildcard_plus;
   decode_connack_accepted;
   decode_connack_refused_server_unavailable;
   decode_connack_session_present_bit;
   decode_connack_body_too_short_does_not_panic;
   decode_suback_single_subscription_granted;
   decode_suback_failure_return_code;
   decode_suback_multiple_return_codes;
   decode_suback_max_packet_id;
   decode_suback_too_short_does_not_panic;
   decode_publish_body_qos0;
   decode_publish_body_qos1_with_packet_id;
   decode_publish_body_empty_payload;
   decode_publish_body_wildcard_topic_delivered;
   decode_publish_body_truncated_topic_does_not_panic;
   decode_publish_body_qos1_missing_packet_id_does_not_panic;
   publish_qos0_no_packet_id;
   publish_qos1_has_packet_id;
   publish_empty_payload;
   decode_puback_packet_id;
   decode_puback_max_packet_id;
   decode_puback_body_too_short_does_not_panic;
   disconnect_is_two_bytes;
   publish_encode_decode_roundtrip_qos0;
   publish_encode_decode_roundtrip_qos1].

Lemma client_suite_passes : suite_passes client_suite.
Proof. unfold suite_passes, client_suite. run_suite. Qed.
